(* ===== verification/_CoqProject ===== *)
-Q . S2P
Prelude.v
Verbs.v
RefNic.v
Errors.v
Serdes.v
Device.v
Resources.v
Mr.v
Qp.v
Operations.v
Executor.v
PollerLife.v
AsioAwait.v
Handshake.v
BlockingQueue.v
Task.v
Logger.v
Rpc.v
Coro.v
Awaitables.v
SendBw.v
AsyncRpc.v
Lockstep.v
Latency.v
LatencyRaw.v
WriteBw.v
HelloWorld.v
RpcExample.v
Cancellation.v
SendWorker.v
Adapter.v
Ownership.v
IoThreads.v
Mains.v
Guarded.v
Flavour.v
NativeFlavour.v
AsioFlavour.v
Runtime.v
OnLibrary.v
Connected.v
Servers.v
