(* ===== verification/Prelude.v ===== *)
(** * RDMA++ (rdmapp): a verification development

    RDMA++ is a C++20 library over libibverbs: it wraps the verbs resources in owning
    objects, connects queue pairs, and gives each RDMA operation to a coroutine, which is
    resumed when the completion is polled. This library models the code of the program
    and proves what makes it correct. Paths below are relative to src/.

    ** The program and its models

    - Prelude: machine integers with their wrap-around, the outcomes of a C++ call (return,
      exception, [std::terminate], failed [assert], undefined behaviour) and the monad [M]
      of state and outcome in which all the code is written; [noexcept], [try]/[catch],
      destructors at the end of a scope ([raii]) and [assert] are its combinators.
    - Verbs: the boundary. libibverbs is a class of calls over an abstract driver; a call
      goes through [vcall], which records it in the trace of the [world]. The classes
      [MrLaws], [QpLaws], [CqLaws] state the documented behaviour some theorems need.
      RefNic is a provider that satisfies them and can be told to fail any call; the
      witnesses run on it.
    - Errors (include/rdmapp/error.h), Serdes (detail/serdes.h), Device (device.h,
      src/device.cc), Resources (pd, cq, srq), Mr (mr.h, src/mr.cc, pd::reg_mr), Qp and
      Operations (qp.h, src/qp.cc: lifecycle; awaitables), Executor (executor.h,
      src/executor.cc, cq_poller.h, src/cq_poller.cc), AsioAwait (the asio half of
      src/qp.cc and of the executor), Logger (log.h, detail/logger.h, src/logger.cc),
      BlockingQueue (detail/blocking_queue.h).
    - From the examples, the parts that are protocols of their own: Handshake
      (qp_transmission.cc, qp_acceptor.cc, qp_connector.cc), Rpc (include/coro_rpc.hpp)
      and Task (include/task.hpp, include/future.hpp).
    - The example programs, as pairs of coroutines on a connection. Coro has the type of
      coroutines (trees of events), the memory and registrations of a side, the class
      [Fabric] of connections and the steps of a pair; Awaitables joins it to Operations:
      the events are what awaiting the library's operations does. HelloWorld
      (helloworld_handler.cc), RpcExample (rpc.cc), Cancellation (cancellation.cc), Latency
      (latency.cc), LatencyRaw (latency_raw.cc), WriteBw (write_bw.cc, with its pool of
      contexts and its counters) are such pairs; Lockstep has the rounds in which the
      benchmarks' loops run; SendWorker (send_bw_raw.cc) is one sender and one worker.
    - SendBw (send_bw_raw.cc: all coroutines on their queue pair) is a system of steps;
      AsyncRpc (async_rpc.cc) is what the workers of its client show of the answers.
    - The composition. Runtime runs the coroutines of Coro by the library itself: awaitables
      of Operations, completion queues, pollers and a completion token; Adapter states what
      the adapter and the connection do to the queues of a queue pair, with a reference
      implementation. Runtime is written against the class [Flavour] (Flavour) of what a
      token promises to a coroutine that awaits; NativeFlavour (the token of Executor) and
      AsioFlavour (the one of AsioAwait) are its instances. Guarded has the coroutines whose
      events stay within what a process can ask for. OnLibrary applies Runtime to the
      examples, and Connected starts one on the queue pairs the handshake made.
    - PollerLife is the life of a poller: its thread, and the destructor that stops and
      joins it.
    - Around the coroutines. Servers puts the acceptor and connector loops of the examples
      over Handshake (and WriteBw's pool), with the start of what they spawn. IoThreads has
      the cases of the main functions: the work guards, signal sets, threads and coroutines
      that share an io_context, and the destructors at the end of a scope. Mains has the main
      functions (arguments, device, protection domain, the case that runs, exit status) and
      the class of the Python binding (pybind11/helloworld.cc); which objects their end
      destroys is a matter of shared ownership, for which Ownership has a heap of objects
      that hold each other by shared pointers.

    Definitions keep the names of the functions they translate; a member function of class
    [c] whose name is common is [c_f] ([qp_serialize] is [basic_qp::serialize]), a constructor
    [c_ctor], a destructor [c_dtor]. An object is a record with the class's members; a
    member function that changes the object returns the new one or works on it as the
    state of [M].

    How the parts interact. [Operations] makes and posts work requests through [Qp] on
    regions of [Mr]; the identifier of a work request is the address of the operation's
    state (native) or of a callback (asio). [Executor] polls a completion queue of
    [Resources] and hands each completion to [execute_callback], the method of the class
    [CompletionToken]: its two instances are [NativeToken] (Executor) and [AsioToken]
    (AsioAwait), and the poller's theorem is proved once against the class and its laws.
    [Handshake] moves the descriptions that [Qp] and [Serdes] encode over a byte stream
    and ends in [Qp]'s transitions. [Serdes] promises its clients the class [Codec], whose
    instances are the encodings of integers, pointers, GIDs and regions. The examples see
    the connection through [Fabric] and its laws only: a work request that is valid does
    what is documented, and one that needs a receive waits until there is one; what an
    invalid one does is left open, so that their theorems also show that they make none.

    ** What the theorems show

    - Lifecycle (Qp): a connected queue pair reaches RTS through exactly the transitions
      and attributes required, or the constructor throws; what is destroyed and what
      leaks; starting packet numbers do not repeat.
    - Operations: each operation posts exactly one signaled request with the operands
      given; the completion decides the result or the exception; implicit registrations
      are undone once.
    - Completions (Executor, AsioAwait): every polled completion is executed once, in order;
      each waiting coroutine is resumed once with its own; a receive with a cancellation
      completes at most once under every interleaving, and the one schedule that loses it.
    - Handles (Resources): protection domains and queues live exactly as long as their scope.
    - Memory regions (Mr): ownership as an invariant of a heap of objects, the causes of
      leaks, the bounds of views.
    - Wire formats (Serdes, Mr, Qp, Handshake): round trips between hosts of any byte
      order, and the agreement of both sides of the handshake.
    - Concurrency of the helpers (BlockingQueue, Task, Rpc): order and wake-ups of the
      queue; the hand-over of a task's result and its races; ownership of the slots,
      uniqueness of identifiers and the round trip of a remote call.
    - Errors, Device, Logger: the outcome of every branch and the texts; what is logged when.
    - Types and equivalence (Awaitables): the variant members of an awaitable are read only
      when they were written; an overload taking a span is registering and the overload
      taking a view; the events of coroutines refine to the library's definitions.
    - Composition (Runtime, OnLibrary): every execution of a pair of coroutines by the library
      is one of the events' meaning, stops only where that one does and is infinite only if
      that one can be, by a simulation with a measure; so what all executions under the
      events' meaning come to, the library's do. A registration keeps the meaning it has
      there, and an iteration of a poller that finds nothing changes nothing and is not a
      step. So the examples terminate on the
      library with their output: the benchmarks on native awaitables, and through asio
      hello-world (from its handshake on), rpc, latency, write_bw and cancellation.
    - Threads of the library (PollerLife): under every interleaving with the destructor a
      poller's worker uses no member after its destruction, and has executed what it polled.
    - Examples: under every schedule of the two sides and the connection, a pair terminates
      in one described state (output, memory, no registration left). For the benchmarks,
      for every number of messages; for SendBw, what holds of all reachable states and that
      it never blocks before all is sent. The server of
      helloworld.cc survives every handshake, those of rpc.cc and latency.cc are undefined at
      the first that fails, and the write benchmark spreads its connections over its contexts.
    - Main functions and threads (Mains, IoThreads): no exception leaves a main function, and
      what is destroyed when it returns: everything, or after a signal to three of the
      servers nothing, since acceptor, io_context and suspended loop hold each other. Which
      of the functions around an io_context end, which never do because of the order of
      their destructors, and one that may or may not.

    Where the code does not do what it means to, the theorem states what it does.

    ** Conventions and bounds

    Definitions are executable, and the witnesses evaluate them. Loops over data recurse on
    it; the poller's loop recurses on the list of answers its stop token gives, so every
    finite run is covered. Concurrent code is a step relation whose steps are its atomic
    actions; interleavings are the reachable states, under sequential consistency.
    Coroutines are cut at their [co_await]s. Text that is only logged is left out of the
    library's models and kept in those of the examples, whose output it is.

    [Coro.explore] has fuel: the number of rounds of the grid of the two sides' places, 50,
    100 and 200 where it is used; the evaluation itself shows that it suffices, since it gives
    [false] otherwise, and [explore_terminates] then holds of every execution.
    [IoThreads.all_runs] goes through all executions of a function's threads, at most 20 steps,
    in the same way; [all_runs_sound] turns its answer into a statement on the relation.
    [run_fuel] and the argument of [solo] bound the local steps between two awaits alike.
    The numbers of messages and workers of the benchmarks ([kSendCount]) are parameters;
    the sizes of buffers are those of the source.
    [Ownership.release] has as fuel the number of pointers it may drop
    ([drop_pointers_held] shows that it then leaves nothing without an owner), and
    [Servers.started] 20 steps to the first suspension of a coroutine (its lemmas show
    that the handlers reach it).

    ** Not modelled

    libibverbs, asio, cppcoro, the concurrent queue and the standard library, but for the
    behaviour stated above; weak memory effects; allocation failure other than in
    [make_callback]; completion_token.h, noncopyable.h and rdmapp.h, which only act at
    compile time; the times measured, the reporter threads' text, ASAN's signal handler
    and the registration of the Python module. The threads of the RPC client are known by
    what they run; joining them is not modelled (that of the poller is, in PollerLife, that
    of the examples in IoThreads). The RPC benchmark is not composed with the library: many of
    its coroutines share one queue pair through cppcoro's mutex and scope, and Rpc has them as
    the steps of one client and one server. In the pairs of coroutines the completions come
    without errors, as [FabricLaws] says for valid requests. *)

From stdpp Require Export base gmap sets list strings pretty relations.
From stdpp Require Import options.
From coqutil Require Byte Word.LittleEndianList.

(** ** Machine integers

    Every C++ integer is a [Z]; the conversions the source performs are written
    out with the wrap-around of the target type. *)

Definition wrap (w : Z) (z : Z) : Z := (z mod 2 ^ w)%Z.
Definition u8 : Z → Z := wrap 8.
Definition u16 : Z → Z := wrap 16.
Definition u32 : Z → Z := wrap 32.
Definition u64 : Z → Z := wrap 64.

(** Conversion to the 32-bit [int] (modular since C++20). *)
Definition i32 (z : Z) : Z :=
  let u := u32 z in if bool_decide (u < 2 ^ 31)%Z then u else (u - 2 ^ 32)%Z.

Definition in_width (w : Z) (z : Z) : Prop := (0 ≤ z < 2 ^ w)%Z.

#[export] Instance in_width_dec w z : Decision (in_width w z).
Proof. unfold in_width. apply _. Defined.

Section words.
Open Scope Z_scope.

Lemma wrap_in_width w z : 0 ≤ w → in_width w (wrap w z).
Proof. intros Hw. unfold in_width, wrap. apply Z.mod_pos_bound. lia. Qed.

Lemma wrap_small w z : in_width w z → wrap w z = z.
Proof. unfold in_width, wrap. intros H. by apply Z.mod_small. Qed.

Lemma wrap_le w z : 0 ≤ w → 0 ≤ z → wrap w z ≤ z.
Proof. intros Hw Hz. unfold wrap. apply Z.mod_le; lia. Qed.

Lemma wrap_wrap w z : 0 ≤ w → wrap w (wrap w z) = wrap w z.
Proof. intros Hw. unfold wrap. apply Z.mod_mod. lia. Qed.

Lemma u32_range z : 0 ≤ u32 z < 2 ^ 32.
Proof. by apply (wrap_in_width 32). Qed.

Lemma u64_range z : 0 ≤ u64 z < 2 ^ 64.
Proof. by apply (wrap_in_width 64). Qed.

Lemma u32_small z : 0 ≤ z < 2 ^ 32 → u32 z = z.
Proof. apply (wrap_small 32). Qed.

Lemma u64_small z : 0 ≤ z < 2 ^ 64 → u64 z = z.
Proof. apply (wrap_small 64). Qed.

Lemma i32_small z : 0 ≤ z < 2 ^ 31 → i32 z = z.
Proof.
  intros H. unfold i32. rewrite (wrap_small 32) by (unfold in_width; lia).
  rewrite bool_decide_eq_true_2; lia.
Qed.
End words.

(** ** Bytes and the memory representation of integers *)

Abbreviation byte := (Init.Byte.byte).
Abbreviation bytes := (list byte).
Abbreviation le_split := LittleEndianList.le_split.
Abbreviation le_combine := LittleEndianList.le_combine.

#[export] Instance byte_eq_dec : EqDecision byte := Byte.byte_eq_dec.

Lemma le_combine_le_split n z :
  le_combine (le_split n z) = wrap (8 * Z.of_nat n) z.
Proof.
  rewrite LittleEndianList.le_combine_split. unfold wrap.
  by rewrite Z.mul_comm.
Qed.

Lemma le_split_le_combine bs : le_split (length bs) (le_combine bs) = bs.
Proof. apply LittleEndianList.split_le_combine. Qed.

(** ** Exceptions and outcomes

    The exceptions the source throws or lets through, by class. *)

Inductive asio_error := operation_aborted | eof.

Inductive exn :=
| RuntimeError (what : string)
| InvalidArgument (what : string)
| OutOfRange (what : string)
| SystemError (ec : asio_error)
| BadOptionalAccess
| BadFunctionCall
| QueueClosedError.

#[export] Instance asio_error_eq_dec : EqDecision asio_error.
Proof. solve_decision. Defined.
#[export] Instance exn_eq_dec : EqDecision exn.
Proof. solve_decision. Defined.

(** How a C++ call ends: it returns, throws, ends the process through
    [std::terminate], fails an [assert], or has undefined behaviour. *)
Inductive outcome (A : Type) :=
| Ret (a : A)
| Throw (e : exn)
| Terminate
| Abort
| Undefined.
Arguments Ret {A} _.
Arguments Throw {A} _.
Arguments Terminate {A}.
Arguments Abort {A}.
Arguments Undefined {A}.

#[export] Instance outcome_eq_dec `{EqDecision A} : EqDecision (outcome A).
Proof. solve_decision. Defined.

(** Compile-time configuration: [NDEBUG] removes [assert]. *)
Class Build := { NDEBUG : bool }.

(** ** The state-and-outcome monad

    [M S A] is a C++ computation over the mutable state [S]: the state survives
    an exception, as it does in the program. *)

Definition M (S A : Type) : Type := S → outcome A * S.

#[export] Instance M_ret S : MRet (M S) := λ A a s, (Ret a, s).
#[export] Instance M_bind S : MBind (M S) := λ A B f m s,
  match m s with
  | (Ret a, s') => f a s'
  | (Throw e, s') => (Throw e, s')
  | (Terminate, s') => (Terminate, s')
  | (Abort, s') => (Abort, s')
  | (Undefined, s') => (Undefined, s')
  end.

Section monad.
Context {S : Type}.

Definition mthrow_exn {A} (e : exn) : M S A := λ s, (Throw e, s).
Definition mundefined {A} : M S A := λ s, (Undefined, s).
Definition mterminate {A} : M S A := λ s, (Terminate, s).
Definition mget : M S S := λ s, (Ret s, s).
Definition mgets {A} (f : S → A) : M S A := λ s, (Ret (f s), s).
Definition mmodify (f : S → S) : M S unit := λ s, (Ret tt, f s).

(** [try { m } catch (std::exception const &e) { h }] *)
Definition try_catch {A} (m : M S A) (h : exn → M S A) : M S A := λ s,
  match m s with
  | (Throw e, s') => h e s'
  | r => r
  end.

(** A [noexcept] function: an escaping exception calls [std::terminate]. *)
Definition noexcept {A} (m : M S A) : M S A := λ s,
  match m s with
  | (Throw _, s') => (Terminate, s')
  | r => r
  end.

(** A local object: [cleanup] is its destructor, run when the scope is left by
    a return or an exception. *)
Definition raii {A} (m : M S A) (cleanup : M S unit) : M S A := λ s,
  match m s with
  | (Ret a, s') => (cleanup ;; mret a) s'
  | (Throw e, s') => (cleanup ;; mthrow_exn e) s'
  | r => r
  end.

Definition cassert `{Build} (b : bool) : M S unit := λ s,
  (if NDEBUG || b then Ret tt else Abort, s).

(** Dereferencing a pointer that may be null. *)
Definition deref {A} (p : option A) : M S A :=
  match p with Some a => mret a | None => mundefined end.
End monad.

(** What a bind does, given how its first part ends. *)
Lemma bind_ret {S A B} (m : M S A) (k : A → M S B) s a s' :
  m s = (Ret a, s') → (m ≫= k) s = k a s'.
Proof. intros H. unfold mbind, M_bind. by rewrite H. Qed.

Lemma bind_mret {S A B} (a : A) (k : A → M S B) s : (mret a ≫= k) s = k a s.
Proof. done. Qed.

Lemma bind_mmodify {S B} (f : S → S) (k : unit → M S B) s :
  (mmodify f ≫= k) s = k tt (f s).
Proof. done. Qed.

Lemma bind_mget {S B} (k : S → M S B) s : (mget ≫= k) s = k s s.
Proof. done. Qed.

Lemma bind_throw {S A B} (m : M S A) (k : A → M S B) s e s' :
  m s = (Throw e, s') → (m ≫= k) s = (Throw e, s').
Proof. intros H. unfold mbind, M_bind. by rewrite H. Qed.

(** How a run ends, without naming the state it ends in. *)
Lemma run_fst {S A} (m : M S A) s r : (m s).1 = r → m s = (r, (m s).2).
Proof. intros <-. apply surjective_pairing. Qed.

(** Run a computation of one part of a larger state. *)
Definition zoom {S T A} (get : S → T) (put : T → S → S) (m : M T A) : M S A :=
  λ s, let '(r, t) := m (get s) in (r, put t s).

(** Inversion: what came first in a computation that returned. *)
Lemma bind_ret_inv {S A B} (m : M S A) (k : A → M S B) s b s' :
  (m ≫= k) s = (Ret b, s') → ∃ a s1, m s = (Ret a, s1) ∧ k a s1 = (Ret b, s').
Proof. unfold mbind, M_bind. destruct (m s) as [[] s1]; try done. eauto. Qed.

Lemma try_catch_ret_inv {S A} (m : M S A) h s a s' :
  try_catch m h s = (Ret a, s') →
  m s = (Ret a, s') ∨ ∃ e s1, m s = (Throw e, s1) ∧ h e s1 = (Ret a, s').
Proof. unfold try_catch. destruct (m s) as [[] s1]; try done; eauto. Qed.

Lemma zoom_ret_inv {S T A} (get : S → T) put (m : M T A) s a s' :
  zoom get put m s = (Ret a, s') → ∃ t, m (get s) = (Ret a, t) ∧ s' = put t s.
Proof. unfold zoom. destruct (m (get s)) as [r t]. intros [= -> <-]. eauto. Qed.

(** ** Automation *)

Create HintDb rdmapp.
Create Rewrite HintDb rdmapp_rw.
Create Rewrite HintDb rdmapp_str.
#[export] Hint Resolve u32_range u64_range : rdmapp.
#[export] Hint Rewrite le_combine_le_split : rdmapp_rw.

(** Symbolic evaluation of monadic code: unfold the monad, reduce, split the
    matches left on the results of external calls. *)
Ltac munfold :=
  cbv beta delta [mbind M_bind mret M_ret mthrow_exn mundefined mterminate mget mgets
    mmodify try_catch noexcept raii deref zoom].

Ltac mstep := munfold; simpl; repeat (case_match; simplify_eq/=).

(** ** Taking turns *)

(** [n] numbers in a row have the remainders of [n], each once. *)
Lemma turns_Permutation (z : Z) (n : nat) :
  (λ k, Z.to_nat ((z + Z.of_nat k) mod Z.of_nat n)) <$> seq 0 n ≡ₚ seq 0 n.
Proof.
  destruct (decide (n = 0)) as [->|Hn]; [done|].
  symmetry. apply submseteq_length_Permutation; [|by rewrite length_fmap].
  apply NoDup_submseteq; [apply NoDup_seq|]. intros i Hi%elem_of_seq. apply list_elem_of_fmap.
  pose proof (Z.mod_pos_bound (Z.of_nat i - z) (Z.of_nat n) ltac:(lia)).
  exists (Z.to_nat ((Z.of_nat i - z) mod Z.of_nat n)). split; [|apply elem_of_seq; lia].
  rewrite Z2Nat.id, Zplus_mod_idemp_r by lia.
  replace (z + (Z.of_nat i - z))%Z with (Z.of_nat i) by lia.
  by rewrite Z.mod_small, Nat2Z.id by lia.
Qed.

(** ** Reachability *)

(** An invariant of the steps holds in every reachable state. *)
Lemma rtc_invariant {A} (R : relation A) (P : A → Prop) x y :
  (∀ a b, P a → R a b → P b) → rtc R x y → P x → P y.
Proof. intros Hstep. induction 1; eauto. Qed.

(** A system that implements another: its steps are those of the other, or change nothing
    of what the other sees and bring [measure] down; and it is not stuck before the other.
    What all executions of the other end in, its own end in. *)
Section simulation.
Context {A B : Type} (step : relation A) (spec : relation B).
Context (inv : A → Prop) (abs : A → B) (measure : A → nat).
Hypothesis simulated : ∀ a a', inv a → step a a' →
  inv a' ∧ (spec (abs a) (abs a') ∨ abs a' = abs a ∧ measure a' < measure a).
Hypothesis progress : ∀ a, inv a → (∃ b, spec (abs a) b) → ∃ a', step a a'.

Lemma simulation_rtc a a' : inv a → rtc step a a' → inv a' ∧ rtc spec (abs a) (abs a').
Proof using simulated.
  intros Ha Hs. revert Ha. induction Hs as [a|a b c Hs _ IH]; [by split|].
  intros Ha. destruct (simulated a b Ha Hs) as [Hb Hab]. destruct (IH Hb) as [Hc Hbc].
  split; [done|]. destruct Hab as [Hab|[<- _]]; [by eapply rtc_l|done].
Qed.

Lemma simulation_acc a : inv a → Acc (flip spec) (abs a) → Acc (flip step) a.
Proof using simulated.
  intros Ha Hacc. remember (abs a) as b eqn:Hb. revert a Ha Hb.
  induction Hacc as [b _ IH]. intros a Ha ->.
  remember (measure a) as n eqn:Hn. revert a Ha Hn IH.
  induction (lt_wf n) as [n _ IHn]. intros a Ha -> IH. constructor. intros a' Hs.
  destruct (simulated a a' Ha Hs) as [Ha' [Hab|[Hab Hm]]].
  - by apply (IH (abs a')).
  - apply (IHn (measure a')); [done..|]. by rewrite Hab.
Qed.

Lemma simulation_final (Q : B → Prop) a a' :
  (∀ b, rtc spec (abs a) b → (∀ c, ¬ spec b c) → Q b) →
  inv a → rtc step a a' → (∀ c, ¬ step a' c) → Q (abs a').
Proof using simulated progress.
  intros HQ Ha Hs Hstuck. destruct (simulation_rtc a a' Ha Hs) as [Ha' Hr].
  apply HQ; [done|]. intros c Hc. destruct (progress a' Ha') as [a2 Hstep]; [by exists c|].
  by apply (Hstuck a2).
Qed.
End simulation.

(** ** Strings: [snprintf] into a buffer *)

(** What a buffer of [n] bytes holds after [snprintf]: the text cut so that the
    terminating null character fits. *)
Definition snprintf (n : nat) (text : string) : string :=
  String.substring 0 (n - 1) text.

Lemma string_app_cons c (s t : string) : String c s +:+ t = String c (s +:+ t).
Proof. done. Qed.

Lemma string_app_nil_l (s : string) : "" +:+ s = s.
Proof. done. Qed.

Lemma string_app_nil_r (s : string) : s +:+ "" = s.
Proof. induction s; [done|]. rewrite string_app_cons. congruence. Qed.

Lemma string_app_assoc (a b c : string) : (a +:+ b) +:+ c = a +:+ (b +:+ c).
Proof. induction a; [done|]. rewrite !string_app_cons. congruence. Qed.

#[export] Hint Rewrite string_app_cons string_app_nil_l string_app_nil_r : rdmapp_str.

Lemma substring_full s n :
  String.length s ≤ n → String.substring 0 n s = s.
Proof.
  revert n. induction s as [|c s IH]; intros [|n]; simpl; try (done || lia).
  intros H. rewrite IH; [done | lia].
Qed.

Lemma substring_length s n : String.length (String.substring 0 n s) ≤ n.
Proof.
  revert n. induction s as [|c s IH]; intros [|n]; simpl; try lia.
  specialize (IH n). lia.
Qed.

Lemma snprintf_fits n s : String.length s < n → snprintf n s = s.
Proof. intros H. unfold snprintf. apply substring_full. lia. Qed.

Lemma snprintf_length n s : 0 < n → String.length (snprintf n s) < n.
Proof. intros Hn. unfold snprintf. pose proof (substring_length s (n - 1)). lia. Qed.
