(* ===== verification/Verbs.v ===== *)
(** * The ibverbs interface

    libibverbs is not part of the repository: its structures are records with
    the fields the source sets or reads, its calls are the fields of the class
    [Verbs], over an abstract driver state [nic].  A call made by the source goes
    through [vcall], which also appends the call and its result to the trace of
    the [world]: theorems about resources and posted work requests are stated on
    that trace, for every provider.  The classes [MrLaws] and [QpLaws] state the
    documented behaviour of the calls that some theorems rely on; [RefNic]
    discharges them for a concrete provider. *)

From S2P Require Import Prelude.

(** ** Handles

    A C pointer to a handle is an [option]: [None] is the null pointer. *)

Record ibv_device := IbvDevice { dev_h : Z }.
Record ibv_context := IbvContext { ctx_h : Z }.
Record ibv_pd := IbvPd { pd_h : Z }.
Record ibv_cq := IbvCq { cq_h : Z }.
Record ibv_srq := IbvSrq { srq_h : Z }.

(** [struct ibv_mr] and [struct ibv_qp]: the pointer and the fields read. *)
Record ibv_mr := IbvMr { mr_h : Z; ibv_mr_addr : Z; ibv_mr_length : Z; ibv_mr_lkey : Z; ibv_mr_rkey : Z }.
Record ibv_qp := IbvQp { qp_h : Z; qp_num : Z }.

#[export] Instance ibv_device_eq_dec : EqDecision ibv_device.
Proof. solve_decision. Defined.
#[export] Instance ibv_context_eq_dec : EqDecision ibv_context.
Proof. solve_decision. Defined.
#[export] Instance ibv_pd_eq_dec : EqDecision ibv_pd.
Proof. solve_decision. Defined.
#[export] Instance ibv_cq_eq_dec : EqDecision ibv_cq.
Proof. solve_decision. Defined.
#[export] Instance ibv_srq_eq_dec : EqDecision ibv_srq.
Proof. solve_decision. Defined.
#[export] Instance ibv_mr_eq_dec : EqDecision ibv_mr.
Proof. solve_decision. Defined.
#[export] Instance ibv_qp_eq_dec : EqDecision ibv_qp.
Proof. solve_decision. Defined.

(** [union ibv_gid]: its 16 raw bytes. *)
Abbreviation ibv_gid := bytes.
Definition gid_size : nat := 16.

(** ** Enumerations, with the enumerators the source names *)

Inductive ibv_wc_status :=
| IBV_WC_SUCCESS | IBV_WC_LOC_LEN_ERR | IBV_WC_LOC_QP_OP_ERR
| IBV_WC_LOC_EEC_OP_ERR | IBV_WC_LOC_PROT_ERR | IBV_WC_WR_FLUSH_ERR
| IBV_WC_MW_BIND_ERR | IBV_WC_BAD_RESP_ERR | IBV_WC_LOC_ACCESS_ERR
| IBV_WC_REM_INV_REQ_ERR | IBV_WC_REM_ACCESS_ERR | IBV_WC_REM_OP_ERR
| IBV_WC_RETRY_EXC_ERR | IBV_WC_RNR_RETRY_EXC_ERR | IBV_WC_LOC_RDD_VIOL_ERR
| IBV_WC_REM_INV_RD_REQ_ERR | IBV_WC_REM_ABORT_ERR | IBV_WC_INV_EECN_ERR
| IBV_WC_INV_EEC_STATE_ERR | IBV_WC_FATAL_ERR | IBV_WC_RESP_TIMEOUT_ERR
| IBV_WC_GENERAL_ERR | IBV_WC_TM_ERR | IBV_WC_TM_RNDV_INCOMPLETE
| IBV_WC_unlisted (code : Z).

Inductive ibv_wr_opcode :=
| IBV_WR_RDMA_WRITE | IBV_WR_RDMA_WRITE_WITH_IMM | IBV_WR_SEND
| IBV_WR_RDMA_READ | IBV_WR_ATOMIC_CMP_AND_SWP | IBV_WR_ATOMIC_FETCH_AND_ADD
| IBV_WR_unlisted (code : Z).

Inductive ibv_qp_state :=
| IBV_QPS_RESET | IBV_QPS_INIT | IBV_QPS_RTR | IBV_QPS_RTS | IBV_QPS_ERR.

Inductive ibv_qp_attr_mask :=
| IBV_QP_STATE | IBV_QP_PORT | IBV_QP_ACCESS_FLAGS | IBV_QP_PKEY_INDEX
| IBV_QP_AV | IBV_QP_PATH_MTU | IBV_QP_DEST_QPN | IBV_QP_RQ_PSN
| IBV_QP_MIN_RNR_TIMER | IBV_QP_MAX_DEST_RD_ATOMIC
| IBV_QP_TIMEOUT | IBV_QP_RETRY_CNT | IBV_QP_RNR_RETRY | IBV_QP_SQ_PSN
| IBV_QP_MAX_QP_RD_ATOMIC.

Inductive ibv_access_flag :=
| IBV_ACCESS_LOCAL_WRITE | IBV_ACCESS_REMOTE_WRITE | IBV_ACCESS_REMOTE_READ
| IBV_ACCESS_REMOTE_ATOMIC.

Inductive ibv_mtu := IBV_MTU_4096.
Inductive ibv_qp_type := IBV_QPT_RC.
Inductive ibv_send_flag := IBV_SEND_SIGNALED.
Inductive ibv_atomic_cap := IBV_ATOMIC_NONE | IBV_ATOMIC_supported.
Inductive ibv_link_layer :=
| IBV_LINK_LAYER_ETHERNET | IBV_LINK_LAYER_INFINIBAND | IBV_LINK_LAYER_other.

#[export] Instance ibv_wc_status_eq_dec : EqDecision ibv_wc_status.
Proof. solve_decision. Defined.
#[export] Instance ibv_wr_opcode_eq_dec : EqDecision ibv_wr_opcode.
Proof. solve_decision. Defined.
#[export] Instance ibv_qp_state_eq_dec : EqDecision ibv_qp_state.
Proof. solve_decision. Defined.
#[export] Instance ibv_qp_attr_mask_eq_dec : EqDecision ibv_qp_attr_mask.
Proof. solve_decision. Defined.
#[export] Instance ibv_access_flag_eq_dec : EqDecision ibv_access_flag.
Proof. solve_decision. Defined.
#[export] Instance ibv_mtu_eq_dec : EqDecision ibv_mtu.
Proof. solve_decision. Defined.
#[export] Instance ibv_qp_type_eq_dec : EqDecision ibv_qp_type.
Proof. solve_decision. Defined.
#[export] Instance ibv_send_flag_eq_dec : EqDecision ibv_send_flag.
Proof. solve_decision. Defined.
#[export] Instance ibv_atomic_cap_eq_dec : EqDecision ibv_atomic_cap.
Proof. solve_decision. Defined.

(** ** Structures *)

Record ibv_port_attr := IbvPortAttr { pa_lid : Z; pa_link_layer : ibv_link_layer }.
Record ibv_device_attr_ex := IbvDeviceAttrEx { atomic_cap : ibv_atomic_cap }.

Record ibv_qp_init_attr := IbvQpInitAttr {
  qia_qp_type : ibv_qp_type;
  qia_recv_cq : option ibv_cq;
  qia_send_cq : option ibv_cq;
  qia_srq : option ibv_srq;
  qia_max_recv_sge : Z; qia_max_send_sge : Z;
  qia_max_recv_wr : Z; qia_max_send_wr : Z;
  qia_sq_sig_all : Z }.

Record ibv_srq_init_attr := IbvSrqInitAttr {
  sia_max_sge : Z; sia_max_wr : Z; sia_srq_limit : Z }.

Record ibv_ah_attr := IbvAhAttr {
  ah_is_global : Z; ah_dgid : ibv_gid; ah_sgid_index : Z; ah_hop_limit : Z;
  ah_dlid : Z; ah_sl : Z; ah_src_path_bits : Z; ah_port_num : Z }.

Record ibv_qp_attr := IbvQpAttr {
  qa_qp_state : ibv_qp_state;
  qa_pkey_index : Z; qa_port_num : Z; qa_access_flags : list ibv_access_flag;
  qa_path_mtu : option ibv_mtu; qa_dest_qp_num : Z; qa_rq_psn : Z;
  qa_max_dest_rd_atomic : Z; qa_min_rnr_timer : Z; qa_ah_attr : ibv_ah_attr;
  qa_timeout : Z; qa_retry_cnt : Z; qa_rnr_retry : Z; qa_max_rd_atomic : Z;
  qa_sq_psn : Z }.

(** Zero-initialised structures ([= {}] and [bzero]); [IBV_QPS_RESET] is the
    enumerator 0. *)
Definition ah_attr0 : ibv_ah_attr := IbvAhAttr 0 (replicate gid_size Byte.x00) 0 0 0 0 0 0.
Definition qp_attr0 : ibv_qp_attr :=
  IbvQpAttr IBV_QPS_RESET 0 0 [] None 0 0 0 0 ah_attr0 0 0 0 0 0.

Record ibv_sge := IbvSge { sge_addr : Z; sge_length : Z; sge_lkey : Z }.

(** The union [wr] of [ibv_send_wr]: the member that was written, if any. *)
Inductive ibv_wr_union :=
| wr_zero
| wr_rdma (remote_addr rkey : Z)
| wr_atomic (remote_addr rkey compare_add swap : Z).

Record ibv_send_wr := IbvSendWr {
  swr_wr_id : Z; swr_sg_list : list ibv_sge; swr_num_sge : Z;
  swr_opcode : ibv_wr_opcode; swr_send_flags : list ibv_send_flag;
  swr_imm_data : Z; swr_wr : ibv_wr_union }.

Record ibv_recv_wr := IbvRecvWr {
  rwr_wr_id : Z; rwr_sg_list : list ibv_sge; rwr_num_sge : Z }.

Record ibv_wc := IbvWc {
  wc_wr_id : Z; wc_status : ibv_wc_status; wc_byte_len : Z;
  wc_imm_data : Z; wc_flags : Z }.

#[export] Instance ibv_sge_eq_dec : EqDecision ibv_sge.
Proof. solve_decision. Defined.
#[export] Instance ibv_wr_union_eq_dec : EqDecision ibv_wr_union.
Proof. solve_decision. Defined.
#[export] Instance ibv_send_wr_eq_dec : EqDecision ibv_send_wr.
Proof. solve_decision. Defined.
#[export] Instance ibv_recv_wr_eq_dec : EqDecision ibv_recv_wr.
Proof. solve_decision. Defined.
#[export] Instance ibv_wc_eq_dec : EqDecision ibv_wc.
Proof. solve_decision. Defined.

(** ** The provider *)

Class Verbs := {
  nic : Type;
  nic_errno : nic → Z;
  strerror : Z → string;
  IBV_WC_WITH_IMM : Z;
  wc_status_code : ibv_wc_status → Z;
  ibv_get_device_name : ibv_device → string;
  ibv_get_device_list : nic → (option (list ibv_device) * Z) * nic;
  ibv_free_device_list : nic → nic;
  ibv_open_device : ibv_device → nic → option ibv_context * nic;
  ibv_close_device : option ibv_context → nic → Z * nic;
  ibv_query_port : option ibv_context → Z → nic → (Z * ibv_port_attr) * nic;
  ibv_query_device_ex : option ibv_context → nic → (Z * ibv_device_attr_ex) * nic;
  ibv_query_gid : option ibv_context → Z → Z → nic → (Z * ibv_gid) * nic;
  ibv_alloc_pd : option ibv_context → nic → option ibv_pd * nic;
  ibv_dealloc_pd : option ibv_pd → nic → Z * nic;
  ibv_reg_mr : option ibv_pd → Z → Z → list ibv_access_flag → nic → option ibv_mr * nic;
  ibv_dereg_mr : ibv_mr → nic → Z * nic;
  ibv_create_cq : option ibv_context → Z → nic → option ibv_cq * nic;
  ibv_destroy_cq : option ibv_cq → nic → Z * nic;
  ibv_poll_cq : option ibv_cq → Z → nic → (Z * list ibv_wc) * nic;
  ibv_create_srq : option ibv_pd → ibv_srq_init_attr → nic → option ibv_srq * nic;
  ibv_destroy_srq : option ibv_srq → nic → Z * nic;
  ibv_create_qp : option ibv_pd → ibv_qp_init_attr → nic → option ibv_qp * nic;
  ibv_modify_qp : option ibv_qp → ibv_qp_attr → list ibv_qp_attr_mask → nic → Z * nic;
  ibv_destroy_qp : option ibv_qp → nic → Z * nic;
  ibv_post_send : option ibv_qp → ibv_send_wr → nic → Z * nic;
  ibv_post_recv : option ibv_qp → ibv_recv_wr → nic → Z * nic;
  ibv_post_srq_recv : option ibv_srq → ibv_recv_wr → nic → Z * nic }.

(** The calls made, with their results. *)
Inductive verbs_ev :=
| EvGetDeviceList (l : option (list ibv_device)) (n : Z)
| EvFreeDeviceList
| EvOpenDevice (d : ibv_device) (r : option ibv_context)
| EvCloseDevice (c : option ibv_context) (rc : Z)
| EvQueryPort (port rc : Z)
| EvQueryDeviceEx (rc : Z)
| EvQueryGid (port index rc : Z)
| EvAllocPd (r : option ibv_pd)
| EvDeallocPd (p : option ibv_pd) (rc : Z)
| EvRegMr (addr length : Z) (flags : list ibv_access_flag) (r : option ibv_mr)
| EvDeregMr (m : ibv_mr) (rc : Z)
| EvCreateCq (nr_cqe : Z) (r : option ibv_cq)
| EvDestroyCq (c : option ibv_cq) (rc : Z)
| EvPollCq (count rc : Z) (wcs : list ibv_wc)
| EvCreateSrq (attr : ibv_srq_init_attr) (r : option ibv_srq)
| EvDestroySrq (s : option ibv_srq) (rc : Z)
| EvCreateQp (attr : ibv_qp_init_attr) (r : option ibv_qp)
| EvModifyQp (q : option ibv_qp) (attr : ibv_qp_attr) (mask : list ibv_qp_attr_mask) (rc : Z)
| EvDestroyQp (q : option ibv_qp) (rc : Z)
| EvPostSend (q : option ibv_qp) (wr : ibv_send_wr) (rc : Z)
| EvPostRecv (q : option ibv_qp) (wr : ibv_recv_wr) (rc : Z)
| EvPostSrqRecv (s : option ibv_srq) (wr : ibv_recv_wr) (rc : Z).

Section world.
Context {V : Verbs}.

(** What every component shares: the driver, the trace of calls made to it and
    the static counter [basic_qp::next_sq_psn]. *)
Record world := World {
  w_nic : nic;
  w_trace : list verbs_ev;
  w_next_sq_psn : Z }.

(** One call of the library. *)
Definition after (w : world) (n : nic) (e : verbs_ev) : world :=
  World n (w_trace w ++ [e]) (w_next_sq_psn w).

Definition vcall {R} (op : nic → R * nic) (ev : R → verbs_ev) : M world R := λ w,
  let '(r, n) := op (w_nic w) in (Ret r, after w n (ev r)).

Definition get_errno : M world Z := mgets (λ w, nic_errno (w_nic w)).
(** The calls made between two worlds. *)
Definition calls (w : world) (tr : list verbs_ev) (w' : world) : Prop :=
  w_trace w' = w_trace w ++ tr.

Lemma calls_nil w : calls w [] w.
Proof. unfold calls. by rewrite app_nil_r. Qed.

Lemma bind_vcall {R B} (op : nic → R * nic) ev (k : R → M world B) w r n :
  op (w_nic w) = (r, n) → (vcall op ev ≫= k) w = k r (after w n (ev r)).
Proof. intros Hop. unfold vcall. munfold. by rewrite Hop. Qed.

Lemma calls_after w tr w1 n e : calls w tr w1 → calls w (tr ++ [e]) (after w1 n e).
Proof. unfold calls. simpl. intros ->. by rewrite app_assoc. Qed.

Lemma calls_app w tr1 w1 tr2 w2 :
  calls w tr1 w1 → calls w1 tr2 w2 → calls w (tr1 ++ tr2) w2.
Proof. unfold calls. intros -> ->. by rewrite app_assoc. Qed.
End world.

#[export] Hint Resolve calls_nil : rdmapp.

(** Run the next call: name its result [r] and the driver state [n]. *)
Tactic Notation "vstep" ident(r) ident(n) "as" ident(H) :=
  match goal with
  | |- context [(vcall ?op ?ev ≫= ?k) ?w] =>
      destruct (op (w_nic w)) as [r n] eqn:H; rewrite (bind_vcall op ev k w r n H)
  end; simpl.

(** ** Documented behaviour of the calls *)

(** [ibv_reg_mr] returns a region that was not registered; [ibv_dereg_mr]
    returning 0 removes it; a failing call changes no registration. *)
Class MrLaws (V : Verbs) := {
  nic_mrs : nic → gset Z;
  reg_mr_ok pd a l f n m n' :
    ibv_reg_mr pd a l f n = (Some m, n') →
    (mr_h m ∉ nic_mrs n) ∧ nic_mrs n' = {[ mr_h m ]} ∪ nic_mrs n;
  reg_mr_fail pd a l f n n' :
    ibv_reg_mr pd a l f n = (None, n') → nic_mrs n' = nic_mrs n;
  dereg_mr_ok m n n' :
    ibv_dereg_mr m n = (0%Z, n') → nic_mrs n' = nic_mrs n ∖ {[ mr_h m ]};
  dereg_mr_fail m n rc n' :
    ibv_dereg_mr m n = (rc, n') → rc ≠ 0%Z → nic_mrs n' = nic_mrs n }.

(** [ibv_create_qp] returns a new queue pair in the RESET state; a successful
    [ibv_modify_qp] with [IBV_QP_STATE] moves it to the requested state; a failing
    one changes nothing; a successful [ibv_destroy_qp] removes it. *)
Class QpLaws (V : Verbs) := {
  nic_qps : nic → gmap Z ibv_qp_state;
  create_qp_ok pd attr n q n' :
    ibv_create_qp pd attr n = (Some q, n') →
    nic_qps n !! qp_h q = None ∧ nic_qps n' = <[ qp_h q := IBV_QPS_RESET ]> (nic_qps n);
  create_qp_fail pd attr n n' :
    ibv_create_qp pd attr n = (None, n') → nic_qps n' = nic_qps n;
  modify_qp_ok q attr mask n n' :
    ibv_modify_qp (Some q) attr mask n = (0%Z, n') → IBV_QP_STATE ∈ mask →
    nic_qps n' = <[ qp_h q := qa_qp_state attr ]> (nic_qps n);
  modify_qp_fail q attr mask n rc n' :
    ibv_modify_qp q attr mask n = (rc, n') → rc ≠ 0%Z → nic_qps n' = nic_qps n;
  destroy_qp_ok q n n' :
    ibv_destroy_qp (Some q) n = (0%Z, n') → nic_qps n' = delete (qp_h q) (nic_qps n);
  destroy_qp_fail q n rc n' :
    ibv_destroy_qp q n = (rc, n') → rc ≠ 0%Z → nic_qps n' = nic_qps n }.

(** [ibv_poll_cq] returns a negative code or the number of entries written, at
    most [count]. *)
Class CqLaws (V : Verbs) := {
  poll_cq_count cq count n rc wcs n' :
    ibv_poll_cq cq count n = ((rc, wcs), n') → (0 ≤ count)%Z → (0 ≤ rc)%Z →
    (rc ≤ count)%Z ∧ rc = Z.of_nat (length wcs);
  poll_cq_error cq count n rc wcs n' :
    ibv_poll_cq cq count n = ((rc, wcs), n') → (rc < 0)%Z → wcs = [] }.
