(* ===== verification/RefNic.v ===== *)
(** * A reference provider

    A concrete, executable [Verbs]: a small loopback adapter with one device.  It
    discharges the classes of documented behaviour, so that the theorems that
    assume them apply to something, and the witnesses run on it.  The parameter
    [fail] selects the calls, by their number, that report an error.  It is not a
    model of code of the repository. *)

From S2P Require Import Prelude Verbs.
From stdpp Require Import options.

Record rnic := RNic {
  rn_calls : nat;
  rn_mrs : gset Z;
  rn_qps : gmap Z ibv_qp_state;
  rn_cq : list ibv_wc }.

Definition rnic0 : rnic := RNic 0 ∅ ∅ [].

(** A handle above every handle of the set. *)
Definition above (s : gset Z) : Z := (set_fold Z.max 0 s + 1)%Z.

Lemma above_spec s x : x ∈ s → (x < above s)%Z.
Proof.
  unfold above. revert x.
  apply (set_fold_ind_L (λ m s, ∀ x, x ∈ s → (x < m + 1)%Z) Z.max 0%Z).
  - set_solver.
  - intros y s' m Hy IH x [->%elem_of_singleton|Hx]%elem_of_union; [lia|].
    specialize (IH _ Hx). lia.
Qed.

Lemma above_fresh s : above s ∉ s.
Proof. intros H%above_spec. lia. Qed.

(** The transitions of a reliable connection and the attributes they require. *)
Definition required_mask (from to : ibv_qp_state) : option (list ibv_qp_attr_mask) :=
  match from, to with
  | _, IBV_QPS_ERR => Some [IBV_QP_STATE]
  | IBV_QPS_RESET, IBV_QPS_INIT =>
      Some [IBV_QP_STATE; IBV_QP_PKEY_INDEX; IBV_QP_PORT; IBV_QP_ACCESS_FLAGS]
  | IBV_QPS_INIT, IBV_QPS_RTR =>
      Some [IBV_QP_STATE; IBV_QP_AV; IBV_QP_PATH_MTU; IBV_QP_DEST_QPN; IBV_QP_RQ_PSN;
            IBV_QP_MAX_DEST_RD_ATOMIC; IBV_QP_MIN_RNR_TIMER]
  | IBV_QPS_RTR, IBV_QPS_RTS =>
      Some [IBV_QP_STATE; IBV_QP_SQ_PSN; IBV_QP_TIMEOUT; IBV_QP_RETRY_CNT;
            IBV_QP_RNR_RETRY; IBV_QP_MAX_QP_RD_ATOMIC]
  | _, _ => None
  end.

Definition modify_allowed (cur : option ibv_qp_state) (attr : ibv_qp_attr)
    (mask : list ibv_qp_attr_mask) : bool :=
  match cur with
  | None => false
  | Some from =>
      match required_mask from (qa_qp_state attr) with
      | None => false
      | Some req => bool_decide (req ⊆ mask)
      end
  end.

Definition status_code (s : ibv_wc_status) : Z :=
  match s with
  | IBV_WC_SUCCESS => 0 | IBV_WC_LOC_LEN_ERR => 1 | IBV_WC_LOC_QP_OP_ERR => 2
  | IBV_WC_LOC_EEC_OP_ERR => 3 | IBV_WC_LOC_PROT_ERR => 4 | IBV_WC_WR_FLUSH_ERR => 5
  | IBV_WC_MW_BIND_ERR => 6 | IBV_WC_BAD_RESP_ERR => 7 | IBV_WC_LOC_ACCESS_ERR => 8
  | IBV_WC_REM_INV_REQ_ERR => 9 | IBV_WC_REM_ACCESS_ERR => 10 | IBV_WC_REM_OP_ERR => 11
  | IBV_WC_RETRY_EXC_ERR => 12 | IBV_WC_RNR_RETRY_EXC_ERR => 13
  | IBV_WC_LOC_RDD_VIOL_ERR => 14 | IBV_WC_REM_INV_RD_REQ_ERR => 15
  | IBV_WC_REM_ABORT_ERR => 16 | IBV_WC_INV_EECN_ERR => 17
  | IBV_WC_INV_EEC_STATE_ERR => 18 | IBV_WC_FATAL_ERR => 19
  | IBV_WC_RESP_TIMEOUT_ERR => 20 | IBV_WC_GENERAL_ERR => 21
  | IBV_WC_TM_ERR => 22 | IBV_WC_TM_RNDV_INCOMPLETE => 23
  | IBV_WC_unlisted c => c
  end%Z.

Section ref.
Variable fail : nat → bool.

Definition tick (n : rnic) : rnic := RNic (S (rn_calls n)) (rn_mrs n) (rn_qps n) (rn_cq n).

(** A call that returns a pointer, and one that returns a code. *)
Definition ref_ptr {H} (h : H) (n : rnic) : option H * rnic :=
  (if fail (rn_calls n) then None else Some h, tick n).
Definition ref_rc (n : rnic) : Z * rnic := (if fail (rn_calls n) then 22%Z else 0%Z, tick n).

Definition ref_reg_mr (addr length : Z) (n : rnic) : option ibv_mr * rnic :=
  if fail (rn_calls n) then (None, tick n)
  else let h := above (rn_mrs n) in
    (Some (IbvMr h addr length (h + 1000) (h + 2000)),
     RNic (S (rn_calls n)) ({[ h ]} ∪ rn_mrs n) (rn_qps n) (rn_cq n)).

Definition ref_dereg_mr (m : ibv_mr) (n : rnic) : Z * rnic :=
  if fail (rn_calls n) then (22%Z, tick n)
  else (0%Z, RNic (S (rn_calls n)) (rn_mrs n ∖ {[ mr_h m ]}) (rn_qps n) (rn_cq n)).

Definition ref_create_qp (n : rnic) : option ibv_qp * rnic :=
  if fail (rn_calls n) then (None, tick n)
  else let h := above (dom (rn_qps n)) in
    (Some (IbvQp h (h + 100)),
     RNic (S (rn_calls n)) (rn_mrs n) (<[ h := IBV_QPS_RESET ]> (rn_qps n)) (rn_cq n)).

Definition ref_modify_qp (q : option ibv_qp) (attr : ibv_qp_attr)
    (mask : list ibv_qp_attr_mask) (n : rnic) : Z * rnic :=
  match q with
  | None => (22%Z, tick n)
  | Some q =>
      if fail (rn_calls n) then (22%Z, tick n)
      else if modify_allowed (rn_qps n !! qp_h q) attr mask
      then (0%Z, RNic (S (rn_calls n)) (rn_mrs n)
               (<[ qp_h q := qa_qp_state attr ]> (rn_qps n)) (rn_cq n))
      else (22%Z, tick n)
  end.

Definition ref_destroy_qp (q : option ibv_qp) (n : rnic) : Z * rnic :=
  match q with
  | None => (22%Z, tick n)
  | Some q =>
      if fail (rn_calls n) then (22%Z, tick n)
      else (0%Z, RNic (S (rn_calls n)) (rn_mrs n) (delete (qp_h q) (rn_qps n)) (rn_cq n))
  end.

Definition ref_poll_cq (count : Z) (n : rnic) : (Z * list ibv_wc) * rnic :=
  if fail (rn_calls n) then ((-5)%Z, [], tick n)
  else let k := Z.to_nat count in
    (Z.of_nat (length (take k (rn_cq n))), take k (rn_cq n),
     RNic (S (rn_calls n)) (rn_mrs n) (rn_qps n) (drop k (rn_cq n))).

(** A posted send completes at once: one entry in the completion queue. *)
Definition ref_post_send (wr : ibv_send_wr) (n : rnic) : Z * rnic :=
  if fail (rn_calls n) then (12%Z, tick n)
  else (0%Z, RNic (S (rn_calls n)) (rn_mrs n) (rn_qps n)
               (rn_cq n ++ [IbvWc (swr_wr_id wr) IBV_WC_SUCCESS 8 0 0])).

Definition ref_device : ibv_device := IbvDevice 7.

Definition ref_verbs : Verbs := {|
  nic := rnic;
  nic_errno _ := 12%Z;
  strerror z := "Error " +:+ pretty z;
  IBV_WC_WITH_IMM := 2;
  wc_status_code := status_code;
  ibv_get_device_name _ := "ref0";
  ibv_get_device_list n := (Some [ref_device], 1%Z, tick n);
  ibv_free_device_list := tick;
  ibv_open_device _ := ref_ptr (IbvContext 1);
  ibv_close_device _ := ref_rc;
  ibv_query_port _ _ n := let '(rc, n) := ref_rc n in
    (rc, IbvPortAttr 5 IBV_LINK_LAYER_ETHERNET, n);
  ibv_query_device_ex _ n := let '(rc, n) := ref_rc n in
    (rc, IbvDeviceAttrEx IBV_ATOMIC_supported, n);
  ibv_query_gid _ _ _ n := let '(rc, n) := ref_rc n in
    (rc, replicate 15 Byte.x00 ++ [Byte.x01], n);
  ibv_alloc_pd _ := ref_ptr (IbvPd 2);
  ibv_dealloc_pd _ := ref_rc;
  ibv_reg_mr _ a l _ := ref_reg_mr a l;
  ibv_dereg_mr := ref_dereg_mr;
  ibv_create_cq _ _ := ref_ptr (IbvCq 3);
  ibv_destroy_cq _ := ref_rc;
  ibv_poll_cq _ := ref_poll_cq;
  ibv_create_srq _ _ := ref_ptr (IbvSrq 4);
  ibv_destroy_srq _ := ref_rc;
  ibv_create_qp _ _ := ref_create_qp;
  ibv_modify_qp := ref_modify_qp;
  ibv_destroy_qp := ref_destroy_qp;
  ibv_post_send _ := ref_post_send;
  ibv_post_recv _ _ := ref_rc;
  ibv_post_srq_recv _ _ := ref_rc |}.

#[export] Instance ref_mr_laws : MrLaws ref_verbs.
Proof.
  refine {| nic_mrs := rn_mrs : nic (Verbs:=ref_verbs) → gset Z |}; simpl.
  - intros _ a l _ n m n'. unfold ref_reg_mr. case_match; intros [= <- <-]. simpl.
    split; [apply above_fresh|done].
  - intros _ a l _ n n'. unfold ref_reg_mr. case_match; by intros [= <-].
  - intros m n n'. unfold ref_dereg_mr. case_match; by intros [= <-].
  - intros m n rc n'. unfold ref_dereg_mr. case_match; by intros [= <- <-].
Defined.

#[export] Instance ref_qp_laws : QpLaws ref_verbs.
Proof.
  refine {| nic_qps := rn_qps : nic (Verbs:=ref_verbs) → gmap Z ibv_qp_state |}; simpl.
  - intros _ _ n q n'. unfold ref_create_qp. case_match; intros [= <- <-]. simpl.
    split; [|done]. apply not_elem_of_dom, above_fresh.
  - intros _ _ n n'. unfold ref_create_qp. case_match; by intros [= <-].
  - intros q attr mask n n'. unfold ref_modify_qp. repeat case_match; by intros [= <-].
  - intros q attr mask n rc n'. unfold ref_modify_qp. repeat case_match; by intros [= <- <-].
  - intros q n n'. unfold ref_destroy_qp. repeat case_match; by intros [= <-].
  - intros q n rc n'. unfold ref_destroy_qp. repeat case_match; by intros [= <- <-].
Defined.

#[export] Instance ref_cq_laws : CqLaws ref_verbs.
Proof.
  split; simpl; intros cq count n rc wcs n'; unfold ref_poll_cq; case_match;
    intros [= <- <- <-]; try lia; try done.
  intros ?. rewrite length_take. lia.
Defined.
End ref.

(** The adapter whose calls all succeed. *)
Definition good : Verbs := ref_verbs (λ _, false).
Definition world0 (fail : nat → bool) : world (V:=ref_verbs fail) := World (V:=ref_verbs fail) rnic0 [] 1.
