(* ===== verification/Errors.v ===== *)
(** * error.h: turning error codes into exceptions

    [throw_with], [check_rc], [check_wc_status], [check_ptr] and [check_errno] of
    include/rdmapp/error.h.  Message texts are modelled, [strerror] being a
    parameter of the provider; the 1024-byte buffer cuts the text. *)

From S2P Require Import Prelude Verbs.
From stdpp Require Import options.

Definition kErrorStringBufferSize : nat := 1024.

Section errors.
Context {V : Verbs}.

(** [throw_with(const char *message)]. *)
Definition throw_with_message {S A} (message : string) : M S A :=
  mthrow_exn (RuntimeError message).

(** The variadic [throw_with]: the formatted text goes through the buffer. *)
Definition throw_with {S A} (text : string) : M S A :=
  mthrow_exn (RuntimeError (snprintf kErrorStringBufferSize text)).

(** ["%s: %s (<tag>=%d)"]. *)
Definition error_text (message detail tag : string) (code : Z) : string :=
  message +:+ ": " +:+ detail +:+ " (" +:+ tag +:+ "=" +:+ pretty code +:+ ")".

Definition check_rc {S} (rc : Z) (message : string) : M S unit :=
  if bool_decide (rc ≠ 0%Z)
  then throw_with (error_text message (strerror rc) "rc" rc)
  else mret tt.

(** The [switch] of the lambda in [check_wc_status]. *)
Definition errorstr (status : ibv_wc_status) : string :=
  match status with
  | IBV_WC_SUCCESS => "IBV_WC_SUCCESS"
  | IBV_WC_LOC_LEN_ERR => "IBV_WC_LOC_LEN_ERR"
  | IBV_WC_LOC_QP_OP_ERR => "IBV_WC_LOC_QP_OP_ERR"
  | IBV_WC_LOC_EEC_OP_ERR => "IBV_WC_LOC_EEC_OP_ERR"
  | IBV_WC_LOC_PROT_ERR => "IBV_WC_LOC_PROT_ERR"
  | IBV_WC_WR_FLUSH_ERR => "IBV_WC_WR_FLUSH_ERR"
  | IBV_WC_MW_BIND_ERR => "IBV_WC_MW_BIND_ERR"
  | IBV_WC_BAD_RESP_ERR => "IBV_WC_BAD_RESP_ERR"
  | IBV_WC_LOC_ACCESS_ERR => "IBV_WC_LOC_ACCESS_ERR"
  | IBV_WC_REM_INV_REQ_ERR => "IBV_WC_REM_INV_REQ_ERR"
  | IBV_WC_REM_ACCESS_ERR => "IBV_WC_REM_ACCESS_ERR"
  | IBV_WC_REM_OP_ERR => "IBV_WC_REM_OP_ERR"
  | IBV_WC_RETRY_EXC_ERR => "IBV_WC_RETRY_EXC_ERR"
  | IBV_WC_RNR_RETRY_EXC_ERR => "IBV_WC_RNR_RETRY_EXC_ERR"
  | IBV_WC_LOC_RDD_VIOL_ERR => "IBV_WC_LOC_RDD_VIOL_ERR"
  | IBV_WC_REM_INV_RD_REQ_ERR => "IBV_WC_REM_INV_RD_REQ_ERR"
  | IBV_WC_REM_ABORT_ERR => "IBV_WC_REM_ABORT_ERR"
  | IBV_WC_INV_EECN_ERR => "IBV_WC_INV_EECN_ERR"
  | IBV_WC_INV_EEC_STATE_ERR => "IBV_WC_INV_EEC_STATE_ERR"
  | IBV_WC_FATAL_ERR => "IBV_WC_FATAL_ERR"
  | IBV_WC_RESP_TIMEOUT_ERR => "IBV_WC_RESP_TIMEOUT_ERR"
  | IBV_WC_GENERAL_ERR => "IBV_WC_GENERAL_ERR"
  | IBV_WC_TM_ERR => "IBV_WC_TM_ERR"
  | IBV_WC_TM_RNDV_INCOMPLETE => "IBV_WC_TM_RNDV_INCOMPLETE"
  | IBV_WC_unlisted _ => "UNKNOWN_ERROR"
  end.

Definition check_wc_status {S} (status : ibv_wc_status) (message : string) : M S unit :=
  if bool_decide (status ≠ IBV_WC_SUCCESS)
  then throw_with (error_text message (errorstr status) "status" (wc_status_code status))
  else mret tt.

Definition check_ptr {A} (p : option A) (message : string) : M world unit :=
  match p with
  | None => errno ← get_errno;
            throw_with (error_text message (strerror errno) "errno" errno)
  | Some _ => mret tt
  end.

Definition check_errno (rc : Z) (message : string) : M world unit :=
  if bool_decide (rc < 0)%Z
  then errno ← get_errno;
       throw_with (error_text message (strerror errno) "errno" errno)
  else mret tt.

(** ** Lemmas *)

(** A failed check leaves the state alone and its text fits the buffer. *)
Definition fitting (e : exn) : Prop :=
  ∃ text, e = RuntimeError text ∧ String.length text < kErrorStringBufferSize.

Lemma fitting_snprintf text : fitting (RuntimeError (snprintf kErrorStringBufferSize text)).
Proof. eexists. split; [done|]. apply snprintf_length. unfold kErrorStringBufferSize. lia. Qed.

Lemma throw_with_fitting {S A} text (s : S) :
  ∃ e, throw_with (A:=A) text s = (Throw e, s) ∧ fitting e.
Proof. eexists. split; [done|]. apply fitting_snprintf. Qed.

Lemma check_rc_ok {S} message (s : S) : check_rc 0 message s = (Ret tt, s).
Proof. done. Qed.

Lemma check_rc_throw {S} rc message (s : S) :
  rc ≠ 0%Z → ∃ e, check_rc rc message s = (Throw e, s) ∧ fitting e.
Proof.
  intros Hrc. unfold check_rc. rewrite bool_decide_eq_true_2 by done.
  apply throw_with_fitting.
Qed.

Lemma check_ptr_throw {A} message w :
  ∃ e, check_ptr (A:=A) None message w = (Throw e, w) ∧ fitting e.
Proof. unfold check_ptr. munfold. apply throw_with_fitting. Qed.

Lemma check_wc_status_ok {S} message (s : S) :
  check_wc_status IBV_WC_SUCCESS message s = (Ret tt, s).
Proof. done. Qed.

Lemma check_wc_status_throw {S} status message (s : S) :
  status ≠ IBV_WC_SUCCESS →
  ∃ e, check_wc_status status message s = (Throw e, s) ∧ fitting e.
Proof.
  intros Hst. unfold check_wc_status. rewrite bool_decide_eq_true_2 by done.
  apply throw_with_fitting.
Qed.
(** The checks in front of a continuation. *)
Lemma bind_check_rc_ok {S B} message (k : unit → M S B) s :
  (check_rc 0 message ≫= k) s = k tt s.
Proof. done. Qed.

Lemma bind_check_rc_throw {S B} rc message (k : unit → M S B) s :
  rc ≠ 0%Z → ∃ e, (check_rc rc message ≫= k) s = (Throw e, s) ∧ fitting e.
Proof.
  intros Hrc. destruct (check_rc_throw rc message s Hrc) as (e & He & ?).
  exists e. split; [|done]. munfold. by rewrite He.
Qed.

Lemma bind_check_ptr_some {A B} (a : A) message (k : unit → M world B) w :
  (check_ptr (Some a) message ≫= k) w = k tt w.
Proof. done. Qed.

Lemma bind_check_ptr_none {A B} message (k : unit → M world B) w :
  ∃ e, (check_ptr (A:=A) None message ≫= k) w = (Throw e, w) ∧ fitting e.
Proof.
  destruct (check_ptr_throw (A:=A) message w) as (e & He & ?).
  exists e. split; [|done]. unfold mbind, M_bind. by rewrite He.
Qed.
End errors.

#[export] Hint Resolve fitting_snprintf : rdmapp.
#[export] Hint Resolve check_rc_throw check_wc_status_throw check_ptr_throw : rdmapp.

(** ** Properties *)

(** [check_wc_status] returns exactly for [IBV_WC_SUCCESS]; any other status
    throws a [std::runtime_error] whose text names the status, the state being
    unchanged, and two different listed statuses give different texts. *)
Theorem check_wc_status_names {V : Verbs} {S} (status : ibv_wc_status) (s : S) :
  (check_wc_status status "failed to send" s = (Ret tt, s) ↔ status = IBV_WC_SUCCESS) ∧
  (status ≠ IBV_WC_SUCCESS →
   check_wc_status status "failed to send" s =
   (Throw (RuntimeError (snprintf kErrorStringBufferSize
      (error_text "failed to send" (errorstr status) "status" (wc_status_code status)))), s)) ∧
  (∀ status', errorstr status = errorstr status' → errorstr status ≠ "UNKNOWN_ERROR" →
   status = status').
Proof.
  split_and!.
  - split; [|by intros ->]. intros H.
    destruct (decide (status = IBV_WC_SUCCESS)) as [|Hne]; [done|].
    destruct (check_wc_status_throw status "failed to send" s Hne) as (e & He & _). congruence.
  - intros Hne. unfold check_wc_status. by rewrite bool_decide_eq_true_2.
  - intros status' Heq Hk. destruct status, status'; done.
Qed.
