(* ===== verification/Serdes.v ===== *)
(** * detail/serdes.h: integers and GIDs on the wire

    [hton], [ntoh], [serialize] and [deserialize] of
    include/rdmapp/detail/serdes.h.  An output iterator is the vector it appends
    to, an input iterator the bytes from its position on, both as the state of
    [M bytes]; reading past the last byte is undefined behaviour.  The byte order
    of the host is the parameter [Host], so that a value can be written on one
    host and read on another. *)

From S2P Require Import Prelude Verbs.
From stdpp Require Import options.

Class Host := { big_endian : bool }.

(** What a serializer of a type promises its clients: it appends an image that
    does not depend on the host, and on any host the deserializer reads a
    well-formed value back from its image and stops just after it. *)
Class Codec {A} (ser : Host → A → M bytes unit) (des : Host → M bytes A)
    (wf : A → Prop) (img : A → bytes) := {
  codec_ser H v buf : ser H v buf = (Ret tt, buf ++ img v);
  codec_des H v rest : wf v → des H (img v ++ rest) = (Ret v, rest) }.

Section serdes.
Context {H : Host}.

(** The object representation of an [n]-byte unsigned integer, and back. *)
Definition object_bytes (n : nat) (v : Z) : bytes :=
  if big_endian then rev (le_split n v) else le_split n v.
Definition object_value (bs : bytes) : Z :=
  le_combine (if big_endian then rev bs else bs).

(** [htobe16/32/64] and [be16/32/64toh]. *)
Definition bswap (n : nat) (v : Z) : Z := le_combine (rev (le_split n v)).
Definition hton (n : nat) (v : Z) : Z := if big_endian then v else bswap n v.
Definition ntoh (n : nat) (v : Z) : Z := if big_endian then v else bswap n v.

(** [std::copy_n] from an input iterator, which then advances. *)
Definition copy_n (n : nat) : M bytes bytes := λ it,
  if bool_decide (n ≤ length it) then (Ret (take n it), drop n it) else (Undefined, it).

(** [std::copy_n] to a back inserter. *)
Definition put (bs : bytes) : M bytes unit := mmodify (λ buf, buf ++ bs).

(** The overloads for [n]-byte integers. *)
Definition serialize_int (n : nat) (value : Z) : M bytes unit :=
  let nvalue := hton n value in
  put (object_bytes n nvalue).

Definition deserialize_int (n : nat) : M bytes Z :=
  bs ← copy_n n;
  mret (ntoh n (object_value bs)).

(** The overload for [void *]. *)
Definition deserialize_ptr : M bytes Z :=
  bs ← copy_n 8;
  mret (ntoh 8 (object_value bs)).

(** The overloads for [union ibv_gid]. *)
Definition serialize_gid (value : ibv_gid) : M bytes unit := put value.
Definition deserialize_gid : M bytes ibv_gid := copy_n gid_size.
End serdes.

(** ** Lemmas *)

Section lemmas.
Context {H : Host}.

(** Network byte order: most significant byte first. *)
Definition be_image (n : nat) (v : Z) : bytes := rev (le_split n v).

Lemma le_split_length n v : length (le_split n v) = n.
Proof. apply LittleEndianList.length_le_split. Qed.

Lemma be_image_length n v : length (be_image n v) = n.
Proof. unfold be_image. by rewrite length_rev, le_split_length. Qed.

Lemma le_split_combine n bs : length bs = n → le_split n (le_combine bs) = bs.
Proof. intros <-. apply le_split_le_combine. Qed.

Lemma object_bytes_hton n v : object_bytes n (hton n v) = be_image n v.
Proof.
  unfold object_bytes, hton, bswap, be_image. destruct big_endian; [done|].
  apply le_split_combine. apply be_image_length.
Qed.

Lemma ntoh_object_value bs :
  ntoh (length bs) (object_value bs) = le_combine (rev bs).
Proof.
  unfold ntoh, object_value, bswap. destruct big_endian; [done|].
  by rewrite le_split_combine.
Qed.

Lemma copy_n_app n bs rest :
  length bs = n → copy_n n (bs ++ rest) = (Ret bs, rest).
Proof.
  intros <-. unfold copy_n. rewrite bool_decide_eq_true_2 by (rewrite length_app; lia).
  by rewrite take_app_length, drop_app_length.
Qed.

Lemma copy_n_short n it : length it < n → copy_n n it = (Undefined, it).
Proof. intros ?. unfold copy_n. rewrite bool_decide_eq_false_2; [done|lia]. Qed.

Lemma deserialize_int_image n v rest :
  deserialize_int n (be_image n v ++ rest) = (Ret (wrap (8 * Z.of_nat n) v), rest).
Proof.
  unfold deserialize_int. munfold. rewrite copy_n_app by apply be_image_length. simpl.
  pose proof (ntoh_object_value (be_image n v)) as Hn.
  rewrite be_image_length in Hn. rewrite Hn. unfold be_image.
  by rewrite rev_involutive, le_combine_le_split.
Qed.
End lemmas.

#[global] Arguments be_image : simpl never.

#[export] Instance codec_int (n : nat) :
  Codec (λ H v, serialize_int n v) (λ H, deserialize_int n)
    (in_width (8 * Z.of_nat n)) (be_image n).
Proof.
  split.
  - intros H v buf. unfold serialize_int, put. munfold. by rewrite object_bytes_hton.
  - intros H v rest Hv. rewrite deserialize_int_image. by rewrite wrap_small.
Qed.

#[export] Instance codec_ptr :
  Codec (λ H v, serialize_int 8 v) (λ H, deserialize_ptr) (in_width 64) (be_image 8).
Proof. exact (codec_int 8). Qed.

#[export] Instance codec_gid :
  Codec (λ H, serialize_gid) (λ H, deserialize_gid) (λ g, length g = gid_size) id.
Proof.
  split; [done|]. intros H g rest Hg. by apply copy_n_app.
Qed.

(** One field written or read in front of a continuation. *)
Lemma bind_serialize_int {H : Host} {B} n v (k : unit → M bytes B) buf :
  (serialize_int n v ≫= k) buf = k tt (buf ++ be_image n v).
Proof. unfold mbind, M_bind. by rewrite (codec_ser (Codec:=codec_int n)). Qed.

Lemma bind_deserialize_int {H : Host} {B} n v (k : Z → M bytes B) rest :
  in_width (8 * Z.of_nat n) v →
  (deserialize_int n ≫= k) (be_image n v ++ rest) = k v rest.
Proof. intros Hv. unfold mbind, M_bind. by rewrite (codec_des (Codec:=codec_int n)). Qed.

Lemma bind_deserialize_ptr {H : Host} {B} v (k : Z → M bytes B) rest :
  in_width 64 v → (deserialize_ptr ≫= k) (be_image 8 v ++ rest) = k v rest.
Proof. intros Hv. unfold mbind, M_bind. by rewrite (codec_des (Codec:=codec_ptr)). Qed.

Lemma bind_deserialize_gid {H : Host} {B} g (k : ibv_gid → M bytes B) rest :
  length g = gid_size → (deserialize_gid ≫= k) (g ++ rest) = k g rest.
Proof.
  intros Hg. unfold mbind, M_bind. unfold deserialize_gid. by rewrite copy_n_app.
Qed.

#[export] Hint Rewrite @be_image_length : rdmapp_rw.

(** ** Properties *)

(** An integer written by one host is read back by any other host, whatever
    the byte order of either, and what is on the wire is the big-endian image. *)
Theorem serdes_int_portable (writer reader : Host) (n : nat) (v : Z) (buf rest : bytes) :
  in_width (8 * Z.of_nat n) v →
  serialize_int (H:=writer) n v buf = (Ret tt, buf ++ be_image n v) ∧
  deserialize_int (H:=reader) n (be_image n v ++ rest) = (Ret v, rest).
Proof.
  intros Hv. split.
  - apply (codec_ser (Codec:=codec_int n)).
  - by apply (codec_des (Codec:=codec_int n)).
Qed.

Lemma serdes_int_portable_witness :
  serialize_int (H:={| big_endian := false |}) 4 258 [] =
    (Ret tt, [Byte.x00; Byte.x00; Byte.x01; Byte.x02]) ∧
  deserialize_int (H:={| big_endian := true |}) 4
    [Byte.x00; Byte.x00; Byte.x01; Byte.x02] = (Ret 258%Z, []).
Proof.
  apply (serdes_int_portable {| big_endian := false |} {| big_endian := true |} 4 258 [] []).
  vm_compute. split; congruence.
Defined.
