(* ===== verification/Device.v ===== *)
(** * device.h, device.cc: device lists and devices

    [device_list] with its iterator, and [device] with its three constructors,
    [open_device], the accessors, [gid_hex_string] and the destructors.  The logging
    calls are left out, and with them the text of the link layer. *)

From Stdlib Require Import Ascii.
From S2P Require Import Prelude Verbs RefNic Errors.
From stdpp Require Import options.

(** ** Textual GIDs *)

(** One digit of ["%02x"]. *)
Definition hex_digit (n : N) : ascii :=
  match n with
  | 0 => "0" | 1 => "1" | 2 => "2" | 3 => "3" | 4 => "4" | 5 => "5" | 6 => "6"
  | 7 => "7" | 8 => "8" | 9 => "9" | 10 => "a" | 11 => "b" | 12 => "c"
  | 13 => "d" | 14 => "e" | _ => "f"
  end%N%char.

Definition hex2 (b : byte) : string :=
  let n := Byte.to_N b in
  String (hex_digit (n `div` 16)) (String (hex_digit (n `mod` 16)) EmptyString).

Definition kGidLength : nat := 16.

(** The loop of [device::gid_hex_string], from index [i] on. *)
Fixpoint gid_hex_loop (i : nat) (raw : bytes) (gid_str : string) : string :=
  match raw with
  | [] => gid_str
  | b :: raw' =>
      gid_hex_loop (S i) raw'
        (gid_str +:+ (if bool_decide (i = 0) then hex2 b else ":" +:+ hex2 b))
  end.

Definition gid_hex_string (gid : ibv_gid) : string :=
  gid_hex_loop 0 (take kGidLength gid) "".

Section device.
Context {V : Verbs}.

(** ** device_list *)

Record device_list := DeviceList {
  devices_ : option (list ibv_device);
  nr_devices_ : Z }.

Definition free_device_list : M world unit :=
  vcall (λ n, (tt, ibv_free_device_list n)) (λ _, EvFreeDeviceList).

Definition device_list_ctor : M world device_list :=
  r ← vcall ibv_get_device_list (λ r, EvGetDeviceList r.1 r.2);
  let '(devices, nr_devices) := r in
  if bool_decide (nr_devices = 0%Z) then
    free_device_list ;;
    throw_with_message "no Infiniband devices found"
  else
    check_ptr devices "failed to get Infiniband devices" ;;
    mret {| devices_ := devices; nr_devices_ := u64 nr_devices |}.

Definition device_list_dtor (l : device_list) : M world unit :=
  match devices_ l with
  | Some _ => free_device_list
  | None => mret tt
  end.

(** [devices_[i]]. *)
Definition devices_at (devices : option (list ibv_device)) (i : Z) : M world ibv_device :=
  l ← deref devices;
  deref (l !! Z.to_nat i).

Record dl_iterator := DlIterator { i_ : Z; it_devices_ : option (list ibv_device) }.

Definition dl_begin (l : device_list) : dl_iterator := DlIterator 0 (devices_ l).
Definition dl_end (l : device_list) : dl_iterator := DlIterator (nr_devices_ l) (devices_ l).
Definition dl_deref (it : dl_iterator) : M world ibv_device := devices_at (it_devices_ it) (i_ it).
Definition dl_ne (a b : dl_iterator) : bool := bool_decide (i_ a ≠ i_ b).
Definition dl_next (it : dl_iterator) : dl_iterator := DlIterator (u64 (i_ it + 1)) (it_devices_ it).
Definition dl_eq (a b : dl_iterator) : bool := bool_decide (i_ a = i_ b).
(** The postfix operator: the iterator as it then is, and what the expression gives, which
    is the same object. *)
Definition dl_post_next (it : dl_iterator) : dl_iterator * dl_iterator :=
  let it := DlIterator (u64 (i_ it + 1)) (it_devices_ it) in (it, it).

Definition dl_size (l : device_list) : Z := nr_devices_ l.

Definition device_list_at (l : device_list) (i : Z) : M world ibv_device :=
  if bool_decide (nr_devices_ l ≤ i)%Z
  then mthrow_exn (OutOfRange "out of range")
  else devices_at (devices_ l) i.

(** ** device *)

Record device := Device {
  device_ : option ibv_device;
  ctx_ : option ibv_context;
  port_attr_ : ibv_port_attr;
  device_attr_ex_ : ibv_device_attr_ex;
  gid_ : ibv_gid;
  gid_index_ : Z;
  port_num_ : Z;
  device_list_ : option device_list }.

(** [open_device] and the fields it fills.  The port number is a [uint16_t]; the
    library takes a [uint8_t]. *)
Definition open_device (list_ : option device_list) (target : ibv_device) (port_num : Z)
    : M world device :=
  ctx ← vcall (ibv_open_device target) (EvOpenDevice target);
  check_ptr ctx "failed to open device" ;;
  port ← vcall (ibv_query_port ctx (u8 port_num)) (λ r, EvQueryPort (u8 port_num) r.1);
  check_rc port.1 "failed to query port" ;;
  ext ← vcall (ibv_query_device_ex ctx) (λ r, EvQueryDeviceEx r.1);
  check_rc ext.1 "failed to query extended attributes" ;;
  let gid_index := 0%Z in
  gid ← vcall (ibv_query_gid ctx (u8 port_num) gid_index)
              (λ r, EvQueryGid (u8 port_num) gid_index r.1);
  check_rc gid.1 "failed to query gid" ;;
  mret {| device_ := Some target; ctx_ := ctx; port_attr_ := port.2;
          device_attr_ex_ := ext.2; gid_ := gid.2; gid_index_ := gid_index;
          port_num_ := port_num; device_list_ := list_ |}.

(** [device(struct ibv_device *, uint16_t)]. *)
Definition device_ctor `{Build} (target : option ibv_device) (port_num : Z) : M world device :=
  cassert (bool_decide (target ≠ None)) ;;
  t ← deref target;
  open_device None t port_num.

(** The range [for] of the constructor by name; [fuel] bounds the iterations. *)
(** [*it++] is the device after the one [it] was at: the postfix operator gives the
    incremented iterator, as the prefix one does. *)
Lemma dl_post_next_skips (l : list ibv_device) (i : nat) (d : ibv_device) (w : world) :
  (Z.of_nat i + 1 < 2 ^ 64)%Z → l !! S i = Some d →
  dl_deref (dl_post_next (DlIterator (Z.of_nat i) (Some l))).2 w = (Ret d, w) ∧
  dl_eq (dl_post_next (DlIterator (Z.of_nat i) (Some l))).2
        (dl_next (DlIterator (Z.of_nat i) (Some l))) = true.
Proof.
  intros Hi Hd. unfold dl_post_next, dl_next, dl_eq, dl_deref, devices_at. munfold. simpl.
  rewrite u64_small by lia. replace (Z.to_nat (Z.of_nat i + 1)) with (S i) by lia.
  rewrite Hd. split; [done|]. by apply bool_decide_eq_true_2.
Qed.

Fixpoint device_by_name_loop (fuel : nat) (it last : dl_iterator) (device_name : string)
    (port_num : Z) : M world (option device) :=
  if dl_ne it last then
    match fuel with
    | 0 => mundefined
    | S fuel =>
        target ← dl_deref it;
        if bool_decide (ibv_get_device_name target = device_name) then
          d ← open_device None target port_num;
          mret (Some d)
        else device_by_name_loop fuel (dl_next it) last device_name port_num
    end
  else mret None.

(** [device(std::string const &, uint16_t)]: the list is a local object. *)
Definition device_ctor_name (device_name : string) (port_num : Z) : M world device :=
  devices ← device_list_ctor;
  raii (found ← device_by_name_loop (Z.to_nat (nr_devices_ devices)) (dl_begin devices)
                  (dl_end devices) device_name port_num;
        match found with
        | Some d => mret d
        | None => throw_with ("no device named " +:+ device_name +:+ " found")
        end)
       (device_list_dtor devices).

(** [device(uint16_t, uint16_t)]: the list is a member, destroyed with the
    object when the constructor throws. *)
Definition device_ctor_num (device_num port_num : Z) : M world device :=
  list_ ← device_list_ctor;
  try_catch
    (if bool_decide (dl_size list_ ≤ device_num)%Z then
       mthrow_exn (InvalidArgument (snprintf kErrorStringBufferSize
         ("requested device number " +:+ pretty device_num +:+ " out of range, " +:+
          pretty (dl_size list_) +:+ " devices available")))
     else
       target ← device_list_at list_ device_num;
       open_device (Some list_) target port_num)
    (λ e, device_list_dtor list_ ;; mthrow_exn e).

Definition port_num (d : device) : Z := port_num_ d.
Definition lid (d : device) : Z := pa_lid (port_attr_ d).
Definition gid (d : device) : ibv_gid := gid_ d.
Definition gid_index (d : device) : Z := gid_index_ d.

Definition is_compare_and_swap_supported (d : device) : bool :=
  bool_decide (atomic_cap (device_attr_ex_ d) ≠ IBV_ATOMIC_NONE).
Definition is_fetch_and_add_supported (d : device) : bool :=
  bool_decide (atomic_cap (device_attr_ex_ d) ≠ IBV_ATOMIC_NONE).

(** The body of [~device], then the destructor of its member [device_list_]. *)
Definition device_dtor (d : device) : M world unit :=
  match ctx_ d with
  | None => mret tt
  | Some _ => vcall (ibv_close_device (ctx_ d)) (EvCloseDevice (ctx_ d)) ;; mret tt
  end ;;
  match device_list_ d with
  | None => mret tt
  | Some l => device_list_dtor l
  end.
End device.

(** ** Lemmas: the search by name *)

Section search.
Context {V : Verbs}.
Implicit Types (l : list ibv_device) (w : world).

(** The abstract search: the first device of the list with that name. *)
Definition first_named (device_name : string) l : option ibv_device :=
  snd <$> list_find (λ d, ibv_get_device_name d = device_name) l.

Lemma first_named_cons device_name d l :
  first_named device_name (d :: l) =
  if bool_decide (ibv_get_device_name d = device_name) then Some d
  else first_named device_name l.
Proof.
  unfold first_named. simpl. case_decide as Hd; case_bool_decide; try done.
  by destruct (list_find _ l) as [[? ?]|].
Qed.

Lemma device_by_name_loop_spec l fuel i device_name port w :
  i + fuel = length l → (Z.of_nat (length l) < 2 ^ 64)%Z →
  device_by_name_loop fuel (DlIterator (Z.of_nat i) (Some l))
    (DlIterator (Z.of_nat (length l)) (Some l)) device_name port w =
  match first_named device_name (drop i l) with
  | Some t => (d ← open_device None t port; mret (Some d)) w
  | None => (Ret None, w)
  end.
Proof.
  intros Hlen Hmax. revert i Hlen. induction fuel as [|fuel IH]; intros i Hlen; simpl.
  - unfold dl_ne. simpl. rewrite bool_decide_eq_false_2 by lia.
    by rewrite drop_ge by lia.
  - unfold dl_ne at 1. simpl. rewrite bool_decide_eq_true_2 by lia.
    destruct (lookup_lt_is_Some_2 l i) as [d Hd]; [lia|].
    rewrite (drop_S l d i Hd), first_named_cons.
    unfold dl_deref, devices_at. munfold. simpl. rewrite Nat2Z.id, Hd.
    case_bool_decide; [done|].
    unfold dl_next. simpl. rewrite u64_small by lia.
    replace (Z.of_nat i + 1)%Z with (Z.of_nat (S i)) by lia. apply IH. lia.
Qed.
End search.

(** ** Lemmas: hexadecimal text *)

Definition hex_value (c : ascii) : N :=
  let n := N_of_ascii c in if bool_decide (n < 58)%N then (n - 48)%N else (n - 87)%N.

(** The bytes a GID text stands for. *)
Fixpoint gid_parse (n : nat) (s : string) : bytes :=
  match n, s with
  | S n, String c1 (String c2 rest) =>
      default Byte.x00 (Byte.of_N (hex_value c1 * 16 + hex_value c2)%N) ::
      gid_parse n (match rest with String _ rest' => rest' | EmptyString => EmptyString end)
  | _, _ => []
  end.

Lemma hex2_parse b :
  ∃ c1 c2, hex2 b = String c1 (String c2 EmptyString) ∧
    Byte.of_N (hex_value c1 * 16 + hex_value c2)%N = Some b.
Proof.
  do 2 eexists. split; [reflexivity|].
  destruct b; vm_compute; reflexivity.
Qed.

Lemma gid_hex_loop_app i raw s :
  gid_hex_loop i raw s = s +:+ gid_hex_loop i raw "".
Proof.
  revert i s. induction raw as [|b raw IH]; intros i s; simpl.
  - by rewrite string_app_nil_r.
  - rewrite IH. rewrite (IH _ ("" +:+ _)). rewrite string_app_nil_l. apply string_app_assoc.
Qed.

Lemma gid_parse_loop raw i :
  0 < i → gid_parse (length raw)
    (match gid_hex_loop i raw "" with String _ s => s | EmptyString => EmptyString end) = raw.
Proof.
  revert i. induction raw as [|b raw IH]; intros i Hi; [done|]. simpl.
  rewrite bool_decide_eq_false_2 by lia. rewrite gid_hex_loop_app.
  destruct (hex2_parse b) as (c1 & c2 & -> & Hb).
  autorewrite with rdmapp_str. cbn. rewrite Hb. simpl. f_equal. apply IH. lia.
Qed.

Lemma gid_hex_loop_length raw i :
  0 < i → String.length (gid_hex_loop i raw "") = 3 * length raw.
Proof.
  revert i. induction raw as [|b raw IH]; intros i Hi; [done|]. simpl.
  rewrite bool_decide_eq_false_2 by lia. rewrite gid_hex_loop_app. unfold hex2.
  autorewrite with rdmapp_str. simpl. rewrite IH by lia. lia.
Qed.

Lemma gid_hex_loop_full raw :
  0 < length raw →
  S (String.length (gid_hex_loop 0 raw "")) = 3 * length raw ∧
  gid_parse (length raw) (gid_hex_loop 0 raw "") = raw.
Proof.
  destruct raw as [|b raw]; simpl; [lia|]. intros _. rewrite gid_hex_loop_app.
  destruct (hex2_parse b) as (c1 & c2 & -> & Hb). autorewrite with rdmapp_str. split.
  - simpl. rewrite gid_hex_loop_length by lia. lia.
  - rewrite Hb. simpl. f_equal. apply gid_parse_loop. lia.
Qed.

(** ** Lemmas: opening a device *)

Section opening.
Context {V : Verbs}.

Definition is_close_device (ev : verbs_ev) : bool :=
  match ev with EvCloseDevice _ _ => true | _ => false end.

(** The calls of a successful [open_device]. *)
Definition open_calls (target : ibv_device) (port : Z) (c : ibv_context) : list verbs_ev :=
  [EvOpenDevice target (Some c); EvQueryPort (u8 port) 0; EvQueryDeviceEx 0;
   EvQueryGid (u8 port) 0 0].

(** The device that the answers of the library describe: one after the other, the context of
    [target], the attributes of the port, those of the device, and the first GID of the port. *)
Definition opened (target : ibv_device) (port : Z) (list_ : option device_list)
    (w : world) (d : device) (w' : world) : Prop :=
  ∃ c n1 pa n2 ext n3 g,
    ibv_open_device target (w_nic w) = (Some c, n1) ∧
    ibv_query_port (Some c) (u8 port) n1 = ((0%Z, pa), n2) ∧
    ibv_query_device_ex (Some c) n2 = ((0%Z, ext), n3) ∧
    ibv_query_gid (Some c) (u8 port) 0 n3 = ((0%Z, g), w_nic w') ∧
    calls w (open_calls target port c) w' ∧
    d = {| device_ := Some target; ctx_ := Some c; port_attr_ := pa; device_attr_ex_ := ext;
           gid_ := g; gid_index_ := 0; port_num_ := port; device_list_ := list_ |}.

(** What [open_device] leaves behind: the device it describes, or an exception
    after which a context that was opened is not closed. *)
Definition open_result (target : ibv_device) (port : Z) (list_ : option device_list)
    (w : world) (r : outcome device * world) : Prop :=
  match r with
  | (Ret d, w') => opened target port list_ w d w'
  | (Throw e, w') => fitting e ∧ ∃ tr, calls w tr w' ∧
      filter is_close_device tr = [] ∧
      (∀ c, fst (ibv_open_device target (w_nic w)) = Some c →
       head tr = Some (EvOpenDevice target (Some c)))
  | _ => False
  end.

(** The rest of [open_device] after a query: a failed check throws there. *)
Lemma open_result_check target port list_ w c rc message (k : unit → M world device) w1 tr0 tr :
  fst (ibv_open_device target (w_nic w)) = Some c →
  calls w tr0 w1 → tr0 = EvOpenDevice target (Some c) :: tr →
  filter is_close_device tr = [] →
  (rc = 0%Z → open_result target port list_ w (k tt w1)) →
  open_result target port list_ w ((check_rc rc message ≫= k) w1).
Proof.
  intros Hc Hcalls -> Htr Hk. destruct (decide (rc = 0%Z)) as [->|Hrc].
  - rewrite bind_check_rc_ok. by apply Hk.
  - destruct (bind_check_rc_throw rc message k w1 Hrc) as (e & -> & He). split; [done|].
    eexists. split; [exact Hcalls|]. split.
    + rewrite filter_cons_False by (intros []). done.
    + intros c' Hc'. simpl. congruence.
Qed.

End opening.

(** ** Properties *)

(** The text of a 16-byte GID has 47 characters and determines the GID. *)
Theorem gid_hex_string_parse (g : ibv_gid) :
  length g = kGidLength →
  String.length (gid_hex_string g) = 47 ∧ gid_parse kGidLength (gid_hex_string g) = g.
Proof.
  intros Hg. unfold gid_hex_string. rewrite take_ge by lia.
  destruct (gid_hex_loop_full g) as [Hlen Hparse]; [rewrite Hg; unfold kGidLength; lia|].
  rewrite Hg in Hlen, Hparse. split; [unfold kGidLength in Hlen; lia|done].
Qed.

Lemma gid_hex_string_parse_witness :
  gid_hex_string (replicate 15 Byte.x00 ++ [Byte.xfe]) =
    "00:00:00:00:00:00:00:00:00:00:00:00:00:00:00:fe" ∧
  gid_parse 16 (gid_hex_string (replicate 15 Byte.x00 ++ [Byte.xfe])) =
    replicate 15 Byte.x00 ++ [Byte.xfe].
Proof.
  split; [reflexivity|]. apply (gid_hex_string_parse (replicate 15 Byte.x00 ++ [Byte.xfe])).
  reflexivity.
Defined.

Section properties.
Context {V : Verbs}.

(** The constructor by name opens the first device of the list that has the
    name, or throws when there is none, and frees the list in every case. *)
Theorem device_ctor_name_first (name : string) (port : Z) (w : world)
    (l : list ibv_device) (n' : nic) :
  ibv_get_device_list (w_nic w) = ((Some l, Z.of_nat (length l)), n') →
  0 < length l → (Z.of_nat (length l) < 2 ^ 64)%Z →
  device_ctor_name name port w =
  raii (match first_named name l with
        | Some t => open_device None t port
        | None => throw_with ("no device named " +:+ name +:+ " found")
        end)
    free_device_list
    (World n' (w_trace w ++ [EvGetDeviceList (Some l) (Z.of_nat (length l))]) (w_next_sq_psn w)).
Proof.
  intros Hl Hpos Hmax. unfold device_ctor_name, device_list_ctor, vcall.
  unfold mbind, M_bind. simpl. rewrite Hl. simpl.
  rewrite bool_decide_eq_false_2 by lia. simpl.
  rewrite u64_small by lia. unfold raii. simpl. unfold mbind, M_bind.
  unfold dl_begin, dl_end; simpl. rewrite Nat2Z.id.
  rewrite (device_by_name_loop_spec l (length l) 0) by lia. rewrite drop_0.
  destruct (first_named name l) as [t|]; [|reflexivity].
  unfold mbind, M_bind. by destruct (open_device None t port _) as [[] ?].
Qed.

(** C39: opening a device makes the four documented calls and returns the device they
    describe: its context, the attributes of its port and of the device, and its GID are
    what the calls answered, in the fields that the accessors read; when a query fails after
    [ibv_open_device] succeeded, the exception leaves the context open: no call closes it. *)
Theorem open_device_outcomes (target : ibv_device) (port : Z) (list_ : option device_list)
    (w : world) :
  match open_device list_ target port w with
  | (Ret d, w') => opened target port list_ w d w'
  | (Throw e, w') => fitting e ∧ ∃ tr, calls w tr w' ∧
      filter is_close_device tr = [] ∧
      (∀ c, fst (ibv_open_device target (w_nic w)) = Some c →
       head tr = Some (EvOpenDevice target (Some c)))
  | _ => False
  end.
Proof.
  change (open_result target port list_ w (open_device list_ target port w)).
  unfold open_device. vstep oc n1 as Ho. destruct oc as [c|].
  - assert (fst (ibv_open_device target (w_nic w)) = Some c) as Hc by by rewrite Ho.
    pose proof (calls_after w [] w n1 (EvOpenDevice target (Some c)) (calls_nil w)) as Hw1.
    unfold mbind at 1, M_bind at 1. simpl.
    vstep q1 n2 as Hq1. eapply open_result_check;
      [exact Hc|eapply calls_after, Hw1|reflexivity|done|intros Hrc1].
    vstep q2 n3 as Hq2. eapply open_result_check;
      [exact Hc|eapply calls_after, calls_after, Hw1|reflexivity|done|intros Hrc2].
    vstep q3 n4 as Hq3. eapply open_result_check;
      [exact Hc|eapply calls_after, calls_after, calls_after, Hw1|reflexivity|done|intros Hrc3].
    destruct q1 as [? pa], q2 as [? ext], q3 as [? g]. simpl in Hrc1, Hrc2, Hrc3. subst.
    exists c, n1, pa, n2, ext, n3, g. split_and!; try done.
    eapply eq_trans; [by eapply calls_after, calls_after, calls_after|done].
  - unfold mbind at 1, M_bind at 1.
    destruct (check_ptr_throw (A:=ibv_context) "failed to open device"
      (after w n1 (EvOpenDevice target None))) as (e & -> & He).
    split; [done|]. eexists. split; [reflexivity|]. split; [done|].
    rewrite Ho. by intros c [=].
Qed.
End properties.

Lemma device_ctor_name_first_witness :
  ∃ w', device_ctor_name (V:=good) "ref0" 1 (world0 (λ _, false)) =
    raii (open_device (V:=good) None ref_device 1) (free_device_list (V:=good)) w' ∧
    w_trace w' = [EvGetDeviceList (Some [ref_device]) 1].
Proof.
  eexists. split.
  - apply (device_ctor_name_first (V:=good) "ref0" 1 (world0 (λ _, false)) [ref_device]
      (tick rnic0)); [reflexivity|simpl; lia|reflexivity].
  - reflexivity.
Defined.
