(* ===== verification/Resources.v ===== *)
(** * pd.cc, cq.cc, srq.cc: protection domains, completion and shared receive queues

    Each class owns one handle: the constructor creates it and throws when the
    library returns a null pointer, the destructor destroys it and only logs a
    failure.  [cq::poll] comes in its three overloads. *)

From S2P Require Import Prelude Verbs Errors Device.
From stdpp Require Import options.

Section resources.
Context {V : Verbs}.

(** ** pd *)

Record pd := Pd { pd_device_ : device; pd_ : option ibv_pd }.

Definition pd_ctor (dev : device) : M world pd :=
  p ← vcall (ibv_alloc_pd (ctx_ dev)) EvAllocPd;
  check_ptr p "failed to alloc pd" ;;
  mret {| pd_device_ := dev; pd_ := p |}.

Definition device_ptr (p : pd) : device := pd_device_ p.

Definition pd_dtor (p : pd) : M world unit :=
  match pd_ p with
  | None => mret tt
  | Some _ => vcall (ibv_dealloc_pd (pd_ p)) (EvDeallocPd (pd_ p)) ;; mret tt
  end.

(** ** cq *)

Record cq := Cq { cq_device_ : device; cq_ : option ibv_cq }.

(** The library takes the number of entries as an [int]. *)
Definition cq_ctor (dev : device) (nr_cqe : Z) : M world cq :=
  c ← vcall (ibv_create_cq (ctx_ dev) (i32 nr_cqe)) (EvCreateCq (i32 nr_cqe));
  check_ptr c "failed to create cq" ;;
  mret {| cq_device_ := dev; cq_ := c |}.

(** [poll(struct ibv_wc &)]: the result and what is written to the reference. *)
Definition cq_poll_one (c : cq) : M world (bool * option ibv_wc) :=
  r ← vcall (ibv_poll_cq (cq_ c) 1) (λ r, EvPollCq 1 r.1 r.2);
  let '(rc, wcs) := r in
  if bool_decide (rc < 0)%Z then
    check_rc (- rc) "failed to poll cq" ;; mret (false, head wcs)
  else if bool_decide (rc = 0%Z) then mret (false, head wcs)
  else mret (true, head wcs).

(** The template [poll(It wc, int count)]: the count and the entries written. *)
Definition cq_poll_n (c : cq) (count : Z) : M world (Z * list ibv_wc) :=
  r ← vcall (ibv_poll_cq (cq_ c) count) (λ r, EvPollCq count r.1 r.2);
  let '(rc, wcs) := r in
  if bool_decide (rc < 0)%Z then
    throw_with ("failed to poll cq: " +:+ strerror rc +:+ " (rc=" +:+ pretty rc +:+ ")")
  else mret (rc, wcs).

(** [poll(std::vector<struct ibv_wc> &)]: the count and the new contents of the
    vector; [&wc_vec[0]] needs an element. *)
Definition cq_poll (c : cq) (wc_vec : list ibv_wc) : M world (Z * list ibv_wc) :=
  match wc_vec with
  | [] => mundefined
  | _ =>
      r ← cq_poll_n c (i32 (Z.of_nat (length wc_vec)));
      let '(rc, wcs) := r in
      mret (rc, wcs ++ drop (length wcs) wc_vec)
  end.

Definition cq_dtor (c : cq) : M world unit :=
  match cq_ c with
  | None => mret tt
  | Some _ => vcall (ibv_destroy_cq (cq_ c)) (EvDestroyCq (cq_ c)) ;; mret tt
  end.

(** ** srq *)

Record srq := Srq { srq_ : option ibv_srq; srq_pd_ : pd }.

Definition srq_init_attr (max_wr : Z) : ibv_srq_init_attr :=
  {| sia_max_sge := 1; sia_max_wr := u32 max_wr; sia_srq_limit := u32 max_wr |}.

Definition srq_ctor (p : pd) (max_wr : Z) : M world srq :=
  s ← vcall (ibv_create_srq (pd_ p) (srq_init_attr max_wr))
            (EvCreateSrq (srq_init_attr max_wr));
  check_ptr s "failed to create srq" ;;
  mret {| srq_ := s; srq_pd_ := p |}.

Definition srq_dtor (s : srq) : M world unit :=
  match srq_ s with
  | None => mret tt
  | Some _ => vcall (ibv_destroy_srq (srq_ s)) (EvDestroySrq (srq_ s)) ;; mret tt
  end.
End resources.

(** ** Lemmas *)

Section lemmas.
Context {V : Verbs}.

(** The shape shared by the three constructors. *)
Lemma create_or_throw {H O} (op : nic → option H * nic) (ev : option H → verbs_ev)
    (mk : option H → O) message w :
  match (p ← vcall op ev; check_ptr p message ;; mret (mk p)) w with
  | (Ret o, w') => ∃ h, o = mk (Some h) ∧ calls w [ev (Some h)] w'
  | (Throw e, w') => fitting e ∧ calls w [ev None] w'
  | _ => False
  end.
Proof.
  vstep p n as Hp. destruct p as [h|].
  - rewrite bind_check_ptr_some. by exists h.
  - by destruct (bind_check_ptr_none (A:=H) message (λ _, mret (mk None))
      (after w n (ev None))) as (e & -> & He).
Qed.

Lemma destroy_calls (op : nic → Z * nic) (ev : Z → verbs_ev) w :
  ∃ rc w', (vcall op ev ;; mret tt) w = (Ret tt, w') ∧ calls w [ev rc] w'.
Proof.
  destruct (op (w_nic w)) as [rc n] eqn:Hop. exists rc, (after w n (ev rc)).
  by rewrite (bind_vcall op ev _ w rc n Hop).
Qed.

(** The entries polled replace the front of the vector. *)
Lemma cq_poll_spec `{!CqLaws V} c wc_vec w r w' :
  wc_vec ≠ [] → (Z.of_nat (length wc_vec) < 2 ^ 31)%Z →
  cq_poll c wc_vec w = (r, w') →
  ∃ rc wcs, calls w [EvPollCq (Z.of_nat (length wc_vec)) rc wcs] w' ∧
  match r with
  | Ret (nr, wc_vec') => rc = nr ∧ nr = Z.of_nat (length wcs) ∧
      length wcs ≤ length wc_vec ∧ wc_vec' = wcs ++ drop (length wcs) wc_vec
  | Throw e => (rc < 0)%Z ∧ wcs = [] ∧ ∃ text, e = RuntimeError text ∧ fitting e
  | _ => False
  end.
Proof.
  intros Hne Hlen Hpoll. destruct wc_vec as [|wc0 vec]; [done|].
  unfold cq_poll, cq_poll_n in Hpoll. rewrite i32_small in Hpoll by lia.
  destruct (ibv_poll_cq (cq_ c) (Z.of_nat (length (wc0 :: vec))) (w_nic w))
    as [[rc wcs] n] eqn:Hop.
  unfold mbind, M_bind, vcall in Hpoll. rewrite Hop in Hpoll. simpl in Hpoll.
  exists rc, wcs. case_bool_decide as Hrc; simpl in Hpoll; injection Hpoll as <- <-;
    (split; [done|]).
  - split_and!; [done|by eapply poll_cq_error|]. eexists. split; [done|]. apply fitting_snprintf.
  - destruct (poll_cq_count _ _ _ _ _ _ Hop) as [Hle Heq]; [lia..|].
    simpl in Hle. split_and!; try done. simpl. lia.
Qed.

(** ** Lifetimes

    An object in a scope: constructed, used by [body], destroyed when the scope is left. *)
Definition in_scope {O A} (ctor : M world O) (dtor : O → M world unit) (body : O → M world A)
    : M world A :=
  x ← ctor; raii (body x) (dtor x).

(** Exactly one handle is created and, when the scope is left, exactly that one destroyed;
    the outcome is the body's. *)
Definition scoped {O A Hd} (body : O → M world A) (handle : O → option Hd)
    (create : option Hd → verbs_ev) (destroy : option Hd → Z → verbs_ev)
    (w : world) (r : outcome A) (w' : world) : Prop :=
  (∃ e, r = Throw e ∧ fitting e ∧ calls w [create None] w') ∨
  (∃ x h w1 w2, handle x = Some h ∧ calls w [create (Some h)] w1 ∧ body x w1 = (r, w2) ∧
     match r with
     | Ret _ | Throw _ => ∃ rc, calls w2 [destroy (Some h) rc] w'
     | _ => w' = w2
     end).

Lemma scoped_intro {O A Hd} (ctor : M world O) (dtor : O → M world unit) (body : O → M world A)
    (handle : O → option Hd) (create : option Hd → verbs_ev)
    (destroy : option Hd → Z → verbs_ev) w r w' :
  match ctor w with
  | (Ret x, w1) => ∃ h, handle x = Some h ∧ calls w [create (Some h)] w1
  | (Throw e, w1) => fitting e ∧ calls w [create None] w1
  | _ => False
  end →
  (∀ x h w2, handle x = Some h →
    ∃ rc w3, dtor x w2 = (Ret tt, w3) ∧ calls w2 [destroy (Some h) rc] w3) →
  in_scope ctor dtor body w = (r, w') → scoped body handle create destroy w r w'.
Proof.
  intros Hc Hdtor. unfold in_scope, mbind, M_bind. destruct (ctor w) as [[x|e| | |] w1]; try done.
  - destruct Hc as (h & Hh & Hc1). unfold raii.
    destruct (body x w1) as [rb w2] eqn:Hb. destruct (Hdtor x h w2 Hh) as (rc & w3 & Hd1 & Hd2).
    destruct rb; unfold mthrow_exn, mret, M_ret, mbind, M_bind; rewrite ?Hd1;
      intros [= <- <-]; right; exists x, h, w1, w2; eauto.
  - intros [= <- <-]. left. exists e. tauto.
Qed.

(** A protection domain, a completion queue and a shared receive queue each live
    exactly as long as their scope: the constructor creates one handle or throws; whether
    the scope is left by a return or an exception, the destructor destroys that handle,
    once, and does not change the outcome. *)
Theorem resources_scoped {A} (dev : device) (p : pd) (nr_cqe max_wr : Z)
    (body_pd : pd → M world A) (body_cq : cq → M world A) (body_srq : srq → M world A)
    (w : world) :
  (let '(r, w') := in_scope (pd_ctor dev) pd_dtor body_pd w in
   scoped body_pd pd_ EvAllocPd EvDeallocPd w r w') ∧
  (let '(r, w') := in_scope (cq_ctor dev nr_cqe) cq_dtor body_cq w in
   scoped body_cq cq_ (EvCreateCq (i32 nr_cqe)) EvDestroyCq w r w') ∧
  (let '(r, w') := in_scope (srq_ctor p max_wr) srq_dtor body_srq w in
   scoped body_srq srq_ (EvCreateSrq (srq_init_attr max_wr)) EvDestroySrq w r w').
Proof.
  split_and!.
  - destruct (in_scope _ _ _ w) as [r w'] eqn:Hs. eapply scoped_intro, Hs.
    + pose proof (create_or_throw (ibv_alloc_pd (ctx_ dev)) EvAllocPd (Pd dev)
        "failed to alloc pd" w) as Hc. unfold pd_ctor. repeat case_match; try done.
      destruct Hc as (h & -> & ?). eauto.
    + intros x h w2 Hh. unfold pd_dtor. rewrite Hh. apply destroy_calls.
  - destruct (in_scope _ _ _ w) as [r w'] eqn:Hs. eapply scoped_intro, Hs.
    + pose proof (create_or_throw (ibv_create_cq (ctx_ dev) (i32 nr_cqe)) (EvCreateCq (i32 nr_cqe))
        (Cq dev) "failed to create cq" w) as Hc. unfold cq_ctor. repeat case_match; try done.
      destruct Hc as (h & -> & ?). eauto.
    + intros x h w2 Hh. unfold cq_dtor. rewrite Hh. apply destroy_calls.
  - destruct (in_scope _ _ _ w) as [r w'] eqn:Hs. eapply scoped_intro, Hs.
    + pose proof (create_or_throw (ibv_create_srq (pd_ p) (srq_init_attr max_wr))
        (EvCreateSrq (srq_init_attr max_wr)) (λ s, Srq s p) "failed to create srq" w) as Hc.
      unfold srq_ctor. repeat case_match; try done. destruct Hc as (h & -> & ?). eauto.
    + intros x h w2 Hh. unfold srq_dtor. rewrite Hh. apply destroy_calls.
Qed.
End lemmas.
