(* ===== verification/Mr.v ===== *)
(** * mr.h, mr.cc and pd::reg_mr: memory regions

    [local_mr] owns a registration; [remote_mr] is the handle a peer received;
    [mr_view] is an unowned window on either.  The objects of class [local_mr] live
    in a heap, because moving between two of them mutates both and they may be the
    same object. *)

From S2P Require Import Prelude Verbs RefNic Errors Serdes Device Resources.
From stdpp Require Import options.

Section mr.
Context {V : Verbs}.

(** ** local_mr *)

(** [pd_] is a [std::shared_ptr], empty after a move. *)
Record local_mr := LocalMr { mr_ : option ibv_mr; lmr_pd_ : option pd }.

(** The default argument of [pd::reg_mr]. *)
Definition default_access : list ibv_access_flag :=
  [IBV_ACCESS_LOCAL_WRITE; IBV_ACCESS_REMOTE_WRITE; IBV_ACCESS_REMOTE_READ;
   IBV_ACCESS_REMOTE_ATOMIC].

Definition reg_mr (p : pd) (buffer length : Z) (flags : list ibv_access_flag)
    : M world local_mr :=
  mr ← vcall (ibv_reg_mr (pd_ p) buffer length flags) (EvRegMr buffer length flags);
  check_ptr mr "failed to reg mr" ;;
  mret {| mr_ := mr; lmr_pd_ := Some p |}.

(** [local_mr::mr(local_mr &&other)]: the new object and what [other] becomes. *)
Definition local_mr_move_ctor (other : local_mr) : local_mr * local_mr :=
  (LocalMr (mr_ other) (lmr_pd_ other), LocalMr None None).

Definition local_mr_dtor (m : local_mr) : M world unit :=
  match mr_ m with
  | None => mret tt
  | Some x => vcall (ibv_dereg_mr x) (EvDeregMr x) ;; mret tt
  end.

Definition local_addr {S} (m : local_mr) : M S Z := x ← deref (mr_ m); mret (ibv_mr_addr x).
Definition local_length {S} (m : local_mr) : M S Z := x ← deref (mr_ m); mret (ibv_mr_length x).
Definition local_rkey {S} (m : local_mr) : M S Z := x ← deref (mr_ m); mret (ibv_mr_rkey x).
Definition local_lkey {S} (m : local_mr) : M S Z := x ← deref (mr_ m); mret (ibv_mr_lkey x).

(** A [std::span]: first address and number of bytes. *)
Definition local_span {S} (m : local_mr) : M S (Z * Z) :=
  a ← local_addr m; l ← local_length m; mret (a, l).

(** [local_mr::serialize], into the vector that starts empty. *)
Definition local_mr_serialize `{Host} (m : local_mr) : M bytes unit :=
  x ← deref (mr_ m);
  serialize_int 8 (ibv_mr_addr x) ;;
  serialize_int 8 (ibv_mr_length x) ;;
  serialize_int 4 (ibv_mr_rkey x).

(** ** The heap of local_mr objects *)

Record mr_heap := MrHeap { h_mrs : gmap Z local_mr; h_world : world }.

Definition get_mr (l : Z) : M mr_heap local_mr := h ← mget; deref (h_mrs h !! l).
Definition set_mr (l : Z) (m : local_mr) : M mr_heap unit :=
  mmodify (λ h, MrHeap (<[l:=m]> (h_mrs h)) (h_world h)).

(** [local_mr::operator=(local_mr &&other)] on the objects at [this] and [other],
    assignment by assignment; a [shared_ptr] moved to itself is unchanged. *)
Definition local_mr_move_assign (this other : Z) : M mr_heap unit :=
  o ← get_mr other;
  t ← get_mr this;
  set_mr this (LocalMr (mr_ o) (lmr_pd_ t)) ;;
  o ← get_mr other;
  t ← get_mr this;
  (if bool_decide (this = other) then mret tt
   else set_mr this (LocalMr (mr_ t) (lmr_pd_ o)) ;; set_mr other (LocalMr (mr_ o) None)) ;;
  o ← get_mr other;
  set_mr other (LocalMr None (lmr_pd_ o)).

(** ** remote_mr *)

Record remote_mr := RemoteMr { raddr_ : Z; rlength_ : Z; rrkey_ : Z }.

Definition kSerializedSize_mr : nat := 8 + 8 + 4.

(** The constructor takes the length as a [uint32_t]. *)
Definition remote_mr_ctor (addr length rkey : Z) : remote_mr :=
  RemoteMr addr (u32 length) (u32 rkey).

Definition remote_mr_deserialize `{Host} : M bytes remote_mr :=
  addr ← deserialize_ptr;
  length ← deserialize_int 8;
  rkey ← deserialize_int 4;
  mret (RemoteMr addr length rkey).

Definition remote_addr (m : remote_mr) : Z := raddr_ m.
(** The member is a [size_t], the accessor returns a [uint32_t]. *)
Definition remote_length (m : remote_mr) : Z := u32 (rlength_ m).
Definition remote_rkey (m : remote_mr) : Z := rrkey_ m.
Definition remote_span (m : remote_mr) : Z * Z := (raddr_ m, rlength_ m).

(** ** mr_view *)

(** [lkey_] and [rkey_] share their storage. *)
Record mr_view := MrView { v_addr_ : Z; v_length_ : Z; v_key_ : Z }.

Definition size_max : Z := (2 ^ 64 - 1)%Z.

Definition mr_view_ctor (addr length key : Z) : mr_view := MrView addr length key.
Definition mr_view_null : mr_view := mr_view_ctor 0 0 0.

(** The subtraction is on [size_t]. *)
Definition mr_view_local {S} (local : local_mr) (offset length : Z) : M S mr_view :=
  a ← local_addr local;
  l ← local_length local;
  k ← local_lkey local;
  mret (MrView (a + offset) (Z.min length (u64 (l - offset))) k).

Definition mr_view_remote (remote : remote_mr) (offset length : Z) : mr_view :=
  MrView (remote_addr remote + offset)
         (Z.min length (u64 (remote_length remote - offset)))
         (remote_rkey remote).

Definition mr_view_shared {S} (local : option local_mr) : M S mr_view :=
  match local with
  | Some l => mr_view_local l 0 size_max
  | None => mret mr_view_null
  end.

Definition view_addr (v : mr_view) : Z := v_addr_ v.
Definition view_length (v : mr_view) : Z := v_length_ v.
Definition view_lkey (v : mr_view) : Z := v_key_ v.
Definition view_rkey (v : mr_view) : Z := v_key_ v.
Definition view_bool (v : mr_view) : bool := bool_decide (v_addr_ v ≠ 0%Z).
Definition view_span (v : mr_view) : Z * Z := (v_addr_ v, v_length_ v).

(** ** Use of local_mr objects by a program *)

(** The program registers, moves and destroys objects in any order. *)
Inductive mr_step : mr_heap → mr_heap → Prop :=
| step_reg p addr len flags l mrs w m w' :
    mrs !! l = None → reg_mr p addr len flags w = (Ret m, w') →
    mr_step (MrHeap mrs w) (MrHeap (<[l:=m]> mrs) w')
| step_reg_throw p addr len flags mrs w e w' :
    reg_mr p addr len flags w = (Throw e, w') →
    mr_step (MrHeap mrs w) (MrHeap mrs w')
| step_move_ctor l src mrs w o :
    mrs !! l = None → mrs !! src = Some o →
    mr_step (MrHeap mrs w)
      (MrHeap (<[l:=(local_mr_move_ctor o).1]> (<[src:=(local_mr_move_ctor o).2]> mrs)) w)
| step_move_assign this other h h' :
    is_Some (h_mrs h !! this) → is_Some (h_mrs h !! other) →
    local_mr_move_assign this other h = (Ret tt, h') →
    mr_step h h'
| step_destroy l mrs w o w' :
    mrs !! l = Some o → local_mr_dtor o w = (Ret tt, w') →
    mr_step (MrHeap mrs w) (MrHeap (delete l mrs) w').
End mr.

(** ** Lemmas: ownership of registrations *)

Section ownership.
Context {V : Verbs} {L : MrLaws V}.
Implicit Types (mrs : gmap Z local_mr) (h : mr_heap).

Definition live h : gset Z := nic_mrs (w_nic (h_world h)).

(** The handle owned by the object at [l], if any. *)
Definition handle_at mrs (l : Z) : option Z := o ← mrs !! l; mr_h <$> mr_ o.

Definition owned h (x : Z) : Prop := ∃ l, handle_at (h_mrs h) l = Some x.

(** No two objects own the same registration, and what is owned is registered. *)
Record mr_safe h : Prop := {
  safe_unique l1 l2 x :
    handle_at (h_mrs h) l1 = Some x → handle_at (h_mrs h) l2 = Some x → l1 = l2;
  safe_live l x : handle_at (h_mrs h) l = Some x → x ∈ live h }.

Lemma handle_at_insert mrs l o l' :
  handle_at (<[l:=o]> mrs) l' =
  if decide (l = l') then mr_h <$> mr_ o else handle_at mrs l'.
Proof. unfold handle_at. rewrite lookup_insert. by case_decide. Qed.

Lemma handle_at_delete mrs l l' :
  handle_at (delete l mrs) l' = if decide (l = l') then None else handle_at mrs l'.
Proof. unfold handle_at. rewrite lookup_delete. by case_decide. Qed.

Lemma handle_at_lookup mrs l o : mrs !! l = Some o → handle_at mrs l = mr_h <$> mr_ o.
Proof. unfold handle_at. by intros ->. Qed.

Lemma handle_at_None mrs l : mrs !! l = None → handle_at mrs l = None.
Proof. unfold handle_at. by intros ->. Qed.

Lemma reg_mr_spec p addr len flags w r w' :
  reg_mr p addr len flags w = (r, w') →
  match r with
  | Ret m => ∃ x, mr_ m = Some x ∧ lmr_pd_ m = Some p ∧ (mr_h x ∉ nic_mrs (w_nic w)) ∧
      nic_mrs (w_nic w') = {[ mr_h x ]} ∪ nic_mrs (w_nic w)
  | Throw e => fitting e ∧ nic_mrs (w_nic w') = nic_mrs (w_nic w)
  | _ => False
  end.
Proof.
  unfold reg_mr.
  vstep mr n as Hop. destruct mr as [x|].
  - rewrite bind_check_ptr_some. intros [= <- <-].
    destruct (reg_mr_ok _ _ _ _ _ _ _ Hop). exists x. by split_and!.
  - destruct (bind_check_ptr_none (A:=ibv_mr) "failed to reg mr"
      (λ _, mret (LocalMr None (Some p))) (after w n (EvRegMr addr len flags None)))
      as (e & -> & He). intros [= <- <-]. split; [done|]. by apply reg_mr_fail in Hop.
Qed.

Lemma local_mr_dtor_spec o w r w' :
  local_mr_dtor o w = (r, w') →
  r = Ret tt ∧
  match mr_ o with
  | None => w' = w
  | Some x => ∃ rc, calls w [EvDeregMr x rc] w' ∧
      nic_mrs (w_nic w') =
        if decide (rc = 0%Z) then nic_mrs (w_nic w) ∖ {[ mr_h x ]} else nic_mrs (w_nic w)
  end.
Proof.
  unfold local_mr_dtor. destruct (mr_ o) as [x|]; [|by intros [= <- <-]].
  vstep rc n as Hop. intros [= <- <-]. split; [done|]. exists rc. split; [done|].
  case_decide as Hrc; [subst; by apply dereg_mr_ok in Hop|by apply dereg_mr_fail in Hop].
Qed.

Lemma bind_get_mr {B} l o (k : local_mr → M mr_heap B) h :
  h_mrs h !! l = Some o → (get_mr l ≫= k) h = k o h.
Proof. intros Ho. unfold get_mr. munfold. simpl. by rewrite Ho. Qed.

Lemma move_assign_effect this other h o t :
  h_mrs h !! other = Some o → h_mrs h !! this = Some t →
  local_mr_move_assign this other h =
  (Ret tt, MrHeap
    (if decide (this = other) then <[this := LocalMr None (lmr_pd_ o)]> (h_mrs h)
     else <[other := LocalMr None None]>
            (<[this := LocalMr (mr_ o) (lmr_pd_ o)]> (h_mrs h))) (h_world h)).
Proof.
  intros Ho Ht. unfold local_mr_move_assign.
  rewrite (bind_get_mr _ _ _ _ Ho), (bind_get_mr _ _ _ _ Ht).
  unfold mbind at 1, M_bind at 1. simpl. destruct (decide (this = other)) as [->|Hne].
  - rewrite bool_decide_eq_true_2 by done. simplify_eq.
    do 2 (erewrite bind_get_mr by apply lookup_insert_eq).
    unfold mbind at 1, M_bind at 1. simpl.
    erewrite bind_get_mr by apply lookup_insert_eq.
    unfold set_mr, mmodify. simpl. by rewrite insert_insert_eq.
  - rewrite bool_decide_eq_false_2 by done.
    erewrite bind_get_mr by (simpl; rewrite lookup_insert_ne by done; apply Ho).
    erewrite bind_get_mr by apply lookup_insert_eq.
    unfold mbind at 1, M_bind at 1. simpl.
    erewrite bind_get_mr by apply lookup_insert_eq.
    unfold set_mr, mmodify. simpl. by rewrite !insert_insert_eq.
Qed.
End ownership.

(** ** An abstract specification: a table of owners

    [own_step] only speaks of which object owns which handle ([hd]) and of the set
    of registered handles ([lv]); every step of a program refines one of them. *)

Section owner_table.
Implicit Types (hd : Z → option Z) (lv : gset Z).

Inductive own_step hd lv hd' lv' : Prop :=
| own_acquire l x :
    hd l = None → x ∉ lv → lv' = {[ x ]} ∪ lv →
    (∀ l', hd' l' = if decide (l' = l) then Some x else hd l') →
    own_step hd lv hd' lv'
| own_transfer dst src :
    dst ≠ src → lv' = lv →
    (∀ l', hd' l' = if decide (l' = src) then None
                    else if decide (l' = dst) then hd src else hd l') →
    own_step hd lv hd' lv'
| own_drop l :
    lv' = lv → (∀ l', hd' l' = if decide (l' = l) then None else hd l') →
    own_step hd lv hd' lv'
| own_release l x :
    hd l = Some x → lv' = lv ∖ {[ x ]} →
    (∀ l', hd' l' = if decide (l' = l) then None else hd l') →
    own_step hd lv hd' lv'
| own_stutter :
    lv' = lv → (∀ l', hd' l' = hd l') → own_step hd lv hd' lv'.

Definition own_safe hd lv : Prop :=
  (∀ l1 l2 x, hd l1 = Some x → hd l2 = Some x → l1 = l2) ∧
  (∀ l x, hd l = Some x → x ∈ lv).

Lemma own_step_safe hd lv hd' lv' :
  own_step hd lv hd' lv' → own_safe hd lv → own_safe hd' lv'.
Proof.
  intros Hstep [Huniq Hin]. destruct Hstep as
    [l x Hl Hx -> Hhd|dst src Hne -> Hhd|l -> Hhd|l x Hl -> Hhd| -> Hhd];
    (split; [intros l1 l2 y|intros l1 y]); rewrite !Hhd.
  - repeat case_decide; naive_solver.
  - case_decide; set_solver.
  - repeat case_decide; naive_solver.
  - repeat case_decide; naive_solver.
  - repeat case_decide; naive_solver.
  - case_decide; naive_solver.
  - repeat case_decide; naive_solver.
  - case_decide; [done|]. intros Hy. apply elem_of_difference. split; [by eapply Hin|].
    intros ->%elem_of_singleton. naive_solver.
  - naive_solver.
  - naive_solver.
Qed.
End owner_table.

Section refinement.
Context {V : Verbs} {L : MrLaws V}.
Implicit Types (mrs : gmap Z local_mr) (h : mr_heap).

Lemma mr_step_refines h h' :
  mr_step h h' →
  own_step (handle_at (h_mrs h)) (live h) (handle_at (h_mrs h')) (live h').
Proof.
  destruct 1 as [p addr len flags l mrs w m w' Hl Hreg|p addr len flags mrs w e w' Hreg
    |l src mrs w o Hl Hsrc|this other h h' [t Ht] [o Ho] Hassign|l mrs w o w' Hl Hdtor];
    unfold live; simpl.
  - apply reg_mr_spec in Hreg as (x & Hx & _ & Hfresh & Hlive).
    apply own_acquire with l (mr_h x); try done; [by apply handle_at_None|].
    intros l'. rewrite handle_at_insert, Hx. repeat case_decide; simplify_eq/=; done.
  - apply reg_mr_spec in Hreg as [_ ->]. by apply own_stutter.
  - apply own_transfer with l src; [congruence|done|]. intros l'.
    rewrite !handle_at_insert. apply handle_at_lookup in Hsrc as Hh. rewrite Hh. simpl.
    repeat case_decide; simplify_eq; done.
  - rewrite (move_assign_effect _ _ _ _ _ Ho Ht) in Hassign. injection Hassign as <-. simpl.
    apply handle_at_lookup in Ho as Hh. case_decide as Heq.
    + apply own_drop with this; [done|]. intros l'. rewrite handle_at_insert.
      repeat case_decide; simplify_eq; done.
    + apply own_transfer with this other; [done..|]. intros l'.
      rewrite !handle_at_insert, Hh. repeat case_decide; simplify_eq; done.
  - apply local_mr_dtor_spec in Hdtor as [_ Hdtor]. apply handle_at_lookup in Hl as Hh.
    assert (∀ l', handle_at (delete l mrs) l' =
      if decide (l' = l) then None else handle_at mrs l') as Hdel.
    { intros l'. rewrite handle_at_delete. repeat case_decide; simplify_eq/=; done. }
    destruct (mr_ o) as [x|]; simpl in Hh.
    + destruct Hdtor as (rc & _ & ->). case_decide.
      * by apply own_release with l (mr_h x).
      * by apply own_drop with l.
    + subst w'. by apply own_drop with l.
Qed.
End refinement.

Section leaks.
Context {V : Verbs} {L : MrLaws V}.
Implicit Types (mrs : gmap Z local_mr) (h : mr_heap).

#[export] Instance owned_dec h x : Decision (owned h x).
Proof.
  refine (cast_if (decide (Exists (λ p, mr_h <$> mr_ p.2 = Some x) (map_to_list (h_mrs h)))));
    rewrite Exists_exists in *; unfold owned, handle_at.
  - abstract (destruct e as ([l o] & Hl%elem_of_map_to_list & Ho);
      exists l; by rewrite Hl).
  - abstract (intros [l Hl]; destruct n; destruct (h_mrs h !! l) as [o|] eqn:Ho; [|done];
      exists (l, o); by rewrite elem_of_map_to_list).
Defined.

(** Only a registration makes a handle live, and it gives it an owner. *)
Lemma live_grows h h' x :
  mr_step h h' → x ∈ live h' → x ∈ live h ∨ owned h' x.
Proof.
  intros [l y _ _ Hl Hhd|? ? _ Hl _|? Hl _|? ? _ Hl _|Hl _]%mr_step_refines;
    rewrite Hl; [|by left..|intros [? _]%elem_of_difference; by left|by left].
  intros [->%elem_of_singleton|]%elem_of_union; [right|by left].
  exists l. by rewrite Hhd, decide_True.
Qed.

(** The handle of an object after a step: still owned, or lost. *)
Lemma owner_steps h h' l0 x :
  mr_step h h' → mr_safe h → x ∈ live h' → ¬ owned h' x →
  handle_at (h_mrs h) l0 = Some x →
  (∃ this other, local_mr_move_assign this other h = (Ret tt, h') ∧
    handle_at (h_mrs h) this = Some x) ∨
  (∃ m rc, rc ≠ 0%Z ∧ mr_h m = x ∧ calls (h_world h) [EvDeregMr m rc] (h_world h')).
Proof.
  intros Hstep [Huniq _] Hlive Hown Hh0. destruct Hstep as
    [p addr len flags l mrs w m w' Hl Hreg|p addr len flags mrs w e w' Hreg
    |l src mrs w o Hl Hsrc|this other h h' [t Ht] [o Ho] Hassign|l mrs w o w' Hl Hdtor];
    simpl in *.
  - destruct Hown. exists l0. simpl. rewrite handle_at_insert, decide_False; [done|].
    intros ->. by rewrite (handle_at_None _ _ Hl) in Hh0.
  - destruct Hown. by exists l0.
  - destruct Hown. apply handle_at_lookup in Hsrc as Hh. destruct (decide (l0 = src)) as [->|Hne].
    + exists l. simpl. rewrite handle_at_insert, decide_True by done. simpl. congruence.
    + exists l0. simpl. rewrite !handle_at_insert, !decide_False; [done|congruence|].
      intros ->. by rewrite (handle_at_None _ _ Hl) in Hh0.
  - left. exists this, other. split; [done|].
    rewrite (move_assign_effect _ _ _ _ _ Ho Ht) in Hassign. injection Hassign as <-.
    destruct (decide (l0 = this)) as [->|Hne]; [done|]. destruct Hown.
    apply handle_at_lookup in Ho. destruct (decide (this = other)) as [->|Hto].
    + exists l0. simpl. by rewrite handle_at_insert, decide_False.
    + destruct (decide (l0 = other)) as [->|Hlo].
      * exists this. simpl. rewrite !handle_at_insert, decide_False, decide_True by done.
        simpl. congruence.
      * exists l0. simpl. by rewrite !handle_at_insert, !decide_False.
  - right. apply local_mr_dtor_spec in Hdtor as [_ Hdtor].
    destruct (decide (l0 = l)) as [->|Hne].
    2:{ destruct Hown. exists l0. simpl. by rewrite handle_at_delete, decide_False. }
    rewrite (handle_at_lookup _ _ _ Hl) in Hh0.
    destruct (mr_ o) as [m|]; simplify_eq/=. destruct Hdtor as (rc & Hcalls & Hmrs).
    exists m, rc. split_and!; try done. intros ->. unfold live in Hlive. simpl in *.
    rewrite Hmrs in Hlive. by apply elem_of_difference in Hlive as [_ []%not_elem_of_singleton].
Qed.
End leaks.

(** ** Lemmas: the wire image of a region *)

Definition mr_image (addr length rkey : Z) : bytes :=
  be_image 8 addr ++ be_image 8 length ++ be_image 4 rkey.

Lemma local_mr_serialize_image {V : Verbs} (H : Host) m x buf :
  mr_ m = Some x →
  local_mr_serialize m buf =
  (Ret tt, buf ++ mr_image (ibv_mr_addr x) (ibv_mr_length x) (ibv_mr_rkey x)).
Proof.
  intros Hx. unfold local_mr_serialize. rewrite Hx. unfold mbind at 1, M_bind at 1. simpl.
  rewrite !bind_serialize_int, (codec_ser (Codec:=codec_int 4)).
  unfold mr_image. by rewrite !app_assoc.
Qed.

#[export] Instance codec_remote_mr :
  Codec (λ H (m : remote_mr), serialize_int 8 (raddr_ m) ;;
           serialize_int 8 (rlength_ m) ;; serialize_int 4 (rrkey_ m))
    (λ H, remote_mr_deserialize)
    (λ m, in_width 64 (raddr_ m) ∧ in_width 64 (rlength_ m) ∧ in_width 32 (rrkey_ m))
    (λ m, mr_image (raddr_ m) (rlength_ m) (rrkey_ m)).
Proof.
  split.
  - intros H m buf. rewrite !bind_serialize_int, (codec_ser (Codec:=codec_int 4)).
    unfold mr_image. by rewrite !app_assoc.
  - intros H [a l k] rest (Ha & Hl & Hk). unfold remote_mr_deserialize, mr_image.
    cbn [raddr_ rlength_ rrkey_] in *. rewrite <- !app_assoc.
    rewrite bind_deserialize_ptr by done. by rewrite !bind_deserialize_int by done.
Qed.

(** ** Properties *)

(** C28: whatever registrations, moves, move assignments and destructions a program
    performs, no two [local_mr] own the same registration and every owned handle is
    registered: [ibv_dereg_mr] is never called twice for one registration. *)
Theorem mr_ownership_safe {V : Verbs} {L : MrLaws V} (h h' : mr_heap) :
  rtc mr_step h h' → mr_safe h →
  mr_safe h' ∧
  (∀ l o x w', h_mrs h' !! l = Some o → mr_ o = Some x →
   local_mr_dtor o (h_world h') = (Ret tt, w') →
   mr_h x ∈ live h' ∧ ∃ rc, calls (h_world h') [EvDeregMr x rc] w').
Proof.
  intros Hsteps Hsafe.
  assert (own_safe (handle_at (h_mrs h')) (live h')) as [Huniq Hin].
  { apply (rtc_invariant mr_step (λ h, own_safe (handle_at (h_mrs h)) (live h))) with h; [|done|].
    - intros a b Ha Hstep%mr_step_refines. by eapply own_step_safe.
    - destruct Hsafe. by split. }
  split; [by split|]. intros l o x w' Hl Hx Hd.
  apply local_mr_dtor_spec in Hd as [_ Hd]. rewrite Hx in Hd.
  destruct Hd as (rc & Hcalls & _). split; [|by exists rc].
  apply (Hin l). by rewrite (handle_at_lookup _ _ _ Hl), Hx.
Qed.

Definition wit_pd : pd :=
  Pd (Device None None (IbvPortAttr 0 IBV_LINK_LAYER_other)
        (IbvDeviceAttrEx IBV_ATOMIC_NONE) [] 0 1 None) (Some (IbvPd 2)).
Definition wit_mr (h addr length : Z) : local_mr :=
  LocalMr (Some (IbvMr h addr length (h + 1000) (h + 2000))) (Some wit_pd).

(** One region registered by the object at 10. *)
Definition wit_world1 : world (V:=good) :=
  World (V:=good) (RNic 1 {[1%Z]} ∅ [])
    [EvRegMr 4096 64 default_access (mr_ (wit_mr 1 4096 64))] 1.
Definition wit_heap1 : mr_heap (V:=good) := MrHeap {[10%Z := wit_mr 1 4096 64]} wit_world1.

Lemma wit_reg : mr_step (V:=good) (MrHeap ∅ (world0 (λ _, false))) wit_heap1.
Proof.
  apply (step_reg (V:=good) wit_pd 4096 64 default_access 10 ∅ (world0 (λ _, false))
    (wit_mr 1 4096 64) wit_world1); vm_compute; reflexivity.
Qed.

Lemma wit_heap1_handle l :
  handle_at (h_mrs wit_heap1) l = if decide (10%Z = l) then Some 1%Z else None.
Proof. unfold handle_at. simpl. rewrite lookup_singleton. by case_decide. Qed.

Lemma wit_heap1_safe : mr_safe wit_heap1.
Proof.
  split.
  - intros l1 l2 x. rewrite !wit_heap1_handle. repeat case_decide; simplify_eq/=; done.
  - intros l x. rewrite wit_heap1_handle. case_decide; [|done]. intros [= <-].
    vm_compute. reflexivity.
Qed.

Lemma mr_ownership_safe_witness :
  let h0 := MrHeap (V:=good) ∅ (world0 (λ _, false)) in
  ∃ h', rtc mr_step h0 h' ∧ handle_at (h_mrs h') 11 = Some 1%Z ∧
    handle_at (h_mrs h') 10 = None ∧ mr_safe h'.
Proof.
  intros h0. set (h2 := MrHeap (V:=good)
    (<[11%Z := wit_mr 1 4096 64]> (<[10%Z := LocalMr None None]> {[10%Z := wit_mr 1 4096 64]}))
    wit_world1).
  assert (rtc mr_step h0 h2) as Hrtc.
  { eapply rtc_l; [exact wit_reg|]. apply rtc_once.
    by apply (step_move_ctor (V:=good) 11 10 _ wit_world1 (wit_mr 1 4096 64)). }
  exists h2. split; [exact Hrtc|]. split; [reflexivity|]. split; [reflexivity|].
  refine (proj1 (mr_ownership_safe (V:=good) h0 h2 Hrtc _)).
  split; [intros l1 l2 x H; discriminate H|intros l x H; discriminate H].
Defined.

(** A registration that no object owns any more, so that it is never released,
    has only two causes: a move assignment onto an object that still owned it, and
    a destructor whose [ibv_dereg_mr] failed. *)
Theorem mr_leak_causes {V : Verbs} {L : MrLaws V} (h h' : mr_heap) (x : Z) :
  mr_step h h' → mr_safe h → x ∈ live h' → ¬ owned h' x →
  (x ∈ live h ∧ ¬ owned h x) ∨
  (∃ this other, local_mr_move_assign this other h = (Ret tt, h') ∧
    handle_at (h_mrs h) this = Some x) ∨
  (∃ m rc, rc ≠ 0%Z ∧ mr_h m = x ∧ calls (h_world h) [EvDeregMr m rc] (h_world h')).
Proof.
  intros Hstep Hsafe Hlive Hown.
  destruct (live_grows _ _ _ Hstep Hlive) as [Hx|]; [|done].
  destruct (decide (owned h x)) as [[l0 Hl0]|]; [|by left].
  right. by eapply owner_steps.
Qed.

Lemma mr_leak_causes_witness :
  ∃ h', mr_step (V:=good) wit_heap1 h' ∧
    ((1%Z ∈ live wit_heap1 ∧ ¬ owned wit_heap1 1) ∨
     (∃ this other, local_mr_move_assign this other wit_heap1 = (Ret tt, h') ∧
       handle_at (h_mrs wit_heap1) this = Some 1%Z) ∨
     (∃ m rc, rc ≠ 0%Z ∧ mr_h m = 1%Z ∧
       calls (h_world wit_heap1) [EvDeregMr m rc] (h_world h'))).
Proof.
  set (h' := MrHeap (V:=good) {[10%Z := LocalMr None (Some wit_pd)]} wit_world1).
  assert (mr_step wit_heap1 h') as Hstep.
  { apply (step_move_assign (V:=good) 10 10); [by eexists|by eexists|reflexivity]. }
  exists h'. split; [exact Hstep|].
  apply (mr_leak_causes (V:=good) wit_heap1 h' 1 Hstep).
  - exact wit_heap1_safe.
  - vm_compute. reflexivity.
  - intros [l Hl]. unfold handle_at in Hl. simpl in Hl. rewrite lookup_singleton in Hl.
    by case_decide.
Defined.

(** A move assignment onto an object that owns a registration leaves that
    registration live with no owner: [local_mr::operator=] never deregisters what
    the target held, not even on self-assignment. *)
Theorem move_assign_leaks {V : Verbs} {L : MrLaws V} (h : mr_heap) (this other x : Z) :
  mr_safe h → is_Some (h_mrs h !! other) → handle_at (h_mrs h) this = Some x →
  ∃ h', local_mr_move_assign this other h = (Ret tt, h') ∧ x ∈ live h' ∧ ¬ owned h' x.
Proof.
  intros [Huniq Hin] [o Ho] Hx. assert (∃ t, h_mrs h !! this = Some t) as [t Ht].
  { unfold handle_at in Hx. destruct (h_mrs h !! this); [by eexists|done]. }
  rewrite (move_assign_effect _ _ _ _ _ Ho Ht). eexists. split; [done|]. split; [by eapply Hin|].
  intros [l Hl]. simpl in Hl. destruct (decide (this = other)) as [->|Hne].
  - rewrite handle_at_insert in Hl. case_decide; [done|]. naive_solver.
  - rewrite !handle_at_insert in Hl. apply handle_at_lookup in Ho.
    repeat case_decide; simplify_eq/=; [|naive_solver].
    rewrite <- Ho in Hl. naive_solver.
Qed.

Lemma move_assign_leaks_witness :
  ∃ h', local_mr_move_assign 10 10 wit_heap1 = (Ret tt, h') ∧ 1%Z ∈ live h' ∧ ¬ owned h' 1.
Proof.
  apply (move_assign_leaks (V:=good) wit_heap1 10 10 1).
  - exact wit_heap1_safe.
  - by eexists.
  - reflexivity.
Defined.

(** C30: a region serialized by its owner is read by a peer of any byte order as the
    same address, length and key, from exactly [kSerializedSize] bytes. *)
Theorem mr_serialize_roundtrip {V : Verbs} (sender receiver : Host) (m : local_mr)
    (x : ibv_mr) (rest : bytes) :
  mr_ m = Some x → in_width 64 (ibv_mr_addr x) → in_width 64 (ibv_mr_length x) →
  in_width 32 (ibv_mr_rkey x) →
  ∃ image, local_mr_serialize (H:=sender) m [] = (Ret tt, image) ∧
    length image = kSerializedSize_mr ∧
    remote_mr_deserialize (H:=receiver) (image ++ rest) =
      (Ret (RemoteMr (ibv_mr_addr x) (ibv_mr_length x) (ibv_mr_rkey x)), rest).
Proof.
  intros Hm Ha Hl Hk. eexists. split; [by apply local_mr_serialize_image|]. split.
  - unfold mr_image. by rewrite app_nil_l, !length_app, !be_image_length.
  - by apply (codec_des (Codec:=codec_remote_mr) receiver (RemoteMr _ _ _)).
Qed.

Lemma mr_serialize_roundtrip_witness :
  ∃ image,
    local_mr_serialize (H:={| big_endian := false |}) (wit_mr 1 4096 64) [] = (Ret tt, image) ∧
    length image = kSerializedSize_mr ∧
    remote_mr_deserialize (H:={| big_endian := true |}) (image ++ []) =
      (Ret (RemoteMr 4096 64 2001), []).
Proof.
  apply (mr_serialize_roundtrip (V:=good) {| big_endian := false |} {| big_endian := true |}
    (wit_mr 1 4096 64) (IbvMr 1 4096 64 1001 2001) []); vm_compute; split; congruence || done.
Defined.

(** The bytes of a view lie in the region of [len] bytes at [addr]. *)
Definition view_inside (addr len : Z) (v : mr_view) : Prop :=
  (addr ≤ v_addr_ v ∧ v_addr_ v + v_length_ v ≤ addr + len)%Z.

(** A view of a local region lies inside it exactly when its offset does; the
    [std::min] of the constructor cuts the length at the end of the region for such
    an offset, but beyond the end the [size_t] subtraction wraps around and the
    view keeps a positive length outside the region. *)
Theorem mr_view_local_bounds {S} (m : local_mr) (x : ibv_mr) (offset len : Z) (s : S) :
  mr_ m = Some x → in_width 64 (ibv_mr_length x) → in_width 64 offset →
  (0 < len < 2 ^ 64)%Z →
  ∃ v, mr_view_local m offset len s = (Ret v, s) ∧
    v_addr_ v = (ibv_mr_addr x + offset)%Z ∧ v_key_ v = ibv_mr_lkey x ∧
    (view_inside (ibv_mr_addr x) (ibv_mr_length x) v ↔ (offset ≤ ibv_mr_length x)%Z) ∧
    (v_length_ v ≤ len)%Z ∧
    ((offset + len ≤ ibv_mr_length x)%Z → v_length_ v = len) ∧
    ((ibv_mr_length x < offset)%Z → (0 < v_length_ v)%Z).
Proof.
  intros Hm [Hl0 Hl1] [Ho0 Ho1] Hlen. unfold mr_view_local, local_addr, local_length, local_lkey.
  munfold. rewrite Hm. eexists. split; [reflexivity|]. simpl.
  unfold view_inside; simpl.
  destruct (decide (offset ≤ ibv_mr_length x)%Z) as [Hle|Hgt].
  - rewrite u64_small by lia. split_and!; lia.
  - assert (u64 (ibv_mr_length x - offset) = ibv_mr_length x - offset + 2 ^ 64)%Z as ->.
    { unfold u64, wrap. symmetry. apply Z.mod_unique with (-1)%Z; lia. }
    split_and!; lia.
Qed.

Lemma mr_view_local_bounds_witness :
  ∃ v, mr_view_local (wit_mr 1 4096 64) 65 16 tt = (Ret v, tt) ∧
    v_addr_ v = 4161%Z ∧ v_key_ v = 1001%Z ∧
    (view_inside 4096 64 v ↔ (65 ≤ 64)%Z) ∧ (v_length_ v ≤ 16)%Z ∧
    ((65 + 16 ≤ 64)%Z → v_length_ v = 16%Z) ∧ ((64 < 65)%Z → (0 < v_length_ v)%Z).
Proof.
  apply (mr_view_local_bounds (wit_mr 1 4096 64) (IbvMr 1 4096 64 1001 2001) 65 16 tt);
    [reflexivity|vm_compute; split; congruence..].
Defined.

(** The default view of a remote region covers the region exactly when its
    length fits 32 bits: [remote_mr::length] cuts the stored [size_t] to
    [uint32_t], so that a peer sees a 4 GiB region as empty. *)
Theorem mr_view_remote_covers (m : remote_mr) :
  in_width 64 (rlength_ m) →
  v_length_ (mr_view_remote m 0 size_max) = (rlength_ m mod 2 ^ 32)%Z ∧
  (v_length_ (mr_view_remote m 0 size_max) = (remote_span m).2 ↔ (rlength_ m < 2 ^ 32)%Z).
Proof.
  intros [Hl0 Hl1]. pose proof (u32_range (rlength_ m)) as Hr.
  assert (v_length_ (mr_view_remote m 0 size_max) = rlength_ m mod 2 ^ 32)%Z as ->.
  { unfold mr_view_remote, remote_length, size_max; simpl.
    rewrite Z.sub_0_r, u64_small by lia. rewrite Z.min_r; [done|lia]. }
  split; [done|]. simpl. split.
  - intros H. unfold u32, wrap in Hr. lia.
  - intros H. by apply Z.mod_small.
Qed.

Lemma mr_view_remote_covers_witness :
  v_length_ (mr_view_remote (RemoteMr 4096 (2 ^ 32) 7) 0 size_max) = (2 ^ 32 mod 2 ^ 32)%Z ∧
  (v_length_ (mr_view_remote (RemoteMr 4096 (2 ^ 32) 7) 0 size_max) = (2 ^ 32)%Z ↔
   (2 ^ 32 < 2 ^ 32)%Z).
Proof.
  apply (mr_view_remote_covers (RemoteMr 4096 (2 ^ 32) 7)). vm_compute. split; congruence.
Defined.
