(* ===== verification/Qp.v ===== *)
(** * qp.h, qp.cc (lifecycle): queue pairs

    [basic_qp]: construction, the state transitions [init], [rtr], [rts], [err],
    destruction, [serialize], the posting of raw work requests, and
    [deserialized_qp].  A member function works on the object [this] and the world
    shared with the other components.  The work requests built by the asynchronous
    operations are in Operations.v. *)

From Stdlib Require Import Sorted.
From S2P Require Import Prelude Verbs RefNic Errors Serdes Device Resources Mr.
From stdpp Require Import options.

Record qp_config := QpConfig { max_send_wr : Z; max_recv_wr : Z }.
Definition default_qp_config : qp_config := QpConfig 256 256.

(** ** deserialized_qp *)

Record qp_header := QpHeader {
  hdr_lid : Z; hdr_qp_num : Z; hdr_sq_psn : Z; hdr_user_data_size : Z; hdr_gid : ibv_gid }.

Definition kSerializedSize_qp : nat := 2 + 3 * 4 + gid_size.

Record deserialized_qp := DeserializedQp { header : qp_header; des_user_data : bytes }.

(** The iterator is passed by value: the state is its copy. *)
Definition deserialized_qp_deserialize `{Host} : M bytes deserialized_qp :=
  lid ← deserialize_int 2;
  qp_num ← deserialize_int 4;
  sq_psn ← deserialize_int 4;
  user_data_size ← deserialize_int 4;
  gid ← deserialize_gid;
  mret (DeserializedQp (QpHeader lid qp_num sq_psn user_data_size gid) []).

Section qp.
Context {V : Verbs}.

(** ** The object *)

(** The member function [post_recv_fn] points to. *)
Inductive recv_path := use_post_recv_rq | use_post_recv_srq.

Record basic_qp := BasicQp {
  qp_ : option ibv_qp;
  raw_srq_ : option ibv_srq;
  sq_psn_ : Z;
  post_recv_fn : recv_path;
  qpd_ : pd;
  recv_cq_ : cq;
  send_cq_ : cq;
  qsrq_ : option srq;
  config_ : qp_config;
  user_data_ : bytes }.

(** Members at the start of the constructor body.  [raw_srq_], [sq_psn_] and
    [post_recv_fn] are indeterminate there; [create] sets the last two, and the
    first one when it is used. *)
Definition new_qp (p : pd) (recv_cq send_cq : cq) (s : option srq) (config : qp_config)
    : basic_qp :=
  BasicQp None None 0 use_post_recv_rq p recv_cq send_cq s config [].

Record qp_world := QpWorld { this : basic_qp; env : world }.

Definition set_qp_ (q : option ibv_qp) (t : basic_qp) : basic_qp :=
  BasicQp q (raw_srq_ t) (sq_psn_ t) (post_recv_fn t) (qpd_ t) (recv_cq_ t) (send_cq_ t)
    (qsrq_ t) (config_ t) (user_data_ t).
Definition set_raw_srq_ (r : option ibv_srq) (t : basic_qp) : basic_qp :=
  BasicQp (qp_ t) r (sq_psn_ t) (post_recv_fn t) (qpd_ t) (recv_cq_ t) (send_cq_ t)
    (qsrq_ t) (config_ t) (user_data_ t).
Definition set_sq_psn_ (psn : Z) (t : basic_qp) : basic_qp :=
  BasicQp (qp_ t) (raw_srq_ t) psn (post_recv_fn t) (qpd_ t) (recv_cq_ t) (send_cq_ t)
    (qsrq_ t) (config_ t) (user_data_ t).
Definition set_post_recv_fn (f : recv_path) (t : basic_qp) : basic_qp :=
  BasicQp (qp_ t) (raw_srq_ t) (sq_psn_ t) f (qpd_ t) (recv_cq_ t) (send_cq_ t)
    (qsrq_ t) (config_ t) (user_data_ t).
Definition set_user_data_ (d : bytes) (t : basic_qp) : basic_qp :=
  BasicQp (qp_ t) (raw_srq_ t) (sq_psn_ t) (post_recv_fn t) (qpd_ t) (recv_cq_ t) (send_cq_ t)
    (qsrq_ t) (config_ t) d.

Definition get_this : M qp_world basic_qp := mgets this.
Definition upd (f : basic_qp → basic_qp) : M qp_world unit :=
  mmodify (λ s, QpWorld (f (this s)) (env s)).
Definition on_world {A} (m : M world A) : M qp_world A :=
  zoom env (λ w s, QpWorld (this s) w) m.

(** [next_sq_psn.fetch_add(1)] on the [std::atomic<uint32_t>]. *)
Definition fetch_add_sq_psn : M world Z := λ w,
  (Ret (w_next_sq_psn w), World (w_nic w) (w_trace w) (u32 (w_next_sq_psn w + 1))).

(** ** Destruction *)

Definition err_attr : ibv_qp_attr :=
  IbvQpAttr IBV_QPS_ERR 0 0 [] None 0 0 0 0 ah_attr0 0 0 0 0 0.

Definition err : M qp_world unit :=
  t ← get_this;
  on_world (vcall (ibv_modify_qp (qp_ t) err_attr [IBV_QP_STATE])
                  (EvModifyQp (qp_ t) err_attr [IBV_QP_STATE])) ;;
  mret tt.

Definition destroy : M qp_world unit :=
  t ← get_this;
  match qp_ t with
  | None => mret tt
  | Some _ =>
      err ;;
      on_world (vcall (ibv_destroy_qp (qp_ t)) (EvDestroyQp (qp_ t))) ;;
      mret tt
  end.

(** ** Creation and transitions *)

Definition qp_init_attr (t : basic_qp) (s : option ibv_srq) : ibv_qp_init_attr :=
  {| qia_qp_type := IBV_QPT_RC;
     qia_recv_cq := cq_ (recv_cq_ t); qia_send_cq := cq_ (send_cq_ t); qia_srq := s;
     qia_max_recv_sge := 1; qia_max_send_sge := 1;
     qia_max_recv_wr := max_recv_wr (config_ t);
     qia_max_send_wr := max_send_wr (config_ t);
     qia_sq_sig_all := 0 |}.

Definition create : M qp_world unit :=
  t ← get_this;
  attr ← match qsrq_ t with
         | Some s =>
             upd (set_raw_srq_ (srq_ s)) ;;
             upd (set_post_recv_fn use_post_recv_srq) ;;
             mret (qp_init_attr t (srq_ s))
         | None =>
             upd (set_post_recv_fn use_post_recv_rq) ;;
             mret (qp_init_attr t None)
         end;
  q ← on_world (vcall (ibv_create_qp (pd_ (qpd_ t)) attr) (EvCreateQp attr));
  upd (set_qp_ q) ;;
  on_world (check_ptr q "failed to create qp") ;;
  psn ← on_world fetch_add_sq_psn;
  upd (set_sq_psn_ psn).

(** [try { check_rc(ibv_modify_qp(...)) } catch { qp_ = nullptr; destroy(); throw; }],
    the block [init], [rtr] and [rts] share. *)
Definition modify_qp (attr : ibv_qp_attr) (mask : list ibv_qp_attr_mask) (message : string)
    : M qp_world unit :=
  try_catch
    (t ← get_this;
     rc ← on_world (vcall (ibv_modify_qp (qp_ t) attr mask) (EvModifyQp (qp_ t) attr mask));
     check_rc rc message)
    (λ e, upd (set_qp_ None) ;; destroy ;; mthrow_exn e).

Definition init_access : list ibv_access_flag :=
  [IBV_ACCESS_REMOTE_WRITE; IBV_ACCESS_REMOTE_READ; IBV_ACCESS_LOCAL_WRITE;
   IBV_ACCESS_REMOTE_ATOMIC].

(** The [port_num] fields are [uint8_t]. *)
Definition init_attr (t : basic_qp) : ibv_qp_attr :=
  IbvQpAttr IBV_QPS_INIT 0 (u8 (port_num (device_ptr (qpd_ t)))) init_access
    None 0 0 0 0 ah_attr0 0 0 0 0 0.

Definition init : M qp_world unit :=
  t ← get_this;
  modify_qp (init_attr t)
    [IBV_QP_STATE; IBV_QP_PORT; IBV_QP_ACCESS_FLAGS; IBV_QP_PKEY_INDEX]
    "failed to transition qp to init state".

Definition rtr_attr (t : basic_qp) (remote_lid remote_qpn remote_psn : Z)
    (remote_gid : ibv_gid) : ibv_qp_attr :=
  IbvQpAttr IBV_QPS_RTR 0 0 [] (Some IBV_MTU_4096) remote_qpn remote_psn 16 12
    {| ah_is_global := 1; ah_dgid := remote_gid;
       ah_sgid_index := u8 (gid_index_ (pd_device_ (qpd_ t))); ah_hop_limit := 16;
       ah_dlid := remote_lid; ah_sl := 0; ah_src_path_bits := 0;
       ah_port_num := u8 (port_num (device_ptr (qpd_ t))) |}
    0 0 0 0 0.

Definition rtr (remote_lid remote_qpn remote_psn : Z) (remote_gid : ibv_gid)
    : M qp_world unit :=
  t ← get_this;
  modify_qp (rtr_attr t remote_lid remote_qpn remote_psn remote_gid)
    [IBV_QP_STATE; IBV_QP_AV; IBV_QP_PATH_MTU; IBV_QP_DEST_QPN; IBV_QP_RQ_PSN;
     IBV_QP_MIN_RNR_TIMER; IBV_QP_MAX_DEST_RD_ATOMIC]
    "failed to transition qp to rtr state".

Definition rts_attr (t : basic_qp) : ibv_qp_attr :=
  IbvQpAttr IBV_QPS_RTS 0 0 [] None 0 0 0 0 ah_attr0 14 7 7 16 (sq_psn_ t).

Definition rts : M qp_world unit :=
  t ← get_this;
  modify_qp (rts_attr t)
    [IBV_QP_STATE; IBV_QP_TIMEOUT; IBV_QP_RETRY_CNT; IBV_QP_RNR_RETRY; IBV_QP_SQ_PSN;
     IBV_QP_MAX_QP_RD_ATOMIC]
    "failed to transition qp to rts state".

(** ** Constructors and destructor *)

(** Run a member function on an object: what it becomes, with the world. *)
Definition on_object (t : basic_qp) (m : M qp_world unit) : M world basic_qp := λ w,
  match m (QpWorld t w) with
  | (Ret _, s) => (Ret (this s), env s)
  | (Throw e, s) => (Throw e, env s)
  | (Terminate, s) => (Terminate, env s)
  | (Abort, s) => (Abort, env s)
  | (Undefined, s) => (Undefined, env s)
  end.

(** An exception in this body destroys the members only. *)
Definition qp_ctor (p : pd) (recv_cq send_cq : cq) (s : option srq) (config : qp_config)
    : M world basic_qp :=
  on_object (new_qp p recv_cq send_cq s config) (create ;; init).

Definition qp_ctor_cq (p : pd) (c : cq) (s : option srq) (config : qp_config)
    : M world basic_qp :=
  qp_ctor p c c s config.

Definition qp_dtor : M qp_world unit := destroy.

(** A delegating constructor: the object is complete when the target constructor
    returns, so an exception in this body runs the destructor. *)
Definition qp_ctor_connected (remote_lid remote_qpn remote_psn : Z) (remote_gid : ibv_gid)
    (p : pd) (recv_cq send_cq : cq) (s : option srq) (config : qp_config)
    : M world basic_qp :=
  t ← qp_ctor p recv_cq send_cq s config;
  on_object t
    (try_catch (rtr remote_lid remote_qpn remote_psn remote_gid ;; rts)
               (λ e, qp_dtor ;; mthrow_exn e)).

Definition qp_ctor_connected_cq (remote_lid remote_qpn remote_psn : Z)
    (remote_gid : ibv_gid) (p : pd) (c : cq) (s : option srq) (config : qp_config)
    : M world basic_qp :=
  qp_ctor_connected remote_lid remote_qpn remote_psn remote_gid p c c s config.

(** ** Accessors, serialization *)

Definition user_data (t : basic_qp) : bytes := user_data_ t.
Definition pd_ptr (t : basic_qp) : pd := qpd_ t.

Definition qp_serialize `{Host} (t : basic_qp) : M bytes unit :=
  serialize_int 2 (lid (device_ptr (qpd_ t))) ;;
  q ← deref (qp_ t);
  serialize_int 4 (qp_num q) ;;
  serialize_int 4 (sq_psn_ t) ;;
  serialize_int 4 (u32 (Z.of_nat (length (user_data_ t)))) ;;
  serialize_gid (gid (device_ptr (qpd_ t))) ;;
  put (user_data_ t).

(** ** Posting raw work requests *)

Definition post_send (t : basic_qp) (send_wr : ibv_send_wr) : M world unit :=
  rc ← vcall (ibv_post_send (qp_ t) send_wr) (EvPostSend (qp_ t) send_wr);
  check_rc rc "failed to post send".

Definition post_recv_rq (t : basic_qp) (recv_wr : ibv_recv_wr) : M world unit :=
  rc ← vcall (ibv_post_recv (qp_ t) recv_wr) (EvPostRecv (qp_ t) recv_wr);
  check_rc rc "failed to post recv".

Definition post_recv_srq (t : basic_qp) (recv_wr : ibv_recv_wr) : M world unit :=
  rc ← vcall (ibv_post_srq_recv (raw_srq_ t) recv_wr) (EvPostSrqRecv (raw_srq_ t) recv_wr);
  check_rc rc "failed to post srq recv".

Definition post_recv (t : basic_qp) (recv_wr : ibv_recv_wr) : M world unit :=
  match post_recv_fn t with
  | use_post_recv_rq => post_recv_rq t recv_wr
  | use_post_recv_srq => post_recv_srq t recv_wr
  end.
End qp.

(** ** Lemmas: one transition, the creation *)

Section lemmas.
Context {V : Verbs}.

Lemma modify_qp_run_ok attr mask message t w n :
  ibv_modify_qp (qp_ t) attr mask (w_nic w) = (0%Z, n) →
  modify_qp attr mask message (QpWorld t w) =
    (Ret tt, QpWorld t (after w n (EvModifyQp (qp_ t) attr mask 0))).
Proof.
  intros Hop. unfold modify_qp, on_world, get_this, vcall. munfold. simpl. by rewrite Hop.
Qed.

Lemma modify_qp_throw attr mask message t w rc n :
  ibv_modify_qp (qp_ t) attr mask (w_nic w) = (rc, n) → rc ≠ 0%Z →
  ∃ e, fitting e ∧ modify_qp attr mask message (QpWorld t w) =
    (Throw e, QpWorld (set_qp_ None t) (after w n (EvModifyQp (qp_ t) attr mask rc))).
Proof.
  intros Hop Hrc.
  destruct (check_rc_throw rc message
    (QpWorld t (after w n (EvModifyQp (qp_ t) attr mask rc))) Hrc) as (e & He & Hfit).
  exists e. split; [done|].
  unfold modify_qp, on_world, get_this, vcall. munfold. simpl. rewrite Hop. by rewrite He.
Qed.

(** The object [create] leaves behind when the library returns [q]. *)
Definition created (q : ibv_qp) (psn : Z) (t : basic_qp) : basic_qp :=
  BasicQp (Some q)
    (match qsrq_ t with Some s => srq_ s | None => raw_srq_ t end) psn
    (match qsrq_ t with Some _ => use_post_recv_srq | None => use_post_recv_rq end)
    (qpd_ t) (recv_cq_ t) (send_cq_ t) (qsrq_ t) (config_ t) (user_data_ t).

Definition create_attr (t : basic_qp) : ibv_qp_init_attr :=
  qp_init_attr t (match qsrq_ t with Some s => srq_ s | None => None end).

Lemma create_ok t w q n :
  ibv_create_qp (pd_ (qpd_ t)) (create_attr t) (w_nic w) = (Some q, n) →
  create (QpWorld t w) =
    (Ret tt, QpWorld (created q (w_next_sq_psn w) t)
       (World n (w_trace w ++ [EvCreateQp (create_attr t) (Some q)])
          (u32 (w_next_sq_psn w + 1)))).
Proof.
  unfold create_attr, create, on_world, get_this, upd, vcall. intros Hop.
  destruct t as [? ? ? ? ? ? ? [s|] ? ?]; munfold; simpl in *; by rewrite Hop.
Qed.

Lemma create_throw t w n :
  ibv_create_qp (pd_ (qpd_ t)) (create_attr t) (w_nic w) = (None, n) →
  ∃ e s, fitting e ∧ create (QpWorld t w) = (Throw e, s) ∧
    env s = after w n (EvCreateQp (create_attr t) None).
Proof.
  unfold create_attr, create, on_world, get_this, upd, vcall. intros Hop.
  destruct t as [? ? ? ? ? ? ? [s|] ? ?]; munfold; simpl in *; rewrite Hop; simpl;
    do 2 eexists; (split; [apply fitting_snprintf | done]).
Qed.
End lemmas.

(** ** Specification: the calls of a lifecycle and their effect

    [qcalls w tr w'] says that the calls [tr] lead from [w] to [w'], and, for a
    provider that behaves as documented, what they did to its queue pairs. *)

Section spec.
Context {V : Verbs}.

Definition qp_effect (m : gmap Z ibv_qp_state) (e : verbs_ev) : gmap Z ibv_qp_state :=
  match e with
  | EvCreateQp _ (Some q) => <[ qp_h q := IBV_QPS_RESET ]> m
  | EvModifyQp (Some q) attr mask rc =>
      if bool_decide (rc = 0%Z ∧ IBV_QP_STATE ∈ mask)
      then <[ qp_h q := qa_qp_state attr ]> m else m
  | EvDestroyQp (Some q) rc =>
      if bool_decide (rc = 0%Z) then delete (qp_h q) m else m
  | _ => m
  end.

Definition qcalls (w : world) (tr : list verbs_ev) (w' : world) : Prop :=
  calls w tr w' ∧
  ∀ L : QpLaws V, nic_qps (w_nic w') = foldl qp_effect (nic_qps (w_nic w)) tr.

Lemma qcalls_app w tr1 w1 tr2 w2 :
  qcalls w tr1 w1 → qcalls w1 tr2 w2 → qcalls w (tr1 ++ tr2) w2.
Proof.
  intros [Hc1 Hq1] [Hc2 Hq2]. split; [by eapply calls_app|].
  intros L. by rewrite foldl_app, <-Hq1.
Qed.

Lemma qcalls_modify w q attr mask rc n :
  ibv_modify_qp (Some q) attr mask (w_nic w) = (rc, n) → IBV_QP_STATE ∈ mask →
  qcalls w [EvModifyQp (Some q) attr mask rc] (after w n (EvModifyQp (Some q) attr mask rc)).
Proof.
  intros Hop Hin. split; [done|]. intros L. simpl. case_bool_decide as Hrc.
  - destruct Hrc as [-> _]. by eapply modify_qp_ok.
  - eapply modify_qp_fail; [done|]. intros ->. by apply Hrc.
Qed.

Lemma qcalls_destroy w q rc n :
  ibv_destroy_qp (Some q) (w_nic w) = (rc, n) →
  qcalls w [EvDestroyQp (Some q) rc] (after w n (EvDestroyQp (Some q) rc)).
Proof.
  intros Hop. split; [done|]. intros L. simpl. case_bool_decide as Hrc.
  - subst rc. by eapply destroy_qp_ok.
  - by eapply destroy_qp_fail.
Qed.

(** A sequence of transitions: attributes, mask and message. *)
Definition transition : Type := ibv_qp_attr * list ibv_qp_attr_mask * string.
Definition transition_ev (q : ibv_qp) (rc : Z) (x : transition) : verbs_ev :=
  EvModifyQp (Some q) x.1.1 x.1.2 rc.

Fixpoint modify_all (ts : list transition) : M qp_world unit :=
  match ts with
  | [] => mret tt
  | x :: ts => modify_qp x.1.1 x.1.2 x.2 ;; modify_all ts
  end.

Lemma modify_all_spec q ts t w :
  qp_ t = Some q → Forall (λ x : transition, IBV_QP_STATE ∈ x.1.2) ts →
  match modify_all ts (QpWorld t w) with
  | (Ret _, s) => this s = t ∧ qcalls w (transition_ev q 0 <$> ts) (env s) ∧
      w_next_sq_psn (env s) = w_next_sq_psn w
  | (Throw e, s) => fitting e ∧ this s = set_qp_ None t ∧
      w_next_sq_psn (env s) = w_next_sq_psn w ∧
      ∃ done x rest rc, ts = done ++ x :: rest ∧ rc ≠ 0%Z ∧
        qcalls w ((transition_ev q 0 <$> done) ++ [transition_ev q rc x]) (env s)
  | _ => False
  end.
Proof.
  intros Hq Hts. revert w. induction Hts as [|[[attr mask] msg] ts Hin Hts IH]; intros w.
  { split_and!; [done| |done]. split; [by apply calls_nil|done]. }
  simpl. destruct (ibv_modify_qp (qp_ t) attr mask (w_nic w)) as [rc n] eqn:Hop.
  pose proof Hop as Hop'. rewrite Hq in Hop'.
  pose proof (qcalls_modify w q attr mask rc n Hop' Hin) as Hcall.
  destruct (decide (rc = 0%Z)) as [->|Hrc].
  - unfold mbind, M_bind. rewrite (modify_qp_run_ok attr mask msg t w n Hop), Hq.
    specialize (IH (after w n (EvModifyQp (Some q) attr mask 0))).
    destruct (modify_all ts _) as [[[]|e| | |] s]; try done.
    + destruct IH as (? & ? & ?). split_and!; [done| |done]. by eapply (qcalls_app _ [_]).
    + destruct IH as (Hfit & Hth & Hpsn & dn & x & rest & rc & -> & Hrc & Hc).
      split_and!; try done. exists ((attr, mask, msg) :: dn), x, rest, rc.
      split_and!; [done..|]. simpl. by eapply (qcalls_app _ [_]).
  - destruct (modify_qp_throw attr mask msg t w rc n Hop Hrc) as (e & Hfit & He).
    unfold mbind, M_bind. rewrite He, Hq. split_and!; [done..|].
    by exists [], (attr, mask, msg), ts, rc.
Qed.
End spec.

(** ** Lemmas: bringing a queue pair up *)

Section bring_up.
Context {V : Verbs}.

(** The three transitions the connected constructor asks for. *)
Definition bring_up (t : basic_qp) (lid qpn psn : Z) (gid : ibv_gid) : list transition :=
  [(init_attr t, [IBV_QP_STATE; IBV_QP_PORT; IBV_QP_ACCESS_FLAGS; IBV_QP_PKEY_INDEX],
    "failed to transition qp to init state");
   (rtr_attr t lid qpn psn gid,
    [IBV_QP_STATE; IBV_QP_AV; IBV_QP_PATH_MTU; IBV_QP_DEST_QPN; IBV_QP_RQ_PSN;
     IBV_QP_MIN_RNR_TIMER; IBV_QP_MAX_DEST_RD_ATOMIC],
    "failed to transition qp to rtr state");
   (rts_attr t,
    [IBV_QP_STATE; IBV_QP_TIMEOUT; IBV_QP_RETRY_CNT; IBV_QP_RNR_RETRY; IBV_QP_SQ_PSN;
     IBV_QP_MAX_QP_RD_ATOMIC],
    "failed to transition qp to rts state")].

Definition fresh_qp (w : world) (q : ibv_qp) : Prop :=
  ∀ L : QpLaws V, nic_qps (w_nic w) !! qp_h q = None.

(** How an attempt to create and move a queue pair through [ts] ends. *)
Definition attempt (t0 : basic_qp) (ts : basic_qp → list transition) (w : world)
    (r : outcome basic_qp) (w' : world) : Prop :=
  let attr := create_attr t0 in
  match r with
  | Ret t => ∃ q, t = created q (w_next_sq_psn w) t0 ∧ fresh_qp w q ∧
      w_next_sq_psn w' = u32 (w_next_sq_psn w + 1) ∧
      qcalls w (EvCreateQp attr (Some q) :: (transition_ev q 0 <$> ts t)) w'
  | Throw e => fitting e ∧
      ((qcalls w [EvCreateQp attr None] w' ∧ w_next_sq_psn w' = w_next_sq_psn w) ∨
       ∃ q done x rest rc, fresh_qp w q ∧
         ts (created q (w_next_sq_psn w) t0) = done ++ x :: rest ∧
         rc ≠ 0%Z ∧ w_next_sq_psn w' = u32 (w_next_sq_psn w + 1) ∧
         qcalls w (EvCreateQp attr (Some q) ::
           (transition_ev q 0 <$> done) ++ [transition_ev q rc x]) w')
  | _ => False
  end.

Lemma qp_ctor_attempt p rcq scq s config w :
  let '(r, w') := qp_ctor p rcq scq s config w in
  attempt (new_qp p rcq scq s config) (λ t, take 1 (bring_up t 0 0 0 [])) w r w'.
Proof.
  unfold qp_ctor, on_object. set (t0 := new_qp p rcq scq s config).
  destruct (ibv_create_qp (pd_ (qpd_ t0)) (create_attr t0) (w_nic w)) as [[q|] n] eqn:Hop.
  - unfold mbind at 1, M_bind at 1. rewrite (create_ok t0 w q n Hop).
    set (t := created q (w_next_sq_psn w) t0). set (w1 := World n _ _).
    assert (qcalls w [EvCreateQp (create_attr t0) (Some q)] w1) as Hc.
    { split; [done|]. intros L. by destruct (create_qp_ok _ _ _ _ _ Hop). }
    assert (fresh_qp w q) as Hfresh by (intros L; by destruct (create_qp_ok _ _ _ _ _ Hop)).
    pose proof (modify_all_spec q (take 1 (bring_up t 0 0 0 [])) t w1 eq_refl) as Hts.
    assert (init (QpWorld t w1) = modify_all (take 1 (bring_up t 0 0 0 [])) (QpWorld t w1))
      as ->.
    { unfold init. simpl. unfold get_this, mgets, mbind, M_bind. simpl.
      by destruct (modify_qp _ _ _ _) as [[[]| | | |] []]. }
    destruct (modify_all _ _) as [[[]|e| | |] [t' w']]; try (apply Hts; repeat constructor).
    + destruct Hts as (Ht & Hq & Hpsn); [repeat constructor|]. simpl in *. subst t'.
      exists q. split_and!; [done..|by rewrite Hpsn|]. by eapply (qcalls_app _ [_]).
    + destruct Hts as (Hfit & Ht & Hpsn & dn & x & rest & rc & Heq & Hrc & Hq);
        [repeat constructor|]. simpl in *. split; [done|]. right.
      exists q, dn, x, rest, rc. split_and!; [done..|by rewrite Hpsn|].
      by eapply (qcalls_app _ [_]).
  - destruct (create_throw t0 w n Hop) as (e & s' & Hfit & He & Henv).
    unfold mbind, M_bind. rewrite He, Henv. split; [done|]. left. split; [|done].
    split; [done|]. intros L. by eapply create_qp_fail.
Qed.
End bring_up.

Section connected.
Context {V : Verbs}.
Variables (lid qpn psn : Z) (gid : ibv_gid).

Lemma rtr_rts_modify_all t w :
  (rtr lid qpn psn gid ;; rts) (QpWorld t w) =
  modify_all (drop 1 (bring_up t lid qpn psn gid)) (QpWorld t w).
Proof.
  unfold rtr, rts. simpl. unfold get_this, mgets, mbind, M_bind. simpl.
  set (a := rtr_attr t lid qpn psn gid).
  destruct (ibv_modify_qp (qp_ t) a
    [IBV_QP_STATE; IBV_QP_AV; IBV_QP_PATH_MTU; IBV_QP_DEST_QPN; IBV_QP_RQ_PSN;
     IBV_QP_MIN_RNR_TIMER; IBV_QP_MAX_DEST_RD_ATOMIC] (w_nic w)) as [rc n] eqn:Hop.
  destruct (decide (rc = 0%Z)) as [->|Hrc].
  - rewrite (modify_qp_run_ok a _ _ t w n Hop). simpl.
    by destruct (modify_qp _ _ _ _) as [[[]| | | |] []].
  - by destruct (modify_qp_throw a _ "failed to transition qp to rtr state" t w rc n Hop Hrc)
      as (e & _ & ->).
Qed.

Lemma destroy_null t w : qp_ t = None → destroy (QpWorld t w) = (Ret tt, QpWorld t w).
Proof. intros Hq. unfold destroy, get_this. munfold. simpl. by rewrite Hq. Qed.

Lemma qp_ctor_connected_attempt p rcq scq s config w :
  let '(r, w') := qp_ctor_connected lid qpn psn gid p rcq scq s config w in
  attempt (new_qp p rcq scq s config) (λ t, bring_up t lid qpn psn gid) w r w'.
Proof.
  unfold qp_ctor_connected. pose proof (qp_ctor_attempt p rcq scq s config w) as H1.
  set (t0 := new_qp p rcq scq s config) in *.
  destruct (qp_ctor _ _ _ _ _ _) as [[t|e| | |] w1] eqn:Hctor; try done; simpl in H1.
  - rewrite (bind_ret _ _ _ _ _ Hctor). destruct H1 as (q & -> & Hfresh & Hp1 & Hq1).
    set (t := created q (w_next_sq_psn w) t0) in *.
    unfold on_object, try_catch. rewrite rtr_rts_modify_all.
    pose proof (modify_all_spec q (drop 1 (bring_up t lid qpn psn gid)) t w1 eq_refl) as Hts.
    destruct (modify_all _ _) as [[[]|e| | |] [t' w']]; try (apply Hts; repeat constructor).
    + destruct Hts as (Ht & Hq & Hpsn); [repeat constructor|]. simpl in *. subst t'.
      exists q. split_and!; [done..|congruence|]. by eapply (qcalls_app _ [_; _]).
    + destruct Hts as (Hfit & Ht & Hpsn & dn & x & rest & rc & Heq & Hrc & Hq);
        [repeat constructor|]. simpl in Ht, Hpsn, Hq. subst t'.
      unfold mbind, M_bind. unfold qp_dtor. rewrite destroy_null by done. simpl.
      split; [done|]. right.
      exists q, (take 1 (bring_up t lid qpn psn gid) ++ dn), x, rest, rc.
      split_and!; [done|by rewrite <-app_assoc, <-Heq|done|congruence|].
      by eapply (qcalls_app _ [_; _]).
  - rewrite (bind_throw _ _ _ _ _ Hctor).
    destruct H1 as [Hfit [H1|H1]]; (split; [done|]); [by left|right].
    destruct H1 as (q & dn & x & rest & rc & Hfresh & Heq & Hrc & Hp & Hq).
    exists q, dn, x, (rest ++ drop 1 (bring_up (created q (w_next_sq_psn w) t0) lid qpn psn gid)),
      rc. split_and!; [done| |done..].
    change (x :: rest ++ ?l) with ((x :: rest) ++ l). rewrite app_assoc, <-Heq. done.
Qed.
End connected.

Section effects.
Context {V : Verbs}.

Definition never_destroyed (w : world) (q : ibv_qp) (w' : world) : Prop :=
  ∀ tr rc, calls w tr w' → EvDestroyQp (Some q) rc ∉ tr.

Definition state_after (st : ibv_qp_state) (ts : list transition) : ibv_qp_state :=
  foldl (λ _ x, qa_qp_state x.1.1) st ts.

Lemma qp_effect_failed q rc x m : rc ≠ 0%Z → qp_effect m (transition_ev q rc x) = m.
Proof. intros Hrc. simpl. rewrite bool_decide_eq_false_2; [done|]. by intros [? _]. Qed.

Lemma qp_effect_done q ts st m :
  Forall (λ x : transition, IBV_QP_STATE ∈ x.1.2) ts →
  foldl qp_effect (<[ qp_h q := st ]> m) (transition_ev q 0 <$> ts) =
  <[ qp_h q := state_after st ts ]> m.
Proof.
  intros Hts. revert st. induction Hts as [|x ts Hx _ IH]; intros st; [done|]. simpl.
  rewrite bool_decide_eq_true_2 by done. by rewrite insert_insert_eq, IH.
Qed.

Lemma transitions_never_destroy w q attr ts x rc w' :
  calls w (EvCreateQp attr (Some q) :: (transition_ev q 0 <$> ts) ++ [transition_ev q rc x]) w' →
  never_destroyed w q w'.
Proof.
  intros Hc tr rc' Htr. unfold calls in Htr, Hc. rewrite Hc in Htr.
  apply app_inv_head in Htr as <-.
  rewrite elem_of_cons, elem_of_app, list_elem_of_fmap, list_elem_of_singleton.
  intros [?|[(?&?&?)|?]]; done.
Qed.
End effects.

(** ** Lemmas: successive packet sequence numbers *)

Section psn.
Context {V : Verbs}.

(** A program that makes any number of connection attempts, keeping the objects
    whose construction succeeded. *)
Record attempt_args := AttemptArgs {
  at_lid : Z; at_qpn : Z; at_psn : Z; at_gid : ibv_gid;
  at_pd : pd; at_recv_cq : cq; at_send_cq : cq; at_srq : option srq; at_config : qp_config }.

Definition qp_of_args (a : attempt_args) : M world basic_qp :=
  qp_ctor_connected (at_lid a) (at_qpn a) (at_psn a) (at_gid a) (at_pd a)
    (at_recv_cq a) (at_send_cq a) (at_srq a) (at_config a).

Fixpoint open_all (args : list attempt_args) : M world (list basic_qp) :=
  match args with
  | [] => mret []
  | a :: args =>
      ot ← try_catch (t ← qp_of_args a; mret [t]) (λ _, mret []);
      ts ← open_all args;
      mret (ot ++ ts)
  end.

(** Every attempt either takes the next number or leaves the counter alone. *)
Lemma qp_of_args_psn a w :
  ∃ ot w', try_catch (t ← qp_of_args a; mret [t]) (λ _, mret []) w = (Ret ot, w') ∧
    ((ot = [] ∧ w_next_sq_psn w' = w_next_sq_psn w) ∨
     ((ot = [] ∨ ∃ t, ot = [t] ∧ sq_psn_ t = w_next_sq_psn w) ∧
      w_next_sq_psn w' = u32 (w_next_sq_psn w + 1))).
Proof.
  pose proof (qp_ctor_connected_attempt (at_lid a) (at_qpn a) (at_psn a) (at_gid a)
    (at_pd a) (at_recv_cq a) (at_send_cq a) (at_srq a) (at_config a) w) as H.
  unfold qp_of_args, try_catch, mbind, M_bind.
  destruct (qp_ctor_connected _ _ _ _ _ _ _ _ _ _) as [[t|e| | |] w1]; try done; simpl.
  - destruct H as (q & -> & _ & Hpsn & _). do 2 eexists. split; [done|]. right.
    split; [|done]. right. by eexists.
  - exists [], w1. split; [done|].
    destruct H as [_ [[_ H]|(q & dn & x & rest & rc & _ & _ & _ & H & _)]]; auto.
Qed.

Lemma u32_psn_step c i : u32 (u32 (c + 1) + i) = u32 (c + (1 + i)).
Proof.
  unfold u32, wrap. rewrite Zplus_mod_idemp_l. f_equal. lia.
Qed.

(** The numbers are [c + i] for strictly increasing offsets [i] below the number of
    attempts. *)
Lemma open_all_offsets args w :
  ∃ ts w' (offs : list Z), open_all args w = (Ret ts, w') ∧
    Forall (λ i, 0 ≤ i < Z.of_nat (length args))%Z offs ∧ StronglySorted Z.lt offs ∧
    (w_next_sq_psn w = u32 (w_next_sq_psn w) →
     sq_psn_ <$> ts = (λ i, u32 (w_next_sq_psn w + i)) <$> offs).
Proof.
  revert w. induction args as [|a args IH]; intros w.
  { exists [], w, []. split_and!; [done|constructor|constructor|done]. }
  cbn [open_all]. destruct (qp_of_args_psn a w) as (ot & w1 & Hrun & Hcase).
  rewrite (bind_ret _ _ _ _ _ Hrun).
  destruct (IH w1) as (ts & w' & offs & Hrest & Hoffs & Hsort & Heq).
  rewrite (bind_ret _ _ _ _ _ Hrest).
  assert (Forall (λ i, 0 ≤ i < Z.of_nat (length (a :: args)))%Z offs) as Hoffs0
    by (eapply Forall_impl; [done|]; simpl; lia).
  assert (Forall (λ i, 0 ≤ i < Z.of_nat (length (a :: args)))%Z (Z.succ <$> offs)) as Hoffs1
    by (apply Forall_fmap; eapply Forall_impl; [apply Hoffs|]; simpl; lia).
  assert (StronglySorted Z.lt (Z.succ <$> offs)) as Hsort1.
  { clear -Hsort. induction Hsort as [|x l _ IH Hx]; [constructor|].
    constructor; [done|]. apply Forall_fmap. eapply Forall_impl; [done|]. simpl. lia. }
  destruct Hcase as [[-> Hw1]|[Hot Hw1]].
  - exists ts, w', offs. rewrite Hw1 in Heq. by split_and!.
  - assert (sq_psn_ <$> ts = (λ i, u32 (w_next_sq_psn w + i)) <$> (Z.succ <$> offs)) as Hts.
    { rewrite Heq by (rewrite Hw1; symmetry; by apply wrap_wrap).
      rewrite Hw1, <-list_fmap_compose. apply list_fmap_ext. intros j x _. simpl.
      rewrite u32_psn_step. f_equal. lia. }
    destruct Hot as [->|(t & -> & Ht)]; [by exists ts, w', (Z.succ <$> offs)|].
    exists (t :: ts), w', (0%Z :: (Z.succ <$> offs)). split_and!; [done| | |].
    + constructor; [simpl; lia|done].
    + constructor; [done|]. apply Forall_fmap. eapply Forall_impl; [done|]. simpl. lia.
    + intros Hw. rewrite !fmap_cons, Hts, Ht, Z.add_0_r. by rewrite <-Hw.
Qed.
End psn.

(** ** Lemmas: the wire image of a queue pair *)

(** The fields the peer needs. *)
Definition qp_describes (t : basic_qp) (q : ibv_qp) : qp_header :=
  QpHeader (lid (pd_device_ (qpd_ t))) (qp_num q) (sq_psn_ t)
    (u32 (Z.of_nat (length (user_data_ t)))) (gid (pd_device_ (qpd_ t))).

Definition header_ok (h : qp_header) : Prop :=
  in_width 16 (hdr_lid h) ∧ in_width 32 (hdr_qp_num h) ∧ in_width 32 (hdr_sq_psn h) ∧
  in_width 32 (hdr_user_data_size h) ∧ length (hdr_gid h) = gid_size.

Definition header_image (h : qp_header) : bytes :=
  be_image 2 (hdr_lid h) ++ be_image 4 (hdr_qp_num h) ++ be_image 4 (hdr_sq_psn h) ++
  be_image 4 (hdr_user_data_size h) ++ hdr_gid h.

Lemma header_image_length h : length (hdr_gid h) = gid_size →
  length (header_image h) = kSerializedSize_qp.
Proof. intros Hg. unfold header_image. by rewrite !length_app, !be_image_length, Hg. Qed.

Lemma qp_serialize_image {H : Host} t q :
  qp_ t = Some q → qp_serialize t [] = (Ret tt, header_image (qp_describes t q) ++ user_data_ t).
Proof.
  intros Hq. unfold qp_serialize, header_image. rewrite Hq. cbn [deref]. unfold device_ptr.
  rewrite bind_serialize_int, bind_mret, !bind_serialize_int.
  unfold serialize_gid, put. munfold. by rewrite app_nil_l, <-!app_assoc.
Qed.

Lemma header_deserialize {H : Host} h rest : header_ok h →
  deserialized_qp_deserialize (header_image h ++ rest) = (Ret (DeserializedQp h []), rest).
Proof.
  intros (Hl & Hn & Hp & Hs & Hg). unfold deserialized_qp_deserialize, header_image.
  rewrite <-!app_assoc. rewrite bind_deserialize_int by done.
  rewrite !bind_deserialize_int by done. rewrite bind_deserialize_gid by done. by destruct h.
Qed.

(** ** Properties *)

Section properties.
Context {V : Verbs}.

(** C1: the connected constructor either returns an object that owns a new queue pair in
    the RTS state, the others being unchanged, or throws; when it throws after
    the library created a queue pair, that queue pair is still there, in the
    state it had reached: the handlers reset [qp_] before calling [destroy]. *)
Theorem qp_connected_states {L : QpLaws V} (lid qpn psn : Z) (gid : ibv_gid) (p : pd)
    (rcq scq : cq) (s : option srq) (config : qp_config) (w : world) :
  let '(r, w') := qp_ctor_connected lid qpn psn gid p rcq scq s config w in
  match r with
  | Ret t => ∃ q, qp_ t = Some q ∧ nic_qps (w_nic w) !! qp_h q = None ∧
      nic_qps (w_nic w') = <[ qp_h q := IBV_QPS_RTS ]> (nic_qps (w_nic w))
  | Throw e => fitting e ∧
      (nic_qps (w_nic w') = nic_qps (w_nic w) ∨
       ∃ q st, st ∈ [IBV_QPS_RESET; IBV_QPS_INIT; IBV_QPS_RTR] ∧
         nic_qps (w_nic w) !! qp_h q = None ∧ never_destroyed w q w' ∧
         nic_qps (w_nic w') = <[ qp_h q := st ]> (nic_qps (w_nic w)))
  | _ => False
  end.
Proof.
  pose proof (qp_ctor_connected_attempt lid qpn psn gid p rcq scq s config w) as H.
  destruct (qp_ctor_connected _ _ _ _ _ _ _ _ _ _) as [[t|e| | |] w']; try done.
  - destruct H as (q & -> & Hfresh & _ & [_ Hq]). exists q. split_and!; [done|apply Hfresh|].
    rewrite Hq. simpl. by rewrite !insert_insert_eq.
  - destruct H as [Hfit [[[_ Hq] _]|(q & dn & x & rest & rc & Hfresh & Heq & Hrc & _ & [Hc Hq])]];
      (split; [done|]); [left; apply Hq|right].
    assert (Forall (λ y : transition, IBV_QP_STATE ∈ y.1.2) dn) as Hdn.
    { assert (Forall (λ y : transition, IBV_QP_STATE ∈ y.1.2) (dn ++ x :: rest)) as Hall
        by (rewrite <-Heq; repeat constructor).
      by apply Forall_app in Hall as [? _]. }
    exists q, (state_after IBV_QPS_RESET dn). split_and!.
    + unfold bring_up in Heq.
      destruct dn as [|? [|? [|? [|]]]]; simpl in Heq; simplify_list_eq; repeat constructor.
    + apply Hfresh.
    + by eapply transitions_never_destroy.
    + rewrite Hq. cbn [foldl]. rewrite foldl_app. cbn [foldl].
      rewrite qp_effect_failed by done. by apply qp_effect_done.
Qed.

(** C2: a connection attempt that succeeds made exactly four calls: it created the
    queue pair on the given protection domain and completion queues, then asked for
    INIT, RTR and RTS with every attribute the transition requires; RTR addresses
    the remote LID, GID, queue pair and packet number given, through the port and the
    GID index of the device; RTS starts at the packet number that [serialize]
    announces. *)
Theorem qp_connected_calls (lid qpn psn : Z) (gid : ibv_gid) (p : pd)
    (rcq scq : cq) (s : option srq) (config : qp_config) (w w' : world) (t : basic_qp) :
  qp_ctor_connected lid qpn psn gid p rcq scq s config w = (Ret t, w') →
  ∃ q ini a1 a2 a3 m1 m2 m3,
    calls w [EvCreateQp ini (Some q); EvModifyQp (Some q) a1 m1 0;
             EvModifyQp (Some q) a2 m2 0; EvModifyQp (Some q) a3 m3 0] w' ∧
    (qia_recv_cq ini = cq_ rcq ∧ qia_send_cq ini = cq_ scq ∧
     qia_srq ini = (s ≫= srq_) ∧ qia_qp_type ini = IBV_QPT_RC) ∧
    (qp_ t = Some q ∧ sq_psn_ t = w_next_sq_psn w ∧
     w_next_sq_psn w' = u32 (w_next_sq_psn w + 1)) ∧
    (qa_qp_state <$> [a1; a2; a3]) = [IBV_QPS_INIT; IBV_QPS_RTR; IBV_QPS_RTS] ∧
    (modify_allowed (Some IBV_QPS_RESET) a1 m1 ∧ modify_allowed (Some IBV_QPS_INIT) a2 m2 ∧
     modify_allowed (Some IBV_QPS_RTR) a3 m3) ∧
    qa_port_num a1 = u8 (port_num_ (pd_device_ p)) ∧
    (qa_dest_qp_num a2 = qpn ∧ qa_rq_psn a2 = psn ∧ ah_dgid (qa_ah_attr a2) = gid ∧
     ah_dlid (qa_ah_attr a2) = lid ∧
     ah_sgid_index (qa_ah_attr a2) = u8 (gid_index_ (pd_device_ p)) ∧
     ah_port_num (qa_ah_attr a2) = u8 (port_num_ (pd_device_ p))) ∧
    qa_sq_psn a3 = sq_psn_ t.
Proof.
  intros Hret.
  pose proof (qp_ctor_connected_attempt lid qpn psn gid p rcq scq s config w) as H.
  rewrite Hret in H. destruct H as (q & -> & _ & Hpsn & [Hc _]).
  exists q, (create_attr (new_qp p rcq scq s config)). do 6 eexists. split; [apply Hc|].
  split_and!; try done; by destruct s.
Qed.

(** The destructor never throws.  For an object that owns a queue pair it asks
    for the ERR state, then destroys the queue pair, which is gone when the library
    reports success; for an object without one it makes no call. *)
Theorem qp_dtor_calls {L : QpLaws V} (t : basic_qp) (w : world) :
  ∃ w', qp_dtor (QpWorld t w) = (Ret tt, QpWorld t w') ∧
  match qp_ t with
  | None => w' = w
  | Some q => ∃ rc_err rc_destroy,
      calls w [EvModifyQp (Some q) err_attr [IBV_QP_STATE] rc_err;
               EvDestroyQp (Some q) rc_destroy] w' ∧
      qa_qp_state err_attr = IBV_QPS_ERR ∧
      (rc_destroy = 0%Z → nic_qps (w_nic w') = delete (qp_h q) (nic_qps (w_nic w)))
  end.
Proof.
  destruct (qp_ t) as [q|] eqn:Hq; [|exists w; split; [by apply destroy_null|done]].
  unfold qp_dtor, destroy, err, get_this, on_world. munfold. simpl. rewrite Hq.
  simpl. rewrite Hq. unfold vcall.
  destruct (ibv_modify_qp (Some q) err_attr [IBV_QP_STATE] (w_nic w)) as [rc n] eqn:Hop.
  simpl. destruct (ibv_destroy_qp (Some q) n) as [rc' n'] eqn:Hop'. simpl.
  assert (IBV_QP_STATE ∈ [IBV_QP_STATE]) as Hin by repeat constructor.
  pose proof (qcalls_modify w q err_attr [IBV_QP_STATE] rc n Hop Hin) as Hc.
  pose proof (qcalls_destroy (after w n (EvModifyQp (Some q) err_attr [IBV_QP_STATE] rc))
    q rc' n' Hop') as Hc'.
  destruct (qcalls_app _ _ _ _ _ Hc Hc') as [Hcalls Hnic].
  eexists. split; [done|]. exists rc, rc'. split_and!; [done..|].
  intros ->. rewrite (Hnic L). simpl. case_bool_decide; [apply delete_insert_eq|done].
Qed.

(** C38: whatever the outcome of each attempt, the queue pairs of a program that makes
    at most 2^32 attempts all start at different packet sequence numbers: the shared
    counter wraps at 32 bits. *)
Theorem qp_psn_unique (args : list attempt_args) (w : world) :
  in_width 32 (w_next_sq_psn w) → (Z.of_nat (length args) ≤ 2 ^ 32)%Z →
  ∃ ts w', open_all args w = (Ret ts, w') ∧
    NoDup (sq_psn_ <$> ts) ∧ Forall (in_width 32) (sq_psn_ <$> ts).
Proof.
  intros Hw Hlen. destruct (open_all_offsets args w) as (ts & w' & offs & Hrun & Hoffs & Hs & Heq).
  exists ts, w'. rewrite Heq by (symmetry; by apply (wrap_small 32)). split_and!; [done| |].
  - clear Heq Hrun. revert Hoffs. induction Hs as [|i l _ IH Hi]; [constructor|].
    intros [Hi0 Hl]%Forall_cons. rewrite fmap_cons. constructor; [|by apply IH].
    intros (j & Heq & Hj)%list_elem_of_fmap.
    rewrite Forall_forall in Hi, Hl. specialize (Hi j Hj). specialize (Hl j Hj).
    unfold u32, wrap in Heq. apply Z.cong_iff_ex in Heq as [k Hk].
    assert (k = 0)%Z by nia. lia.
  - apply Forall_fmap, Forall_true. intros i. simpl. by apply (wrap_in_width 32).
Qed.

(** C29: what [serialize] writes on one host, [deserialized_qp::deserialize] reads
    back on any other: port, queue pair number, packet number, size of the user data
    and GID; the header has [kSerializedSize] bytes and the user data follow it. *)
Theorem qp_serialize_roundtrip (sender receiver : Host) (t : basic_qp) (q : ibv_qp)
    (rest : bytes) :
  qp_ t = Some q → in_width 16 (lid (pd_device_ (qpd_ t))) → in_width 32 (qp_num q) →
  in_width 32 (sq_psn_ t) → length (gid (pd_device_ (qpd_ t))) = gid_size →
  ∃ image, qp_serialize (H:=sender) t [] = (Ret tt, image ++ user_data_ t) ∧
    length image = kSerializedSize_qp ∧
    ∃ it, deserialized_qp_deserialize (H:=receiver) (image ++ rest) =
      (Ret (DeserializedQp (QpHeader (lid (pd_device_ (qpd_ t))) (qp_num q) (sq_psn_ t)
         (u32 (Z.of_nat (length (user_data_ t)))) (gid (pd_device_ (qpd_ t)))) []), it).
Proof.
  intros Hq Hlid Hqpn Hpsn Hgid. exists (header_image (qp_describes t q)). split_and!.
  - by apply qp_serialize_image.
  - by apply header_image_length.
  - exists rest. apply (header_deserialize (H:=receiver) (qp_describes t q)).
    split_and!; [done..|apply (wrap_in_width 32); done|done].
Qed.
End properties.

(** ** Witnesses: runs on the reference provider *)

Definition wit_gid : ibv_gid := replicate 15 Byte.x00 ++ [Byte.x01].
Definition wit_device : device :=
  Device (Some ref_device) (Some (IbvContext 1)) (IbvPortAttr 5 IBV_LINK_LAYER_ETHERNET)
    (IbvDeviceAttrEx IBV_ATOMIC_supported) wit_gid 0 1 None.
Definition wit_qpd : pd := Pd wit_device (Some (IbvPd 2)).
Definition wit_cq : cq := Cq wit_device (Some (IbvCq 3)).

(** A connection attempt on a provider whose calls selected by [fail] fail. *)
Definition wit_connect (fail : nat → bool) : outcome basic_qp * world (V:=ref_verbs fail) :=
  qp_ctor_connected (V:=ref_verbs fail) 7 500 9 wit_gid wit_qpd wit_cq wit_cq None
    default_qp_config (world0 fail).

Lemma qp_connected_states_witness :
  ∃ e w' q st, wit_connect (λ i, bool_decide (i = 2)) = (Throw e, w') ∧
    st ∈ [IBV_QPS_RESET; IBV_QPS_INIT; IBV_QPS_RTR] ∧
    rn_qps (w_nic (V:=ref_verbs (λ i, bool_decide (i = 2))) w') = <[ qp_h q := st ]> ∅ ∧
    qp_h q = 1%Z.
Proof.
  pose (fail := λ i, bool_decide (i = 2)).
  pose proof (qp_connected_states (V:=ref_verbs fail) (L:=ref_qp_laws fail) 7 500 9 wit_gid
    wit_qpd wit_cq wit_cq None default_qp_config (world0 fail)) as H.
  change (qp_ctor_connected (V:=ref_verbs fail) 7 500 9 wit_gid wit_qpd wit_cq wit_cq None
    default_qp_config (world0 fail)) with (wit_connect fail) in H.
  destruct (wit_connect fail) as [r w'] eqn:Hrun.
  assert (∃ e, r = Throw e) as [e ->].
  { exists (default QueueClosedError
      (match (wit_connect fail).1 with Throw e => Some e | _ => None end)).
    apply (f_equal fst) in Hrun. simpl in Hrun. rewrite <-Hrun. vm_compute. reflexivity. }
  assert (rn_qps (w_nic (V:=ref_verbs fail) w') = {[1%Z := IBV_QPS_INIT]}) as Hqps.
  { apply (f_equal snd) in Hrun. simpl in Hrun. rewrite <-Hrun. vm_compute. reflexivity. }
  destruct H as [_ [H|(q & st & Hst & _ & _ & H)]].
  - exfalso. simpl in H. rewrite Hqps in H. apply (f_equal (lookup 1%Z)) in H. done.
  - simpl in H. exists e, w', q, st. split_and!; [done|done|done|].
    rewrite Hqps in H. apply (f_equal (lookup (qp_h q))) in H.
    rewrite lookup_insert_eq in H. by apply lookup_singleton_Some in H as [? _].
Defined.

Lemma qp_connected_calls_witness :
  ∃ q w', (wit_connect (λ _, false)).1 = Ret q ∧ (wit_connect (λ _, false)).2 = w' ∧
    ∃ h ini a1 a2 a3 m1 m2 m3,
      calls (V:=good) (world0 (λ _, false))
        [EvCreateQp ini (Some h); EvModifyQp (Some h) a1 m1 0;
         EvModifyQp (Some h) a2 m2 0; EvModifyQp (Some h) a3 m3 0] w' ∧
      qa_dest_qp_num a2 = 500%Z ∧ qa_sq_psn a3 = sq_psn_ q.
Proof.
  eexists _, _. split; [vm_compute; reflexivity|]. split; [reflexivity|].
  destruct (qp_connected_calls (V:=good) 7 500 9 wit_gid wit_qpd wit_cq wit_cq None
    default_qp_config (world0 (λ _, false)) (wit_connect (λ _, false)).2 _
    ltac:(vm_compute; reflexivity))
    as (h & ini & a1 & a2 & a3 & m1 & m2 & m3 & Hc & _ & _ & _ & _ & _ & (Hd & _) & Hp).
  exists h, ini, a1, a2, a3, m1, m2, m3. split_and!; [exact Hc|exact Hd|exact Hp].
Defined.

Definition wit_qp : basic_qp :=
  created (IbvQp 1 101) 1 (new_qp wit_qpd wit_cq wit_cq None default_qp_config).
Definition wit_qp_world : world (V:=good) := World (V:=good) (RNic 0 ∅ {[1%Z := IBV_QPS_RTS]} []) [] 2.

Lemma qp_dtor_calls_witness :
  ∃ w', qp_dtor (V:=good) (QpWorld wit_qp wit_qp_world) = (Ret tt, QpWorld wit_qp w') ∧
    rn_qps (w_nic w') = ∅.
Proof.
  destruct (qp_dtor_calls (V:=good) wit_qp wit_qp_world)
    as (w' & Hrun & rc & rc' & Hc & _ & Hgone).
  exists w'. split; [done|]. assert (rc' = 0%Z) as ->.
  { apply (f_equal (λ x, w_trace (env x.2))) in Hrun. rewrite Hc in Hrun.
    vm_compute in Hrun. by injection Hrun. }
  specialize (Hgone eq_refl). simpl in Hgone. rewrite Hgone. vm_compute. reflexivity.
Defined.

Definition wit_args : attempt_args :=
  AttemptArgs 7 500 9 wit_gid wit_qpd wit_cq wit_cq None default_qp_config.

Lemma qp_psn_unique_witness :
  ∃ ts w', open_all (V:=ref_verbs (λ i, bool_decide (i = 5)))
      [wit_args; wit_args; wit_args] (world0 _) = (Ret ts, w') ∧
    NoDup (sq_psn_ <$> ts) ∧ sq_psn_ <$> ts = [1; 3]%Z.
Proof.
  destruct (qp_psn_unique (V:=ref_verbs (λ i, bool_decide (i = 5)))
    [wit_args; wit_args; wit_args] (world0 _)) as (ts' & w'' & Hrun' & Hnodup' & _).
  { vm_compute. split; congruence. }
  { vm_compute. congruence. }
  exists ts', w''. split_and!; [done|done|].
  apply (f_equal (λ x, match x.1 with Ret ts => sq_psn_ <$> ts | _ => [] end)) in Hrun'.
  simpl in Hrun'. rewrite <-Hrun'. vm_compute. reflexivity.
Defined.

Lemma qp_serialize_roundtrip_witness :
  ∃ image, qp_serialize (H:={| big_endian := false |}) wit_qp [] = (Ret tt, image ++ []) ∧
    length image = kSerializedSize_qp ∧
    ∃ it, deserialized_qp_deserialize (H:={| big_endian := true |}) (image ++ [Byte.x07]) =
      (Ret (DeserializedQp (QpHeader 5 101 1 0 wit_gid) []), it).
Proof.
  apply (qp_serialize_roundtrip {| big_endian := false |} {| big_endian := true |} wit_qp
    (IbvQp 1 101) [Byte.x07]); vm_compute; (split; congruence) || done.
Defined.
