(* ===== verification/Operations.v ===== *)
(** * qp.h, qp.cc (operations): the awaitables of send, write, read, atomics, recv

    [basic_qp::operation_state], [send_awaitable], [recv_awaitable] and the member
    functions that make them.  An awaitable keeps a [std::weak_ptr] to its queue
    pair: the queue pairs that are alive are a map from object identities, and
    [lock] looks its identity up.  A member function that changes the awaitable
    returns the new one.  [uint64_t] and pointer values are [Z].  The conversions to
    [asio::awaitable] are in AsioAwait.v. *)

From S2P Require Import Prelude Verbs RefNic Errors Device Resources Mr Qp.
From stdpp Require Import options.

(** ** operation_state *)

(** [std::coroutine_handle<>]: the coroutine it resumes. *)
Definition coro := Z.

Record operation_state := OperationState {
  wr_opcode : option ibv_wr_opcode;
  coro_handle : option coro;
  os_wc_status : ibv_wc_status;
  os_wc_flags : Z;
  os_imm_data : Z;
  os_byte_len : Z }.

Definition operation_state_ctor (opcode : option ibv_wr_opcode) : operation_state :=
  OperationState opcode None IBV_WC_SUCCESS 0 0 0.

Definition set_coro_handle (h : coro) (s : operation_state) : operation_state :=
  OperationState (wr_opcode s) (Some h) (os_wc_status s) (os_wc_flags s) (os_imm_data s)
    (os_byte_len s).
Definition set_byte_len (n : Z) (s : operation_state) : operation_state :=
  OperationState (wr_opcode s) (coro_handle s) (os_wc_status s) (os_wc_flags s)
    (os_imm_data s) n.

Definition set_from_wc (wc : ibv_wc) (s : operation_state) : operation_state :=
  let s := OperationState (wr_opcode s) (coro_handle s) (wc_status wc) (wc_flags wc)
             (os_imm_data s) (os_byte_len s) in
  match wr_opcode s with
  | None => OperationState None (coro_handle s) (os_wc_status s) (os_wc_flags s)
              (wc_imm_data wc) (wc_byte_len wc)
  | Some IBV_WR_RDMA_WRITE_WITH_IMM | Some IBV_WR_RDMA_WRITE | Some IBV_WR_SEND => s
  | Some _ => set_byte_len (wc_byte_len wc) s
  end.

(** ** The environment *)

Definition fill_local_sge (mr : mr_view) : ibv_sge :=
  IbvSge (view_addr mr) (u32 (view_length mr)) (view_lkey mr).

Section operations.
Context {V : Verbs} {B : Build}.

Record op_env := OpEnv { live_qps : gmap Z basic_qp; op_world : world }.

Definition in_world {A} (m : M world A) : M op_env A :=
  zoom op_world (λ w e, OpEnv (live_qps e) w) m.

(** [std::weak_ptr<basic_qp>::lock]. *)
Definition lock (qp : Z) : M op_env (option basic_qp) := mgets (λ e, live_qps e !! qp).

(** [std::make_unique<local_mr>(qp->pd_->reg_mr(addr, size))]: the temporary is moved
    into the heap object, then destroyed. *)
Definition make_unique_mr (p : pd) (buffer : Z * Z) : M world local_mr :=
  tmp ← reg_mr p buffer.1 buffer.2 default_access;
  let '(m, moved) := local_mr_move_ctor tmp in
  local_mr_dtor moved ;;
  mret m.

(** [std::unique_ptr<local_mr>::~unique_ptr]. *)
Definition unique_mr_dtor (m : option local_mr) : M world unit :=
  match m with None => mret tt | Some m => local_mr_dtor m end.

(** ** send_awaitable *)

(** The anonymous union: the members written by the constructor. *)
Record payload := Payload { compare_add_ : option Z; swap_ : option Z; imm_ : option Z }.

Record send_awaitable := SendAwaitable {
  sa_qp_ : Z;
  sa_local_mr_ : option local_mr;
  sa_local_mr_view_ : mr_view;
  sa_remote_mr_view_ : mr_view;
  sa_exception_ : option exn;
  sa_payload : payload;
  sa_state_ : operation_state }.

(** The trailing parameters of the five overloads of each constructor. *)
Inductive send_args :=
| args_send
| args_remote (remote_mr : mr_view)
| args_imm (remote_mr : mr_view) (imm : Z)
| args_add (remote_mr : mr_view) (add : Z)
| args_cas (remote_mr : mr_view) (compare swap : Z).

Definition args_mr (a : send_args) : mr_view :=
  match a with
  | args_send => mr_view_null
  | args_remote r | args_imm r _ | args_add r _ | args_cas r _ _ => r
  end.
Definition args_payload (a : send_args) : payload :=
  match a with
  | args_send | args_remote _ => Payload None None None
  | args_imm _ imm => Payload None None (Some imm)
  | args_add _ add => Payload (Some add) None None
  | args_cas _ compare swap => Payload (Some compare) (Some swap) None
  end.

(** The constructors taking a [std::span]. *)
Definition send_awaitable_span (qp : Z) (p : pd) (buffer : Z * Z) (opcode : ibv_wr_opcode)
    (a : send_args) : M world send_awaitable :=
  m ← make_unique_mr p buffer;
  v ← mr_view_local m 0 size_max;
  mret (SendAwaitable qp (Some m) v (args_mr a) None (args_payload a)
          (operation_state_ctor (Some opcode))).

(** The constructors taking an [mr_view]. *)
Definition send_awaitable_view (qp : Z) (local_mr : mr_view) (opcode : ibv_wr_opcode)
    (a : send_args) : send_awaitable :=
  SendAwaitable qp None local_mr (args_mr a) None (args_payload a)
    (operation_state_ctor (Some opcode)).

Definition send_awaitable_dtor (t : send_awaitable) : M world unit :=
  unique_mr_dtor (sa_local_mr_ t).

Definition set_sa_state (s : operation_state) (t : send_awaitable) : send_awaitable :=
  SendAwaitable (sa_qp_ t) (sa_local_mr_ t) (sa_local_mr_view_ t) (sa_remote_mr_view_ t)
    (sa_exception_ t) (sa_payload t) s.
Definition set_sa_exception (e : option exn) (t : send_awaitable) : send_awaitable :=
  SendAwaitable (sa_qp_ t) (sa_local_mr_ t) (sa_local_mr_view_ t) (sa_remote_mr_view_ t)
    e (sa_payload t) (sa_state_ t).

Definition is_rdma (t : send_awaitable) : bool :=
  bool_decide (wr_opcode (sa_state_ t) = Some IBV_WR_RDMA_READ) ||
  bool_decide (wr_opcode (sa_state_ t) = Some IBV_WR_RDMA_WRITE) ||
  bool_decide (wr_opcode (sa_state_ t) = Some IBV_WR_RDMA_WRITE_WITH_IMM).
Definition is_atomic (t : send_awaitable) : bool :=
  bool_decide (wr_opcode (sa_state_ t) = Some IBV_WR_ATOMIC_CMP_AND_SWP) ||
  bool_decide (wr_opcode (sa_state_ t) = Some IBV_WR_ATOMIC_FETCH_AND_ADD).

(** [try { lock; post } catch (std::runtime_error &e)]: the exception kept, if any. *)
Definition post_or_keep (qp : Z) (expired : string) (post : basic_qp → M world unit)
    : M op_env (option exn) :=
  noexcept
    (try_catch
       (q ← lock qp;
        match q with
        | None => mret (Some (RuntimeError expired))
        | Some t => in_world (post t) ;; mret None
        end)
       (λ e, match e with
             | RuntimeError _ | SystemError _ => mret (Some e)
             | _ => mthrow_exn e
             end)).

(** The work request [send_awaitable::suspend] fills, and the awaitable, whose state it
    changes. *)
Definition send_fill (t : send_awaitable) (wr_id : Z)
    : M op_env (ibv_send_wr * send_awaitable) :=
  let send_sge := fill_local_sge (sa_local_mr_view_ t) in
  cassert (bool_decide (wr_opcode (sa_state_ t) ≠ None)) ;;
  opcode ← deref (wr_opcode (sa_state_ t));
  let remote := sa_remote_mr_view_ t in
  if is_rdma t then
    cassert (bool_decide (view_addr remote ≠ 0%Z)) ;;
    imm ← (if bool_decide (opcode = IBV_WR_RDMA_WRITE_WITH_IMM)
           then deref (imm_ (sa_payload t)) else mret 0%Z);
    let byte_len := u32 (view_length (sa_local_mr_view_ t)) in
    mret (IbvSendWr wr_id [send_sge] 1 opcode [IBV_SEND_SIGNALED] imm
            (wr_rdma (view_addr remote) (view_rkey remote)),
          set_sa_state (set_byte_len byte_len (sa_state_ t)) t)
  else if is_atomic t then
    cassert (bool_decide (view_addr remote ≠ 0%Z)) ;;
    compare_add ← deref (compare_add_ (sa_payload t));
    swap ← (if bool_decide (opcode = IBV_WR_ATOMIC_CMP_AND_SWP)
            then deref (swap_ (sa_payload t)) else mret 0%Z);
    mret (IbvSendWr wr_id [send_sge] 1 opcode [IBV_SEND_SIGNALED] 0
            (wr_atomic (view_addr remote) (view_rkey remote) compare_add swap), t)
  else
    mret (IbvSendWr wr_id [send_sge] 1 opcode [IBV_SEND_SIGNALED] 0 wr_zero, t).

Definition send_suspend (t : send_awaitable) (wr_id : Z) : M op_env (bool * send_awaitable) :=
  r ← send_fill t wr_id;
  let '(send_wr, t) := r in
  ex ← post_or_keep (sa_qp_ t) "post_send: qp expired, use_count=0"
         (λ q, post_send q send_wr);
  match ex with
  | None => mret (true, t)
  | Some e => mret (false, set_sa_exception (Some e) t)
  end.

Definition send_await_ready (t : send_awaitable) : bool := false.

(** [wr_id] of the state is the address of the state: the parameter [state]. *)
Definition send_await_suspend (t : send_awaitable) (state : Z) (h : coro)
    : M op_env (bool * send_awaitable) :=
  send_suspend (set_sa_state (set_coro_handle h (sa_state_ t)) t) state.

Definition send_resume {S} (t : send_awaitable) : M S Z :=
  check_wc_status (os_wc_status (sa_state_ t)) "failed to send" ;;
  mret (os_byte_len (sa_state_ t)).

Definition send_await_resume {S} (t : send_awaitable) : M S Z :=
  match sa_exception_ t with
  | Some e => mthrow_exn e
  | None => send_resume t
  end.

Definition send_unhandled_exception (t : send_awaitable) : option exn := sa_exception_ t.

(** ** recv_awaitable *)

Record recv_awaitable := RecvAwaitable {
  ra_qp_ : Z;
  ra_local_mr_ : option local_mr;
  ra_local_mr_view_ : mr_view;
  ra_exception_ : option exn;
  ra_state_ : operation_state }.

Definition recv_awaitable_span (qp : Z) (p : pd) (buffer : Z * Z)
    : M world recv_awaitable :=
  m ← make_unique_mr p buffer;
  v ← mr_view_local m 0 size_max;
  mret (RecvAwaitable qp (Some m) v None (operation_state_ctor None)).

Definition recv_awaitable_view (qp : Z) (local_mr : mr_view) : recv_awaitable :=
  RecvAwaitable qp None local_mr None (operation_state_ctor None).

Definition recv_awaitable_dtor (t : recv_awaitable) : M world unit :=
  unique_mr_dtor (ra_local_mr_ t).

Definition set_ra_state (s : operation_state) (t : recv_awaitable) : recv_awaitable :=
  RecvAwaitable (ra_qp_ t) (ra_local_mr_ t) (ra_local_mr_view_ t) (ra_exception_ t) s.
Definition set_ra_exception (e : option exn) (t : recv_awaitable) : recv_awaitable :=
  RecvAwaitable (ra_qp_ t) (ra_local_mr_ t) (ra_local_mr_view_ t) e (ra_state_ t).

Definition recv_wr (t : recv_awaitable) (wr_id : Z) : ibv_recv_wr :=
  if view_bool (ra_local_mr_view_ t)
  then IbvRecvWr wr_id [fill_local_sge (ra_local_mr_view_ t)] 1
  else IbvRecvWr wr_id [] 0.

Definition recv_suspend (t : recv_awaitable) (wr_id : Z) : M op_env (bool * recv_awaitable) :=
  ex ← post_or_keep (ra_qp_ t) "post_recv: qp expired, use_count=0"
         (λ q, post_recv q (recv_wr t wr_id));
  match ex with
  | None => mret (true, t)
  | Some e => mret (false, set_ra_exception (Some e) t)
  end.

Definition recv_await_ready (t : recv_awaitable) : bool := false.

Definition recv_await_suspend (t : recv_awaitable) (state : Z) (h : coro)
    : M op_env (bool * recv_awaitable) :=
  recv_suspend (set_ra_state (set_coro_handle h (ra_state_ t)) t) state.

(** [recv_result]: the bytes received and the immediate data, if any. *)
Definition recv_resume {S} (t : recv_awaitable) : M S (Z * option Z) :=
  check_wc_status (os_wc_status (ra_state_ t)) "failed to recv" ;;
  if bool_decide (Z.land (os_wc_flags (ra_state_ t)) IBV_WC_WITH_IMM ≠ 0%Z)
  then mret (os_byte_len (ra_state_ t), Some (os_imm_data (ra_state_ t)))
  else mret (os_byte_len (ra_state_ t), None).

Definition recv_await_resume {S} (t : recv_awaitable) : M S (Z * option Z) :=
  match ra_exception_ t with
  | Some e => mthrow_exn e
  | None => recv_resume t
  end.

Definition recv_unhandled_exception (t : recv_awaitable) : option exn := ra_exception_ t.

(** ** The member functions of basic_qp

    [qp] is the identity of the object called, alive during the call. *)

Definition this_qp (qp : Z) : M op_env basic_qp := q ← lock qp; deref q.

(** [make_send_awaitable] and [make_recv_awaitable] are [noexcept]. *)
Definition make_send_awaitable_span (qp : Z) (buffer : Z * Z) (opcode : ibv_wr_opcode)
    (a : send_args) : M op_env send_awaitable :=
  t ← this_qp qp;
  noexcept (in_world (send_awaitable_span qp (qpd_ t) buffer opcode a)).
Definition make_send_awaitable_view (qp : Z) (local_mr : mr_view) (opcode : ibv_wr_opcode)
    (a : send_args) : M op_env send_awaitable :=
  mret (send_awaitable_view qp local_mr opcode a).

(** The overloads taking a span... *)
Definition send (qp : Z) (buffer : Z * Z) : M op_env send_awaitable :=
  make_send_awaitable_span qp buffer IBV_WR_SEND args_send.
Definition write (qp : Z) (remote_mr : mr_view) (buffer : Z * Z) : M op_env send_awaitable :=
  make_send_awaitable_span qp buffer IBV_WR_RDMA_WRITE (args_remote remote_mr).
Definition write_with_imm (qp : Z) (remote_mr : mr_view) (buffer : Z * Z) (imm : Z)
    : M op_env send_awaitable :=
  make_send_awaitable_span qp buffer IBV_WR_RDMA_WRITE_WITH_IMM (args_imm remote_mr imm).
Definition read (qp : Z) (remote_mr : mr_view) (buffer : Z * Z) : M op_env send_awaitable :=
  make_send_awaitable_span qp buffer IBV_WR_RDMA_READ (args_remote remote_mr).
Definition fetch_and_add (qp : Z) (remote_mr : mr_view) (buffer : Z * Z) (add : Z)
    : M op_env send_awaitable :=
  t ← this_qp qp;
  cassert (is_fetch_and_add_supported (device_ptr (qpd_ t))) ;;
  make_send_awaitable_span qp buffer IBV_WR_ATOMIC_FETCH_AND_ADD (args_add remote_mr add).
Definition compare_and_swap (qp : Z) (remote_mr : mr_view) (buffer : Z * Z)
    (compare swap : Z) : M op_env send_awaitable :=
  t ← this_qp qp;
  cassert (is_compare_and_swap_supported (device_ptr (qpd_ t))) ;;
  make_send_awaitable_span qp buffer IBV_WR_ATOMIC_CMP_AND_SWP
    (args_cas remote_mr compare swap).
Definition recv (qp : Z) (buffer : Z * Z) : M op_env recv_awaitable :=
  t ← this_qp qp;
  noexcept (in_world (recv_awaitable_span qp (qpd_ t) buffer)).

(** ... and those taking a view of a registered region. *)
Definition send_mr (qp : Z) (local_mr : mr_view) : M op_env send_awaitable :=
  make_send_awaitable_view qp local_mr IBV_WR_SEND args_send.
Definition write_mr (qp : Z) (remote_mr local_mr : mr_view) : M op_env send_awaitable :=
  make_send_awaitable_view qp local_mr IBV_WR_RDMA_WRITE (args_remote remote_mr).
Definition write_with_imm_mr (qp : Z) (remote_mr local_mr : mr_view) (imm : Z)
    : M op_env send_awaitable :=
  make_send_awaitable_view qp local_mr IBV_WR_RDMA_WRITE_WITH_IMM (args_imm remote_mr imm).
Definition read_mr (qp : Z) (remote_mr local_mr : mr_view) : M op_env send_awaitable :=
  make_send_awaitable_view qp local_mr IBV_WR_RDMA_READ (args_remote remote_mr).
Definition fetch_and_add_mr (qp : Z) (remote_mr local_mr : mr_view) (add : Z)
    : M op_env send_awaitable :=
  t ← this_qp qp;
  cassert (is_fetch_and_add_supported (device_ptr (qpd_ t))) ;;
  make_send_awaitable_view qp local_mr IBV_WR_ATOMIC_FETCH_AND_ADD (args_add remote_mr add).
Definition compare_and_swap_mr (qp : Z) (remote_mr local_mr : mr_view) (compare swap : Z)
    : M op_env send_awaitable :=
  t ← this_qp qp;
  cassert (is_compare_and_swap_supported (device_ptr (qpd_ t))) ;;
  make_send_awaitable_view qp local_mr IBV_WR_ATOMIC_CMP_AND_SWP
    (args_cas remote_mr compare swap).
Definition recv_mr (qp : Z) (local_mr : mr_view) : M op_env recv_awaitable :=
  mret (recv_awaitable_view qp local_mr).
Definition recv_nothing (qp : Z) : M op_env recv_awaitable :=
  mret (recv_awaitable_view qp mr_view_null).
End operations.

(** ** Specification: what each operation posts and returns *)

Section spec.
Context {V : Verbs} {B : Build}.

Inductive send_op :=
| OpSend
| OpWrite (remote : mr_view)
| OpWriteImm (remote : mr_view) (imm : Z)
| OpRead (remote : mr_view)
| OpFetchAdd (remote : mr_view) (add : Z)
| OpCas (remote : mr_view) (compare swap : Z).

(** Either form of a local buffer: the overload that is called. *)
Inductive local_buffer := buf_span (buffer : Z * Z) | buf_view (v : mr_view).

Definition issue (op : send_op) (qp : Z) (b : local_buffer) : M op_env send_awaitable :=
  match b with
  | buf_span b =>
      match op with
      | OpSend => send qp b
      | OpWrite r => write qp r b
      | OpWriteImm r imm => write_with_imm qp r b imm
      | OpRead r => read qp r b
      | OpFetchAdd r add => fetch_and_add qp r b add
      | OpCas r c s => compare_and_swap qp r b c s
      end
  | buf_view v =>
      match op with
      | OpSend => send_mr qp v
      | OpWrite r => write_mr qp r v
      | OpWriteImm r imm => write_with_imm_mr qp r v imm
      | OpRead r => read_mr qp r v
      | OpFetchAdd r add => fetch_and_add_mr qp r v add
      | OpCas r c s => compare_and_swap_mr qp r v c s
      end
  end.

Definition make_send_awaitable (qp : Z) (b : local_buffer) (opcode : ibv_wr_opcode)
    (a : send_args) : M op_env send_awaitable :=
  match b with
  | buf_span buffer => make_send_awaitable_span qp buffer opcode a
  | buf_view v => make_send_awaitable_view qp v opcode a
  end.

(** The conditions the source asserts. *)
Definition op_valid (t : basic_qp) (op : send_op) : Prop :=
  match op with
  | OpSend => True
  | OpWrite r | OpWriteImm r _ | OpRead r => v_addr_ r ≠ 0%Z
  | OpFetchAdd r _ =>
      v_addr_ r ≠ 0%Z ∧ is_fetch_and_add_supported (pd_device_ (qpd_ t)) = true
  | OpCas r _ _ =>
      v_addr_ r ≠ 0%Z ∧ is_compare_and_swap_supported (pd_device_ (qpd_ t)) = true
  end.

(** What lets an operation pass the source's asserts: without [NDEBUG] they must hold. *)
Definition op_passes (t : basic_qp) (op : send_op) : Prop := NDEBUG = true ∨ op_valid t op.

(** The work request of an operation on the local bytes of [v]. *)
Definition expected_wr (op : send_op) (v : mr_view) (wr_id : Z) : ibv_send_wr :=
  let wr opcode imm u :=
    IbvSendWr wr_id [IbvSge (v_addr_ v) (u32 (v_length_ v)) (v_key_ v)] 1 opcode
      [IBV_SEND_SIGNALED] imm u in
  match op with
  | OpSend => wr IBV_WR_SEND 0%Z wr_zero
  | OpWrite r => wr IBV_WR_RDMA_WRITE 0%Z (wr_rdma (v_addr_ r) (v_key_ r))
  | OpWriteImm r imm =>
      wr IBV_WR_RDMA_WRITE_WITH_IMM imm (wr_rdma (v_addr_ r) (v_key_ r))
  | OpRead r => wr IBV_WR_RDMA_READ 0%Z (wr_rdma (v_addr_ r) (v_key_ r))
  | OpFetchAdd r add =>
      wr IBV_WR_ATOMIC_FETCH_AND_ADD 0%Z (wr_atomic (v_addr_ r) (v_key_ r) add 0)
  | OpCas r c s =>
      wr IBV_WR_ATOMIC_CMP_AND_SWP 0%Z (wr_atomic (v_addr_ r) (v_key_ r) c s)
  end.

(** What the awaiting coroutine gets for a successful completion. *)
Definition expected_result (op : send_op) (v : mr_view) (wc : ibv_wc) : Z :=
  match op with
  | OpSend => 0%Z
  | OpWrite _ | OpWriteImm _ _ => u32 (v_length_ v)
  | OpRead _ | OpFetchAdd _ _ | OpCas _ _ _ => wc_byte_len wc
  end.

Definition op_args (op : send_op) : ibv_wr_opcode * send_args :=
  match op with
  | OpSend => (IBV_WR_SEND, args_send)
  | OpWrite r => (IBV_WR_RDMA_WRITE, args_remote r)
  | OpWriteImm r imm => (IBV_WR_RDMA_WRITE_WITH_IMM, args_imm r imm)
  | OpRead r => (IBV_WR_RDMA_READ, args_remote r)
  | OpFetchAdd r add => (IBV_WR_ATOMIC_FETCH_AND_ADD, args_add r add)
  | OpCas r c s => (IBV_WR_ATOMIC_CMP_AND_SWP, args_cas r c s)
  end.
End spec.

(** ** Lemmas *)

Lemma set_from_wc_status wc s : os_wc_status (set_from_wc wc s) = wc_status wc.
Proof. unfold set_from_wc. by destruct s as [[[]|] ? ? ? ? ?]. Qed.

Section lemmas.
Context {V : Verbs} {B : Build}.

Lemma op_valid_passes t op : op_valid t op → op_passes t op.
Proof. by right. Qed.

(** A valid operation makes its awaitable through the constructor for its arguments. *)
Lemma issue_make op qp b env t :
  live_qps env !! qp = Some t → op_passes t op →
  issue op qp b env = make_send_awaitable qp b (op_args op).1 (op_args op).2 env.
Proof.
  intros Hq Hv. destruct op, b; try done; unfold issue, fetch_and_add,
    compare_and_swap, fetch_and_add_mr, compare_and_swap_mr, this_qp, lock, device_ptr, cassert;
    munfold; simpl; rewrite Hq; simpl;
    destruct Hv as [->|[_ ->]]; rewrite ?orb_true_r; done.
Qed.

(** The awaitable of an operation, before it is posted. *)
Record fresh_awaitable (op : send_op) (qp : Z) (v : mr_view) (t : send_awaitable) : Prop := {
  fa_qp : sa_qp_ t = qp;
  fa_view : sa_local_mr_view_ t = v;
  fa_remote : sa_remote_mr_view_ t = args_mr (op_args op).2;
  fa_payload : sa_payload t = args_payload (op_args op).2;
  fa_exception : sa_exception_ t = None;
  fa_opcode : wr_opcode (sa_state_ t) = Some (op_args op).1;
  fa_len : os_byte_len (sa_state_ t) = 0%Z }.

Lemma send_fill_spec op qp v t t0 st env :
  fresh_awaitable op qp v t → op_passes t0 op →
  ∃ t', send_fill t st env = (Ret (expected_wr op v st, t'), env) ∧
    sa_qp_ t' = qp ∧ sa_exception_ t' = None ∧ sa_local_mr_ t' = sa_local_mr_ t ∧
    wr_opcode (sa_state_ t') = Some (op_args op).1 ∧
    coro_handle (sa_state_ t') = coro_handle (sa_state_ t) ∧
    ∀ wc, wc_status wc = IBV_WC_SUCCESS →
      os_byte_len (set_from_wc wc (sa_state_ t')) = expected_result op v wc.
Proof.
  intros [] Hv. destruct t as [q m v' r e [c s i] [oc ch ? ? ? ?]]; simpl in *. subst.
  unfold send_fill, is_rdma, is_atomic, view_addr, view_rkey, fill_local_sge; simpl.
  destruct Hv as [Hv|Hv]; destruct op; simpl in *; simplify_eq; unfold cassert; munfold; simpl;
    rewrite ?Hv; repeat (rewrite orb_true_r; simpl);
    try (rewrite bool_decide_eq_true_2 by tauto); repeat (rewrite orb_true_r; simpl);
    eexists; split_and!; try done; by intros wc ->.
Qed.

(** Posting through a queue pair: no call when it has expired, one otherwise. *)
Lemma post_or_keep_spec qp expired (post : basic_qp → M world unit) env :
  (∀ t w, ∃ r w', post t w = (r, w') ∧
     (r = Ret tt ∨ ∃ text, r = Throw (RuntimeError text))) →
  match live_qps env !! qp with
  | None => post_or_keep qp expired post env = (Ret (Some (RuntimeError expired)), env)
  | Some t => ∃ r w', post t (op_world env) = (r, w') ∧
      post_or_keep qp expired post env =
        (Ret (match r with Throw e => Some e | _ => None end), OpEnv (live_qps env) w')
  end.
Proof.
  intros Hpost. unfold post_or_keep, lock, in_world. munfold. simpl.
  destruct (live_qps env !! qp) as [t|]; [|done].
  destruct (Hpost t (op_world env)) as (r & w' & Hrun & Hr). exists r, w'. split; [done|].
  rewrite Hrun. by destruct Hr as [->|[text ->]].
Qed.

Lemma check_rc_cases {S} rc message (s : S) :
  ∃ r, check_rc rc message s = (r, s) ∧
    ((rc = 0%Z ∧ r = Ret tt) ∨
     (rc ≠ 0%Z ∧ ∃ text, r = Throw (RuntimeError text) ∧
        String.length text < kErrorStringBufferSize)).
Proof.
  destruct (decide (rc = 0%Z)) as [->|Hrc]; [exists (Ret tt); auto|].
  destruct (check_rc_throw rc message s Hrc) as (e & He & text & -> & Hlen).
  eexists. split; [done|]. right. eauto.
Qed.

Lemma post_send_run t wr w rc n :
  ibv_post_send (qp_ t) wr (w_nic w) = (rc, n) →
  ∃ r, post_send t wr w = (r, after w n (EvPostSend (qp_ t) wr rc)) ∧
    ((rc = 0%Z ∧ r = Ret tt) ∨
     (rc ≠ 0%Z ∧ ∃ text, r = Throw (RuntimeError text) ∧
        String.length text < kErrorStringBufferSize)).
Proof.
  intros Hop. unfold post_send. rewrite (bind_vcall _ _ _ _ _ _ Hop). apply check_rc_cases.
Qed.

Lemma post_send_total wr t w :
  ∃ r w', post_send t wr w = (r, w') ∧ (r = Ret tt ∨ ∃ text, r = Throw (RuntimeError text)).
Proof.
  destruct (ibv_post_send (qp_ t) wr (w_nic w)) as [rc n] eqn:E.
  destruct (post_send_run t wr w rc n E) as (r & Hrun & Hr). do 2 eexists. split; [done|].
  destruct Hr as [[_ ->]|(_ & text & -> & _)]; eauto.
Qed.
End lemmas.

Section posting.
Context {V : Verbs} {B : Build}.

Lemma fresh_view op qp v :
  fresh_awaitable op qp v (send_awaitable_view qp v (op_args op).1 (op_args op).2).
Proof. by destruct op. Qed.

Lemma fresh_coro op qp v t h :
  fresh_awaitable op qp v t →
  fresh_awaitable op qp v (set_sa_state (set_coro_handle h (sa_state_ t)) t).
Proof. by intros []. Qed.

(** A fresh awaitable whose queue pair is alive: one work request is posted. *)
Lemma send_suspend_spec op qp v a st env t rc n :
  fresh_awaitable op qp v a → live_qps env !! qp = Some t → op_passes t op →
  ibv_post_send (qp_ t) (expected_wr op v st) (w_nic (op_world env)) = (rc, n) →
  ∃ aw, send_suspend a st env =
      (Ret (bool_decide (rc = 0%Z), aw),
       OpEnv (live_qps env) (after (op_world env) n (EvPostSend (qp_ t) (expected_wr op v st) rc))) ∧
    coro_handle (sa_state_ aw) = coro_handle (sa_state_ a) ∧
    sa_local_mr_ aw = sa_local_mr_ a ∧
    ((rc = 0%Z ∧ sa_exception_ aw = None ∧ wr_opcode (sa_state_ aw) = Some (op_args op).1) ∨
     (rc ≠ 0%Z ∧ ∃ text, sa_exception_ aw = Some (RuntimeError text) ∧
        String.length text < kErrorStringBufferSize)) ∧
    ∀ wc, wc_status wc = IBV_WC_SUCCESS →
      os_byte_len (set_from_wc wc (sa_state_ aw)) = expected_result op v wc.
Proof.
  intros Hf Hq Hv Hop.
  destruct (send_fill_spec op qp v a t st env Hf Hv)
    as (a' & Hfill & Hqp & Hex & Hmr & Hoc & Hch & Hres).
  unfold send_suspend. rewrite (bind_ret _ _ _ _ _ Hfill). rewrite Hqp.
  pose proof (post_or_keep_spec qp "post_send: qp expired, use_count=0"
    (λ q, post_send q (expected_wr op v st)) env) as Hpost.
  rewrite Hq in Hpost. destruct Hpost as (r & w' & Hrun & Hkeep); [apply post_send_total|].
  rewrite (bind_ret _ _ _ _ _ Hkeep).
  destruct (post_send_run t _ (op_world env) rc n Hop) as (r' & Hrun' & Hr).
  rewrite Hrun in Hrun'. injection Hrun' as -> ->.
  destruct Hr as [[-> ->]|(Hrc & text & -> & Hlen)].
  - exists a'. split_and!; try done. by left.
  - exists (set_sa_exception (Some (RuntimeError text)) a').
    rewrite bool_decide_eq_false_2 by done. split_and!; try done. right. eauto.
Qed.

(** The call a receive makes on an object the constructor built. *)
Definition recv_target (t0 : basic_qp) (q : ibv_qp) (wr : ibv_recv_wr) (n : nic)
    : Z * nic * (Z → verbs_ev) :=
  match qsrq_ t0 with
  | Some s => (ibv_post_srq_recv (srq_ s) wr n, EvPostSrqRecv (srq_ s) wr)
  | None => (ibv_post_recv (Some q) wr n, EvPostRecv (Some q) wr)
  end.

Definition expected_recv_wr (v : mr_view) (st : Z) : ibv_recv_wr :=
  if decide (v_addr_ v = 0%Z) then IbvRecvWr st [] 0
  else IbvRecvWr st [IbvSge (v_addr_ v) (u32 (v_length_ v)) (v_key_ v)] 1.

Lemma post_recv_total wr t w :
  ∃ r w', post_recv t wr w = (r, w') ∧ (r = Ret tt ∨ ∃ text, r = Throw (RuntimeError text)).
Proof.
  unfold post_recv, post_recv_rq, post_recv_srq.
  destruct (post_recv_fn t);
    [destruct (ibv_post_recv (qp_ t) wr (w_nic w)) as [rc n] eqn:E
    |destruct (ibv_post_srq_recv (raw_srq_ t) wr (w_nic w)) as [rc n] eqn:E];
    rewrite (bind_vcall _ _ _ _ _ _ E);
    match goal with |- context [check_rc _ ?m ?w] =>
      destruct (check_rc_cases rc m w) as (r & Hr & Hc) end;
    exists r; eexists; (split; [exact Hr|]);
    destruct Hc as [[_ ->]|(_ & text & -> & _)]; eauto.
Qed.

Lemma post_recv_run q psn t0 wr w :
  let '((rc, n), ev) := recv_target t0 q wr (w_nic w) in
  ∃ r, post_recv (created q psn t0) wr w = (r, after w n (ev rc)) ∧
    ((rc = 0%Z ∧ r = Ret tt) ∨
     (rc ≠ 0%Z ∧ ∃ text, r = Throw (RuntimeError text) ∧
        String.length text < kErrorStringBufferSize)).
Proof.
  unfold recv_target, post_recv, post_recv_rq, post_recv_srq, created. simpl.
  destruct (qsrq_ t0) as [s|]; simpl;
    [destruct (ibv_post_srq_recv (srq_ s) wr (w_nic w)) as [rc n] eqn:E
    |destruct (ibv_post_recv (Some q) wr (w_nic w)) as [rc n] eqn:E];
    rewrite (bind_vcall _ _ _ _ _ _ E); apply check_rc_cases.
Qed.
(** A receive on a live queue pair: one work request is posted. *)
Lemma recv_suspend_run (v : mr_view) (st : Z) (a : recv_awaitable) (env : op_env)
    (q : ibv_qp) (psn : Z) (t0 : basic_qp) :
  ra_local_mr_view_ a = v → live_qps env !! ra_qp_ a = Some (created q psn t0) →
  let '((rc, n), ev) := recv_target t0 q (expected_recv_wr v st) (w_nic (op_world env)) in
  ∃ aw, recv_suspend a st env =
      (Ret (bool_decide (rc = 0%Z), aw),
       OpEnv (live_qps env) (after (op_world env) n (ev rc))) ∧
    ra_state_ aw = ra_state_ a ∧
    if decide (rc = 0%Z) then aw = a
    else ∃ text, ra_exception_ aw = Some (RuntimeError text) ∧
           String.length text < kErrorStringBufferSize.
Proof.
  intros <- Hq. set (v := ra_local_mr_view_ a).
  pose proof (post_recv_run q psn t0 (expected_recv_wr v st) (op_world env)) as Hrun.
  destruct (recv_target t0 q (expected_recv_wr v st) (w_nic (op_world env))) as [[rc n] ev].
  destruct Hrun as (r & Hrun & Hr). unfold recv_suspend.
  assert (recv_wr a st = expected_recv_wr v st) as Hwr.
  { unfold recv_wr, expected_recv_wr, view_bool. fold v.
    destruct (decide (v_addr_ v = 0%Z)) as [He|He];
      [rewrite bool_decide_eq_false_2 by (intros Hn; by apply Hn)
      |rewrite bool_decide_eq_true_2 by done]; done. }
  pose proof (post_or_keep_spec (ra_qp_ a) "post_recv: qp expired, use_count=0"
    (λ q, post_recv q (recv_wr a st)) env) as Hpost.
  rewrite Hq in Hpost. destruct Hpost as (r' & w' & Hrun' & Hkeep); [apply post_recv_total|].
  rewrite (bind_ret _ _ _ _ _ Hkeep).
  rewrite Hwr, Hrun in Hrun'. injection Hrun' as <- <-.
  destruct Hr as [[-> ->]|(Hrc & text & -> & Hlen)].
  - exists a. by split_and!.
  - exists (set_ra_exception (Some (RuntimeError text)) a).
    rewrite bool_decide_eq_false_2, decide_False by done. split_and!; try done.
    eauto.
Qed.

(** The same from [await_suspend] of a new awaitable. *)
Lemma recv_suspend_spec (qp : Z) (v : mr_view) (st : Z) (h : coro) (env : op_env)
    (q : ibv_qp) (psn : Z) (t0 : basic_qp) :
  live_qps env !! qp = Some (created q psn t0) →
  let '((rc, n), ev) := recv_target t0 q (expected_recv_wr v st) (w_nic (op_world env)) in
  ∃ aw, (a ← recv_mr qp v; recv_await_suspend a st h) env =
      (Ret (bool_decide (rc = 0%Z), aw),
       OpEnv (live_qps env) (after (op_world env) n (ev rc))) ∧
    coro_handle (ra_state_ aw) = Some h ∧
    if decide (rc = 0%Z) then ra_exception_ aw = None ∧ wr_opcode (ra_state_ aw) = None
    else ∃ text, ra_exception_ aw = Some (RuntimeError text) ∧
           String.length text < kErrorStringBufferSize.
Proof.
  intros Hq. set (a := set_ra_state (set_coro_handle h (operation_state_ctor None))
    (recv_awaitable_view qp v)).
  pose proof (recv_suspend_run v st a env q psn t0 eq_refl Hq) as Hrun.
  destruct (recv_target _ _ _ _) as [[rc n] ev]. destruct Hrun as (aw & Hrun & Hst & Hres).
  exists aw. split; [exact Hrun|]. rewrite Hst. split; [done|].
  destruct (decide (rc = 0%Z)); [by subst aw|done].
Qed.
End posting.

(** ** Properties *)

Section properties.
Context {V : Verbs} {B : Build}.

(** C3: starting any of the six one-sided and two-sided operations on a registered
    buffer makes exactly one call: it posts, on the queue pair, the signaled
    work request with the operation's opcode, local bytes, remote address, remote
    key, immediate data and operands, under the identifier of the awaiting state.
    The coroutine is suspended exactly when the post succeeded; otherwise
    resuming it throws. *)
Theorem send_op_posts (op : send_op) (qp : Z) (v : mr_view) (st : Z) (h : coro)
    (env : op_env) (t : basic_qp) :
  live_qps env !! qp = Some t → op_valid t op →
  ∃ rc n aw,
    ibv_post_send (qp_ t) (expected_wr op v st) (w_nic (op_world env)) = (rc, n) ∧
    (a ← issue op qp (buf_view v); send_await_suspend a st h) env =
      (Ret (bool_decide (rc = 0%Z), aw),
       OpEnv (live_qps env)
         (after (op_world env) n (EvPostSend (qp_ t) (expected_wr op v st) rc))) ∧
    coro_handle (sa_state_ aw) = Some h ∧
    (rc = 0%Z → sa_exception_ aw = None) ∧
    (rc ≠ 0%Z → ∃ e, fitting e ∧ ∀ S (s : S), send_await_resume aw s = (Throw e, s)).
Proof.
  intros Hq Hv%op_valid_passes.
  destruct (ibv_post_send (qp_ t) (expected_wr op v st) (w_nic (op_world env)))
    as [rc n] eqn:Hop.
  destruct (send_suspend_spec op qp v _ st env t rc n
    (fresh_coro op qp v _ h (fresh_view op qp v)) Hq Hv Hop)
    as (aw & Hrun & Hch & _ & Hcases & _).
  exists rc, n, aw. split; [done|]. split.
  { rewrite (bind_ret _ _ _ _ _ (issue_make op qp (buf_view v) env t Hq Hv)). exact Hrun. }
  split; [done|]. destruct Hcases as [(-> & Hex & _)|(Hrc & text & Hex & Hlen)].
  - by split.
  - split; [done|]. intros _. exists (RuntimeError text). split; [by exists text|].
    intros S s. unfold send_await_resume. by rewrite Hex.
Qed.

(** C31: when the work request of an operation was posted, the completion decides what
    the coroutine gets: for a failing status an exception; for success, the bytes
    read for a read and 8-byte atomics, the bytes posted for a write, and 0 for a
    send. *)
Theorem send_op_result (op : send_op) (qp : Z) (v : mr_view) (st : Z) (h : coro)
    (env env' : op_env) (t : basic_qp) (aw : send_awaitable) :
  live_qps env !! qp = Some t → op_valid t op →
  (a ← issue op qp (buf_view v); send_await_suspend a st h) env = (Ret (true, aw), env') →
  ∀ wc S (s : S),
    let aw' := set_sa_state (set_from_wc wc (sa_state_ aw)) aw in
    if decide (wc_status wc = IBV_WC_SUCCESS)
    then send_await_resume aw' s = (Ret (expected_result op v wc), s)
    else ∃ e, fitting e ∧ send_await_resume aw' s = (Throw e, s).
Proof.
  intros Hq Hv%op_valid_passes Hstart wc S s.
  destruct (ibv_post_send (qp_ t) (expected_wr op v st) (w_nic (op_world env)))
    as [rc n] eqn:Hop.
  destruct (send_suspend_spec op qp v _ st env t rc n
    (fresh_coro op qp v _ h (fresh_view op qp v)) Hq Hv Hop)
    as (aw0 & Hrun & Hch & _ & Hcases & Hres).
  rewrite (bind_ret _ _ _ _ _ (issue_make op qp (buf_view v) env t Hq Hv)) in Hstart.
  unfold send_await_suspend in Hstart. simpl in Hstart, Hrun. rewrite Hrun in Hstart.
  injection Hstart as Hrc -> _. apply bool_decide_eq_true_1 in Hrc.
  destruct Hcases as [(_ & Hex & _)|(? & _)]; [|done].
  unfold send_await_resume, send_resume. cbn [sa_exception_ sa_state_ set_sa_state]. rewrite Hex.
  assert (os_wc_status (set_from_wc wc (sa_state_ aw)) = wc_status wc) as ->.
  { unfold set_from_wc. destruct (sa_state_ aw) as [[[]|] ? ? ? ? ?]; done. }
  destruct (decide (wc_status wc = IBV_WC_SUCCESS)) as [Hst|Hst].
  - rewrite Hst, (bind_ret _ _ _ _ _ (check_wc_status_ok _ s)), Hres; done.
  - destruct (check_wc_status_throw _ "failed to send" s Hst) as (e & He & Hfit).
    exists e. split; [done|]. by rewrite (bind_throw _ _ _ _ _ He).
Qed.

(** An awaitable that outlives its queue pair makes no call: suspension is refused
    and resuming throws the "qp expired" exception. *)
Theorem send_qp_expired (op : send_op) (qp : Z) (v : mr_view) (st : Z) (h : coro)
    (env env1 env2 : op_env) (t : basic_qp) (a : send_awaitable) :
  live_qps env !! qp = Some t → op_valid t op →
  issue op qp (buf_view v) env = (Ret a, env1) → live_qps env2 !! qp = None →
  ∃ aw, send_await_suspend a st h env2 = (Ret (false, aw), env2) ∧
    ∀ S (s : S), send_await_resume aw s =
      (Throw (RuntimeError "post_send: qp expired, use_count=0"), s).
Proof.
  intros Hq Hv%op_valid_passes Hissue Hgone. rewrite (issue_make op qp _ env t Hq Hv) in Hissue.
  injection Hissue as <- _.
  destruct (send_fill_spec op qp v _ t st env2 (fresh_coro op qp v _ h (fresh_view op qp v)) Hv)
    as (a' & Hfill & Hqp & _).
  unfold send_await_suspend, send_suspend. rewrite (bind_ret _ _ _ _ _ Hfill). rewrite Hqp.
  pose proof (post_or_keep_spec qp "post_send: qp expired, use_count=0"
    (λ q, post_send q (expected_wr op v st)) env2) as Hpost.
  rewrite Hgone in Hpost. specialize (Hpost (post_send_total _)).
  rewrite (bind_ret _ _ _ _ _ Hpost). by eexists.
Qed.

(** A receive on a constructed queue pair posts one work request, to the shared
    receive queue if the object was given one and to its own queue otherwise, with
    the bytes of the buffer, or without a buffer for a null view; the coroutine is
    suspended exactly when the post succeeded. *)
Theorem recv_posts (qp : Z) (v : mr_view) (st : Z) (h : coro) (env : op_env)
    (q : ibv_qp) (psn : Z) (t0 : basic_qp) :
  live_qps env !! qp = Some (created q psn t0) →
  let '((rc, n), ev) := recv_target t0 q (expected_recv_wr v st) (w_nic (op_world env)) in
  ∃ aw, (a ← recv_mr qp v; recv_await_suspend a st h) env =
      (Ret (bool_decide (rc = 0%Z), aw),
       OpEnv (live_qps env) (after (op_world env) n (ev rc))) ∧
    coro_handle (ra_state_ aw) = Some h ∧
    if decide (rc = 0%Z) then ra_exception_ aw = None ∧ wr_opcode (ra_state_ aw) = None
    else ∃ e, fitting e ∧ ∀ S (s : S), recv_await_resume aw s = (Throw e, s).
Proof.
  intros Hq. pose proof (recv_suspend_spec qp v st h env q psn t0 Hq) as Hs.
  destruct (recv_target t0 q (expected_recv_wr v st) (w_nic (op_world env))) as [[rc n] ev].
  destruct Hs as (aw & Hrun & Hh & Haw). exists aw. split; [exact Hrun|]. split; [done|].
  case_decide; [done|]. destruct Haw as (text & Hex & Hlen).
  exists (RuntimeError text). split; [by exists text|]. intros S s.
  unfold recv_await_resume. by rewrite Hex.
Qed.

(** After a successful receive the coroutine gets the number of bytes received, and
    the immediate data exactly when the completion carries some; after a failing
    one, an exception. *)
Theorem recv_result_spec (aw : recv_awaitable) (wc : ibv_wc) S (s : S) :
  ra_exception_ aw = None → wr_opcode (ra_state_ aw) = None →
  let aw' := set_ra_state (set_from_wc wc (ra_state_ aw)) aw in
  if decide (wc_status wc = IBV_WC_SUCCESS)
  then ∃ imm, recv_await_resume aw' s = (Ret (wc_byte_len wc, imm), s) ∧
    imm = (if decide (Z.land (wc_flags wc) IBV_WC_WITH_IMM = 0%Z) then None
           else Some (wc_imm_data wc))
  else ∃ e, fitting e ∧ recv_await_resume aw' s = (Throw e, s).
Proof.
  intros Hex Hop. unfold recv_await_resume, recv_resume.
  cbn [ra_exception_ ra_state_ set_ra_state]. rewrite Hex.
  unfold set_from_wc. cbn [wr_opcode]. rewrite Hop. cbn [os_wc_status os_wc_flags os_imm_data os_byte_len].
  destruct (decide (wc_status wc = IBV_WC_SUCCESS)) as [Hst|Hst].
  - rewrite Hst, (bind_ret _ _ _ _ _ (check_wc_status_ok _ s)).
    destruct (decide (Z.land (wc_flags wc) IBV_WC_WITH_IMM = 0%Z)) as [Hf|Hf];
      [rewrite bool_decide_eq_false_2 by tauto|rewrite bool_decide_eq_true_2 by done]; eauto.
  - destruct (check_wc_status_throw _ "failed to recv" s Hst) as (e & He & Hfit).
    exists e. split; [done|]. by rewrite (bind_throw _ _ _ _ _ He).
Qed.

(** C32: an operation on an unregistered buffer registers exactly that buffer with the
    queue pair's protection domain, works on the whole region, and its destructor
    deregisters that region, once.  When the registration fails the process ends:
    the function that builds the awaitable is [noexcept]. *)
Theorem span_registration (op : send_op) (qp : Z) (buffer : Z * Z) (env : op_env)
    (t : basic_qp) :
  live_qps env !! qp = Some t → op_valid t op →
  let '(r, env') := issue op qp (buf_span buffer) env in
  live_qps env' = live_qps env ∧
  match r with
  | Ret a => ∃ m,
      calls (op_world env) [EvRegMr buffer.1 buffer.2 default_access (Some m)] (op_world env') ∧
      sa_local_mr_view_ a =
        MrView (ibv_mr_addr m) (Z.min size_max (u64 (ibv_mr_length m))) (ibv_mr_lkey m) ∧
      ∀ w, ∃ rc w', send_awaitable_dtor a w = (Ret tt, w') ∧ calls w [EvDeregMr m rc] w'
  | Terminate =>
      calls (op_world env) [EvRegMr buffer.1 buffer.2 default_access None] (op_world env')
  | _ => False
  end.
Proof.
  intros Hq Hv%op_valid_passes. rewrite (issue_make op qp (buf_span buffer) env t Hq Hv).
  unfold make_send_awaitable, make_send_awaitable_span, this_qp, lock, send_awaitable_span,
    make_unique_mr, reg_mr, in_world.
  destruct (ibv_reg_mr (pd_ (qpd_ t)) buffer.1 buffer.2 default_access (w_nic (op_world env)))
    as [[m|] n] eqn:Hop; munfold; simpl; rewrite Hq; unfold vcall; simpl; rewrite Hop; simpl;
    (split; [done|]); [|done].
  exists m. split_and!; [done|by rewrite ?Z.add_0_r, ?Z.sub_0_r|]. intros w.
  unfold send_awaitable_dtor, unique_mr_dtor, local_mr_dtor. simpl. apply destroy_calls.
Qed.

(** The length of a work request is 32 bits wide and cut without a check: a view of
    4 GiB or more is posted with a length that is not its own, and the write it
    starts still completes normally, reporting the cut length. *)
Theorem long_view_truncated (qp : Z) (v remote : mr_view) (st : Z) (h : coro)
    (env env' : op_env) (t : basic_qp) (aw : send_awaitable) :
  live_qps env !! qp = Some t → v_addr_ remote ≠ 0%Z → (2 ^ 32 ≤ v_length_ v)%Z →
  (a ← write_mr qp remote v; send_await_suspend a st h) env = (Ret (true, aw), env') →
  ∃ wr sge, calls (op_world env) [EvPostSend (qp_ t) wr 0] (op_world env') ∧
    swr_sg_list wr = [sge] ∧ (sge_length sge < v_length_ v)%Z ∧
    ∀ wc, wc_status wc = IBV_WC_SUCCESS →
      send_await_resume (set_sa_state (set_from_wc wc (sa_state_ aw)) aw) tt =
        (Ret (sge_length sge), tt).
Proof.
  intros Hq Hr Hlen Hrun. set (op := OpWrite remote).
  apply (op_valid_passes t op) in Hr.
  destruct (ibv_post_send (qp_ t) (expected_wr op v st) (w_nic (op_world env)))
    as [rc n] eqn:Hop.
  destruct (send_suspend_spec op qp v _ st env t rc n
    (fresh_coro op qp v _ h (fresh_view op qp v)) Hq Hr Hop)
    as (aw0 & Hrun0 & _ & _ & Hcases & Hres).
  change (write_mr qp remote v) with (issue op qp (buf_view v)) in Hrun.
  rewrite (bind_ret _ _ _ _ _ (issue_make op qp (buf_view v) env t Hq Hr)) in Hrun.
  unfold send_await_suspend in Hrun. simpl in Hrun, Hrun0. rewrite Hrun0 in Hrun.
  injection Hrun as Hrc <- <-. apply bool_decide_eq_true_1 in Hrc as ->.
  destruct Hcases as [(_ & Hex & _)|(? & _)]; [|done].
  exists (expected_wr op v st). eexists. split_and!; try done.
  - simpl. pose proof (u32_range (v_length_ v)). lia.
  - intros wc Hwc. unfold send_await_resume, send_resume.
    cbn [sa_exception_ sa_state_ set_sa_state]. rewrite Hex.
    assert (os_wc_status (set_from_wc wc (sa_state_ aw0)) = IBV_WC_SUCCESS) as ->.
    { unfold set_from_wc. by destruct (sa_state_ aw0) as [[[]|] ? ? ? ? ?]. }
    by rewrite (bind_ret _ _ _ _ _ (check_wc_status_ok _ tt)), Hres.
Qed.
End properties.

(** ** Witnesses *)

#[local] Instance wit_build : Build := {| NDEBUG := false |}.

Definition wit_env : op_env (V:=good) := OpEnv (V:=good) {[7%Z := wit_qp]} wit_qp_world.
Definition wit_local : mr_view := MrView 4096 64 1001.
Definition wit_remote : mr_view := MrView 8192 64 2002.

Lemma send_op_posts_witness :
  ∃ aw env', (a ← issue (V:=good) (OpWriteImm wit_remote 5) 7 (buf_view wit_local);
              send_await_suspend (V:=good) a 300 77%Z) wit_env = (Ret (true, aw), env') ∧
    w_trace (op_world env') =
      [EvPostSend (Some (IbvQp 1 101))
         (IbvSendWr 300 [IbvSge 4096 64 1001] 1 IBV_WR_RDMA_WRITE_WITH_IMM
            [IBV_SEND_SIGNALED] 5 (wr_rdma 8192 2002)) 0].
Proof.
  destruct (send_op_posts (V:=good) (OpWriteImm wit_remote 5) 7 wit_local 300 77%Z wit_env wit_qp)
    as (rc & n & aw & Hop & Hrun & _); [reflexivity|vm_compute; congruence|].
  assert (rc = 0%Z) as -> by (vm_compute in Hop; congruence).
  eexists aw, _. split; [exact Hrun|]. reflexivity.
Defined.

Lemma send_op_result_witness :
  ∃ aw env', (a ← issue (V:=good) (OpRead wit_remote) 7 (buf_view wit_local);
         send_await_suspend (V:=good) a 300 77%Z) wit_env = (Ret (true, aw), env') ∧
    send_await_resume (V:=good)
      (set_sa_state (set_from_wc (IbvWc 300 IBV_WC_SUCCESS 64 0 0) (sa_state_ aw)) aw) tt =
      (Ret 64%Z, tt).
Proof.
  eexists _, _. split; [apply run_fst; vm_compute; reflexivity|].
  exact (send_op_result (V:=good) (OpRead wit_remote) 7 wit_local 300 77%Z wit_env _ wit_qp _
    eq_refl ltac:(vm_compute; congruence) (run_fst _ _ _ ltac:(vm_compute; reflexivity))
    (IbvWc 300 IBV_WC_SUCCESS 64 0 0) unit tt).
Defined.

Lemma send_qp_expired_witness :
  ∃ a aw, (issue (V:=good) OpSend 7 (buf_view wit_local) wit_env).1 = Ret a ∧
    send_await_suspend (V:=good) a 300 77%Z (OpEnv ∅ wit_qp_world) =
      (Ret (false, aw), OpEnv ∅ wit_qp_world) ∧
    send_await_resume (V:=good) aw tt =
      (Throw (RuntimeError "post_send: qp expired, use_count=0"), tt).
Proof.
  destruct (send_qp_expired (V:=good) OpSend 7 wit_local 300 77%Z wit_env wit_env
    (OpEnv ∅ wit_qp_world) wit_qp (send_awaitable_view 7 wit_local IBV_WR_SEND args_send))
    as (aw & Hrun & Hres); [reflexivity|exact I|reflexivity|reflexivity|].
  eexists _, aw. split; [reflexivity|]. split; [exact Hrun|]. apply Hres.
Defined.

Lemma recv_posts_witness :
  ∃ aw env', (a ← recv_mr (V:=good) 7 mr_view_null;
              recv_await_suspend (V:=good) a 300 77%Z) wit_env = (Ret (true, aw), env') ∧
    w_trace (op_world env') = [EvPostRecv (Some (IbvQp 1 101)) (IbvRecvWr 300 [] 0) 0].
Proof.
  destruct (recv_posts (V:=good) 7 mr_view_null 300 77%Z wit_env (IbvQp 1 101) 1
    (new_qp wit_qpd wit_cq wit_cq None default_qp_config)) as (aw & Hrun & _); [reflexivity|].
  eexists aw, _. split; [exact Hrun|]. reflexivity.
Defined.

Lemma recv_result_spec_witness :
  ∃ imm, recv_await_resume (V:=good)
      (set_ra_state (set_from_wc (IbvWc 300 IBV_WC_SUCCESS 12 9 2)
         (ra_state_ (recv_awaitable_view 7 wit_local))) (recv_awaitable_view 7 wit_local)) tt =
    (Ret (12%Z, imm), tt) ∧ imm = Some 9%Z.
Proof.
  apply (recv_result_spec (V:=good) (recv_awaitable_view 7 wit_local)
    (IbvWc 300 IBV_WC_SUCCESS 12 9 2) unit tt); reflexivity.
Defined.

Lemma span_registration_witness :
  ∃ a env', issue (V:=good) OpSend 7 (buf_span (4096%Z, 64%Z)) wit_env = (Ret a, env') ∧
    ∃ m, calls wit_qp_world [EvRegMr 4096 64 default_access (Some m)] (op_world env') ∧
      ∀ w, ∃ rc w', send_awaitable_dtor (V:=good) a w = (Ret tt, w') ∧
        calls w [EvDeregMr m rc] w'.
Proof.
  eexists _, _. split; [apply run_fst; vm_compute; reflexivity|].
  destruct (span_registration (V:=good) OpSend 7 (4096%Z, 64%Z) wit_env wit_qp eq_refl I)
    as (_ & m & Hc & _ & Hd).
  exists m. split; [exact Hc|exact Hd].
Defined.

Definition wit_long : mr_view := MrView 4096 4294967301 1001.

Lemma long_view_truncated_witness :
  ∃ aw env' wr sge,
    (a ← write_mr (V:=good) 7 wit_remote wit_long;
     send_await_suspend (V:=good) a 300 77%Z) wit_env = (Ret (true, aw), env') ∧
    calls wit_qp_world [EvPostSend (Some (IbvQp 1 101)) wr 0] (op_world env') ∧
    swr_sg_list wr = [sge] ∧ (sge_length sge < 4294967301)%Z.
Proof.
  eexists _, _.
  destruct (long_view_truncated (V:=good) 7 wit_long wit_remote 300 77%Z wit_env _ wit_qp _
    eq_refl ltac:(vm_compute; congruence) ltac:(vm_compute; congruence)
    (run_fst _ _ _ ltac:(vm_compute; reflexivity))) as (wr & sge & Hc & Hs & Hlt & _).
  exists wr, sge. split; [apply run_fst; vm_compute; reflexivity|]. split; [exact Hc|]. split; [exact Hs|exact Hlt].
Defined.
