(* ===== verification/Executor.v ===== *)
(** * executor.h, executor.cc, cq_poller.cc: dispatching completions

    [basic_executor::process_wc] is a template over the completion token; its
    specialisations of [execute_callback] are the instances of the class
    [CompletionToken]: [NativeToken] here, the asio one in AsioAwait.v.  The
    poller is written, and its theorem proved, against the class and its laws.  What
    a resumed coroutine does is client code: a parameter. *)

From S2P Require Import Prelude Verbs RefNic Errors Device Resources Mr Qp Operations.
From stdpp Require Import options.

(** ** The interface of a completion token *)

Section token.
Context {V : Verbs}.

(** A state with the shared world in it, and the completions executed so far. *)
Class CompletionToken (S : Type) := {
  token_world : S → world;
  set_token_world : world → S → S;
  token_done : S → list ibv_wc;
  execute_callback : ibv_wc → M S unit }.

(** The completions the library handed out, in order. *)
Definition polled (tr : list verbs_ev) : list ibv_wc :=
  tr ≫= λ e, match e with EvPollCq _ _ wcs => wcs | _ => [] end.

(** Executing a callback accounts for its completion and polls nothing; it does not
    throw, being [noexcept]. *)
Class CompletionTokenLaws (S : Type) `{T : CompletionToken S} := {
  token_get_set w s : token_world (set_token_world w s) = w;
  token_done_set w s : token_done (set_token_world w s) = token_done s;
  execute_callback_done wc s r s' :
    execute_callback wc s = (r, s') → (∀ e, r ≠ Throw e) ∧
    (r = Ret tt → token_done s' = token_done s ++ [wc] ∧
       polled (w_trace (token_world s')) = polled (w_trace (token_world s))) }.
End token.

(** ** basic_executor and basic_cq_poller *)

Section poller.
Context {V : Verbs} {S : Type} `{T : !CompletionToken S}.

Fixpoint process_wc_loop (wc : list ibv_wc) : M S unit :=
  match wc with
  | [] => mret tt
  | w :: wc => execute_callback w ;; process_wc_loop wc
  end.

Definition process_wc (wc : list ibv_wc) : M S unit := noexcept (process_wc_loop wc).

Record cq_poller := CqPoller { wc_vec_ : list ibv_wc; poller_cq_ : cq; p_state : S }.

Definition zero_wc : ibv_wc := IbvWc 0 IBV_WC_SUCCESS 0 0 0.

(** The constructor: [wc_vec_(batch_size)]; the thread it starts runs [worker]. *)
Definition cq_poller_ctor (c : cq) (batch_size : nat) (s : S) : cq_poller :=
  CqPoller (replicate batch_size zero_wc) c s.

Definition in_token {A} (m : M S A) : M cq_poller A :=
  zoom p_state (λ s p, CqPoller (wc_vec_ p) (poller_cq_ p) s) m.

(** [cq_->poll(wc_vec_)]. *)
Definition poll_vec : M cq_poller Z :=
  p ← mget;
  r ← in_token (zoom token_world set_token_world (cq_poll (poller_cq_ p) (wc_vec_ p)));
  let '(nr_wc, vec) := r in
  mmodify (λ p, CqPoller vec (poller_cq_ p) (p_state p)) ;;
  mret nr_wc.

Inductive worker_exit :=
| Stopped
| PollFailed (e : exn)
| StillRunning.

(** The loop of [worker]: [stops] are the results of the successive tests of the stop
    token; [StillRunning] when they are used up. *)
Fixpoint worker (stops : list bool) : M cq_poller worker_exit :=
  match stops with
  | [] => mret StillRunning
  | true :: _ => mret Stopped
  | false :: stops =>
      failed ← try_catch
        (nr_wc ← poll_vec;
         if bool_decide (nr_wc = 0%Z) then mret None
         else p ← mget;
              in_token (process_wc (take (Z.to_nat nr_wc) (wc_vec_ p))) ;;
              mret None)
        (λ e, match e with
              | RuntimeError _ | SystemError _ => mret (Some e)
              | _ => mthrow_exn e
              end);
      match failed with
      | None => worker stops
      | Some e => mret (PollFailed e)
      end
  end.
End poller.

(** ** The native token *)

Section native.
Context {V : Verbs} {C : Type}.

(** The operation states by address, the environment, and the client's own state;
    [ns_done] and [ns_resumed] record what was executed and resumed. *)
Record native_state := NativeState {
  ns_ops : gmap Z operation_state;
  ns_env : op_env;
  ns_client : C;
  ns_done : list ibv_wc;
  ns_resumed : list (coro * operation_state) }.

(** What the client's coroutine does from its resumption to its next suspension. *)
Variable run_coro : coro → M native_state unit.

(** [operation_state::resume]. *)
Definition os_resume (s : operation_state) : M native_state unit :=
  h ← deref (coro_handle s);
  mmodify (λ n, NativeState (ns_ops n) (ns_env n) (ns_client n) (ns_done n)
                  (ns_resumed n ++ [(h, s)])) ;;
  run_coro h.

(** [execute_callback<use_native_awaitable_t>]: [wr_id] is the address of a state. *)
Definition execute_callback_native (wc : ibv_wc) : M native_state unit :=
  noexcept
    (mmodify (λ n, NativeState (ns_ops n) (ns_env n) (ns_client n) (ns_done n ++ [wc])
                     (ns_resumed n)) ;;
     n ← mget;
     state ← deref (ns_ops n !! wc_wr_id wc);
     let state := set_from_wc wc state in
     mmodify (λ n, NativeState (<[ wc_wr_id wc := state ]> (ns_ops n)) (ns_env n)
                     (ns_client n) (ns_done n) (ns_resumed n)) ;;
     os_resume state).

#[export] Instance NativeToken : CompletionToken native_state := {
  token_world n := op_world (ns_env n);
  set_token_world w n := NativeState (ns_ops n) (OpEnv (live_qps (ns_env n)) w)
                           (ns_client n) (ns_done n) (ns_resumed n);
  token_done := ns_done;
  execute_callback := execute_callback_native }.

(** What the library relies on in its clients: a resumed coroutine comes back to the
    executor, does not poll the completion queue itself, and leaves alone the
    states of the operations other coroutines wait for. *)
Class ClientLaws := {
  run_coro_returns h n : ∃ n', run_coro h n = (Ret tt, n');
  run_coro_frame h n n' :
    run_coro h n = (Ret tt, n') →
    ns_done n' = ns_done n ∧ ns_resumed n' = ns_resumed n ∧
    polled (w_trace (op_world (ns_env n'))) = polled (w_trace (op_world (ns_env n))) ∧
    ∀ a s, ns_ops n !! a = Some s → coro_handle s ≠ Some h → ns_ops n' !! a = Some s }.
End native.

(** ** Lemmas: the poller, for any token *)

Section poller_lemmas.
Context {V : Verbs} {S : Type} `{T : !CompletionToken S} `{TL : !CompletionTokenLaws S}
  {L : CqLaws V}.

Lemma process_wc_done wcs s r s' :
  process_wc wcs s = (r, s') → (∀ e, r ≠ Throw e) ∧
  (r = Ret tt → token_done s' = token_done s ++ wcs ∧
     polled (w_trace (token_world s')) = polled (w_trace (token_world s))).
Proof using TL L.
  assert (process_wc wcs s = process_wc_loop wcs s ∧
    ∀ r s', process_wc_loop wcs s = (r, s') → (∀ e, r ≠ Throw e) ∧
    (r = Ret tt → token_done s' = token_done s ++ wcs ∧
       polled (w_trace (token_world s')) = polled (w_trace (token_world s)))) as [-> H];
    [|apply H].
  assert (∀ r s', process_wc_loop wcs s = (r, s') → (∀ e, r ≠ Throw e) ∧
    (r = Ret tt → token_done s' = token_done s ++ wcs ∧
       polled (w_trace (token_world s')) = polled (w_trace (token_world s)))) as H.
  { clear r s'. revert s. induction wcs as [|wc wcs IH]; intros s r s'; simpl.
    { intros [= <- <-]. split; [done|]. by rewrite app_nil_r. }
    destruct (execute_callback wc s) as [r1 s1] eqn:Hex.
    destruct (execute_callback_done _ _ _ _ Hex) as [Hno Hret].
    unfold mbind, M_bind. rewrite Hex. destruct r1 as [[]|e| | |]; simpl;
      try (intros [= <- <-]; by split).
    intros Hrun. destruct (Hret eq_refl) as [Hd Hp]. destruct (IH _ _ _ Hrun) as [Hno' Hret'].
    split; [done|]. intros Hr. destruct (Hret' Hr) as [Hd' Hp'].
    by rewrite Hd', Hd, <-app_assoc, Hp', Hp. }
  split; [|done]. unfold process_wc, noexcept.
  destruct (process_wc_loop wcs s) as [[[]|e| | |] s1] eqn:Hrun; try done.
  destruct (H _ _ eq_refl) as [Hno _]. by destruct (Hno e).
Qed.

Lemma poll_vec_spec p r p' :
  wc_vec_ p ≠ [] → (Z.of_nat (length (wc_vec_ p)) < 2 ^ 31)%Z → poll_vec p = (r, p') →
  token_done (p_state p') = token_done (p_state p) ∧
  length (wc_vec_ p') = length (wc_vec_ p) ∧
  match r with
  | Ret nr => ∃ wcs, nr = Z.of_nat (length wcs) ∧ take (Z.to_nat nr) (wc_vec_ p') = wcs ∧
      polled (w_trace (token_world (p_state p'))) =
        polled (w_trace (token_world (p_state p))) ++ wcs
  | Throw e => (∃ text, e = RuntimeError text) ∧
      polled (w_trace (token_world (p_state p'))) = polled (w_trace (token_world (p_state p)))
  | _ => False
  end.
Proof using TL L.
  intros Hne Hlen. unfold poll_vec, in_token. munfold. simpl.
  destruct (cq_poll (poller_cq_ p) (wc_vec_ p) (token_world (p_state p))) as [r1 w1] eqn:Hpoll.
  destruct (cq_poll_spec _ _ _ _ _ Hne Hlen Hpoll) as (rc & wcs & Hc & Hr).
  assert (polled (w_trace (token_world (set_token_world w1 (p_state p)))) =
    polled (w_trace (token_world (p_state p))) ++ wcs) as Hpolled.
  { rewrite token_get_set, Hc. unfold polled.
    rewrite bind_app. simpl. by rewrite app_nil_r. }
  destruct r1 as [[nr vec]|e| | |]; try done; simpl; intros [= <- <-]; simpl;
    rewrite token_done_set; (split; [done|]).
  - destruct Hr as (-> & -> & Hle & ->). split.
    { rewrite length_app, length_drop. lia. }
    exists wcs. split_and!; [done| |apply Hpolled]. by rewrite Nat2Z.id, take_app_length.
  - destruct Hr as (_ & -> & text & -> & _). split; [done|]. split; [by eexists|].
    by rewrite Hpolled, app_nil_r.
Qed.

(** One iteration: whatever is polled is executed. *)
Lemma worker_spec stops p r p' :
  wc_vec_ p ≠ [] → (Z.of_nat (length (wc_vec_ p)) < 2 ^ 31)%Z →
  worker stops p = (r, p') →
  (∀ e, r ≠ Throw e) ∧
  ∀ ex, r = Ret ex → (true ∈ stops → ex ≠ StillRunning) ∧
    ∃ wcs, token_done (p_state p') = token_done (p_state p) ++ wcs ∧
      polled (w_trace (token_world (p_state p'))) =
        polled (w_trace (token_world (p_state p))) ++ wcs.
Proof using TL L.
  revert p. induction stops as [|[|] stops IH]; intros p Hne Hlen; simpl.
  - intros [= <- <-]. split; [done|]. intros ex [= <-]. split; [by intros ?%not_elem_of_nil|].
    exists []. by rewrite !app_nil_r.
  - intros [= <- <-]. split; [done|]. intros ex [= <-]. split; [done|].
    exists []. by rewrite !app_nil_r.
  - unfold in_token, mbind, M_bind, try_catch, mget, mret, M_ret, zoom, mthrow_exn.
    destruct (poll_vec p) as [r1 p1] eqn:Hpoll.
    destruct (poll_vec_spec _ _ _ Hne Hlen Hpoll) as (Hd1 & Hlen1 & Hr1).
    destruct r1 as [nr|e| | |]; try done; simpl.
    + destruct Hr1 as (wcs & -> & Htake & Hp1).
      assert (wc_vec_ p1 ≠ []) as Hne1 by (intros Hn; rewrite Hn in Hlen1; by destruct (wc_vec_ p)).
      case_bool_decide as Hnr.
      * assert (wcs = []) as -> by (by destruct wcs). intros Hrun.
        rewrite app_nil_r in Hp1. apply IH in Hrun; [|done|by rewrite Hlen1].
        rewrite Hd1, Hp1 in Hrun. destruct Hrun as [Hno Hret]. split; [done|].
        intros ex ->. destruct (Hret ex eq_refl) as [Hex ?]. split; [|done].
        intros Hin. apply Hex. by apply elem_of_cons in Hin as [?|?].
      * cbv beta iota. rewrite Htake. destruct (process_wc wcs (p_state p1)) as [r2 s2] eqn:Hproc.
        destruct (process_wc_done _ _ _ _ Hproc) as [Hno2 Hret2].
        destruct r2 as [[]|e| | |]; simpl; try (intros [= <- <-]; by split).
        2: { by destruct (Hno2 e). }
        destruct (Hret2 eq_refl) as [Hd2 Hp2]. intros Hrun.
        apply IH in Hrun; [|done|simpl; by rewrite Hlen1]. simpl in Hrun.
        destruct Hrun as [Hno Hret]. split; [done|].
        intros ex ->. destruct (Hret ex eq_refl) as [Hex (wcs' & Hd & Hp)]. split.
        { intros Hin. apply Hex. by apply elem_of_cons in Hin as [?|?]. }
        exists (wcs ++ wcs'). by rewrite Hd, Hp, Hd2, Hp2, Hd1, Hp1, !app_assoc.
    + destruct Hr1 as ((text & ->) & Hp1). intros [= <- <-]. split; [done|].
      intros ex [= <-]. split; [done|]. exists []. by rewrite !app_nil_r.
Qed.
End poller_lemmas.

(** ** Lemmas: the native token *)

Section native_lemmas.
Context {V : Verbs} {C : Type}.
Variable run_coro : coro → M (native_state (C:=C)) unit.
Context {CL : ClientLaws run_coro}.

(** A completion whose identifier is the address of a suspended operation. *)
Lemma execute_native_ok wc n s h :
  ns_ops n !! wc_wr_id wc = Some s → coro_handle s = Some h →
  ∃ n', execute_callback_native run_coro wc n = (Ret tt, n') ∧
    ns_done n' = ns_done n ++ [wc] ∧
    ns_resumed n' = ns_resumed n ++ [(h, set_from_wc wc s)] ∧
    polled (w_trace (op_world (ns_env n'))) = polled (w_trace (op_world (ns_env n))) ∧
    ∀ a s', ns_ops n !! a = Some s' → coro_handle s' ≠ Some h → ns_ops n' !! a = Some s'.
Proof using CL.
  intros Hs Hh. unfold execute_callback_native, os_resume. munfold. simpl. rewrite Hs. simpl.
  assert (coro_handle (set_from_wc wc s) = Some h) as ->.
  { unfold set_from_wc. by destruct s as [[[]|] ? ? ? ? ?]. }
  simpl. match goal with |- context [run_coro h ?m] => set (n1 := m) end.
  destruct (run_coro_returns _ h n1) as [n' Hrun]. rewrite Hrun.
  destruct (run_coro_frame _ h n1 n' Hrun) as (Hd & Hr & Hp & Hf).
  exists n'. split_and!; try done. intros a s' Ha Hne. apply Hf; [|done]. simpl.
  rewrite lookup_insert_ne; [done|]. intros <-. congruence.
Qed.

#[export] Instance NativeTokenLaws :
  CompletionTokenLaws (T:=NativeToken run_coro) native_state.
Proof using CL.
  split; [done..|]. intros wc n r n'. simpl.
  destruct (ns_ops n !! wc_wr_id wc) as [s|] eqn:Hs.
  - destruct (coro_handle s) as [h|] eqn:Hh.
    + destruct (execute_native_ok wc n s h Hs Hh) as (n1 & -> & Hd & _ & Hp & _).
      intros [= <- <-]. by split.
    + unfold execute_callback_native, os_resume. munfold. simpl. rewrite Hs. simpl.
      assert (coro_handle (set_from_wc wc s) = None) as ->.
      { unfold set_from_wc. by destruct s as [[[]|] ? ? ? ? ?]. }
      intros [= <- <-]. by split.
  - unfold execute_callback_native. munfold. simpl. rewrite Hs. intros [= <- <-]. by split.
Qed.

(** The operation a completion belongs to, and how it is resumed. *)
Definition resumes (n : native_state (C:=C)) (wc : ibv_wc) (x : coro * operation_state) : Prop :=
  ∃ s, ns_ops n !! wc_wr_id wc = Some s ∧ coro_handle s = Some x.1 ∧ x.2 = set_from_wc wc s.

Lemma process_native_loop wcs rs (n : native_state (C:=C)) :
  Forall2 (resumes n) wcs rs → NoDup rs.*1 →
  ∃ n', process_wc_loop (T:=NativeToken run_coro) wcs n = (Ret tt, n') ∧
    ns_done n' = ns_done n ++ wcs ∧ ns_resumed n' = ns_resumed n ++ rs.
Proof using CL.
  revert rs n. induction wcs as [|wc wcs IH]; intros rs n Hall Hnd.
  { apply Forall2_nil_inv_l in Hall as ->. exists n. by rewrite !app_nil_r. }
  apply Forall2_cons_inv_l in Hall as ([h s'] & rs' & (s & Hs & Hh & Heq) & Hall & ->).
  simpl in Hh, Heq. subst s'. rewrite fmap_cons in Hnd. apply NoDup_cons in Hnd as [Hnin Hnd].
  destruct (execute_native_ok wc n s h Hs Hh) as (n1 & Hex & Hd & Hr & _ & Hf).
  cbn [process_wc_loop]. rewrite (bind_ret _ _ _ _ _ Hex).
  destruct (IH rs' n1) as (n' & Hrun & Hd' & Hr'); [|done|].
  - apply Forall2_same_length_lookup. split; [by eapply Forall2_length|].
    intros i w x Hw Hx. pose proof (Forall2_lookup_lr _ _ _ _ _ _ Hall Hw Hx) as (s2 & H1 & H2 & H3).
    exists s2. split_and!; [|done..]. apply Hf; [done|].
    intros Hc. rewrite H2 in Hc. injection Hc as Hc. apply Hnin. simpl. rewrite <-Hc.
    apply list_elem_of_fmap. exists x. split; [done|]. by eapply list_elem_of_lookup_2.
  - exists n'. split; [done|]. by rewrite Hd', Hd, Hr', Hr, <-!app_assoc.
Qed.
End native_lemmas.

(** ** Properties *)

(** C10: a batch of completions, each for an operation some coroutine waits for, resumes
    every one of these coroutines exactly once, in the order of the batch, with its own
    completion's status, length and immediate data in its operation state. *)
Theorem native_batch_resumes {V : Verbs} {C : Type}
    (run_coro : coro → M (native_state (C:=C)) unit) {CL : ClientLaws run_coro}
    (wcs : list ibv_wc) (rs : list (coro * operation_state)) (n : native_state) :
  Forall2 (resumes n) wcs rs → NoDup rs.*1 →
  ∃ n', process_wc (T:=NativeToken run_coro) wcs n = (Ret tt, n') ∧
    ns_resumed n' = ns_resumed n ++ rs.
Proof.
  intros Hall Hnd.
  destruct (process_native_loop run_coro wcs rs n Hall Hnd) as (n' & Hrun & _ & Hr).
  exists n'. split; [|done]. unfold process_wc, noexcept. by rewrite Hrun.
Qed.

(** Completion identifiers are trusted: one that is not the address of a suspended
    operation is undefined behaviour, so an awaitable must stay where it is until its
    completion has been processed. *)
Theorem native_dangling_id {V : Verbs} {C : Type}
    (run_coro : coro → M (native_state (C:=C)) unit) (wc : ibv_wc) (wcs : list ibv_wc)
    (n : native_state) :
  (∀ s, ns_ops n !! wc_wr_id wc = Some s → coro_handle s = None) →
  ∃ n', process_wc (T:=NativeToken run_coro) (wc :: wcs) n = (Undefined, n') ∧
    ns_resumed n' = ns_resumed n.
Proof.
  intros Hno. unfold process_wc, execute_callback_native, os_resume. munfold. simpl.
  unfold execute_callback_native, os_resume. munfold. simpl.
  destruct (ns_ops n !! wc_wr_id wc) as [s|] eqn:Hs; simpl; [|by eexists].
  assert (coro_handle (set_from_wc wc s) = None) as ->; [|by eexists].
  specialize (Hno s eq_refl). unfold set_from_wc. by destruct s as [[[]|] ? ? ? ? ?].
Qed.

(** The worker ends as soon as the stop token is observed set or a poll fails, never by
    an exception.  For any completion token and whatever is polled, the completions executed
    are exactly those the library handed out, each once and in order. *)
Theorem worker_executes_polled {V : Verbs} {S : Type} {T : CompletionToken S}
    {TL : CompletionTokenLaws S} {L : CqLaws V} (stops : list bool) (p : cq_poller (S:=S)) :
  wc_vec_ p ≠ [] → (Z.of_nat (length (wc_vec_ p)) < 2 ^ 31)%Z →
  let '(r, p') := worker stops p in
  (∀ e, r ≠ Throw e) ∧
  ∀ ex, r = Ret ex → (true ∈ stops → ex ≠ StillRunning) ∧
    ∃ wcs, token_done (p_state p') = token_done (p_state p) ++ wcs ∧
      polled (w_trace (token_world (p_state p'))) =
        polled (w_trace (token_world (p_state p))) ++ wcs.
Proof.
  intros Hne Hlen. destruct (worker stops p) as [r p'] eqn:Hrun. by eapply worker_spec.
Qed.

(** ** Witnesses *)

(** A client whose coroutines end when resumed: their operations are freed. *)
Definition wit_client (h : coro) : M (native_state (V:=good) (C:=unit)) unit :=
  mmodify (λ n, NativeState (V:=good)
    (filter (λ x, coro_handle x.2 ≠ Some h) (ns_ops n)) (ns_env n) (ns_client n) (ns_done n)
    (ns_resumed n)).

#[local] Instance wit_client_laws : ClientLaws (V:=good) wit_client.
Proof.
  split; [by eexists|]. intros h n n' [= <-]. simpl. split_and!; [done..|].
  intros a s Ha Hne. by apply map_lookup_filter_Some.
Defined.

Definition wit_op (oc : option ibv_wr_opcode) (h : coro) : operation_state :=
  set_coro_handle h (operation_state_ctor oc).
Definition wit_wc (id len : Z) : ibv_wc := IbvWc id IBV_WC_SUCCESS len 0 0.

(** Two coroutines suspended, their completions queued at the adapter. *)
Definition wit_native : native_state (V:=good) (C:=unit) :=
  NativeState (V:=good) {[300%Z := wit_op None 71%Z; 308%Z := wit_op (Some IBV_WR_RDMA_READ) 72%Z]}
    (OpEnv (V:=good) ∅ (World (V:=good) (RNic 0 ∅ ∅ [wit_wc 308 16; wit_wc 300 4]) [] 1))
    tt [] [].

Lemma native_batch_resumes_witness :
  ∃ n', process_wc (T:=NativeToken (V:=good) wit_client) [wit_wc 308 16; wit_wc 300 4] wit_native
    = (Ret tt, n') ∧
    (λ x : coro * operation_state, (x.1, os_byte_len x.2)) <$> ns_resumed n' =
      [(72, 16); (71, 4)]%Z.
Proof.
  destruct (native_batch_resumes (V:=good) wit_client [wit_wc 308 16; wit_wc 300 4]
    [(72%Z, set_from_wc (wit_wc 308 16) (wit_op (Some IBV_WR_RDMA_READ) 72%Z));
     (71%Z, set_from_wc (wit_wc 300 4) (wit_op None 71%Z))] wit_native) as (n' & Hrun & Hr).
  - repeat constructor; eexists; (split; [reflexivity|]); split; reflexivity.
  - vm_compute. repeat constructor; rewrite ?list_elem_of_singleton; try by intros ?%not_elem_of_nil. discriminate.
  - exists n'. split; [exact Hrun|]. rewrite Hr. reflexivity.
Defined.

Lemma native_dangling_id_witness :
  ∃ n', process_wc (T:=NativeToken (V:=good) wit_client) [wit_wc 999 4] wit_native
    = (Undefined, n') ∧ ns_resumed n' = [].
Proof.
  apply (native_dangling_id (V:=good) wit_client (wit_wc 999 4) [] wit_native).
  intros s Hs. discriminate Hs.
Defined.

Lemma worker_executes_polled_witness :
  ∃ p', worker (T:=NativeToken (V:=good) wit_client) [false; false; true]
      (cq_poller_ctor wit_cq 16 wit_native) = (Ret Stopped, p') ∧
    ns_done (p_state p') = [wit_wc 308 16; wit_wc 300 4].
Proof.
  pose proof (worker_executes_polled (V:=good) (T:=NativeToken (V:=good) wit_client)
    [false; false; true] (cq_poller_ctor wit_cq 16 wit_native)
    ltac:(discriminate) ltac:(reflexivity)) as H.
  assert ((worker (T:=NativeToken (V:=good) wit_client) [false; false; true]
    (cq_poller_ctor wit_cq 16 wit_native)).1 = Ret Stopped) as Hrun%run_fst
    by (vm_compute; reflexivity).
  rewrite Hrun in H. destruct H as [_ H]. destruct (H _ eq_refl) as (_ & wcs & Hd & Hp).
  eexists. split; [exact Hrun|]. cbn [token_done NativeToken] in Hd. rewrite Hd.
  assert (polled (w_trace (token_world (CompletionToken:=NativeToken (V:=good) wit_client)
    (p_state (worker (T:=NativeToken (V:=good) wit_client) [false; false; true]
    (cq_poller_ctor wit_cq 16 wit_native)).2))) = [wit_wc 308 16; wit_wc 300 4]) as Hq
    by (vm_compute; reflexivity).
  rewrite Hq in Hp. symmetry. exact Hp.
Defined.
