(* ===== verification/PollerLife.v ===== *)
(** * The life of a poller (cq_poller.h, cq_poller.cc)

    The constructor of [basic_cq_poller] starts a [std::jthread] that runs [worker]; the
    destructor destroys the members in the reverse order of their declaration: the thread
    first, which is asked to stop and joined, then the completion queue, then the vector.
    The two threads, the worker's and the one that destroys the object, are a step relation
    over the loop of [Executor]; what other threads do between two iterations is arbitrary,
    as long as they, too, execute what they poll. *)

From S2P Require Import Prelude Verbs RefNic Errors Device Resources Mr Qp Operations Executor.
From stdpp Require Import options.

(** The worker: before the test of its stop token, in the body of the loop, returned. *)
Inductive worker_pc := W_test | W_body | W_exited (e : worker_exit).

(** The destructor: not called; stop requested, joining; the thread, the completion queue,
    the vector destroyed. *)
Inductive destroyer_pc := D_alive | D_joining | D_joined | D_released | D_destroyed.

(** [Ended]: [std::terminate], an [assert] or undefined behaviour of a callback; [Used]: the
    worker used a member after its destruction. *)
Inductive process_state := Running | Ended | Used.
#[export] Instance process_state_eq_dec : EqDecision process_state.
Proof. solve_decision. Defined.

Section life.
Context {V : Verbs} {S : Type} `{T : !CompletionToken S} `{TL : !CompletionTokenLaws S}
  {L : CqLaws V}.

Record life := Life {
  l_worker : worker_pc;
  l_destroyer : destroyer_pc;
  l_stop : bool;
  l_poller : cq_poller (S:=S);
  l_process : process_state }.

(** The constructor, of a poller with [batch_size] entries. *)
Definition life_init (c : cq) (batch_size : nat) (s : S) : life :=
  Life W_test D_alive false (cq_poller_ctor c batch_size s) Running.

(** The members the worker uses. *)
Definition members_alive (d : destroyer_pc) : bool :=
  match d with D_released | D_destroyed => false | _ => true end.

(** Everything that was polled from [s] on has been executed at [s']. *)
Definition settled (s s' : S) : Prop :=
  ∃ wcs, token_done s' = token_done s ++ wcs ∧
    polled (w_trace (token_world s')) = polled (w_trace (token_world s)) ++ wcs.

Definition at_state (s : S) (p : cq_poller (S:=S)) : cq_poller := CqPoller (wc_vec_ p) (poller_cq_ p) s.

(** [own]: the object is destroyed by one of its own callbacks, on the worker's thread; the
    body of the loop then goes on after the destructor, whose [join] fails. *)
Inductive life_step (own : bool) : life → life → Prop :=
| worker_goes_on d p :
    life_step own (Life W_test d false p Running) (Life W_body d false p Running)
| worker_stops d p :
    life_step own (Life W_test d true p Running) (Life (W_exited Stopped) d true p Running)
| worker_body d st p s p' ex :
    members_alive d = true → (own = true → d = D_alive) → settled (p_state p) s →
    worker [false] (at_state s p) = (Ret ex, p') →
    life_step own (Life W_body d st p Running)
      (Life (match ex with StillRunning => W_test | _ => W_exited ex end) d st p' Running)
| worker_ends d st p s p' r :
    members_alive d = true → (own = true → d = D_alive) → settled (p_state p) s →
    worker [false] (at_state s p) = (r, p') → (∀ ex, r ≠ Ret ex) →
    life_step own (Life W_body d st p Running) (Life W_body d st p' Ended)
| worker_uses d st p :
    members_alive d = false →
    life_step own (Life W_body d st p Running) (Life W_body d st p Used)
| destructor_called w p st :
    (own = true → w = W_body) →
    life_step own (Life w D_alive st p Running) (Life w D_joining true p Running)
| thread_joined ex p st :
    life_step own (Life (W_exited ex) D_joining st p Running)
      (Life (W_exited ex) D_joined st p Running)
| thread_joins_itself w p st :
    own = true → life_step own (Life w D_joining st p Running) (Life w D_joining st p Ended)
| cq_released w p st :
    life_step own (Life w D_joined st p Running) (Life w D_released st p Running)
| vector_destroyed w p st :
    life_step own (Life w D_released st p Running) (Life w D_destroyed st p Running).

(** ** Invariant *)

Definition exited (w : worker_pc) : bool := match w with W_exited _ => true | _ => false end.
Definition joined (d : destroyer_pc) : bool :=
  match d with D_alive | D_joining => false | _ => true end.

Record life_ok (s : S) (own : bool) (x : life) : Prop := {
  ok_vec : wc_vec_ (l_poller x) ≠ [] ∧ (Z.of_nat (length (wc_vec_ (l_poller x))) < 2 ^ 31)%Z;
  ok_stop : l_stop x = true ↔ l_destroyer x ≠ D_alive;
  ok_joined : joined (l_destroyer x) = true → exited (l_worker x) = true;
  ok_own : own = true → l_destroyer x ≠ D_alive →
    l_worker x = W_body ∧ l_destroyer x = D_joining;
  ok_settled : l_process x = Running → settled s (p_state (l_poller x));
  ok_members : l_process x ≠ Used }.

Lemma settled_refl s : settled s s.
Proof. exists []. by rewrite !app_nil_r. Qed.
Lemma settled_trans s1 s2 s3 : settled s1 s2 → settled s2 s3 → settled s1 s3.
Proof.
  intros (a & H1 & H2) (b & H3 & H4). exists (a ++ b).
  by rewrite H3, H1, H4, H2, !app_assoc.
Qed.

Lemma life_init_ok c n s own :
  0 < n → (Z.of_nat n < 2 ^ 31)%Z → life_ok s own (life_init c n s).
Proof.
  intros H0 Hn. split; simpl; try done.
  - rewrite length_replicate. split; [|done]. by destruct n; [lia|].
  - intros _. apply settled_refl.
Qed.

Lemma worker_vec stops (p p' : cq_poller (S:=S)) r :
  wc_vec_ p ≠ [] → (Z.of_nat (length (wc_vec_ p)) < 2 ^ 31)%Z →
  worker stops p = (r, p') → length (wc_vec_ p') = length (wc_vec_ p).
Proof using TL L.
  revert p. induction stops as [|[|] stops IH]; intros p Hne Hlen; simpl;
    [by intros [= _ <-]..|].
  unfold in_token, mbind, M_bind, try_catch, mget, mret, M_ret, zoom, mthrow_exn.
  destruct (poll_vec p) as [r1 p1] eqn:Hpoll.
  destruct (poll_vec_spec _ _ _ Hne Hlen Hpoll) as (_ & Hlen1 & Hr1).
  assert (wc_vec_ p1 ≠ []) as Hne1 by (intros Hn; rewrite Hn in Hlen1; by destruct (wc_vec_ p)).
  destruct r1 as [nr|e| | |]; try done; simpl.
  - case_bool_decide.
    + intros Hrun%IH; [by rewrite Hrun|done|by rewrite Hlen1].
    + cbv beta iota. destruct (process_wc _ _) as [r2 s2] eqn:Hproc.
      destruct (process_wc_done _ _ _ _ Hproc) as [Hno2 _].
      destruct r2 as [[]|e| | |]; simpl; try (by intros [= _ <-]); [|by destruct (Hno2 e)].
      intros Hrun%IH; [by rewrite Hrun|done|simpl; by rewrite Hlen1].
  - destruct Hr1 as ((text & ->) & _). by intros [= _ <-].
Qed.

Lemma life_ok_step s own x y : life_ok s own x → life_step own x y → life_ok s own y.
Proof using TL L.
  intros [[Hne Hlen] Hstop Hjoin Hown Hset Hmem] Hstep. destruct Hstep; simpl in *.
  - split; simpl; try done; clear Hne Hlen; intuition congruence.
  - split; simpl; try naive_solver.
  - destruct (worker_spec [false] (at_state s0 p) _ _ Hne Hlen H2) as [_ Hspec].
    pose proof (worker_vec [false] (at_state s0 p) _ _ Hne Hlen H2) as Hlen'. simpl in Hlen'.
    destruct (Hspec ex eq_refl) as [_ Hs'].
    assert (wc_vec_ p' ≠ []) as Hne' by (intros Hn; rewrite Hn in Hlen'; by destruct (wc_vec_ p)).
    split; simpl; try done.
    + split; [done|]. by rewrite Hlen'.
    + intros Hd. by specialize (Hjoin Hd).
    + intros Ho Hd. by destruct Hd; apply H0.
    + intros _. eapply settled_trans; [by apply Hset|].
      by eapply settled_trans; [exact H1|].
  - pose proof (worker_vec [false] (at_state s0 p) _ _ Hne Hlen H2) as Hlen'. simpl in Hlen'.
    split; simpl; try done. split; [|by rewrite Hlen'].
    intros Hn. rewrite Hn in Hlen'. by destruct (wc_vec_ p).
  - assert (joined d = true) as Hd by (by destruct d). by specialize (Hjoin Hd).
  - split; simpl; try done; clear Hne Hlen; intuition congruence.
  - split; simpl; try done; clear Hne Hlen; intuition congruence.
  - split; simpl; try done; clear Hne Hlen; intuition congruence.
  - split; simpl; try done; clear Hne Hlen; intuition congruence.
  - split; simpl; try done; clear Hne Hlen; intuition congruence.
Qed.

Lemma life_reachable_ok c n s own x :
  0 < n → (Z.of_nat n < 2 ^ 31)%Z → rtc (life_step own) (life_init c n s) x → life_ok s own x.
Proof using TL L.
  intros H0 Hn Hr. eapply rtc_invariant; [|exact Hr|by apply life_init_ok].
  intros a b. apply life_ok_step.
Qed.

(** ** Progress *)

Definition life_measure (x : life) : nat :=
  match l_process x with
  | Running =>
      match l_destroyer x with
      | D_alive => 0 | D_joining => 7 | D_joined => 4 | D_released => 3 | D_destroyed => 2
      end + match l_worker x with W_body => 3 | W_test => 2 | W_exited _ => 1 end
  | _ => 0
  end.

Lemma life_decreases own x y :
  l_stop x = true → l_destroyer x ≠ D_alive → life_step own x y →
  l_stop y = true ∧ l_destroyer y ≠ D_alive ∧ life_measure y < life_measure x.
Proof.
  intros Hs Hd Hstep. destruct Hstep; simpl in *; try done; unfold life_measure; simpl;
    split_and!; try done; try lia. destruct ex; lia.
Qed.

Lemma life_finite own x :
  l_stop x = true → l_destroyer x ≠ D_alive → Acc (flip (life_step own)) x.
Proof.
  remember (life_measure x) as n eqn:Hn. revert x Hn.
  induction (lt_wf n) as [n _ IH]. intros x -> Hs Hd. constructor. intros y Hstep.
  destruct (life_decreases own x y Hs Hd Hstep) as (Hs' & Hd' & Hlt). by eapply IH.
Qed.

(** Once the destructor has been called, a state without a next step is one in which the
    object has been destroyed, or the process has ended. *)
Lemma life_stuck s own x :
  life_ok s own x → l_destroyer x ≠ D_alive → (∀ y, ¬ life_step own x y) →
  l_process x = Ended ∨
  l_process x = Running ∧ own = false ∧ l_destroyer x = D_destroyed ∧ exited (l_worker x) = true.
Proof using TL L.
  intros [[Hne Hlen] Hstop Hjoin Hown Hset Hmem] Hd Hstuck.
  destruct x as [w d st p []]; simpl in *; [right|by left|done].
  assert (st = true) as -> by (by apply Hstop).
  destruct own.
  { destruct (Hown eq_refl Hd) as [-> ->].
    by destruct (Hstuck (Life W_body D_joining true p Ended)); constructor. }
  destruct d; simpl in *; [done| | | |].
  - exfalso. destruct w as [| |e].
    + by destruct (Hstuck (Life (W_exited Stopped) D_joining true p Running)); constructor.
    + destruct (worker [false] (at_state (p_state p) p)) as [r p'] eqn:Hw.
      destruct r as [ex| | | |]; eapply Hstuck;
        [eapply worker_body|eapply worker_ends..]; try exact Hw; try done; apply settled_refl.
    + by destruct (Hstuck (Life (W_exited e) D_joined true p Running)); constructor.
  - by destruct (Hstuck (Life w D_released true p Running)); constructor.
  - by destruct (Hstuck (Life w D_destroyed true p Running)); constructor.
  - by split_and!; try apply Hjoin.
Qed.

(** C9: Destroying a poller.  Whatever the other threads do between its iterations, and however
    the two threads interleave: the worker never uses the completion queue or the vector
    after they are destroyed; once the destructor has been called, every run is finite, and
    where it ends the object has been destroyed, its thread has returned, and what was
    polled has been executed, exactly, or the process has ended in a callback.  A poller
    that is destroyed by one of its own callbacks ends the process: its thread would join
    itself. *)
Theorem poller_destroyed (own : bool) (c : cq) (batch_size : nat) (s : S) (x : life) :
  0 < batch_size → (Z.of_nat batch_size < 2 ^ 31)%Z →
  rtc (life_step own) (life_init c batch_size s) x →
  l_process x ≠ Used ∧
  (l_process x = Running → settled s (p_state (l_poller x))) ∧
  (l_destroyer x ≠ D_alive →
   Acc (flip (life_step own)) x ∧
   ∀ y, rtc (life_step own) x y → (∀ z, ¬ life_step own y z) →
     l_process y = Ended ∨
     own = false ∧ l_destroyer y = D_destroyed ∧ exited (l_worker y) = true ∧
       settled s (p_state (l_poller y))).
Proof using TL L.
  intros H0 Hn Hr. destruct (life_reachable_ok c _ s own x H0 Hn Hr) as [Hv Hstop Hj Ho Hs Hm].
  split; [done|]. split; [done|]. intros Hd. split; [apply life_finite; [by apply Hstop|done]|].
  intros y Hy Hstuck.
  assert (life_ok s own y) as Hok by (apply (life_reachable_ok c batch_size); [done..|by etrans]).
  assert (l_destroyer y ≠ D_alive) as Hdy.
  { clear -Hd Hy. induction Hy as [|a b d Hab _ IH]; [done|]. apply IH. by destruct Hab. }
  destruct (life_stuck s own y Hok Hdy Hstuck) as [?|(Hrun & Hown & Hdd & He)]; [by left|right].
  split_and!; [done..|]. by apply (ok_settled _ _ _ Hok).
Qed.
End life.

(** ** Witness

    Two completions are executed, then the destructor is called. *)

Definition wit_life : life (S:=native_state (V:=good)) :=
  life_init wit_cq 16 wit_native.
Definition wit_iteration : outcome worker_exit * cq_poller (S:=native_state (V:=good)) :=
  worker (T:=NativeToken (V:=good) wit_client) [false] (l_poller wit_life).

Lemma poller_destroyed_witness :
  ∃ x, rtc (life_step (T:=NativeToken (V:=good) wit_client) false) wit_life x ∧
    l_destroyer x = D_joining ∧ ns_done (p_state (l_poller x)) = [wit_wc 308 16; wit_wc 300 4] ∧
    Acc (flip (life_step (T:=NativeToken (V:=good) wit_client) false)) x.
Proof.
  assert (rtc (life_step (T:=NativeToken (V:=good) wit_client) false) wit_life
    (Life W_test D_joining true wit_iteration.2 Running)) as Hr.
  { eapply rtc_l; [apply worker_goes_on|].
    eapply rtc_l; [eapply (worker_body _ _ _ _ wit_native _ StillRunning)|].
    - reflexivity.
    - discriminate.
    - apply settled_refl.
    - apply run_fst. vm_compute. reflexivity.
    - eapply rtc_l; [apply destructor_called; discriminate|]. apply rtc_refl. }
  exists (Life W_test D_joining true wit_iteration.2 Running).
  split; [exact Hr|]. split; [reflexivity|]. split; [vm_compute; reflexivity|].
  destruct (poller_destroyed (T:=NativeToken (V:=good) wit_client)
    (TL:=NativeTokenLaws (V:=good) wit_client (CL:=wit_client_laws)) false wit_cq 16 wit_native _
    ltac:(lia) ltac:(reflexivity) Hr) as (_ & _ & Hd).
  apply Hd. discriminate.
Defined.
