(* ===== verification/AsioAwait.v ===== *)
(** * qp.cc (asio): awaitables for asio coroutines

    The conversions of [send_awaitable] and [recv_awaitable] to [asio::awaitable] and
    [execute_callback<use_asio_awaitable_t>].  asio is not part of the repository: the
    handler [self] that [async_compose] passes is known by its reference count and by the
    calls of [self.complete] made on it.

    The first part runs a conversion and a completion without interference.  The second
    part is the recv conversion as a step relation between three threads: the one that
    starts the operation, the poller, and the one that emits the cancellation signal. *)

From S2P Require Import Prelude Verbs RefNic Errors Device Resources Mr Qp Operations Executor.
From stdpp Require Import options.

(** [(std::exception_ptr, send_result)] and [(std::exception_ptr, recv_result)]. *)
Definition completion : Type := option exn * (Z + Z * option Z).

Section asio.
Context {V : Verbs} {B : Build}.

(** What one conversion allocates: the shared awaitable, the flag [complete_called], the
    handler [self] with its use count, and the [self.complete] calls made. *)
Record asio_op := AsioOp {
  ao_awaitable : send_awaitable + recv_awaitable;
  ao_called : bool;
  ao_self_refs : nat;
  ao_completions : list completion }.

(** A callback object captures the operation it belongs to. *)
Record asio_state := AsioState {
  as_ops : gmap Z asio_op;
  as_callbacks : gmap Z Z;
  as_env : op_env;
  as_done : list ibv_wc }.

Definition set_op (i : Z) (o : asio_op) : M asio_state unit :=
  mmodify (λ s, AsioState (<[i:=o]> (as_ops s)) (as_callbacks s) (as_env s) (as_done s)).
Definition get_op (i : Z) : M asio_state asio_op := s ← mget; deref (as_ops s !! i).
Definition update_op (i : Z) (f : asio_op → asio_op) : M asio_state unit :=
  o ← get_op i; set_op i (f o).
Definition set_callbacks (f : gmap Z Z → gmap Z Z) : M asio_state unit :=
  mmodify (λ s, AsioState (as_ops s) (f (as_callbacks s)) (as_env s) (as_done s)).
Definition in_env {A} (m : M op_env A) : M asio_state A :=
  zoom as_env (λ e s, AsioState (as_ops s) (as_callbacks s) e (as_done s)) m.

Definition add_refs (f : nat → nat) (o : asio_op) : asio_op :=
  AsioOp (ao_awaitable o) (ao_called o) (f (ao_self_refs o)) (ao_completions o).
Definition add_completion (c : completion) (o : asio_op) : asio_op :=
  AsioOp (ao_awaitable o) (ao_called o) (ao_self_refs o) (ao_completions o ++ [c]).
Definition set_awaitable (a : send_awaitable + recv_awaitable) (o : asio_op) : asio_op :=
  AsioOp a (ao_called o) (ao_self_refs o) (ao_completions o).
Definition set_called (o : asio_op) : asio_op :=
  AsioOp (ao_awaitable o) true (ao_self_refs o) (ao_completions o).

(** ** executor_t::make_callback, destroy_callback *)

(** [new (std::nothrow)] may return null; the closure copies [self]. *)
Definition make_callback (alloc : option Z) (i : Z) : M asio_state Z :=
  match alloc with
  | None => throw_with_message "executor: out of memory for callback"
  | Some cb => set_callbacks <[cb:=i]> ;; update_op i (add_refs S) ;; mret cb
  end.

Definition destroy_callback (cb : Z) : M asio_state unit :=
  s ← mget;
  i ← deref (as_callbacks s !! cb);
  set_callbacks (delete cb) ;;
  update_op i (add_refs pred).

(** ** Completing *)

Definition awaitable_set_from_wc (wc : ibv_wc) (a : send_awaitable + recv_awaitable)
    : send_awaitable + recv_awaitable :=
  match a with
  | inl a => inl (set_sa_state (set_from_wc wc (sa_state_ a)) a)
  | inr a => inr (set_ra_state (set_from_wc wc (ra_state_ a)) a)
  end.

Definition awaitable_exception (a : send_awaitable + recv_awaitable) : option exn :=
  match a with
  | inl a => send_unhandled_exception a
  | inr a => recv_unhandled_exception a
  end.

Definition awaitable_resume {S} (a : send_awaitable + recv_awaitable) : M S (Z + Z * option Z) :=
  match a with
  | inl a => r ← send_resume a; mret (inl r)
  | inr a => r ← recv_resume a; mret (inr r)
  end.

(** [static auto complete(auto &&self, auto &&awaitable) noexcept]. *)
Definition complete (i : Z) : M asio_state unit :=
  noexcept
    (o ← get_op i;
     r ← awaitable_resume (ao_awaitable o);
     update_op i (add_completion (awaitable_exception (ao_awaitable o), r))).

(** The two lambdas given to [make_callback]. *)
Definition run_callback (i : Z) (wc : ibv_wc) : M asio_state unit :=
  o ← get_op i;
  match ao_awaitable o with
  | inl _ =>
      update_op i (λ o, set_awaitable (awaitable_set_from_wc wc (ao_awaitable o)) o) ;;
      complete i
  | inr _ =>
      update_op i set_called ;;
      if ao_called o then mret tt
      else update_op i (λ o, set_awaitable (awaitable_set_from_wc wc (ao_awaitable o)) o) ;;
           complete i
  end.

Definition execute_callback_asio (wc : ibv_wc) : M asio_state unit :=
  noexcept
    (mmodify (λ s, AsioState (as_ops s) (as_callbacks s) (as_env s) (as_done s ++ [wc])) ;;
     s ← mget;
     i ← deref (as_callbacks s !! wc_wr_id wc);
     run_callback i wc ;;
     destroy_callback (wc_wr_id wc)).

#[export] Instance AsioToken : CompletionToken asio_state := {
  token_world s := op_world (as_env s);
  set_token_world w s :=
    AsioState (as_ops s) (as_callbacks s) (OpEnv (live_qps (as_env s)) w) (as_done s);
  token_done := as_done;
  execute_callback := execute_callback_asio }.

(** ** The initiating functions *)

Definition awaitable_suspend (a : send_awaitable + recv_awaitable) (wr_id : Z)
    : M op_env (bool * (send_awaitable + recv_awaitable)) :=
  match a with
  | inl a => r ← send_suspend a wr_id; mret (r.1, inl r.2)
  | inr a => r ← recv_suspend a wr_id; mret (r.1, inr r.2)
  end.

(** Both lambdas, up to the cancellation slot: move [self] into a shared pointer, make the
    callback, suspend, and release the local pointers. *)
Definition initiate (i : Z) (a : send_awaitable + recv_awaitable) (alloc : option Z)
    : M asio_state unit :=
  set_op i (AsioOp a false 1 []) ;;
  raii
    (callback ← make_callback alloc i;
     r ← in_env (awaitable_suspend a callback);
     update_op i (set_awaitable r.2) ;;
     if negb r.1 then destroy_callback callback else mret tt)
    (update_op i (add_refs pred)).
End asio.

(** ** Lemmas *)

Section lemmas.
Context {V : Verbs} {B : Build}.

Lemma update_op_run i f o (s : asio_state) :
  as_ops s !! i = Some o →
  update_op i f s =
    (Ret tt, AsioState (<[i:=f o]> (as_ops s)) (as_callbacks s) (as_env s) (as_done s)).
Proof. intros Ho. unfold update_op, get_op, set_op. munfold. simpl. by rewrite Ho. Qed.

Lemma get_op_run {A} i o (k : asio_op → M asio_state A) s :
  as_ops s !! i = Some o → (get_op i ≫= k) s = k o s.
Proof. intros Ho. unfold get_op. munfold. simpl. by rewrite Ho. Qed.

(** The result a successful completion gives. *)
Definition completed_value (a : send_awaitable + recv_awaitable) (wc : ibv_wc)
    : Z + Z * option Z :=
  match a with
  | inl a => inl (os_byte_len (set_from_wc wc (sa_state_ a)))
  | inr a =>
      let st := set_from_wc wc (ra_state_ a) in
      inr (os_byte_len st,
           if bool_decide (Z.land (os_wc_flags st) IBV_WC_WITH_IMM ≠ 0%Z)
           then Some (os_imm_data st) else None)
  end.

Lemma awaitable_resume_ok {S} a wc (s : S) :
  wc_status wc = IBV_WC_SUCCESS →
  awaitable_resume (awaitable_set_from_wc wc a) s = (Ret (completed_value a wc), s).
Proof.
  intros Hst. destruct a as [a|a]; cbn [awaitable_set_from_wc awaitable_resume completed_value].
  - unfold send_resume. cbn [sa_state_ set_sa_state].
    unfold mbind, M_bind. by rewrite set_from_wc_status, Hst.
  - unfold recv_resume. cbn [ra_state_ set_ra_state].
    unfold mbind, M_bind. rewrite set_from_wc_status, Hst. simpl. by case_bool_decide.
Qed.

Lemma awaitable_resume_bad {S} a wc (s : S) :
  wc_status wc ≠ IBV_WC_SUCCESS →
  ∃ e, awaitable_resume (awaitable_set_from_wc wc a) s = (Throw e, s).
Proof.
  intros Hst. destruct a as [a|a]; cbn [awaitable_set_from_wc awaitable_resume];
    unfold send_resume, recv_resume; cbn [sa_state_ set_sa_state ra_state_ set_ra_state];
    rewrite set_from_wc_status;
    [destruct (check_wc_status_throw (wc_status wc) "failed to send" s Hst) as (e & He & _)
    |destruct (check_wc_status_throw (wc_status wc) "failed to recv" s Hst) as (e & He & _)];
    exists e; unfold mbind, M_bind; by rewrite He.
Qed.

Lemma awaitable_exception_wc wc a :
  awaitable_exception (awaitable_set_from_wc wc a) = awaitable_exception a.
Proof. by destruct a. Qed.

(** What executing a callback does, by the state of its operation. *)
Definition executed_op (wc : ibv_wc) (o : asio_op) : asio_op :=
  let called := match ao_awaitable o with inl _ => ao_called o | inr _ => true end in
  if match ao_awaitable o with inl _ => false | inr _ => ao_called o end
  then AsioOp (ao_awaitable o) called (pred (ao_self_refs o)) (ao_completions o)
  else AsioOp (awaitable_set_from_wc wc (ao_awaitable o)) called (pred (ao_self_refs o))
         (ao_completions o ++ [(awaitable_exception (ao_awaitable o),
            completed_value (ao_awaitable o) wc)]).

Lemma complete_ok wc a called n cs i s :
  wc_status wc = IBV_WC_SUCCESS →
  as_ops s !! i = Some (AsioOp (awaitable_set_from_wc wc a) called n cs) →
  complete i s = (Ret tt, AsioState (<[i:=AsioOp (awaitable_set_from_wc wc a) called n
      (cs ++ [(awaitable_exception a, completed_value a wc)])]> (as_ops s))
    (as_callbacks s) (as_env s) (as_done s)).
Proof.
  intros Hst Ho. unfold complete, noexcept. rewrite (get_op_run _ _ _ _ Ho).
  rewrite (bind_ret _ _ _ _ _ (awaitable_resume_ok a wc s Hst)).
  rewrite (update_op_run _ _ _ _ Ho). unfold add_completion. simpl.
  by rewrite awaitable_exception_wc.
Qed.

Lemma complete_bad wc a called n cs i s :
  wc_status wc ≠ IBV_WC_SUCCESS →
  as_ops s !! i = Some (AsioOp (awaitable_set_from_wc wc a) called n cs) →
  complete i s = (Terminate, s).
Proof.
  intros Hst Ho. unfold complete, noexcept. rewrite (get_op_run _ _ _ _ Ho).
  destruct (awaitable_resume_bad a wc s Hst) as [e He]. by rewrite (bind_throw _ _ _ _ _ He).
Qed.

Lemma bind_update_op {A} i f o (k : unit → M asio_state A) s :
  as_ops s !! i = Some o →
  (update_op i f ≫= k) s =
    k tt (AsioState (<[i:=f o]> (as_ops s)) (as_callbacks s) (as_env s) (as_done s)).
Proof. intros Ho. by rewrite (bind_ret _ _ _ _ _ (update_op_run i f o s Ho)). Qed.

Lemma destroy_callback_run cb i o s :
  as_callbacks s !! cb = Some i → as_ops s !! i = Some o →
  destroy_callback cb s =
    (Ret tt, AsioState (<[i:=add_refs pred o]> (as_ops s)) (delete cb (as_callbacks s))
      (as_env s) (as_done s)).
Proof.
  intros Hcb Ho. unfold destroy_callback. rewrite bind_mget, Hcb. cbn [deref].
  rewrite bind_mret. unfold set_callbacks. rewrite bind_mmodify.
  by rewrite (update_op_run i _ o).
Qed.

(** A callback that loses the flag to the cancellation, and one that completes. *)
Definition callback_skips (o : asio_op) : bool :=
  match ao_awaitable o with inl _ => false | inr _ => ao_called o end.

Lemma run_callback_skip wc i o s :
  as_ops s !! i = Some o → callback_skips o = true →
  run_callback i wc s = (Ret tt,
    AsioState (<[i:=set_called o]> (as_ops s)) (as_callbacks s) (as_env s) (as_done s)).
Proof.
  unfold callback_skips. intros Ho Hskip. destruct o as [[a|a] called n cs]; [done|].
  simpl in Hskip. subst called. unfold run_callback. rewrite (get_op_run _ _ _ _ Ho).
  cbn [ao_awaitable]. by rewrite (bind_update_op _ _ _ _ _ Ho).
Qed.

Lemma run_callback_complete wc i o s :
  as_ops s !! i = Some o → callback_skips o = false →
  ∃ called s1, run_callback i wc s = complete i s1 ∧
    called = match ao_awaitable o with inl _ => ao_called o | inr _ => true end ∧
    as_ops s1 = <[i:=AsioOp (awaitable_set_from_wc wc (ao_awaitable o)) called
        (ao_self_refs o) (ao_completions o)]> (as_ops s) ∧
    as_callbacks s1 = as_callbacks s ∧ as_env s1 = as_env s ∧ as_done s1 = as_done s.
Proof.
  unfold callback_skips. intros Ho Hskip. unfold run_callback. rewrite (get_op_run _ _ _ _ Ho).
  destruct o as [[a|a] called n cs]; cbn [ao_awaitable] in *.
  - rewrite (bind_update_op _ _ _ _ _ Ho). do 2 eexists. split_and!; try reflexivity.
  - simpl in Hskip. subst called. rewrite (bind_update_op _ _ _ _ _ Ho). cbn [ao_called].
    assert (as_ops (AsioState (<[i:=set_called (AsioOp (inr a) false n cs)]> (as_ops s))
      (as_callbacks s) (as_env s) (as_done s)) !! i = Some (AsioOp (inr a) true n cs)) as Ho'
      by apply lookup_insert_eq.
    rewrite (bind_update_op _ _ _ _ _ Ho'). do 2 eexists.
    split_and!; try reflexivity. simpl. by rewrite insert_insert_eq.
Qed.

Lemma execute_asio_run wc i o s :
  as_callbacks s !! wc_wr_id wc = Some i → as_ops s !! i = Some o →
  ∃ s', execute_callback_asio wc s =
    (if callback_skips o || bool_decide (wc_status wc = IBV_WC_SUCCESS) then Ret tt
     else Terminate, s') ∧
  as_env s' = as_env s ∧
  (callback_skips o = true ∨ wc_status wc = IBV_WC_SUCCESS →
   as_ops s' = <[i:=executed_op wc o]> (as_ops s) ∧ as_done s' = as_done s ++ [wc] ∧
   as_callbacks s' = delete (wc_wr_id wc) (as_callbacks s)).
Proof.
  intros Hcb Ho. unfold execute_callback_asio, noexcept.
  rewrite bind_mmodify, bind_mget. cbn [as_callbacks]. rewrite Hcb. cbn [deref].
  rewrite bind_mret. set (s0 := AsioState _ _ _ _).
  assert (as_ops s0 !! i = Some o) as Ho0 by exact Ho.
  destruct (callback_skips o) eqn:Hskip.
  - rewrite (bind_ret _ _ _ _ _ (run_callback_skip wc i o s0 Ho0 Hskip)).
    rewrite (destroy_callback_run _ i (set_called o)); [|done|apply lookup_insert_eq].
    eexists. split_and!; try done. intros _. simpl. rewrite insert_insert_eq.
    split_and!; try done. unfold executed_op. f_equal.
    unfold callback_skips in Hskip. destruct o as [[a|a] called n cs]; simpl in *; [done|].
    by subst called.
  - destruct (run_callback_complete wc i o s0 Ho0 Hskip)
      as (called & s1 & Hrun & Hcalled & Hops & Hcbs & Henv & Hdone).
    assert (as_ops s1 !! i = Some (AsioOp (awaitable_set_from_wc wc (ao_awaitable o)) called
        (ao_self_refs o) (ao_completions o))) as Ho1 by (rewrite Hops; apply lookup_insert_eq).
    case_bool_decide as Hst; cbn [orb].
    + rewrite (bind_ret _ _ _ tt _ (eq_trans Hrun (complete_ok _ _ _ _ _ _ _ Hst Ho1))).
      rewrite (destroy_callback_run (wc_wr_id wc) i (AsioOp (awaitable_set_from_wc wc
        (ao_awaitable o)) called (ao_self_refs o) (ao_completions o ++
        [(awaitable_exception (ao_awaitable o), completed_value (ao_awaitable o) wc)])));
        [|by rewrite Hcbs|apply lookup_insert_eq].
      eexists. split_and!; try done. intros _. simpl. rewrite Hops, !insert_insert_eq, Hdone, Hcbs.
      split_and!; try done. unfold executed_op. unfold callback_skips in Hskip.
      by rewrite Hskip, Hcalled.
    + exists s1. split.
      * unfold mbind, M_bind. by rewrite Hrun, (complete_bad _ _ _ _ _ _ _ Hst Ho1).
      * split; [done|]. by intros [|].
Qed.

#[export] Instance AsioTokenLaws : CompletionTokenLaws asio_state.
Proof.
  split; [by intros ? []|done|]. intros wc s r s' Hrun. cbn in Hrun.
  destruct (as_callbacks s !! wc_wr_id wc) as [i|] eqn:Hcb;
    [destruct (as_ops s !! i) as [o|] eqn:Ho|].
  - destruct (execute_asio_run wc i o s Hcb Ho) as (s1 & Hex & Henv & Hok).
    rewrite Hrun in Hex. injection Hex as -> ->. split.
    { by destruct (callback_skips o || bool_decide _). }
    intros Hret. destruct Hok as (_ & Hdone & _).
    { destruct (callback_skips o); [by left|right]. simpl in Hret. by case_bool_decide. }
    simpl. by rewrite Henv, Hdone.
  - revert Hrun. unfold execute_callback_asio, run_callback, noexcept, get_op.
    rewrite bind_mmodify, bind_mget. cbn [as_callbacks]. rewrite Hcb. cbn [deref].
    rewrite bind_mret. munfold. simpl. rewrite Ho. intros [= <- <-]. by split.
  - revert Hrun. unfold execute_callback_asio, noexcept.
    rewrite bind_mmodify, bind_mget. cbn [as_callbacks]. rewrite Hcb.
    intros [= <- <-]. by split.
Qed.

Lemma initiate_run i a cb ok a' env' s :
  awaitable_suspend a cb (as_env s) = (Ret (ok, a'), env') →
  initiate i a (Some cb) s = (Ret tt,
    AsioState (<[i:=AsioOp a' false (if ok : bool then 1 else 0) []]> (as_ops s))
      (if ok then <[cb:=i]> (as_callbacks s) else delete cb (<[cb:=i]> (as_callbacks s)))
      env' (as_done s)).
Proof.
  intros Hs. unfold initiate, set_op, make_callback, set_callbacks. rewrite bind_mmodify.
  unfold raii, mbind, M_bind. unfold mmodify at 1. simpl.
  rewrite (update_op_run _ _ (AsioOp a false 1 [])) by apply lookup_insert_eq. simpl.
  unfold in_env, zoom. simpl. rewrite Hs. simpl.
  rewrite (update_op_run _ _ (AsioOp a false 2 []))
    by (simpl; rewrite insert_insert_eq; apply lookup_insert_eq). simpl.
  destruct ok; simpl.
  - rewrite (update_op_run _ _ (AsioOp a' false 2 [])) by apply lookup_insert_eq.
    simpl. by rewrite !insert_insert_eq.
  - rewrite (destroy_callback_run cb i (AsioOp a' false 2 []))
      by (apply lookup_insert_eq). simpl.
    rewrite (update_op_run _ _ (AsioOp a' false 1 [])) by apply lookup_insert_eq.
    simpl. by rewrite !insert_insert_eq.
Qed.
End lemmas.

(** ** Properties *)

Section properties.
Context {V : Verbs} {B : Build}.

(** C12: an asio operation whose post succeeded owns one callback; its completion, if
    successful, frees that callback and completes the handler exactly once, with the
    operation's result; a failing completion status ends the process instead: the
    exception of [resume] escapes from the [noexcept] function [complete]. *)
Theorem asio_op_completes (op : send_op) (qp : Z) (v : mr_view) (i cb : Z) (s : asio_state)
    (t : basic_qp) (a : send_awaitable) (n : nic) :
  live_qps (as_env s) !! qp = Some t → op_valid t op →
  issue op qp (buf_view v) (as_env s) = (Ret a, as_env s) →
  ibv_post_send (qp_ t) (expected_wr op v cb) (w_nic (op_world (as_env s))) = (0%Z, n) →
  ∃ s1 o, initiate i (inl a) (Some cb) s = (Ret tt, s1) ∧
    as_callbacks s1 = <[cb:=i]> (as_callbacks s) ∧
    as_ops s1 !! i = Some o ∧ ao_completions o = [] ∧
    ∀ s2 wc, wc_wr_id wc = cb → as_ops s2 !! i = Some o → as_callbacks s2 !! cb = Some i →
      ∃ s3, execute_callback_asio wc s2 =
          (if decide (wc_status wc = IBV_WC_SUCCESS) then Ret tt else Terminate, s3) ∧
        (wc_status wc = IBV_WC_SUCCESS →
         as_callbacks s3 = delete cb (as_callbacks s2) ∧
         ∃ o', as_ops s3 !! i = Some o' ∧ ao_self_refs o' = 0 ∧
           ao_completions o' = [(None, inl (expected_result op v wc))]).
Proof.
  intros Hq Hv%op_valid_passes Hissue Hop. rewrite (issue_make op qp _ _ t Hq Hv) in Hissue.
  injection Hissue as <-.
  destruct (send_suspend_spec op qp v _ cb (as_env s) t 0 n (fresh_view op qp v) Hq Hv Hop)
    as (aw & Hrun & _ & _ & Hcases & Hres).
  destruct Hcases as [(_ & Hex & _)|(? & _)]; [|done].
  assert (∃ env', awaitable_suspend (inl (send_awaitable_view qp v (op_args op).1 (op_args op).2))
    cb (as_env s) = (Ret (true, inl aw), env')) as [env' Hsus].
  { unfold awaitable_suspend. rewrite (bind_ret _ _ _ _ _ Hrun). by eexists. }
  do 2 eexists. split; [exact (initiate_run i _ cb true _ _ s Hsus)|].
  split; [done|]. split; [apply lookup_insert_eq|]. split; [done|].
  intros s2 wc <- Ho Hcb.
  destruct (execute_asio_run wc i _ s2 Hcb Ho) as (s3 & Hexec & _ & Hok).
  exists s3. split.
  { rewrite Hexec. unfold callback_skips. cbn [ao_awaitable orb].
    destruct (decide (wc_status wc = IBV_WC_SUCCESS)) as [Hst|Hst];
      [by rewrite bool_decide_eq_true_2|by rewrite bool_decide_eq_false_2]. }
  intros Hst. destruct Hok as (Hops & _ & Hcbs); [by right|]. split; [done|].
  eexists. split; [rewrite Hops; apply lookup_insert_eq|]. split; [done|].
  unfold executed_op. simpl. unfold send_unhandled_exception. rewrite Hex. by rewrite Hres.
Qed.

(** When the post of an asio operation fails, the exception stays in the awaitable: the
    initiating function returns, its callback is freed, and the handler is dropped without
    [complete] ever being called on it, so the coroutine does not get the exception. *)
Theorem asio_failed_start_lost (op : send_op) (qp : Z) (v : mr_view) (i cb : Z)
    (s : asio_state) (t : basic_qp) (a : send_awaitable) (rc : Z) (n : nic) :
  live_qps (as_env s) !! qp = Some t → op_valid t op →
  issue op qp (buf_view v) (as_env s) = (Ret a, as_env s) →
  ibv_post_send (qp_ t) (expected_wr op v cb) (w_nic (op_world (as_env s))) = (rc, n) →
  rc ≠ 0%Z → as_callbacks s !! cb = None →
  ∃ s1 aw e, initiate i (inl a) (Some cb) s = (Ret tt, s1) ∧
    as_ops s1 !! i = Some (AsioOp (inl aw) false 0 []) ∧ as_callbacks s1 = as_callbacks s ∧
    send_unhandled_exception aw = Some e ∧ fitting e.
Proof.
  intros Hq Hv%op_valid_passes Hissue Hop Hrc Hcb. rewrite (issue_make op qp _ _ t Hq Hv) in Hissue.
  injection Hissue as <-.
  destruct (send_suspend_spec op qp v _ cb (as_env s) t rc n (fresh_view op qp v) Hq Hv Hop)
    as (aw & Hrun & _ & _ & Hcases & _).
  destruct Hcases as [(? & _)|(_ & text & Hex & Hlen)]; [done|].
  rewrite bool_decide_eq_false_2 in Hrun by done.
  assert (∃ env', awaitable_suspend (inl (send_awaitable_view qp v (op_args op).1 (op_args op).2))
    cb (as_env s) = (Ret (false, inl aw), env')) as [env' Hsus].
  { unfold awaitable_suspend. rewrite (bind_ret _ _ _ _ _ Hrun). by eexists. }
  eexists _, aw, (RuntimeError text).
  split; [exact (initiate_run i _ cb false _ _ s Hsus)|].
  split_and!; [apply lookup_insert_eq| |done|by exists text].
  simpl. by apply delete_insert_id.
Qed.
End properties.

(** ** The recv conversion, interleaved

    One receive, its completion [wc] and one cancellation signal.  The program counters
    name the statements of the three pieces of code that run concurrently; every
    step is one atomic action: an operation on the flag, on a reference count, on the
    callback object, or a call of [self.complete].  An emission that finds the flag set
    returns without effect and is not a step. *)

(** The initiating lambda: [S_fn] at its start, [S_slot] after [slot.assign], [S_callback]
    after [make_callback], [S_failed] when [suspend] returned false, [S_end] before the
    local pointers are released, [S_done] after; the last two say whether the work
    request was posted. *)
Inductive start_pc := S_fn | S_slot | S_callback | S_failed | S_end (posted : bool) | S_done (posted : bool).

(** The callback: before [test_and_set], after it, after [complete] or the skip, after
    [destroy_callback]; the last two say whether it won the flag. *)
Inductive poll_pc := P_idle | P_won | P_lost | P_ran (won : bool) | P_done (won : bool).

(** The handler of the slot: before [test_and_set], after winning it, after a successful
    [lock], after [complete], at the end; the last says whether it completed. *)
Inductive cancel_pc := C_idle | C_won | C_locked | C_completed | C_done (completed : bool).

Record race := Race {
  r_start : start_pc; r_poll : poll_pc; r_cancel : cancel_pc;
  r_called : bool;
  r_refs : nat;
  r_callback : bool;
  r_out : list completion;
  r_dead : bool }.

Section race.
Context {V : Verbs} {B : Build}.
Variables (aw : recv_awaitable) (wc : ibv_wc) (connected : bool).

Definition aborted : completion := (Some (SystemError operation_aborted), inr (0%Z, None)).
Definition received : completion := (ra_exception_ aw, completed_value (inr aw) wc).

(** [self] has been moved into a shared pointer; the slot may be connected. *)
Definition race_init : race := Race S_fn P_idle C_idle false 1 false [] false.

Inductive race_step : race → race → Prop :=
| step_slot p c called refs cb out :
    race_step (Race S_fn p c called refs cb out false)
              (Race S_slot p c called refs cb out false)
| step_make_callback p c called refs out :
    race_step (Race S_slot p c called refs false out false)
              (Race S_callback p c called (S refs) true out false)
| step_suspend_ok p c called refs cb out :
    race_step (Race S_callback p c called refs cb out false)
              (Race (S_end true) p c called refs cb out false)
| step_suspend_fail p c called refs cb out :
    race_step (Race S_callback p c called refs cb out false)
              (Race S_failed p c called refs cb out false)
| step_suspend_destroy p c called refs out :
    race_step (Race S_failed p c called (S refs) true out false)
              (Race (S_end false) p c called refs false out false)
| step_release b p c called refs cb out :
    race_step (Race (S_end b) p c called (S refs) cb out false)
              (Race (S_done b) p c called refs cb out false)
| step_poll_flag s c called refs out :
    s = S_end true ∨ s = S_done true →
    race_step (Race s P_idle c called refs true out false)
              (Race s (if called then P_lost else P_won) c true refs true out false)
| step_poll_complete s c called refs cb out :
    wc_status wc = IBV_WC_SUCCESS → 0 < refs →
    race_step (Race s P_won c called refs cb out false)
              (Race s (P_ran true) c called refs cb (out ++ [received]) false)
| step_poll_terminate s c called refs cb out :
    wc_status wc ≠ IBV_WC_SUCCESS →
    race_step (Race s P_won c called refs cb out false)
              (Race s P_won c called refs cb out true)
| step_poll_skip s c called refs cb out :
    race_step (Race s P_lost c called refs cb out false)
              (Race s (P_ran false) c called refs cb out false)
| step_poll_destroy s b c called refs out :
    race_step (Race s (P_ran b) c called (S refs) true out false)
              (Race s (P_done b) c called refs false out false)
| step_cancel_flag s p refs cb out :
    s ≠ S_fn → connected = true →
    race_step (Race s p C_idle false refs cb out false)
              (Race s p C_won true refs cb out false)
| step_cancel_lock s p called refs cb out :
    0 < refs →
    race_step (Race s p C_won called refs cb out false)
              (Race s p C_locked called (S refs) cb out false)
| step_cancel_skip s p called cb out :
    race_step (Race s p C_won called 0 cb out false)
              (Race s p (C_done false) called 0 cb out false)
| step_cancel_complete s p called refs cb out :
    race_step (Race s p C_locked called refs cb out false)
              (Race s p C_completed called refs cb (out ++ [aborted]) false)
| step_cancel_release s p called refs cb out :
    race_step (Race s p C_completed called (S refs) cb out false)
              (Race s p (C_done true) called refs cb out false).

(** ** The state is a function of the program counters *)

Definition poll_won (p : poll_pc) : bool :=
  match p with P_won | P_ran true | P_done true => true | _ => false end.
Definition cancel_won (c : cancel_pc) : bool :=
  match c with C_idle => false | _ => true end.
Definition start_refs (s : start_pc) : nat := match s with S_done _ => 0 | _ => 1 end.
Definition has_callback (s : start_pc) (p : poll_pc) : bool :=
  match s, p with
  | S_fn, _ | S_slot, _ | S_end false, _ | S_done false, _ => false
  | _, P_done _ => false
  | _, _ => true
  end.
Definition cancel_refs (c : cancel_pc) : nat :=
  match c with C_locked | C_completed => 1 | _ => 0 end.
Definition outcome_of (p : poll_pc) (c : cancel_pc) : list completion :=
  match p, c with
  | P_ran true, _ | P_done true, _ => [received]
  | _, C_completed | _, C_done true => [aborted]
  | _, _ => []
  end.
Definition state_of (s : start_pc) (p : poll_pc) (c : cancel_pc) (dead : bool) : race :=
  Race s p c (poll_won p || cancel_won c)
    (start_refs s + Nat.b2n (has_callback s p) + cancel_refs c) (has_callback s p)
    (outcome_of p c) dead.

(** Which counters go together. *)
Definition is_posted (s : start_pc) : bool :=
  match s with S_end true | S_done true => true | _ => false end.
Definition poll_idle (p : poll_pc) : bool := match p with P_idle => true | _ => false end.
Definition poll_lost (p : poll_pc) : bool :=
  match p with P_lost | P_ran false | P_done false => true | _ => false end.
Definition coherent (s : start_pc) (p : poll_pc) (c : cancel_pc) : bool :=
  (poll_idle p || is_posted s) &&
  (negb (cancel_won c) || (connected && match s with S_fn => false | _ => true end)) &&
  negb (poll_won p && cancel_won c) &&
  (negb (poll_lost p) || cancel_won c) &&
  match c with
  | C_done false =>
      match s with
      | S_done true => match p with P_done false => true | _ => false end
      | S_done false => true
      | _ => false
      end
  | _ => true
  end.

Definition race_ok (r : race) : Prop :=
  r = state_of (r_start r) (r_poll r) (r_cancel r) (r_dead r) ∧
  coherent (r_start r) (r_poll r) (r_cancel r) = true ∧
  (r_dead r = true → r_poll r = P_won ∧ wc_status wc ≠ IBV_WC_SUCCESS).

Lemma race_ok_init : race_ok race_init.
Proof. by split_and!. Qed.

Lemma race_ok_step r r' : race_ok r → race_step r r' → race_ok r'.
Proof.
  intros (Heq & Hco & Hd) Hstep. unfold race_ok, state_of.
  destruct Hstep; cbn [r_start r_poll r_cancel r_dead] in *;
    pose proof (f_equal r_called Heq) as Hcalled; pose proof (f_equal r_refs Heq) as Hrefs;
    pose proof (f_equal r_callback Heq) as Hcb; pose proof (f_equal r_out Heq) as Hout;
    clear Hd Heq.
  all: try destruct b.
  all: try match goal with H : _ = S_end true ∨ _ = S_done true |- _ => destruct H as [->| ->] end.
  all: try match goal with s : start_pc |- _ => destruct s as [| | | |[]|[]] end;
    try discriminate Hco.
  all: match goal with p : poll_pc |- _ => destruct p as [| | |[]|[]] | _ => idtac end;
    try discriminate Hco; try discriminate Hcb.
  all: match goal with c : cancel_pc |- _ => destruct c as [| | | |[]] | _ => idtac end;
    try discriminate Hco; try discriminate Hrefs; try discriminate Hcalled; try discriminate Hcb.
  all: cbn in Hcalled, Hrefs, Hcb, Hout; subst.
  all: repeat match goal with H : S _ = S _ |- _ => injection H as H end; subst;
    try discriminate; try (exfalso; lia).
  all: unfold coherent in *; cbn in Hco |- *;
    try (exfalso; destruct connected; discriminate Hco).
  all: split_and!; [reflexivity| |done].
  all: destruct connected; first [reflexivity|discriminate|congruence].
Qed.

Lemma race_reachable_ok r : rtc race_step race_init r → race_ok r.
Proof. intros H. eapply rtc_invariant; [apply race_ok_step|done|apply race_ok_init]. Qed.
End race.

(** ** Properties of the interleaved receive *)

Section race_properties.
Context {V : Verbs} {B : Build}.

(** C11: however the three threads interleave, the handler of a receive is completed at most
    once, with the received data or with [operation_aborted]; whenever a thread is about to
    complete it, the handler still exists; and the callback object is freed at most once,
    by the poller or by the failed start. *)
Theorem recv_completes_at_most_once (aw : recv_awaitable) (wc : ibv_wc) (connected : bool)
    (r : race) :
  rtc (race_step aw wc connected) race_init r →
  (r_out r = [] ∨ r_out r = [received aw wc] ∨ (r_out r = [aborted] ∧ connected = true)) ∧
  (r_poll r = P_won ∨ r_cancel r = C_locked → 0 < r_refs r ∧ r_out r = []) ∧
  (∀ b, r_poll r = P_ran b → r_callback r = true).
Proof.
  intros Hr. destruct (race_reachable_ok aw wc connected r Hr) as (Heq & Hco & _).
  rewrite Heq. unfold state_of. cbn [r_out r_poll r_cancel r_refs r_callback].
  revert Hco. unfold coherent.
  destruct (r_start r) as [| | | |[]|[]], (r_poll r) as [| | |[]|[]],
    (r_cancel r) as [| | | |[]], connected; cbn; try discriminate; intros _;
    (split_and!; [auto|intros [?|?]; first [discriminate|split; [lia|reflexivity]]
                 |intros b Hb; first [discriminate|reflexivity]]).
Qed.

(** When no thread can go on and the process has not ended, the handler has been
    completed, with two exceptions: the work request was not posted, or the
    cancellation took the flag and then found the handler gone. *)
Theorem recv_final_states (aw : recv_awaitable) (wc : ibv_wc) (connected : bool) (r : race) :
  rtc (race_step aw wc connected) race_init r →
  (∀ r', ¬ race_step aw wc connected r r') →
  r_dead r = false → wc_status wc = IBV_WC_SUCCESS →
  r_callback r = false ∧ r_refs r = 0 ∧
  ((r_start r = S_done true ∧ (r_out r = [received aw wc] ∨ r_out r = [aborted])) ∨
   (r_start r = S_done true ∧ r_cancel r = C_done false ∧ r_out r = []) ∨
   r_start r = S_done false).
Proof.
  intros Hr Hstuck Hdead Hst. destruct (race_reachable_ok aw wc connected r Hr) as (Heq & Hco & _).
  rewrite Hdead in Heq. rewrite Heq in Hstuck |- *. unfold state_of in *.
  cbn [r_out r_start r_cancel r_refs r_callback]. revert Hco Hstuck. unfold coherent.
  destruct (r_start r) as [| | | |[]|[]], (r_poll r) as [| | |[]|[]],
    (r_cancel r) as [| | | |[]], connected; cbn; try discriminate; intros _ Hstuck;
    try (by split_and!; auto); exfalso; eapply Hstuck;
    solve [ econstructor; (done || lia || auto) | econstructor 1 | econstructor 2].
Qed.

(** C40: there is a schedule in which a receive is posted and completes successfully, the
    cancellation is emitted, and the handler is never completed: the cancellation
    takes the flag, the poller then skips the completion and frees the callback, the last
    owner of the handler, and [lock] fails. *)
Theorem recv_completion_lost (aw : recv_awaitable) (wc : ibv_wc) :
  ∃ r, rtc (race_step aw wc true) race_init r ∧ (∀ r', ¬ race_step aw wc true r r') ∧
    r_dead r = false ∧ r_start r = S_done true ∧ r_poll r = P_done false ∧ r_out r = [].
Proof.
  exists (Race (S_done true) (P_done false) (C_done false) true 0 false [] false).
  split_and!; try done; [|by intros r' Hs; inversion Hs].
  eapply rtc_l; [apply step_slot|]. eapply rtc_l; [apply step_make_callback|].
  eapply rtc_l; [apply step_suspend_ok|]. eapply rtc_l; [apply step_release|].
  eapply rtc_l; [by apply step_cancel_flag|].
  eapply rtc_l; [apply step_poll_flag; by right|]. eapply rtc_l; [apply step_poll_skip|].
  eapply rtc_l; [apply step_poll_destroy|]. eapply rtc_l; [apply step_cancel_skip|].
  apply rtc_refl.
Qed.
End race_properties.

(** ** Witnesses *)

#[local] Instance wit_build : Build := {| NDEBUG := false |}.

Definition wit_asio (env : op_env (V:=good)) : asio_state (V:=good) :=
  AsioState (V:=good) ∅ ∅ env [].

Lemma asio_op_completes_witness :
  ∃ s1 o, initiate (V:=good) 1 (inl (send_awaitable_view 7 wit_local IBV_WR_RDMA_READ
      (args_remote wit_remote))) (Some 50%Z) (wit_asio wit_env) = (Ret tt, s1) ∧
    as_ops s1 !! 1%Z = Some o ∧
    ∃ s3, execute_callback_asio (V:=good) (IbvWc 50 IBV_WC_SUCCESS 64 0 0) s1 = (Ret tt, s3) ∧
      ∃ o', as_ops s3 !! 1%Z = Some o' ∧ ao_completions o' = [(None, inl 64%Z)].
Proof.
  destruct (asio_op_completes (V:=good) (OpRead wit_remote) 7 wit_local 1 50 (wit_asio wit_env)
    wit_qp (send_awaitable_view 7 wit_local IBV_WR_RDMA_READ (args_remote wit_remote))
    (ref_post_send (λ _, false) (expected_wr (OpRead wit_remote) wit_local 50)
      (RNic 0 ∅ {[1%Z := IBV_QPS_RTS]} [])).2)
    as (s1 & o & Hrun & Hcbs & Ho & _ & Hexec);
    [reflexivity|vm_compute; congruence|reflexivity|reflexivity|].
  exists s1, o. split; [exact Hrun|]. split; [exact Ho|].
  destruct (Hexec s1 (IbvWc 50 IBV_WC_SUCCESS 64 0 0)) as (s3 & Hr & Hok);
    [reflexivity|exact Ho|rewrite Hcbs; reflexivity|].
  exists s3. split; [exact Hr|]. destruct (Hok eq_refl) as (_ & o' & Ho' & _ & Hc).
  exists o'. split; [exact Ho'|exact Hc].
Defined.

(** The first call of this provider, the post, fails. *)
Definition bad0 : Verbs := ref_verbs (λ i, bool_decide (i = 0)).
Definition wit_bad_env : op_env (V:=bad0) :=
  OpEnv (V:=bad0) {[7%Z := wit_qp]}
    (World (V:=bad0) (RNic 0 ∅ {[1%Z := IBV_QPS_RTS]} []) [] 2).

Lemma asio_failed_start_lost_witness :
  ∃ s1 aw e, initiate (V:=bad0) 1 (inl (send_awaitable_view 7 wit_local IBV_WR_SEND args_send))
      (Some 50%Z) (AsioState (V:=bad0) ∅ ∅ wit_bad_env []) = (Ret tt, s1) ∧
    as_ops s1 !! 1%Z = Some (AsioOp (inl aw) false 0 []) ∧ as_callbacks s1 = ∅ ∧
    send_unhandled_exception aw = Some e ∧ fitting e.
Proof.
  apply (asio_failed_start_lost (V:=bad0) OpSend 7 wit_local 1 50
    (AsioState (V:=bad0) ∅ ∅ wit_bad_env []) wit_qp
    (send_awaitable_view 7 wit_local IBV_WR_SEND args_send) 12 (tick (RNic 0 ∅ {[1%Z := IBV_QPS_RTS]} [])));
    [reflexivity|exact I|reflexivity|reflexivity|discriminate|reflexivity].
Defined.

Definition wit_recv : recv_awaitable := recv_awaitable_view 7 wit_local.
Definition wit_recv_wc : ibv_wc := IbvWc 50 IBV_WC_SUCCESS 12 0 0.

(** A run without cancellation. *)
Lemma wit_race_run :
  rtc (race_step (V:=good) wit_recv wit_recv_wc false) race_init
    (Race (S_done true) (P_done true) C_idle true 0 false
       [received (V:=good) wit_recv wit_recv_wc] false).
Proof.
  eapply rtc_l; [apply step_slot|]. eapply rtc_l; [apply step_make_callback|].
  eapply rtc_l; [apply step_suspend_ok|]. eapply rtc_l; [apply step_release|].
  eapply rtc_l; [apply step_poll_flag; by right|].
  eapply rtc_l; [apply step_poll_complete; [reflexivity|lia]|].
  eapply rtc_l; [apply step_poll_destroy|]. apply rtc_refl.
Qed.

Lemma recv_completes_at_most_once_witness :
  received (V:=good) wit_recv wit_recv_wc = (None, inr (12%Z, None)) ∧
  ([received (V:=good) wit_recv wit_recv_wc] = [] ∨
   [received (V:=good) wit_recv wit_recv_wc] = [(None, inr (12%Z, None))] ∨
   [received (V:=good) wit_recv wit_recv_wc] = [aborted] ∧ false = true).
Proof.
  split; [reflexivity|].
  destruct (recv_completes_at_most_once (V:=good) wit_recv wit_recv_wc false _ wit_race_run)
    as [H _]. exact H.
Defined.

Lemma recv_final_states_witness :
  rtc (race_step (V:=good) wit_recv wit_recv_wc false) race_init
    (Race (S_done true) (P_done true) C_idle true 0 false
       [received (V:=good) wit_recv wit_recv_wc] false) ∧ 0 = 0.
Proof.
  split; [exact wit_race_run|].
  destruct (recv_final_states (V:=good) wit_recv wit_recv_wc false _ wit_race_run
    ltac:(by intros r' Hs; inversion Hs) eq_refl eq_refl) as (_ & Hrefs & _).
  exact Hrefs.
Defined.
