(* ===== verification/Handshake.v ===== *)
(** * qp_transmission.cc, qp_acceptor.cc, qp_connector.cc: connecting two queue pairs

    The exchange of queue pair descriptions over TCP.  A peer has its world, the bytes
    waiting in its socket and the bytes it wrote; asio's [async_write] writes the whole
    buffer and [async_read] fills the whole buffer, or they throw, as documented.  A
    coroutine awaits one operation at a time, so each is a sequence of operations. *)

From S2P Require Import Prelude Verbs RefNic Errors Serdes Device Resources Mr Qp.
From stdpp Require Import options.

Section handshake.
Context {V : Verbs} {H : Host}.

(** [pollers_] keeps the completion queues alive. *)
Record peer := Peer {
  peer_world : world;
  sock_in : bytes;
  sock_out : bytes;
  sock_broken : bool;
  pollers_ : list cq }.

Definition on_peer_world {A} (m : M world A) : M peer A :=
  zoom peer_world (λ w p, Peer w (sock_in p) (sock_out p) (sock_broken p) (pollers_ p)) m.

(** [asio::async_write] and [asio::async_read] on the socket. *)
Definition async_write (bs : bytes) : M peer nat :=
  p ← mget;
  if sock_broken p then mthrow_exn (SystemError operation_aborted)
  else mmodify (λ p, Peer (peer_world p) (sock_in p) (sock_out p ++ bs) (sock_broken p)
                       (pollers_ p)) ;;
       mret (length bs).

Definition async_read (n : nat) : M peer bytes :=
  p ← mget;
  if bool_decide (length (sock_in p) < n) then mthrow_exn (SystemError eof)
  else mmodify (λ p, Peer (peer_world p) (drop n (sock_in p)) (sock_out p) (sock_broken p)
                       (pollers_ p)) ;;
       mret (take n (sock_in p)).

(** A local computation on bytes: [std::back_inserter] on an empty vector, or a read of an
    array; only its result is kept. *)
Definition on_bytes {A} (m : M bytes A) (bs : bytes) : M peer (A * bytes) := λ p,
  match m bs with
  | (Ret a, bs') => (Ret (a, bs'), p)
  | (Throw e, _) => (Throw e, p)
  | (Terminate, _) => (Terminate, p)
  | (Abort, _) => (Abort, p)
  | (Undefined, _) => (Undefined, p)
  end.

(** ** qp_transmission.cc *)

Definition send_qp `{Build} (t : basic_qp) : M peer unit :=
  local_qp_data ← on_bytes (qp_serialize t) [];
  cassert (bool_decide (length local_qp_data.2 ≠ 0)) ;;
  async_write local_qp_data.2 ;;
  mret tt.

Definition recv_qp : M peer deserialized_qp :=
  header_bytes ← async_read kSerializedSize_qp;
  remote_qp ← on_bytes deserialized_qp_deserialize header_bytes;
  let h := header remote_qp.1 in
  if bool_decide (hdr_user_data_size h > 0)%Z
  then user_data ← async_read (Z.to_nat (hdr_user_data_size h));
       mret (DeserializedQp h user_data)
  else mret (DeserializedQp h []).

(** ** Shared pieces *)

(** [alloc_cq]: a completion queue with its poller. *)
Definition alloc_cq (p : pd) (nr_cqe : Z) : M peer cq :=
  c ← on_peer_world (cq_ctor (device_ptr p) nr_cqe);
  mmodify (λ s, Peer (peer_world s) (sock_in s) (sock_out s) (sock_broken s)
                  (pollers_ s ++ [c])) ;;
  mret c.

(** A queue pair owned by a local [std::shared_ptr]: an exception destroys it. *)
Definition owning {A} (t : basic_qp) (m : M peer A) : M peer A :=
  try_catch m (λ e, on_peer_world (on_object t qp_dtor) ;; mthrow_exn e).

(** Run member functions on the object; an exception destroys it in the state it has. *)
Definition on_owned (t : basic_qp) (m : M qp_world unit) : M peer basic_qp :=
  on_peer_world (on_object t (try_catch m (λ e, qp_dtor ;; mthrow_exn e))).

(** ** qp_acceptor.cc *)

(** [incoming]: what [async_accept] gives, the bytes of a connection or an exception. *)
Definition accept `{Build} (p : pd) (s : option srq) (incoming : exn + bytes)
    : M peer (option basic_qp) :=
  try_catch
    (match incoming with
     | inl e => mthrow_exn e
     | inr bs => mmodify (λ x, Peer (peer_world x) bs [] (sock_broken x) (pollers_ x))
     end ;;
     remote_qp ← recv_qp;
     send_cq ← alloc_cq p 256;
     recv_cq ← alloc_cq p 256;
     let h := header remote_qp in
     t ← on_peer_world (qp_ctor_connected (hdr_lid h) (hdr_qp_num h) (hdr_sq_psn h)
           (hdr_gid h) p recv_cq send_cq s (QpConfig 2048 2048));
     let local_qp := set_user_data_ (des_user_data remote_qp) t in
     owning local_qp (send_qp local_qp) ;;
     mret (Some local_qp))
    (λ _, mret None).

(** ** qp_connector.cc *)

(** [from_socket] up to and including [send_qp], and from [recv_qp] on. *)
Definition from_socket_open `{Build} (p : pd) (s : option srq) : M peer basic_qp :=
  send_cq ← alloc_cq p 512;
  let recv_cq := send_cq in
  qp_ptr ← on_peer_world (qp_ctor p recv_cq send_cq s (QpConfig 512 512));
  owning qp_ptr (send_qp qp_ptr) ;;
  mret qp_ptr.

Definition from_socket_finish (qp_ptr : basic_qp) : M peer basic_qp :=
  remote_qp ← owning qp_ptr recv_qp;
  let h := header remote_qp in
  on_owned qp_ptr
    (rtr (hdr_lid h) (hdr_qp_num h) (hdr_sq_psn h) (hdr_gid h) ;;
     upd (set_user_data_ (des_user_data remote_qp)) ;;
     rts).

Definition from_socket `{Build} (p : pd) (s : option srq) : M peer basic_qp :=
  t ← from_socket_open p s; from_socket_finish t.

(** [connect]: an empty resolution ends the process; [established] is what
    [async_connect] gives. *)
Definition connect `{Build} (p : pd) (s : option srq) (endpoints : list string)
    (established : option exn) : M peer basic_qp :=
  match endpoints with
  | [] => mterminate
  | _ =>
      match established with
      | Some e => mthrow_exn e
      | None => from_socket p s
      end
  end.
End handshake.

(** ** Lemmas: the transmission *)

Section lemmas.
Context {V : Verbs} {B : Build}.

Definition with_in (bs : bytes) (p : peer) : peer :=
  Peer (peer_world p) bs (sock_out p) (sock_broken p) (pollers_ p).

Lemma async_read_run n bs rest p :
  sock_in p = bs ++ rest → length bs = n → async_read n p = (Ret bs, with_in rest p).
Proof.
  intros Hin Hn. unfold async_read. rewrite bind_mget, Hin, bool_decide_eq_false_2
    by (rewrite length_app; lia).
  rewrite bind_mmodify. subst n. rewrite Hin, take_app_length, drop_app_length. reflexivity.
Qed.

Lemma send_qp_run {H : Host} t q p :
  qp_ t = Some q → sock_broken p = false →
  send_qp t p = (Ret tt, Peer (peer_world p) (sock_in p)
    (sock_out p ++ header_image (qp_describes t q) ++ user_data_ t) false (pollers_ p)).
Proof.
  intros Hq Hb. unfold send_qp, on_bytes. unfold mbind at 1, M_bind at 1.
  rewrite (qp_serialize_image t q Hq). cbn [snd].
  rewrite (bind_ret _ _ p tt p).
  2:{ unfold cassert. rewrite bool_decide_eq_true_2; [by rewrite orb_true_r|].
      unfold header_image. rewrite !length_app, be_image_length. lia. }
  unfold async_write. unfold mbind, M_bind, mget, mmodify. rewrite Hb. simpl. by rewrite Hb.
Qed.

Lemma recv_qp_run {H : Host} h ud rest p :
  header_ok h → length ud = Z.to_nat (hdr_user_data_size h) →
  sock_in p = header_image h ++ ud ++ rest →
  recv_qp p = (Ret (DeserializedQp h ud), with_in rest p).
Proof.
  intros Hok Hud Hin. unfold recv_qp.
  rewrite (bind_ret _ _ _ _ _ (async_read_run _ _ _ p Hin
    (header_image_length h (proj2 (proj2 (proj2 (proj2 Hok))))))).
  pose proof (header_deserialize h [] Hok) as Hd. rewrite app_nil_r in Hd.
  unfold on_bytes. unfold mbind at 1, M_bind at 1. rewrite Hd. cbn [fst header].
  case_bool_decide as Hs.
  - by rewrite (bind_ret _ _ _ _ _ (async_read_run _ ud rest (with_in (ud ++ rest) p) eq_refl Hud)).
  - destruct ud as [|]; [done|]. simpl in Hud. lia.
Qed.

(** ** Lemmas: the two ends *)

Lemma modify_qp_ret_inv attr mask message t w r s :
  modify_qp attr mask message (QpWorld t w) = (Ret r, s) →
  ∃ n, s = QpWorld t (after w n (EvModifyQp (qp_ t) attr mask 0)).
Proof.
  destruct (ibv_modify_qp (qp_ t) attr mask (w_nic w)) as [rc n] eqn:Hop.
  destruct (decide (rc = 0%Z)) as [->|Hrc].
  - rewrite (modify_qp_run_ok attr mask message t w n Hop). intros [= _ <-]. eauto.
  - by destruct (modify_qp_throw attr mask message t w rc n Hop Hrc) as (e & _ & ->).
Qed.

Lemma rethrow_ret {S A C} (m : M S C) e s (a : A) s' :
  (m ;; mthrow_exn e) s = (Ret a, s') → False.
Proof. by intros (c & s1 & _ & Hk)%bind_ret_inv. Qed.

Lemma on_object_ret t m w t' w' :
  on_object t m w = (Ret t', w') → ∃ r, m (QpWorld t w) = (Ret r, QpWorld t' w').
Proof.
  unfold on_object. destruct (m (QpWorld t w)) as [[r| | | |] [t1 w1]]; try done.
  intros [= -> ->]. eauto.
Qed.

Lemma owning_ret {A} t (m : M peer A) p a p' : owning t m p = (Ret a, p') → m p = (Ret a, p').
Proof.
  unfold owning. intros [Hm|(e & p1 & _ & Hh)]%try_catch_ret_inv; [done|].
  by apply rethrow_ret in Hh.
Qed.

(** Moving an initialised queue pair up, with the peer's user data stored in between. *)
Lemma finish_calls t q lid qpn psn gid ud p t' p' :
  qp_ t = Some q →
  on_owned t (rtr lid qpn psn gid ;; upd (set_user_data_ ud) ;; rts) p = (Ret t', p') →
  t' = set_user_data_ ud t ∧
  calls (peer_world p) (transition_ev q 0 <$> drop 1 (bring_up t lid qpn psn gid)) (peer_world p').
Proof.
  intros Hq. unfold on_owned, on_peer_world. intros (w' & Hrun & ->)%zoom_ret_inv.
  apply on_object_ret in Hrun as [r [Hm|(e & s1 & _ & Hh)]%try_catch_ret_inv];
    [|by apply rethrow_ret in Hh].
  apply bind_ret_inv in Hm as (r1 & s1 & Hrtr & Hm).
  unfold rtr, get_this in Hrtr. apply bind_ret_inv in Hrtr as (t1 & s0 & Hget & Hrtr).
  injection Hget as <- <-. apply modify_qp_ret_inv in Hrtr as [n1 ->].
  apply bind_ret_inv in Hm as (r2 & s2 & Hupd & Hrts). injection Hupd as _ <-.
  unfold rts, get_this in Hrts. apply bind_ret_inv in Hrts as (t2 & s3 & Hget & Hrts).
  injection Hget as <- <-. apply modify_qp_ret_inv in Hrts as [n2 Heq].
  cbn [this env] in Heq. injection Heq as -> ->. split; [done|]. simpl. rewrite Hq.
  unfold calls. simpl. by rewrite <-app_assoc.
Qed.

(** The transmission leaves the pollers alone. *)
Lemma async_read_keeps n p bs p' : async_read n p = (Ret bs, p') → pollers_ p' = pollers_ p.
Proof.
  unfold async_read. rewrite bind_mget. case_bool_decide; [done|]. munfold.
  by intros [= _ <-].
Qed.
Lemma async_write_keeps bs p n p' : async_write bs p = (Ret n, p') → pollers_ p' = pollers_ p.
Proof.
  unfold async_write. rewrite bind_mget. destruct (sock_broken p); [done|]. munfold.
  by intros [= _ <-].
Qed.
Lemma on_bytes_keeps {A} (m : M bytes A) bs p r p' : on_bytes m bs p = (Ret r, p') → p' = p.
Proof. unfold on_bytes. destruct (m bs) as [[] ?]; try done. by intros [= _ <-]. Qed.

Lemma send_qp_keeps {H : Host} t p u p' : send_qp t p = (Ret u, p') → pollers_ p' = pollers_ p.
Proof.
  unfold send_qp. intros (r & p1 & ->%on_bytes_keeps & Hs)%bind_ret_inv.
  apply bind_ret_inv in Hs as (u1 & p2 & Hc & Hs).
  apply bind_ret_inv in Hs as (n & p3 & Hw%async_write_keeps & [= _ <-]).
  unfold cassert in Hc. destruct (NDEBUG || _); [|done]. injection Hc as _ <-. exact Hw.
Qed.
Lemma recv_qp_keeps {H : Host} p d p' : recv_qp p = (Ret d, p') → pollers_ p' = pollers_ p.
Proof.
  unfold recv_qp. intros (hb & p1 & Hr%async_read_keeps & Hs)%bind_ret_inv.
  apply bind_ret_inv in Hs as (rq & p2 & ->%on_bytes_keeps & Hs).
  case_bool_decide.
  - apply bind_ret_inv in Hs as (ud & p3 & Hu%async_read_keeps & [= _ <-]). by rewrite Hu.
  - by injection Hs as _ <-.
Qed.

(** [alloc_cq] adds the poller of the queue it makes. *)
Lemma alloc_cq_ret {H : Host} p nr c cq c1 :
  alloc_cq p nr c = (Ret cq, c1) →
  sock_in c1 = sock_in c ∧ sock_out c1 = sock_out c ∧ sock_broken c1 = sock_broken c ∧
  pollers_ c1 = pollers_ c ++ [cq].
Proof.
  unfold alloc_cq. intros (cq' & p0 & (w & _ & ->)%zoom_ret_inv & Hcq)%bind_ret_inv.
  apply bind_ret_inv in Hcq as (u & p2 & Hmod & Hcq). injection Hmod as _ <-.
  by injection Hcq as <- <-.
Qed.

(** The connector's queue pair after its first half, and what it wrote. *)
Lemma open_ret {H : Host} p s c t c1 :
  from_socket_open p s c = (Ret t, c1) → sock_out c = [] → sock_broken c = false →
  ∃ q, qp_ t = Some q ∧ user_data_ t = [] ∧ qpd_ t = p ∧
    sock_out c1 = header_image (qp_describes t q).
Proof.
  intros Hrun Hout Hb. unfold from_socket_open, alloc_cq in Hrun.
  apply bind_ret_inv in Hrun as (cq & p1 & Hcq & Hrun).
  apply bind_ret_inv in Hcq as (cq' & p0 & (w & _ & ->)%zoom_ret_inv & Hcq).
  apply bind_ret_inv in Hcq as (u & p2 & Hmod & Hcq). injection Hmod as _ <-.
  injection Hcq as <- <-.
  apply bind_ret_inv in Hrun as (t0 & p3 & (w1 & Hctor & ->)%zoom_ret_inv & Hrun).
  apply bind_ret_inv in Hrun as (u' & p4 & Hsend%owning_ret & Hrun). injection Hrun as <- <-.
  pose proof (qp_ctor_attempt p cq' cq' s (QpConfig 512 512) w) as Hat.
  simpl in Hctor. rewrite Hctor in Hat. destruct Hat as (q & -> & _).
  exists q. split_and!; try done.
  erewrite send_qp_run in Hsend; [|reflexivity|exact Hb].
  injection Hsend as _ <-. simpl. by rewrite Hout, app_nil_r.
Qed.

(** The acceptor, given a well-formed description. *)
Lemma accept_ret {H : Host} p s h ud c t c1 :
  header_ok h → length ud = Z.to_nat (hdr_user_data_size h) → sock_broken c = false →
  accept p s (inr (header_image h ++ ud)) c = (Ret (Some t), c1) →
  ∃ q w, qp_ t = Some q ∧ user_data_ t = ud ∧ qpd_ t = p ∧
    sock_out c1 = header_image (qp_describes t q) ++ ud ∧
    calls w (EvCreateQp (create_attr t) (Some q) :: (transition_ev q 0 <$>
      bring_up t (hdr_lid h) (hdr_qp_num h) (hdr_sq_psn h) (hdr_gid h))) (peer_world c1).
Proof.
  intros Hok Hud Hb. unfold accept. intros [Hrun|(e & p1 & _ & Hh)]%try_catch_ret_inv; [|done].
  apply bind_ret_inv in Hrun as (u & p1 & Hmod & Hrun). injection Hmod as _ <-.
  apply bind_ret_inv in Hrun as (rq & p2 & Hrecv & Hrun).
  erewrite (recv_qp_run h ud []) in Hrecv; [|done|done|by rewrite app_nil_r].
  injection Hrecv as <- <-. unfold alloc_cq in Hrun.
  apply bind_ret_inv in Hrun as (cq1 & p3 & Hcq & Hrun).
  apply bind_ret_inv in Hcq as (cq1' & p4 & (w1 & _ & ->)%zoom_ret_inv & Hcq).
  apply bind_ret_inv in Hcq as (u1 & p5 & Hmod & Hcq). injection Hmod as _ <-.
  injection Hcq as <- <-.
  apply bind_ret_inv in Hrun as (cq2 & p6 & Hcq & Hrun).
  apply bind_ret_inv in Hcq as (cq2' & p7 & (w2 & _ & ->)%zoom_ret_inv & Hcq).
  apply bind_ret_inv in Hcq as (u2 & p8 & Hmod & Hcq). injection Hmod as _ <-.
  injection Hcq as <- <-.
  apply bind_ret_inv in Hrun as (t0 & p9 & (w3 & Hctor & ->)%zoom_ret_inv & Hrun).
  apply bind_ret_inv in Hrun as (u3 & p10 & Hsend%owning_ret & Hrun). injection Hrun as <- <-.
  pose proof (qp_ctor_connected_attempt (hdr_lid h) (hdr_qp_num h) (hdr_sq_psn h) (hdr_gid h)
    p cq2' cq1' s (QpConfig 2048 2048) w2) as Hat.
  simpl in Hctor. rewrite Hctor in Hat. destruct Hat as (q & -> & _ & _ & [Hc _]).
  exists q, w2.
  erewrite (send_qp_run _ q) in Hsend; [|reflexivity|exact Hb]. injection Hsend as _ <-.
  split_and!; done.
Qed.
End lemmas.

(** ** Lemmas: the acceptor never fails *)

Section totality.
Context {V : Verbs} {H : Host} {B : Build}.

Lemma deserialize_int_total n bs : n ≤ length bs →
  ∃ v, deserialize_int n bs = (Ret v, drop n bs).
Proof.
  intros Hn. unfold deserialize_int, copy_n. munfold. by rewrite bool_decide_eq_true_2; [eexists|].
Qed.

Lemma header_deserialize_total bs : kSerializedSize_qp ≤ length bs →
  ∃ d rest, deserialized_qp_deserialize bs = (Ret d, rest).
Proof.
  unfold kSerializedSize_qp, gid_size. intros Hlen. unfold deserialized_qp_deserialize.
  destruct (deserialize_int_total 2 bs) as [v1 H1]; [lia|].
  destruct (deserialize_int_total 4 (drop 2 bs)) as [v2 H2]; [rewrite length_drop; lia|].
  destruct (deserialize_int_total 4 (drop 4 (drop 2 bs))) as [v3 H3];
    [rewrite !length_drop; lia|].
  destruct (deserialize_int_total 4 (drop 4 (drop 4 (drop 2 bs)))) as [v4 H4];
    [rewrite !length_drop; lia|].
  rewrite (bind_ret _ _ _ _ _ H1), (bind_ret _ _ _ _ _ H2), (bind_ret _ _ _ _ _ H3),
    (bind_ret _ _ _ _ _ H4).
  unfold deserialize_gid, copy_n, gid_size. munfold.
  rewrite bool_decide_eq_true_2 by (rewrite !length_drop; lia). by do 2 eexists.
Qed.

(** A computation that returns or throws. *)
Definition tame {S A} (m : M S A) : Prop :=
  ∀ s, (∃ a s', m s = (Ret a, s')) ∨ (∃ e s', m s = (Throw e, s')).

Lemma tame_ret {S A} (a : A) : tame (S:=S) (mret a).
Proof. intros s. left. by do 2 eexists. Qed.
Lemma tame_throw {S A} e : tame (S:=S) (A:=A) (mthrow_exn e).
Proof. intros s. right. by do 2 eexists. Qed.
Lemma tame_modify {S} (f : S → S) : tame (mmodify f).
Proof. intros s. left. by do 2 eexists. Qed.
Lemma tame_bind {S A C} (m : M S A) (k : A → M S C) :
  tame m → (∀ a, tame (k a)) → tame (m ≫= k).
Proof.
  intros Hm Hk s. destruct (Hm s) as [(a & s' & E)|(e & s' & E)].
  - rewrite (bind_ret _ _ _ _ _ E). apply Hk.
  - rewrite (bind_throw _ _ _ _ _ E). right. by do 2 eexists.
Qed.
Lemma tame_try {S A} (m : M S A) h : tame m → (∀ e, tame (h e)) → tame (try_catch m h).
Proof.
  intros Hm Hh s. unfold try_catch. destruct (Hm s) as [(a & s' & ->)|(e & s' & ->)]; [|apply Hh].
  left. by do 2 eexists.
Qed.
Lemma tame_zoom {S T A} (get : S → T) put (m : M T A) : tame m → tame (zoom get put m).
Proof.
  intros Hm s. unfold zoom. destruct (Hm (get s)) as [(a & t & ->)|(e & t & ->)];
    [left|right]; by do 2 eexists.
Qed.

Lemma tame_async_read n : tame (async_read n).
Proof.
  intros p. unfold async_read. rewrite bind_mget. case_bool_decide; [right|left];
    by do 2 eexists.
Qed.

Lemma tame_recv_qp : tame recv_qp.
Proof.
  intros p. unfold recv_qp.
  destruct (tame_async_read kSerializedSize_qp p) as [(bs & p1 & E)|(e & p1 & E)].
  2:{ right. rewrite (bind_throw _ _ _ _ _ E). by do 2 eexists. }
  rewrite (bind_ret _ _ _ _ _ E).
  assert (kSerializedSize_qp ≤ length bs) as Hlen.
  { unfold async_read in E. rewrite bind_mget in E. case_bool_decide; [done|].
    rewrite bind_mmodify in E. injection E as <- _. rewrite length_take. lia. }
  destruct (header_deserialize_total bs Hlen) as (d & rest & Hd).
  unfold on_bytes. unfold mbind at 1, M_bind at 1. rewrite Hd.
  revert p1 E. intros p1 _. revert p1. change (tame (A:=deserialized_qp) (S:=peer)
    (if bool_decide (hdr_user_data_size (header (d, rest).1) > 0)%Z then
      user_data ← async_read (Z.to_nat (hdr_user_data_size (header (d, rest).1)));
      mret (DeserializedQp (header (d, rest).1) user_data)
     else mret (DeserializedQp (header (d, rest).1) []))).
  case_bool_decide; [|apply tame_ret].
  apply tame_bind; [apply tame_async_read|intros; apply tame_ret].
Qed.

Lemma tame_alloc_cq p n : tame (alloc_cq p n).
Proof.
  unfold alloc_cq. apply tame_bind; [|intros; apply tame_bind; [apply tame_modify|intros; apply tame_ret]].
  apply tame_zoom. intros w.
  pose proof (create_or_throw (ibv_create_cq (ctx_ (device_ptr p)) (i32 n)) (EvCreateCq (i32 n))
    (λ c, Cq (device_ptr p) c) "failed to create cq" w) as Hc.
  destruct (cq_ctor (device_ptr p) n w) as [r w'] eqn:E. unfold cq_ctor in E.
  cbv beta in Hc. rewrite E in Hc. destruct r; try done; [left|right]; by do 2 eexists.
Qed.

Lemma tame_dtor t : tame (on_object t qp_dtor).
Proof.
  intros w. left. unfold on_object, qp_dtor, destroy, err, get_this, on_world, vcall. munfold. simpl.
  destruct (qp_ t) as [q|] eqn:Hq; simpl; [|by do 2 eexists].
  rewrite Hq. destruct (ibv_modify_qp _ _ _ _) as [rc n]. simpl.
  destruct (ibv_destroy_qp _ _) as [rc' n']. by do 2 eexists.
Qed.

Lemma tame_send_owned t q : qp_ t = Some q → tame (owning t (send_qp t)).
Proof.
  intros Hq. apply tame_try.
  2:{ intros e. apply tame_bind; [apply tame_zoom, tame_dtor|intros; apply tame_throw]. }
  intros p. destruct (sock_broken p) eqn:Hb.
  - right. unfold send_qp, on_bytes. unfold mbind at 1, M_bind at 1.
    rewrite (qp_serialize_image t q Hq). cbn [snd]. rewrite (bind_ret _ _ p tt p).
    2:{ unfold cassert. rewrite bool_decide_eq_true_2; [by rewrite orb_true_r|].
        unfold header_image. rewrite !length_app, be_image_length. lia. }
    unfold async_write. unfold mbind, M_bind, mget. rewrite Hb. by do 2 eexists.
  - left. rewrite (send_qp_run t q p Hq Hb). by do 2 eexists.
Qed.

(** The end of [accept]: the queue pair and the reply. *)
Lemma tame_accept_tail p rcq scq s (rq : deserialized_qp) :
  tame (t ← on_peer_world (qp_ctor_connected (hdr_lid (header rq)) (hdr_qp_num (header rq))
          (hdr_sq_psn (header rq)) (hdr_gid (header rq)) p rcq scq s (QpConfig 2048 2048));
        owning (set_user_data_ (des_user_data rq) t) (send_qp (set_user_data_ (des_user_data rq) t)) ;;
        mret (Some (set_user_data_ (des_user_data rq) t))).
Proof.
  intros c.
  pose proof (qp_ctor_connected_attempt (hdr_lid (header rq)) (hdr_qp_num (header rq))
    (hdr_sq_psn (header rq)) (hdr_gid (header rq)) p rcq scq s (QpConfig 2048 2048)
    (peer_world c)) as Hat.
  set (ctor := qp_ctor_connected (hdr_lid (header rq)) (hdr_qp_num (header rq))
    (hdr_sq_psn (header rq)) (hdr_gid (header rq)) p rcq scq s (QpConfig 2048 2048)) in *.
  destruct (ctor (peer_world c)) as [r w1] eqn:E.
  assert (on_peer_world ctor c = (r, Peer w1 (sock_in c) (sock_out c) (sock_broken c) (pollers_ c)))
    as Hrun by (unfold on_peer_world, zoom; by rewrite E).
  destruct r as [t|e| | |]; simpl in Hat; try done.
  - rewrite (bind_ret _ _ _ _ _ Hrun). destruct Hat as (q & -> & _).
    apply (tame_bind (C:=option basic_qp)); [by apply (tame_send_owned _ q)|intros; apply tame_ret].
  - right. rewrite (bind_throw _ _ _ _ _ Hrun). by do 2 eexists.
Qed.
End totality.

(** ** Properties *)

Section properties.
Context {V : Verbs} {B : Build}.

(** What [send_qp] puts on a connection, [recv_qp] takes off it on any other host: the
    description of the queue pair and its user data, and not a byte more, as long as the
    user data are smaller than 4 GiB. *)
Theorem transmission_roundtrip (sender receiver : Host) (t : basic_qp) (q : ibv_qp)
    (p p' : peer) (rest : bytes) :
  qp_ t = Some q → header_ok (qp_describes t q) → sock_broken p = false → sock_out p = [] →
  (Z.of_nat (length (user_data_ t)) < 2 ^ 32)%Z →
  ∃ p1, send_qp (H:=sender) t p = (Ret tt, p1) ∧
    (sock_in p' = sock_out p1 ++ rest →
     recv_qp (H:=receiver) p' =
       (Ret (DeserializedQp (qp_describes t q) (user_data_ t)), with_in rest p')).
Proof.
  intros Hq Hok Hb Hout Hlen. eexists. split; [by apply send_qp_run|].
  cbn [sock_out]. rewrite Hout, app_nil_l. intros Hin. rewrite <-app_assoc in Hin.
  apply recv_qp_run; [done| |done]. simpl. rewrite u32_small by lia. lia.
Qed.

(** The calls [tr] made [q], the queue pair of [t], talk to the queue pair [q'] of [t']. *)
Definition connects (tr : list verbs_ev) (t : basic_qp) (q : ibv_qp) (t' : basic_qp)
    (q' : ibv_qp) : Prop :=
  (∃ a m, EvModifyQp (Some q) a m 0 ∈ tr ∧ qa_qp_state a = IBV_QPS_RTR ∧
     qa_dest_qp_num a = qp_num q' ∧ qa_rq_psn a = sq_psn_ t' ∧
     ah_dgid (qa_ah_attr a) = gid (pd_device_ (qpd_ t')) ∧
     ah_dlid (qa_ah_attr a) = lid (pd_device_ (qpd_ t'))) ∧
  (∃ a m, EvModifyQp (Some q) a m 0 ∈ tr ∧ qa_qp_state a = IBV_QPS_RTS ∧
     qa_sq_psn a = sq_psn_ t).

(** C13: when a connector and an acceptor on any two hosts have gone through the exchange,
    each has moved its queue pair to RTR towards the queue pair, the port and the GID of
    the other, expecting the packet number the other starts at, and then to RTS
    starting at its own; neither has received any user data. *)
Theorem handshake_agreement (hc hs : Host) (pc ps : pd) (sc ss : option srq)
    (c0 c1 c2 s0 s1 : peer) (t tc ts : basic_qp) :
  sock_out c0 = [] → sock_broken c0 = false → sock_broken s0 = false →
  from_socket_open (H:=hc) pc sc c0 = (Ret t, c1) →
  accept (H:=hs) ps ss (inr (sock_out c1)) s0 = (Ret (Some ts), s1) →
  from_socket_finish (H:=hc) t (with_in (sock_out s1) c1) = (Ret tc, c2) →
  (∀ q, qp_ t = Some q → header_ok (qp_describes t q)) →
  (∀ q, qp_ ts = Some q → header_ok (qp_describes ts q)) →
  ∃ qc qs wc ws trc trs,
    qp_ tc = Some qc ∧ qp_ ts = Some qs ∧
    calls wc trc (peer_world c2) ∧ calls ws trs (peer_world s1) ∧
    connects trc tc qc ts qs ∧ connects trs ts qs tc qc ∧
    user_data_ tc = [] ∧ user_data_ ts = [].
Proof.
  intros Hout Hbc Hbs Hopen Hacc Hfin Hokc Hoks.
  destruct (open_ret _ _ _ _ _ Hopen Hout Hbc) as (qc & Hqc & Hudc & Hpc & Hout1).
  rewrite Hout1 in Hacc. rewrite <-(app_nil_r (header_image _)) in Hacc.
  apply (accept_ret (H:=hs)) in Hacc as (qs & ws & Hqs & Huds & Hps & Hout2 & Hcalls);
    [|by apply Hokc|simpl; by rewrite Hudc|done].
  unfold from_socket_finish in Hfin.
  apply bind_ret_inv in Hfin as (rq & p1 & Hrecv%owning_ret & Hfin).
  rewrite (recv_qp_run (H:=hc) (qp_describes ts qs) [] []) in Hrecv;
    [|by apply Hoks|simpl; by rewrite Huds|by rewrite Hout2].
  injection Hrecv as <- <-.
  apply (finish_calls _ qc) in Hfin as [-> Hcc]; [|done].
  do 4 eexists. do 2 eexists. split; [exact Hqc|]. split; [exact Hqs|].
  split; [exact Hcc|]. split; [exact Hcalls|]. split_and!; [| |done|done].
  - split; do 2 eexists.
    + split; [by apply list_elem_of_here|]. done.
    + split; [apply list_elem_of_further, list_elem_of_here|]. done.
  - split; do 2 eexists.
    + split; [do 2 apply list_elem_of_further; apply list_elem_of_here|]. done.
    + split; [do 3 apply list_elem_of_further; apply list_elem_of_here|]. done.
Qed.

(** Whatever arrives on a connection, or if there is none, [accept] returns: a queue
    pair, or null; no exception leaves it and no input makes it end the process. *)
Theorem accept_total (h : Host) (p : pd) (s : option srq) (incoming : exn + bytes) (c : peer) :
  ∃ r c', accept (H:=h) p s incoming c = (Ret r, c') ∧
    match r with Some t => is_Some (qp_ t) | None => True end.
Proof.
  unfold accept, try_catch. match goal with |- context [(?m ≫= ?k) c] => set (body := m ≫= k) end.
  assert (∀ t c', body c = (Ret (Some t), c') → is_Some (qp_ t)) as Hsome.
  { intros t c' Hb. subst body. apply bind_ret_inv in Hb as (u & c1 & _ & Hb).
    apply bind_ret_inv in Hb as (rq & c2 & _ & Hb).
    apply bind_ret_inv in Hb as (cq1 & c3 & _ & Hb).
    apply bind_ret_inv in Hb as (cq2 & c4 & _ & Hb).
    apply bind_ret_inv in Hb as (t0 & c5 & (w & Hctor & _)%zoom_ret_inv & Hb).
    apply bind_ret_inv in Hb as (v & c6 & _ & Hb). injection Hb as <- _.
    pose proof (qp_ctor_connected_attempt (hdr_lid (header rq)) (hdr_qp_num (header rq))
      (hdr_sq_psn (header rq)) (hdr_gid (header rq)) p cq2 cq1 s (QpConfig 2048 2048)
      (peer_world c4)) as Hat.
    rewrite Hctor in Hat. destruct Hat as (q & -> & _). by eexists. }
  assert (tame body) as Htame.
  { subst body. apply tame_bind; [destruct incoming; [apply tame_throw|apply tame_modify]|].
    intros _. apply tame_bind; [apply tame_recv_qp|]. intros rq.
    apply tame_bind; [apply tame_alloc_cq|]. intros cq1.
    apply tame_bind; [apply tame_alloc_cq|]. intros cq2 c4. apply tame_accept_tail. }
  destruct (Htame c) as [(r & c' & E)|(e & c' & E)]; rewrite E; [|by do 2 eexists].
  exists r, c'. split; [done|]. destruct r as [t|]; [by eapply Hsome|done].
Qed.
End properties.

(** ** Witnesses *)

#[local] Instance wit_build : Build := {| NDEBUG := false |}.
Definition wit_little : Host := {| big_endian := false |}.
Definition wit_big : Host := {| big_endian := true |}.

Definition wit_peer : peer (V:=good) := Peer (V:=good) (world0 (λ _, false)) [] [] false [].
Definition wit_open : outcome basic_qp * peer (V:=good) :=
  from_socket_open (V:=good) (H:=wit_little) wit_qpd None wit_peer.
Definition wit_accept : outcome (option basic_qp) * peer (V:=good) :=
  accept (V:=good) (H:=wit_big) wit_qpd None (inr (sock_out wit_open.2)) wit_peer.
Definition wit_made (x : outcome basic_qp) : basic_qp :=
  match x with Ret t => t | _ => wit_qp end.
Definition wit_finish : outcome basic_qp * peer (V:=good) :=
  from_socket_finish (V:=good) (H:=wit_little) (wit_made wit_open.1)
    (with_in (V:=good) (sock_out wit_accept.2) wit_open.2).

(** The fields of the header of what was made fit their widths. *)
Definition wit_fits (x : outcome basic_qp) : bool :=
  match x with
  | Ret t => match qp_ t with
             | Some q => let '(QpHeader lid num psn size gid) := qp_describes t q in
                         bool_decide (in_width 16 lid) && bool_decide (in_width 32 num) &&
                         bool_decide (in_width 32 psn) && bool_decide (in_width 32 size) &&
                         bool_decide (length gid = gid_size)
             | None => true
             end
  | _ => false
  end.
Lemma wit_fits_ok t : wit_fits (Ret t) = true →
  ∀ q, qp_ t = Some q → header_ok (qp_describes t q).
Proof.
  unfold wit_fits, header_ok. intros Hfits q Hq. rewrite Hq in Hfits.
  destruct (qp_describes t q). simpl.
  repeat (apply andb_true_iff in Hfits as [Hfits ?%bool_decide_eq_true]).
  by apply bool_decide_eq_true in Hfits.
Qed.

Lemma transmission_roundtrip_witness :
  ∃ p1, send_qp (V:=good) (H:=wit_little) (set_user_data_ [Byte.x07; Byte.x08] wit_qp) wit_peer =
    (Ret tt, p1) ∧
    recv_qp (V:=good) (H:=wit_big) (with_in (V:=good) (sock_out p1 ++ [Byte.x09]) wit_peer) =
      (Ret (DeserializedQp (QpHeader 5 101 1 2 wit_gid) [Byte.x07; Byte.x08]),
       with_in (V:=good) [Byte.x09] wit_peer).
Proof.
  destruct (transmission_roundtrip (V:=good) wit_little wit_big
    (set_user_data_ [Byte.x07; Byte.x08] wit_qp) (IbvQp 1 101) wit_peer
    (with_in (V:=good) (header_image (QpHeader 5 101 1 2 wit_gid) ++
       [Byte.x07; Byte.x08; Byte.x09]) wit_peer) [Byte.x09])
    as (p1 & Hsend & Hrecv);
    [reflexivity|split_and!; vm_compute; (split; congruence) || reflexivity|reflexivity
    |reflexivity|reflexivity|].
  exists p1. split; [exact Hsend|].
  assert (sock_out p1 ++ [Byte.x09] =
    header_image (QpHeader 5 101 1 2 wit_gid) ++ [Byte.x07; Byte.x08; Byte.x09]) as Heq.
  { apply (f_equal (λ x, sock_out x.2)) in Hsend. simpl in Hsend. rewrite <-Hsend.
    vm_compute. reflexivity. }
  rewrite Heq. apply Hrecv. exact (eq_sym Heq).
Defined.

Lemma wit_open_fits : wit_fits wit_open.1 = true.
Proof. vm_compute. reflexivity. Qed.
Definition wit_accepted : outcome basic_qp :=
  match wit_accept.1 with Ret (Some t) => Ret t | _ => Abort end.
Lemma wit_accepted_fits : wit_fits wit_accepted = true.
Proof. vm_compute. reflexivity. Qed.

#[local] Strategy -1000 [wit_open wit_accept wit_finish].
Lemma run_pair {A B} (x : A * B) a : x.1 = a → x = (a, x.2).
Proof. intros <-. apply surjective_pairing. Qed.
Lemma returned {A} (x : outcome A) :
  match x with Ret _ => true | _ => false end = true → ∃ a, x = Ret a.
Proof. destruct x; [by eexists|done..]. Qed.
Lemma returned_some {A} (x : outcome (option A)) :
  match x with Ret (Some _) => true | _ => false end = true → ∃ a, x = Ret (Some a).
Proof. destruct x as [[]| | | |]; try done. by eexists. Qed.

Lemma handshake_agreement_witness :
  ∃ tc ts qc qs trc, wit_finish.1 = Ret tc ∧ wit_accept.1 = Ret (Some ts) ∧
    qp_ tc = Some qc ∧ qp_ ts = Some qs ∧ connects trc tc qc ts qs ∧ user_data_ ts = [].
Proof.
  destruct (returned_some (wit_accept.1) ltac:(vm_compute; reflexivity)) as [ts Hts].
  destruct (returned (wit_open.1) ltac:(vm_compute; reflexivity)) as [t Ht].
  destruct (returned (wit_finish.1) ltac:(vm_compute; reflexivity)) as [tc Htc].
  destruct (handshake_agreement (V:=good) wit_little wit_big wit_qpd wit_qpd None None
    wit_peer wit_open.2 wit_finish.2 wit_peer wit_accept.2 t tc ts)
    as (qc & qs & wc & ws & trc & trs & Hqc & Hqs & _ & _ & Hcon & _ & _ & Hud).
  - reflexivity.
  - reflexivity.
  - reflexivity.
  - exact (run_pair wit_open _ Ht).
  - exact (run_pair wit_accept _ Hts).
  - assert (wit_made wit_open.1 = t) as Hmade by (rewrite Ht; reflexivity).
    rewrite <-Hmade. exact (run_pair wit_finish _ Htc).
  - apply wit_fits_ok. rewrite <-Ht. exact wit_open_fits.
  - apply wit_fits_ok. pose proof wit_accepted_fits as Hfits. unfold wit_accepted in Hfits.
    rewrite Hts in Hfits. exact Hfits.
  - exists tc, ts, qc, qs, trc. exact (conj Htc (conj Hts (conj Hqc (conj Hqs (conj Hcon Hud))))).
Defined.
