(* ===== verification/BlockingQueue.v ===== *)
(** * detail/blocking_queue.h: a queue between threads

    [push], [pop] and [close] hold the mutex, so each critical section is one step.
    [cv_.wait] releases the mutex: the threads asleep in it, and those notified but not
    running yet, are part of the state.  A thread may also wake up spuriously. *)

From S2P Require Import Prelude.
From stdpp Require Import options.

Section queue.
Context {T : Type}.

(** [closed_] has no initialiser: [None] is the indeterminate value. *)
Record blocking_queue := BlockingQueue { queue_ : list T; closed_ : option bool }.

(** Default initialisation, and value initialisation, which zeroes the object first. *)
Definition bq_default : blocking_queue := BlockingQueue [] None.
Definition bq_value : blocking_queue := BlockingQueue [] (Some false).

Definition read_closed : M blocking_queue bool := q ← mget; deref (closed_ q).

(** The critical section of [push], up to the notification. *)
Definition push (item : T) : M blocking_queue unit :=
  closed ← read_closed;
  if closed : bool then mthrow_exn QueueClosedError
  else mmodify (λ q, BlockingQueue (queue_ q ++ [item]) (closed_ q)).

(** The predicate of [cv_.wait]: [!queue_.empty() || closed_]. *)
Definition wait_over : M blocking_queue bool :=
  q ← mget;
  match queue_ q with
  | [] => read_closed
  | _ => mret true
  end.

(** [pop] once the wait is over. *)
Definition pop_rest : M blocking_queue T :=
  q ← mget;
  match queue_ q with
  | [] => mthrow_exn QueueClosedError
  | item :: rest => mmodify (λ q, BlockingQueue rest (closed_ q)) ;; mret item
  end.

(** One turn of [pop] with the mutex held: [None] when it goes to sleep. *)
Definition pop_turn : M blocking_queue (option T) :=
  over ← wait_over;
  if over : bool then item ← pop_rest; mret (Some item) else mret None.

Definition close : M blocking_queue unit :=
  mmodify (λ q, BlockingQueue (queue_ q) (Some true)).

(** ** The threads *)

Definition tid := nat.

(** [asleep]: in [cv_.wait]; [woken]: notified, about to take the mutex again; the ghost
    lists record what went in and what came out. *)
Record threads := Threads {
  th_queue : blocking_queue;
  asleep : gset tid;
  woken : gset tid;
  pushed : list T;
  popped : list T }.

Inductive thread_step : threads → threads → Prop :=
| step_push item q q' a w i o :
    push item q = (Ret tt, q') → a = ∅ →
    thread_step (Threads q a w i o) (Threads q' a w (i ++ [item]) o)
| step_push_notify item q q' a w i o t :
    push item q = (Ret tt, q') → t ∈ a →
    thread_step (Threads q a w i o) (Threads q' (a ∖ {[t]}) ({[t]} ∪ w) (i ++ [item]) o)
| step_push_throw item q q' a w i o e :
    push item q = (Throw e, q') →
    thread_step (Threads q a w i o) (Threads q' a w i o)
| step_pop_sleep t q q' a w i o :
    t ∉ a → t ∉ w → pop_turn q = (Ret None, q') →
    thread_step (Threads q a w i o) (Threads q' ({[t]} ∪ a) w i o)
| step_pop t item q q' a w i o :
    t ∉ a → t ∉ w → pop_turn q = (Ret (Some item), q') →
    thread_step (Threads q a w i o) (Threads q' a w i (o ++ [item]))
| step_pop_throw t q q' a w i o e :
    t ∉ a → t ∉ w → pop_turn q = (Throw e, q') →
    thread_step (Threads q a w i o) (Threads q' a w i o)
| step_wake_sleep t q q' a w i o :
    t ∈ w → pop_turn q = (Ret None, q') →
    thread_step (Threads q a w i o) (Threads q' ({[t]} ∪ a) (w ∖ {[t]}) i o)
| step_wake_pop t item q q' a w i o :
    t ∈ w → pop_turn q = (Ret (Some item), q') →
    thread_step (Threads q a w i o) (Threads q' a (w ∖ {[t]}) i (o ++ [item]))
| step_wake_throw t q q' a w i o e :
    t ∈ w → pop_turn q = (Throw e, q') →
    thread_step (Threads q a w i o) (Threads q' a (w ∖ {[t]}) i o)
| step_spurious t q a w i o :
    t ∈ a →
    thread_step (Threads q a w i o) (Threads q (a ∖ {[t]}) ({[t]} ∪ w) i o)
| step_close q q' a w i o :
    close q = (Ret tt, q') →
    thread_step (Threads q a w i o) (Threads q' ∅ (a ∪ w) i o).

Definition start (q : blocking_queue) : threads := Threads q ∅ ∅ [] [].

(** ** Lemmas *)

Record queue_ok (s : threads) : Prop := {
  ok_closed : is_Some (closed_ (th_queue s));
  ok_fifo : pushed s = popped s ++ queue_ (th_queue s);
  ok_disjoint : asleep s ## woken s;
  ok_wakeup : asleep s = ∅ ∨
    (closed_ (th_queue s) = Some false ∧ length (queue_ (th_queue s)) ≤ size (woken s)) }.

Lemma push_inv item l c r q' :
  push item (BlockingQueue l (Some c)) = (r, q') →
  if c then r = Throw QueueClosedError ∧ q' = BlockingQueue l (Some true)
  else r = Ret tt ∧ q' = BlockingQueue (l ++ [item]) (Some false).
Proof. by destruct c; intros [= <- <-]. Qed.

Lemma pop_turn_inv l c r q' :
  pop_turn (BlockingQueue l (Some c)) = (r, q') →
  match l with
  | [] => q' = BlockingQueue [] (Some c) ∧ r = if c then Throw QueueClosedError else Ret None
  | x :: l => q' = BlockingQueue l (Some c) ∧ r = Ret (Some x)
  end.
Proof. by destruct l as [|x l], c; intros [= <- <-]. Qed.

Lemma queue_ok_start q : closed_ q = Some false → queue_ q = [] → queue_ok (start q).
Proof. intros Hc Hq. split; simpl; [by rewrite Hc|by rewrite Hq|set_solver|by left]. Qed.

Lemma queue_ok_step s s' : queue_ok s → thread_step s s' → queue_ok s'.
Proof.
  intros [[c Hc] Hf Hd Hw] Hstep.
  destruct Hstep as [item q q' a w i o Hr|item q q' a w i o t Hr Ht|item q q' a w i o e Hr
    |t q q' a w i o Ha Ht Hr|t item q q' a w i o Ha Ht Hr|t q q' a w i o e Ha Ht Hr
    |t q q' a w i o Ht Hr|t item q q' a w i o Ht Hr|t q q' a w i o e Ht Hr
    |t q a w i o Ht|q q' a w i o Hr]; destruct q as [l c']; simpl in *; subst c' i.
  - apply push_inv in Hr. destruct c; [by destruct Hr|]. destruct Hr as [_ ->].
    split; simpl; [by eexists|by rewrite app_assoc|done|auto].
  - apply push_inv in Hr. destruct c; [by destruct Hr|]. destruct Hr as [_ ->].
    split; simpl; [by eexists|by rewrite app_assoc|set_solver|]. right. split; [done|].
    rewrite size_union by set_solver. rewrite size_singleton, length_app. simpl.
    destruct Hw as [->|[_ Hw]]; [set_solver|lia].
  - apply push_inv in Hr. destruct c; [|by destruct Hr]. destruct Hr as [_ ->]. split; simpl; eauto.
  - apply pop_turn_inv in Hr. destruct l as [|x l]; [|by destruct Hr]. destruct Hr as [-> Hr].
    destruct c; [done|]. split; simpl; [by eexists|done|set_solver|]. right. split; [done|lia].
  - apply pop_turn_inv in Hr. destruct l as [|x l]; [by destruct Hr, c|].
    destruct Hr as [-> [= <-]]. split; simpl; [by eexists|by rewrite <-app_assoc|done|].
    destruct Hw as [?|[-> ?]]; [by left|right]. simpl in *. split; [done|lia].
  - apply pop_turn_inv in Hr. destruct l as [|x l]; [|by destruct Hr]. destruct Hr as [-> Hr].
    destruct c; [|done]. split; simpl; eauto.
  - apply pop_turn_inv in Hr. destruct l as [|x l]; [|by destruct Hr]. destruct Hr as [-> Hr].
    destruct c; [done|]. split; simpl; [by eexists|done|set_solver|]. right. split; [done|lia].
  - apply pop_turn_inv in Hr. destruct l as [|x l]; [by destruct Hr, c|].
    destruct Hr as [-> [= <-]]. split; simpl; [by eexists|by rewrite <-app_assoc|set_solver|].
    destruct Hw as [?|[-> Hw]]; [by left|right]. simpl in *. split; [done|].
    rewrite size_difference, size_singleton by set_solver. lia.
  - apply pop_turn_inv in Hr. destruct l as [|x l]; [|by destruct Hr]. destruct Hr as [-> Hr].
    destruct c; [|done]. split; simpl; [by eexists|done|set_solver|].
    destruct Hw as [?|[? ?]]; [by left|done].
  - split; simpl; [by eexists|done|set_solver|].
    destruct Hw as [?|[? Hw]]; [set_solver|]. right. split; [done|].
    rewrite size_union, size_singleton by set_solver. lia.
  - injection Hr as <-. split; simpl; [by eexists|done|set_solver|by left].
Qed.

Lemma reachable_ok q s :
  closed_ q = Some false → queue_ q = [] → rtc thread_step (start q) s → queue_ok s.
Proof.
  intros Hc Hq Hs. eapply rtc_invariant; [apply queue_ok_step|done|by apply queue_ok_start].
Qed.
End queue.
#[global] Arguments blocking_queue : clear implicits.
#[global] Arguments threads : clear implicits.

(** ** Properties *)

Section properties.
Context {T : Type}.

(** C24: in every reachable state of any number of producers, consumers and closers, the
    items taken are the items put, in the same order, without loss or duplication, and
    the rest is still queued. *)
Theorem queue_fifo (q : blocking_queue T) (s : threads T) :
  closed_ q = Some false → queue_ q = [] → rtc thread_step (start q) s →
  pushed s = popped s ++ queue_ (th_queue s).
Proof. intros Hc Hq Hs. by destruct (reachable_ok q s Hc Hq Hs). Qed.

(** C25: no wake-up is lost: while a thread sleeps in [pop], the queue is open and every
    queued item has its notified thread; so a sleeper never misses an item or the
    closing of the queue with nobody else on the way. *)
Theorem queue_no_lost_wakeup (q : blocking_queue T) (s : threads T) (t : tid) :
  closed_ q = Some false → queue_ q = [] → rtc thread_step (start q) s → t ∈ asleep s →
  closed_ (th_queue s) = Some false ∧ length (queue_ (th_queue s)) ≤ size (woken s) ∧
  (woken s = ∅ → queue_ (th_queue s) = []).
Proof.
  intros Hc Hq Hs Ht. destruct (reachable_ok q s Hc Hq Hs) as [_ _ _ Hw].
  destruct Hw as [He|[Hcl Hlen]]; [set_solver|]. split_and!; [done..|].
  intros Hwo. rewrite Hwo, size_empty in Hlen.
  destruct (queue_ (th_queue s)); [done|simpl in Hlen; lia].
Qed.

(** A closed queue refuses new items without changing, hands out the items it still
    has, and then throws in every [pop]; no thread sleeps in it. *)
Theorem queue_close_drains (q : blocking_queue T) (s : threads T) :
  closed_ q = Some false → queue_ q = [] → rtc thread_step (start q) s →
  closed_ (th_queue s) = Some true →
  asleep s = ∅ ∧
  (∀ item, push item (th_queue s) = (Throw QueueClosedError, th_queue s)) ∧
  pop_turn (th_queue s) =
    match queue_ (th_queue s) with
    | [] => (Throw QueueClosedError, th_queue s)
    | x :: l => (Ret (Some x), BlockingQueue l (Some true))
    end.
Proof.
  intros Hc Hq Hs Hcl. destruct (reachable_ok q s Hc Hq Hs) as [_ _ _ Hw].
  destruct (th_queue s) as [l c]. simpl in *. subst c. split_and!.
  - by destruct Hw as [?|[? _]].
  - done.
  - by destruct l.
Qed.

(** A queue that is default-initialised has an indeterminate [closed_]: any [push], and any
    [pop] on the empty queue, reads it. *)
Theorem queue_default_undefined (item : T) :
  push item bq_default = (Undefined, bq_default) ∧
  pop_turn (T:=T) bq_default = (Undefined, bq_default) ∧
  push item bq_value = (Ret tt, BlockingQueue [item] (Some false)).
Proof. done. Qed.
End properties.

(** ** Witnesses *)

(** A consumer goes to sleep, a producer wakes it, it takes the item. *)
Definition wit_slept : threads nat := Threads bq_value {[1]} ∅ [] [].
Definition wit_popped : threads nat := Threads bq_value ∅ ∅ [5] [5].

Lemma wit_sleep : rtc thread_step (start (T:=nat) bq_value) wit_slept.
Proof.
  apply rtc_once. unfold wit_slept. replace ({[1]} : gset tid) with ({[1]} ∪ ∅ : gset tid)
    by set_solver.
  eapply (step_pop_sleep 1); [set_solver..|reflexivity].
Qed.

Lemma wit_woken : rtc thread_step (start (T:=nat) bq_value) wit_popped.
Proof.
  transitivity wit_slept; [apply wit_sleep|].
  eapply rtc_l; [eapply (step_push_notify 5) with (t := 1); [reflexivity|set_solver]|].
  replace ({[1]} ∖ {[1]} : gset tid) with (∅ : gset tid) by set_solver.
  replace ({[1]} ∪ ∅ : gset tid) with ({[1]} : gset tid) by set_solver.
  eapply rtc_l; [eapply (step_wake_pop 1 5); [set_solver|reflexivity]|].
  replace ({[1]} ∖ {[1]} : gset tid) with (∅ : gset tid) by set_solver. apply rtc_refl.
Qed.

Lemma queue_fifo_witness : pushed wit_popped = popped wit_popped ++ queue_ (th_queue wit_popped).
Proof. apply (queue_fifo bq_value wit_popped); [reflexivity..|apply wit_woken]. Defined.

Lemma queue_no_lost_wakeup_witness :
  closed_ (th_queue wit_slept) = Some false ∧
  length (queue_ (th_queue wit_slept)) ≤ size (woken wit_slept) ∧
  (woken wit_slept = ∅ → queue_ (th_queue wit_slept) = []).
Proof.
  apply (queue_no_lost_wakeup bq_value wit_slept 1); [reflexivity..|apply wit_sleep|].
  apply elem_of_singleton. reflexivity.
Defined.

Lemma wit_closing :
  rtc thread_step (start (T:=nat) bq_value) (Threads (BlockingQueue [5] (Some true)) ∅ ∅ [5] []).
Proof.
  eapply rtc_l; [eapply (step_push 5); [reflexivity|done]|].
  eapply rtc_l; [eapply step_close; reflexivity|].
  replace (∅ ∪ ∅ : gset tid) with (∅ : gset tid) by set_solver. apply rtc_refl.
Qed.

Lemma queue_close_drains_witness :
  (∅ : gset tid) = ∅ ∧
  (∀ item, push item (BlockingQueue [5] (Some true)) =
     (Throw QueueClosedError, BlockingQueue [5] (Some true))) ∧
  pop_turn (BlockingQueue [5] (Some true)) = (Ret (Some 5), BlockingQueue [] (Some true)).
Proof.
  apply (queue_close_drains bq_value (Threads (BlockingQueue [5] (Some true)) ∅ ∅ [5] []));
    [reflexivity..|apply wit_closing|reflexivity].
Defined.
