(* ===== verification/Task.v ===== *)
(** * examples/include/task.hpp, future.hpp: a coroutine and its future

    [SpinPromise] and [SpinFuture] over their [SharedState], and [task<T>]: the coroutine
    that ends on one thread (the poller that resumed it last), and the owner of the [task]
    object that awaits it or destroys it on another.  The first part is the shared state,
    as a functional program; the second the interleaving of the two threads, as a step
    relation whose steps are the single reads and writes of what the threads share:
    [done], [ready], [continuation_] and the coroutine frame.  [task<void>] is the case of
    [unit]: its value is the one there is, whether it is stored or not. *)

From S2P Require Import Prelude.
From stdpp Require Import options.

(** ** SharedState, SpinPromise, SpinFuture *)

Section future.
Context {T : Type}.
(** What a moved-from object holds. *)
Variable moved : T → T.

Record SharedState := MkShared {
  ready : bool;
  exception : option exn;
  value : option T }.

Definition SpinPromise_ctor : SharedState := MkShared false None None.

Definition notify : M SharedState unit :=
  mmodify (λ s, MkShared true (exception s) (value s)).
Definition set_exception (e : exn) (n : bool) : M SharedState unit :=
  mmodify (λ s, MkShared (ready s) (Some e) (value s)) ;;
  if n then notify else mret tt.
Definition set_value (v : T) (n : bool) : M SharedState unit :=
  mmodify (λ s, MkShared (ready s) (exception s) (Some v)) ;;
  if n then notify else mret tt.

Definition is_ready : M SharedState bool := mgets ready.

(** [get] after its [wait]: the exception has precedence; the value is moved out. *)
Definition get_ready : M SharedState T :=
  s ← mget;
  match exception s with
  | Some e => mthrow_exn e
  | None =>
      v ← deref (value s);
      mmodify (λ s, MkShared (ready s) (exception s) (Some (moved v))) ;;
      mret v
  end.

(** [get]: [None] while [wait] spins. *)
Definition get : M SharedState (option T) :=
  r ← is_ready;
  if (r : bool) then v ← get_ready; mret (Some v) else mret None.

(** ** task<T> *)

(** How the body of the coroutine ends: [unhandled_exception] or [return_value], neither of
    which notifies. *)
Definition body_ends (fin : exn + T) : M SharedState unit :=
  match fin with
  | inl e => set_exception e false
  | inr v => set_value v false
  end.

(** The coroutine: running or suspended in its body; suspended at its end, in
    [await_suspend] of the final awaiter; after [set_return_value]; after it has read
    [continuation_], which it resumed or not. *)
Inductive run_pc := B_body | B_final | B_notified | B_end (resumed : bool).

(** The owner: with the task in hand; after [await_ready] said no; suspended, its handle
    stored; in [await_resume]; in [~task]; after [h_.destroy()]. *)
Inductive own_pc := O_start | O_register | O_suspended | O_get | O_dtor | O_gone.

(** [h_.done()]: the coroutine is suspended at its final suspension point. *)
Definition done_pc (p : run_pc) : bool := match p with B_body => false | _ => true end.

Record task_state := TaskState {
  t_run : run_pc;
  t_own : own_pc;
  t_shared : SharedState;
  t_continuation : bool;
  t_frame : bool;
  t_got : list (outcome T);
  t_undefined : bool }.

Definition task_init : task_state :=
  TaskState B_body O_start SpinPromise_ctor false true [] false.

Inductive task_step (fin : exn + T) : task_state → task_state → Prop :=
| step_body_ends o s s' c f g :
    body_ends fin s = (Ret tt, s') →
    task_step fin (TaskState B_body o s c f g false) (TaskState B_final o s' c f g false)
| step_set_return_value o s s' c f g :
    notify s = (Ret tt, s') →
    task_step fin (TaskState B_final o s c f g false) (TaskState B_notified o s' c f g false)
| step_continue s g o :
    task_step fin (TaskState B_notified o s true true g false)
                  (TaskState (B_end true) O_get s true true g false)
| step_noop o s g :
    task_step fin (TaskState B_notified o s false true g false)
                  (TaskState (B_end false) o s false true g false)
| step_frame_freed o s c g :
    task_step fin (TaskState B_notified o s c false g false)
                  (TaskState B_notified o s c false g true)
| step_await_ready r s c f g :
    task_step fin (TaskState r O_start s c f g false)
                  (TaskState r (if done_pc r then O_get else O_register) s c f g false)
| step_await_suspend r s c f g :
    task_step fin (TaskState r O_register s c f g false)
                  (TaskState r O_suspended s true f g false)
| step_await_resume r s s' c f g x :
    is_ready s = (Ret true, s) → get_ready s = (x, s') →
    task_step fin (TaskState r O_get s c f g false)
                  (TaskState r O_dtor s' c f (g ++ [x]) false)
| step_discard r s c f g :
    task_step fin (TaskState r O_start s c f g false) (TaskState r O_dtor s c f g false)
| step_destroy r s c f g :
    is_ready s = (Ret true, s) →
    task_step fin (TaskState r O_dtor s c f g false) (TaskState r O_gone s c false g false).
End future.

(** ** Lemmas *)

Section lemmas.
Context {T : Type} (moved : T → T) (fin : exn + T).
Abbreviation step := (task_step moved fin).

Definition result : outcome T := match fin with inl e => Throw e | inr v => Ret v end.

(** What the shared state holds when the body has ended, before and after [get]. *)
Definition holds_result (taken : bool) (s : SharedState) : Prop :=
  match fin with
  | inl e => exception s = Some e
  | inr v => exception s = None ∧ value s = Some (if taken then moved v else v)
  end.

Definition ready_pc (p : run_pc) : bool :=
  match p with B_notified | B_end _ => true | _ => false end.

(** The owner has not yet come to [await_resume]'s end, or skipped it. *)
Definition before_get (o : own_pc) : bool :=
  match o with O_dtor | O_gone => false | _ => true end.

Record task_ok (s : task_state) : Prop := {
  tk_ready : ready (t_shared s) = ready_pc (t_run s);
  tk_empty : t_run s = B_body → exception (t_shared s) = None ∧ value (t_shared s) = None;
  tk_got : t_got s = [] ∨
    t_got s = [result] ∧ before_get (t_own s) = false ∧ ready_pc (t_run s) = true;
  tk_holds : t_run s ≠ B_body → holds_result (bool_decide (t_got s ≠ [])) (t_shared s);
  tk_frame : t_frame s = false ↔ t_own s = O_gone;
  tk_gone : t_own s = O_gone → ready_pc (t_run s) = true;
  tk_cont : t_continuation s = true → t_own s = O_suspended ∨ t_run s = B_end true;
  tk_suspended : t_own s = O_suspended → t_continuation s = true;
  tk_end : t_run s = B_end true → before_get (t_own s) = false ∨ t_own s = O_get;
  tk_get : t_own s = O_get → t_run s ≠ B_body;
  tk_undefined : t_undefined s = true → t_run s = B_notified ∧ t_own s = O_gone }.


Lemma task_ok_init : task_ok task_init.
Proof. split; simpl; try done; auto. Qed.

Lemma body_ends_holds s s' :
  ready s = false → exception s = None → value s = None → body_ends fin s = (Ret tt, s') →
  ready s' = false ∧ holds_result false s'.
Proof.
  intros Hr He Hv. unfold body_ends, holds_result, set_exception, set_value.
  destruct fin; intros [= <-]; simpl; auto.
Qed.

Lemma get_ready_result s x s' :
  holds_result false s → get_ready moved s = (x, s') →
  x = result ∧ ready s' = ready s ∧ holds_result true s'.
Proof.
  unfold holds_result, get_ready, result. rewrite bind_mget. destruct fin as [e|v].
  - intros He. rewrite He. by intros [= <- <-].
  - intros [He Hv]. rewrite He, Hv. by intros [= <- <-].
Qed.

(** The steps that change the shared state, and the rest. *)
Lemma task_ok_step s s' : task_ok s → step s s' → task_ok s'.
Proof.
  intros Ho Hs.
  destruct Hs as [o s s' c f g Hb|o s s' c f g Hn| | | | | |r s s' c f g x Hr Hg| |
    r s c f g Hr]; destruct Ho; simpl in *.
  all: try (injection Hr as Hr; rewrite Hr in *).
  1: destruct (tk_empty0 eq_refl), (body_ends_holds s s') as [Hr Hh]; try done;
     assert (g = []) as -> by (destruct tk_got0 as [|[_ [_ ?]]]; done).
  8: assert (g = []) as -> by (destruct tk_got0 as [|[_ [? _]]]; done);
     assert (r ≠ B_body) as Hne by (by apply tk_get0);
     destruct (get_ready_result s x s') as (-> & Hr' & Hh); [by apply tk_holds0|done|].
  2: injection Hn as <-.
  all: split; simpl; try done; try (intuition congruence).
  all: try (destruct (done_pc r) eqn:Hd; destruct r; intuition congruence).
  destruct tk_got0 as [->|(_ & ? & _)], (tk_cont0 eq_refl) as [->|]; auto; done.
Qed.

Lemma task_reachable s : rtc step task_init s → task_ok s.
Proof. intros Hr. eapply rtc_invariant; [apply task_ok_step|done|apply task_ok_init]. Qed.

(** Every step makes progress: the threads together take at most nine. *)
Definition remaining (s : task_state (T:=T)) : nat :=
  match t_run s with B_body => 3 | B_final => 2 | B_notified => 1 | B_end _ => 0 end +
  match t_own s with
  | O_start => 4 | O_register => 3 | O_suspended | O_get => 2 | O_dtor => 1 | O_gone => 0
  end + if t_undefined s then 0 else 1.

Lemma step_progress s s' : task_ok s → step s s' → remaining s' < remaining s.
Proof.
  intros Ho Hs. destruct Hs; unfold remaining; simpl; try lia.
  - pose proof (tk_cont _ Ho eq_refl) as [Hc|]; simpl in *; [subst; lia|done].
  - destruct r; simpl; lia.
Qed.

Definition stuck (s : task_state) : Prop := ∀ s', ¬ step s s'.

(** Where the threads can stand when neither can go on. *)
Lemma stuck_states s : task_ok s → stuck s → t_undefined s = true ∨
  (∃ b, t_run s = B_end b) ∧ (t_own s = O_gone ∨ t_own s = O_suspended).
Proof.
  intros Ho Hs. destruct s as [r o sh c f g u]. destruct u; [by left|right].
  destruct Ho; simpl in *.
  assert (∃ b, r = B_end b) as [b ->].
  { destruct r as [| | |b]; [..|by exists b]; exfalso.
    - assert (∃ sh', body_ends fin sh = (Ret tt, sh')) as [sh' Hb] by (destruct fin; by eexists).
      by eapply Hs, step_body_ends.
    - by eapply Hs, step_set_return_value.
    - destruct f; [|by eapply Hs, step_frame_freed].
      destruct c; [by eapply Hs, step_continue|by eapply Hs, step_noop]. }
  split; [by exists b|].
  assert (is_ready sh = (Ret true, sh)) as Hr by (unfold is_ready, mgets; by rewrite tk_ready0).
  destruct o; auto; exfalso; eapply Hs.
  - apply step_await_ready.
  - apply step_await_suspend.
  - by apply (step_await_resume moved fin _ sh (get_ready moved sh).2 _ _ _ (get_ready moved sh).1),
      surjective_pairing.
  - by apply step_destroy.
Qed.

(** The hand-over is safe: the owner waits while the coroutine still has to end, or comes
    when it is all over. *)
Definition handed_over (s : task_state (T:=T)) : Prop :=
  t_undefined s = false ∧
  (t_own s = O_suspended ∧ (∀ b, t_run s ≠ B_end b) ∨
   (∃ b, t_run s = B_end b) ∧ t_own s ≠ O_suspended ∧ t_own s ≠ O_register).

Lemma handed_over_step s s' :
  task_ok s ∧ handed_over s → step s s' → task_ok s' ∧ handed_over s'.
Proof.
  intros [Ho [Hu Hh]] Hs. split; [by eapply task_ok_step|].
  destruct Hs; split; simpl in *; try done.
  all: destruct Hh as [[Hw Hr]|[[b Hb] [Hn1 Hn2]]]; simplify_eq/=; try done;
    try (left; by split); try (right; by eauto).
  - by pose proof (tk_suspended _ Ho eq_refl).
  - by pose proof (proj1 (tk_frame _ Ho) eq_refl).
Qed.

(** The owner awaits the task, and so passes through [await_resume]. *)
Definition awaited (s : task_state (T:=T)) : Prop :=
  t_own s ≠ O_start ∧ (before_get (t_own s) = false → t_got s = [result]).

Lemma awaited_step s s' : task_ok s ∧ awaited s → step s s' → task_ok s' ∧ awaited s'.
Proof.
  intros [Ho [Hw Hg]] Hs. split; [by eapply task_ok_step|].
  destruct Hs as [| | | | | | |r sh sh' c f g x Hr Hx| |]; split; simpl in *; try done; auto.
  intros _. destruct Ho; simpl in *.
  assert (g = []) as -> by (destruct tk_got0 as [|[_ [? _]]]; done).
  destruct (get_ready_result sh x sh') as (-> & _); [by apply tk_holds0, tk_get0|done..].
Qed.

(** C26: Whatever the interleaving, the owner of a task gets the result at most once, and
    what it gets is the value returned by the coroutine or the exception it ended with;
    the frame is freed only when the coroutine has ended; and every run is finite. *)
Theorem task_result_once (s : task_state) :
  rtc step task_init s →
  (t_got s = [] ∨ t_got s = [result]) ∧
  (t_frame s = false → done_pc (t_run s) = true ∧ ready (t_shared s) = true) ∧
  (∀ s', step s s' → remaining s' < remaining s).
Proof.
  intros Hr%task_reachable. split; [|split].
  - destruct (tk_got s Hr) as [?|[? _]]; auto.
  - intros Hf%(tk_frame s Hr)%(tk_gone s Hr).
    rewrite (tk_ready s Hr), Hf. by destruct (t_run s).
  - intros s'. by apply step_progress.
Qed.

(** C27: When the owner is suspended before the coroutine ends, or awaits it after it has
    ended, the hand-over is safe: no interleaving is undefined, none leaves the owner
    suspended, and an owner that was suspended gets the result. *)
Theorem task_handed_over (m s : task_state) :
  rtc step task_init m → handed_over m → rtc step m s →
  t_undefined s = false ∧
  (stuck s → t_own s = O_gone ∧ t_frame s = false) ∧
  (stuck s → t_own m = O_suspended → t_got s = [result]).
Proof.
  intros Hm%task_reachable Hh Hr.
  assert (task_ok s ∧ handed_over s) as [Ho [Hu Hs]]
    by (refine (rtc_invariant _ (λ s, task_ok s ∧ handed_over s) _ _ handed_over_step Hr _); done).
  assert (stuck s → t_own s = O_gone) as Hgone.
  { intros [Ht|[[b Hb] [?|Hsus]]]%stuck_states; try done; [congruence|].
    destruct Hs as [[_ Hne]|[_ [? ?]]]; [by destruct (Hne b)|done]. }
  split; [done|]. split; [intros Hst; split; [by apply Hgone|by apply (tk_frame s Ho), Hgone]|].
  intros Hst Hsus.
  assert (task_ok s ∧ awaited s) as [_ [_ Hg]].
  { refine (rtc_invariant _ (λ s, task_ok s ∧ awaited s) _ _ awaited_step Hr _).
    split; [done|]. unfold awaited. by rewrite Hsus. }
  apply Hg. by rewrite Hgone.
Qed.

(** Without that the hand-over is a race. An owner that has seen the coroutine not done
    may store its handle after the coroutine has looked for it, and then sleeps for ever;
    and an owner that is destroying the task may free the frame between
    [set_return_value] and the read of [continuation_], which is then undefined. *)
Theorem task_races :
  (∃ s, rtc step task_init s ∧ stuck s ∧ t_own s = O_suspended ∧ t_run s = B_end false) ∧
  (∃ s, rtc step task_init s ∧ t_undefined s = true).
Proof.
  assert (∃ sh, body_ends fin SpinPromise_ctor = (Ret tt, sh)) as [sh Hb]
    by (destruct fin; by eexists).
  assert (notify sh = (Ret tt, (notify sh).2)) as Hn by done. split.
  - exists (TaskState (B_end false) O_suspended (notify sh).2 true true [] false).
    split; [|split; [|done]].
    + eapply rtc_l; [apply step_await_ready|]. eapply rtc_l; [by apply step_body_ends|].
      eapply rtc_l; [by apply step_set_return_value|]. eapply rtc_l; [apply step_noop|].
      eapply rtc_l; [apply step_await_suspend|]. apply rtc_refl.
    + intros s'. inversion 1.
  - exists (TaskState B_notified O_gone (notify sh).2 false false [] true). split; [|done].
    eapply rtc_l; [apply step_discard|]. eapply rtc_l; [by apply step_body_ends|].
    eapply rtc_l; [by apply step_set_return_value|]. eapply rtc_l; [by apply step_destroy|].
    eapply rtc_l; [apply step_frame_freed|]. apply rtc_refl.
Qed.
End lemmas.

(** ** SpinPromise<void>, SpinFuture<void>, value_returner<void>

    Nothing is stored: a future is ready, and holds an exception or not. *)

Definition set_value_void (n : bool) : M (SharedState (T:=unit)) unit :=
  if n then notify else mret tt.
Definition get_ready_void : M (SharedState (T:=unit)) unit :=
  s ← mget;
  match exception s with Some e => mthrow_exn e | None => mret tt end.
(** [return_void] does not touch the promise. *)
Definition body_ends_void (fin : exn + unit) : M (SharedState (T:=unit)) unit :=
  match fin with inl e => set_exception e false | inr _ => mret tt end.

(** The states of the two kinds of future: the same but for the value. *)
Definition same_future (s s' : SharedState (T:=unit)) : Prop :=
  ready s = ready s' ∧ exception s = exception s'.

#[export] Instance same_future_equivalence : Equivalence same_future.
Proof.
  unfold same_future. split; repeat intro; intuition congruence.
Qed.

(** [m] gives what [m'] gives, from and to states that are the same. *)
Definition same_outcome {R} (m m' : M (SharedState (T:=unit)) R) (s s' : SharedState) : Prop :=
  (m s).1 = (m' s').1 ∧ same_future (m s).2 (m' s').2.

(** [task<void>] behaves as [task<T>] for the type of one value: whatever the two have in
    common, each operation of the void kind gives what the other's gives, and leaves what
    they have in common the same; [get] does once a value or an exception was stored. *)
Theorem void_future_is_unit (moved : unit → unit) (fin : exn + unit) (n : bool)
    (s s' : SharedState) :
  same_future s s' →
  same_outcome (set_value_void n) (set_value tt n) s s' ∧
  same_outcome (body_ends_void fin) (body_ends fin) s s' ∧
  same_outcome notify notify s s' ∧ same_outcome is_ready is_ready s s' ∧
  (is_Some (exception s') ∨ is_Some (value s') →
   same_outcome get_ready_void (get_ready moved) s s').
Proof.
  intros [Hr He]. unfold same_outcome, same_future.
  repeat match goal with |- _ ∧ _ => split end.
  all: try by (destruct n, fin; simpl; congruence).
  unfold get_ready_void, get_ready. munfold. simpl. rewrite He.
  intros Hv. destruct (exception s') eqn:He'; simpl; [by rewrite Hr, He, He'|].
  destruct Hv as [[? ?]|[[] Hv]]; [done|]. rewrite Hv. simpl. by rewrite Hr, He.
Qed.

(** ** Witnesses *)

Definition wit_fin : exn + nat := inr 7.
Definition wit_suspended : task_state :=
  TaskState (T:=nat) B_body O_suspended SpinPromise_ctor true true [] false.
Definition wit_ended : task_state :=
  TaskState (T:=nat) (B_end true) O_gone (MkShared true None (Some 7)) true false [Ret 7] false.

Lemma wit_suspended_reachable : rtc (task_step id wit_fin) task_init wit_suspended.
Proof.
  eapply rtc_l; [apply step_await_ready|]. eapply rtc_l; [apply step_await_suspend|].
  apply rtc_refl.
Defined.

Lemma wit_suspended_ends : rtc (task_step id wit_fin) wit_suspended wit_ended.
Proof.
  eapply rtc_l; [by apply step_body_ends|]. eapply rtc_l; [by apply step_set_return_value|].
  eapply rtc_l; [apply step_continue|].
  eapply rtc_l; [by apply (step_await_resume id wit_fin _ _ (MkShared true None (Some 7)) _ _ _ (Ret 7))|].
  eapply rtc_l; [by apply step_destroy|]. apply rtc_refl.
Defined.

Lemma task_result_once_witness : t_got wit_ended = [] ∨ t_got wit_ended = [Ret 7].
Proof.
  apply (task_result_once id wit_fin wit_ended).
  etrans; [apply wit_suspended_reachable|apply wit_suspended_ends].
Defined.

Lemma task_handed_over_witness : t_undefined wit_ended = false ∧ t_got wit_ended = [Ret 7].
Proof.
  destruct (task_handed_over id wit_fin wit_suspended wit_ended) as (Hu & _ & Hg).
  - apply wit_suspended_reachable.
  - split; [done|]. left. by split.
  - apply wit_suspended_ends.
  - split; [exact Hu|]. apply Hg; [|reflexivity]. intros s'. inversion 1.
Defined.
