(* ===== verification/Logger.v ===== *)
(** * log.h, detail/logger.h, logger.cc: the logger

    The logger's state is its level and what it has printed; then come the singleton,
    which the first call constructs, and the functions [log_f] of the namespace
    [rdmapp::log] on it.  A
    message's text is the argument [text], already formatted: [std::format] belongs to the
    standard library, and so do the stores to the atomic level. *)

From S2P Require Import Prelude.
From stdpp Require Import options.

Inductive level := trace_level | debug_level | info_level | warn_level | error_level
  | critical_level | off_level.

(** The enumerators' values. *)
Definition level_value (l : level) : Z :=
  match l with
  | trace_level => 0 | debug_level => 1 | info_level => 2 | warn_level => 3
  | error_level => 4 | critical_level => 5 | off_level => 6
  end.

Record logger := MkLogger { level_ : level; printed : list string }.

(** The default member initialiser. *)
Definition logger_ctor : logger := MkLogger info_level [].

Definition set_level (l : level) : M logger unit := mmodify (λ s, MkLogger l (printed s)).

Definition newline : string := String (Ascii.ascii_of_nat 10) "".

Definition format_line (level_str text : string) : string :=
  "[rdmapp] [" +:+ level_str +:+ "] " +:+ text +:+ newline.

Definition log (l : level) (level_str text : string) : M logger unit :=
  s ← mget;
  if bool_decide (level_value (level_ s) ≤ level_value l)%Z
  then mmodify (λ s, MkLogger (level_ s) (printed s ++ [format_line level_str text]))
  else mret tt.

Definition trace (text : string) : M logger unit := log trace_level "TRACE" text.
Definition debug (text : string) : M logger unit := log debug_level "DEBUG" text.
Definition info (text : string) : M logger unit := log info_level "INFO " text.
Definition warn (text : string) : M logger unit := log warn_level "WARN " text.
Definition error (text : string) : M logger unit := log error_level "ERROR" text.
Definition critical (text : string) : M logger unit := log critical_level "CRIT " text.

(** [logger::setup], with an empty branch for a path that is given. *)
Definition setup (l : level) (log_path : string) : M logger unit :=
  set_level l ;;
  if bool_decide (log_path = "") then mret tt else mret tt.

(** ** The namespace rdmapp::log *)

(** The static variable of [get_instance]: [None] before its construction. *)
Definition static := option logger.

Definition get_instance : M static logger :=
  instance ← mget;
  match instance with
  | Some i => mret i
  | None => mmodify (λ _, Some logger_ctor) ;; mret logger_ctor
  end.

(** [get_instance().f(...)]. *)
Definition on_instance {A} (f : M logger A) : M static A :=
  i ← get_instance;
  (λ _, let '(r, i') := f i in (r, Some i')) : M static A.

Definition log_trace (text : string) : M static unit := on_instance (trace text).
Definition log_debug (text : string) : M static unit := on_instance (debug text).
Definition log_info (text : string) : M static unit := on_instance (info text).
Definition log_warn (text : string) : M static unit := on_instance (warn text).
Definition log_error (text : string) : M static unit := on_instance (error text).
Definition log_critical (text : string) : M static unit := on_instance (critical text).

Definition log_setup (l : level) (log_path : string) : M static unit := on_instance (setup l log_path).

(** The logger a call finds. *)
Definition current (s : static) : logger := default logger_ctor s.

Lemma on_instance_run {A} (f : M logger A) s :
  on_instance f s = ((f (current s)).1, Some (f (current s)).2).
Proof.
  unfold on_instance, get_instance, current. destruct s as [i|]; cbn.
  - unfold mbind, M_bind, mget. cbn. by destruct (f i).
  - unfold mbind, M_bind, mget, mmodify. cbn. by destruct (f logger_ctor).
Qed.

(** ** A program's messages *)

(** A call of one of the six functions, the text it logs, and its label. *)
Inductive message := Trace (t : string) | Debug (t : string) | Info (t : string)
  | Warn (t : string) | Error (t : string) | Critical (t : string).

Definition run_message (m : message) : M static unit :=
  match m with
  | Trace t => log_trace t | Debug t => log_debug t | Info t => log_info t
  | Warn t => log_warn t | Error t => log_error t | Critical t => log_critical t
  end.

Fixpoint run_messages (ms : list message) : M static unit :=
  match ms with
  | [] => mret tt
  | m :: ms => run_message m ;; run_messages ms
  end.

Definition message_level (m : message) : level :=
  match m with
  | Trace _ => trace_level | Debug _ => debug_level | Info _ => info_level
  | Warn _ => warn_level | Error _ => error_level | Critical _ => critical_level
  end.

Definition message_line (m : message) : string :=
  match m with
  | Trace t => format_line "TRACE" t | Debug t => format_line "DEBUG" t
  | Info t => format_line "INFO " t | Warn t => format_line "WARN " t
  | Error t => format_line "ERROR" t | Critical t => format_line "CRIT " t
  end.

Definition shown (l : level) (m : message) : Prop :=
  (level_value l ≤ level_value (message_level m))%Z.
#[export] Instance shown_dec l m : Decision (shown l m).
Proof. unfold shown. apply _. Defined.

(** What a logger has printed after messages. *)
Definition with_lines (ms : list message) (i : logger) : logger :=
  MkLogger (level_ i) (printed i ++ (message_line <$> filter (shown (level_ i)) ms)).

Lemma run_message_spec m s :
  run_message m s = (Ret tt, Some (with_lines [m] (current s))).
Proof.
  destruct (current s) as [l p] eqn:Hs. unfold with_lines. cbn [level_ printed].
  rewrite filter_cons. unfold shown.
  destruct m; unfold run_message, log_trace, log_debug, log_info, log_warn,
    log_error, log_critical; rewrite on_instance_run, Hs;
    unfold trace, debug, info, warn, error, critical, log; rewrite bind_mget; simpl;
    case_decide; case_bool_decide; try done; simpl; by rewrite app_nil_r.
Qed.

Lemma run_messages_spec ms s :
  ms ≠ [] → run_messages ms s = (Ret tt, Some (with_lines ms (current s))).
Proof.
  revert s. induction ms as [|m ms IH]; intros s Hms; [done|]. cbn [run_messages].
  rewrite (bind_ret _ _ _ _ _ (run_message_spec m s)).
  assert (with_lines (m :: ms) (current s) =
    with_lines ms (with_lines [m] (current s))) as Heq.
  { unfold with_lines. cbn [level_ printed]. f_equal. rewrite <- app_assoc. f_equal.
    rewrite !filter_cons. by case_decide. }
  rewrite Heq. destruct ms as [|m' ms]; [|by rewrite IH].
  unfold with_lines at 2. simpl. unfold mret, M_ret.
  by rewrite app_nil_r.
Qed.

(** Whether or not the logger exists yet, after [setup], whatever path it was given, exactly
    the messages of the level set or above are printed, each as one line, in the order of
    the calls; at level [off] none is. *)
Theorem log_filters (l : level) (path : string) (ms : list message) (s : static) :
  (log_setup l path ;; run_messages ms) s =
    (Ret tt, Some (MkLogger l
      (printed (current s) ++ (message_line <$> filter (shown l) ms)))) ∧
  filter (shown off_level) ms = [].
Proof.
  split.
  - assert (log_setup l path s = (Ret tt, Some (MkLogger l (printed (current s)))))
      as Hset.
    { unfold log_setup. rewrite on_instance_run. unfold setup. by case_bool_decide. }
    rewrite (bind_ret _ _ _ _ _ Hset). destruct ms as [|m ms].
    + simpl. by rewrite app_nil_r.
    + by rewrite run_messages_spec.
  - induction ms as [|m ms IH]; [done|]. rewrite filter_cons, decide_False; [done|].
    unfold shown. destruct m; simpl; lia.
Qed.
