(* ===== verification/Rpc.v ===== *)
(** * examples/include/coro_rpc.hpp: remote procedure calls on a queue pair

    [RpcClient], [RpcClientMux], [RpcServer] and [default_handler].  The buffer pools are byte
    lists; [memcpy] writes where it is told, and outside a pool it is undefined.  A call
    is cut at its [co_await]s: [call_begin], [response_suspend], [call_finish];
    between them other coroutines run.  Headers cross the network as the sender's memory image. *)

From S2P Require Import Prelude Serdes Mr.
From stdpp Require Import options.

(** ** Constants and layout *)

Definition kSendMsgSize : nat := 256.
(** Sizes above one thousand are kept in [N]'s binary form. *)
Definition kRecvMsgSize : nat := N.to_nat 4096.
(** [sizeof(RpcHeader)]: two words of 8 and 4 bytes and 4 bytes of padding. *)
Definition header_size : nat := 16.
Definition kSendBufferSize : nat := kSendMsgSize + header_size.
Definition kRecvBufferSize : nat := kRecvMsgSize + header_size.

Record RpcHeader := MkRpcHeader { req_id : Z; payload_len : Z }.

Section rpc.
Context {H : Host} {B : Build}.

(** [memcpy] into a pool, and reading from one. *)
Definition write_at (off : nat) (bs pool : bytes) : option bytes :=
  if bool_decide (off + length bs ≤ length pool)
  then Some (take off pool ++ bs ++ drop (off + length bs) pool) else None.
Definition read_at (off n : nat) (pool : bytes) : option bytes :=
  if bool_decide (off + n ≤ length pool) then Some (take n (drop off pool)) else None.

(** The first 12 bytes of the header; the padding is never written. *)
Definition header_bytes (h : RpcHeader) : bytes :=
  object_bytes 8 (req_id h) ++ object_bytes 4 (payload_len h).
Definition read_header (off : nat) (pool : bytes) : option RpcHeader :=
  id ← read_at off 8 pool;
  len ← read_at (off + 8) 4 pool;
  Some (MkRpcHeader (object_value id) (object_value len)).

(** The two writes that fill a message: the header, then the payload. *)
Definition write_message (off : nat) (h : RpcHeader) (payload pool : bytes) : option bytes :=
  pool ← write_at off (header_bytes h) pool;
  write_at (off + header_size) payload pool.

(** ** RpcClient *)

Record RpcSlot := MkRpcSlot {
  waiter : Z;
  user_resp_buffer : bytes;
  actual_len : nat;
  expected_req_id : Z }.
Definition slot0 : RpcSlot := MkRpcSlot 0 [] 0 0.

Record RpcClient := MkRpcClient {
  max_inflight_ : nat;
  send_buffer_pool_ : bytes;
  recv_buffer_pool_ : bytes;
  slots_ : list RpcSlot;
  free_slots_ : list nat;
  global_seq_ : Z }.

(** The constructor, once it has filled the queue of free slots. *)
Definition RpcClient_ctor (recv_depth : nat) : RpcClient :=
  MkRpcClient recv_depth
    (replicate (recv_depth * kSendBufferSize) Byte.x00)
    (replicate (recv_depth * kRecvBufferSize) Byte.x00)
    (replicate recv_depth slot0) (seq 0 recv_depth) 0.

(** The high 32 bits are the sequence number, the low 32 the slot. *)
Definition encode_req_id (seq slot_idx : Z) : Z := Z.lor (u64 (Z.shiftl seq 32)) slot_idx.
Definition decode_slot_idx (id : Z) : Z := u32 (Z.land id 4294967295).

Definition set_slots (f : list RpcSlot → list RpcSlot) : M RpcClient unit :=
  mmodify (λ c, MkRpcClient (max_inflight_ c) (send_buffer_pool_ c) (recv_buffer_pool_ c)
                  (f (slots_ c)) (free_slots_ c) (global_seq_ c)).
Definition set_send_pool (p : bytes) : M RpcClient unit :=
  mmodify (λ c, MkRpcClient (max_inflight_ c) p (recv_buffer_pool_ c)
                  (slots_ c) (free_slots_ c) (global_seq_ c)).
Definition set_free (f : list nat → list nat) : M RpcClient unit :=
  mmodify (λ c, MkRpcClient (max_inflight_ c) (send_buffer_pool_ c) (recv_buffer_pool_ c)
                  (slots_ c) (f (free_slots_ c)) (global_seq_ c)).
Definition fetch_add_seq : M RpcClient Z := λ c,
  (Ret (global_seq_ c), MkRpcClient (max_inflight_ c) (send_buffer_pool_ c)
     (recv_buffer_pool_ c) (slots_ c) (free_slots_ c) (u64 (global_seq_ c + 1))).

(** [call] up to [co_await qp_->send(...)]: the slot, the identifier and the view sent.
    [pick] is the place of the element the concurrent queue hands out; with no element
    there [try_dequeue] fails, and [None] says that [call] spins. *)
Definition call_begin (pick : nat) (req_data resp_buffer : bytes)
    : M RpcClient (option (nat * Z * (nat * Z))) :=
  c ← mget;
  match free_slots_ c !! pick with
  | None => mret None
  | Some slot_idx =>
      set_free (delete pick) ;;
      seq ← fetch_add_seq;
      let id := encode_req_id seq (Z.of_nat slot_idx) in
      slot ← deref (slots_ c !! slot_idx);
      set_slots <[slot_idx := MkRpcSlot 0 resp_buffer (actual_len slot) id]> ;;
      let send_offset := slot_idx * kSendBufferSize in
      let length := Z.min (Z.of_nat (header_size + length req_data))
                      (u64 (Z.of_nat (length (send_buffer_pool_ c)) - Z.of_nat send_offset)) in
      pool ← deref (write_message send_offset
                      (MkRpcHeader id (u32 (Z.of_nat (List.length req_data)))) req_data
                      (send_buffer_pool_ c));
      set_send_pool pool ;;
      mret (Some (slot_idx, id, (send_offset, length)))
  end.

(** [co_await RpcResponseAwaitable{slot}]: the coroutine registers itself. *)
Definition response_suspend (slot_idx : nat) (h : Z) : M RpcClient unit :=
  c ← mget;
  slot ← deref (slots_ c !! slot_idx);
  set_slots <[slot_idx := MkRpcSlot h (user_resp_buffer slot) (actual_len slot)
                            (expected_req_id slot)]>.

(** What the worker reads while it waits for the waiter: [None] while it spins. *)
Definition wait_waiter (slot_idx : nat) : M RpcClient (option Z) :=
  c ← mget;
  slot ← deref (slots_ c !! slot_idx);
  if bool_decide (waiter slot = 0%Z) then mret None else mret (Some (waiter slot)).

(** [call] from its resumption to the end, and after an exception. *)
Definition call_finish (slot_idx : nat) : M RpcClient nat :=
  c ← mget;
  slot ← deref (slots_ c !! slot_idx);
  set_free (λ l, l ++ [slot_idx]) ;;
  mret (actual_len slot).
Definition call_failed (slot_idx : nat) : M RpcClient nat :=
  set_free (λ l, l ++ [slot_idx]) ;; mret 0.

(** What a turn of [recv_worker] does after its receive completed: continue with the next
    one, or hand the result to the slot's waiter. *)
Inductive recv_turn := turn_continue | turn_resume (slot_idx : nat).

Definition recv_worker_turn (worker_idx : nat) (nbytes : Z) : M RpcClient recv_turn :=
  c ← mget;
  let offset := worker_idx * kRecvBufferSize in
  cassert (bool_decide (Z.of_nat header_size ≤ nbytes)%Z) ;;
  if bool_decide (nbytes < Z.of_nat header_size)%Z then mret turn_continue
  else
    h ← deref (read_header offset (recv_buffer_pool_ c));
    let slot_idx := decode_slot_idx (req_id h) in
    if bool_decide (Z.of_nat (max_inflight_ c) ≤ slot_idx)%Z then mret turn_continue
    else
      slot ← deref (slots_ c !! Z.to_nat slot_idx);
      if bool_decide (expected_req_id slot ≠ req_id h) then mterminate
      else
        cassert (bool_decide (payload_len h ≠ 0%Z)) ;;
        let copy_len := Nat.min (Z.to_nat (payload_len h)) (length (user_resp_buffer slot)) in
        payload ← deref (read_at (offset + header_size) copy_len (recv_buffer_pool_ c));
        buffer ← deref (write_at 0 payload (user_resp_buffer slot));
        set_slots <[Z.to_nat slot_idx := MkRpcSlot (waiter slot) buffer copy_len
                                           (expected_req_id slot)]> ;;
        mret (turn_resume (Z.to_nat slot_idx)).

(** ** RpcClientMux *)

Record RpcClientMux := MkRpcClientMux { clients_ : list RpcClient; selector_ : Z }.

(** A client for each of [nr_qp] queue pairs. *)
Definition RpcClientMux_ctor (nr_qp recv_depth : nat) : RpcClientMux :=
  MkRpcClientMux (replicate nr_qp (RpcClient_ctor recv_depth)) 0.

(** The client chosen by the selector, an [unsigned int]; without clients the remainder is
    undefined. *)
Definition mux_select : M RpcClientMux nat :=
  m ← mget;
  mmodify (λ m, MkRpcClientMux (clients_ m) (u32 (selector_ m + 1))) ;;
  if bool_decide (clients_ m = []) then mundefined
  else mret (Z.to_nat (selector_ m mod Z.of_nat (length (clients_ m)))).

Definition on_client {A} (i : nat) (f : M RpcClient A) : M RpcClientMux A := λ m,
  match clients_ m !! i with
  | Some c => let '(r, c') := f c in (r, MkRpcClientMux (<[i := c']> (clients_ m)) (selector_ m))
  | None => (Undefined, m)
  end.

(** [call] up to the client's [co_await]: the client, and what its [call] gives. *)
Definition mux_call_begin (pick : nat) (req_data resp_buffer : bytes)
    : M RpcClientMux (nat * option (nat * Z * (nat * Z))) :=
  i ← mux_select;
  r ← on_client i (call_begin pick req_data resp_buffer);
  mret (i, r).

(** ** RpcServer *)

(** The constructor's default [recv_depth] is 1024; the pools are sized with it. *)
Record RpcServer (S : Type) := MkRpcServer {
  recv_depth_ : nat;
  s_recv_buffer_pool_ : bytes;
  s_send_buffer_pool_ : bytes;
  s_globals : S }.
Arguments MkRpcServer {S} _ _ _ _.
Arguments recv_depth_ {S} _.
Arguments s_recv_buffer_pool_ {S} _.
Arguments s_send_buffer_pool_ {S} _.
Arguments s_globals {S} _.

Definition RpcServer_ctor {S} (recv_depth : nat) (g : S) : RpcServer S :=
  MkRpcServer recv_depth
    (replicate (recv_depth * kSendBufferSize) Byte.x00)
    (replicate (recv_depth * kRecvBufferSize) Byte.x00) g.

(** A handler sees the payload and the span for its response, works on the globals of the
    program, and returns a length; what the span holds afterwards comes first. *)
Definition Handler (S : Type) : Type := bytes → bytes → M S (bytes * nat).

Definition set_send_slice {S} (p : bytes) : M (RpcServer S) unit :=
  mmodify (λ s, MkRpcServer (recv_depth_ s) (s_recv_buffer_pool_ s) p (s_globals s)).
Definition on_globals {S A} (m : M S A) : M (RpcServer S) A :=
  zoom s_globals (λ g s, MkRpcServer (recv_depth_ s) (s_recv_buffer_pool_ s)
                           (s_send_buffer_pool_ s) g) m.

(** One turn of [server_worker] from the end of its receive to its send: the view sent. *)
Definition server_turn {S} (h_ : Handler S) (idx : nat) (nbytes : Z)
    : M (RpcServer S) (option (nat * Z)) :=
  let recv_offset := idx * kSendBufferSize in
  let send_offset := idx * kRecvBufferSize in
  if bool_decide (nbytes < Z.of_nat header_size)%Z then mret None
  else
    s ← mget;
    let recv_length := Z.min nbytes
      (u64 (Z.of_nat (length (s_recv_buffer_pool_ s)) - Z.of_nat recv_offset)) in
    header ← deref (read_header recv_offset (s_recv_buffer_pool_ s));
    cassert (bool_decide (payload_len header + Z.of_nat header_size = recv_length)%Z) ;;
    payload ← deref (read_at (recv_offset + header_size) (Z.to_nat recv_length - header_size)
                       (s_recv_buffer_pool_ s));
    resp ← deref (read_at (send_offset + header_size) (kRecvBufferSize - header_size)
                    (s_send_buffer_pool_ s));
    r ← on_globals (h_ payload resp);
    pool ← deref (write_message send_offset
                    (MkRpcHeader (req_id header) (u32 (Z.of_nat r.2))) r.1
                    (s_send_buffer_pool_ s));
    set_send_slice pool ;;
    let resp_len := header_size + r.2 in
    let send_length := Z.min (Z.of_nat resp_len)
      (u64 (Z.of_nat (length pool) - Z.of_nat send_offset)) in
    cassert (bool_decide (resp_len ≤ kRecvBufferSize)) ;;
    mret (Some (send_offset, send_length)).

(** ** default_handler *)

Definition kBufferCnt : Z := 1024.
Definition kBufferSize : Z := 4096.

Record disk_globals := MkDisk { global_disk_pool_ : bytes; g_disk_pool_cnt : Z }.

(** [g_disk_pool_cnt++ % kBufferCnt * kBufferSize]: an [int] expression, converted to
    [size_t]; the atomic counter wraps around. *)
Definition disk_offset (cnt : Z) : Z := u64 (Z.rem cnt kBufferCnt * kBufferSize).

Definition default_handler : Handler disk_globals := λ _ resp,
  g ← mget;
  mmodify (λ g, MkDisk (global_disk_pool_ g) (i32 (g_disk_pool_cnt g + 1))) ;;
  let offset := disk_offset (g_disk_pool_cnt g) in
  from ← deref (read_at (Z.to_nat offset) (Z.to_nat kBufferSize) (global_disk_pool_ g));
  cassert (bool_decide (length from ≤ length resp)) ;;
  resp' ← deref (write_at 0 from resp);
  mret (resp', length from).
End rpc.
Arguments MkRpcServer {S} _ _ _ _.
Arguments recv_depth_ {S} _.
Arguments s_recv_buffer_pool_ {S} _.
Arguments s_send_buffer_pool_ {S} _.
Arguments s_globals {S} _.

(** ** Lemmas: pools *)

Section pools.

Lemma write_at_lookup off bs pool p' :
  write_at off bs pool = Some p' →
  length p' = length pool ∧ off + length bs ≤ length pool ∧
  ∀ i, p' !! i = if decide (off ≤ i < off + length bs) then bs !! (i - off) else pool !! i.
Proof.
  unfold write_at. case_bool_decide as Hle; [|done]. intros [= <-].
  split; [rewrite !length_app, length_take, length_drop; lia|]. split; [done|]. intros i.
  destruct (decide (i < off)) as [Hi|Hi].
  - rewrite decide_False by lia. rewrite lookup_app_l by (rewrite length_take; lia).
    by rewrite lookup_take, decide_True by lia.
  - rewrite lookup_app_r by (rewrite length_take; lia).
    rewrite length_take. replace (Nat.min off (length pool)) with off by lia.
    destruct (decide (i < off + length bs)) as [Hb|Hb].
    + rewrite decide_True by lia. by rewrite lookup_app_l by lia.
    + rewrite decide_False by lia. rewrite lookup_app_r by lia.
      rewrite lookup_drop. f_equal. lia.
Qed.

Lemma write_at_some off bs pool :
  off + length bs ≤ length pool → ∃ p', write_at off bs pool = Some p'.
Proof. intros Hle. unfold write_at. rewrite bool_decide_eq_true_2 by done. by eexists. Qed.

Lemma read_at_ext off n p p' :
  length p = length p' → (∀ i, off ≤ i < off + n → p !! i = p' !! i) →
  read_at off n p = read_at off n p'.
Proof.
  intros Hlen Hi. unfold read_at. rewrite Hlen. case_bool_decide; [|done]. f_equal.
  apply list_eq. intros j. destruct (decide (j < n)) as [Hj|Hj].
  - rewrite !lookup_take, !decide_True, !lookup_drop by lia. apply Hi. lia.
  - by rewrite !lookup_take, !decide_False by lia.
Qed.

Lemma read_at_some off n pool bs :
  off + n ≤ length pool → length bs = n → (∀ i, i < n → pool !! (off + i) = bs !! i) →
  read_at off n pool = Some bs.
Proof.
  intros Hle Hlen Hi. unfold read_at. rewrite bool_decide_eq_true_2 by done. f_equal.
  apply list_eq. intros j. destruct (decide (j < n)) as [Hj|Hj].
  - rewrite lookup_take, decide_True, lookup_drop by lia. by apply Hi.
  - rewrite lookup_take, decide_False by lia. symmetry. apply lookup_ge_None. lia.
Qed.

(** Reading back what was written, and reading elsewhere. *)
Lemma read_write_same off bs pool p' :
  write_at off bs pool = Some p' → read_at off (length bs) p' = Some bs.
Proof.
  intros (Hlen & Hle & Hi)%write_at_lookup. apply read_at_some; [lia|done|].
  intros i Hlt. rewrite Hi, decide_True by lia. f_equal. lia.
Qed.

Lemma read_write_other off bs pool p' off' n :
  write_at off bs pool = Some p' → off' + n ≤ off ∨ off + length bs ≤ off' →
  read_at off' n p' = read_at off' n pool.
Proof.
  intros (Hlen & Hle & Hi)%write_at_lookup Hd. apply read_at_ext; [done|].
  intros i Hr. rewrite Hi, decide_False by lia. done.
Qed.

(** Part of what is read. *)
Lemma read_at_sub off n pool bs i k :
  read_at off n pool = Some bs → i + k ≤ n →
  read_at (off + i) k pool = Some (take k (drop i bs)).
Proof.
  unfold read_at. case_bool_decide as Hle; [|done]. intros [= <-] Hik.
  rewrite bool_decide_eq_true_2 by lia. f_equal.
  apply list_eq. intros j. rewrite !lookup_take. destruct (decide (j < k)) as [Hj|Hj]; [|done].
  rewrite !lookup_drop, lookup_take, decide_True, lookup_drop by lia. f_equal. lia.
Qed.
Lemma read_at_length off n pool bs : read_at off n pool = Some bs → length bs = n ∧ off + n ≤ length pool.
Proof.
  unfold read_at. case_bool_decide; [|done]. intros [= <-].
  rewrite length_take, length_drop. lia.
Qed.

Lemma read_at_is_some off n pool : off + n ≤ length pool → ∃ bs, read_at off n pool = Some bs.
Proof. intros Hle. unfold read_at. rewrite bool_decide_eq_true_2 by done. eauto. Qed.

End pools.

(** ** Lemmas: identifiers *)

Section ids.

Lemma lor_shift32 a b : (0 ≤ a)%Z → (0 ≤ b < 2 ^ 32)%Z →
  Z.lor (a * 2 ^ 32) b = (a * 2 ^ 32 + b)%Z.
Proof.
  intros Ha Hb. pose proof (Z.add_lor_land (a * 2 ^ 32) b) as Hs.
  assert (Z.land (a * 2 ^ 32) b = 0%Z) as Hz; [|lia].
  apply Z.bits_inj'. intros n Hn. rewrite Z.land_spec, Z.bits_0.
  destruct (decide (n < 32)%Z) as [Hl|Hl].
  - by rewrite Z.mul_pow2_bits_low.
  - rewrite (Z.bits_above_log2 b n), andb_false_r; [done|lia|].
    destruct (decide (b = 0)%Z) as [->|]; [simpl; lia|].
    apply Z.log2_lt_pow2; [lia|]. eapply Z.lt_le_trans; [apply Hb|].
    apply Z.pow_le_mono_r; lia.
Qed.

Lemma u64_shift32 s : u64 (Z.shiftl s 32) = (u32 s * 2 ^ 32)%Z.
Proof.
  rewrite Z.shiftl_mul_pow2 by lia. unfold u64, u32, wrap.
  change (2 ^ 64)%Z with (2 ^ 32 * 2 ^ 32)%Z. by rewrite Z.mul_mod_distr_r by lia.
Qed.

Lemma encode_value seq idx : (0 ≤ idx < 2 ^ 32)%Z →
  encode_req_id seq idx = (u32 seq * 2 ^ 32 + idx)%Z.
Proof.
  intros Hi. unfold encode_req_id. rewrite u64_shift32. apply lor_shift32; [|done].
  apply u32_range.
Qed.

Lemma decode_value id : decode_slot_idx id = u32 id.
Proof.
  unfold decode_slot_idx. change 4294967295%Z with (Z.ones 32). rewrite Z.land_ones by lia.
  by apply wrap_wrap.
Qed.

Lemma decode_encode seq idx : (0 ≤ idx < 2 ^ 32)%Z →
  decode_slot_idx (encode_req_id seq idx) = idx.
Proof.
  intros Hi. rewrite decode_value, encode_value by done. unfold u32 at 1, wrap.
  rewrite Z.add_comm, Z.mod_add by lia. by apply Z.mod_small.
Qed.

Lemma encode_inj seq idx seq' idx' :
  (0 ≤ idx < 2 ^ 32)%Z → (0 ≤ idx' < 2 ^ 32)%Z →
  encode_req_id seq idx = encode_req_id seq' idx' → idx = idx' ∧ u32 seq = u32 seq'.
Proof. intros Hi Hi'. rewrite !encode_value by done. lia. Qed.

Lemma encode_range seq idx : (0 ≤ idx < 2 ^ 32)%Z → in_width 64 (encode_req_id seq idx).
Proof.
  intros Hi. rewrite encode_value by done. pose proof (u32_range seq). unfold in_width. lia.
Qed.
End ids.

(** ** Lemmas: messages *)

Section messages.
Context {H : Host}.

Lemma object_roundtrip n v : object_value (object_bytes n v) = wrap (8 * Z.of_nat n) v.
Proof.
  unfold object_value, object_bytes. destruct big_endian;
    by rewrite ?rev_involutive, le_combine_le_split.
Qed.

Lemma object_bytes_length n v : length (object_bytes n v) = n.
Proof.
  unfold object_bytes. destruct big_endian; rewrite ?length_rev; apply le_split_length.
Qed.

Lemma header_bytes_length h : length (header_bytes h) = 12.
Proof. unfold header_bytes. by rewrite length_app, !object_bytes_length. Qed.

Definition header_ok (h : RpcHeader) : Prop :=
  in_width 64 (req_id h) ∧ in_width 32 (payload_len h).

(** A header is read from wherever its 12 bytes are. *)
Lemma read_header_image off h pool :
  header_ok h → read_at off 12 pool = Some (header_bytes h) → read_header off pool = Some h.
Proof.
  intros [Hi Hp] Hr. unfold read_header.
  pose proof (read_at_sub off 12 pool (header_bytes h) 0 8 Hr ltac:(lia)) as H8.
  pose proof (read_at_sub off 12 pool (header_bytes h) 8 4 Hr ltac:(lia)) as H4.
  rewrite Nat.add_0_r in H8. rewrite H8, H4. simpl.
  unfold header_bytes. rewrite drop_0, take_app_length', drop_app_length'
    by (symmetry; apply object_bytes_length).
  rewrite take_ge by (rewrite object_bytes_length; done).
  rewrite !object_roundtrip. destruct h as [i p]. unfold header_ok in *. simpl in *.
  f_equal. f_equal; by apply wrap_small.
Qed.

(** What a message looks like where it was written. *)
Lemma write_message_spec off h payload pool :
  header_ok h → off + header_size + length payload ≤ length pool →
  ∃ p', write_message off h payload pool = Some p' ∧ length p' = length pool ∧
    read_header off p' = Some h ∧
    read_at (off + header_size) (length payload) p' = Some payload ∧
    ∀ off' n, off' + n ≤ off ∨ off + header_size + length payload ≤ off' →
      read_at off' n p' = read_at off' n pool.
Proof.
  intros Hh Hle. unfold write_message, header_size in *.
  destruct (write_at_some off (header_bytes h) pool) as [p1 H1];
    [rewrite header_bytes_length; lia|].
  pose proof (write_at_lookup _ _ _ _ H1) as (Hlen1 & _ & _).
  destruct (write_at_some (off + 16) payload p1) as [p2 H2]; [lia|].
  pose proof (write_at_lookup _ _ _ _ H2) as (Hlen2 & _ & _).
  exists p2. rewrite H1. simpl. rewrite H2. split; [done|]. split; [lia|]. split.
  - apply read_header_image; [done|].
    rewrite (read_write_other _ _ _ _ off 12 H2) by lia.
    rewrite <- (header_bytes_length h). by apply (read_write_same _ _ pool).
  - split; [by apply (read_write_same _ _ p1)|]. intros off' n Hd.
    rewrite (read_write_other _ _ _ _ off' n H2) by lia.
    rewrite (read_write_other _ _ _ _ off' n H1); [done|].
    rewrite header_bytes_length. lia.
Qed.

Lemma write_message_length off h payload pool p' :
  write_message off h payload pool = Some p' → length p' = length pool.
Proof.
  unfold write_message. destruct (write_at off _ pool) as [p|] eqn:H1; [|done]. simpl.
  intros (-> & _)%write_at_lookup. by apply write_at_lookup in H1 as (-> & _).
Qed.

(** A message that was read somewhere reads the same where it is placed. *)
Lemma placed_header off n pool msg h off' pool' :
  read_at off n pool = Some msg → 12 ≤ n → read_header off pool = Some h →
  read_at off' n pool' = Some msg → read_header off' pool' = Some h.
Proof.
  intros Hm Hn Hh Hm'. unfold read_header in *.
  pose proof (read_at_sub off n pool msg 0 8 Hm ltac:(lia)) as A8.
  pose proof (read_at_sub off n pool msg 8 4 Hm ltac:(lia)) as A4.
  pose proof (read_at_sub off' n pool' msg 0 8 Hm' ltac:(lia)) as B8.
  pose proof (read_at_sub off' n pool' msg 8 4 Hm' ltac:(lia)) as B4.
  rewrite Nat.add_0_r in A8, B8. by rewrite A8, A4, <- B8, <- B4 in Hh.
Qed.
End messages.

(** ** Calls in flight

    [calls] is the identifier of the call that holds each slot, [issued] every identifier
    ever sent, the oldest first.  Steps interleave freely, as coroutines do; [step_land] is
    the network writing any bytes into any posted receive slice. *)

Section inflight.
Context {H : Host} {B : Build}.

Record rpc_state := MkRpcState {
  client : RpcClient;
  calls : gmap nat Z;
  issued : list Z }.

Definition rpc_init (depth : nat) : rpc_state := MkRpcState (RpcClient_ctor depth) ∅ [].

Definition set_recv_pool (p : bytes) (c : RpcClient) : RpcClient :=
  MkRpcClient (max_inflight_ c) (send_buffer_pool_ c) p (slots_ c) (free_slots_ c) (global_seq_ c).

Inductive rpc_step : rpc_state → rpc_state → Prop :=
| step_begin c m l pick req resp i id v c' :
    call_begin pick req resp c = (Ret (Some (i, id, v)), c') →
    rpc_step (MkRpcState c m l) (MkRpcState c' (<[i := id]> m) (l ++ [id]))
| step_suspend c m l i id h c' :
    m !! i = Some id → h ≠ 0%Z → response_suspend i h c = (Ret tt, c') →
    rpc_step (MkRpcState c m l) (MkRpcState c' m l)
| step_land c m l w bs p :
    write_at (w * kRecvBufferSize) bs (recv_buffer_pool_ c) = Some p →
    rpc_step (MkRpcState c m l) (MkRpcState (set_recv_pool p c) m l)
| step_turn c m l w n t c' :
    recv_worker_turn w n c = (Ret t, c') →
    rpc_step (MkRpcState c m l) (MkRpcState c' m l)
| step_finish c m l i id n c' :
    m !! i = Some id → call_finish i c = (Ret n, c') →
    rpc_step (MkRpcState c m l) (MkRpcState c' (delete i m) l)
| step_failed c m l i id n c' :
    m !! i = Some id → call_failed i c = (Ret n, c') →
    rpc_step (MkRpcState c m l) (MkRpcState c' (delete i m) l).

(** The slots: [depth] of them, each free or held by one call whose identifier it expects. *)
Record owned (depth : nat) (c : RpcClient) (m : gmap nat Z) : Prop := {
  o_max : max_inflight_ c = depth;
  o_slots : length (slots_ c) = depth;
  o_send : length (send_buffer_pool_ c) = depth * kSendBufferSize;
  o_recv : length (recv_buffer_pool_ c) = depth * kRecvBufferSize;
  o_nodup : NoDup (free_slots_ c);
  o_excl : ∀ i, i ∈ free_slots_ c → m !! i = None;
  o_all : ∀ i, i < depth ↔ i ∈ free_slots_ c ∨ is_Some (m !! i);
  o_ids : ∀ i id, m !! i = Some id →
    (∃ slot, slots_ c !! i = Some slot ∧ expected_req_id slot = id) ∧
    decode_slot_idx id = Z.of_nat i }.

(** The identifiers sent: the [k]-th one carries sequence number [k]. *)
Definition numbered (depth : nat) (c : RpcClient) (l : list Z) : Prop :=
  global_seq_ c = u64 (Z.of_nat (length l)) ∧
  ∀ k id, l !! k = Some id → ∃ i, i < depth ∧ id = encode_req_id (Z.of_nat k) (Z.of_nat i).

(** What [call_begin] did when it returned. *)
Lemma call_begin_inv pick req resp c i id v c' :
  call_begin pick req resp c = (Ret (Some (i, id, v)), c') →
  ∃ slot p, free_slots_ c !! pick = Some i ∧ slots_ c !! i = Some slot ∧
    id = encode_req_id (global_seq_ c) (Z.of_nat i) ∧
    write_message (i * kSendBufferSize) (MkRpcHeader id (u32 (Z.of_nat (length req)))) req
      (send_buffer_pool_ c) = Some p ∧
    c' = MkRpcClient (max_inflight_ c) p (recv_buffer_pool_ c)
           (<[i := MkRpcSlot 0 resp (actual_len slot) id]> (slots_ c))
           (delete pick (free_slots_ c)) (u64 (global_seq_ c + 1)).
Proof.
  unfold call_begin. rewrite bind_mget. unfold deref, mundefined, set_free, fetch_add_seq,
    set_slots, set_send_pool, mmodify, mret, M_ret, mbind, M_bind. simpl.
  destruct (free_slots_ c !! pick) as [i0|] eqn:Hf; [|done]. simpl.
  destruct (slots_ c !! i0) as [slot|] eqn:Hs; [|done]. simpl.
  destruct (write_message _ _ _ _) as [p|] eqn:Hw; [|done]. simpl.
  intros [= <- <- <- <-]. exists slot, p. done.
Qed.

(** The fields of a client that only [call_begin], [call_finish] and [call_failed] change. *)
Definition same_calls (c c' : RpcClient) : Prop :=
  max_inflight_ c' = max_inflight_ c ∧ send_buffer_pool_ c' = send_buffer_pool_ c ∧
  length (recv_buffer_pool_ c') = length (recv_buffer_pool_ c) ∧
  free_slots_ c' = free_slots_ c ∧ global_seq_ c' = global_seq_ c ∧
  expected_req_id <$> slots_ c' = expected_req_id <$> slots_ c.

Lemma same_slots_insert i slot slot' (l : list RpcSlot) :
  l !! i = Some slot → expected_req_id slot' = expected_req_id slot →
  expected_req_id <$> <[i := slot']> l = expected_req_id <$> l.
Proof. intros Hl He. rewrite list_fmap_insert, He. apply list_insert_id. by rewrite list_lookup_fmap, Hl. Qed.

Lemma suspend_same i h c c' : response_suspend i h c = (Ret tt, c') → same_calls c c'.
Proof.
  unfold response_suspend. rewrite bind_mget. destruct (slots_ c !! i) as [slot|] eqn:Hs; [|done].
  unfold deref. rewrite bind_mret. intros [= <-]. repeat (split; [done|]). simpl.
  by eapply same_slots_insert.
Qed.

Lemma turn_same w n c t c' : recv_worker_turn w n c = (Ret t, c') → same_calls c c'.
Proof.
  assert (same_calls c c) as Hsame by done.
  unfold recv_worker_turn. rewrite bind_mget. munfold. unfold cassert.
  destruct (NDEBUG || _); [|done]. case_bool_decide as Hn; [by intros [= <- <-]|].
  destruct (read_header _ _) as [h|]; [|done]. simpl.
  case_bool_decide as Hm; [by intros [= <- <-]|].
  destruct (slots_ c !! _) as [slot|] eqn:Hs; [|done].
  case_bool_decide as He; [done|].
  destruct (NDEBUG || _); [|done].
  destruct (read_at _ _ _) as [pl|]; [|done]. destruct (write_at _ _ _) as [bf|]; [|done].
  intros [= <- <-]. repeat (split; [done|]). simpl. by eapply same_slots_insert.
Qed.

Lemma owned_same depth c c' m : same_calls c c' → owned depth c m → owned depth c' m.
Proof.
  intros (H1 & H2 & H3 & H4 & H5 & H6) []. split; try congruence.
  - apply (f_equal length) in H6. rewrite !length_fmap in H6. congruence.
  - rewrite H4. done.
  - rewrite H4. done.
  - intros i id Hi. destruct (o_ids0 i id Hi) as [(slot & Hs & He) Hd]. split; [|done].
    assert ((expected_req_id <$> slots_ c') !! i = Some id) as Hf
      by (rewrite H6, list_lookup_fmap, Hs; simpl; congruence).
    rewrite list_lookup_fmap in Hf. apply fmap_Some in Hf as (slot' & Hs' & ->). eauto.
Qed.

Lemma owned_init depth : owned depth (RpcClient_ctor depth) ∅.
Proof.
  split; simpl; try done.
  - by rewrite length_replicate.
  - by rewrite length_replicate.
  - by rewrite length_replicate.
  - apply NoDup_seq.
  - intros i. rewrite elem_of_seq. split; [intros; left; lia|]. intros [?|[? ?]]; [lia|done].
Qed.

Lemma owned_begin depth c m pick req resp i id v c' :
  (Z.of_nat depth ≤ 2 ^ 32)%Z →
  call_begin pick req resp c = (Ret (Some (i, id, v)), c') → owned depth c m →
  i < depth ∧ m !! i = None ∧ owned depth c' (<[i := id]> m).
Proof.
  intros Hd (slot & p & Hf & Hs & -> & Hw & ->)%call_begin_inv [].
  pose proof (list_elem_of_lookup_2 _ _ _ Hf) as Hin.
  assert (i < depth) as Hi by (apply o_all0; auto).
  pose proof (delete_Permutation _ _ _ Hf) as Hp.
  assert (∀ j, j ∈ free_slots_ c ↔ j = i ∨ j ∈ delete pick (free_slots_ c)) as Hmem
    by (intros j; rewrite Hp at 1; apply elem_of_cons).
  pose proof o_nodup0 as Hnd. rewrite Hp in Hnd. apply NoDup_cons in Hnd as [Hni Hnd].
  split; [done|]. split; [auto|]. split; simpl; try done.
  - by rewrite length_insert.
  - pose proof (write_message_length _ _ _ _ _ Hw). congruence.
  - intros j Hj. rewrite lookup_insert_ne by (intros <-; done). apply o_excl0, Hmem. auto.
  - intros j. rewrite o_all0, Hmem. destruct (decide (j = i)) as [->|Hne].
    + rewrite lookup_insert_eq. split; eauto.
    + rewrite lookup_insert_ne by done. naive_solver.
  - intros j id. destruct (decide (j = i)) as [->|Hne].
    + rewrite lookup_insert_eq. intros [= <-]. split; [|apply decode_encode; lia].
      rewrite list_lookup_insert_eq by lia. by eexists.
    + rewrite lookup_insert_ne by done. intros Hj. destruct (o_ids0 j id Hj) as [(sl & ? & ?) ?].
      rewrite list_lookup_insert_ne by done. eauto.
Qed.

Lemma owned_return depth c m i id n c' :
  m !! i = Some id → owned depth c m →
  call_finish i c = (Ret n, c') ∨ call_failed i c = (Ret n, c') → owned depth c' (delete i m).
Proof.
  intros Hi Ho Hr.
  assert (c' = MkRpcClient (max_inflight_ c) (send_buffer_pool_ c) (recv_buffer_pool_ c)
                 (slots_ c) (free_slots_ c ++ [i]) (global_seq_ c)) as ->.
  { destruct Hr as [Hr|Hr]; [|by injection Hr].
    revert Hr. unfold call_finish. rewrite bind_mget.
    destruct (slots_ c !! i); [|done]. unfold deref. rewrite bind_mret. by intros [= _ <-]. }
  destruct Ho. split; simpl; try done.
  - apply NoDup_app. split; [done|]. split; [|apply NoDup_singleton].
    intros j Hj ->%list_elem_of_singleton. apply o_excl0 in Hj. congruence.
  - intros j. rewrite elem_of_app, list_elem_of_singleton. intros [Hj| ->].
    + apply lookup_delete_None. auto.
    + apply lookup_delete_eq.
  - intros j. rewrite o_all0, elem_of_app, list_elem_of_singleton.
    destruct (decide (j = i)) as [->|Hne].
    + split; eauto.
    + rewrite lookup_delete_ne by done. naive_solver.
  - intros j jd [_ Hj]%lookup_delete_Some. auto.
Qed.

Lemma owned_step depth s s' :
  (Z.of_nat depth ≤ 2 ^ 32)%Z → owned depth (client s) (calls s) → rpc_step s s' →
  owned depth (client s') (calls s').
Proof.
  intros Hd Ho Hs. destruct Hs as [?????????? Hc|????????? Hc|?????? Hc|??????? Hc|??????? Hm Hc|??????? Hm Hc]; simpl in *.
  - by destruct (owned_begin _ _ _ _ _ _ _ _ _ _ Hd Hc Ho) as (_ & _ & ?).
  - eapply owned_same; [|done]. by eapply suspend_same.
  - eapply owned_same; [|done]. apply write_at_lookup in Hc as (Hl & _). unfold same_calls; simpl; auto 10.
  - eapply owned_same; [|done]. by eapply turn_same.
  - eapply owned_return; eauto.
  - eapply owned_return; eauto.
Qed.

Lemma encode_wrap k i : encode_req_id (u64 k) i = encode_req_id k i.
Proof.
  unfold encode_req_id. f_equal. rewrite !u64_shift32. f_equal. unfold u32, u64, wrap.
  rewrite <- Znumtheory.Zmod_div_mod; [done|lia|lia|]. by exists (2 ^ 32)%Z.
Qed.

Lemma numbered_same depth c c' l : same_calls c c' → numbered depth c l → numbered depth c' l.
Proof. intros (_ & _ & _ & _ & Hg & _) [Hs Hl]. split; [congruence|done]. Qed.

Lemma numbered_begin depth c l i id :
  numbered depth c l → i < depth → id = encode_req_id (global_seq_ c) (Z.of_nat i) →
  u64 (global_seq_ c + 1) = u64 (Z.of_nat (length (l ++ [id]))) ∧
  ∀ k jd, (l ++ [id]) !! k = Some jd →
    ∃ j, j < depth ∧ jd = encode_req_id (Z.of_nat k) (Z.of_nat j).
Proof.
  intros [Hs Hl] Hi ->. split.
  - rewrite Hs, length_app. simpl. unfold u64, wrap. rewrite Z.add_mod_idemp_l by lia.
    f_equal. lia.
  - intros k jd [Hk|[Hk Hj]]%lookup_app_Some; [by apply Hl|].
    apply list_lookup_singleton_Some in Hj as [Hz <-].
    exists i. split; [done|]. rewrite Hs, encode_wrap. f_equal. lia.
Qed.

Lemma numbered_step depth s s' :
  (Z.of_nat depth ≤ 2 ^ 32)%Z → owned depth (client s) (calls s) →
  numbered depth (client s) (issued s) → rpc_step s s' → numbered depth (client s') (issued s').
Proof.
  intros Hd Ho Hn Hs.
  destruct Hs as [?????????? Hc|????????? Hc|?????? Hc|??????? Hc|??? i ??? Hm Hc|??????? Hm Hc];
    simpl in *.
  - destruct (owned_begin _ _ _ _ _ _ _ _ _ _ Hd Hc Ho) as (Hi & _ & _).
    apply call_begin_inv in Hc as (slot & p & _ & _ & Hid & _ & ->).
    by apply (numbered_begin _ _ _ _ _ Hn Hi Hid).
  - eapply numbered_same; [|done]. by eapply suspend_same.
  - exact Hn.
  - eapply numbered_same; [|done]. by eapply turn_same.
  - revert Hc. unfold call_finish. rewrite bind_mget.
    destruct (slots_ c !! i); [|done]. unfold deref. rewrite bind_mret. by intros [= _ <-].
  - by injection Hc as _ <-.
Qed.

Lemma rpc_reachable depth s :
  (Z.of_nat depth ≤ 2 ^ 32)%Z → rtc rpc_step (rpc_init depth) s →
  owned depth (client s) (calls s) ∧ numbered depth (client s) (issued s).
Proof.
  intros Hd Hr. refine (rtc_invariant rpc_step
    (λ s, owned depth (client s) (calls s) ∧ numbered depth (client s) (issued s)) _ _ _ Hr _).
  - intros a b [Ho Hn] Hs. split; [by eapply owned_step|by eapply numbered_step].
  - split; [apply owned_init|]. split; [done|]. by intros [] id Hk.
Qed.

(** C14: Whatever the interleaving of calls, responses and failures, every slot is free or
    held by exactly one call, whose identifier the slot expects; no two calls in flight
    have the same identifier. *)
Theorem rpc_slots_owned (depth : nat) (s : rpc_state) :
  (Z.of_nat depth ≤ 2 ^ 32)%Z → rtc rpc_step (rpc_init depth) s →
  free_slots_ (client s) ++ elements (dom (calls s)) ≡ₚ seq 0 depth ∧
  (∀ i id, calls s !! i = Some id →
    ∃ slot, slots_ (client s) !! i = Some slot ∧ expected_req_id slot = id) ∧
  (∀ i j id, calls s !! i = Some id → calls s !! j = Some id → i = j).
Proof.
  intros Hd Hr. destruct (rpc_reachable depth s Hd Hr) as [[] _]. split_and!.
  - apply NoDup_Permutation.
    + apply NoDup_app. split; [done|]. split; [|apply NoDup_elements].
      intros i Hi%o_excl0. by rewrite elem_of_elements, not_elem_of_dom.
    + apply NoDup_seq.
    + intros i. rewrite elem_of_app, elem_of_elements, elem_of_dom, elem_of_seq, <- o_all0. lia.
  - intros i id Hi. apply (o_ids0 i id Hi).
  - intros i j id [_ Hi]%o_ids0 [_ Hj]%o_ids0. lia.
Qed.

(** Among the first 2^32 calls no two ever carry the same identifier, so that a late
    response to an earlier call on the same slot is told apart. *)
Theorem rpc_ids_distinct (depth : nat) (s : rpc_state) :
  (Z.of_nat depth ≤ 2 ^ 32)%Z → rtc rpc_step (rpc_init depth) s →
  (Z.of_nat (length (issued s)) ≤ 2 ^ 32)%Z → NoDup (issued s).
Proof.
  intros Hd Hr Hlen. destruct (rpc_reachable depth s Hd Hr) as [_ [_ Hl]].
  apply NoDup_alt. intros j k id Hj Hk.
  pose proof (lookup_lt_Some _ _ _ Hj). pose proof (lookup_lt_Some _ _ _ Hk).
  destruct (Hl j id Hj) as (a & Ha & ->). destruct (Hl k _ Hk) as (b & Hb & He).
  apply encode_inj in He as [_ He]; [|lia|lia]. rewrite !u32_small in He by lia. lia.
Qed.

(** ** One message each way *)

Lemma header_ok_encode seq i n : (0 ≤ i < 2 ^ 32)%Z → header_ok (MkRpcHeader (encode_req_id seq i) (u32 n)).
Proof. intros Hi. split; simpl; [by apply encode_range|apply u32_range]. Qed.

(** [call_begin] returns when the request fits what is left of the pool. *)
Lemma call_begin_ok depth c m pick req resp i :
  (Z.of_nat depth ≤ 2 ^ 32)%Z → owned depth c m → free_slots_ c !! pick = Some i →
  i * kSendBufferSize + header_size + length req ≤ depth * kSendBufferSize →
  let id := encode_req_id (global_seq_ c) (Z.of_nat i) in
  ∃ c', call_begin pick req resp c =
      (Ret (Some (i, id, (i * kSendBufferSize, Z.of_nat (header_size + length req)))), c') ∧
    i < depth ∧
    write_message (i * kSendBufferSize) (MkRpcHeader id (u32 (Z.of_nat (length req)))) req
      (send_buffer_pool_ c) = Some (send_buffer_pool_ c') ∧
    length (send_buffer_pool_ c) = depth * kSendBufferSize ∧ max_inflight_ c' = depth ∧
    ∃ slot, slots_ c' !! i = Some slot ∧ expected_req_id slot = id ∧
      user_resp_buffer slot = resp.
Proof.
  intros Hd [] Hf Hle id.
  assert (i < depth) as Hi by (apply o_all0; left; by eapply list_elem_of_lookup_2).
  destruct (lookup_lt_is_Some_2 (slots_ c) i) as [slot Hs]; [lia|].
  destruct (write_message_spec (i * kSendBufferSize)
    (MkRpcHeader id (u32 (Z.of_nat (length req)))) req (send_buffer_pool_ c))
    as (p & Hw & _); [apply header_ok_encode; lia|lia|].
  eexists. unfold call_begin. rewrite bind_mget. rewrite Hf. unfold deref.
  unfold set_free. rewrite bind_mmodify.
  unfold fetch_add_seq. cbv beta delta [mbind M_bind]. cbn [send_buffer_pool_ slots_ global_seq_].
  rewrite Hs. unfold mret, M_ret, set_slots, mmodify. cbn [send_buffer_pool_ slots_ global_seq_].
  fold id. rewrite Hw. unfold set_send_pool, mmodify. split.
  - do 5 f_equal. rewrite Z.min_l; [done|].
    unfold kSendBufferSize, kSendMsgSize, header_size in *.
    rewrite u64_small; lia.
  - cbn. split_and!; try done. exists (MkRpcSlot 0 resp (actual_len slot) id).
    rewrite list_lookup_insert_eq by lia. done.
Qed.

(** A client in which the call on slot [i] waits for the response to [id]. *)
Definition expects (depth i : nat) (id : Z) (resp : bytes) (c : RpcClient) : Prop :=
  max_inflight_ c = depth ∧
  ∃ slot, slots_ c !! i = Some slot ∧ expected_req_id slot = id ∧ user_resp_buffer slot = resp.

(** What [call_begin] leaves behind for a request that fits its slice. *)
Lemma rpc_request depth s pick i req resp :
  (Z.of_nat depth ≤ 2 ^ 32)%Z → rtc rpc_step (rpc_init depth) s →
  free_slots_ (client s) !! pick = Some i → length req ≤ kSendMsgSize →
  let off := i * kSendBufferSize in
  ∃ id c' msg, call_begin pick req resp (client s) =
      (Ret (Some (i, id, (off, Z.of_nat (header_size + length req)))), c') ∧
    expects depth i id resp c' ∧ i < depth ∧ in_width 64 id ∧ decode_slot_idx id = Z.of_nat i ∧
    read_at off (header_size + length req) (send_buffer_pool_ c') = Some msg ∧
    length msg = header_size + length req ∧
    read_header off (send_buffer_pool_ c') = Some (MkRpcHeader id (Z.of_nat (length req))) ∧
    read_at (off + header_size) (length req) (send_buffer_pool_ c') = Some req ∧
    ∀ j, j < depth → j ≠ i →
      read_at (j * kSendBufferSize) kSendBufferSize (send_buffer_pool_ c') =
      read_at (j * kSendBufferSize) kSendBufferSize (send_buffer_pool_ (client s)).
Proof.
  intros Hd Hr Hf Hlen off. destruct (rpc_reachable depth s Hd Hr) as [Ho _].
  assert (i < depth) as Hi by (apply (o_all _ _ _ Ho); left; by eapply list_elem_of_lookup_2).
  assert (off + header_size + length req ≤ S i * kSendBufferSize) as Hfit
    by (unfold off, kSendBufferSize; lia).
  assert (S i * kSendBufferSize ≤ depth * kSendBufferSize) as Hin
    by (apply Nat.mul_le_mono_r; lia).
  destruct (call_begin_ok depth (client s) (calls s) pick req resp i)
    as (c' & Hc & _ & Hw & Hl & Hmax & Hslot); [done..|lia|].
  destruct (write_message_spec off (MkRpcHeader (encode_req_id (global_seq_ (client s)) (Z.of_nat i))
    (u32 (Z.of_nat (length req)))) req (send_buffer_pool_ (client s)))
    as (p & Hw' & Hpl & Hh & Hp & Hother); [apply header_ok_encode; lia|lia|].
  fold off in Hw. rewrite Hw in Hw'. injection Hw' as <-.
  rewrite u32_small in Hh by (unfold kSendMsgSize in Hlen; lia).
  destruct (read_at_is_some off (header_size + length req) (send_buffer_pool_ c')) as [msg Hm];
    [lia|].
  eexists _, c', msg. split; [exact Hc|]. split; [done|]. split; [done|].
  split; [apply encode_range; lia|]. split; [apply decode_encode; lia|]. split; [done|].
  split; [by destruct (read_at_length _ _ _ _ Hm)|]. split; [done|]. split; [done|].
  intros j Hj Hne. apply Hother. destruct (decide (j < i)).
  - left. unfold off, kSendBufferSize, kSendMsgSize, header_size. lia.
  - right. assert (S i * kSendBufferSize ≤ j * kSendBufferSize) by (apply Nat.mul_le_mono_r; lia).
    lia.
Qed.

(** A request of at most 256 bytes is laid out in the sending slice of its own slot, a
    header with its identifier and length followed by its bytes, exactly what the view
    handed to the queue pair covers; the slices of all other slots are untouched. *)
Theorem rpc_request_slice (depth : nat) (s : rpc_state) (pick i : nat) (req resp : bytes) :
  (Z.of_nat depth ≤ 2 ^ 32)%Z → rtc rpc_step (rpc_init depth) s →
  free_slots_ (client s) !! pick = Some i → length req ≤ kSendMsgSize →
  let off := i * kSendBufferSize in
  ∃ id c', call_begin pick req resp (client s) =
      (Ret (Some (i, id, (off, Z.of_nat (header_size + length req)))), c') ∧
    read_header off (send_buffer_pool_ c') = Some (MkRpcHeader id (Z.of_nat (length req))) ∧
    read_at (off + header_size) (length req) (send_buffer_pool_ c') = Some req ∧
    ∀ j, j < depth → j ≠ i →
      read_at (j * kSendBufferSize) kSendBufferSize (send_buffer_pool_ c') =
      read_at (j * kSendBufferSize) kSendBufferSize (send_buffer_pool_ (client s)).
Proof.
  intros Hd Hr Hf Hlen off. destruct (rpc_request depth s pick i req resp Hd Hr Hf Hlen)
    as (id & c' & msg & Hc & _ & _ & _ & _ & _ & _ & Hh & Hp & Hother).
  by exists id, c'.
Qed.

(** There is no check of the request's size: what exceeds 256 bytes is written over
    the slice of the next slot, from its header on. *)
Theorem rpc_oversized_request (depth : nat) (s : rpc_state) (pick i : nat) (req resp : bytes) :
  (Z.of_nat depth ≤ 2 ^ 32)%Z → rtc rpc_step (rpc_init depth) s →
  free_slots_ (client s) !! pick = Some i → i + 1 < depth →
  kSendMsgSize < length req ≤ kSendMsgSize + kSendBufferSize →
  ∃ id c', call_begin pick req resp (client s) =
      (Ret (Some (i, id, (i * kSendBufferSize, Z.of_nat (header_size + length req)))), c') ∧
    read_at ((i + 1) * kSendBufferSize) (length req - kSendMsgSize) (send_buffer_pool_ c') =
      Some (drop kSendMsgSize req).
Proof.
  intros Hd Hr Hf Hi Hlen. destruct (rpc_reachable depth s Hd Hr) as [Ho _].
  assert (i * kSendBufferSize + header_size + length req ≤ (i + 2) * kSendBufferSize) as Hfit
    by (unfold kSendBufferSize in *; lia).
  assert ((i + 2) * kSendBufferSize ≤ depth * kSendBufferSize) as Hin
    by (apply Nat.mul_le_mono_r; lia).
  destruct (call_begin_ok depth (client s) (calls s) pick req resp i)
    as (c' & Hc & _ & Hw & Hl & _); [done..|lia|].
  eexists _, c'. split; [exact Hc|].
  destruct (write_message_spec (i * kSendBufferSize)
    (MkRpcHeader (encode_req_id (global_seq_ (client s)) (Z.of_nat i))
    (u32 (Z.of_nat (length req)))) req (send_buffer_pool_ (client s)))
    as (p & Hw' & _ & _ & Hp & _); [apply header_ok_encode; lia|lia|].
  rewrite Hw in Hw'. injection Hw' as <-.
  pose proof (read_at_sub _ _ _ _ kSendMsgSize (length req - kSendMsgSize) Hp ltac:(lia)) as Hs.
  replace ((i + 1) * kSendBufferSize) with (i * kSendBufferSize + header_size + kSendMsgSize)
    by (unfold kSendBufferSize; lia).
  rewrite Hs. f_equal. apply take_ge. rewrite length_drop. lia.
Qed.
End inflight.

(** ** The server's turn and the client's *)

Section echo.
Context {H : Host} {B : Build} {S : Type}.

(** The handler answers [req] with [answer] at the start of the span it is given. *)
Definition answers (h : Handler S) (req answer : bytes) (g g' : S) : Prop :=
  ∀ span, length span = kRecvBufferSize - header_size →
    h req span g = (Ret (answer ++ drop (length answer) span, length answer), g').

(** The same for the payload of a message. *)
Lemma placed_payload off n pool msg payload off' pool' :
  read_at off (header_size + n) pool = Some msg →
  read_at (off + header_size) n pool = Some payload →
  read_at off' (header_size + n) pool' = Some msg →
  read_at (off' + header_size) n pool' = Some payload.
Proof.
  intros Hm Hp Hm'.
  rewrite (read_at_sub _ _ _ _ header_size n Hm) in Hp by lia.
  by rewrite (read_at_sub _ _ _ _ header_size n Hm') by lia.
Qed.

Lemma serve depth h idx id req answer g g' (s : RpcServer S) :
  (Z.of_nat depth ≤ 2 ^ 32)%Z → idx < depth →
  length (s_recv_buffer_pool_ s) = depth * kSendBufferSize →
  length (s_send_buffer_pool_ s) = depth * kRecvBufferSize →
  s_globals s = g → in_width 64 id → length req ≤ kSendMsgSize → length answer ≤ kRecvMsgSize →
  read_header (idx * kSendBufferSize) (s_recv_buffer_pool_ s) =
    Some (MkRpcHeader id (Z.of_nat (length req))) →
  read_at (idx * kSendBufferSize + header_size) (length req) (s_recv_buffer_pool_ s) = Some req →
  answers h req answer g g' →
  ∃ s', server_turn h idx (Z.of_nat (header_size + length req)) s =
      (Ret (Some (idx * kRecvBufferSize, Z.of_nat (header_size + length answer))), s') ∧
    s_globals s' = g' ∧
    read_header (idx * kRecvBufferSize) (s_send_buffer_pool_ s') =
      Some (MkRpcHeader id (Z.of_nat (length answer))) ∧
    read_at (idx * kRecvBufferSize + header_size) (length answer) (s_send_buffer_pool_ s') =
      Some answer.
Proof.
  intros Hd Hi Hrl Hsl Hg Hid Hreq Hans Hh Hp Ha.
  assert ((Datatypes.S idx) * kSendBufferSize ≤ depth * kSendBufferSize) as Hr1
    by (apply Nat.mul_le_mono_r; lia).
  assert ((Datatypes.S idx) * kRecvBufferSize ≤ depth * kRecvBufferSize) as Hs1
    by (apply Nat.mul_le_mono_r; lia).
  assert (kRecvBufferSize = kRecvMsgSize + header_size) as Hk by done.
  assert (kSendBufferSize = kSendMsgSize + header_size) as Hk2 by done.
  assert (Z.of_nat (depth * kRecvBufferSize) < 2 ^ 64)%Z as Hb1.
  { rewrite Nat2Z.inj_mul. change (Z.of_nat kRecvBufferSize) with 4112%Z. lia. }
  assert (Z.of_nat (depth * kSendBufferSize) < 2 ^ 64)%Z as Hb2.
  { rewrite Nat2Z.inj_mul. change (Z.of_nat kSendBufferSize) with 272%Z. lia. }
  assert (Z.of_nat kRecvMsgSize < 2 ^ 32)%Z as Hb3 by (vm_compute; done).
  destruct (read_at_is_some (idx * kRecvBufferSize + header_size) (kRecvBufferSize - header_size)
    (s_send_buffer_pool_ s)) as [span Hspan]; [lia|].
  pose proof (read_at_length _ _ _ _ Hspan) as [Hspl _].
  destruct (write_message_spec (idx * kRecvBufferSize)
    (MkRpcHeader id (u32 (Z.of_nat (length answer))))
    (answer ++ drop (length answer) span) (s_send_buffer_pool_ s))
    as (p & Hw & Hpl & Hwh & Hwp & _).
  { split; [done|apply u32_range]. }
  { rewrite length_app, length_drop. lia. }
  exists (MkRpcServer (recv_depth_ s) (s_recv_buffer_pool_ s) p g').
  rewrite u32_small in Hwh by lia. split; [|cbn; split; [done|]; split; [done|]].
  - unfold server_turn. rewrite bool_decide_eq_false_2 by lia. rewrite bind_mget.
    rewrite Hh. unfold deref. rewrite bind_mret. cbn [payload_len req_id].
    rewrite u64_small by lia. rewrite Z.min_l by lia.
    unfold cassert. cbv beta delta [mbind M_bind]. cbn beta.
    rewrite bool_decide_eq_true_2 by lia. rewrite orb_true_r.
    replace (Z.to_nat (Z.of_nat (header_size + length req)) - header_size) with (length req) by lia.
    rewrite Hp, Hspan. unfold mret, M_ret, on_globals, zoom. rewrite Hg, (Ha span Hspl).
    cbn [fst snd s_send_buffer_pool_ recv_depth_ s_recv_buffer_pool_ s_globals]. rewrite Hw.
    unfold set_send_slice, mmodify.
    cbn [fst snd s_send_buffer_pool_ recv_depth_ s_recv_buffer_pool_ s_globals].
    rewrite bool_decide_eq_true_2 by lia. rewrite orb_true_r.
    rewrite u64_small by lia. rewrite Z.min_l by lia. done.
  - pose proof (read_at_sub _ _ _ _ 0 (length answer) Hwp) as Hsub.
    rewrite Nat.add_0_r, drop_0, take_app_length in Hsub. apply Hsub.
    rewrite length_app. lia.
Qed.

Lemma deliver depth w i id (slot : RpcSlot) answer (c : RpcClient) :
  (Z.of_nat depth ≤ 2 ^ 32)%Z → max_inflight_ c = depth → i < depth →
  length answer ≤ kRecvMsgSize → length answer ≠ 0 →
  decode_slot_idx id = Z.of_nat i →
  slots_ c !! i = Some slot → expected_req_id slot = id →
  read_header (w * kRecvBufferSize) (recv_buffer_pool_ c) =
    Some (MkRpcHeader id (Z.of_nat (length answer))) →
  read_at (w * kRecvBufferSize + header_size) (length answer) (recv_buffer_pool_ c) =
    Some answer →
  let n := Nat.min (length answer) (length (user_resp_buffer slot)) in
  recv_worker_turn w (Z.of_nat (header_size + length answer)) c =
    (Ret (turn_resume i),
     MkRpcClient (max_inflight_ c) (send_buffer_pool_ c) (recv_buffer_pool_ c)
       (<[i := MkRpcSlot (waiter slot) (take n answer ++ drop n (user_resp_buffer slot)) n id]>
          (slots_ c)) (free_slots_ c) (global_seq_ c)).
Proof.
  intros Hd Hm Hi Hl Hnz Hdec Hs He Hh Hp n.
  pose proof (read_at_sub _ _ _ _ 0 n Hp ltac:(lia)) as Hsub.
  rewrite Nat.add_0_r, drop_0 in Hsub.
  unfold recv_worker_turn. rewrite bind_mget. unfold cassert. cbv beta delta [mbind M_bind].
  cbn beta. rewrite bool_decide_eq_true_2, orb_true_r by lia.
  rewrite bool_decide_eq_false_2 by lia. rewrite Hh. unfold deref. unfold mret, M_ret.
  cbn [req_id payload_len]. rewrite Hdec, Nat2Z.id, bool_decide_eq_false_2 by lia.
  rewrite Hs. rewrite bool_decide_eq_false_2 by (intros Hne; done).
  rewrite bool_decide_eq_true_2, orb_true_r by lia. rewrite Nat2Z.id. fold n. rewrite Hsub.
  unfold write_at. rewrite bool_decide_eq_true_2 by (rewrite length_take; lia).
  rewrite length_take. replace (Nat.min n (length answer)) with n by lia.
  unfold set_slots, mmodify. cbn. by rewrite He.
Qed.

Record server_ok (idx : nat) (g : S) (s : RpcServer S) : Prop := {
  so_depth : (Z.of_nat (recv_depth_ s) ≤ 2 ^ 32)%Z;
  so_idx : idx < recv_depth_ s;
  so_recv : length (s_recv_buffer_pool_ s) = recv_depth_ s * kSendBufferSize;
  so_send : length (s_send_buffer_pool_ s) = recv_depth_ s * kRecvBufferSize;
  so_globals : s_globals s = g }.

(** C15: The round trip: what [call] sends, received by any worker of the server, is handed
    to the handler as it was given; the reply, received by any worker of the client
    whatever happened in between, puts the answer, cut to the caller's buffer, in that
    buffer and no other, and [call] returns the number of bytes copied. *)
Theorem rpc_round_trip (depth : nat) (s : rpc_state) (pick i : nat) (req resp answer : bytes)
    (h : Handler S) (g g' : S) :
  (Z.of_nat depth ≤ 2 ^ 32)%Z → rtc rpc_step (rpc_init depth) s →
  free_slots_ (client s) !! pick = Some i →
  length req ≤ kSendMsgSize → length answer ≤ kRecvMsgSize → length answer ≠ 0 →
  answers h req answer g g' →
  ∃ id c' msg,
    call_begin pick req resp (client s) =
      (Ret (Some (i, id, (i * kSendBufferSize, Z.of_nat (length msg)))), c') ∧
    expects depth i id resp c' ∧
    read_at (i * kSendBufferSize) (length msg) (send_buffer_pool_ c') = Some msg ∧
    ∀ idx (srv : RpcServer S), server_ok idx g srv →
      read_at (idx * kSendBufferSize) (length msg) (s_recv_buffer_pool_ srv) = Some msg →
      ∃ srv' reply,
        server_turn h idx (Z.of_nat (length msg)) srv =
          (Ret (Some (idx * kRecvBufferSize, Z.of_nat (length reply))), srv') ∧
        s_globals srv' = g' ∧
        read_at (idx * kRecvBufferSize) (length reply) (s_send_buffer_pool_ srv') = Some reply ∧
        ∀ w c2, expects depth i id resp c2 →
          read_at (w * kRecvBufferSize) (length reply) (recv_buffer_pool_ c2) = Some reply →
          let n := Nat.min (length answer) (length resp) in
          ∃ c3, recv_worker_turn w (Z.of_nat (length reply)) c2 = (Ret (turn_resume i), c3) ∧
            expects depth i id (take n answer ++ drop n resp) c3 ∧
            (∀ j, j ≠ i → slots_ c3 !! j = slots_ c2 !! j) ∧
            (wait_waiter i c3).1 = (wait_waiter i c2).1 ∧
            (call_finish i c3).1 = Ret n.
Proof.
  intros Hd Hr Hf Hreq Hans Hnz Ha.
  destruct (rpc_request depth s pick i req resp Hd Hr Hf Hreq)
    as (id & c' & msg & Hc & He & Hi & Hw & Hdec & Hm & Hlm & Hh & Hp & _).
  exists id, c', msg. rewrite Hlm. split; [exact Hc|]. split; [exact He|].
  split; [exact Hm|]. intros idx srv [] Hmsg.
  destruct (serve (recv_depth_ srv) h idx id req answer g g' srv)
    as (srv' & Ht & Hg & Hrh & Hrp); try done.
  { by eapply placed_header; [exact Hm|unfold header_size; lia|exact Hh|]. }
  { eapply placed_payload; [exact Hm|exact Hp|exact Hmsg]. }
  destruct (read_at_is_some (idx * kRecvBufferSize) (header_size + length answer)
    (s_send_buffer_pool_ srv')) as [reply Hrr].
  { pose proof (read_at_length _ _ _ _ Hrp) as [_ ?]. lia. }
  pose proof (read_at_length _ _ _ _ Hrr) as [Hrl _].
  exists srv', reply. rewrite Hrl. split; [exact Ht|]. split; [done|]. split; [done|].
  intros w c2 (Hmax & slot & Hs & Hid & Hbuf) Hland n. subst resp.
  eexists. split.
  { eapply (deliver depth w i id slot answer c2); try done.
    - by eapply placed_header; [exact Hrr|unfold header_size; lia|exact Hrh|].
    - eapply placed_payload; [exact Hrr|exact Hrp|exact Hland]. }
  fold n. split; [|split; [|split]].
  - split; [done|]. eexists. split; [cbn; apply list_lookup_insert_eq|done].
    by eapply lookup_lt_Some.
  - intros j Hj. cbn. by rewrite list_lookup_insert_ne.
  - unfold wait_waiter. rewrite !bind_mget. cbn [slots_]. rewrite Hs.
    rewrite list_lookup_insert_eq by (by eapply lookup_lt_Some).
    unfold deref. rewrite !bind_mret. cbn [waiter]. by case_bool_decide.
  - unfold call_finish. rewrite bind_mget. cbn.
    rewrite list_lookup_insert_eq by (by eapply lookup_lt_Some). done.
Qed.
End echo.

(** ** The example's handler *)

Section disk.
Context {H : Host} {B : Build}.

Lemma disk_offset_pos cnt : (0 ≤ cnt < 2 ^ 31)%Z →
  disk_offset cnt = (cnt mod kBufferCnt * kBufferSize)%Z ∧
  (0 ≤ disk_offset cnt ≤ kBufferCnt * kBufferSize - kBufferSize)%Z.
Proof.
  intros Hc. unfold disk_offset, kBufferCnt, kBufferSize. rewrite Z.rem_mod_nonneg by lia.
  pose proof (Z.mod_pos_bound cnt 1024 ltac:(lia)). rewrite u64_small by lia. lia.
Qed.

Lemma disk_offset_neg cnt : (- 2 ^ 31 ≤ cnt < 0)%Z → Z.rem cnt kBufferCnt ≠ 0%Z →
  (2 ^ 63 ≤ disk_offset cnt)%Z.
Proof.
  unfold kBufferCnt. intros Hc Hz. unfold disk_offset, kBufferSize, kBufferCnt, u64, wrap.
  pose proof (Z.rem_bound_pos_neg cnt 1024 ltac:(lia) ltac:(lia)).
  rewrite <- (Z.mod_add _ 1) by lia. rewrite Z.mod_small; lia.
Qed.

(** The example's handler answers with the block of the disk its counter selects, as
    long as the counter is not negative; when the [int] counter has wrapped around it
    reads outside the pool unless the counter is a multiple of 1024. *)
Theorem disk_handler_blocks (g : disk_globals) (req : bytes) :
  Z.of_nat (length (global_disk_pool_ g)) = (kBufferCnt * kBufferSize)%Z →
  (- 2 ^ 31 ≤ g_disk_pool_cnt g < 2 ^ 31)%Z →
  let g' := MkDisk (global_disk_pool_ g) (i32 (g_disk_pool_cnt g + 1)) in
  ((0 ≤ g_disk_pool_cnt g)%Z → ∃ block,
     read_at (Z.to_nat (g_disk_pool_cnt g mod kBufferCnt * kBufferSize)) (Z.to_nat kBufferSize)
       (global_disk_pool_ g) = Some block ∧
     answers default_handler req block g g') ∧
  ((g_disk_pool_cnt g < 0)%Z → Z.rem (g_disk_pool_cnt g) kBufferCnt ≠ 0%Z →
     ∀ span, default_handler req span g = (Undefined, g')) ∧
  (g_disk_pool_cnt g = 2 ^ 31 - 1 → g_disk_pool_cnt g' = - 2 ^ 31)%Z.
Proof.
  intros Hp Hr g'. split; [|split].
  - intros Hc. destruct (disk_offset_pos (g_disk_pool_cnt g)) as [Ho Hb]; [lia|].
    rewrite <- Ho.
    destruct (read_at_is_some (Z.to_nat (disk_offset (g_disk_pool_cnt g))) (Z.to_nat kBufferSize)
      (global_disk_pool_ g)) as [block Hblock]; [unfold kBufferSize in *; lia|].
    exists block. split; [done|]. intros span Hspan.
    pose proof (read_at_length _ _ _ _ Hblock) as [Hbl _].
    assert (length block = length span) as Hsame
      by (rewrite Hbl, Hspan; unfold kBufferSize, kRecvBufferSize, kRecvMsgSize; lia).
    unfold default_handler. rewrite bind_mget, bind_mmodify. rewrite Hblock.
    unfold deref. rewrite bind_mret. unfold cassert. cbv beta delta [mbind M_bind]. cbn beta.
    rewrite bool_decide_eq_true_2, orb_true_r by lia. unfold write_at.
    rewrite bool_decide_eq_true_2 by lia. done.
  - intros Hc Hz span. pose proof (disk_offset_neg _ (conj (proj1 Hr) Hc) Hz) as Ho.
    unfold default_handler. rewrite bind_mget, bind_mmodify.
    unfold read_at at 1. rewrite bool_decide_eq_false_2; [done|].
    unfold kBufferCnt, kBufferSize in *. lia.
  - simpl. by intros ->.
Qed.

End disk.

(** ** The calls of several clients *)

Section mux.
Context {H : Host}.

Fixpoint mux_calls (calls : list (nat * bytes * bytes)) : M RpcClientMux (list nat) :=
  match calls with
  | [] => mret []
  | (pick, req_data, resp_buffer) :: calls =>
      x ← mux_call_begin pick req_data resp_buffer;
      l ← mux_calls calls;
      mret (x.1 :: l)
  end.

Context (n : nat).
Hypothesis Hdiv : (Z.of_nat n | 2 ^ 32)%Z.

Lemma u32_mod z : (0 < n) → (u32 z mod Z.of_nat n = z mod Z.of_nat n)%Z.
Proof using Hdiv.
  intros Hn. destruct Hdiv as [k Hk]. unfold u32, wrap. rewrite (Z.mod_eq z) by lia.
  replace (z - 2 ^ 32 * (z / 2 ^ 32))%Z with (z + (- (k * (z / 2 ^ 32))) * Z.of_nat n)%Z
    by (rewrite Hk; lia).
  by rewrite Z.mod_add by lia.
Qed.

(** A call takes its turn, and leaves the clients of the others as they are. *)
Lemma mux_call_ret pick req resp m i r m' :
  length (clients_ m) = n → mux_call_begin pick req resp m = (Ret (i, r), m') →
  i = Z.to_nat (selector_ m mod Z.of_nat n) ∧ selector_ m' = u32 (selector_ m + 1) ∧
  length (clients_ m') = n ∧ ∀ j, j ≠ i → clients_ m' !! j = clients_ m !! j.
Proof using.
  intros Hn (i1 & m1 & Hs & Hc)%bind_ret_inv. unfold mux_select in Hs. rewrite bind_mget in Hs.
  rewrite bind_mmodify in Hs. case_bool_decide; [done|]. injection Hs as <- <-.
  apply bind_ret_inv in Hc as (r1 & m2 & Ho & [= <- <- <-]). unfold on_client in Ho. simpl in Ho.
  rewrite Hn in *. destruct (clients_ m !! _) as [c|] eqn:Hc; [|done].
  destruct (call_begin pick req resp c) as [r2 c'].
  injection Ho as -> <-. simpl. rewrite length_insert. split_and!; try done.
  intros j Hj. by rewrite list_lookup_insert_ne.
Qed.

Lemma mux_calls_ret calls z m l m' :
  length (clients_ m) = n → (selector_ m mod Z.of_nat n = z mod Z.of_nat n)%Z →
  mux_calls calls m = (Ret l, m') →
  l = (λ k, Z.to_nat ((z + Z.of_nat k) mod Z.of_nat n)) <$> seq 0 (length calls).
Proof using Hdiv.
  revert z m l. induction calls as [|[[pick req] resp] calls IH]; intros z m l Hn Hz Hl.
  { by injection Hl as <- <-. }
  apply bind_ret_inv in Hl as ([i r] & m1 & Hc & Hl).
  apply bind_ret_inv in Hl as (l1 & m2 & Hl & [= <- <-]).
  assert (0 < n) as Hpos.
  { destruct (decide (n = 0)) as [H0|]; [|lia]. rewrite H0 in Hn. apply nil_length_inv in Hn.
    apply bind_ret_inv in Hc as (i1 & m3 & Hs & _). unfold mux_select in Hs.
    rewrite bind_mget, bind_mmodify, bool_decide_eq_true_2 in Hs by done. done. }
  destruct (mux_call_ret pick req resp m i r m1 Hn Hc) as (-> & Hs & Hn1 & _).
  rewrite (IH (z + 1)%Z m1 l1 Hn1); [..|exact Hl].
  - cbn [length seq]. rewrite <- (fmap_S_seq 0), fmap_cons, <- list_fmap_compose.
    f_equal; [by rewrite Z.add_0_r, Hz|]. apply list_fmap_ext. intros k j _. simpl.
    do 2 f_equal. lia.
  - rewrite Hs, u32_mod by done. rewrite <- Zplus_mod_idemp_l, Hz. by rewrite Zplus_mod_idemp_l.
Qed.

(** The calls of a multiplexer spread evenly: whatever the selector has come to, a wrap of
    its 32 bits included, as many calls in a row as there are clients go to each client
    once, when their number divides [2 ^ 32] (it is 4). *)
Theorem mux_spreads calls m l m' :
  length (clients_ m) = n → length calls = n → mux_calls calls m = (Ret l, m') →
  l ≡ₚ seq 0 n.
Proof using Hdiv.
  intros Hm Hlen Hl. rewrite (mux_calls_ret calls (selector_ m) m l m' Hm eq_refl Hl), Hlen.
  apply turns_Permutation.
Qed.
End mux.

(** ** Witnesses *)

Definition wit_host : Host := {| big_endian := false |}.
Definition wit_build : Build := {| NDEBUG := false |}.
Definition wit_call : RpcClient :=
  (@call_begin wit_host 0 [Byte.x41; Byte.x42] [Byte.x00] (RpcClient_ctor 2)).2.
Definition wit_rpc : rpc_state :=
  MkRpcState wit_call {[0 := encode_req_id 0 0]} [encode_req_id 0 0].

Lemma wit_rpc_reachable : rtc (@rpc_step wit_host wit_build) (rpc_init 2) wit_rpc.
Proof.
  eapply rtc_l; [|apply rtc_refl].
  apply (@step_begin wit_host wit_build (RpcClient_ctor 2) ∅ [] 0 [Byte.x41; Byte.x42] [Byte.x00]
    0 (encode_req_id 0 0) (0, 18%Z) wit_call).
  apply run_fst. vm_compute. reflexivity.
Defined.

Lemma rpc_slots_owned_witness :
  (Z.of_nat 2 ≤ 2 ^ 32)%Z ∧
  free_slots_ wit_call ++ elements (dom (calls wit_rpc)) ≡ₚ seq 0 2.
Proof.
  split; [lia|].
  apply (@rpc_slots_owned wit_host wit_build 2 wit_rpc ltac:(lia) wit_rpc_reachable).
Defined.

Lemma rpc_ids_distinct_witness : NoDup (issued wit_rpc).
Proof.
  apply (@rpc_ids_distinct wit_host wit_build 2 wit_rpc); [lia|apply wit_rpc_reachable|].
  simpl. lia.
Defined.

Lemma rpc_request_slice_witness :
  ∃ id c', @call_begin wit_host 0 [Byte.x43] [] wit_call = (Ret (Some (1, id, (1 * kSendBufferSize, 17%Z))), c') ∧
    read_at (1 * kSendBufferSize + header_size) 1 (send_buffer_pool_ c') = Some [Byte.x43].
Proof.
  destruct (@rpc_request_slice wit_host wit_build 2 wit_rpc 0 1 [Byte.x43] [])
    as (id & c' & Hc & _ & Hr & _); [lia|apply wit_rpc_reachable|vm_compute; reflexivity|
      unfold kSendMsgSize; simpl; lia|].
  exists id, c'. split; [exact Hc|exact Hr].
Defined.

Lemma rpc_oversized_request_witness :
  ∃ id c', @call_begin wit_host 0 (replicate 257 Byte.x43) [] (RpcClient_ctor 2) =
      (Ret (Some (0, id, (0, 273%Z))), c') ∧
    read_at kSendBufferSize 1 (send_buffer_pool_ c') = Some [Byte.x43].
Proof.
  destruct (@rpc_oversized_request wit_host wit_build 2 (rpc_init 2) 0 0 (replicate 257 Byte.x43) [])
    as (id & c' & Hc & Hr); [lia|apply rtc_refl|reflexivity|lia|
      rewrite length_replicate; unfold kSendBufferSize, kSendMsgSize; lia|].
  exists id, c'. split; [exact Hc|exact Hr].
Defined.

(** A handler that reverses the request. *)
Definition wit_handler : Handler unit := λ payload resp,
  mret (rev payload ++ drop (length (rev payload)) resp, length (rev payload)).

Lemma wit_handler_answers :
  answers wit_handler [Byte.x41; Byte.x42] [Byte.x42; Byte.x41] tt tt.
Proof. intros span _. reflexivity. Qed.

Lemma rpc_round_trip_witness :
  ∃ id c' msg,
    @call_begin wit_host 0 [Byte.x41; Byte.x42] [Byte.x00] (RpcClient_ctor 2) =
      (Ret (Some (0, id, (0, Z.of_nat (length msg)))), c') ∧
    read_at 0 (length msg) (send_buffer_pool_ c') = Some msg ∧
    ∀ srv, server_ok 0 tt srv → read_at 0 (length msg) (s_recv_buffer_pool_ srv) = Some msg →
    ∃ srv' (reply : bytes),
      @server_turn wit_host wit_build unit wit_handler 0 (Z.of_nat (length msg)) srv =
        (Ret (Some (0, Z.of_nat (length reply))), srv') ∧
      ∀ c2, expects 2 0 id [Byte.x00] c2 →
        read_at kRecvBufferSize (length reply) (recv_buffer_pool_ c2) = Some reply →
        ∃ c3, @recv_worker_turn wit_host wit_build 1 (Z.of_nat (length reply)) c2 =
            (Ret (turn_resume 0), c3) ∧ expects 2 0 id [Byte.x42] c3.
Proof.
  destruct (@rpc_round_trip wit_host wit_build unit 2 (rpc_init 2) 0 0 [Byte.x41; Byte.x42] [Byte.x00]
    [Byte.x42; Byte.x41] wit_handler tt tt)
    as (id & c' & msg & Hc & _ & Hm & Hs);
    [lia|apply rtc_refl|reflexivity|unfold kSendMsgSize; simpl; lia|
     unfold kRecvMsgSize; simpl; lia|done|apply wit_handler_answers|].
  exists id, c', msg. split; [exact Hc|]. split; [exact Hm|]. intros srv Hok Hland.
  destruct (Hs 0 srv Hok Hland) as (srv' & reply & Ht & _ & _ & Hc2). exists srv', reply.
  split; [exact Ht|]. intros c2 He Hr. destruct (Hc2 1 c2 He Hr) as (c3 & H3 & He3 & _).
  exists c3. split; [exact H3|exact He3].
Defined.

Definition wit_disk (cnt : Z) : disk_globals :=
  MkDisk (replicate (Z.to_nat (kBufferCnt * kBufferSize)) Byte.xee) cnt.

Lemma disk_handler_blocks_witness :
  (@default_handler wit_build [] [] (wit_disk (-1))) =
    (Undefined, MkDisk (global_disk_pool_ (wit_disk (-1))) (i32 (-1 + 1))).
Proof.
  apply (@disk_handler_blocks wit_build (wit_disk (-1)) []).
  - unfold wit_disk; cbn [global_disk_pool_]. rewrite length_replicate.
    rewrite Z2Nat.id; unfold kBufferCnt, kBufferSize; lia.
  - unfold wit_disk; cbn [g_disk_pool_cnt]. lia.
  - unfold wit_disk; cbn [g_disk_pool_cnt]. lia.
  - unfold wit_disk; cbn [g_disk_pool_cnt]. done.
Defined.
