(* ===== verification/Coro.v ===== *)
(** * Coroutines over a connected queue pair

    The programs of examples/ are pairs of coroutines, one on each side of a connection.  A
    coroutine is an inductive tree of the events it performs: those on its own memory and
    registrations, the text it prints, and the operations of [Operations] it awaits.  The
    adapters and the wire are not part of the repository: they are the class [Fabric],
    which executes the work requests the library posts, and [FabricLaws], which states what
    a reliable connection documents for requests that are valid.

    Both sides run asynchronously: a work request takes effect at any time after it is
    posted, the coroutine resumes at any time after that, and everything a coroutine does in
    between is a step of its own.  Since the programs are finite, the states a pair can
    reach are enumerated, with the answers a coroutine got so far in the place of its code;
    [closure] computes them, and what holds of all of them holds of every execution. *)

From S2P Require Import Prelude Verbs RefNic Errors Serdes Device Resources Mr Qp Operations.
From stdpp Require Import options.

(** ** Coroutines *)

Inductive event :=
| Alloc (bs : bytes)
| Load (addr len : Z)
| Store (addr : Z) (bs : bytes)
| RegMr (addr len : Z)
| DeregMr (m : ibv_mr)
| Print (what : string) (data : list Z)
| AwaitSend (op : send_op) (v : mr_view)
| AwaitRecv (v : mr_view).

Inductive answer :=
| AnsUnit
| AnsZ (z : Z)
| AnsBytes (bs : bytes)
| AnsMr (m : ibv_mr)
| AnsRecv (nbytes : Z) (imm : option Z)
| AnsThrow (e : exn)
| AnsUndefined.

(** [Stop] ends the coroutine by an exception that escapes, an [assert] or undefined
    behaviour. *)
Inductive coro (A : Type) :=
| Done (a : A)
| Stop (o : outcome Empty_set)
| Await (e : event) (k : answer → coro A).
Arguments Done {A} _.
Arguments Stop {A} _.
Arguments Await {A} _ _.

#[export] Instance coro_ret : MRet coro := @Done.
#[export] Instance coro_bind : MBind coro := λ A B f, fix bind c :=
  match c with
  | Done a => f a
  | Stop o => Stop o
  | Await e k => Await e (λ a, bind (k a))
  end.

(** A local object: [cleanup] is its destructor. *)
Fixpoint coro_raii {A} (c : coro A) (cleanup : coro unit) : coro A :=
  match c with
  | Done a => cleanup ;; Done a
  | Stop (Throw e) => cleanup ;; Stop (Throw e)
  | Stop o => Stop o
  | Await e k => Await e (λ a, coro_raii (k a) cleanup)
  end.

(** [try { c } catch (std::exception &e) { h }]. *)
Fixpoint coro_try {A} (c : coro A) (h : exn → coro A) : coro A :=
  match c with
  | Done a => Done a
  | Stop (Throw e) => h e
  | Stop o => Stop o
  | Await e k => Await e (λ a, coro_try (k a) h)
  end.

(** A [for] loop whose body does not look at what the previous rounds did. *)
Fixpoint coro_for (n : nat) (i : Z) (body : Z → coro unit) : coro unit :=
  match n with
  | O => Done tt
  | S n => body i ;; coro_for n (i + 1)%Z body
  end.

(** Events with the type of their answer. *)
Definition unexpected {A} (a : answer) : coro A :=
  match a with AnsThrow e => Stop (Throw e) | _ => Stop Undefined end.
Definition perform (e : event) : coro unit :=
  Await e (λ a, match a with AnsUnit => Done tt | a => unexpected a end).
Definition ask_Z (e : event) : coro Z :=
  Await e (λ a, match a with AnsZ z => Done z | a => unexpected a end).
Definition ask_bytes (e : event) : coro bytes :=
  Await e (λ a, match a with AnsBytes bs => Done bs | a => unexpected a end).
Definition ask_mr (e : event) : coro ibv_mr :=
  Await e (λ a, match a with AnsMr m => Done m | a => unexpected a end).
Definition ask_recv (e : event) : coro (Z * option Z) :=
  Await e (λ a, match a with AnsRecv n imm => Done (n, imm) | a => unexpected a end).

(** A computation without effects on the coroutine's state. *)
Definition lift {S A} (m : M S A) (s : S) : coro A :=
  match (m s).1 with
  | Ret a => Done a
  | Throw e => Stop (Throw e)
  | Terminate => Stop Terminate
  | Abort => Stop Abort
  | Undefined => Stop Undefined
  end.

Definition coro_assert {B : Build} (b : bool) : coro unit :=
  if b then Done tt else if NDEBUG then Done tt else Stop Abort.

(** [o.value()], and [*o], which is undefined without a value. *)
Definition value {A} (o : option A) : coro A :=
  match o with Some a => Done a | None => Stop (Throw BadOptionalAccess) end.
Definition star {A} (o : option A) : coro A :=
  match o with Some a => Done a | None => Stop Undefined end.

(** ** The library's operations, awaited

    A region registered here is owned by a [local_mr] of the coroutine's frame. *)

Definition owner (m : ibv_mr) : local_mr := LocalMr (Some m) None.

Definition coro_reg_mr (buffer : Z * Z) : coro ibv_mr := ask_mr (RegMr buffer.1 buffer.2).
Definition whole (m : ibv_mr) : coro mr_view := lift (mr_view_local (owner m) 0 size_max) tt.
Definition slice (m : ibv_mr) (offset len : Z) : coro mr_view :=
  lift (mr_view_local (owner m) offset len) tt.
(** The conversion of a [remote_mr] to a view. *)
Definition remote_whole (m : remote_mr) : mr_view := mr_view_remote m 0 size_max.

(** The address the source asserts not to be null; the devices are taken to support the
    atomic operations, which it asserts as well. *)
Definition op_remote_ok (op : send_op) : bool :=
  match op with
  | OpSend => true
  | OpWrite r | OpWriteImm r _ | OpRead r | OpFetchAdd r _ | OpCas r _ _ =>
      bool_decide (v_addr_ r ≠ 0%Z)
  end.

(** [co_await qp->op(..., local_mr)] and [co_await qp->recv(local_mr)]. *)
Definition await_view {B : Build} (op : send_op) (v : mr_view) : coro Z :=
  coro_assert (op_remote_ok op) ;; ask_Z (AwaitSend op v).
Definition await_op {B : Build} (op : send_op) (m : ibv_mr) : coro Z :=
  v ← whole m; await_view op v.
Definition await_recv (m : ibv_mr) : coro (Z * option Z) :=
  v ← whole m; ask_recv (AwaitRecv v).
(** [co_await qp->recv()]. *)
Definition await_recv_nothing : coro (Z * option Z) := ask_recv (AwaitRecv mr_view_null).

(** The overloads taking a span register it for the life of the awaitable. *)
Definition await_op_span {B : Build} (op : send_op) (buffer : Z * Z) : coro Z :=
  m ← coro_reg_mr buffer;
  coro_raii (await_op op m) (perform (DeregMr m)).
Definition await_recv_span (buffer : Z * Z) : coro (Z * option Z) :=
  m ← coro_reg_mr buffer;
  coro_raii (await_recv m) (perform (DeregMr m)).

(** A vector or array object holding [bs]: its [std::span]. *)
Definition buffer_of (bs : bytes) : coro (Z * Z) :=
  a ← ask_Z (Alloc bs); mret (a, Z.of_nat (length bs)).

(** A vector of [n] zero bytes. *)
Definition zeros (n : Z) : bytes := replicate (Z.to_nat n) Byte.x00.
Definition zero_buffer (n : Z) : coro (Z * Z) := a ← ask_Z (Alloc (zeros n)); mret (a, n).

Lemma length_zeros n : (0 ≤ n)%Z → Z.of_nat (length (zeros n)) = n.
Proof. intros Hn. unfold zeros. rewrite length_replicate. lia. Qed.

Definition text_bytes (s : string) : bytes := String.list_byte_of_string s.
Definition data_of (bs : bytes) : list Z := (λ b, Z.of_N (Byte.to_N b)) <$> bs.

(** [spdlog::info("... {}", ..., buffer)] of a string object after the values [before]. *)
Definition print_buffer (what : string) (before : list Z) (buffer : Z * Z) : coro unit :=
  bs ← ask_bytes (Load buffer.1 buffer.2);
  perform (Print what (before ++ data_of bs)).

(** [local_mr.serialize()] into a vector, and [remote_mr::deserialize] from memory. *)
Definition serialized_mr {H : Host} (m : ibv_mr) : coro (Z * Z) :=
  buffer_of (local_mr_serialize (owner m) []).2.
Definition deserialized_mr {H : Host} (addr : Z) : coro remote_mr :=
  bs ← ask_bytes (Load addr (Z.of_nat kSerializedSize_mr));
  lift remote_mr_deserialize bs.

(** ** Memory and registrations of one side *)

(** An object lies in a block of its own; the allocator returns multiples of [2 ^ 32]. *)
Definition block : Z := (2 ^ 32)%Z.

Record node := Node {
  n_heap : gmap Z bytes;
  n_regions : gmap Z (Z * Z);
  n_next : Z }.
Definition node0 : node := Node ∅ ∅ 1.

Definition heap_read (addr len : Z) (n : node) : option bytes :=
  bs ← n_heap n !! (addr / block)%Z;
  let off := (addr mod block)%Z in
  if bool_decide (0 ≤ len ∧ off + len ≤ Z.of_nat (length bs))%Z
  then Some (take (Z.to_nat len) (drop (Z.to_nat off) bs)) else None.

Definition heap_write (addr : Z) (new : bytes) (n : node) : option node :=
  bs ← n_heap n !! (addr / block)%Z;
  let off := Z.to_nat (addr mod block)%Z in
  if bool_decide (off + length new ≤ length bs)
  then Some (Node (<[ (addr / block)%Z := take off bs ++ new ++ drop (off + length new) bs ]>
                     (n_heap n)) (n_regions n) (n_next n))
  else None.

(** Reading and writing a whole object. *)
Lemma heap_read_whole k bs n :
  n_heap n !! k = Some bs → heap_read (k * block) (Z.of_nat (length bs)) n = Some bs.
Proof.
  intros Hk. unfold heap_read. rewrite Z.div_mul, Hk, Z.mod_mul by done. simpl.
  rewrite bool_decide_eq_true_2 by lia. by rewrite Nat2Z.id, firstn_all.
Qed.

Lemma heap_write_whole k bs new n :
  n_heap n !! k = Some bs → length new = length bs →
  heap_write (k * block) new n = Some (Node (<[k := new]> (n_heap n)) (n_regions n) (n_next n)).
Proof.
  intros Hk Hlen. unfold heap_write. rewrite Z.div_mul, Hk, Z.mod_mul by done. simpl.
  rewrite bool_decide_eq_true_2 by lia. rewrite Hlen, drop_all. by rewrite app_nil_r.
Qed.

(** The local events; an access outside every object is undefined. *)
Definition local_event (e : event) (n : node) : option (answer * node * list (string * list Z)) :=
  match e with
  | Alloc bs =>
      Some (AnsZ (n_next n * block),
            Node (<[ n_next n := bs ]> (n_heap n)) (n_regions n) (n_next n + 1), [])
  | Load a len =>
      Some (match heap_read a len n with Some bs => AnsBytes bs | None => AnsUndefined end, n, [])
  | Store a bs =>
      match heap_write a bs n with
      | Some n => Some (AnsUnit, n, [])
      | None => Some (AnsUndefined, n, [])
      end
  | RegMr a len =>
      let h := n_next n in
      Some (AnsMr (IbvMr h a len (2 * h) (2 * h + 1)),
            Node (n_heap n) (<[ h := (a, len) ]> (n_regions n)) (h + 1), [])
  | DeregMr m =>
      Some (AnsUnit, Node (n_heap n) (delete (mr_h m) (n_regions n)) (n_next n), [])
  | Print what data => Some (AnsUnit, n, [(what, data)])
  | AwaitSend _ _ | AwaitRecv _ => None
  end%Z.

(** ** The connection *)

(** What a fabric does with a posted work request, given the receive the other side has
    posted, if any, and the memories of the two sides: [None] while it cannot be executed;
    otherwise the sender's completion, what the receiver's completion says if the
    receive was consumed, and the memories. *)
Class Fabric := {
  fab_exec : ibv_send_wr → option ibv_recv_wr → node → node →
    option (ibv_wc * option (Z * option Z) * node * node) }.

Definition in_region (key addr len : Z) (remote : bool) (n : node) : bool :=
  match n_regions n !! (key / 2)%Z with
  | Some (a, l) =>
      bool_decide (key mod 2 = (if remote then 1 else 0) ∧ a ≤ addr ∧ addr + len ≤ a + l)%Z
  | None => false
  end.

Definition dma_read (key addr len : Z) (remote : bool) (n : node) : option bytes :=
  if in_region key addr len remote n then heap_read addr len n else None.
Definition dma_write (key addr : Z) (bs : bytes) (remote : bool) (n : node) : option node :=
  if in_region key addr (Z.of_nat (length bs)) remote n then heap_write addr bs n else None.

(** A message goes to the buffer of the receive, if it has one large enough. *)
Definition scatter (r : ibv_recv_wr) (bs : bytes) (n : node) : option node :=
  match rwr_sg_list r with
  | [sge] => if bool_decide (Z.of_nat (length bs) ≤ sge_length sge)%Z
             then dma_write (sge_lkey sge) (sge_addr sge) bs false n else None
  | _ => None
  end.

Definition needs_recv (o : ibv_wr_opcode) : bool :=
  match o with IBV_WR_SEND | IBV_WR_RDMA_WRITE_WITH_IMM => true | _ => false end.

Section reliable.
Context {H : Host}.

(** The documented effect of a valid signaled request on a reliable connection; atomics
    work on 8 aligned bytes in the byte order of the host. *)
Definition rc_exec (wr : ibv_send_wr) (r : option ibv_recv_wr) (a b : node)
    : option (ibv_wc * option (Z * option Z) * node * node) :=
  match swr_sg_list wr with
  | [sge] =>
      let len := sge_length sge in
      let ok := IbvWc (swr_wr_id wr) IBV_WC_SUCCESS len 0 0 in
      match swr_opcode wr, swr_wr wr, r with
      | IBV_WR_SEND, _, Some r =>
          bs ← dma_read (sge_lkey sge) (sge_addr sge) len false a;
          b ← scatter r bs b;
          Some (ok, Some (len, None), a, b)
      | IBV_WR_RDMA_WRITE, wr_rdma addr key, _ =>
          bs ← dma_read (sge_lkey sge) (sge_addr sge) len false a;
          b ← dma_write key addr bs true b;
          Some (ok, None, a, b)
      | IBV_WR_RDMA_WRITE_WITH_IMM, wr_rdma addr key, Some _ =>
          bs ← dma_read (sge_lkey sge) (sge_addr sge) len false a;
          b ← dma_write key addr bs true b;
          Some (ok, Some (len, Some (swr_imm_data wr)), a, b)
      | IBV_WR_RDMA_READ, wr_rdma addr key, _ =>
          bs ← dma_read key addr len true b;
          a ← dma_write (sge_lkey sge) (sge_addr sge) bs false a;
          Some (ok, None, a, b)
      | IBV_WR_ATOMIC_FETCH_AND_ADD, wr_atomic addr key add _, _ =>
          old ← dma_read key addr 8 true b;
          b ← dma_write key addr (object_bytes 8 (u64 (object_value old + add))) true b;
          a ← dma_write (sge_lkey sge) (sge_addr sge) old false a;
          if bool_decide (len = 8 ∧ addr mod 8 = 0)%Z then Some (ok, None, a, b) else None
      | IBV_WR_ATOMIC_CMP_AND_SWP, wr_atomic addr key compare swap, _ =>
          old ← dma_read key addr 8 true b;
          b ← dma_write key addr
                (if bool_decide (object_value old = compare) then object_bytes 8 swap else old)
                true b;
          a ← dma_write (sge_lkey sge) (sge_addr sge) old false a;
          if bool_decide (len = 8 ∧ addr mod 8 = 0)%Z then Some (ok, None, a, b) else None
      | _, _, _ => None
      end
  | _ => None
  end.

Class FabricLaws (F : Fabric) := {
  fab_exec_valid wr r a b x : rc_exec wr r a b = Some x → fab_exec wr r a b = Some x;
  fab_exec_wait wr a b : needs_recv (swr_opcode wr) = true → fab_exec wr None a b = None }.

(** The connection that does nothing but what is documented. *)
Definition RcFabric : Fabric := {| fab_exec := rc_exec |}.
#[export] Instance rc_fabric_laws : FabricLaws RcFabric.
Proof.
  split; [done|]. intros wr a b Hn. simpl. unfold rc_exec.
  destruct (swr_sg_list wr) as [|? []]; try done. by destruct (swr_opcode wr), (swr_wr wr).
Qed.
End reliable.

(** ** The two sides *)

Record side := Side {
  s_code : coro unit;
  s_pending : option answer;
  s_node : node;
  s_out : list (string * list Z) }.

Section pair.
Context {V : Verbs} {F : Fabric}.

(** What the awaiting coroutine gets for a completion. *)
Definition send_answer (op : send_op) (v : mr_view) (wc : ibv_wc) : answer :=
  match (check_wc_status (wc_status wc) "failed to send" tt).1 with
  | Ret _ => AnsZ (expected_result op v wc)
  | Throw e => AnsThrow e
  | _ => AnsUndefined
  end.

Definition local_step (x : side) : option side :=
  match s_pending x, s_code x with
  | None, Await e k =>
      '(a, n, o) ← local_event e (s_node x);
      Some (Side (k a) None n (s_out x ++ o))
  | _, _ => None
  end.

(** The completion is polled: the coroutine resumes. *)
Definition wake_step (x : side) : option side :=
  match s_pending x, s_code x with
  | Some a, Await _ k => Some (Side (k a) None (s_node x) (s_out x))
  | _, _ => None
  end.

Definition posted_recv (y : side) : option ibv_recv_wr :=
  match s_pending y, s_code y with
  | None, Await (AwaitRecv w) _ => Some (expected_recv_wr w 0)
  | _, _ => None
  end.

(** The request [x] has posted takes effect. *)
Definition comm_step (x y : side) : option (side * side) :=
  match s_pending x, s_code x with
  | None, Await (AwaitSend op v) _ =>
      '(wc, rcv, nx, ny) ←
        fab_exec (expected_wr op v 0) (posted_recv y) (s_node x) (s_node y);
      Some (Side (s_code x) (Some (send_answer op v wc)) nx (s_out x),
            Side (s_code y)
              (match rcv with Some (n, imm) => Some (AnsRecv n imm) | None => s_pending y end)
              ny (s_out y))
  | _, _ => None
  end.

Definition swap {A B} (p : A * B) : B * A := (p.2, p.1).

Definition succs (p : side * side) : list (side * side) :=
  omap id
    [(λ x, (x, p.2)) <$> local_step p.1; (λ y, (p.1, y)) <$> local_step p.2;
     (λ x, (x, p.2)) <$> wake_step p.1; (λ y, (p.1, y)) <$> wake_step p.2;
     comm_step p.1 p.2; swap <$> comm_step p.2 p.1].

Definition pair_step (p q : side * side) : Prop := q ∈ succs p.
End pair.

Definition side_init (c : coro unit) : side := Side c None node0 [].
Definition finished (x : side) : Prop := s_code x = Done tt ∧ s_pending x = None.

(** ** Properties of all executions

    [inevitably Q p]: every execution from [p] comes to a state where [Q] holds, whatever is
    scheduled. *)

Section inevitably.
Context {V : Verbs} {F : Fabric}.

Inductive inevitably (Q : side * side → Prop) (p : side * side) : Prop :=
| inevitably_now : Q p → inevitably Q p
| inevitably_later :
    (∃ q, pair_step p q) → (∀ q, pair_step p q → inevitably Q q) → inevitably Q p.

Lemma inevitably_bind (P Q : side * side → Prop) p :
  inevitably P p → (∀ q, P q → inevitably Q q) → inevitably Q p.
Proof. intros Hp HQ. induction Hp as [p ?|p Hex _ IH]; [auto|]. by apply inevitably_later. Qed.

Lemma inevitably_impl (P Q : side * side → Prop) p :
  inevitably P p → (∀ q, P q → Q q) → inevitably Q p.
Proof. intros Hp HQ. apply (inevitably_bind P); [done|]. auto using inevitably_now. Qed.

(** The pair's steps, for the states in the form in which they are met. *)
Lemma pair_step_iff x y q :
  pair_step (x, y) q ↔
    (∃ x', local_step x = Some x' ∧ q = (x', y)) ∨ (∃ y', local_step y = Some y' ∧ q = (x, y')) ∨
    (∃ x', wake_step x = Some x' ∧ q = (x', y)) ∨ (∃ y', wake_step y = Some y' ∧ q = (x, y')) ∨
    comm_step x y = Some q ∨ (∃ r, comm_step y x = Some r ∧ q = swap r).
Proof.
  unfold pair_step, succs. rewrite list_elem_of_omap. cbn [fst snd]. split.
  - intros (o & Ho & Hq). unfold id in Hq. subst o.
    rewrite !elem_of_cons, elem_of_nil in Ho.
    destruct Ho as [Ho|[Ho|[Ho|[Ho|[Ho|[Ho|[]]]]]]]; symmetry in Ho;
      try (apply fmap_Some in Ho as (z & ? & ->)); eauto 10.
  - intros Hq. exists (Some q). split; [|done]. rewrite !elem_of_cons.
    destruct Hq as [(z & Hz & ->)|[(z & Hz & ->)|[(z & Hz & ->)|[(z & Hz & ->)|[Hq|(z & Hz & ->)]]]]];
      rewrite ?Hz, ?Hq; simpl; auto 10.
Qed.

Lemma finished_stuck x y q : finished x → finished y → ¬ pair_step (x, y) q.
Proof.
  destruct x as [cx wx nx ox], y as [cy wy ny oy]. unfold finished. simpl.
  intros [-> ->] [-> ->] Hs. by apply not_elem_of_nil in Hs.
Qed.

(** No execution from [p] goes on for ever, and where one stops, [Q] holds. *)
Definition terminates_in (Q : side * side → Prop) (p : side * side) : Prop :=
  Acc (flip pair_step) p ∧ ∀ q, rtc pair_step p q → (∀ r, ¬ pair_step q r) → Q q.

(** Where [Q] holds only when nothing is left to do: the pair terminates, with [Q]. *)
Lemma inevitably_terminates Q p :
  inevitably Q p → (∀ p q, Q p → ¬ pair_step p q) → terminates_in Q p.
Proof.
  unfold terminates_in. intros Hp Hstuck. induction Hp as [p HQ|p Hex _ IH].
  - split.
    + constructor. intros q Hq. by destruct (Hstuck p q HQ).
    + intros q Hr _. inversion Hr as [|? r ? Hs]; subst; [done|]. by destruct (Hstuck p r HQ).
  - split.
    + constructor. intros q Hq. by apply IH.
    + intros q Hr Hq. inversion Hr as [|? r ? Hs]; subst.
      * destruct Hex as [r Hs]. by destruct (Hq r).
      * by apply (IH r).
Qed.
End inevitably.

(** ** Enumerating the states of a pair

    A coroutine that has got the answers [h] stands at [replay c h]. *)

#[export] Instance ibv_mr_eq_dec : EqDecision ibv_mr.
Proof. solve_decision. Defined.
#[export] Instance answer_eq_dec : EqDecision answer.
Proof. solve_decision. Defined.
#[export] Instance node_eq_dec : EqDecision node.
Proof. solve_decision. Defined.

Fixpoint replay {A} (c : coro A) (h : list answer) : coro A :=
  match h, c with
  | a :: h, Await e k => replay (k a) h
  | _, c => c
  end.

Record traced := Traced {
  t_hist : list answer;
  t_wait : option answer;
  t_node : node;
  t_text : list (string * list Z) }.

(** Compared by their histories first. *)
#[export] Instance traced_eq_dec : EqDecision traced.
Proof.
  intros [h w n o] [h' w' n' o'].
  destruct (decide (h = h')); [|right; congruence].
  destruct (decide (w = w')); [|right; congruence].
  destruct (decide (o = o')); [|right; congruence].
  destruct (decide (n = n')); [left|right]; congruence.
Defined.

(** All that [next] leads to from [todo], [seen] being done. *)
Section closure.
Context {A : Type} `{EqDecision A} (next : A → option (list A)).

Fixpoint closure (fuel : nat) (todo seen : list A) : option (list A) :=
  match todo with
  | [] => Some seen
  | p :: todo =>
      match fuel with
      | O => None
      | S fuel =>
          if bool_decide (p ∈ seen) then closure fuel todo seen
          else l ← next p; closure fuel (l ++ todo) (p :: seen)
      end
  end.

Lemma closure_closed fuel todo seen l :
  closure fuel todo seen = Some l →
  (∀ p, p ∈ seen → ∃ l', next p = Some l' ∧ ∀ q, q ∈ l' → q ∈ seen ∨ q ∈ todo) →
  (∀ p, p ∈ seen ∨ p ∈ todo → p ∈ l) ∧
  (∀ p, p ∈ l → ∃ l', next p = Some l' ∧ ∀ q, q ∈ l' → q ∈ l).
Proof.
  revert todo seen. induction fuel as [|fuel IH]; intros [|p todo] seen; simpl; try done.
  1, 2: intros [= <-] Hs; split; [intros p [?|?%not_elem_of_nil]; done|];
    intros p Hp; destruct (Hs p Hp) as (l' & Hl & Hq); exists l'; split; [done|];
    intros q [?|?%not_elem_of_nil]%Hq; done.
  case_bool_decide as Hin.
  - intros Hc Hs. destruct (IH _ _ Hc) as [Hsub Hcl].
    { intros q Hq. destruct (Hs q Hq) as (l' & Hl & Hr). exists l'. split; [done|].
      intros q' [?|[->|?]%elem_of_cons]%Hr; auto. }
    split; [|done]. intros q [?|[->|?]%elem_of_cons]; auto.
  - destruct (next p) as [l'|] eqn:Hl; [|done]. simpl. intros Hc Hs.
    destruct (IH _ _ Hc) as [Hsub Hcl].
    { intros q [->|Hq]%elem_of_cons.
      - exists l'. split; [done|]. intros q' Hq'. right. apply elem_of_app. auto.
      - destruct (Hs q Hq) as (l2 & Hl2 & Hr). exists l2. split; [done|].
        intros q' [?|[->|?]%elem_of_cons]%Hr; rewrite elem_of_app, elem_of_cons; auto. }
    split; [|done]. intros q [?|[->|?]%elem_of_cons]; apply Hsub;
      rewrite elem_of_app, elem_of_cons; auto.
Qed.
End closure.

Lemma list_bounded {A} (f : A → nat) (l : list A) : ∃ b, ∀ x, x ∈ l → f x ≤ b.
Proof.
  induction l as [|y l [b IH]]; [exists 0; intros x Hx; by apply not_elem_of_nil in Hx|].
  exists (Nat.max b (f y)). intros x [->|Hx]%elem_of_cons; [lia|]. specialize (IH x Hx). lia.
Qed.

(** A state of one side with the code it stands at. *)
Notation place := (traced * coro unit)%type.

Definition at_place (p : place) : side := Side p.2 (t_wait p.1) (t_node p.1) (t_text p.1).
Definition place_of (c : coro unit) (t : traced) : place := (t, replay c (t_hist t)).
Definition traced_init : traced := Traced [] None node0 [].

(** The step a side does by itself: at most one. *)
Definition own_step (p : place) : option place :=
  let t := p.1 in
  match t_wait t, p.2 with
  | Some a, Await _ k => Some (Traced (t_hist t ++ [a]) None (t_node t) (t_text t), k a)
  | None, Await e k =>
      '(a, n, o) ← local_event e (t_node t);
      Some (Traced (t_hist t ++ [a]) None n (t_text t ++ o), k a)
  | _, _ => None
  end.

(** What it goes through by itself, and where it then stands. *)
Fixpoint run (fuel : nat) (p : place) : option (list place * place) :=
  match fuel with
  | O => None
  | S fuel =>
      match own_step p with
      | Some p' => '(l, z) ← run fuel p'; Some (p :: l, z)
      | None => Some ([], p)
      end
  end.

(** More steps than a coroutine of examples/ does between two communications. *)
Definition run_fuel : nat := 1000.

Section explore.
Context {H : Host}.

(** [None] when the request of [x] is not one whose effect is documented; [Some None] when
    there is none or it waits for a receive. *)
Definition place_comm (x y : place) : option (option (traced * traced)) :=
  match t_wait x.1, x.2 with
  | None, Await (AwaitSend op v) _ =>
      let wr := expected_wr op v 0 in
      let r := posted_recv (at_place y) in
      match rc_exec wr r (t_node x.1) (t_node y.1) with
      | Some (wc, rcv, nx, ny) =>
          if bool_decide (wc_status wc = IBV_WC_SUCCESS)
          then Some (Some
                 (Traced (t_hist x.1) (Some (AnsZ (expected_result op v wc))) nx (t_text x.1),
                  Traced (t_hist y.1)
                    (match rcv with Some (n, imm) => Some (AnsRecv n imm) | None => t_wait y.1 end)
                    ny (t_text y.1)))
          else None
      | None => match r with
                | None => if needs_recv (swr_opcode wr) then Some None else None
                | Some _ => None
                end
      end
  | _, _ => Some None
  end.

(** The pairs of states that the sides go through by themselves from a pair form a grid;
    what is communicated from its last row or column leads to other grids. *)
Definition grid_next (check : place * place → bool) (ca cb : coro unit) (s : traced * traced)
    : option (list (traced * traced)) :=
  match run run_fuel (place_of ca s.1), run run_fuel (place_of cb s.2) with
  | Some (xs, x), Some (ys, y) =>
      match mapM (place_comm x) ys, mapM (place_comm y) xs with
      | Some ab, Some ba =>
          let early := omap id ab ++ (swap <$> omap id ba) in
          if check (x, y) then Some early
          else
            match place_comm x y, place_comm y x with
            | Some e, Some f =>
                match omap id [e; swap <$> f] with
                | [] => None
                | l => Some (l ++ early)
                end
            | _, _ => None
            end
      | _, _ => None
      end
  | _, _ => None
  end.

(** Every execution comes to the end of a grid that passes [check]. *)
Definition explore (fuel : nat) (check : place * place → bool) (ca cb : coro unit) : bool :=
  bool_decide (is_Some (closure (grid_next check ca cb) fuel [(traced_init, traced_init)] [])).
End explore.

(** ** The enumeration is sound *)

Definition valid (c : coro unit) (p : place) : Prop := p.2 = replay c (t_hist p.1).

Lemma replay_snoc {A} (c : coro A) h a e k :
  replay c h = Await e k → replay c (h ++ [a]) = k a.
Proof.
  revert c. induction h as [|a' h IH]; intros []; simpl; try done.
  - intros [= -> ->]. by destruct (k a).
  - apply IH.
Qed.

(** Every step makes a history longer or an answer available. *)
Definition weight (t : traced) : nat :=
  2 * length (t_hist t) + if t_wait t then 1 else 0.

Lemma own_step_spec c p p' :
  own_step p = Some p' →
  valid c p →
  valid c p' ∧ weight p.1 < weight p'.1 ∧
  (local_step (at_place p) = Some (at_place p') ∨ wake_step (at_place p) = Some (at_place p')).
Proof.
  destruct p as [[h w n o] code]. unfold own_step, valid, local_step, wake_step, weight.
  simpl. intros Hs Hv. symmetry in Hv.
  destruct w as [a|], code as [| |e k]; try done.
  - injection Hs as <-. simpl. rewrite (replay_snoc _ _ _ _ _ Hv), length_app. simpl.
    split_and!; [done|lia|by right].
  - destruct (local_event e n) as [[[a n'] o']|] eqn:He; [|done]. injection Hs as <-. simpl.
    rewrite (replay_snoc _ _ _ _ _ Hv), length_app. simpl. split_and!; [done|lia|by left].
Qed.

Lemma own_step_complete p x :
  local_step (at_place p) = Some x ∨ wake_step (at_place p) = Some x →
  ∃ p', own_step p = Some p' ∧ x = at_place p'.
Proof.
  destruct p as [[h w n o] code]. unfold own_step, local_step, wake_step. simpl.
  destruct w as [a|], code as [| |e k]; intros [Hs|Hs]; try done; [by simplify_eq; eauto|].
  destruct (local_event e n) as [[[a n'] o']|]; [|done]. simplify_eq/=. eauto.
Qed.

Lemma run_spec c fuel p l z :
  run fuel p = Some (l, z) → valid c p →
  p ∈ l ++ [z] ∧ own_step z = None ∧ valid c z ∧
  ∀ q, q ∈ l → valid c q ∧ ∃ q', own_step q = Some q' ∧ q' ∈ l ++ [z].
Proof.
  revert p l. induction fuel as [|fuel IH]; intros p l; [done|]. simpl.
  destruct (own_step p) as [p'|] eqn:Hp; [|intros [= <- <-] Hv].
  - destruct (run fuel p') as [[l' z']|] eqn:Hr; [|done]. intros [= <- <-] Hv.
    destruct (own_step_spec _ _ _ Hp Hv) as (Hv' & _ & _).
    destruct (IH _ _ Hr Hv') as (Hin & Hz & Hvz & Hl).
    split_and!; [by left|done|done|]. intros q [->|Hq]%elem_of_cons.
    + split; [done|]. exists p'. split; [done|]. by right.
    + destruct (Hl q Hq) as (? & q' & ? & ?). split; [done|]. exists q'. split; [done|]. by right.
  - split_and!; [set_solver|done|done|]. intros q []%not_elem_of_nil.
Qed.

Section sound.
Context {H : Host} {V : Verbs} {F : Fabric} {L : FabricLaws F}.

Notation at_pair x y := (at_place x, at_place y).

Lemma own_no_comm p p' y : own_step p = Some p' → comm_step (at_place p) y = None.
Proof.
  destruct p as [[h w n o] code]. unfold own_step, comm_step. simpl.
  destruct w; [done|]. by destruct code as [| |[] k].
Qed.

Lemma place_comm_sound cx cy x y r :
  valid cx x → valid cy y → place_comm x y = Some r →
  comm_step (at_place x) (at_place y) =
    (λ p, (at_place (place_of cx p.1), at_place (place_of cy p.2))) <$> r ∧
  ∀ p, r = Some p → weight x.1 < weight p.1 ∧ weight y.1 ≤ weight p.2.
Proof using L.
  destruct x as [[hx wx nx ox] code], y as [[hy wy ny oy] code'].
  unfold valid, place_comm, comm_step, at_place, place_of, weight. simpl. intros -> ->.
  destruct wx; [by intros [= <-]|].
  destruct (replay cx hx) as [| |[] k] eqn:Hr; try (by intros [= <-]).
  destruct (rc_exec _ _ _ _) as [[[[wc rcv] nx'] ny']|] eqn:Hx.
  - case_bool_decide as Hst; [|done]. intros [= <-].
    rewrite (fab_exec_valid _ _ _ _ _ Hx). simpl. rewrite Hr.
    unfold send_answer. rewrite Hst, check_wc_status_ok. split; [done|].
    intros ? [= <-]. simpl. destruct rcv as [[]|], wy; simpl; lia.
  - destruct (posted_recv _) eqn:Hp; [done|]. destruct (needs_recv _) eqn:Hn; [|done].
    intros [= <-]. by rewrite (fab_exec_wait _ _ _ Hn).
Qed.

Lemma mapM_omap {A B} (f : A → option (option B)) xs l x :
  mapM (M:=option) f xs = Some l → x ∈ xs →
  ∃ r, f x = Some r ∧ ∀ p : B, r = Some p → p ∈ omap id (l : list (option B)).
Proof.
  intros Hl%mapM_Some Hx. apply list_elem_of_lookup in Hx as [i Hx].
  destruct (Forall2_lookup_l _ _ _ _ _ Hl Hx) as (r & Hr & Hf). exists r. split; [done|].
  intros p ->. apply list_elem_of_omap. exists (Some p). split; [|done].
  by eapply list_elem_of_lookup_2.
Qed.

Lemma elem_of_swap {A B} (p : A * B) (l : list (A * B)) : p ∈ l → swap p ∈ swap <$> l.
Proof. intros Hp. apply list_elem_of_fmap. eauto. Qed.

Context (check : place * place → bool) (ca cb : coro unit).

Lemma grid_next_spec s l xs x ys y :
  grid_next check ca cb s = Some l →
  run run_fuel (place_of ca s.1) = Some (xs, x) → run run_fuel (place_of cb s.2) = Some (ys, y) →
  (∀ y', y' ∈ ys → ∃ r, place_comm x y' = Some r ∧ ∀ p, r = Some p → p ∈ l) ∧
  (∀ x', x' ∈ xs → ∃ r, place_comm y x' = Some r ∧ ∀ p, r = Some p → swap p ∈ l) ∧
  (check (x, y) = false →
   ∃ e f, place_comm x y = Some e ∧ place_comm y x = Some f ∧
     (∀ p, e = Some p → p ∈ l) ∧ (∀ p, f = Some p → swap p ∈ l) ∧ (is_Some e ∨ is_Some f)).
Proof.
  unfold grid_next. intros Hl Hx Hy. rewrite Hx, Hy in Hl. clear Hx Hy.
  destruct (mapM _ ys) as [ab|] eqn:Hab; [|done].
  destruct (mapM _ xs) as [ba|] eqn:Hba; [|done].
  assert (∃ l1, l = l1 ++ omap id ab ++ (swap <$> omap id ba) ∧
    (check (x, y) = false → ∃ e f, place_comm x y = Some e ∧ place_comm y x = Some f ∧
      l1 = omap id [e; swap <$> f] ∧ l1 ≠ [])) as (l1 & -> & Hends).
  { destruct (check (x, y)); [exists []; split; [by injection Hl|done]|].
    destruct (place_comm x y) as [e|]; [|done]. destruct (place_comm y x) as [f|]; [|done].
    exists (omap id [e; swap <$> f]).
    destruct (omap id [e; _]) eqn:Hef; [done|]. injection Hl as <-.
    split; [done|]. intros _. by exists e, f. }
  split_and!.
  - intros y' Hy'. destruct (mapM_omap _ _ _ _ Hab Hy') as (r & Hr & Hp). exists r.
    split; [done|]. intros p Hrp. rewrite !elem_of_app. auto.
  - intros x' Hx'. destruct (mapM_omap _ _ _ _ Hba Hx') as (r & Hr & Hp). exists r.
    split; [done|]. intros p Hrp. rewrite !elem_of_app. auto using elem_of_swap.
  - intros Hc. destruct (Hends Hc) as (e & f & He & Hf & -> & Hne). exists e, f.
    split_and!; [done|done|..].
    + intros p ->. apply elem_of_app. left. destruct f; by left.
    + intros p ->. apply elem_of_app. left. destruct e; simpl; [right|]; by left.
    + destruct e; [eauto|]. destruct f; [eauto|]. done.
Qed.

(** The states of the grids of [S]. *)
Definition covered (S : list (traced * traced)) (p : place * place) : Prop :=
  ∃ s xs x ys y, s ∈ S ∧
    run run_fuel (place_of ca s.1) = Some (xs, x) ∧ run run_fuel (place_of cb s.2) = Some (ys, y) ∧
    p.1 ∈ xs ++ [x] ∧ p.2 ∈ ys ++ [y].

Definition weights (p : place * place) : nat := weight p.1.1 + weight p.2.1.

Definition step_covered S (p : place * place) (q : side * side) : Prop :=
  ∃ p', q = at_pair p'.1 p'.2 ∧ covered S p' ∧ weights p < weights p'.

Section closed.
Context (S : list (traced * traced)).
Hypothesis HS : ∀ s, s ∈ S → ∃ l, grid_next check ca cb s = Some l ∧ ∀ q, q ∈ l → q ∈ S.

Lemma start_covered s : s ∈ S → covered S (place_of ca s.1, place_of cb s.2).
Proof using HS.
  intros Hs. destruct (HS s Hs) as (l & Hl & _). unfold grid_next in Hl.
  destruct (run run_fuel (place_of ca s.1)) as [[xs x]|] eqn:Hx; [|done].
  destruct (run run_fuel (place_of cb s.2)) as [[ys y]|] eqn:Hy; [|done].
  exists s, xs, x, ys, y. split_and!; try done.
  - by destruct (run_spec _ _ _ _ _ Hx eq_refl).
  - by destruct (run_spec _ _ _ _ _ Hy eq_refl).
Qed.

(** What a communication leads to. *)
Lemma comm_covered x y r :
  valid ca x → valid cb y → place_comm x y = Some r → (∀ p, r = Some p → p ∈ S) →
  ∀ q, comm_step (at_place x) (at_place y) = Some q → step_covered S (x, y) q.
Proof using HS L.
  intros Hx Hy Hr Hin q Hq. destruct (place_comm_sound ca cb _ _ _ Hx Hy Hr) as [Hc Hw].
  rewrite Hc in Hq. destruct r as [p|]; [|done]. simplify_eq/=.
  exists (place_of ca p.1, place_of cb p.2). split; [done|].
  split; [apply start_covered; auto|].
  destruct (Hw p eq_refl). unfold weights. simpl. lia.
Qed.

Lemma comm_covered_swap x y r :
  valid ca x → valid cb y → place_comm y x = Some r → (∀ p, r = Some p → swap p ∈ S) →
  ∀ q, comm_step (at_place y) (at_place x) = Some q → step_covered S (x, y) (swap q).
Proof using HS L.
  intros Hx Hy Hr Hin q Hq. destruct (place_comm_sound cb ca _ _ _ Hy Hx Hr) as [Hc Hw].
  rewrite Hc in Hq. destruct r as [p|]; [|done]. simplify_eq/=.
  exists (place_of ca p.2, place_of cb p.1). split; [done|].
  split; [apply (start_covered (swap p)); auto|].
  destruct (Hw p eq_refl). unfold weights. simpl. lia.
Qed.

(** In a grid, a state of a side has a step of its own or is the last one. *)
Lemma run_cases c t l z x :
  run run_fuel (place_of c t) = Some (l, z) → x ∈ l ++ [z] →
  valid c x ∧ own_step z = None ∧
  (x = z ∨ x ∈ l ∧ ∃ x', own_step x = Some x' ∧ x' ∈ l ++ [z] ∧ weight x.1 < weight x'.1).
Proof.
  intros Hr Hx. destruct (run_spec _ _ _ _ _ Hr eq_refl) as (_ & Hz & Hvz & Hl).
  apply elem_of_app in Hx as [Hx| ->%list_elem_of_singleton]; [|auto].
  destruct (Hl x Hx) as (Hv & x' & Ho & Hx'). split_and!; [done|done|]. right.
  split; [done|]. exists x'. split_and!; [done|done|]. by apply (own_step_spec _ _ _ Ho Hv).
Qed.

(** A state of a grid that does not pass [check] has a step, and all lead to grids. *)
Lemma covered_step p :
  covered S p → check p = false →
  (∃ q, pair_step (at_pair p.1 p.2) q) ∧
  ∀ q, pair_step (at_pair p.1 p.2) q → step_covered S p q.
Proof using HS L.
  destruct p as [a b]. intros (s & xs & x & ys & y & Hs & Hrx & Hry & Ha & Hb) Hcheck. simpl in *.
  destruct (HS s Hs) as (l & Hl & Hsub).
  destruct (grid_next_spec _ _ _ _ _ _ Hl Hrx Hry) as (Hxy & Hyx & Hend).
  destruct (run_cases _ _ _ _ _ Hrx Ha) as (Hva & Hx & Hca).
  destruct (run_cases _ _ _ _ _ Hry Hb) as (Hvb & Hy & Hcb).
  assert (∀ x', own_step a = Some x' → step_covered S (a, b) (at_pair x' b)) as Hown_a.
  { intros x' Ho. destruct Hca as [->|(_ & x2 & Ho2 & ? & ?)]; [congruence|].
    assert (x2 = x') as -> by congruence. exists (x', b). split; [done|].
    split; [|unfold weights; simpl; lia]. exists s, xs, x, ys, y. by split_and!. }
  assert (∀ y', own_step b = Some y' → step_covered S (a, b) (at_pair a y')) as Hown_b.
  { intros y' Ho. destruct Hcb as [->|(_ & y2 & Ho2 & ? & ?)]; [congruence|].
    assert (y2 = y') as -> by congruence. exists (a, y'). split; [done|].
    split; [|unfold weights; simpl; lia]. exists s, xs, x, ys, y. by split_and!. }
  split.
  - destruct Hca as [->|(_ & x' & Ho & _)].
    2:{ destruct (own_step_spec _ _ _ Ho Hva) as (_ & _ & Hst).
        exists (at_pair x' b). apply pair_step_iff. destruct Hst; eauto 10. }
    destruct Hcb as [->|(_ & y' & Ho & _)].
    2:{ destruct (own_step_spec _ _ _ Ho Hvb) as (_ & _ & Hst).
        exists (at_pair x y'). apply pair_step_iff. destruct Hst; eauto 10. }
    destruct (Hend Hcheck) as (e & f & He & Hf & _ & _ & Hsome).
    destruct (place_comm_sound _ _ _ _ _ Hva Hvb He) as [Hce _].
    destruct (place_comm_sound _ _ _ _ _ Hvb Hva Hf) as [Hcf _].
    destruct Hsome as [[r ->]|[r ->]]; eexists; apply pair_step_iff; eauto 10.
  - intros q Hq. apply pair_step_iff in Hq.
    destruct Hq as [(z & Hz & ->)|[(z & Hz & ->)|[(z & Hz & ->)|[(z & Hz & ->)|[Hq|(r & Hq & ->)]]]]].
    + destruct (own_step_complete _ _ (or_introl Hz)) as (x' & Ho & ->). auto.
    + destruct (own_step_complete _ _ (or_introl Hz)) as (y' & Ho & ->). auto.
    + destruct (own_step_complete _ _ (or_intror Hz)) as (x' & Ho & ->). auto.
    + destruct (own_step_complete _ _ (or_intror Hz)) as (y' & Ho & ->). auto.
    + destruct Hca as [->|(_ & x' & Ho & _)]; [|by rewrite (own_no_comm _ _ _ Ho) in Hq].
      destruct Hcb as [->|(Hin & _)].
      * destruct (Hend Hcheck) as (e & _ & He & _ & Hin & _).
        by eapply comm_covered; eauto.
      * destruct (Hxy b Hin) as (r & Hr & Hin'). eapply comm_covered; eauto.
    + destruct Hcb as [->|(_ & y' & Ho & _)]; [|by rewrite (own_no_comm _ _ _ Ho) in Hq].
      destruct Hca as [->|(Hin & _)].
      * destruct (Hend Hcheck) as (_ & f & _ & Hf & _ & Hin & _).
        by eapply comm_covered_swap; eauto.
      * destruct (Hyx a Hin) as (r' & Hr & Hin'). eapply comm_covered_swap; eauto.
Qed.

Lemma covered_bounded : ∃ n, ∀ p, covered S p → weights p ≤ n.
Proof.
  set (side_of := λ c t, match run run_fuel (place_of c t) with Some (l, z) => l ++ [z] | None => [] end).
  destruct (list_bounded (λ x : place, weight x.1) (s ← S; side_of ca s.1)) as [n Hn].
  destruct (list_bounded (λ x : place, weight x.1) (s ← S; side_of cb s.2)) as [m Hm].
  exists (n + m). intros [a b] (s & xs & x & ys & y & Hs & Hrx & Hry & Ha & Hb). simpl in *.
  assert (weight a.1 ≤ n).
  { apply Hn. apply list_elem_of_bind. exists s. split; [|done]. unfold side_of. by rewrite Hrx. }
  assert (weight b.1 ≤ m).
  { apply Hm. apply list_elem_of_bind. exists s. split; [|done]. unfold side_of. by rewrite Hry. }
  unfold weights. simpl. lia.
Qed.

Lemma covered_inevitably p :
  covered S p →
  inevitably (λ q, ∃ p', q = at_pair p'.1 p'.2 ∧ check p' = true) (at_pair p.1 p.2).
Proof using HS L.
  destruct covered_bounded as [n Hn]. intros Hp.
  remember (n - weights p) as d eqn:Hd. revert p Hp Hd.
  induction d as [d IH] using (well_founded_induction lt_wf). intros p Hp Hd.
  destruct (check p) eqn:Hc; [apply inevitably_now; eauto|].
  destruct (covered_step p Hp Hc) as [Hex Hall]. apply inevitably_later; [done|].
  intros q Hq. destruct (Hall q Hq) as (p' & -> & Hp' & Hlt).
  pose proof (Hn p' Hp'). by eapply IH; [|done|reflexivity]; lia.
Qed.
End closed.

(** What [explore] establishes of every execution, on every fabric. *)
Lemma explore_inevitably fuel :
  explore fuel check ca cb = true →
  inevitably (λ q, ∃ p, q = at_pair p.1 p.2 ∧ check p = true) (side_init ca, side_init cb).
Proof using L.
  unfold explore. intros [S Hc]%bool_decide_eq_true.
  destruct (closure_closed _ _ _ _ _ Hc) as [Hsub Hcl].
  { intros p Hp. by apply not_elem_of_nil in Hp. }
  assert ((side_init ca, side_init cb) =
    at_pair (place_of ca traced_init) (place_of cb traced_init)) as ->.
  { unfold at_place, place_of. simpl. by destruct ca, cb. }
  apply (covered_inevitably S Hcl (place_of ca traced_init, place_of cb traced_init)).
  apply (start_covered S Hcl (traced_init, traced_init)). apply Hsub. right. by left.
Qed.
End sound.

(** A side that has come to the end of its code, or waits for a message. *)
Definition side_done (x : side) : bool :=
  match s_code x, s_pending x with Done _, None => true | _, _ => false end.
Definition side_receiving (x : side) : bool :=
  match s_code x, s_pending x with Await (AwaitRecv _) _, None => true | _, _ => false end.
Definition side_idle (x : side) : bool := side_done x || side_receiving x.

Lemma side_done_finished x : side_done x = true → finished x.
Proof. destruct x as [[[]| |] [] n o]; done. Qed.

Lemma idle_stuck {V : Verbs} {F : Fabric} x y q :
  side_idle x = true → side_idle y = true → ¬ pair_step (x, y) q.
Proof.
  assert (∀ u, side_idle u = true → local_step u = None ∧ wake_step u = None ∧
    ∀ z, comm_step u z = None) as Hidle.
  { intros [c w n o]. unfold side_idle, side_done, side_receiving, local_step, wake_step,
      comm_step. simpl. by destruct c as [| |[] ?], w. }
  intros (Hx1 & Hx2 & Hx3)%Hidle (Hy1 & Hy2 & Hy3)%Hidle Hs.
  apply pair_step_iff in Hs. rewrite Hx1, Hx2, Hx3, Hy1, Hy2, Hy3 in Hs.
  by destruct Hs as [(? & ? & _)|[(? & ? & _)|[(? & ? & _)|[(? & ? & _)|[?|(? & ? & _)]]]]].
Qed.

(** When all grids end with both sides idle, in states that pass [check]: every execution
    terminates in such a state. *)
Lemma explore_terminates {H : Host} {V : Verbs} {F : Fabric} {L : FabricLaws F} ca cb fuel
    (check : side → side → bool) :
  explore fuel
    (λ p, let x := at_place p.1 in let y := at_place p.2 in
          side_idle x && side_idle y && check x y) ca cb = true →
  terminates_in (λ q, side_idle q.1 = true ∧ side_idle q.2 = true ∧ check q.1 q.2 = true)
    (side_init ca, side_init cb).
Proof.
  intros He. apply inevitably_terminates.
  - apply (inevitably_impl _ _ _ (explore_inevitably _ _ _ _ He)).
    by intros q (p & -> & [[Hx Hy]%andb_true_iff Hc]%andb_true_iff).
  - intros [x y] q (Hx & Hy & _). by apply idle_stuck.
Qed.

Lemma terminates_impl {V : Verbs} {F : Fabric} P Q p :
  terminates_in P p → (∀ q, P q → Q q) → terminates_in Q p.
Proof. intros [Hacc Hend] HQ. split; [done|]. auto. Qed.

(** What a side does by itself. *)
Fixpoint solo (fuel : nat) (x : side) : side :=
  match fuel with
  | O => x
  | S fuel =>
      match wake_step x, local_step x with
      | Some y, _ => solo fuel y
      | None, Some y => solo fuel y
      | None, None => x
      end
  end.

(** Concrete parameters for the witnesses of the files that follow. *)
Definition wit_host : Host := {| big_endian := false |}.
Definition wit_debug : Build := {| NDEBUG := false |}.
Definition wit_fabric : Fabric := RcFabric (H:=wit_host).
