(* ===== verification/Awaitables.v ===== *)
(** * What a coroutine may rely on of the awaitables

    Three views of the operations of [Operations]: an awaitable is well typed, so that what
    it reads of its union is what its constructor wrote; the overloads taking a span are the
    registration of the span followed by the overloads taking a view; and an awaited
    operation is the event of [Coro]: it posts the request [comm_step] executes, and gives
    the coroutine the answer it has there. *)

From S2P Require Import Prelude Verbs RefNic Errors Serdes Device Resources Mr Qp Operations Coro.
From stdpp Require Import options.

(** ** Typing *)

(** The members of the union an opcode reads. *)
Inductive payload_typed : ibv_wr_opcode → payload → Prop :=
| typed_send : payload_typed IBV_WR_SEND (Payload None None None)
| typed_write : payload_typed IBV_WR_RDMA_WRITE (Payload None None None)
| typed_read : payload_typed IBV_WR_RDMA_READ (Payload None None None)
| typed_imm imm : payload_typed IBV_WR_RDMA_WRITE_WITH_IMM (Payload None None (Some imm))
| typed_add add : payload_typed IBV_WR_ATOMIC_FETCH_AND_ADD (Payload (Some add) None None)
| typed_cas compare swap :
    payload_typed IBV_WR_ATOMIC_CMP_AND_SWP (Payload (Some compare) (Some swap) None).

Definition awaitable_typed (a : send_awaitable) : Prop :=
  ∃ o, wr_opcode (sa_state_ a) = Some o ∧ payload_typed o (sa_payload a).

Section typing.
Context {V : Verbs} {B : Build}.

(** The span overloads: the registration, and what is built on it. *)
Definition span_awaitable (qp : Z) (p : pd) (m : ibv_mr) (o : ibv_wr_opcode) (args : send_args)
    : send_awaitable :=
  SendAwaitable qp (Some (LocalMr (Some m) (Some p)))
    (MrView (ibv_mr_addr m + 0) (Z.min size_max (u64 (ibv_mr_length m - 0))) (ibv_mr_lkey m))
    (args_mr args) None (args_payload args) (operation_state_ctor (Some o)).

Lemma make_span_run qp buffer o args env t :
  live_qps env !! qp = Some t →
  make_send_awaitable_span qp buffer o args env =
    let '(r, n) := ibv_reg_mr (pd_ (qpd_ t)) buffer.1 buffer.2 default_access
                     (w_nic (op_world env)) in
    (match r with Some m => Ret (span_awaitable qp (qpd_ t) m o args) | None => Terminate end,
     OpEnv (live_qps env)
       (after (op_world env) n (EvRegMr buffer.1 buffer.2 default_access r))).
Proof.
  intros Hq. unfold make_send_awaitable_span, this_qp, lock, send_awaitable_span,
    make_unique_mr, reg_mr, in_world.
  munfold. simpl. rewrite Hq. unfold vcall. simpl.
  by destruct (ibv_reg_mr _ _ _ _ _) as [[m|] n].
Qed.

Lemma op_args_typed op : payload_typed (op_args op).1 (args_payload (op_args op).2).
Proof. destruct op; constructor. Qed.

Lemma set_from_wc_opcode wc s : wr_opcode (set_from_wc wc s) = wr_opcode s.
Proof. by destruct s as [[[]|] ? ? ? ? ?]. Qed.

(** Filling the work request: the asserts on the remote address are the only thing that
    can fail. *)
Lemma send_fill_typed a st env :
  awaitable_typed a →
  (∃ wr a', send_fill a st env = (Ret (wr, a'), env) ∧ awaitable_typed a') ∨
  (NDEBUG = false ∧ v_addr_ (sa_remote_mr_view_ a) = 0%Z ∧ send_fill a st env = (Abort, env)).
Proof.
  intros (o & Ho & Hp). destruct a as [q m v r e p [oc ch s f i l]]. simpl in *. subst oc.
  unfold send_fill, is_rdma, is_atomic, view_addr, cassert. simpl.
  destruct Hp; munfold; simpl; repeat (rewrite orb_true_r; simpl);
    try (left; do 2 eexists; split; [reflexivity|]; eexists; split; [done|constructor]);
    destruct (NDEBUG || bool_decide (v_addr_ r ≠ 0%Z)) eqn:Hn; simpl;
    try (left; do 2 eexists; split; [reflexivity|]; eexists; split; [done|constructor]);
    right; apply orb_false_iff in Hn as [Hn Hr]; apply bool_decide_eq_false in Hr;
    (split; [done|]; split; [by apply dec_stable|done]).
Qed.

(** C22: the awaitables of all twelve member functions are well typed and stay so: whatever
    completes, suspending a well-typed awaitable reads only members of its union that were
    written, and fails only at the asserted null remote address, in a debug build. *)
Theorem awaitables_typed (op : send_op) (qp : Z) (b : local_buffer) (env env' : op_env)
    (t : basic_qp) (a : send_awaitable) :
  live_qps env !! qp = Some t → op_valid t op →
  issue op qp b env = (Ret a, env') →
  awaitable_typed a ∧
  ∀ a1, awaitable_typed a1 →
    (∀ wc, awaitable_typed (set_sa_state (set_from_wc wc (sa_state_ a1)) a1)) ∧
    ∀ st h env1,
      match (send_await_suspend a1 st h env1).1 with
      | Ret (_, a2) => awaitable_typed a2
      | Abort => NDEBUG = false ∧ v_addr_ (sa_remote_mr_view_ a1) = 0%Z
      | _ => False
      end.
Proof.
  intros Hq Hv%op_valid_passes Hi. split.
  - exists (op_args op).1. rewrite (issue_make op qp b env t Hq Hv) in Hi.
    destruct b as [buffer|v].
    + unfold make_send_awaitable in Hi. rewrite (make_span_run _ _ _ _ _ t Hq) in Hi.
      destruct (ibv_reg_mr _ _ _ _ _) as [[m|] n]; [|done].
      injection Hi as <- _. split; [done|]. apply op_args_typed.
    + injection Hi as <- _. split; [done|]. apply op_args_typed.
  - intros a1 Ha. split.
    { intros wc. destruct Ha as (o & Ho & Hp). exists o. simpl.
      by rewrite set_from_wc_opcode. }
    intros st h env1. unfold send_await_suspend, send_suspend.
    assert (awaitable_typed (set_sa_state (set_coro_handle h (sa_state_ a1)) a1)) as Ha' by done.
    destruct (send_fill_typed _ st env1 Ha') as [(wr & a2 & Hf & Ha2)|(Hn & Hr & Hf)].
    + rewrite (bind_ret _ _ _ _ _ Hf).
      pose proof (post_or_keep_spec (sa_qp_ a2) "post_send: qp expired, use_count=0"
        (λ q, post_send q wr) env1 (post_send_total wr)) as Hpost.
      destruct (live_qps env1 !! sa_qp_ a2).
      * destruct Hpost as (r & w' & _ & Hk). rewrite (bind_ret _ _ _ _ _ Hk).
        by destruct r.
      * by rewrite (bind_ret _ _ _ _ _ Hpost).
    + unfold mbind, M_bind. rewrite Hf. done.
Qed.
End typing.

(** ** Spans and views *)

Definition with_owner (m : local_mr) (a : send_awaitable) : send_awaitable :=
  SendAwaitable (sa_qp_ a) (Some m) (sa_local_mr_view_ a) (sa_remote_mr_view_ a)
    (sa_exception_ a) (sa_payload a) (sa_state_ a).

Section spans.
Context {V : Verbs} {B : Build}.

(** Nothing that is posted depends on who owns the region. *)
Lemma send_fill_owner m a st env :
  send_fill (with_owner m a) st env =
    (r ← send_fill a st; mret (r.1, with_owner m r.2)) env.
Proof.
  destruct a as [q l v r e p [oc ch s f i n]]. unfold send_fill, is_rdma, is_atomic, cassert.
  destruct p as [ca sw im]. munfold. simpl.
  repeat (case_match; simplify_eq/=; try done).
Qed.

Lemma send_suspend_owner m a st env :
  send_suspend (with_owner m a) st env =
    (r ← send_suspend a st; mret (r.1, with_owner m r.2)) env.
Proof.
  unfold send_suspend. unfold mbind, M_bind. rewrite send_fill_owner. unfold mbind, M_bind.
  destruct (send_fill a st env) as [[[wr a']| | | |] env']; try done. simpl.
  destruct (post_or_keep _ _ _ env') as [[[e|]| | | |] env'']; done.
Qed.

Lemma make_unique_run p buffer env m env1 :
  in_world (make_unique_mr p buffer) env = (Ret m, env1) →
  ∃ x n, ibv_reg_mr (pd_ p) buffer.1 buffer.2 default_access (w_nic (op_world env)) =
      (Some x, n) ∧ m = LocalMr (Some x) (Some p) ∧
    env1 = OpEnv (live_qps env)
      (after (op_world env) n (EvRegMr buffer.1 buffer.2 default_access (Some x))).
Proof.
  unfold in_world, make_unique_mr, reg_mr. munfold. simpl. unfold vcall.
  destruct (ibv_reg_mr _ _ _ _ _) as [[x|] n]; simpl; [|done]. intros [= <- <-]. eauto.
Qed.

(** C23: each overload taking a span does what registering the span and calling the
    overload that takes a view of the region does: the same calls in the same order, the
    same suspension, and an awaitable that differs in owning the region. *)
Theorem span_is_view (op : send_op) (qp : Z) (buffer : Z * Z) (st : Z) (h : Operations.coro)
    (env env1 : op_env) (t : basic_qp) (m : local_mr) :
  live_qps env !! qp = Some t → op_valid t op →
  in_world (make_unique_mr (qpd_ t) buffer) env = (Ret m, env1) →
  (a ← issue op qp (buf_span buffer); send_await_suspend a st h) env =
  (v ← mr_view_local m 0 size_max;
   a ← issue op qp (buf_view v);
   r ← send_await_suspend a st h;
   mret (r.1, with_owner m r.2)) env1.
Proof.
  intros Hq Hv%op_valid_passes Hm. destruct (make_unique_run _ _ _ _ _ Hm) as (x & n & Hreg & -> & ->).
  set (w := after _ _ _).
  assert (issue op qp (buf_span buffer) env =
    (Ret (span_awaitable qp (qpd_ t) x (op_args op).1 (op_args op).2), OpEnv (live_qps env) w))
    as Hspan.
  { rewrite (issue_make op qp _ env t Hq Hv). unfold make_send_awaitable.
    rewrite (make_span_run _ _ _ _ _ t Hq), Hreg. done. }
  rewrite (bind_ret _ _ _ _ _ Hspan).
  set (v := MrView (ibv_mr_addr x + 0) (Z.min size_max (u64 (ibv_mr_length x - 0)))
              (ibv_mr_lkey x)).
  assert (mr_view_local (LocalMr (Some x) (Some (qpd_ t))) 0 size_max (OpEnv (live_qps env) w) =
    (Ret v, OpEnv (live_qps env) w)) as Hview by done.
  rewrite (bind_ret _ _ _ _ _ Hview).
  rewrite (bind_ret _ _ _ _ _ (issue_make op qp (buf_view v) (OpEnv (live_qps env) w) t Hq Hv)).
  unfold send_await_suspend. rewrite <- send_suspend_owner. done.
Qed.
End spans.

(** ** Awaited operations are events *)

Section events.
Context {V : Verbs} {B : Build}.

(** [co_await] of an operation whose completion is [wc]. *)
Definition library_send (op : send_op) (qp : Z) (v : mr_view) (st : Z) (h : Operations.coro)
    (wc : ibv_wc) : M op_env Z :=
  issue op qp (buf_view v) ≫= λ a,
  send_await_suspend a st h ≫= λ r : bool * send_awaitable,
  if r.1
  then send_await_resume (set_sa_state (set_from_wc wc (sa_state_ r.2)) r.2)
  else send_await_resume r.2.

Definition library_recv (qp : Z) (v : mr_view) (st : Z) (h : Operations.coro)
    (wc : ibv_wc) : M op_env (Z * option Z) :=
  recv_mr qp v ≫= λ a,
  recv_await_suspend a st h ≫= λ r : bool * recv_awaitable,
  if r.1
  then recv_await_resume (set_ra_state (set_from_wc wc (ra_state_ r.2)) r.2)
  else recv_await_resume r.2.

(** What a coroutine gets, as the answer of the event. *)
Definition send_outcome (a : answer) : outcome Z :=
  match a with AnsZ z => Ret z | AnsThrow e => Throw e | _ => Undefined end.

(** Resuming an awaitable that was posted, once its completion is in its state. *)
Lemma send_resumed {S} op v a wc (s : S) :
  sa_exception_ a = None →
  (∀ wc, wc_status wc = IBV_WC_SUCCESS →
     os_byte_len (set_from_wc wc (sa_state_ a)) = expected_result op v wc) →
  send_await_resume (set_sa_state (set_from_wc wc (sa_state_ a)) a) s =
    (send_outcome (send_answer op v wc), s).
Proof.
  intros Hex Hres. unfold send_await_resume, send_resume, send_answer.
  cbn [sa_exception_ sa_state_ set_sa_state]. rewrite Hex, set_from_wc_status.
  destruct (decide (wc_status wc = IBV_WC_SUCCESS)) as [Hst|Hst].
  - rewrite Hst, (bind_ret _ _ _ _ _ (check_wc_status_ok _ _)), Hres, check_wc_status_ok; done.
  - unfold mbind, M_bind, check_wc_status. by rewrite bool_decide_eq_true_2.
Qed.

(** C4: awaiting an operation on a live queue pair is the event of a coroutine: when the
    post succeeds, exactly the work request that the connection executes for the event has
    been posted, under the address of the state, and whatever the completion, the coroutine
    gets the answer that the event has there, value or exception. *)
Theorem await_send_refines (op : send_op) (qp : Z) (v : mr_view) (st : Z)
    (h : Operations.coro) (wc : ibv_wc) (env : op_env) (t : basic_qp) (n : nic) :
  live_qps env !! qp = Some t → op_valid t op →
  ibv_post_send (qp_ t) (expected_wr op v st) (w_nic (op_world env)) = (0%Z, n) →
  library_send op qp v st h wc env =
    (send_outcome (send_answer op v wc),
     OpEnv (live_qps env) (after (op_world env) n (EvPostSend (qp_ t) (expected_wr op v st) 0))).
Proof.
  intros Hq Hv%op_valid_passes Hop. unfold library_send.
  rewrite (bind_ret _ _ _ _ _ (issue_make op qp (buf_view v) env t Hq Hv)).
  destruct (send_suspend_spec op qp v _ st env t 0 n
    (fresh_coro op qp v _ h (fresh_view op qp v)) Hq Hv Hop)
    as (aw & Hrun & _ & _ & Hcases & Hres).
  unfold send_await_suspend. rewrite (bind_ret _ _ _ _ _ Hrun). simpl.
  destruct Hcases as [(_ & Hex & _)|(? & _)]; [|done]. by apply send_resumed.
Qed.

(** What a coroutine gets for the completion of a receive. *)
Definition recv_outcome (wc : ibv_wc) : outcome (Z * option Z) :=
  match (check_wc_status (wc_status wc) "failed to recv" tt).1 with
  | Ret _ => Ret (wc_byte_len wc,
                  if bool_decide (Z.land (wc_flags wc) IBV_WC_WITH_IMM ≠ 0%Z)
                  then Some (wc_imm_data wc) else None)
  | Throw e => Throw e
  | _ => Undefined
  end.

Lemma recv_resumed {S} a wc (s : S) :
  ra_exception_ a = None → wr_opcode (ra_state_ a) = None →
  recv_await_resume (set_ra_state (set_from_wc wc (ra_state_ a)) a) s = (recv_outcome wc, s).
Proof.
  intros Hex Hop. unfold recv_await_resume, recv_resume, recv_outcome.
  cbn [ra_exception_ ra_state_ set_ra_state]. rewrite Hex, set_from_wc_status.
  destruct (decide (wc_status wc = IBV_WC_SUCCESS)) as [Hst|Hst].
  - rewrite Hst, (bind_ret _ _ _ _ _ (check_wc_status_ok _ _)), check_wc_status_ok.
    unfold set_from_wc. cbn [wr_opcode]. rewrite Hop. simpl.
    by destruct (bool_decide (Z.land (wc_flags wc) IBV_WC_WITH_IMM ≠ 0%Z)).
  - unfold mbind, M_bind, check_wc_status. by rewrite bool_decide_eq_true_2.
Qed.

(** The receive of a coroutine: what [posted_recv] shows of it is what is posted, to the
    shared receive queue or the queue pair's own. *)
Theorem await_recv_refines (qp : Z) (v : mr_view) (st : Z) (h : Operations.coro) (wc : ibv_wc)
    (env : op_env) (q : ibv_qp) (psn : Z) (t0 : basic_qp) (n : nic) ev :
  live_qps env !! qp = Some (created q psn t0) →
  recv_target t0 q (expected_recv_wr v st) (w_nic (op_world env)) = (0%Z, n, ev) →
  library_recv qp v st h wc env =
    (recv_outcome wc, OpEnv (live_qps env) (after (op_world env) n (ev 0%Z))).
Proof.
  intros Hq Ht. pose proof (recv_suspend_spec qp v st h env q psn t0 Hq) as Hs.
  rewrite Ht in Hs. destruct Hs as (aw & Hrun & _ & Hex & Hop).
  unfold library_recv. revert Hrun. unfold recv_mr. rewrite !bind_mret. intros Hrun.
  rewrite (bind_ret _ _ _ _ _ Hrun). simpl.
  by apply recv_resumed.
Qed.
End events.

(** ** Witnesses *)

#[local] Existing Instance wit_debug.

Lemma awaitables_typed_witness :
  ∃ a env', issue (V:=good) (OpCas wit_remote 3 4) 7 (buf_view wit_local) wit_env = (Ret a, env') ∧
    awaitable_typed a ∧
    awaitable_typed (set_sa_state (set_from_wc (IbvWc 300 IBV_WC_SUCCESS 8 0 0) (sa_state_ a)) a).
Proof.
  eexists _, _. split; [apply run_fst; vm_compute; reflexivity|].
  destruct (awaitables_typed (V:=good) (OpCas wit_remote 3 4) 7 (buf_view wit_local) wit_env _
    wit_qp _ eq_refl ltac:(vm_compute; split; congruence)
    (run_fst _ _ _ ltac:(vm_compute; reflexivity))) as [Ha Hall].
  split; [exact Ha|]. exact (proj1 (Hall _ Ha) _).
Defined.

Lemma span_is_view_witness :
  ∃ m env1, in_world (V:=good) (make_unique_mr (qpd_ wit_qp) (4096%Z, 64%Z)) wit_env =
      (Ret m, env1) ∧
    (a ← issue (V:=good) OpSend 7 (buf_span (4096%Z, 64%Z)); send_await_suspend a 300 77%Z) wit_env =
    (v ← mr_view_local m 0 size_max;
     a ← issue (V:=good) OpSend 7 (buf_view v);
     r ← send_await_suspend a 300 77%Z;
     mret (r.1, with_owner m r.2)) env1.
Proof.
  eexists _, _. split; [apply run_fst; vm_compute; reflexivity|].
  exact (span_is_view (V:=good) OpSend 7 (4096%Z, 64%Z) 300 77%Z wit_env _ wit_qp _ eq_refl I
    (run_fst _ _ _ ltac:(vm_compute; reflexivity))).
Defined.

Lemma await_send_refines_witness :
  (library_send (V:=good) (OpRead wit_remote) 7 wit_local 300 77%Z
     (IbvWc 300 IBV_WC_SUCCESS 64 0 0) wit_env).1 = Ret 64%Z.
Proof.
  rewrite (await_send_refines (V:=good) (OpRead wit_remote) 7 wit_local 300 77%Z
    (IbvWc 300 IBV_WC_SUCCESS 64 0 0) wit_env wit_qp _ eq_refl
    ltac:(vm_compute; congruence) ltac:(vm_compute; reflexivity)).
  reflexivity.
Defined.
