(* ===== verification/SendBw.v ===== *)
(** * The send benchmark (examples/send_bw_raw.cc)

    Many coroutines on one queue pair: [kConcurrency] senders, each with one send under way
    at a time, and [kRecvDepth] server workers, each receiving into its own slice of one
    buffer, and the thread that reads the statistics.  A send takes the receive that was
    posted first.  The number of sends, [kSendCount], is a parameter. *)

From S2P Require Import Prelude Verbs RefNic Errors Serdes Device Resources Mr Qp Operations.
From stdpp Require Import options.

Definition kConcurrency : nat := 4.
Definition kRecvDepth : nat := 32.
Definition kMsgSize : Z := 2 * 1024 * 1024.

(** ** Server::server_worker: the slice of a worker *)

Definition buffer_pool_size : Z := Z.of_nat kRecvDepth * kMsgSize.
Definition recv_view {S} (mr_ : local_mr) (idx : nat) : M S mr_view :=
  let offset := (Z.of_nat idx * kMsgSize)%Z in mr_view_local mr_ offset kMsgSize.

(** ** The state *)

(** Where a server worker is: before its receive, waiting in it, resumed with a message,
    and between its two statements on the statistics. *)
Inductive server_worker := AtLoop | Waiting | Received | Counted.
(** Where a sender is in round [i]. *)
Inductive send_worker := Ready (i : nat) | Posted (i : nat) | Sent (i : nat).

(** [Stats], and what the reporter has read so far: it is before the first [exchange], or
    between the two with the count it got. *)
Record stats := Stats {
  total_completed : Z;
  total_bytes : Z;
  diff_count : option Z;
  reports : list (Z * Z) }.

Record bw := Bw {
  workers : list server_worker;
  recv_queue : list nat;
  senders : list send_worker;
  send_queue : list nat;
  g_stats : stats }.

Definition bw_init : bw :=
  Bw (replicate kRecvDepth AtLoop) [] (replicate kConcurrency (Ready 0)) []
     (Stats 0 0 None []).

(** ** The steps *)

Section steps.
Context (kSendCount : nat).

Definition worker_step (k : nat) (s : bw) : option bw :=
  let g := g_stats s in
  match workers s !! k with
  | Some AtLoop =>
      Some (Bw (<[k := Waiting]> (workers s)) (recv_queue s ++ [k]) (senders s) (send_queue s) g)
  | Some Waiting => None
  | Some Received =>
      Some (Bw (<[k := Counted]> (workers s)) (recv_queue s) (senders s) (send_queue s)
              (Stats (u64 (total_completed g + 1)) (total_bytes g) (diff_count g) (reports g)))
  | Some Counted =>
      Some (Bw (<[k := AtLoop]> (workers s)) (recv_queue s) (senders s) (send_queue s)
              (Stats (total_completed g) (u64 (total_bytes g + kMsgSize)) (diff_count g) (reports g)))
  | None => None
  end.

Definition sender_step (j : nat) (s : bw) : option bw :=
  match senders s !! j with
  | Some (Ready i) =>
      if bool_decide (i < kSendCount)
      then Some (Bw (workers s) (recv_queue s) (<[j := Posted i]> (senders s))
                   (send_queue s ++ [j]) (g_stats s))
      else None
  | Some (Posted _) | None => None
  | Some (Sent i) =>
      Some (Bw (workers s) (recv_queue s) (<[j := Ready (S i)]> (senders s)) (send_queue s)
              (g_stats s))
  end.

(** The first send meets the first receive. *)
Definition transfer (s : bw) : option bw :=
  match send_queue s, recv_queue s with
  | j :: sq, k :: rq =>
      match senders s !! j with
      | Some (Posted i) =>
          Some (Bw (<[k := Received]> (workers s)) rq (<[j := Sent i]> (senders s)) sq (g_stats s))
      | _ => None
      end
  | _, _ => None
  end.

(** [reporter_loop]: the two exchanges. *)
Definition reporter_step (s : bw) : bw :=
  let g := g_stats s in
  Bw (workers s) (recv_queue s) (senders s) (send_queue s)
    (match diff_count g with
     | None => Stats 0 (total_bytes g) (Some (total_completed g)) (reports g)
     | Some c => Stats (total_completed g) 0 None (reports g ++ [(c, total_bytes g)])
     end).

(** A step of the transfer of messages, and any step. *)
Definition msg_step (s s' : bw) : Prop :=
  (∃ k, worker_step k s = Some s') ∨ (∃ j, sender_step j s = Some s') ∨ transfer s = Some s'.
Definition bw_step (s s' : bw) : Prop := msg_step s s' ∨ s' = reporter_step s.

(** ** Sums over the coroutines *)

Fixpoint sum {A} (f : A → Z) (l : list A) : Z :=
  match l with [] => 0%Z | x :: l => (f x + sum f l)%Z end.

Lemma sum_insert {A} (f : A → Z) l i x y :
  l !! i = Some y → sum f (<[i := x]> l) = (sum f l + f x - f y)%Z.
Proof.
  revert i. induction l as [|z l IH]; intros [|i] Hi; simplify_eq/=; [lia|].
  rewrite (IH i Hi). lia.
Qed.

Lemma sum_nonneg {A} (f : A → Z) l : (∀ x, 0 ≤ f x)%Z → (0 ≤ sum f l)%Z.
Proof. intros Hf. induction l as [|x l IH]; simpl; [done|]. specialize (Hf x). lia. Qed.

Lemma sum_nonneg_in {A} (f : A → Z) l : (∀ x, x ∈ l → 0 ≤ f x)%Z → (0 ≤ sum f l)%Z.
Proof.
  induction l as [|x l IH]; simpl; intros Hf; [done|].
  assert (0 ≤ f x)%Z by (apply Hf; by left).
  assert (0 ≤ sum f l)%Z by (apply IH; intros y Hy; apply Hf; by right). lia.
Qed.

Lemma sum_replicate {A} (f : A → Z) n x : sum f (replicate n x) = (Z.of_nat n * f x)%Z.
Proof. induction n as [|n IH]; simpl; [done|]. rewrite IH. lia. Qed.

Lemma sum_app {A} (f : A → Z) l k : sum f (l ++ k) = (sum f l + sum f k)%Z.
Proof. induction l as [|x l IH]; simpl; [done|]. rewrite IH. lia. Qed.

Lemma sum_bound {A} (f : A → Z) l b : (∀ x, x ∈ l → f x ≤ b)%Z → (sum f l ≤ Z.of_nat (length l) * b)%Z.
Proof.
  induction l as [|x l IH]; simpl; intros Hf; [done|].
  assert (f x ≤ b)%Z by (apply Hf; by left).
  assert (sum f l ≤ Z.of_nat (length l) * b)%Z by (apply IH; intros y Hy; apply Hf; by right). lia.
Qed.

(** A queue without repetitions of numbers below [n]. *)
Lemma queue_bounded (l : list nat) n : NoDup l → (∀ x, x ∈ l → x < n) → length l ≤ n.
Proof.
  intros Hl Hn. rewrite <- (length_seq n 0). apply submseteq_length, NoDup_submseteq; [done|].
  intros x Hx. apply elem_of_seq. specialize (Hn x Hx). lia.
Qed.

Lemma recv_view_slice m p j :
  ibv_mr_length m = buffer_pool_size → j < kRecvDepth →
  recv_view (LocalMr (Some m) p) j tt =
    (Ret (MrView (ibv_mr_addr m + Z.of_nat j * kMsgSize) kMsgSize (ibv_mr_lkey m)), tt).
Proof.
  intros Hm Hj. unfold recv_view, mr_view_local, local_addr, local_length, local_lkey.
  munfold. simpl. rewrite Hm. unfold buffer_pool_size, kRecvDepth, kMsgSize in *.
  do 3 f_equal. rewrite u64_small; lia.
Qed.

(** ** The queues *)

(** Each queue holds, once, exactly those whose request or receive is posted. *)
Record queues_ok (s : bw) : Prop := {
  q_workers : length (workers s) = kRecvDepth;
  q_senders : length (senders s) = kConcurrency;
  q_recv_nodup : NoDup (recv_queue s);
  q_send_nodup : NoDup (send_queue s);
  q_recv k : k ∈ recv_queue s ↔ workers s !! k = Some Waiting;
  q_send j : j ∈ send_queue s ↔ ∃ i, senders s !! j = Some (Posted i);
  q_rounds j x : senders s !! j = Some x →
    match x with Ready i => i ≤ kSendCount | Posted i | Sent i => i < kSendCount end }.

Lemma queues_init : queues_ok bw_init.
Proof.
  unfold bw_init. split; cbn [workers senders recv_queue send_queue];
    rewrite ?length_replicate; try done; try constructor.
  - intros []%not_elem_of_nil.
  - intros Hk. by apply lookup_replicate in Hk as [].
  - intros []%not_elem_of_nil.
  - intros (i & Hi). by apply lookup_replicate in Hi as [].
  - intros j x [-> _]%lookup_replicate. lia.
Qed.

Lemma queues_worker k s s' : worker_step k s = Some s' → queues_ok s → queues_ok s'.
Proof.
  unfold worker_step. intros Hs [].
  destruct (workers s !! k) as [[]|] eqn:Hk; simplify_eq/=;
    split; simpl; rewrite ?length_insert; try done.
  - apply NoDup_app. split_and!; [done|intros x Hx ->%list_elem_of_singleton|apply NoDup_singleton].
    apply q_recv0 in Hx. congruence.
  - intros k'. rewrite elem_of_app, list_elem_of_singleton, q_recv0.
    destruct (decide (k' = k)) as [->|Hne].
    + rewrite list_lookup_insert_eq by (by eapply lookup_lt_Some). naive_solver.
    + rewrite list_lookup_insert_ne by done. naive_solver.
  - intros k'. rewrite q_recv0. destruct (decide (k' = k)) as [->|Hne].
    + rewrite list_lookup_insert_eq by (by eapply lookup_lt_Some). naive_solver.
    + by rewrite list_lookup_insert_ne.
  - intros k'. rewrite q_recv0. destruct (decide (k' = k)) as [->|Hne].
    + rewrite list_lookup_insert_eq by (by eapply lookup_lt_Some). naive_solver.
    + by rewrite list_lookup_insert_ne.
Qed.

Lemma queues_sender j s s' : sender_step j s = Some s' → queues_ok s → queues_ok s'.
Proof.
  unfold sender_step. intros Hs [].
  assert (∀ x j' y, is_Some (senders s !! j) → <[j := x]> (senders s) !! j' = Some y ↔
    (j' = j ∧ y = x) ∨ (j' ≠ j ∧ senders s !! j' = Some y)) as Hins.
  { intros x j' y Hj. rewrite list_lookup_insert_Some.
    pose proof (lookup_lt_is_Some_1 _ _ Hj). naive_solver. }
  destruct (senders s !! j) as [[i|i|i]|] eqn:Hj; [|done| |done].
  - case_bool_decide as Hi; simplify_eq/=.
    split; simpl; rewrite ?length_insert; try done.
    + apply NoDup_app. split_and!; [done|intros x Hx ->%list_elem_of_singleton|apply NoDup_singleton].
      apply q_send0 in Hx as [? ?]. congruence.
    + intros j'. rewrite elem_of_app, list_elem_of_singleton, q_send0.
      setoid_rewrite Hins; [|done]. destruct (decide (j' = j)); naive_solver.
    + intros j' x. rewrite Hins by done. intros [[-> ->]|[_ Hx]]; [done|]. by apply (q_rounds0 j').
  - simplify_eq/=. split; simpl; rewrite ?length_insert; try done.
    + intros j'. rewrite q_send0. setoid_rewrite Hins; [|done].
      destruct (decide (j' = j)); naive_solver.
    + intros j' x. rewrite Hins by done. intros [[-> ->]|[_ Hx]]; [|by apply (q_rounds0 j')].
      apply q_rounds0 in Hj; lia.
Qed.

Lemma queues_transfer s s' : transfer s = Some s' → queues_ok s → queues_ok s'.
Proof.
  unfold transfer. intros Hs [].
  destruct (send_queue s) as [|j sq] eqn:Hsq; [done|].
  destruct (recv_queue s) as [|k rq] eqn:Hrq; [done|].
  destruct (senders s !! j) as [[|i|]|] eqn:Hj; simplify_eq/=.
  apply NoDup_cons in q_recv_nodup0 as [Hk Hrq']. apply NoDup_cons in q_send_nodup0 as [Hj' Hsq'].
  assert (workers s !! k = Some Waiting) as Hw by (apply q_recv0; by left).
  split; simpl; rewrite ?length_insert; try done.
  - intros k'. rewrite list_lookup_insert_Some.
    pose proof (lookup_lt_Some _ _ _ Hw). specialize (q_recv0 k').
    rewrite elem_of_cons in q_recv0. destruct (decide (k' = k)) as [->|Hne]; naive_solver.
  - intros j'. setoid_rewrite list_lookup_insert_Some.
    pose proof (lookup_lt_Some _ _ _ Hj). specialize (q_send0 j').
    rewrite elem_of_cons in q_send0. destruct (decide (j' = j)) as [->|Hne]; naive_solver.
  - intros j' x [(-> & <- & _)|(_ & Hx)]%list_lookup_insert_Some; [|by apply (q_rounds0 j')].
    apply q_rounds0 in Hj; lia.
Qed.

Lemma queues_step s s' : bw_step s s' → queues_ok s → queues_ok s'.
Proof.
  intros [[(k & Hk)|[(j & Hj)|Ht]]| ->].
  - by eapply queues_worker.
  - by eapply queues_sender.
  - by eapply queues_transfer.
  - by intros [].
Qed.

(** ** The statistics *)

Definition delivered (x : send_worker) : Z :=
  match x with Ready i | Posted i => Z.of_nat i | Sent i => Z.of_nat (S i) end.
Definition uncounted (x : server_worker) : Z := match x with Received => 1 | _ => 0 end.
Definition unsummed (x : server_worker) : Z := match x with Received | Counted => 1 | _ => 0 end.
(** The messages delivered. *)
Definition messages (s : bw) : Z := sum delivered (senders s).

(** No message is lost from the statistics, and none is counted twice. *)
Record stats_ok (s : bw) : Prop := {
  st_count :
    (total_completed (g_stats s) + default 0 (diff_count (g_stats s)) +
     sum fst (reports (g_stats s)) + sum uncounted (workers s) = messages s)%Z;
  st_bytes :
    (total_bytes (g_stats s) + sum snd (reports (g_stats s)) +
     kMsgSize * sum unsummed (workers s) = kMsgSize * messages s)%Z;
  st_nonneg :
    (0 ≤ total_completed (g_stats s) ∧ 0 ≤ total_bytes (g_stats s) ∧
     0 ≤ default 0 (diff_count (g_stats s)) ∧
     0 ≤ sum fst (reports (g_stats s)) ∧ 0 ≤ sum snd (reports (g_stats s)))%Z }.

Lemma stats_init : stats_ok bw_init.
Proof. unfold bw_init. split; unfold messages; simpl; lia. Qed.

Hypothesis Hcount : (Z.of_nat kConcurrency * Z.of_nat kSendCount * kMsgSize < 2 ^ 64)%Z.

Lemma messages_bound s : queues_ok s → (messages s ≤ Z.of_nat kConcurrency * Z.of_nat kSendCount)%Z.
Proof.
  intros []. unfold messages. rewrite <- q_senders0. apply sum_bound.
  intros x [j Hj]%list_elem_of_lookup. apply q_rounds0 in Hj. destruct x; simpl; lia.
Qed.

Lemma stats_step s s' : queues_ok s → bw_step s s' → stats_ok s → stats_ok s'.
Proof using Hcount.
  intros Hq Hs [Hc Hb Hn]. pose proof (messages_bound s Hq) as Hm.
  pose proof (sum_nonneg uncounted (workers s) ltac:(by intros [])) as Hu.
  pose proof (sum_nonneg unsummed (workers s) ltac:(by intros [])) as Hv.
  unfold kMsgSize in *.
  destruct Hs as [[(k & Hs)|[(j & Hs)|Hs]]| ->]; [unfold worker_step in Hs
    |unfold sender_step in Hs|unfold transfer in Hs|].
  - destruct (workers s !! k) as [[]|] eqn:Hk; simplify_eq/=;
      pose proof (λ f x, sum_insert f (workers s) k x _ Hk) as Hins;
      pose proof (sum_nonneg uncounted (<[k := AtLoop]> (workers s)) ltac:(by intros [])) as Hu';
      pose proof (sum_nonneg unsummed (<[k := AtLoop]> (workers s)) ltac:(by intros [])) as Hv';
      rewrite Hins in Hu', Hv'; simpl in Hu', Hv';
      split; unfold messages in *; simpl; rewrite ?Hins; simpl; rewrite ?u64_small; unfold kMsgSize; lia.
  - destruct (senders s !! j) as [[i|i|i]|] eqn:Hj; [case_bool_decide| | |]; simplify_eq/=;
      pose proof (λ f x, sum_insert f (senders s) j x _ Hj) as Hins;
      split; unfold messages, kMsgSize in *; simpl; rewrite ?Hins; simpl; lia.
  - destruct (send_queue s) as [|j sq]; [done|].
    destruct (recv_queue s) as [|k rq] eqn:Hrq; [done|].
    destruct (senders s !! j) as [[|i|]|] eqn:Hj; simplify_eq/=.
    assert (workers s !! k = Some Waiting) as Hk by (apply (q_recv _ Hq); rewrite Hrq; by left).
    pose proof (λ f x, sum_insert f (senders s) j x _ Hj) as Hins.
    pose proof (λ f x, sum_insert f (workers s) k x _ Hk) as Hins'.
    split; unfold messages, kMsgSize in *; simpl; rewrite ?Hins, ?Hins'; simpl; lia.
  - destruct s as [w rq se sq [tc tb dc rp]]. unfold reporter_step, messages in *. simpl in *.
    destruct dc as [c|]; split; unfold messages, kMsgSize; simpl in *; rewrite ?sum_app; simpl; lia.
Qed.

(** ** Termination *)

Definition worker_energy (x : server_worker) : Z :=
  match x with AtLoop => 1 | Waiting => 0 | Received => 3 | Counted => 2 end.
Definition sender_energy (x : send_worker) : Z :=
  match x with
  | Ready i => 12 * (Z.of_nat kSendCount - Z.of_nat i)
  | Posted i => 12 * (Z.of_nat kSendCount - Z.of_nat i) - 4
  | Sent i => 12 * (Z.of_nat kSendCount - Z.of_nat i) - 8
  end.
Definition energy (s : bw) : Z := sum worker_energy (workers s) + sum sender_energy (senders s).

Lemma energy_decreases s s' :
  queues_ok s → msg_step s s' → (energy s' < energy s)%Z.
Proof using.
  intros Hq Hs. unfold energy. destruct Hs as [(k & Hs)|[(j & Hs)|Hs]];
    [unfold worker_step in Hs|unfold sender_step in Hs|unfold transfer in Hs].
  - destruct (workers s !! k) as [[]|] eqn:Hk; simplify_eq/=;
      rewrite (sum_insert _ _ _ _ _ Hk); simpl; lia.
  - destruct (senders s !! j) as [[i|i|i]|] eqn:Hj; [case_bool_decide| | |]; simplify_eq/=;
      rewrite (sum_insert _ _ _ _ _ Hj); simpl; lia.
  - destruct (send_queue s) as [|j sq]; [done|].
    destruct (recv_queue s) as [|k rq] eqn:Hrq; [done|].
    destruct (senders s !! j) as [[|i|]|] eqn:Hj; simplify_eq/=.
    assert (workers s !! k = Some Waiting) as Hk by (apply (q_recv _ Hq); rewrite Hrq; by left).
    rewrite (sum_insert _ _ _ _ _ Hj), (sum_insert _ _ _ _ _ Hk). simpl. lia.
Qed.

Lemma energy_nonneg s : queues_ok s → (0 ≤ energy s)%Z.
Proof using.
  intros Hq. unfold energy.
  pose proof (sum_nonneg worker_energy (workers s) ltac:(by intros [])).
  assert (0 ≤ sum sender_energy (senders s))%Z; [|lia].
  apply sum_nonneg_in. intros x [j Hj]%list_elem_of_lookup. apply (q_rounds _ Hq) in Hj.
  destruct x; simpl; lia.
Qed.

Lemma msg_terminates s : queues_ok s → Acc (flip msg_step) s.
Proof using.
  intros Hq. remember (Z.to_nat (energy s)) as d eqn:Hd. revert s Hq Hd.
  induction d as [d IH] using (well_founded_induction lt_wf). intros s Hq ->.
  constructor. intros s' Hs. simpl in Hs.
  assert (queues_ok s') as Hq' by (eapply queues_step; [by left|done]).
  pose proof (energy_decreases s s' Hq Hs). pose proof (energy_nonneg s' Hq').
  eapply IH; [|done|reflexivity]. lia.
Qed.

(** Where no message can move, all have been delivered. *)
Lemma msg_stuck s :
  queues_ok s → (∀ s', ¬ msg_step s s') →
  Forall (eq (Ready kSendCount)) (senders s) ∧ Forall (eq Waiting) (workers s).
Proof using.
  intros Hq Hstuck.
  assert (∀ k x, workers s !! k = Some x → x = Waiting) as Hw.
  { intros k x Hk. destruct x; [|done|..]; exfalso; eapply Hstuck; left; exists k;
      unfold worker_step; rewrite Hk; reflexivity. }
  assert (∀ k, k < kRecvDepth → workers s !! k = Some Waiting) as Hw'.
  { intros k Hk. rewrite <- (q_workers _ Hq) in Hk.
    destruct (lookup_lt_is_Some_2 _ _ Hk) as [x Hx]. by rewrite Hx, (Hw _ _ Hx). }
  split; apply Forall_forall.
  - intros x [j Hj]%list_elem_of_lookup. destruct x as [i|i|i].
    + pose proof (q_rounds _ Hq _ _ Hj) as Hi. simpl in Hi.
      destruct (decide (i < kSendCount)); [|f_equal; lia].
      exfalso. eapply Hstuck. right. left. exists j. unfold sender_step. rewrite Hj.
      rewrite bool_decide_eq_true_2 by done. reflexivity.
    + exfalso. assert (j ∈ send_queue s) as Hin by (apply (q_send _ Hq); eauto).
      assert (0 ∈ recv_queue s) as Hin' by (apply (q_recv _ Hq), Hw'; unfold kRecvDepth; lia).
      destruct (send_queue s) as [|j' sq] eqn:Hsq; [by apply not_elem_of_nil in Hin|].
      destruct (recv_queue s) as [|k rq] eqn:Hrq; [by apply not_elem_of_nil in Hin'|].
      assert (∃ i', senders s !! j' = Some (Posted i')) as [i' Hj']
        by (apply (q_send _ Hq); rewrite Hsq; by left).
      eapply Hstuck. right. right. unfold transfer. rewrite Hsq, Hrq, Hj'. reflexivity.
    + exfalso. eapply Hstuck. right. left. exists j. unfold sender_step. by rewrite Hj.
  - intros x [k Hk]%list_elem_of_lookup. symmetry. by eapply Hw.
Qed.

Lemma bw_reachable_ok s : rtc bw_step bw_init s → queues_ok s ∧ stats_ok s.
Proof using Hcount.
  intros Hr. refine (rtc_invariant bw_step (λ s, queues_ok s ∧ stats_ok s) _ _ _ Hr _).
  - intros x y [Hq Hst] Hs. split; [by eapply queues_step|by eapply stats_step].
  - split; [apply queues_init|apply stats_init].
Qed.

(** C18: whatever the interleaving of the senders, the server's workers and the reporter,
    the messages stop moving after finitely many steps, and then all
    [kConcurrency * kSendCount] have been sent and received, every worker waits in its
    receive, and the messages and bytes reported so far with those still in the counters
    are exactly those transferred. *)
Theorem send_bw_delivers s :
  rtc bw_step bw_init s →
  Acc (flip msg_step) s ∧
  ((∀ s', ¬ msg_step s s') →
   let total := (Z.of_nat kConcurrency * Z.of_nat kSendCount)%Z in
   let g := g_stats s in
   Forall (eq (Ready kSendCount)) (senders s) ∧ Forall (eq Waiting) (workers s) ∧
   (total_completed g + default 0 (diff_count g) + sum fst (reports g) = total)%Z ∧
   (total_bytes g + sum snd (reports g) = kMsgSize * total)%Z).
Proof using Hcount.
  intros Hr. destruct (bw_reachable_ok s Hr) as [Hq [Hc Hb _]].
  split; [by apply msg_terminates|]. intros Hstuck.
  destruct (msg_stuck s Hq Hstuck) as [Hs Hw]. split; [done|]. split; [done|].
  assert (workers s = replicate kRecvDepth Waiting) as Hw'
    by (symmetry; apply replicate_as_Forall_2; [apply Hq|done]).
  assert (senders s = replicate kConcurrency (Ready kSendCount)) as Hs'
    by (symmetry; apply replicate_as_Forall_2; [apply Hq|done]).
  assert (messages s = (Z.of_nat kConcurrency * Z.of_nat kSendCount)%Z) as Hm
    by (unfold messages; by rewrite Hs', sum_replicate).
  rewrite Hm in Hc, Hb. rewrite Hw', sum_replicate in Hc, Hb. simpl in Hc, Hb. lia.
Qed.

(** C33: at any time a worker has at most one receive posted and a sender at most one send,
    so that no more than 32 receives and 4 sends are ever outstanding; and the receives
    that are posted have slices of the server's buffer that lie inside it and do not
    overlap. *)
Theorem send_bw_slices s (m : ibv_mr) (p : option pd) :
  rtc bw_step bw_init s → ibv_mr_length m = buffer_pool_size →
  length (recv_queue s) ≤ kRecvDepth ∧ length (send_queue s) ≤ kConcurrency ∧
  ∀ a b j k, recv_queue s !! a = Some j → recv_queue s !! b = Some k → a ≠ b →
    ∃ v w, recv_view (LocalMr (Some m) p) j tt = (Ret v, tt) ∧
      recv_view (LocalMr (Some m) p) k tt = (Ret w, tt) ∧
      view_inside (ibv_mr_addr m) (ibv_mr_length m) v ∧
      view_inside (ibv_mr_addr m) (ibv_mr_length m) w ∧
      (v_addr_ v + v_length_ v ≤ v_addr_ w ∨ v_addr_ w + v_length_ w ≤ v_addr_ v)%Z.
Proof using.
  intros Hr Hm.
  assert (queues_ok s) as Hq.
  { refine (rtc_invariant bw_step queues_ok _ _ _ Hr queues_init).
    intros x y ? ?. by eapply queues_step. }
  assert (∀ k, k ∈ recv_queue s → k < kRecvDepth) as Hlt.
  { intros k Hk%(q_recv _ Hq)%lookup_lt_Some. by rewrite (q_workers _ Hq) in Hk. }
  split_and!.
  - apply queue_bounded; [apply Hq|done].
  - apply queue_bounded; [apply Hq|]. intros j [i Hj%lookup_lt_Some]%(q_send _ Hq).
    by rewrite (q_senders _ Hq) in Hj.
  - intros a b j k Ha Hb Hab.
    assert (j < kRecvDepth) by (eapply Hlt, list_elem_of_lookup_2; done).
    assert (k < kRecvDepth) by (eapply Hlt, list_elem_of_lookup_2; done).
    assert (j ≠ k) as Hjk.
    { intros ->. apply Hab. by eapply NoDup_lookup; [apply (q_recv_nodup _ Hq)|..]. }
    do 2 eexists. split; [by apply recv_view_slice|]. split; [by apply recv_view_slice|].
    unfold view_inside. rewrite Hm. simpl. unfold buffer_pool_size, kRecvDepth, kMsgSize in *.
    lia.
Qed.
End steps.

(** A worker waits, another has counted the message of a sender. *)
Definition wit_state : bw :=
  Bw (<[2 := Waiting]> (<[5 := Counted]> (replicate kRecvDepth AtLoop))) [2]
     (<[1 := Ready 1]> (replicate kConcurrency (Ready 0))) [] (Stats 1 0 None []).

Lemma wit_reachable : rtc (bw_step 3) bw_init wit_state.
Proof.
  eapply rtc_l; [left; left; exists 5; reflexivity|].
  eapply rtc_l; [left; right; left; exists 1; reflexivity|].
  eapply rtc_l; [left; left; exists 2; reflexivity|].
  eapply rtc_l; [left; right; right; reflexivity|].
  eapply rtc_l; [left; left; exists 5; reflexivity|].
  eapply rtc_l; [left; right; left; exists 1; reflexivity|]. apply rtc_refl.
Qed.

Lemma send_bw_delivers_witness :
  rtc (bw_step 3) bw_init wit_state ∧ Acc (flip (msg_step 3)) wit_state.
Proof.
  split; [exact wit_reachable|].
  exact (proj1 (send_bw_delivers 3 ltac:(vm_compute; reflexivity) wit_state wit_reachable)).
Defined.

Lemma send_bw_slices_witness :
  rtc (bw_step 3) bw_init wit_state ∧ length (recv_queue wit_state) ≤ kRecvDepth ∧
  length (send_queue wit_state) ≤ kConcurrency.
Proof.
  split; [exact wit_reachable|].
  destruct (send_bw_slices 3 wit_state (IbvMr 1 4096 buffer_pool_size 2 3) None wit_reachable
    eq_refl) as (H1 & H2 & _).
  exact (conj H1 H2).
Defined.
