(* ===== verification/AsyncRpc.v ===== *)
(** * The RPC benchmark (examples/async_rpc.cc)

    A worker calls the server in a loop, checks each answer and reports.  The client it
    calls through is the interface [RpcCalls]: what a call leaves in the caller's buffer;
    [Rpc] is the model of the implementation.  The number of calls, [kSendCount], and the
    size of a batch are parameters; measured times are left out. *)

From S2P Require Import Prelude Verbs RefNic Errors Serdes Device Resources Mr Qp Operations.
From S2P Require Import Rpc.
From stdpp Require Import options.

(** ** print_stats *)

Record statistic := Statistic {
  total_operations : Z;
  total_duration_us : Z;
  send_msg_size_bytes : Z;
  recv_msg_size_bytes : Z }.

(** [None]: [exit(-10)]; otherwise the lines with integers. *)
Definition print_stats (prefix : string) (stat : statistic) : option (list (string * list Z)) :=
  if bool_decide (total_duration_us stat = 0%Z) then None
  else Some [("--- " +:+ prefix +:+ " Statistics ---", []);
             ("  Total operations: {}", [total_operations stat]);
             ("  Overall elapsed time: {} us", [total_duration_us stat])].

(** ** The workers *)

(** What calls do: the answers the server sends, in the order of the calls.  A call copies
    the answer, cut to the buffer, to its start and gives the number of bytes copied. *)
Class RpcCalls := { answers_of : nat → bytes }.

Definition call `{RpcCalls} (i : nat) (resp_span : bytes) : nat * bytes :=
  let answer := take (length resp_span) (answers_of i) in
  (length answer, answer ++ drop (length answer) resp_span).

Section workers.
Context `{RpcCalls} (kSendCount : nat) (kBatchSize : Z) (mismatch : string).

Definition at_batch (i : nat) : bool :=
  bool_decide (i ≠ 0) && bool_decide (Z.of_nat i mod kBatchSize = 0)%Z.

(** One round: the lines it shows and the buffer it leaves; the buffer is not empty. *)
Definition worker_round (i : nat) (resp_span : bytes) : list (string * list Z) * bytes :=
  let '(n, resp_span') := call i resp_span in
  ((if bool_decide (n ≠ length resp_span')
    then [(mismatch, [Z.of_nat (length resp_span'); Z.of_nat n])]
    else []) ++
   (if bool_decide (head resp_span' ≠ Some Byte.xee)
    then [("Content mismatch: expect 0xEE got {}",
           (λ b, Z.of_N (Byte.to_N b)) <$> take 1 resp_span')]
    else []) ++
   (if at_batch i then [("[rpc_call] batch {:7d}: avg latency {:.3f}us", [Z.of_nat i])] else []),
   resp_span').

(** [for (int i = ...; ...)], [n] rounds from [i] on. *)
Fixpoint worker_loop (n i : nat) (resp_span : bytes) : list (string * list Z) :=
  match n with
  | O => [("[rpc_call] total operations: {}", [Z.of_nat kSendCount]);
          ("[rpc_call] total time: {}us", []);
          ("[rpc_call] average time per operation: {:.3f}us", [])]
  | S n => let '(lines, resp_span) := worker_round i resp_span in
           lines ++ worker_loop n (S i) resp_span
  end.

Definition test_worker : list (string * list Z) :=
  worker_loop kSendCount 0 (replicate kRecvMsgSize Byte.x00).
End workers.

(** The two workers differ in how they wait for a call and in two lines they show. *)
Definition rpc_test_worker `{RpcCalls} (kSendCount : nat) (kBatchSize : Z)
    : list (string * list Z) :=
  test_worker kSendCount kBatchSize "len mismatch: expect {} got {}".
Definition sync_rpc_test_worker `{RpcCalls} (kSendCount : nat) (kBatchSize : Z)
    : list (string * list Z) :=
  ("sync_rpc_worker started", []) ::
  test_worker kSendCount kBatchSize "resp length mismatch: expect {} got {}".

(** [g_stat.total_operations = kSendCount * kConcurrency], a product of [int]s: undefined
    when it overflows; [kConcurrency] comes from the command line. *)
Definition count_operations (kSendCount kConcurrency : Z) : outcome Z :=
  let product := (kSendCount * kConcurrency)%Z in
  if bool_decide (- 2 ^ 31 ≤ product < 2 ^ 31)%Z then Ret product else Undefined.

(** ** Properties *)

Section properties.
Context `{RpcCalls} (kSendCount : nat) (kBatchSize : Z) (mismatch : string).

Local Notation line := (string * list Z)%type.
Definition of_kind (what : string) (out : list line) : list line := filter (λ l, l.1 = what) out.

Lemma of_kind_app what a b : of_kind what (a ++ b) = of_kind what a ++ of_kind what b.
Proof. apply filter_app. Qed.

Lemma call_length i resp : length (call i resp).2 = length resp.
Proof. unfold call. simpl. rewrite length_app, length_drop, length_take. lia. Qed.

Definition batch : string := "[rpc_call] batch {:7d}: avg latency {:.3f}us".
Hypothesis Hmismatch : mismatch ∉ ["Content mismatch: expect 0xEE got {}"; batch;
  "[rpc_call] total operations: {}"; "[rpc_call] total time: {}us";
  "[rpc_call] average time per operation: {:.3f}us"].

Lemma loop_mismatches n i resp :
  of_kind mismatch (worker_loop kSendCount kBatchSize mismatch n i resp) =
    (λ k, (mismatch, [Z.of_nat (length resp); Z.of_nat (length (answers_of k))])) <$>
      filter (λ k, length (answers_of k) < length resp) (seq i n).
Proof using Hmismatch.
  revert i resp. rewrite !not_elem_of_cons in Hmismatch.
  destruct Hmismatch as (H1 & H2 & H3 & H4 & H5 & _).
  induction n as [|n IH]; intros i resp; cbn [worker_loop seq].
  { unfold of_kind. rewrite !filter_cons_False by (simpl; auto using not_eq_sym). done. }
  unfold worker_round. pose proof (call_length i resp) as Hlen.
  destruct (call i resp) as [m resp'] eqn:Hcall. cbn [snd] in Hlen.
  assert (m = Nat.min (length resp) (length (answers_of i))) as Hm.
  { unfold call in Hcall. injection Hcall as <- _. by rewrite length_take. }
  rewrite !of_kind_app, IH, Hlen, filter_cons.
  assert (∀ (b : bool) w d, w ≠ mismatch → of_kind mismatch (if b then [(w, d)] else []) = [])
    as Hother.
  { intros [] w d Hw; unfold of_kind; [by rewrite filter_cons_False|done]. }
  rewrite (Hother (at_batch kBatchSize i)) by auto using not_eq_sym.
  replace (of_kind mismatch (if bool_decide (head resp' ≠ Some Byte.xee) then _ else _))
    with (@nil line) by (case_bool_decide; [unfold of_kind; by rewrite filter_cons_False by
      (simpl; auto using not_eq_sym)|done]).
  destruct (decide (length (answers_of i) < length resp)).
  - rewrite bool_decide_eq_true_2 by lia. unfold of_kind at 1. rewrite filter_cons_True by done.
    simpl. do 4 f_equal. lia.
  - rewrite bool_decide_eq_false_2 by lia. done.
Qed.
End properties.

(** The number of operations is counted for up to 2147 workers; for more, the product of a
    million calls with their number overflows. *)
Lemma operations_counted (k : Z) :
  (0 ≤ k)%Z →
  count_operations 1000000 k = if decide (k ≤ 2147)%Z then Ret (1000000 * k)%Z else Undefined.
Proof.
  intros Hk. unfold count_operations.
  destruct (decide (k ≤ 2147)%Z); [rewrite bool_decide_eq_true_2|rewrite bool_decide_eq_false_2];
    [done|lia|done|lia].
Qed.

(** ** run_client

    The tasks first, all at once, then as many threads; their lines mix in any order.  What
    each gets for its calls is an instance of [RpcCalls] of its own. *)

Inductive interleaves {A} : list (list A) → list A → Prop :=
| interleaves_end ls : Forall (λ l, l = []) ls → interleaves ls []
| interleaves_next i x l ls out :
    ls !! i = Some (x :: l) → interleaves (<[i := l]> ls) out → interleaves ls (x :: out).

Definition task_lines (kSendCount : nat) (kBatchSize : Z) (calls : RpcCalls)
    : list (string * list Z) := rpc_test_worker (H:=calls) kSendCount kBatchSize.
Definition thread_lines (kSendCount : nat) (kBatchSize : Z) (calls : RpcCalls)
    : list (string * list Z) := sync_rpc_test_worker (H:=calls) kSendCount kBatchSize.

(** The lines it may show; [print_stats] may end the process. *)
Definition run_client (kSendCount : nat) (kBatchSize : Z) (tasks threads : list RpcCalls)
    (g_stat_coro g_stat_sync : statistic) (out : list (string * list Z)) : Prop :=
  ∃ o1 o2, interleaves (task_lines kSendCount kBatchSize <$> tasks) o1 ∧
    interleaves (thread_lines kSendCount kBatchSize <$> threads) o2 ∧
    out = o1 ++ [("run_client: all {} call tasks done", [Z.of_nat (length tasks)])] ++
          o2 ++ [("run_client: all {} call threads done", [Z.of_nat (length threads)])] ++
          match print_stats "coro" g_stat_coro, print_stats "sync" g_stat_sync with
          | Some l1, Some l2 => l1 ++ l2
          | Some l1, None => l1
          | None, _ => []
          end.

Lemma interleaves_Permutation {A} (ls : list (list A)) out :
  interleaves ls out → out ≡ₚ concat ls.
Proof.
  induction 1 as [ls Hls|i x l ls out Hi _ IH].
  - induction Hls as [|l ls -> _ IH]; [done|]. exact IH.
  - rewrite IH. clear IH. revert i Hi. induction ls as [|l' ls IH]; intros [|i] Hi; try done.
    + by injection Hi as ->.
    + simpl. rewrite <- (IH i Hi). by rewrite Permutation_middle.
Qed.

(** Any lists of lines can be shown one after the other. *)
Lemma interleaves_concat {A} (ls : list (list A)) : interleaves ls (concat ls).
Proof.
  assert (∀ done ls : list (list A), Forall (λ l, l = []) done →
    interleaves (done ++ ls) (concat ls)) as Hgen; [|by apply (Hgen [])].
  clear ls. intros done ls. revert done. induction ls as [|l ls IH]; intros done Hd.
  { constructor. by rewrite app_nil_r. }
  induction l as [|x l IHl]; simpl.
  - rewrite (cons_middle [] done ls), app_assoc. apply IH. by apply Forall_app; auto.
  - apply (interleaves_next (length done) x l).
    + by rewrite list_lookup_middle.
    + by rewrite insert_app_r_alt, Nat.sub_diag by lia.
Qed.

#[export] Instance of_kind_Proper what : Proper ((≡ₚ) ==> (≡ₚ)) (of_kind what).
Proof. intros l l' Hl. unfold of_kind. by rewrite Hl. Qed.

Lemma of_kind_concat what ls : of_kind what (concat ls) = concat (of_kind what <$> ls).
Proof. induction ls as [|l ls IH]; [done|]. simpl. by rewrite of_kind_app, IH. Qed.

(** The answers a worker should complain of, as it does. *)
Definition short_answers (what : string) (kSendCount : nat) (calls : RpcCalls)
    : list (string * list Z) :=
  (λ k, (what, [Z.of_nat kRecvMsgSize; Z.of_nat (length (answers_of (RpcCalls:=calls) k))])) <$>
    filter (λ k, length (answers_of (RpcCalls:=calls) k) < kRecvMsgSize) (seq 0 kSendCount).

Definition task_mismatch : string := "len mismatch: expect {} got {}".
Definition thread_mismatch : string := "resp length mismatch: expect {} got {}".

(** The kinds of lines a worker shows. *)
Definition worker_kinds (mismatch : string) : list string :=
  [mismatch; "Content mismatch: expect 0xEE got {}"; batch;
   "[rpc_call] total operations: {}"; "[rpc_call] total time: {}us";
   "[rpc_call] average time per operation: {:.3f}us"].

Lemma worker_loop_kinds `{RpcCalls} kSendCount kBatchSize mismatch n i resp :
  Forall (λ l, l.1 ∈ worker_kinds mismatch) (worker_loop kSendCount kBatchSize mismatch n i resp).
Proof.
  revert i resp. induction n as [|n IH]; intros i resp; cbn [worker_loop].
  { repeat constructor. }
  unfold worker_round. destruct (call i resp) as [m resp']. rewrite !Forall_app.
  split; [|apply IH]. split; [|split].
  - case_bool_decide; repeat constructor.
  - case_bool_decide; repeat constructor.
  - case_match; repeat constructor.
Qed.

Lemma of_kind_none what ls :
  Forall (λ l : string * list Z, l.1 ≠ what) ls → of_kind what ls = [].
Proof.
  intros Hls. unfold of_kind. induction Hls as [|l ls Hl _ IH]; [done|].
  by rewrite filter_cons_False.
Qed.

Lemma of_kind_other what w d ls : w ≠ what → of_kind what ((w, d) :: ls) = of_kind what ls.
Proof. intros Hw. unfold of_kind. by rewrite filter_cons_False. Qed.

Lemma worker_other `{RpcCalls} kSendCount kBatchSize mismatch what :
  what ∉ worker_kinds mismatch → of_kind what (test_worker kSendCount kBatchSize mismatch) = [].
Proof.
  intros Hw. apply of_kind_none. eapply Forall_impl; [apply worker_loop_kinds|].
  intros l Hl Heq. rewrite <- Heq in Hw. done.
Qed.

Lemma task_reports kSendCount kBatchSize calls :
  of_kind task_mismatch (task_lines kSendCount kBatchSize calls) =
    short_answers task_mismatch kSendCount calls.
Proof.
  unfold task_lines, rpc_test_worker, test_worker, short_answers.
  rewrite loop_mismatches, length_replicate; [done|]. rewrite !not_elem_of_cons.
  unfold batch. split_and!; try done. apply not_elem_of_nil.
Qed.

Lemma thread_reports kSendCount kBatchSize calls :
  of_kind thread_mismatch (thread_lines kSendCount kBatchSize calls) =
    short_answers thread_mismatch kSendCount calls.
Proof.
  unfold thread_lines, sync_rpc_test_worker, test_worker, short_answers.
  rewrite of_kind_other by done. rewrite loop_mismatches, length_replicate; [done|]. rewrite !not_elem_of_cons.
  unfold batch. split_and!; try done. apply not_elem_of_nil.
Qed.

Lemma concat_nils {A B} (f : A → list B) l : (∀ x, f x = []) → concat (f <$> l) = [].
Proof. intros Hf. induction l as [|x l IH]; [done|]. rewrite fmap_cons. cbn [concat]. by rewrite Hf, IH. Qed.

Lemma stats_other what g1 g2 :
  what ∈ [task_mismatch; thread_mismatch] →
  of_kind what (match print_stats "coro" g1, print_stats "sync" g2 with
                | Some l1, Some l2 => l1 ++ l2 | Some l1, None => l1 | None, _ => [] end) = [].
Proof.
  intros Hw. unfold print_stats.
  repeat (apply elem_of_cons in Hw as [->|Hw]; [by repeat case_bool_decide|]).
  by apply elem_of_nil in Hw.
Qed.

(** The client reports exactly the answers that were shorter than they should be, each once,
    those of the tasks and those of the threads, whatever order the lines come in; and the
    measured times decide nothing but whether the statistics are shown. *)
Theorem run_client_reports kSendCount kBatchSize tasks threads g1 g2 out :
  run_client kSendCount kBatchSize tasks threads g1 g2 out →
  of_kind task_mismatch out ≡ₚ concat (short_answers task_mismatch kSendCount <$> tasks) ∧
  of_kind thread_mismatch out ≡ₚ concat (short_answers thread_mismatch kSendCount <$> threads).
Proof.
  intros (o1 & o2 & H1%interleaves_Permutation & H2%interleaves_Permutation & ->).
  rewrite !of_kind_app, !stats_other by (rewrite !elem_of_cons; auto).
  rewrite H1, H2, !of_kind_concat, <- !list_fmap_compose, !app_nil_r. split.
  - rewrite (concat_nils (of_kind task_mismatch ∘ thread_lines kSendCount kBatchSize)).
    + rewrite !app_nil_r. apply reflexive_eq. f_equal. apply list_fmap_ext. intros. apply task_reports.
    + intros calls. simpl. unfold thread_lines, sync_rpc_test_worker.
      rewrite of_kind_other by done. apply worker_other. by refine (bool_decide_unpack _ _).
  - rewrite (concat_nils (of_kind thread_mismatch ∘ task_lines kSendCount kBatchSize)).
    + simpl. rewrite ?app_nil_r. apply reflexive_eq. f_equal. apply list_fmap_ext. intros. apply thread_reports.
    + intros calls. simpl. unfold task_lines, rpc_test_worker. apply worker_other. by refine (bool_decide_unpack _ _).
Qed.

(** It can always run: one worker after the other is one order. *)
Lemma run_client_runs kSendCount kBatchSize tasks threads g1 g2 :
  ∃ out, run_client kSendCount kBatchSize tasks threads g1 g2 out.
Proof. do 3 eexists. split; [apply interleaves_concat|]. split; [apply interleaves_concat|done]. Qed.
