(* ===== verification/Lockstep.v ===== *)
(** * Coroutines in lockstep

    How a pair proceeds when every communication needs a receive: each side runs by itself
    to a request or to a receive, and whatever the order of these steps, the request then
    meets the receive.  So loops of any length are followed by induction. *)

From S2P Require Import Prelude Verbs RefNic Errors Serdes Device Resources Mr Qp Operations Coro.
From stdpp Require Import options.

(** ** What a side does by itself *)

Definition own_rel (x y : side) : Prop := wake_step x = Some y ∨ local_step x = Some y.

Lemma own_rel_det x y z : own_rel x y → own_rel x z → y = z.
Proof.
  unfold own_rel, wake_step, local_step.
  destruct (s_pending x), (s_code x); intros [?|?] [?|?]; by simplify_eq.
Qed.

Lemma solo_own fuel x : rtc own_rel x (solo fuel x).
Proof.
  revert x. induction fuel as [|fuel IH]; intros x; simpl; [done|].
  destruct (wake_step x) as [y|] eqn:Hw; [|destruct (local_step x) as [y|] eqn:Hl; [|done]].
  - eapply rtc_l; [by left|done].
  - eapply rtc_l; [by right|done].
Qed.

Lemma solo_add j k x : solo (j + k) x = solo k (solo j x).
Proof.
  revert x. induction j as [|j IH]; intros x; simpl; [done|].
  destruct (wake_step x) eqn:Hw; [done|]. destruct (local_step x) eqn:Hl; [done|].
  destruct k; simpl; [done|]. by rewrite Hw, Hl.
Qed.

(** All a side goes through before it is idle. *)
Lemma solo_chain fuel y z :
  rtc own_rel y z → (∀ u, ¬ own_rel (solo fuel y) u) → ∃ j, j ≤ fuel ∧ z = solo j y.
Proof.
  revert y. induction fuel as [|fuel IH]; intros y Hz Hend.
  - exists 0. split; [done|]. destruct Hz as [|y y1 z Ho _]; [done|]. by apply Hend in Ho.
  - destruct Hz as [|y y1 z Ho Hz]; [exists 0; split; [lia|done]|].
    assert (∀ k, solo (S k) y = solo k y1) as Hsolo.
    { intros k. simpl. destruct Ho as [Ho|Ho]; [by rewrite Ho|].
      destruct (wake_step y) eqn:Hw; [|by rewrite Ho].
      f_equal. eapply own_rel_det; [by left|by right]. }
    destruct (IH y1 Hz) as (j & Hj & ->); [by rewrite <- Hsolo|].
    exists (S j). split; [lia|]. by rewrite Hsolo.
Qed.

Lemma solo_to fuel x c w nd out out' :
  solo fuel x = Side c w nd out' → out' = out → rtc own_rel x (Side c w nd out).
Proof. intros Hs <-. rewrite <- Hs. apply solo_own. Qed.

(** A side with a step of its own has posted neither a request nor a receive. *)
Lemma own_no_recv x y : own_rel x y → posted_recv x = None.
Proof.
  unfold own_rel, wake_step, local_step, posted_recv.
  destruct (s_pending x); [done|]. destruct (s_code x) as [| |[]]; naive_solver.
Qed.

Lemma own_not_posted `{V : Verbs, F : Fabric} x y z : own_rel x y → comm_step x z = None.
Proof.
  unfold own_rel, wake_step, local_step, comm_step.
  destruct (s_pending x); [done|]. destruct (s_code x) as [| |[]]; naive_solver.
Qed.

Section lockstep.
Context {H : Host} {V : Verbs} {F : Fabric} {L : FabricLaws F}.

(** ** A request meets a receive *)

Notation sending x op v f := (s_pending x = None ∧ s_code x = Await (AwaitSend op v) f).
Notation receiving x w f := (s_pending x = None ∧ s_code x = Await (AwaitRecv w) f).

Lemma sending_settled x op v f y : sending x op v f → ¬ own_rel x y.
Proof. intros [Hp Hc]. unfold own_rel, wake_step, local_step. rewrite Hp, Hc. by intros [|]. Qed.
Lemma receiving_settled x w f y : receiving x w f → ¬ own_rel x y.
Proof. intros [Hp Hc]. unfold own_rel, wake_step, local_step. rewrite Hp, Hc. by intros [|]. Qed.
Lemma receiving_no_comm x w f y : receiving x w f → comm_step x y = None.
Proof. intros [Hp Hc]. unfold comm_step. by rewrite Hp, Hc. Qed.

(** The steps of a pair. *)
Lemma pair_step_own x y q :
  pair_step (x, y) q ↔
    (∃ x', own_rel x x' ∧ q = (x', y)) ∨ (∃ y', own_rel y y' ∧ q = (x, y')) ∨
    comm_step x y = Some q ∨ (∃ r, comm_step y x = Some r ∧ q = swap r).
Proof. rewrite pair_step_iff. unfold own_rel. naive_solver. Qed.

(** Both sides come to states where they do not proceed by themselves, in whatever order
    they are scheduled, if neither has a request that can be executed before. *)
Lemma settle x y x' y' :
  rtc own_rel x x' → rtc own_rel y y' → (∀ z, ¬ own_rel x' z) → (∀ z, ¬ own_rel y' z) →
  (∀ y1 z, own_rel y1 z → comm_step x' y1 = None) →
  (∀ x1 z, own_rel x1 z → comm_step y' x1 = None) →
  inevitably (eq (x', y')) (x, y).
Proof using.
  intros [n Hx]%rtc_nsteps [m Hy]%rtc_nsteps Hnx Hny Hcx Hcy.
  remember (n + m) as d eqn:Hd. revert n m x y Hx Hy Hd.
  induction d as [d IH] using (well_founded_induction lt_wf). intros n m x y Hx Hy ->.
  assert (∀ x1, own_rel x x1 → inevitably (eq (x', y')) (x1, y)) as Hown_x.
  { intros x1 Ho. destruct Hx as [|n ? x2 ? Ho2 Hx]; [by apply Hnx in Ho|].
    rewrite (own_rel_det _ _ _ Ho Ho2). eapply (IH (n + m)); [lia|done|done|done]. }
  assert (∀ y1, own_rel y y1 → inevitably (eq (x', y')) (x, y1)) as Hown_y.
  { intros y1 Ho. destruct Hy as [|m ? y2 ? Ho2 Hy]; [by apply Hny in Ho|].
    rewrite (own_rel_det _ _ _ Ho Ho2). eapply (IH (n + m)); [lia|done|done|done]. }
  destruct (decide (n = 0 ∧ m = 0)) as [[-> ->]|Hnm].
  { inversion Hx; inversion Hy; subst. by apply inevitably_now. }
  apply inevitably_later.
  - destruct Hx as [|n ? x1 ? Ho _]; [destruct Hy as [|m ? y1 ? Ho _]; [lia|]|];
      eexists; apply pair_step_own; eauto 10.
  - intros q [(x1 & Ho & ->)|[(y1 & Ho & ->)|[Hc|(r & Hc & ->)]]]%pair_step_own; [auto|auto|..].
    + destruct Hx as [|n ? x1 ? Ho _]; [|by rewrite (own_not_posted _ _ _ Ho) in Hc].
      destruct Hy as [|m ? y1 ? Ho _]; [lia|]. by rewrite (Hcx _ _ Ho) in Hc.
    + destruct Hy as [|m ? y1 ? Ho _]; [|by rewrite (own_not_posted _ _ _ Ho) in Hc].
      destruct Hx as [|n ? x1 ? Ho _]; [lia|]. by rewrite (Hcy _ _ Ho) in Hc.
Qed.

(** A request that needs a receive waits for the other side to come to it. *)
Lemma sending_waits x op v f y z :
  sending x op v f → needs_recv (swr_opcode (expected_wr op v 0)) = true →
  own_rel y z → comm_step x y = None.
Proof using L.
  intros [Hp Hc] Hn Ho. unfold comm_step. rewrite Hp, Hc, (own_no_recv _ _ Ho). simpl.
  by rewrite (fab_exec_wait _ _ _ Hn).
Qed.

(** An idle side does nothing by itself and has posted no request. *)
Lemma idle_settled u : side_idle u = true → ∀ z, ¬ own_rel u z.
Proof using.
  destruct u as [c w n o]. unfold side_idle, side_done, side_receiving, own_rel, wake_step,
    local_step. simpl. destruct c as [| |[]], w; naive_solver.
Qed.
Lemma idle_no_comm u z : side_idle u = true → comm_step u z = None.
Proof using.
  destruct u as [c w n o]. unfold side_idle, side_done, side_receiving, comm_step. simpl.
  by destruct c as [| |[]], w.
Qed.

(** Two sides that come to their ends by themselves. *)
Lemma settle_idle x y x' y' :
  rtc own_rel x x' → rtc own_rel y y' → side_idle x' = true → side_idle y' = true →
  inevitably (eq (x', y')) (x, y).
Proof using.
  intros Hx Hy Hix Hiy. apply settle; auto using idle_settled, idle_no_comm.
Qed.

Lemma inevitably_swap (Q : side * side → Prop) p :
  inevitably (λ q, Q (swap q)) p → inevitably Q (swap p).
Proof.
  intros Hp. induction Hp as [p HQ|p [q Hq] _ IH]; [by apply inevitably_now|].
  assert (∀ p q : side * side, pair_step p q → pair_step (swap p) (swap q)) as Hswap.
  { intros [x y] [x' y'] Hs%pair_step_own. apply pair_step_own.
    destruct Hs as [(z & Ho & [= -> ->])|[(z & Ho & [= -> ->])|[Hc|([] & Hc & [= -> ->])]]];
      eauto 10. }
  apply inevitably_later; [eauto|]. intros [x y] Hr. apply (IH (y, x)).
  destruct p. apply (Hswap _ _ Hr).
Qed.

(** Both run by themselves, and one's request is executed with the other's receive. *)
Definition meet (x y : side) : option (side * side) :=
  match s_pending x, s_code x, posted_recv y with
  | None, Await (AwaitSend op v) _, Some r =>
      match rc_exec (expected_wr op v 0) (Some r) (s_node x) (s_node y) with
      | Some (wc, Some (n, imm), nx, ny) =>
          if needs_recv (swr_opcode (expected_wr op v 0)) &&
             bool_decide (wc_status wc = IBV_WC_SUCCESS)
          then Some (Side (s_code x) (Some (AnsZ (expected_result op v wc))) nx (s_out x),
                     Side (s_code y) (Some (AnsRecv n imm)) ny (s_out y))
          else None
      | _ => None
      end
  | _, _, _ => None
  end.

Lemma meet_inevitably x y x' y' q :
  rtc own_rel x x' → rtc own_rel y y' → meet x' y' = Some q → inevitably (eq q) (x, y).
Proof using L.
  unfold meet. intros Hx Hy Hm.
  destruct (s_pending x') eqn:Hpx; [done|]. destruct (s_code x') as [| |[] f] eqn:Hcx; try done.
  destruct (posted_recv y') as [r|] eqn:Hr; [|done].
  destruct (rc_exec _ _ _ _) as [[[[wc [[n imm]|]] nx] ny]|] eqn:Hx'; [|done..].
  destruct (needs_recv _) eqn:Hn; [|done]. simpl in Hm. case_bool_decide as Hst; [|done].
  simplify_eq.
  assert (∃ w g, s_pending y' = None ∧ s_code y' = Await (AwaitRecv w) g) as (w & g & Hpy & Hcy).
  { unfold posted_recv in Hr. destruct (s_pending y'); [done|].
    destruct (s_code y') as [| |[]]; naive_solver. }
  eapply inevitably_bind.
  { apply (settle x y x' y'); [done|done|..].
    - intros z. by eapply sending_settled.
    - intros z. by eapply receiving_settled.
    - intros y1 z. by eapply sending_waits.
    - intros x1 z _. by eapply receiving_no_comm. }
  intros ? <-.
  assert (comm_step x' y' = Some
    (Side (s_code x') (Some (AnsZ (expected_result op v wc))) nx (s_out x'),
     Side (s_code y') (Some (AnsRecv n imm)) ny (s_out y'))) as Hc.
  { unfold comm_step. rewrite Hpx, Hcx, Hr. rewrite (fab_exec_valid _ _ _ _ _ Hx'). simpl.
    unfold send_answer. by rewrite Hst, check_wc_status_ok. }
  rewrite Hcx in Hc. apply inevitably_later.
  - eexists. apply pair_step_own. eauto.
  - intros q [(x1 & Ho & _)|[(y1 & Ho & _)|[Hq|(r' & Hq & _)]]]%pair_step_own.
    + by eapply sending_settled in Ho.
    + by eapply receiving_settled in Ho.
    + apply inevitably_now. congruence.
    + by erewrite receiving_no_comm in Hq.
Qed.

Lemma meet_inevitably_swap x y x' y' q :
  rtc own_rel x x' → rtc own_rel y y' → meet y' x' = Some q → inevitably (eq (swap q)) (x, y).
Proof using L.
  intros Hx Hy Hm. apply (inevitably_swap _ (y, x)).
  eapply inevitably_impl; [by eapply meet_inevitably|]. by intros ? <-.
Qed.

(** ** Loops

    Code that posts a request, or a receive, and goes on once it is completed; [out] is what
    it prints on the way. *)
Definition sends (c : coro unit) (op : send_op) (v : mr_view) (out : list (string * list Z))
    (c' : coro unit) : Prop :=
  ∃ f, ∀ n o,
    rtc own_rel (Side c None n o) (Side (Await (AwaitSend op v) f) None n o) ∧
    ∀ z n', rtc own_rel (Side (Await (AwaitSend op v) f) (Some (AnsZ z)) n' o)
                        (Side c' None n' (o ++ out)).
Definition receives (c : coro unit) (w : mr_view) (len : Z) (imm : option Z)
    (out : list (string * list Z)) (c' : coro unit) : Prop :=
  ∃ f, ∀ n o,
    rtc own_rel (Side c None n o) (Side (Await (AwaitRecv w) f) None n o) ∧
    ∀ n', rtc own_rel (Side (Await (AwaitRecv w) f) (Some (AnsRecv len imm)) n' o)
                      (Side c' None n' (o ++ out)).

(** One round. *)
Lemma round c op v outx c' d w len imm outy d' x y nx ny ox oy wc nx' ny' :
  sends c op v outx c' → receives d w len imm outy d' →
  needs_recv (swr_opcode (expected_wr op v 0)) = true →
  rc_exec (expected_wr op v 0) (Some (expected_recv_wr w 0)) nx ny =
    Some (wc, Some (len, imm), nx', ny') →
  wc_status wc = IBV_WC_SUCCESS →
  rtc own_rel x (Side c None nx ox) → rtc own_rel y (Side d None ny oy) →
  inevitably (λ q, rtc own_rel q.1 (Side c' None nx' (ox ++ outx)) ∧
                   rtc own_rel q.2 (Side d' None ny' (oy ++ outy))) (x, y).
Proof using L.
  intros (f & Hf) (g & Hg) Hn He Hst Hx Hy.
  destruct (Hf nx ox) as [Hpost _]. destruct (Hg ny oy) as [Hwait _].
  eapply inevitably_impl.
  - eapply meet_inevitably; [by etrans|by etrans|].
    unfold meet. simpl. rewrite He, Hn, Hst. reflexivity.
  - intros ? <-. split; [apply (Hf nx' ox)|apply (Hg ny' oy)].
Qed.

(** What [n] rounds print, from round [i] on. *)
Fixpoint outs (n : nat) (i : Z) (f : Z → list (string * list Z)) : list (string * list Z) :=
  match n with
  | O => []
  | S n => f i ++ outs n (i + 1)%Z f
  end.

Lemma outs_nil k i : outs k i (λ _, []) = [].
Proof using. revert i. by induction k; intros i; simpl. Qed.
Lemma outs_const k i l : outs k i (λ _, [l]) = replicate k l.
Proof using. revert i. induction k as [|k IH]; intros i; simpl; [done|]. by rewrite IH. Qed.

(** [X n i] is the code of the loop with [n] rounds left, at round [i]. *)
Section loop.
Context (X Y : nat → Z → coro unit) (op : Z → send_op) (v w : mr_view) (len : Z)
  (imm : Z → option Z) (outx outy : Z → list (string * list Z)) (Inv : Z → node → node → Prop).
Hypothesis Hx : ∀ n i, sends (X (S n) i) (op i) v (outx i) (X n (i + 1)%Z).
Hypothesis Hy : ∀ n i, receives (Y (S n) i) w len (imm i) (outy i) (Y n (i + 1)%Z).
Hypothesis Hrecv : ∀ i, needs_recv (swr_opcode (expected_wr (op i) v 0)) = true.
Hypothesis Hexec : ∀ i nx ny, Inv i nx ny →
  ∃ wc nx' ny',
    rc_exec (expected_wr (op i) v 0) (Some (expected_recv_wr w 0)) nx ny =
      Some (wc, Some (len, imm i), nx', ny') ∧
    wc_status wc = IBV_WC_SUCCESS ∧ Inv (i + 1)%Z nx' ny'.

Lemma loop n i x y nx ny ox oy :
  Inv i nx ny →
  rtc own_rel x (Side (X n i) None nx ox) → rtc own_rel y (Side (Y n i) None ny oy) →
  inevitably (λ q, ∃ nx' ny', Inv (i + Z.of_nat n)%Z nx' ny' ∧
      rtc own_rel q.1 (Side (X 0 (i + Z.of_nat n)%Z) None nx' (ox ++ outs n i outx)) ∧
      rtc own_rel q.2 (Side (Y 0 (i + Z.of_nat n)%Z) None ny' (oy ++ outs n i outy)))
    (x, y).
Proof using L Hx Hy Hrecv Hexec.
  revert i x y nx ny ox oy.
  induction n as [|n IH]; intros i x y nx ny ox oy HI Hrx Hry.
  - apply inevitably_now. exists nx, ny. rewrite Z.add_0_r. simpl. rewrite !app_nil_r. done.
  - destruct (Hexec i nx ny HI) as (wc & nx' & ny' & He & Hst & HI').
    eapply inevitably_bind; [by eapply round|].
    intros [x' y'] [Hx' Hy'].
    eapply inevitably_impl; [by apply (IH (i + 1)%Z _ _ nx' ny')|]. simpl.
    intros q (nx2 & ny2 & HI2 & Hq). exists nx2, ny2.
    rewrite <- !(assoc_L (++)) in Hq.
    by replace (i + Z.of_nat (S n))%Z with (i + 1 + Z.of_nat n)%Z by lia.
Qed.
End loop.

(** ** Requests that need no receive

    The other side may be anywhere on its way to where it waits; the request is executed
    there, and changes nothing it has. *)

(** All states [y] goes through by itself satisfy [P]; it posts no request there. *)
Definition on_the_way (y y' : side) (P : side → Prop) : Prop :=
  rtc own_rel y y' ∧ side_receiving y' = true ∧ ∀ z, rtc own_rel y z → P z ∧ rtc own_rel z y'.

Lemma on_the_way_step y y' P z : on_the_way y y' P → rtc own_rel y z → on_the_way z y' P.
Proof using.
  intros (Hy & Hr & HP) Hz. destruct (HP z Hz) as [_ Hzy]. split_and!; [done|done|].
  intros u Hu. apply HP. by etrans.
Qed.

(** A side that goes its way to a receive posts nothing before. *)
Lemma own_chain_no_comm z y' u :
  rtc own_rel z y' → side_receiving y' = true → comm_step z u = None.
Proof using.
  intros Hz Hr. destruct Hz as [z|z z1 ? Ho _].
  - apply idle_no_comm. unfold side_idle. rewrite Hr. apply orb_true_r.
  - by eapply own_not_posted in Ho.
Qed.

Lemma one_sided op v f wc n o y y' x :
  rtc own_rel x (Side (Await (AwaitSend op v) f) None n o) →
  wc_status wc = IBV_WC_SUCCESS →
  on_the_way y y' (λ z,
    ∀ r, rc_exec (expected_wr op v 0) r n (s_node z) = Some (wc, None, n, s_node z)) →
  inevitably (λ q, rtc own_rel y q.2 ∧
    q.1 = Side (Await (AwaitSend op v) f) (Some (AnsZ (expected_result op v wc))) n o) (x, y).
Proof using L.
  intros Hx Hst Hy. remember (Side (Await (AwaitSend op v) f) None n o) as xs eqn:Hxs.
  assert (∀ x1, ¬ own_rel xs x1) as Hsettled by (intros x1 [Ho|Ho]; by subst xs).
  apply rtc_nsteps in Hx as [a Hx]. destruct (Hy) as ([b Hb]%rtc_nsteps & Hr & _).
  assert (side_idle y' = true) as Hri by (unfold side_idle; rewrite Hr; apply orb_true_r).
  remember (a + b) as d eqn:Hd. revert a b x y Hx Hb Hy Hd.
  induction d as [d IH] using (well_founded_induction lt_wf). intros a b x y Hx Hb Hy ->.
  assert (∀ x1, own_rel x x1 → inevitably (λ q, rtc own_rel y q.2 ∧
    q.1 = Side (Await (AwaitSend op v) f) (Some (AnsZ (expected_result op v wc))) n o)
    (x1, y)) as Hown_x.
  { intros x1 Ho. destruct Hx as [|a ? x2 ? Ho2 Hx]; [by apply Hsettled in Ho|].
    rewrite (own_rel_det _ _ _ Ho Ho2). eapply (IH (a + b)); [lia|done..]. }
  assert (∀ y1, own_rel y y1 → inevitably (λ q, rtc own_rel y q.2 ∧
    q.1 = Side (Await (AwaitSend op v) f) (Some (AnsZ (expected_result op v wc))) n o)
    (x, y1)) as Hown_y.
  { intros y1 Ho. destruct Hb as [|b ? y2 ? Ho2 Hb].
    { by apply (idle_settled _ Hri) in Ho. }
    assert (y2 = y1) as -> by exact (own_rel_det _ _ _ Ho2 Ho).
    eapply inevitably_impl; [eapply (IH (a + b)); [lia|done|done| |done]|].
    - eapply on_the_way_step; [done|]. by apply rtc_once.
    - intros q [Hq ?]. split; [|done]. by eapply rtc_l. }
  assert (∀ q, comm_step y x = Some q → False) as Hno.
  { intros q Hq. by erewrite (own_chain_no_comm y y') in Hq; [|apply Hy|]. }
  destruct Hx as [|a x x1 ? Ho Hx].
  - assert (comm_step x y =
      Some (Side (Await (AwaitSend op v) f) (Some (AnsZ (expected_result op v wc))) n o, y)) as Hc.
    { destruct Hy as (_ & _ & Hy). destruct (Hy y (rtc_refl _ _)) as [He _].
      subst x. unfold comm_step. simpl. rewrite (fab_exec_valid _ _ _ _ _ (He _)). simpl.
      unfold send_answer. rewrite Hst, check_wc_status_ok. by destruct y. }
    apply inevitably_later; [eexists; apply pair_step_own; eauto|].
    intros q [(x1 & Ho & ->)|[(y1 & Ho & ->)|[Hq|(r & Hq & ->)]]]%pair_step_own;
      [auto|auto| |by apply Hno in Hq].
    apply inevitably_now. rewrite Hc in Hq. by simplify_eq/=.
  - apply inevitably_later; [eexists; apply pair_step_own; eauto|].
    intros q [(x2 & Ho2 & ->)|[(y1 & Ho2 & ->)|[Hq|(r & Hq & ->)]]]%pair_step_own;
      [auto|auto| |by apply Hno in Hq].
    by rewrite (own_not_posted _ _ _ Ho) in Hq.
Qed.

Section one_sided_loop.
Context (X : nat → Z → coro unit) (op : Z → send_op) (v : mr_view) (wc : Z → ibv_wc)
  (outx : Z → list (string * list Z)) (n : node) (y' : side).
Hypothesis Hx : ∀ k i, sends (X (S k) i) (op i) v (outx i) (X k (i + 1)%Z).
Hypothesis Hst : ∀ i, wc_status (wc i) = IBV_WC_SUCCESS.

Lemma one_sided_loop k i x y ox :
  on_the_way y y' (λ z, ∀ i r,
    rc_exec (expected_wr (op i) v 0) r n (s_node z) = Some (wc i, None, n, s_node z)) →
  rtc own_rel x (Side (X k i) None n ox) →
  inevitably (λ q, rtc own_rel y q.2 ∧
      rtc own_rel q.1 (Side (X 0 (i + Z.of_nat k)%Z) None n (ox ++ outs k i outx))) (x, y).
Proof using L Hx Hst.
  revert i x y ox. induction k as [|k IH]; intros i x y ox Hy Hrx.
  - apply inevitably_now. rewrite Z.add_0_r. simpl. by rewrite app_nil_r.
  - destruct (Hx k i) as (f & Hf). destruct (Hf n ox) as [Hpost Hdone].
    eapply inevitably_bind.
    + eapply (one_sided (op i) v f (wc i) n ox y y'); [by etrans|done|].
      destruct Hy as (? & ? & HP). split_and!; [done|done|]. intros z Hz.
      destruct (HP z Hz). split; [|done]. auto.
    + intros [x1 y1] [Hy1 Hx1]. simpl in Hy1, Hx1. subst x1.
      eapply inevitably_impl; [apply (IH (i + 1)%Z _ _ (ox ++ outx i));
        [by eapply on_the_way_step|apply Hdone]|].
      intros q [Hq Hq']. split; [by etrans|]. rewrite <- (assoc_L (++)) in Hq'.
      by replace (i + Z.of_nat (S k))%Z with (i + 1 + Z.of_nat k)%Z by lia.
Qed.
End one_sided_loop.
End lockstep.
