(* ===== verification/Latency.v ===== *)
(** * The latency benchmark (examples/latency.cc), and what it shares with latency_raw.cc

    The number of messages, [kSendCount], is a parameter: it depends on the build.  The
    durations that are printed are left out; the buffers, which the source does not
    initialise, hold zeros. *)

From S2P Require Import Prelude Verbs RefNic Errors Serdes Device Resources Mr Qp Operations.
From S2P Require Import Coro Lockstep.
From stdpp Require Import options.

Definition kMessageSize : nat := 4096.
Definition uninitialised : bytes := replicate kMessageSize Byte.x00.
Definition filled : bytes := replicate kMessageSize Byte.xdd.

(** [mr_view(local_mr, 0, kSerializedSize)] and [deserialize] at its address. *)
Definition await_recv_view (v : mr_view) : coro (Z * option Z) := ask_recv (AwaitRecv v).

(** ** What both benchmarks do after the handshake

    The client's buffer and the server's are the first objects of their sides, with these
    registrations; [server_node data]: the server's buffer holds [data]. *)

Definition mr_x : ibv_mr := IbvMr 2 block 4096 4 5.
Definition view_x : mr_view := MrView block 4096 4.
Definition remote_y : remote_mr := RemoteMr block 4096 5.
Definition op1 (i : Z) : send_op := OpWriteImm (remote_whole remote_y) (u32 i).

Definition client_node : node := Node {[1%Z := filled]} {[2%Z := (block, 4096%Z)]} 3.
Definition server_node {H : Host} (data : bytes) : node :=
  Node {[3%Z := (local_mr_serialize (owner mr_x) []).2; 1%Z := data]}
       {[2%Z := (block, 4096%Z)]} 5.
Definition deregistered (nd : node) : node :=
  Node (n_heap nd) (delete 2%Z (n_regions nd)) (n_next nd).

Lemma write_exec {H : Host} i data :
  data = uninitialised ∨ data = filled →
  rc_exec (expected_wr (op1 i) view_x 0) (Some (expected_recv_wr mr_view_null 0))
      client_node (server_node data) =
    Some (IbvWc 0 IBV_WC_SUCCESS 4096 0 0, Some (4096%Z, Some (u32 i)), client_node,
          server_node filled).
Proof. destruct H as [[]]; intros [-> | ->]; reflexivity. Qed.

Lemma send_exec {H : Host} data :
  data = uninitialised ∨ data = filled →
  rc_exec (expected_wr OpSend view_x 0) (Some (expected_recv_wr view_x 0))
      client_node (server_node data) =
    Some (IbvWc 0 IBV_WC_SUCCESS 4096 0 0, Some (4096%Z, None), client_node,
          server_node filled).
Proof. destruct H as [[]]; intros [-> | ->]; reflexivity. Qed.

(** After [i] messages. *)
Definition stream_inv {H : Host} (i : Z) (nx ny : node) : Prop :=
  nx = client_node ∧ ∃ data, ny = server_node data ∧ (data = uninitialised ∨ data = filled) ∧
    ((0 < i)%Z → data = filled).

(** [n] writes with immediate data and then [n] sends, whatever the server prints on the
    way. *)
Section stream.
Context {H : Host} {V : Verbs} {F : Fabric} {L : FabricLaws F} (n : nat).
Context (X1 Y1 X2 Y2 : nat → Z → coro unit) (out1 out2 : Z → list (string * list Z))
  (between after : list (string * list Z)).
Hypothesis HX1 : ∀ k i, sends (X1 (S k) i) (op1 i) view_x [] (X1 k (i + 1)).
Hypothesis HY1 : ∀ k i, receives (Y1 (S k) i) mr_view_null 4096 (Some (u32 i)) (out1 i) (Y1 k (i + 1)).
Hypothesis HX2 : ∀ k i, sends (X2 (S k) i) OpSend view_x [] (X2 k (i + 1)).
Hypothesis HY2 : ∀ k i, receives (Y2 (S k) i) view_x 4096 None (out2 i) (Y2 k (i + 1)).
Hypothesis HX12 : ∀ i nd o, rtc own_rel (Side (X1 0 i) None nd o) (Side (X2 n 0) None nd o).
Hypothesis HY12 : ∀ i nd o,
  rtc own_rel (Side (Y1 0 i) None nd o) (Side (Y2 n 0) None nd (o ++ between)).
Hypothesis HX2_end : ∀ i nd o,
  rtc own_rel (Side (X2 0 i) None nd o) (Side (Done tt) None (deregistered nd) o).
Hypothesis HY2_end : ∀ i nd o,
  rtc own_rel (Side (Y2 0 i) None nd o) (Side (Done tt) None (deregistered nd) (o ++ after)).

Lemma stream_inevitably x y ox oy :
  rtc own_rel x (Side (X1 n 0) None client_node ox) →
  rtc own_rel y (Side (Y1 n 0) None (server_node uninitialised) oy) →
  inevitably (λ q, ∃ nx ny, stream_inv (2 * Z.of_nat n) nx ny ∧
      q = (Side (Done tt) None (deregistered nx) ox,
           Side (Done tt) None (deregistered ny)
             (oy ++ outs n 0 out1 ++ between ++ outs n 0 out2 ++ after))) (x, y).
Proof using All.
  intros Hx Hy. eapply inevitably_bind.
  { refine (loop X1 Y1 op1 view_x mr_view_null 4096 (λ i, Some (u32 i)) (λ _, []) out1 stream_inv
             HX1 HY1 (λ _, eq_refl) _ n 0 _ _ _ _ _ _ _ Hx Hy).
    - intros i nx ny (-> & data & -> & Hd & _).
      eexists _, _, _. split; [by apply write_exec|]. split; [done|].
      split; [done|]. exists filled. auto.
    - split; [done|]. exists uninitialised. split_and!; [done|by left|lia]. }
  intros [x1 y1] (nx & ny & HI & Hx1 & Hy1). rewrite outs_nil, app_nil_r in Hx1. simpl in *.
  eapply inevitably_bind.
  { refine (loop X2 Y2 (λ _, OpSend) view_x view_x 4096 (λ _, None) (λ _, []) out2
             (λ i, stream_inv (Z.of_nat n + i)) HX2 HY2 (λ _, eq_refl) _ n 0 _ _ _ _ _ _ _ _ _).
    - intros i nx' ny' (-> & data & -> & Hd & _).
      eexists _, _, _. split; [by apply send_exec|]. split; [done|].
      split; [done|]. exists filled. auto.
    - rewrite Z.add_0_r. exact HI.
    - etrans; [exact Hx1|apply HX12].
    - etrans; [exact Hy1|apply HY12]. }
  intros [x2 y2] (nx2 & ny2 & HI2 & Hx2 & Hy2). rewrite outs_nil, app_nil_r in Hx2. simpl in *.
  eapply inevitably_impl.
  { eapply settle_idle; [etrans; [exact Hx2|apply HX2_end]|etrans; [exact Hy2|apply HY2_end]|done..]. }
  intros ? <-. exists nx2, ny2. split; [by replace (2 * Z.of_nat n)%Z with
    (Z.of_nat n + (0 + Z.of_nat n))%Z by lia|]. by rewrite <- !(assoc_L (++)).
Qed.

(** The whole program, from its first meeting on. *)
Lemma stream_terminates cx cy x0 y0 m a b ox oy :
  rtc own_rel (side_init cx) x0 → rtc own_rel (side_init cy) y0 → meet y0 x0 = Some m →
  solo a m.2 = Side (X1 n 0) None client_node ox →
  solo b m.1 = Side (Y1 n 0) None (server_node uninitialised) oy →
  terminates_in
    (λ q, finished q.1 ∧ finished q.2 ∧
          n_regions (s_node q.1) = ∅ ∧ n_regions (s_node q.2) = ∅ ∧
          (0 < n → heap_read block 4096 (s_node q.2) = Some filled) ∧
          s_out q.1 = ox ∧
          s_out q.2 = oy ++ outs n 0 out1 ++ between ++ outs n 0 out2 ++ after)
    (side_init cx, side_init cy).
Proof using All.
  intros Hx0 Hy0 Hmeet Hx Hy. apply inevitably_terminates.
  2:{ intros [x y] q (Hfx & Hfy & _). by apply finished_stuck. }
  eapply inevitably_bind; [by eapply meet_inevitably_swap|]. intros ? <-.
  eapply inevitably_impl; [by eapply stream_inevitably; eapply solo_to|].
  intros q (nx & ny & (-> & data & -> & _ & Hfull) & ->). simpl.
  split_and!; try done. intros Hn. rewrite (Hfull ltac:(lia)). reflexivity.
Qed.
End stream.

(** ** examples/latency.cc *)

Section programs.
Context {H : Host} {B : Build} (kSendCount : nat).

Definition report (what : string) : coro unit :=
  perform (Print (what +:+ " total operations: {}") [Z.of_nat kSendCount]) ;;
  perform (Print (what +:+ " total time: {}ms") []) ;;
  perform (Print (what +:+ " average time per operation: {:.3f}ms") []).

Definition handler : coro unit :=
  buffer ← buffer_of uninitialised;
  local_mr ← coro_reg_mr buffer;
  coro_raii
    (local_mr_serialized ← serialized_mr local_mr;
     await_op_span OpSend local_mr_serialized ;;
     perform (Print "server: local buffer sent" []) ;;
     coro_for kSendCount 0 (λ i, await_recv_nothing ;; mret tt) ;;
     report "[write_with_imm/recv]" ;;
     coro_for kSendCount 0 (λ i, await_recv local_mr ;; mret tt) ;;
     report "[send/recv]")
    (perform (DeregMr local_mr)).

Definition client_worker : coro unit :=
  buffer ← buffer_of uninitialised;
  local_mr ← coro_reg_mr buffer;
  coro_raii
    (remote_mr_serialized ← slice local_mr 0 (Z.of_nat kSerializedSize_mr);
     '(nbytes, _) ← await_recv_view remote_mr_serialized;
     coro_assert (bool_decide (nbytes = Z.of_nat kSerializedSize_mr)) ;;
     remote_mr ← deserialized_mr (view_span remote_mr_serialized).1;
     perform (Print "client: remote buffer recv" []) ;;
     perform (Store buffer.1 filled) ;;
     coro_for kSendCount 0 (λ i,
       await_op (OpWriteImm (remote_whole remote_mr) (u32 i)) local_mr ;; mret tt) ;;
     coro_for kSendCount 0 (λ i, await_op OpSend local_mr ;; mret tt))
    (perform (DeregMr local_mr)).
End programs.

Section states.
Context {H : Host} {B : Build} (n : nat).

(** From the start to the loops. *)
Definition client0 : side := solo 3 (side_init (client_worker n)).
Definition server0 : side := solo 4 (side_init (handler n)).

(** The loops: [X] of the client, [Y] of the server, first writes and then sends. *)
Definition X1 (k : nat) (i : Z) : coro unit :=
  coro_raii
    (coro_for k i (λ i, await_op (OpWriteImm (remote_whole remote_y) (u32 i)) mr_x ;; mret tt) ;;
     coro_for n 0 (λ i, await_op OpSend mr_x ;; mret tt))
    (perform (DeregMr mr_x)).
Definition Y1 (k : nat) (i : Z) : coro unit :=
  coro_raii
    (coro_for k i (λ i, await_recv_nothing ;; mret tt) ;;
     report n "[write_with_imm/recv]" ;;
     coro_for n 0 (λ i, await_recv mr_x ;; mret tt) ;;
     report n "[send/recv]")
    (perform (DeregMr mr_x)).

Definition met : side * side := default (server0, client0) (meet server0 client0).
End states.

Section facts.
Context {H : Host} {B : Build} (n : nat).

Lemma handshake :
  meet (server0 n) (client0 n) = Some (met n) ∧
  solo 4 (met n).2 = Side (X1 n n 0) None client_node [("client: remote buffer recv", [])] ∧
  solo 3 (met n).1 =
    Side (Y1 n n 0) None (server_node uninitialised) [("server: local buffer sent", [])].
Proof. destruct H as [[]]; split_and!; reflexivity. Qed.

(** The loops of sends and receives that follow. *)
Definition X2 (k : nat) (i : Z) : coro unit :=
  coro_raii (coro_for k i (λ i, await_op OpSend mr_x ;; mret tt)) (perform (DeregMr mr_x)).
Definition Y2 (k : nat) (i : Z) : coro unit :=
  coro_raii
    (coro_for k i (λ i, await_recv mr_x ;; mret tt) ;; report n "[send/recv]")
    (perform (DeregMr mr_x)).

Lemma X1_sends k i : sends (X1 n (S k) i) (op1 i) view_x [] (X1 n k (i + 1)).
Proof. eexists. intros nd o. split; [apply rtc_refl|]. intros z nd'. rewrite app_nil_r.
  apply rtc_once. by left. Qed.

Lemma Y1_receives k i imm :
  receives (Y1 n (S k) i) mr_view_null 4096 imm [] (Y1 n k (i + 1)).
Proof. eexists. intros nd o. split; [apply rtc_refl|]. intros nd'. rewrite app_nil_r.
  apply rtc_once. by left. Qed.

Lemma X2_sends k i : sends (X2 (S k) i) OpSend view_x [] (X2 k (i + 1)).
Proof. eexists. intros nd o. split; [apply rtc_refl|]. intros z nd'. rewrite app_nil_r.
  apply rtc_once. by left. Qed.

Lemma Y2_receives k i : receives (Y2 (S k) i) view_x 4096 None [] (Y2 k (i + 1)).
Proof. eexists. intros nd o. split; [apply rtc_refl|]. intros nd'. rewrite app_nil_r.
  apply rtc_once. by left. Qed.

Definition report_lines (what : string) : list (string * list Z) :=
  [(what +:+ " total operations: {}", [Z.of_nat n]); (what +:+ " total time: {}ms", []);
   (what +:+ " average time per operation: {:.3f}ms", [])].
End facts.

(** For any number of messages, every execution of the latency benchmark terminates
    with both coroutines finished and both regions deregistered: each of the [n] writes
    with immediate data and [n] sends is answered by a receive of the server, none is lost
    or left over; the server's buffer then holds the bytes the client filled its own with. *)
Theorem latency_runs (H : Host) (B : Build) (V : Verbs) (F : Fabric) (L : FabricLaws F)
    (kSendCount : nat) :
  terminates_in
    (λ q, finished q.1 ∧ finished q.2 ∧
          n_regions (s_node q.1) = ∅ ∧ n_regions (s_node q.2) = ∅ ∧
          (0 < kSendCount → heap_read block 4096 (s_node q.2) = Some filled) ∧
          s_out q.1 = [("client: remote buffer recv", [])] ∧
          s_out q.2 = ("server: local buffer sent", []) ::
            report_lines kSendCount "[write_with_imm/recv]" ++
            report_lines kSendCount "[send/recv]")
    (side_init (client_worker kSendCount), side_init (handler kSendCount)).
Proof.
  destruct (handshake kSendCount) as (Hmeet & Hx & Hy).
  eapply terminates_impl.
  - eapply (stream_terminates kSendCount (X1 kSendCount) (Y1 kSendCount) X2 (Y2 kSendCount)
      (λ _, []) (λ _, [])
      (report_lines kSendCount "[write_with_imm/recv]") (report_lines kSendCount "[send/recv]"));
      eauto using X1_sends, Y1_receives, X2_sends, Y2_receives, solo_own.
    + intros i nd o. apply rtc_refl.
    + intros i nd o. by eapply (solo_to 3); [reflexivity|simpl; rewrite <- !(assoc_L (++))].
    + intros i nd o. by eapply (solo_to 1); [reflexivity|simpl; rewrite app_nil_r].
    + intros i nd o.
      by eapply (solo_to 4); [reflexivity|simpl; rewrite app_nil_r, <- !(assoc_L (++))].
  - intros q. by rewrite ?outs_nil.
Qed.

Lemma latency_runs_witness :
  terminates_in (V:=good) (F:=wit_fabric)
    (λ q, finished q.1 ∧ finished q.2 ∧
          n_regions (s_node q.1) = ∅ ∧ n_regions (s_node q.2) = ∅ ∧
          (0 < 100 → heap_read block 4096 (s_node q.2) = Some filled) ∧
          s_out q.1 = [("client: remote buffer recv", [])] ∧
          s_out q.2 = ("server: local buffer sent", []) ::
            report_lines 100 "[write_with_imm/recv]" ++ report_lines 100 "[send/recv]")
    (side_init (client_worker (H:=wit_host) (B:=wit_debug) 100),
     side_init (handler (H:=wit_host) (B:=wit_debug) 100)).
Proof.
  exact (latency_runs wit_host wit_debug good wit_fabric (rc_fabric_laws (H:=wit_host)) 100).
Defined.
