(* ===== verification/LatencyRaw.v ===== *)
(** * The latency benchmark on native awaitables (examples/latency_raw.cc)

    The client's code is that of [Latency] but for one line of output; the server also shows
    a line for every batch of receives. *)

From S2P Require Import Prelude Verbs RefNic Errors Serdes Device Resources Mr Qp Operations.
From S2P Require Import Coro Lockstep Latency.
From stdpp Require Import options.

Definition kBatchSize : Z := 100000.
Definition at_batch (i : Z) : bool := bool_decide (i ≠ 0%Z) && bool_decide (i mod kBatchSize = 0)%Z.

Section programs.
Context {H : Host} {B : Build} (kSendCount : nat).

Definition report (what : string) : coro unit :=
  perform (Print (what +:+ " total operations: {}") [Z.of_nat kSendCount]) ;;
  perform (Print (what +:+ " total time: {}us") []) ;;
  perform (Print (what +:+ " average time per operation: {:.3f}us") []).

Definition batch_line (what : string) (i : Z) : string * list Z :=
  (what +:+ " batch {:7d}: avg latency {:.3f}us", [i]).
Definition report_batch (what : string) (i : Z) : coro unit :=
  if at_batch i then perform (Print (batch_line what i).1 (batch_line what i).2) else mret tt.

Definition qp_handler : coro unit :=
  buffer ← buffer_of uninitialised;
  local_mr ← coro_reg_mr buffer;
  coro_raii
    (local_mr_serialized ← serialized_mr local_mr;
     await_op_span OpSend local_mr_serialized ;;
     perform (Print "server: local buffer sent" []) ;;
     coro_for kSendCount 0 (λ i,
       await_recv_nothing ;; report_batch "[write_with_imm/recv]" i) ;;
     report "[write_with_imm/recv]" ;;
     coro_for kSendCount 0 (λ i, await_recv local_mr ;; report_batch "[send/recv]" i) ;;
     report "[send/recv]")
    (perform (DeregMr local_mr)).

Definition client_worker : coro unit :=
  buffer ← buffer_of uninitialised;
  local_mr ← coro_reg_mr buffer;
  coro_raii
    (remote_mr_serialized ← slice local_mr 0 (Z.of_nat kSerializedSize_mr);
     '(nbytes, _) ← await_recv_view remote_mr_serialized;
     coro_assert (bool_decide (nbytes = Z.of_nat kSerializedSize_mr)) ;;
     remote_mr ← deserialized_mr (view_span remote_mr_serialized).1;
     perform (Print "client: remote buffer recv, size={}" [remote_length remote_mr]) ;;
     perform (Store buffer.1 filled) ;;
     coro_for kSendCount 0 (λ i,
       await_op (OpWriteImm (remote_whole remote_mr) (u32 i)) local_mr ;; mret tt) ;;
     coro_for kSendCount 0 (λ i, await_op OpSend local_mr ;; mret tt))
    (perform (DeregMr local_mr)).
End programs.

Section states.
Context {H : Host} {B : Build} (n : nat).

Definition client0 : side := solo 3 (side_init (client_worker n)).
Definition server0 : side := solo 4 (side_init (qp_handler n)).
Definition met : side * side := default (server0, client0) (meet server0 client0).

(** The loops of the server; those of the client are those of [Latency]. *)
Definition Y1 (k : nat) (i : Z) : coro unit :=
  coro_raii
    (coro_for k i (λ i, await_recv_nothing ;; report_batch "[write_with_imm/recv]" i) ;;
     report n "[write_with_imm/recv]" ;;
     coro_for n 0 (λ i, await_recv mr_x ;; report_batch "[send/recv]" i) ;;
     report n "[send/recv]")
    (perform (DeregMr mr_x)).
Definition Y2 (k : nat) (i : Z) : coro unit :=
  coro_raii
    (coro_for k i (λ i, await_recv mr_x ;; report_batch "[send/recv]" i) ;;
     report n "[send/recv]")
    (perform (DeregMr mr_x)).
End states.

Section facts.
Context {H : Host} {B : Build} (n : nat).

Lemma raw_handshake :
  meet (server0 n) (client0 n) = Some (met n) ∧
  solo 4 (met n).2 =
    Side (Latency.X1 n n 0) None client_node
      [("client: remote buffer recv, size={}", [4096%Z])] ∧
  solo 3 (met n).1 =
    Side (Y1 n n 0) None (server_node uninitialised) [("server: local buffer sent", [])].
Proof. destruct H as [[]]; split_and!; reflexivity. Qed.

Definition batch_lines (what : string) (i : Z) : list (string * list Z) :=
  if at_batch i then [batch_line what i] else [].

Lemma Y1_raw_receives k i imm :
  receives (Y1 n (S k) i) mr_view_null 4096 imm (batch_lines "[write_with_imm/recv]" i)
    (Y1 n k (i + 1)).
Proof.
  eexists. intros nd o. split; [apply rtc_refl|]. intros nd'.
  eapply rtc_l; [by left|]. unfold batch_lines, report_batch.
  destruct (at_batch i); [by apply rtc_once; right|by rewrite app_nil_r].
Qed.

Lemma Y2_raw_receives k i :
  receives (Y2 n (S k) i) view_x 4096 None (batch_lines "[send/recv]" i) (Y2 n k (i + 1)).
Proof.
  eexists. intros nd o. split; [apply rtc_refl|]. intros nd'.
  eapply rtc_l; [by left|]. unfold batch_lines, report_batch.
  destruct (at_batch i); [by apply rtc_once; right|by rewrite app_nil_r].
Qed.

Definition report_lines (what : string) : list (string * list Z) :=
  [(what +:+ " total operations: {}", [Z.of_nat n]); (what +:+ " total time: {}us", []);
   (what +:+ " average time per operation: {:.3f}us", [])].
End facts.

(** The same of the benchmark on native awaitables, whose server also prints a line for
    every batch of 100000 receives, and nothing else on the way. *)
Theorem latency_raw_runs (H : Host) (B : Build) (V : Verbs) (F : Fabric) (L : FabricLaws F)
    (kSendCount : nat) :
  terminates_in
    (λ q, finished q.1 ∧ finished q.2 ∧
          n_regions (s_node q.1) = ∅ ∧ n_regions (s_node q.2) = ∅ ∧
          (0 < kSendCount → heap_read block 4096 (s_node q.2) = Some filled) ∧
          s_out q.1 = [("client: remote buffer recv, size={}", [4096%Z])] ∧
          s_out q.2 = ("server: local buffer sent", []) ::
            outs kSendCount 0 (batch_lines "[write_with_imm/recv]") ++
            report_lines kSendCount "[write_with_imm/recv]" ++
            outs kSendCount 0 (batch_lines "[send/recv]") ++
            report_lines kSendCount "[send/recv]")
    (side_init (client_worker kSendCount), side_init (qp_handler kSendCount)).
Proof.
  destruct (raw_handshake kSendCount) as (Hmeet & Hx & Hy).
  eapply terminates_impl.
  - eapply (stream_terminates kSendCount (Latency.X1 kSendCount) (Y1 kSendCount) Latency.X2 (Y2 kSendCount)
      (batch_lines "[write_with_imm/recv]") (batch_lines "[send/recv]")
      (report_lines kSendCount "[write_with_imm/recv]") (report_lines kSendCount "[send/recv]"));
      eauto using Latency.X1_sends, Y1_raw_receives, Latency.X2_sends, Y2_raw_receives, solo_own.
    + intros i nd o. apply rtc_refl.
    + intros i nd o. by eapply (solo_to 3); [reflexivity|simpl; rewrite <- !(assoc_L (++))].
    + intros i nd o. by eapply (solo_to 1); [reflexivity|simpl; rewrite app_nil_r].
    + intros i nd o.
      by eapply (solo_to 4); [reflexivity|simpl; rewrite app_nil_r, <- !(assoc_L (++))].
  - intros q. by rewrite ?outs_nil.
Qed.
