(* ===== verification/WriteBw.v ===== *)
(** * The write benchmark (examples/write_bw.cc)

    The coroutines of a pair, the pool of contexts they are spread over and the counters the
    reporter reads.  The number of writes, [kSendCount], is a parameter. *)

From S2P Require Import Prelude Verbs RefNic Errors Serdes Device Resources Mr Qp Operations.
From S2P Require Import Coro Lockstep.
From stdpp Require Import options.

Definition kBufferSizeBytes : Z := 1024 * 1024.

(** ** The coroutines

    An increment of [gSendCounts[id]] is shown as a line of output. *)

Section programs.
Context {H : Host} {B : Build} (kSendCount : nat).

Definition counted (id : Z) : string * list Z := ("gSendCounts[{}].fetch_add(1)", [id]).

Definition client_worker (id : Z) : coro unit :=
  buffer ← zero_buffer kBufferSizeBytes;
  local_mr ← coro_reg_mr buffer;
  coro_raii
    (remote_mr_serialized ← buffer_of (replicate kSerializedSize_mr Byte.x00);
     await_recv_span remote_mr_serialized ;;
     remote_mr ← deserialized_mr remote_mr_serialized.1;
     perform (Print "received mr addr={} length={} rkey={} from server"
                [remote_addr remote_mr; remote_length remote_mr; remote_rkey remote_mr]) ;;
     coro_for kSendCount 0 (λ i,
       await_op (OpWrite (remote_whole remote_mr)) local_mr ;;
       perform (Print (counted id).1 (counted id).2)) ;;
     await_op (OpWriteImm (remote_whole remote_mr) 0xDEADBEEF) local_mr ;;
     mret tt)
    (perform (DeregMr local_mr)).

Definition handler : coro unit :=
  buffer ← zero_buffer kBufferSizeBytes;
  local_mr ← coro_reg_mr buffer;
  coro_raii
    (local_mr_serialized ← serialized_mr local_mr;
     await_op_span OpSend local_mr_serialized ;;
     perform (Print "sent mr addr={} length={} rkey={} to client"
                [ibv_mr_addr local_mr; ibv_mr_length local_mr; ibv_mr_rkey local_mr]) ;;
     '(_, imm) ← await_recv_nothing;
     match imm with
     | None => Stop (Throw (RuntimeError "No imm received"))
     | Some imm =>
         if bool_decide (imm ≠ 0xDEADBEEF%Z)
         then Stop (Throw (RuntimeError "Wrong imm received")) else mret tt
     end)
    (perform (DeregMr local_mr)).
End programs.

Section states.
Context {H : Host} {B : Build} (n : nat) (id : Z).

Definition mr : ibv_mr := IbvMr 2 block kBufferSizeBytes 4 5.
Definition serialized : bytes := (local_mr_serialize (owner mr) []).2.
Definition remote : remote_mr := RemoteMr block kBufferSizeBytes 5.

Definition client0 : side := solo 4 (side_init (client_worker n id)).
Definition server0 : side := solo 4 (side_init handler).
Definition met : side * side := default (server0, client0) (meet server0 client0).

Definition X (k : nat) (i : Z) : coro unit :=
  coro_raii
    (coro_for k i (λ i,
       await_op (OpWrite (remote_whole remote)) mr ;;
       perform (Print (counted id).1 (counted id).2)) ;;
     await_op (OpWriteImm (remote_whole remote) 0xDEADBEEF) mr ;; mret tt)
    (perform (DeregMr mr)).
Definition Y : coro unit :=
  coro_raii
    ('(_, imm) ← await_recv_nothing;
     match imm with
     | None => Stop (Throw (RuntimeError "No imm received"))
     | Some imm =>
         if bool_decide (imm ≠ 0xDEADBEEF%Z)
         then Stop (Throw (RuntimeError "Wrong imm received")) else mret tt
     end)
    (perform (DeregMr mr)).
Definition client_node : node :=
  Node {[3%Z := serialized; 1%Z := zeros kBufferSizeBytes]} {[2%Z := (block, kBufferSizeBytes)]} 5.
Definition server_node (span : gmap Z (Z * Z)) : node :=
  Node {[3%Z := serialized; 1%Z := zeros kBufferSizeBytes]} (span ∪ {[2%Z := (block, kBufferSizeBytes)]}) 5.
End states.

Opaque zeros.

Section facts.
Context {H : Host} {B : Build} (n : nat) (id : Z).

Definition remote_line : string * list Z :=
  ("received mr addr={} length={} rkey={} from server", [block; kBufferSizeBytes; 5%Z]).

Definition sent_line : string * list Z :=
  ("sent mr addr={} length={} rkey={} to client", [block; kBufferSizeBytes; 5%Z]).

Lemma write_handshake :
  meet server0 (client0 n id) = Some (met n id) ∧
  solo 4 (met n id).2 = Side (X id n 0) None client_node [remote_line] ∧
  s_node (met n id).1 = server_node {[4%Z := (3 * block, 20)%Z]} ∧
  s_node (solo 1 (met n id).1) = server_node {[4%Z := (3 * block, 20)%Z]} ∧
  s_node (solo 2 (met n id).1) = server_node ∅ ∧
  solo 3 (met n id).1 = Side Y None (server_node ∅) [sent_line].
Proof. destruct H as [[]]; split_and!; reflexivity. Qed.

Definition view : mr_view := MrView block kBufferSizeBytes 4.
Definition wc : ibv_wc := IbvWc 0 IBV_WC_SUCCESS kBufferSizeBytes 0 0.

(** All is zero: a write changes nothing. *)
Lemma write_same span r :
  span = ∅ ∨ span = {[4%Z := (3 * block, 20)%Z]} →
  rc_exec (expected_wr (OpWrite (remote_whole remote)) view 0) r client_node (server_node span) =
    Some (wc, None, client_node, server_node span) ∧
  rc_exec (expected_wr (OpWriteImm (remote_whole remote) 0xDEADBEEF) view 0)
      (Some (expected_recv_wr mr_view_null 0)) client_node (server_node span) =
    Some (wc, Some (kBufferSizeBytes, Some 0xDEADBEEF%Z), client_node, server_node span).
Proof.
  intros Hspan.
  assert (dma_read 4 block kBufferSizeBytes false client_node = Some (zeros kBufferSizeBytes))
    as Hread.
  { unfold dma_read.
    assert (in_region 4 block kBufferSizeBytes false client_node = true) as ->
      by (vm_compute; reflexivity).
    rewrite <- (Z.mul_1_l block). rewrite <- (length_zeros kBufferSizeBytes) at 1 by done.
    by apply heap_read_whole. }
  assert (dma_write 5 block (zeros kBufferSizeBytes) true (server_node span) =
    Some (server_node span)) as Hwrite.
  { unfold dma_write. rewrite length_zeros by done.
    assert (in_region 5 block kBufferSizeBytes true (server_node span) = true) as ->
      by (destruct Hspan as [-> | ->]; vm_compute; reflexivity).
    rewrite <- (Z.mul_1_l block). assert (n_heap (server_node span) !! 1%Z = Some (zeros kBufferSizeBytes)) as Hbuf.
    { unfold server_node. generalize (zeros kBufferSizeBytes). reflexivity. }
    rewrite (heap_write_whole 1 _ _ _ Hbuf eq_refl), (insert_id _ _ _ Hbuf). done. }
  unfold rc_exec. simpl. change (v_addr_ (remote_whole remote)) with (block + 0)%Z.
  rewrite Z.add_0_r. change (v_key_ (remote_whole remote)) with 5%Z.
  change (u32 kBufferSizeBytes) with kBufferSizeBytes.
  rewrite Hread. simpl. rewrite Hwrite. split; reflexivity.
Qed.

Lemma X_sends k i :
  sends (X id (S k) i) (OpWrite (remote_whole remote)) view [counted id] (X id k (i + 1)).
Proof.
  eexists. intros nd o. split; [apply rtc_refl|]. intros z nd'.
  eapply rtc_l; [by left|]. by apply rtc_once; right.
Qed.

(** The server on the way to its receive: its buffer stays as it is. *)
Lemma server_way :
  on_the_way (met n id).1 (solo 3 (met n id).1) (λ z, ∀ (i : Z) r,
    rc_exec (expected_wr (OpWrite (remote_whole remote)) view 0) r client_node (s_node z) =
      Some (wc, None, client_node, s_node z)).
Proof.
  destruct (write_handshake) as (_ & _ & H0 & H1 & H2 & H3).
  assert (side_idle (solo 3 (met n id).1) = true) as Hidle by (rewrite H3; reflexivity).
  split_and!; [apply solo_own|rewrite H3; reflexivity|]. intros z Hz.
  destruct (solo_chain 3 _ _ Hz (idle_settled _ Hidle)) as (j & Hj & ->). split.
  - assert (∃ span, (span = ∅ ∨ span = {[4%Z := (3 * block, 20)%Z]}) ∧
      s_node (solo j (met n id).1) = server_node span) as (span & Hspan & ->).
    { destruct j as [|[|[|[|j]]]]; [| | | |lia].
      - eexists; split; [by right|exact H0].
      - eexists; split; [by right|exact H1].
      - eexists; split; [by left|exact H2].
      - eexists; split; [by left|rewrite H3; reflexivity]. }
    intros _ r. exact (proj1 (write_same span r Hspan)).
    - replace 3 with (j + (3 - j)) at 1 by lia. rewrite solo_add. apply solo_own.
Qed.

(** What is left after the last write: to deregister the buffer. *)
Definition leaving : coro unit := coro_raii (mret tt) (perform (DeregMr mr)).

Lemma X0_sends i :
  sends (X id 0 i) (OpWriteImm (remote_whole remote) 0xDEADBEEF) view [] leaving.
Proof.
  eexists. intros nd o. split; [apply rtc_refl|]. intros z nd'. rewrite app_nil_r.
  apply rtc_once. by left.
Qed.
Lemma Y_receives : receives Y mr_view_null kBufferSizeBytes (Some 0xDEADBEEF%Z) [] leaving.
Proof.
  eexists. intros nd o. split; [apply rtc_refl|]. intros nd'. rewrite app_nil_r.
  apply rtc_once. by left.
Qed.
End facts.

(** For any number of writes, every execution of the write benchmark terminates with
    both coroutines finished, no exception thrown (the server's immediate is the one it
    expects) and all regions deregistered; each write is counted once, for its worker. *)
Theorem write_bw_runs (H : Host) (B : Build) (V : Verbs) (F : Fabric) (L : FabricLaws F)
    (kSendCount : nat) (id : Z) :
  terminates_in
    (λ q, finished q.1 ∧ finished q.2 ∧
          n_regions (s_node q.1) = ∅ ∧ n_regions (s_node q.2) = ∅ ∧
          s_out q.1 = remote_line :: replicate kSendCount (counted id))
    (side_init (client_worker kSendCount id), side_init handler).
Proof.
  set (n := kSendCount). destruct (write_handshake n id) as (Hmeet & Hx & _ & _ & _ & H3).
  apply inevitably_terminates.
  2:{ intros [x y] q (Hfx & Hfy & _). by apply finished_stuck. }
  eapply inevitably_bind.
  { eapply (meet_inevitably_swap _ _ (client0 n id) server0); [apply solo_own..|exact Hmeet]. }
  intros ? <-. eapply inevitably_bind.
  { refine (one_sided_loop (X id) (λ _, OpWrite (remote_whole remote)) view (λ _, wc)
      (λ _, [counted id]) client_node (solo 3 (met n id).1) (X_sends id) (λ _, eq_refl) n 0
      _ _ _ (server_way n id) _). eapply (solo_to 4); [exact Hx|reflexivity]. }
  intros [x y] [Hy Hxy]. cbn [fst snd] in Hy, Hxy.
  destruct (server_way n id) as (_ & _ & Hway). destruct (Hway y Hy) as [_ Hy'].
  rewrite H3 in Hy'. eapply inevitably_bind.
  { eapply (round _ _ _ _ _ _ _ _ _ _ _ _ _ _ _ _ _ _ _ _ (X0_sends _ _) Y_receives);
      [reflexivity|exact (proj2 (write_same ∅ None (or_introl eq_refl)))|reflexivity
      |exact Hxy|exact Hy']. }
  intros [x1 y1] [Hx1 Hy1]. cbn [fst snd] in Hx1, Hy1. eapply inevitably_impl.
  { eapply settle_idle; [etrans; [exact Hx1|apply (solo_own 1)]
                        |etrans; [exact Hy1|apply (solo_own 1)]|done..]. }
  intros ? <-. clear Hmeet Hx H3 Hy Hxy Hway Hy' Hx1 Hy1.
  do 2 (split; [by split|]). do 2 (split; [reflexivity|]). simpl. by rewrite !app_nil_r, outs_const.
Qed.
(** ** io_ctx_pool

    The contexts by their positions in the vector; a context is known by whether it has
    been stopped, a thread by the context it polls. *)

Record io_ctx_pool := IoCtxPool {
  selector_ : Z;
  io_ctx_ : list bool;
  workers_ : list nat }.

Definition pool_ctor (nr_worker : Z) : io_ctx_pool :=
  IoCtxPool 0 (replicate (Z.to_nat nr_worker) false) [].
Definition run : M io_ctx_pool unit :=
  mmodify (λ p, IoCtxPool (selector_ p) (io_ctx_ p) (workers_ p ++ seq 0 (length (io_ctx_ p)))).
Definition stop : M io_ctx_pool unit :=
  mmodify (λ p, IoCtxPool (selector_ p) ((λ stopped, true) <$> io_ctx_ p) (workers_ p)).
(** [wait] returns when every thread has seen its context stopped. *)
Definition wait_returns (p : io_ctx_pool) : bool :=
  forallb (λ i, default false (io_ctx_ p !! i)) (workers_ p).

(** [++selector_ % io_ctx_.size()]: the increment wraps at 32 bits, the operand is converted
    to [size_t]; a remainder by zero is undefined. *)
Definition get_shared : M io_ctx_pool nat :=
  p ← mget;
  let selector := i32 (selector_ p + 1) in
  mmodify (λ p, IoCtxPool selector (io_ctx_ p) (workers_ p)) ;;
  if bool_decide (io_ctx_ p = []) then mundefined
  else mret (Z.to_nat (u64 selector mod Z.of_nat (length (io_ctx_ p)))).

(** The contexts [n] calls give. *)
Fixpoint get_many (n : nat) : M io_ctx_pool (list nat) :=
  match n with
  | O => mret []
  | S n => i ← get_shared; l ← get_many n; mret (i :: l)
  end.

(** Wrapping at 32 and 64 bits does not show in remainders by a divisor of [2 ^ 32]. *)
Lemma i32_mod z n : (0 < n)%Z → (n | 2 ^ 32)%Z → (u64 (i32 z) mod n = z mod n)%Z.
Proof.
  intros Hn [k Hk].
  assert (∃ c, i32 z = z + c * 2 ^ 32)%Z as [c Hc].
  { unfold i32, u32, wrap. pose proof (Z.mod_eq z (2 ^ 32) ltac:(lia)).
    case_bool_decide; [exists (- (z / 2 ^ 32))%Z|exists (- (z / 2 ^ 32) - 1)%Z]; lia. }
  unfold u64, wrap. rewrite (Z.mod_eq (i32 z)), Hc by lia.
  replace (z + c * 2 ^ 32 - 2 ^ 64 * ((z + c * 2 ^ 32) / 2 ^ 64))%Z
    with (z + (c - 2 ^ 32 * ((z + c * 2 ^ 32) / 2 ^ 64)) * k * n)%Z.
  - by rewrite Z.mod_add by lia.
  - rewrite <- Z.mul_assoc, <- Hk. lia.
Qed.

Lemma i32_succ z : ((i32 z + 1) mod 2 ^ 32 = (z + 1) mod 2 ^ 32)%Z.
Proof.
  unfold i32, u32, wrap. pose proof (Z.mod_eq z (2 ^ 32) ltac:(lia)) as Hz.
  case_bool_decide.
  - rewrite Hz. replace (z - 2 ^ 32 * (z / 2 ^ 32) + 1)%Z
      with (z + 1 + (- (z / 2 ^ 32)) * 2 ^ 32)%Z by lia. by rewrite Z.mod_add.
  - rewrite Hz. replace (z - 2 ^ 32 * (z / 2 ^ 32) - 2 ^ 32 + 1)%Z
      with (z + 1 + (- (z / 2 ^ 32) - 1) * 2 ^ 32)%Z by lia. by rewrite Z.mod_add.
Qed.

Lemma i32_eq a b : (a mod 2 ^ 32 = b mod 2 ^ 32)%Z → i32 a = i32 b.
Proof. intros Hab. unfold i32, u32, wrap. by rewrite Hab. Qed.

Section pool.
Context (ctxs : list bool).
Local Notation size := (Z.of_nat (length ctxs)).
Hypothesis Hsize : ctxs ≠ [].

Lemma size_pos : (0 < size)%Z.
Proof using Hsize. clear -Hsize. destruct ctxs; [done|]. simpl. lia. Qed.

Hypothesis Hdiv : (size | 2 ^ 32)%Z.

Lemma get_many_run n z w :
  ∃ p', get_many n (IoCtxPool (i32 z) ctxs w) =
    (Ret ((λ k, Z.to_nat ((z + 1 + Z.of_nat k) mod size)) <$> seq 0 n), p').
Proof using All.
  revert z. induction n as [|n IH]; intros z; [by eexists|].
  destruct (IH (z + 1)%Z) as (p' & Hp'). exists p'. cbn [get_many]. unfold get_shared at 1.
  munfold. simpl. rewrite bool_decide_eq_false_2 by done. simpl.
  rewrite (i32_eq (i32 z + 1) (z + 1)) by apply i32_succ.
  rewrite i32_mod by (done || apply size_pos). unfold mbind, M_bind in Hp'. rewrite Hp'.
  rewrite Z.add_0_r. do 3 f_equal. rewrite <- (fmap_S_seq 0 n), <- list_fmap_compose.
  apply list_fmap_ext. intros i k _. simpl. do 2 f_equal. lia.
Qed.

(** The pool hands out its contexts in turn: whatever the counter has come to, a wrap
    of its 32 bits included, as many calls in a row as there are contexts give each of them
    once, when their number divides [2 ^ 32] (it is 4). *)
Lemma get_many_turn z w :
  ∃ l p', get_many (length ctxs) (IoCtxPool (i32 z) ctxs w) = (Ret l, p') ∧
    l ≡ₚ seq 0 (length ctxs).
Proof using All.
  destruct (get_many_run (length ctxs) z w) as (p' & Hp'). do 2 eexists. split; [exact Hp'|].
  apply turns_Permutation.
Qed.

(** After [stop], the threads that [run] started end. *)
Lemma pool_stops z w p :
  Forall (λ i, i < length ctxs) w →
  (run ;; stop) (IoCtxPool z ctxs w) = (Ret tt, p) → wait_returns p = true.
Proof using.
  intros Hw [= <-]. unfold wait_returns. simpl. apply forallb_forall. intros i Hi.
  assert (i < length ctxs) as Hlt.
  { apply in_app_or in Hi as [Hi|Hi].
    - rewrite Forall_forall in Hw. apply Hw. by apply list_elem_of_In.
    - apply in_seq in Hi. lia. }
  rewrite list_lookup_fmap. by destruct (lookup_lt_is_Some_2 _ _ Hlt) as [b ->].
Qed.
End pool.

(** ** The counters of writes

    The workers add to their counter; the reporter reads and clears them in turn. *)

Definition kQP : nat := 4.

Record counters := Counters { gSendCounts : list Z; reported : list Z }.
Definition counters0 : counters := Counters (replicate kQP 0%Z) (replicate kQP 0%Z).

Definition fetch_add (id : nat) (c : counters) : counters :=
  Counters (alter (λ z, u64 (z + 1)) id (gSendCounts c)) (reported c).
(** [t = gSendCounts[i].exchange(0)], which the line for [i] shows. *)
Definition exchange (i : nat) (c : counters) : counters :=
  Counters (alter (λ _, 0%Z) i (gSendCounts c))
           (alter (Z.add (default 0%Z (gSendCounts c !! i))) i (reported c)).

Inductive count_op := Add (id : nat) | Exchange (i : nat).
#[export] Instance count_op_eq_dec : EqDecision count_op.
Proof. solve_decision. Defined.

Definition count_step (c : counters) (o : count_op) : counters :=
  match o with Add id => fetch_add id c | Exchange i => exchange i c end.
Definition adds (id : nat) (ops : list count_op) : Z :=
  Z.of_nat (length (filter (λ o, o = Add id) ops)).

(** However the workers and the reporter interleave, what has been reported for a queue
    pair with what is still in its counter is the number of its writes. *)
Theorem writes_all_reported (ops : list count_op) (id : nat) :
  id < kQP → (Z.of_nat (length ops) < 2 ^ 64)%Z →
  ∃ c r, gSendCounts (foldl count_step counters0 ops) !! id = Some c ∧
    reported (foldl count_step counters0 ops) !! id = Some r ∧
    (c + r = adds id ops ∧ 0 ≤ c ∧ 0 ≤ r)%Z.
Proof.
  intros Hid. induction ops as [|o ops IH] using rev_ind; intros Hlen.
  - exists 0%Z, 0%Z. unfold counters0. cbn [foldl gSendCounts reported].
    split_and!; [by apply lookup_replicate_2..|done|done|done].
  - rewrite length_app in Hlen. simpl in Hlen.
    destruct IH as (c & r & Hc & Hr & Hsum & Hc0 & Hr0); [lia|].
    rewrite foldl_snoc. set (s := foldl count_step counters0 ops) in *.
    assert (adds id (ops ++ [o]) = (adds id ops + if decide (o = Add id) then 1 else 0)%Z) as ->.
    { unfold adds. rewrite filter_app, length_app, filter_cons, filter_nil.
      destruct (decide (o = Add id)); simpl; lia. }
    assert (adds id ops ≤ Z.of_nat (length ops))%Z.
    { unfold adds. pose proof (length_filter (λ o, o = Add id) ops). lia. }
    destruct o as [j|j]; simpl; rewrite ?list_lookup_alter, Hc, Hr;
      destruct (decide (j = id)) as [->|Hj]; rewrite ?Hc, ?Hr; simpl;
      do 2 eexists; (split; [reflexivity|]; split; [reflexivity|]);
      try rewrite u64_small by lia;
      repeat case_decide; simplify_eq; simpl; lia.
Qed.

Lemma write_bw_runs_witness :
  terminates_in (V:=good) (F:=wit_fabric)
    (λ q, finished q.1 ∧ finished q.2 ∧
          n_regions (s_node q.1) = ∅ ∧ n_regions (s_node q.2) = ∅ ∧
          s_out q.1 = remote_line :: replicate 100 (counted 3))
    (side_init (client_worker (H:=wit_host) (B:=wit_debug) 100 3),
     side_init (handler (H:=wit_host) (B:=wit_debug))).
Proof.
  exact (write_bw_runs wit_host wit_debug good wit_fabric (rc_fabric_laws (H:=wit_host)) 100 3).
Defined.

Example get_many_wraps :
  (get_many 4 (IoCtxPool (2 ^ 31 - 2) (replicate 4 false) [])).1 = Ret [3; 0; 1; 2].
Proof. vm_compute. reflexivity. Qed.

Lemma writes_all_reported_witness :
  ∃ c r, gSendCounts (foldl count_step counters0 [Add 1; Add 1; Exchange 1; Add 1; Add 2]) !! 1 =
      Some c ∧
    reported (foldl count_step counters0 [Add 1; Add 1; Exchange 1; Add 1; Add 2]) !! 1 = Some r ∧
    (c = 1 ∧ r = 2)%Z.
Proof.
  destruct (writes_all_reported [Add 1; Add 1; Exchange 1; Add 1; Add 2] 1
    ltac:(unfold kQP; lia) ltac:(simpl; lia)) as (c & r & Hc & Hr & _).
  exists c, r. split; [exact Hc|]. split; [exact Hr|]. vm_compute in Hc, Hr.
  split; congruence.
Defined.
