(* ===== verification/HelloWorld.v ===== *)
(** * The hello-world example (examples/helloworld_handler.cc)

    The two coroutines of the example as trees of events ([Coro]); the server's loop is in
    Servers.v. *)

From S2P Require Import Prelude Verbs RefNic Errors Serdes Device Resources Mr Qp Operations.
From S2P Require Import Handshake Coro.
From stdpp Require Import options.

Definition msg : string := "hello".
Definition resp : string := "world".

Section programs.
Context {H : Host} {B : Build}.

Definition print_mr (what : string) (m : ibv_mr) : coro unit :=
  perform (Print what [ibv_mr_addr m; ibv_mr_length m; ibv_mr_rkey m]).
Definition print_remote (what : string) (m : remote_mr) : coro unit :=
  perform (Print what [remote_addr m; remote_length m; remote_rkey m]).

(** The string [buffer] has the same size each time it is assigned or resized before the
    last block, so that it stays where it is. *)
Definition handle_qp : coro unit :=
  perform (Print "handling qp" []) ;;
  buffer ← buffer_of (text_bytes msg);
  await_op_span OpSend buffer ;;
  print_buffer "sent to client: {}" [] buffer ;;
  await_recv_span buffer ;;
  print_buffer "received from client: {}" [] buffer ;;
  perform (Store buffer.1 (text_bytes msg)) ;;
  local_mr ← coro_reg_mr buffer;
  coro_raii
    (local_mr_serialized ← serialized_mr local_mr;
     await_op_span OpSend local_mr_serialized ;;
     print_mr "sent mr: addr={} length={} rkey={} to client" local_mr ;;
     '(_, imm) ← await_recv_nothing;
     coro_assert (bool_decide (is_Some imm)) ;;
     i ← value imm;
     print_buffer "written by client: (imm={}): {}" [i] buffer ;;
     counter ← buffer_of (object_bytes 8 42);
     counter_mr ← coro_reg_mr counter;
     coro_raii
       (counter_mr_serialized ← serialized_mr counter_mr;
        await_op_span OpSend counter_mr_serialized ;;
        print_mr "sent mr: addr={} length={} rkey={} to client" counter_mr ;;
        '(_, imm) ← await_recv local_mr;
        coro_assert (bool_decide (is_Some imm)) ;;
        bs ← ask_bytes (Load counter.1 8);
        perform (Print "fetched and added by client: {}" [object_value bs]) ;;
        '(_, imm) ← await_recv local_mr;
        coro_assert (bool_decide (is_Some imm)) ;;
        bs ← ask_bytes (Load counter.1 8);
        perform (Print "compared and swapped by client: {}" [object_value bs]) ;;
        old ← ask_bytes (Load buffer.1 buffer.2);
        large ← buffer_of (old ++ replicate (65536 - length old) Byte.x00);
        large_local_mr ← coro_reg_mr large;
        coro_raii
          (large_serialized ← serialized_mr large_local_mr;
           await_op_span OpSend large_serialized ;;
           print_mr "sent mr: addr={} length={} rkey={} to client" local_mr ;;
           '(nbytes, imm) ← await_recv_nothing;
           coro_assert (bool_decide (is_Some imm)) ;;
           i ← star imm;
           perform (Print "recv write_with_imm: imm={} nbytes={}" [i; nbytes]))
          (perform (DeregMr large_local_mr)))
       (perform (DeregMr counter_mr)))
    (perform (DeregMr local_mr)).

Definition client : coro unit :=
  buffer ← buffer_of (replicate (String.length msg) Byte.x00);
  '(n, _) ← await_recv_span buffer;
  print_buffer "received {} bytes from server: {}" [n] buffer ;;
  perform (Store buffer.1 (text_bytes resp)) ;;
  await_op_span OpSend buffer ;;
  print_buffer "sent to server: {}" [] buffer ;;
  remote_mr_serialized ← buffer_of (replicate kSerializedSize_mr Byte.x00);
  await_recv_span remote_mr_serialized ;;
  remote_mr ← deserialized_mr remote_mr_serialized.1;
  print_remote "received mr addr={} length={} rkey={} from server" remote_mr ;;
  n ← await_op_span (OpRead (remote_whole remote_mr)) buffer;
  print_buffer "read {} bytes from server: {}" [n] buffer ;;
  perform (Store buffer.1 (text_bytes resp)) ;;
  await_op_span (OpWriteImm (remote_whole remote_mr) 1) buffer ;;
  counter_mr_serialized ← buffer_of (replicate kSerializedSize_mr Byte.x00);
  await_recv_span counter_mr_serialized ;;
  counter_mr ← deserialized_mr counter_mr_serialized.1;
  print_remote "received mr addr={} length={} rkey={} from server" counter_mr ;;
  cnt_buffer ← buffer_of (object_bytes 8 0);
  await_op_span (OpFetchAdd (remote_whole counter_mr) 1) cnt_buffer ;;
  bs ← ask_bytes (Load cnt_buffer.1 8);
  perform (Print "fetched and added from server: {}" [object_value bs]) ;;
  await_op_span (OpWriteImm (remote_whole counter_mr) 1) cnt_buffer ;;
  bs ← ask_bytes (Load cnt_buffer.1 8);
  perform (Print "written with imm: buffer={} imm={}" [object_value bs; 1%Z]) ;;
  await_op_span (OpCas (remote_whole counter_mr) 43 4422) cnt_buffer ;;
  bs ← ask_bytes (Load cnt_buffer.1 8);
  perform (Print "compared and swapped from server: {}" [object_value bs]) ;;
  await_op_span (OpWriteImm (remote_whole counter_mr) 1) cnt_buffer ;;
  remote_mr_serialized ← buffer_of (replicate kSerializedSize_mr Byte.x00);
  await_recv_span remote_mr_serialized ;;
  remote_mr ← deserialized_mr remote_mr_serialized.1;
  print_remote "received mr addr={} length={} rkey={} from server" remote_mr ;;
  local_buffer ← buffer_of (replicate 2000 Byte.x00);
  local_mr ← coro_reg_mr local_buffer;
  coro_raii
    (nbytes ← await_op (OpWrite (remote_whole remote_mr)) local_mr;
     perform (Print "written: nbytes={}" [nbytes]) ;;
     nbytes ← await_op (OpRead (remote_whole remote_mr)) local_mr;
     perform (Print "read: nbytes={}" [nbytes]) ;;
     temporary ← buffer_of (replicate 9987 Byte.x00);
     await_op_span (OpWriteImm (remote_whole remote_mr) 2099) temporary ;;
     perform (Print "written with imm and end: imm={}" [2099%Z]))
    (perform (DeregMr local_mr)).
End programs.

(** ** What the two show

    A region is its address and its remote key. *)
Definition region : Type := Z * Z.
Definition shown (m : region) (length : Z) : list Z := [m.1; length; m.2].

Definition server_out (text counter : region) : list (string * list Z) :=
  [("handling qp", []);
   ("sent to client: {}", data_of (text_bytes msg));
   ("received from client: {}", data_of (text_bytes resp));
   ("sent mr: addr={} length={} rkey={} to client", shown text 5);
   ("written by client: (imm={}): {}", 1%Z :: data_of (text_bytes resp));
   ("sent mr: addr={} length={} rkey={} to client", shown counter 8);
   ("fetched and added by client: {}", [42%Z]);
   ("compared and swapped by client: {}", [42%Z]);
   ("sent mr: addr={} length={} rkey={} to client", shown text 5);
   ("recv write_with_imm: imm={} nbytes={}", [2099%Z; 9987%Z])].
Definition client_out (text counter large : region) : list (string * list Z) :=
  [("received {} bytes from server: {}", 5%Z :: data_of (text_bytes msg));
   ("sent to server: {}", data_of (text_bytes resp));
   ("received mr addr={} length={} rkey={} from server", shown text 5);
   ("read {} bytes from server: {}", 5%Z :: data_of (text_bytes msg));
   ("received mr addr={} length={} rkey={} from server", shown counter 8);
   ("fetched and added from server: {}", [42%Z]);
   ("written with imm: buffer={} imm={}", [42%Z; 1%Z]);
   ("compared and swapped from server: {}", [42%Z]);
   ("received mr addr={} length={} rkey={} from server", shown large 65536);
   ("written: nbytes={}", [2000%Z]);
   ("read: nbytes={}", [2000%Z]);
   ("written with imm and end: imm={}", [2099%Z])].

(** The outputs of the server [x] and the client [y], and what the server's memory holds at
    the addresses they show. *)
Definition hello_shows {H : Host} (text counter large : region) (x y : side) : Prop :=
  s_out x = server_out text counter ∧ s_out y = client_out text counter large ∧
  heap_read text.1 5 (s_node x) = Some (text_bytes resp) ∧
  heap_read counter.1 8 (s_node x) = Some (object_bytes 8 42) ∧
  heap_read large.1 65536 (s_node x) = Some (replicate (N.to_nat 65536) Byte.x00) ∧
  NoDup [text.2; counter.2; large.2].
#[export] Instance hello_shows_dec {H : Host} text counter large x y :
  Decision (hello_shows text counter large x y).
Proof. unfold hello_shows. apply _. Defined.

(** The pair is done: both coroutines have finished, have shown what they should, and own no
    registration any more. *)
Definition hello_done {H : Host} (q : side * side) : Prop :=
  finished q.1 ∧ finished q.2 ∧
  n_regions (s_node q.1) = ∅ ∧ n_regions (s_node q.2) = ∅ ∧
  ∃ text counter large, hello_shows text counter large q.1 q.2.

(** The regions a side shows that it has received. *)
Definition received_regions (x : side) : list region :=
  omap (λ line : string * list Z,
    if String.prefix "received mr" line.1
    then match line.2 with [a; _; k] => Some (a, k) | _ => None end else None) (s_out x).

Definition hello_end {H : Host} (x y : side) : bool :=
  side_done x && side_done y &&
  match received_regions y with
  | [text; counter; large] =>
      bool_decide (n_regions (s_node x) = ∅ ∧ n_regions (s_node y) = ∅ ∧
                   hello_shows text counter large x y)
  | _ => false
  end.

Lemma hello_end_done {H : Host} x y : hello_end x y = true → hello_done (x, y).
Proof.
  unfold hello_end. intros [[Hx Hy]%andb_true_iff Hc]%andb_true_iff.
  destruct (received_regions y) as [|text [|counter [|large []]]]; try done.
  apply bool_decide_eq_true in Hc as (Hrx & Hry & Hs).
  split_and!; [by apply side_done_finished..|done|done|]. by exists text, counter, large.
Qed.

Lemma hello_explored (H : Host) (B : Build) :
  explore 100
    (λ p, let x := at_place p.1 in let y := at_place p.2 in
          side_idle x && side_idle y && hello_end x y)
    handle_qp client = true.
Proof. destruct H as [[]]; vm_compute; reflexivity. Qed.

(** On any connection that does what is documented for valid requests, on hosts of
    either byte order and in either build, every execution of the hello-world pair
    terminates in [hello_done]: the messages, the data read and written arrive as sent, the
    client is shown the regions as the server has registered them; the server's counter is 42
    in the end, because the [write_with_imm] of the client between its two atomic operations
    puts back the value it fetched before adding 1, so that the comparison with 43 fails; and
    the third time the server shows the region of the text instead of the large one. *)
Theorem helloworld_runs (H : Host) (B : Build) (V : Verbs) (F : Fabric) (L : FabricLaws F) :
  terminates_in hello_done (side_init handle_qp, side_init client).
Proof.
  apply (terminates_impl _ _ _ (explore_terminates _ _ _ _ (hello_explored H B))).
  intros [x y] (_ & _ & Hend). by apply hello_end_done.
Qed.

Lemma helloworld_runs_witness :
  terminates_in (V:=good) (F:=wit_fabric) (hello_done (H:=wit_host))
    (side_init (handle_qp (H:=wit_host) (B:=wit_debug)),
     side_init (client (H:=wit_host) (B:=wit_debug))).
Proof.
  exact (helloworld_runs wit_host wit_debug good wit_fabric (rc_fabric_laws (H:=wit_host))).
Defined.
