(* ===== verification/RpcExample.v ===== *)
(** * The RPC example (examples/rpc.cc) *)

From S2P Require Import Prelude Verbs RefNic Errors Serdes Device Resources Mr Qp Operations.
From S2P Require Import Handshake Coro.
From stdpp Require Import options.

Definition msg : string := "this is an rdmapp based rpc simple example".
Definition kRpcCnt : nat := 20.

(** The functions registered by number: the one for [i] prints [i]. *)
Definition registered_rpc_fn : gmap Z Z :=
  list_to_map ((λ i, (i, i)) <$> seqZ 0 (Z.of_nat kRpcCnt)).

(** [registered_rpc_fn[key]()]: a key without a function gets an empty one. *)
Definition call_registered (key : Z) : coro unit :=
  match registered_rpc_fn !! key with
  | Some i => perform (Print "rpc_{}" [i])
  | None => Stop (Throw BadFunctionCall)
  end.

Section programs.
Context {H : Host} {B : Build}.

(** [qp] is null when [accept] gave null. *)
Definition handle_qp {Q} (qp : option Q) : coro unit :=
  buffer ← buffer_of (text_bytes msg);
  star qp ;;
  local_mr ← coro_reg_mr buffer;
  coro_raii
    (local_mr_serialized ← serialized_mr local_mr;
     await_op_span OpSend local_mr_serialized ;;
     perform (Print "sent mr: addr={} length={} rkey={} to client"
                [ibv_mr_addr local_mr; ibv_mr_length local_mr; ibv_mr_rkey local_mr]) ;;
     coro_for kRpcCnt 0 (λ i,
       '(_, imm) ← await_recv_nothing;
       coro_assert (bool_decide (is_Some imm)) ;;
       n ← value imm;
       perform (Print "[{}] written by client: imm={}" [i; n]) ;;
       call_registered (i32 n)))
    (perform (DeregMr local_mr)).

Definition client : coro unit :=
  remote_mr_serialized ← buffer_of (replicate kSerializedSize_mr Byte.x00);
  await_recv_span remote_mr_serialized ;;
  remote_mr ← deserialized_mr remote_mr_serialized.1;
  perform (Print "received mr addr={} length={} rkey={} from server"
             [remote_addr remote_mr; remote_length remote_mr; remote_rkey remote_mr]) ;;
  send_buffer ← buffer_of (text_bytes msg);
  coro_for kRpcCnt 0 (λ i,
    await_op_span (OpWriteImm (remote_whole remote_mr) (u32 i)) send_buffer ;; mret tt).
End programs.

Definition server_talk : list (string * list Z) :=
  i ← seqZ 0 (Z.of_nat kRpcCnt);
  [("[{}] written by client: imm={}", [i; i]); ("rpc_{}", [i])].

Definition rpc_end (x y : side) : bool :=
  side_done x && side_done y &&
  bool_decide (tail (s_out x) = server_talk ∧
               n_regions (s_node x) = ∅ ∧ n_regions (s_node y) = ∅).

Lemma rpc_explored {Q} (H : Host) (B : Build) (qp : Q) :
  explore 200
    (λ p, let x := at_place p.1 in let y := at_place p.2 in
          side_idle x && side_idle y && rpc_end x y)
    (handle_qp (Some qp)) client = true.
Proof. destruct H as [[]]; vm_compute; reflexivity. Qed.

(** Every execution of the RPC example terminates: both coroutines come to their end,
    the server has called each of the 20 registered functions once, in the order of their
    numbers, and every region is deregistered. *)
Theorem rpc_example_runs {Q} (H : Host) (B : Build) (V : Verbs) (F : Fabric)
    (L : FabricLaws F) (qp : Q) :
  terminates_in
    (λ q, finished q.1 ∧ finished q.2 ∧ tail (s_out q.1) = server_talk ∧
          n_regions (s_node q.1) = ∅ ∧ n_regions (s_node q.2) = ∅)
    (side_init (handle_qp (Some qp)), side_init client).
Proof.
  apply (terminates_impl _ _ _ (explore_terminates _ _ _ _ (rpc_explored H B qp))).
  intros q (_ & _ & [[Hx Hy]%andb_true_iff Hc%bool_decide_eq_true]%andb_true_iff).
  by repeat split; try apply Hc; apply side_done_finished.
Qed.

Lemma rpc_example_runs_witness :
  terminates_in (V:=good) (F:=wit_fabric)
    (λ q, finished q.1 ∧ finished q.2 ∧ tail (s_out q.1) = server_talk ∧
          n_regions (s_node q.1) = ∅ ∧ n_regions (s_node q.2) = ∅)
    (side_init (handle_qp (H:=wit_host) (B:=wit_debug) (Some wit_qp)),
     side_init (client (H:=wit_host) (B:=wit_debug))).
Proof.
  exact (rpc_example_runs wit_host wit_debug good wit_fabric (rc_fabric_laws (H:=wit_host)) wit_qp).
Defined.
