(* ===== verification/Cancellation.v ===== *)
(** * The cancellation example (examples/cancellation.cc) *)

From S2P Require Import Prelude Verbs RefNic Errors Serdes Device Resources Mr Qp Operations.
From S2P Require Import Coro.
From stdpp Require Import options.

Definition msg : string := "hello".

Section programs.
Context {H : Host} {B : Build}.

Definition client : coro unit :=
  buffer ← buffer_of (text_bytes msg);
  await_op_span OpSend buffer ;;
  print_buffer "sent to server: {}" [] buffer.

Definition handle_qp : coro unit :=
  perform (Print "handling qp" []) ;;
  buffer ← buffer_of (replicate (String.length msg) Byte.x00);
  perform (Print "waiting for recv from client: nbytes={}" [buffer.2]) ;;
  '(n, _) ← await_recv_span buffer;
  print_buffer "received {} bytes from client: {}" [n] buffer ;;
  perform (Print "waiting for another recv which will never come" []) ;;
  await_recv_span buffer ;;
  perform (Print "should not reach here" []).

(** The body of the server's loop for a queue pair; [true]: go on accepting.  The message
    of the exception is not shown. *)
Definition serve : coro bool :=
  coro_try (handle_qp ;; mret true)
    (λ _, perform (Print "handle_qp: error: msg={}" []) ;; mret false).
End programs.

(** The signal of the user: the receive ends with [operation_aborted]. *)
Definition cancel (x : side) : side :=
  if side_receiving x
  then Side (s_code x) (Some (AnsThrow (SystemError operation_aborted))) (s_node x) (s_out x)
  else x.

Definition server_talk : list (string * list Z) :=
  [("handling qp", []); ("waiting for recv from client: nbytes={}", [5%Z]);
   ("received {} bytes from client: {}", 5%Z :: data_of (text_bytes msg));
   ("waiting for another recv which will never come", [])].

Definition cancel_end (x y : side) : bool :=
  side_done y && side_receiving x && side_done (solo 100 (cancel x)) &&
  bool_decide (s_out x = server_talk ∧
    s_out (solo 100 (cancel x)) = server_talk ++ [("handle_qp: error: msg={}", [])]).

Definition server : coro unit := serve ;; mret tt.

Lemma cancel_explored (H : Host) (B : Build) :
  explore 50
    (λ p, let x := at_place p.1 in let y := at_place p.2 in
          side_idle x && side_idle y && cancel_end x y)
    server client = true.
Proof. destruct H as [[]]; vm_compute; reflexivity. Qed.

(** Every execution of the cancellation example comes to the state in which the client
    is done and the server waits in its second receive, which nothing completes; when the
    signal ends that receive, the server's [catch] ends it without the line that should
    not be reached. *)
Theorem cancellation_runs (H : Host) (B : Build) (V : Verbs) (F : Fabric) (L : FabricLaws F) :
  terminates_in
    (λ q, side_receiving q.1 = true ∧ finished q.2 ∧ s_out q.1 = server_talk ∧
          finished (solo 100 (cancel q.1)) ∧
          s_out (solo 100 (cancel q.1)) = server_talk ++ [("handle_qp: error: msg={}", [])])
    (side_init server, side_init client).
Proof.
  apply (terminates_impl _ _ _ (explore_terminates _ _ _ _ (cancel_explored H B))).
  intros q (_ & _ & [[[Hy Hr]%andb_true_iff Hs]%andb_true_iff Hc%bool_decide_eq_true]%andb_true_iff).
  by repeat split; try apply Hc; try apply side_done_finished.
Qed.

Lemma cancellation_runs_witness :
  terminates_in (V:=good) (F:=wit_fabric)
    (λ q, side_receiving q.1 = true ∧ finished q.2 ∧ s_out q.1 = server_talk ∧
          finished (solo 100 (cancel q.1)) ∧
          s_out (solo 100 (cancel q.1)) = server_talk ++ [("handle_qp: error: msg={}", [])])
    (side_init server, side_init (client (B:=wit_debug))).
Proof.
  exact (cancellation_runs wit_host wit_debug good wit_fabric (rc_fabric_laws (H:=wit_host))).
Defined.
