(* ===== verification/SendWorker.v ===== *)
(** * The coroutines of the send benchmark (examples/send_bw_raw.cc)

    [SendBw] follows all the senders and workers of the benchmark, and leaves out what they
    send and show; here is one sender and one worker of the server, with memory and output.
    The worker's loop does not end in the source; here it takes the messages of its sender.
    The increments of [g_stats] are shown as a line of output.  [kSendCount] and
    [kBatchSize] depend on the build and are parameters; times are left out. *)

From S2P Require Import Prelude Verbs RefNic Errors Serdes Device Resources Mr Qp Operations.
From S2P Require Import Coro Lockstep SendBw.
From stdpp Require Import options.

Definition bytes_of (b : Byte.byte) (n : Z) : bytes := replicate (Z.to_nat n) b.
Lemma length_bytes_of b n : (0 ≤ n)%Z → Z.of_nat (length (bytes_of b n)) = n.
Proof. intros Hn. unfold bytes_of. rewrite length_replicate. by apply Z2Nat.id. Qed.

(** [req_vec] *)
Definition message : bytes := bytes_of Byte.x01 kMsgSize.

Section programs.
Context {B : Build} (kSendCount : nat) (kBatchSize : Z).

Definition batch_lines (idx i : Z) : list (string * list Z) :=
  if bool_decide (i ≠ 0%Z) && bool_decide (i mod kBatchSize = 0)%Z
  then [("[send:{:>2}] {:7d} op: avg latency {:.3f}us", [idx; i])] else [].
Definition total_lines (idx : Z) : list (string * list Z) :=
  [("[send:{:>2}] total operations: {}", [idx; Z.of_nat kSendCount]);
   ("[send:{:>2}] total time: {}us", [idx]);
   ("[send:{:>2}] average time per operation: {:.3f}us", [idx])].
Definition show : list (string * list Z) → coro unit :=
  foldr (λ l c, perform (Print l.1 l.2) ;; c) (mret tt).

Definition send_worker (idx : Z) : coro unit :=
  perform (Print "send_worker {} spawn" [idx]) ;;
  a ← ask_Z (Alloc message);
  local_mr ← coro_reg_mr (a, kMsgSize);
  coro_raii
    (coro_for kSendCount 0 (λ i, await_op OpSend local_mr ;; show (batch_lines idx i)) ;;
     show (total_lines idx))
    (perform (DeregMr local_mr)).

(** [Server::Server]: the pool of buffers and its registration. *)
Definition server_ctor : coro ibv_mr :=
  buffer_pool ← zero_buffer buffer_pool_size;
  mr ← coro_reg_mr buffer_pool;
  perform (Print "server: initialized with {} concurrent workers" [Z.of_nat kRecvDepth]) ;;
  mret mr.

Definition counted_line : string * list Z :=
  ("g_stats.total_completed += 1; g_stats.total_bytes += {}", [kMsgSize]).

(** One round of [server_worker]. *)
Definition worker_round (mr : ibv_mr) (idx : Z) : coro unit :=
  recv_view ← slice mr (idx * kMsgSize) kMsgSize;
  ask_recv (AwaitRecv recv_view) ;;
  perform (Print counted_line.1 counted_line.2).

(** The server with the worker [idx], for [n] messages. *)
Definition server (n : nat) (idx : Z) : coro unit :=
  mr ← server_ctor;
  coro_raii
    (perform (Print "server_worker {} spawn" [idx]) ;;
     coro_for n 0 (λ _, worker_round mr idx))
    (perform (DeregMr mr)).
End programs.

Section states.
Context {B : Build} (kSendCount : nat) (kBatchSize : Z).

Definition mr_x : ibv_mr := IbvMr 2 block kMsgSize 4 5.
Definition mr_y : ibv_mr := IbvMr 2 block buffer_pool_size 4 5.
Definition view_x : mr_view := MrView block kMsgSize 4.
Definition view_y (idx : Z) : mr_view := MrView (block + idx * kMsgSize) kMsgSize 4.

(** In their loops, with [k] rounds left. *)
Definition X (idx : Z) (k : nat) (i : Z) : coro unit :=
  coro_raii
    (coro_for k i (λ i, await_op OpSend mr_x ;; show (batch_lines kBatchSize idx i)) ;;
     show (total_lines kSendCount idx))
    (perform (DeregMr mr_x)).
Definition Y (idx : Z) (k : nat) (i : Z) : coro unit :=
  coro_raii (coro_for k i (λ _, worker_round mr_y idx)) (perform (DeregMr mr_y)).

Definition client_node : node := Node {[1%Z := message]} {[2%Z := (block, kMsgSize)]} 3.
Definition server_node (pool : bytes) : node :=
  Node {[1%Z := pool]} {[2%Z := (block, buffer_pool_size)]} 3.
End states.

Opaque bytes_of zeros.

(** ** Lemmas: memory *)

(** [new] over the bytes from [off] on. *)
Definition overwrite (off : nat) (new bs : bytes) : bytes :=
  take off bs ++ new ++ drop (off + length new) bs.

Section overwrite.
Context (off : nat) (new bs : bytes).
Hypothesis Hfits : off + length new ≤ length bs.

Lemma length_overwrite : length (overwrite off new bs) = length bs.
Proof using Hfits. unfold overwrite. rewrite !length_app, length_take, length_drop. lia. Qed.

Lemma overwrite_twice : overwrite off new (overwrite off new bs) = overwrite off new bs.
Proof using Hfits.
  unfold overwrite at 1. assert (length (take off bs) = off) as Hlen by (rewrite length_take; lia).
  unfold overwrite. rewrite <- Hlen at 1. rewrite take_app_length. do 2 f_equal.
  rewrite app_assoc. rewrite drop_app_ge by (rewrite length_app; lia).
  by replace (off + length new - length (take off bs ++ new)) with 0 by (rewrite length_app; lia).
Qed.

Lemma overwrite_read : take (length new) (drop off (overwrite off new bs)) = new.
Proof using Hfits.
  assert (length (take off bs) = off) as Hlen by (rewrite length_take; lia).
  unfold overwrite. rewrite <- Hlen at 1. by rewrite drop_app_length, take_app_length.
Qed.
End overwrite.

Lemma length_message : Z.of_nat (length message) = kMsgSize.
Proof. by apply length_bytes_of. Qed.

(** An address inside of the block of an object. *)
Lemma block_offset k off : (0 ≤ off < block)%Z →
  ((k * block + off) / block = k)%Z ∧ ((k * block + off) mod block = off)%Z.
Proof.
  intros Hoff. rewrite (Z.add_comm (k * block)).
  rewrite Z.div_add, Z.mod_add, Z.div_small, Z.mod_small by done. lia.
Qed.

Lemma heap_write_at k off new bs nd :
  n_heap nd !! k = Some bs → (0 ≤ off < block)%Z → Z.to_nat off + length new ≤ length bs →
  heap_write (k * block + off) new nd =
    Some (Node (<[k := overwrite (Z.to_nat off) new bs]> (n_heap nd)) (n_regions nd) (n_next nd)).
Proof.
  intros Hk Hoff Hfits. destruct (block_offset k off Hoff) as [Hd Hm].
  unfold heap_write. rewrite Hd, Hm, Hk. simpl. by rewrite bool_decide_eq_true_2.
Qed.

Lemma heap_read_at k off len bs nd :
  n_heap nd !! k = Some bs → (0 ≤ off < block)%Z → (0 ≤ len)%Z → (off + len ≤ Z.of_nat (length bs))%Z →
  heap_read (k * block + off) len nd = Some (take (Z.to_nat len) (drop (Z.to_nat off) bs)).
Proof.
  intros Hk Hoff Hlen Hfits. destruct (block_offset k off Hoff) as [Hd Hm].
  unfold heap_read. rewrite Hd, Hm, Hk. simpl. by rewrite bool_decide_eq_true_2.
Qed.

(** ** Lemmas: a round *)

Section facts.
Context {H : Host} {B : Build} (kSendCount : nat) (kBatchSize : Z) (idx : Z).
Hypothesis Hidx : (0 ≤ idx < Z.of_nat kRecvDepth)%Z.

Local Notation offset := (idx * kMsgSize)%Z.

Lemma slice_fits : (0 ≤ offset)%Z ∧ (offset + kMsgSize ≤ buffer_pool_size)%Z ∧ (offset < block)%Z.
Proof using Hidx. revert Hidx. unfold buffer_pool_size, kMsgSize, kRecvDepth, block. lia. Qed.

Lemma slice_view : slice mr_y offset kMsgSize = mret (view_y idx).
Proof using Hidx.
  destruct slice_fits as (H0 & H1 & _). unfold slice, lift, mr_view_local. simpl.
  unfold view_y. do 3 f_equal. revert H0 H1. unfold u64, wrap, buffer_pool_size, kMsgSize, kRecvDepth.
  intros H0 H1. rewrite Z.mod_small; lia.
Qed.

(** The pool before and after a message. *)
Definition pool0 : bytes := zeros buffer_pool_size.
Definition pool1 : bytes := overwrite (Z.to_nat offset) message pool0.

Lemma message_fits : Z.to_nat offset + length message ≤ length pool0.
Proof using Hidx.
  destruct slice_fits as (H0 & H1 & _). pose proof length_message.
  pose proof (length_zeros buffer_pool_size ltac:(done)). unfold pool0. lia.
Qed.

Definition round_inv (i : Z) (nx ny : node) : Prop :=
  nx = client_node ∧
  ∃ pool, ny = server_node pool ∧ (pool = pool0 ∨ pool = pool1) ∧ ((0 < i)%Z → pool = pool1).

Lemma pool_overwritten pool :
  pool = pool0 ∨ pool = pool1 →
  length pool = length pool0 ∧ overwrite (Z.to_nat offset) message pool = pool1.
Proof using Hidx.
  pose proof message_fits as Hf. intros [-> | ->]; [done|]. unfold pool1.
  by rewrite length_overwrite, overwrite_twice.
Qed.

Lemma message_exec pool :
  pool = pool0 ∨ pool = pool1 →
  rc_exec (expected_wr OpSend view_x 0) (Some (expected_recv_wr (view_y idx) 0))
      client_node (server_node pool) =
    Some (IbvWc 0 IBV_WC_SUCCESS kMsgSize 0 0, Some (kMsgSize, None), client_node,
          server_node pool1).
Proof using Hidx.
  intros Hpool. destruct slice_fits as (H0 & H1 & H2). pose proof message_fits as Hf.
  destruct (pool_overwritten pool Hpool) as [Hlen Hover].
  assert (dma_read 4 block kMsgSize false client_node = Some message) as Hread.
  { unfold dma_read. change (in_region _ _ _ _ _) with true.
    rewrite <- (Z.mul_1_l block). rewrite <- length_message at 1. by apply heap_read_whole. }
  assert (dma_write 4 (block + offset) message false (server_node pool) =
    Some (server_node pool1)) as Hwrite.
  { unfold dma_write. rewrite length_message.
    assert (in_region 4 (block + offset) kMsgSize false (server_node pool) = true) as ->
      by (unfold in_region; simpl; apply bool_decide_eq_true_2; split_and!; [done|lia|lia]).
    rewrite <- (Z.mul_1_l block) at 1.
    rewrite (heap_write_at 1 offset message pool); [|done|lia|by rewrite Hlen].
    by rewrite Hover. }
  unfold rc_exec. simpl. change (u32 kMsgSize) with kMsgSize. rewrite Hread. simpl.
  unfold scatter, expected_recv_wr. rewrite decide_False by (simpl; unfold block in *; lia). simpl.
  change (u32 kMsgSize) with kMsgSize. rewrite length_message, bool_decide_eq_true_2 by done. by rewrite Hwrite.
Qed.

Lemma sender_sends k i :
  sends (X kSendCount kBatchSize idx (S k) i) OpSend view_x (batch_lines kBatchSize idx i)
    (X kSendCount kBatchSize idx k (i + 1)).
Proof using.
  eexists. intros nd o. split; [apply rtc_refl|]. intros z nd'.
  eapply rtc_l; [by left|]. unfold batch_lines. destruct (_ && _).
  - by apply rtc_once; right.
  - by rewrite app_nil_r.
Qed.

Lemma worker_receives k i :
  receives (Y idx (S k) i) (view_y idx) kMsgSize None [counted_line] (Y idx k (i + 1)).
Proof using Hidx.
  unfold Y. cbn [coro_for]. generalize (coro_for k (i + 1) (λ _, worker_round mr_y idx)).
  intros rest. unfold worker_round. rewrite slice_view.
  eexists. intros nd o. split; [apply rtc_refl|]. intros nd'.
  eapply rtc_l; [by left|]. by apply rtc_once; right.
Qed.
End facts.

(** A sender of the send benchmark with a worker of its server, whatever slice of the
    pool the worker has and for any number of messages: every execution terminates with both
    finished and both regions deregistered, each message is received and counted once, and
    the worker's slice holds the bytes that were sent. *)
Theorem send_worker_runs (H : Host) (B : Build) (V : Verbs) (F : Fabric) (L : FabricLaws F)
    (kSendCount : nat) (kBatchSize idx i : Z) :
  (0 ≤ idx < Z.of_nat kRecvDepth)%Z →
  terminates_in
    (λ q, finished q.1 ∧ finished q.2 ∧
          n_regions (s_node q.1) = ∅ ∧ n_regions (s_node q.2) = ∅ ∧
          (0 < kSendCount →
           heap_read (block + idx * kMsgSize) kMsgSize (s_node q.2) = Some message) ∧
          s_out q.1 = ("send_worker {} spawn", [i]) ::
            outs kSendCount 0 (batch_lines kBatchSize i) ++ total_lines kSendCount i ∧
          s_out q.2 = ("server: initialized with {} concurrent workers", [32%Z]) ::
            ("server_worker {} spawn", [idx]) :: replicate kSendCount counted_line)
    (side_init (send_worker kSendCount kBatchSize i), side_init (server kSendCount idx)).
Proof.
  intros Hidx. apply inevitably_terminates.
  2:{ intros [x y] q (Hfx & Hfy & _). by apply finished_stuck. }
  eapply inevitably_bind.
  { refine (loop (X kSendCount kBatchSize i) (Y idx) (λ _, OpSend) view_x (view_y idx) kMsgSize
      (λ _, None) (batch_lines kBatchSize i) (λ _, [counted_line]) (round_inv idx)
      (sender_sends kSendCount kBatchSize i) (worker_receives idx Hidx) (λ _, eq_refl) _
      kSendCount 0 _ _ client_node (server_node pool0) [("send_worker {} spawn", [i])]
      [("server: initialized with {} concurrent workers", [32%Z]);
       ("server_worker {} spawn", [idx])] _ _ _).
    - intros j nx ny (-> & pool & -> & Hpool & _). eexists _, _, _.
      split; [by apply message_exec|]. split; [done|]. split; [done|]. exists (pool1 idx). auto.
    - split; [done|]. exists pool0. split_and!; [done|by left|lia].
    - eapply (solo_to 3); reflexivity.
    - eapply (solo_to 4); reflexivity. }
  intros [x y] (nx & ny & (-> & pool & -> & Hpool & Hdone) & Hx & Hy). cbn [fst snd] in Hx, Hy.
  eapply inevitably_impl.
  { refine (settle_idle x y
      (Side (Done tt) None (Node {[1%Z := message]} (delete 2%Z {[2%Z := (block, kMsgSize)]}) 3)
         (("send_worker {} spawn", [i]) ::
            outs kSendCount 0 (batch_lines kBatchSize i) ++ total_lines kSendCount i))
      (Side (Done tt) None
         (Node {[1%Z := pool]} (delete 2%Z {[2%Z := (block, buffer_pool_size)]}) 3)
         (("server: initialized with {} concurrent workers", [32%Z]) ::
            ("server_worker {} spawn", [idx]) :: outs kSendCount 0 (λ _, [counted_line]))) _ _ _ _).
    - etrans; [exact Hx|]. eapply (solo_to 4); [reflexivity|]. simpl. by rewrite <- !(assoc_L (++)).
    - etrans; [exact Hy|]. eapply (solo_to 1); [reflexivity|]. simpl. by rewrite app_nil_r.
    - done.
    - done. }
  intros ? <-. rewrite outs_const. cbn [fst snd s_node s_out n_regions]. rewrite !delete_singleton_eq.
  split_and!; try done. intros Hpos. rewrite Hdone by lia.
  destruct (slice_fits idx Hidx) as (H0 & H1 & H2). pose proof (message_fits idx Hidx) as Hf.
  assert (length (pool1 idx) = length pool0) as Hlen by (by apply length_overwrite).
  pose proof (length_zeros buffer_pool_size ltac:(done)) as Hz. fold pool0 in Hz.
  rewrite <- (Z.mul_1_l block) at 1. rewrite (heap_read_at 1 _ _ (pool1 idx)).
  - f_equal. rewrite <- length_message at 1. rewrite Nat2Z.id. by apply overwrite_read.
  - reflexivity.
  - lia.
  - by apply Z.leb_le.
  - rewrite Hlen, Hz. exact H1.
Qed.

Lemma send_worker_runs_witness :
  terminates_in (V:=good) (F:=wit_fabric)
    (λ q, finished q.1 ∧ finished q.2 ∧
          n_regions (s_node q.1) = ∅ ∧ n_regions (s_node q.2) = ∅ ∧
          (0 < 10000 → heap_read (block + 31 * kMsgSize) kMsgSize (s_node q.2) = Some message) ∧
          s_out q.1 = ("send_worker {} spawn", [2%Z]) ::
            outs 10000 0 (batch_lines 500 2) ++ total_lines 10000 2 ∧
          s_out q.2 = ("server: initialized with {} concurrent workers", [32%Z]) ::
            ("server_worker {} spawn", [31%Z]) :: replicate 10000 counted_line)
    (side_init (send_worker (B:=wit_debug) 10000 500 2), side_init (server 10000 31)).
Proof.
  exact (send_worker_runs wit_host wit_debug good wit_fabric (rc_fabric_laws (H:=wit_host))
    10000 500 31 2 ltac:(split; [done|reflexivity])).
Defined.
