(* ===== verification/Adapter.v ===== *)
(** * The adapter and the connection, as the library's users rely on them

    What a queue pair does with the requests posted on it is not code of the repository.
    [Adapter] has its queues and the adapter's own steps, and [AdapterLaws] what is documented
    of them; [Orderly] adds to the connection of [Coro] what its requests' identifiers and
    receives mean.  An adapter that satisfies the laws is at the end. *)

From S2P Require Import Prelude Verbs RefNic Errors Serdes Device Resources Mr Qp Operations.
From S2P Require Import Coro.
From stdpp Require Import options.

(** The queues of a queue pair and of a completion queue, and how calls change them.  A
    request is accepted by an empty queue.  [hw_sent q c wc] and [hw_received q c wc] are
    the adapter's own steps: the first request, or receive, leaves its queue and its
    completion enters [c]. *)
Class Adapter (V : Verbs) := {
  sendq : option ibv_qp → nic → list ibv_send_wr;
  recvq : option ibv_qp → nic → list ibv_recv_wr;
  compq : option ibv_cq → nic → list ibv_wc;
  hw_sent : option ibv_qp → option ibv_cq → ibv_wc → nic → nic;
  hw_received : option ibv_qp → option ibv_cq → ibv_wc → nic → nic }.

Class AdapterLaws (V : Verbs) {A : Adapter V} := {
  post_send_queues q wr n : sendq q n = [] → ∃ n', ibv_post_send q wr n = (0%Z, n') ∧
    sendq q n' = [wr] ∧ recvq q n' = recvq q n ∧ ∀ c, compq c n' = compq c n;
  post_recv_queues q wr n : recvq q n = [] → ∃ n', ibv_post_recv q wr n = (0%Z, n') ∧
    recvq q n' = [wr] ∧ sendq q n' = sendq q n ∧ ∀ c, compq c n' = compq c n;
  poll_cq_queues c count n : (0 ≤ count)%Z →
    ∃ n', ibv_poll_cq c count n =
        (Z.of_nat (length (take (Z.to_nat count) (compq c n))),
         take (Z.to_nat count) (compq c n), n') ∧
      compq c n' = drop (Z.to_nat count) (compq c n) ∧
      (∀ q, sendq q n' = sendq q n ∧ recvq q n' = recvq q n) ∧
      ∀ c', c' ≠ c → compq c' n' = compq c' n;
  hw_sent_queues q c wc n : let n' := hw_sent q c wc n in
    sendq q n' = tail (sendq q n) ∧ recvq q n' = recvq q n ∧
    compq c n' = compq c n ++ [wc] ∧ ∀ c', c' ≠ c → compq c' n' = compq c' n;
  hw_received_queues q c wc n : let n' := hw_received q c wc n in
    recvq q n' = tail (recvq q n) ∧ sendq q n' = sendq q n ∧
    compq c n' = compq c n ++ [wc] ∧ ∀ c', c' ≠ c → compq c' n' = compq c' n;
  with_imm_flag : IBV_WC_WITH_IMM ≠ 0%Z }.

(** What the connection makes of identifiers and receives: the identifier of a request is
    opaque to it, and comes back in the completion; a request that needs a receive waits for
    one, and any other neither looks at the receives nor completes one. *)
Definition with_id (i : Z) (wr : ibv_send_wr) : ibv_send_wr :=
  IbvSendWr i (swr_sg_list wr) (swr_num_sge wr) (swr_opcode wr) (swr_send_flags wr)
    (swr_imm_data wr) (swr_wr wr).
Definition recv_with_id (i : Z) (wr : ibv_recv_wr) : ibv_recv_wr :=
  IbvRecvWr i (rwr_sg_list wr) (rwr_num_sge wr).
Definition wc_with_id (i : Z) (wc : ibv_wc) : ibv_wc :=
  IbvWc i (wc_status wc) (wc_byte_len wc) (wc_imm_data wc) (wc_flags wc).

Class Orderly (F : Fabric) := {
  fab_exec_ids i j wr r a b :
    fab_exec (with_id i wr) (recv_with_id j <$> r) a b =
    (λ x : ibv_wc * option (Z * option Z) * node * node,
      (wc_with_id i x.1.1.1, x.1.1.2, x.1.2, x.2)) <$> fab_exec wr r a b;
  fab_exec_needs_recv wr a b : needs_recv (swr_opcode wr) = true → fab_exec wr None a b = None;
  fab_exec_one_sided wr r a b : needs_recv (swr_opcode wr) = false →
    fab_exec wr r a b = fab_exec wr None a b ∧
    ∀ x, fab_exec wr None a b = Some x → x.1.1.2 = None }.

(** Cases on what [rc_exec] looks at. *)
Ltac rc_cases :=
  repeat (match goal with
    | |- context [match ?x with Some _ => _ | None => _ end] => destruct x; simpl
    | |- context [mbind (M:=option) ?f ?x] => destruct x; simpl
    | |- context [if ?x then _ else _] => destruct x; simpl
    end; try done).

#[export] Instance rc_orderly {H : Host} : Orderly RcFabric.
Proof.
  split.
  - intros i j wr r a b. simpl. unfold rc_exec, with_id, scatter.
    destruct wr as [id [|sge []] ns oc fl im u], r as [[rid [|rsge []] rn]|]; simpl;
      destruct oc, u; try done; simpl; rc_cases.
  - intros wr a b Hn. simpl. unfold rc_exec. destruct (swr_sg_list wr) as [|? []]; try done.
    by destruct (swr_opcode wr), (swr_wr wr).
  - intros wr r a b. simpl. unfold rc_exec.
    destruct (swr_sg_list wr) as [|sge []]; try done.
    destruct (swr_opcode wr), (swr_wr wr); try done; intros _; rc_cases;
      (split; [done|]); intros x; rc_cases; by intros [= <-].
Qed.

(** ** A reference adapter

    The reference provider with queues: one queue pair, and completion queues by handle. *)
Record queue_nic := QueueNic {
  qn_nic : rnic;
  qn_sends : list ibv_send_wr;
  qn_recvs : list ibv_recv_wr;
  qn_comps : gmap (option Z) (list ibv_wc) }.

Definition on_rnic {R} (f : rnic → R * rnic) (n : queue_nic) : R * queue_nic :=
  let '(r, m) := f (qn_nic n) in (r, QueueNic m (qn_sends n) (qn_recvs n) (qn_comps n)).
Definition cq_key (c : option ibv_cq) : option Z := cq_h <$> c.

#[export] Instance cq_key_inj : Inj (=) (=) cq_key.
Proof. intros [[h]|] [[h']|] [=]; by subst. Qed.

Definition qn_completions (c : option ibv_cq) (n : queue_nic) : list ibv_wc :=
  default [] (qn_comps n !! cq_key c).
Definition qn_complete (c : option ibv_cq) (wc : ibv_wc) (n : queue_nic)
    : gmap (option Z) (list ibv_wc) :=
  <[ cq_key c := qn_completions c n ++ [wc] ]> (qn_comps n).

Definition queue_verbs : Verbs := {|
  nic := queue_nic;
  nic_errno n := @nic_errno good (qn_nic n);
  strerror := @strerror good;
  IBV_WC_WITH_IMM := 2;
  wc_status_code := status_code;
  ibv_get_device_name := @ibv_get_device_name good;
  ibv_get_device_list := on_rnic (@ibv_get_device_list good);
  ibv_free_device_list n :=
    QueueNic (@ibv_free_device_list good (qn_nic n)) (qn_sends n) (qn_recvs n) (qn_comps n);
  ibv_open_device d := on_rnic (@ibv_open_device good d);
  ibv_close_device c := on_rnic (@ibv_close_device good c);
  ibv_query_port c p := on_rnic (@ibv_query_port good c p);
  ibv_query_device_ex c := on_rnic (@ibv_query_device_ex good c);
  ibv_query_gid c p i := on_rnic (@ibv_query_gid good c p i);
  ibv_alloc_pd c := on_rnic (@ibv_alloc_pd good c);
  ibv_dealloc_pd p := on_rnic (@ibv_dealloc_pd good p);
  ibv_reg_mr p a l f := on_rnic (@ibv_reg_mr good p a l f);
  ibv_dereg_mr m := on_rnic (@ibv_dereg_mr good m);
  ibv_create_cq c k := on_rnic (@ibv_create_cq good c k);
  ibv_destroy_cq c := on_rnic (@ibv_destroy_cq good c);
  ibv_poll_cq c count n :=
    let k := Z.to_nat count in
    (Z.of_nat (length (take k (qn_completions c n))), take k (qn_completions c n),
     QueueNic (qn_nic n) (qn_sends n) (qn_recvs n)
       (<[ cq_key c := drop k (qn_completions c n) ]> (qn_comps n)));
  ibv_create_srq p a := on_rnic (@ibv_create_srq good p a);
  ibv_destroy_srq s := on_rnic (@ibv_destroy_srq good s);
  ibv_create_qp p a := on_rnic (@ibv_create_qp good p a);
  ibv_modify_qp q a m := on_rnic (@ibv_modify_qp good q a m);
  ibv_destroy_qp q := on_rnic (@ibv_destroy_qp good q);
  ibv_post_send _ wr n :=
    (0%Z, QueueNic (qn_nic n) (qn_sends n ++ [wr]) (qn_recvs n) (qn_comps n));
  ibv_post_recv _ wr n :=
    (0%Z, QueueNic (qn_nic n) (qn_sends n) (qn_recvs n ++ [wr]) (qn_comps n));
  ibv_post_srq_recv s wr := on_rnic (@ibv_post_srq_recv good s wr) |}.

#[export] Instance queue_adapter : Adapter queue_verbs := {
  sendq _ := qn_sends : nic (Verbs:=queue_verbs) → _;
  recvq _ := qn_recvs : nic (Verbs:=queue_verbs) → _;
  compq := qn_completions : _ → nic (Verbs:=queue_verbs) → _;
  hw_sent _ c wc (n : nic (Verbs:=queue_verbs)) :=
    QueueNic (qn_nic n) (tail (qn_sends n)) (qn_recvs n) (qn_complete c wc n);
  hw_received _ c wc (n : nic (Verbs:=queue_verbs)) :=
    QueueNic (qn_nic n) (qn_sends n) (tail (qn_recvs n)) (qn_complete c wc n) }.

#[export] Instance queue_adapter_laws : AdapterLaws queue_verbs.
Proof.
  assert (∀ c l n, qn_completions c (QueueNic (qn_nic n) (qn_sends n) (qn_recvs n)
    (<[ cq_key c := l ]> (qn_comps n))) = l) as Hin.
  { intros c l n. unfold qn_completions. simpl. by rewrite lookup_insert_eq. }
  assert (∀ c c' l n, c' ≠ c → default [] (<[ cq_key c := l ]> (qn_comps n) !! cq_key c') =
    qn_completions c' n) as Hout.
  { intros c c' l n Hne. rewrite lookup_insert_ne; [done|]. by intros ?%(inj cq_key). }
  split; simpl.
  - intros q wr n Hn. eexists. split; [done|]. simpl. by rewrite Hn.
  - intros q wr n Hn. eexists. split; [done|]. simpl. by rewrite Hn.
  - intros c count n Hc. eexists. split; [done|]. split_and!; [apply Hin|done|].
    intros c' Hne. by apply Hout.
  - intros q c wc n. split_and!; try done; [apply (Hin c _ n)|].
    intros c' Hne. by apply Hout.
  - intros q c wc n. split_and!; try done; [apply (Hin c _ n)|].
    intros c' Hne. by apply Hout.
  - done.
Qed.
