(* ===== verification/Ownership.v ===== *)
(** * Shared ownership (std::shared_ptr)

    A heap of objects with the shared pointers each of them holds.  Dropping a pointer
    destroys its object when no other pointer to it is left, wherever it is held, and then
    drops those that the object holds; objects that hold each other are never destroyed. *)

From S2P Require Import Prelude.
From stdpp Require Import options.

Section ownership.
Context {K : Type} `{!EqDecision K}.

(** Each live object with its pointers, in the order in which its destructor drops them. *)
#[local] Notation heap := (list (K * list K)).

(** The pointers the objects hold. *)
Definition references (h : heap) : list K := mjoin h.*2.

Definition remove (k : K) (h : heap) : heap := filter (λ x, x.1 ≠ k) h.
Definition members (k : K) (h : heap) : option (list K) :=
  snd <$> (snd <$> list_find (λ x, x.1 = k) h).

(** Drop the pointers [todo], one after the other; [kept] are the pointers that are held
    elsewhere and stay.  The result is the objects destroyed, in order, and the heap left. *)
Fixpoint drop_pointers (fuel : nat) (kept todo : list K) (h : heap) : list K * heap :=
  match fuel, todo with
  | S fuel, k :: todo =>
      if bool_decide (k ∈ kept ++ todo ++ references h) then drop_pointers fuel kept todo h
      else match members k h with
      | Some ms =>
          let '(gone, h') := drop_pointers fuel kept (ms ++ todo) (remove k h) in (k :: gone, h')
      | None => drop_pointers fuel kept todo h
      end
  | _, _ => ([], h)
  end.

(** Each pointer of the heap is dropped at most once. *)
Definition release (kept todo : list K) (h : heap) : list K * heap :=
  drop_pointers (length todo + length (references h)) kept todo h.

(** ** Lemmas *)

Lemma elem_of_references k h : k ∈ references h ↔ ∃ o ms, (o, ms) ∈ h ∧ k ∈ ms.
Proof.
  unfold references. rewrite list_elem_of_join. split.
  - intros (ms & Hk & ((o & ms') & -> & Hin)%list_elem_of_fmap). by exists o, ms'.
  - intros (o & ms & Hin & Hk). exists ms. split; [done|]. apply list_elem_of_fmap. by exists (o, ms).
Qed.

Lemma members_elem_of k ms h : members k h = Some ms → (k, ms) ∈ h.
Proof.
  unfold members. destruct (list_find _ h) as [[i [k' ms']]|] eqn:Hf; simpl; [|done].
  apply list_find_Some in Hf as (Hi & Hk & _). simpl in Hk. subst. intros [= <-].
  by eapply list_elem_of_lookup_2.
Qed.

Lemma elem_of_remove k x h : x ∈ remove k h ↔ x.1 ≠ k ∧ x ∈ h.
Proof. unfold remove. by rewrite list_elem_of_filter. Qed.

(** The pointers of a destroyed object leave the heap. *)
Lemma references_remove k ms h :
  NoDup h.*1 → members k h = Some ms →
  references h ≡ₚ ms ++ references (remove k h).
Proof.
  unfold members. induction h as [|[k' ms'] h IH]; [done|]. cbn [fmap list_fmap fst].
  intros [Hk' Hnd]%NoDup_cons. cbn [list_find]. unfold references, remove in *.
  rewrite filter_cons. cbn [fst]. destruct (decide (k' = k)) as [->|Hne].
  - simpl. intros [= <-]. rewrite decide_False by auto. f_equiv.
    assert (filter (λ x : K * list K, x.1 ≠ k) h = h) as ->; [|done].
    clear IH Hnd. induction h as [|[k1 ms1] h IH]; [done|]. rewrite filter_cons. simpl in *.
    apply not_elem_of_cons in Hk' as [Hne Hk']. rewrite decide_True by auto. f_equal. auto.
  - rewrite decide_True by done. destruct (list_find (λ x, x.1 = k) h) as [[i x]|] eqn:Hf; simpl; [|done].
    intros [= <-]. rewrite (IH Hnd eq_refl). by rewrite !app_assoc, (Permutation_app_comm ms').
Qed.

(** ** What stays *)

(** Objects that are kept from outside or hold each other. *)
Definition sustained (kept : list K) (h : heap) (X : K → Prop) : Prop :=
  ∀ k, X k → k ∈ kept ∨ ∃ o ms, X o ∧ (o, ms) ∈ h ∧ k ∈ ms.

Lemma sustained_kept fuel kept todo h X k :
  sustained kept h X → X k → k ∉ (drop_pointers fuel kept todo h).1.
Proof.
  revert todo h. induction fuel as [|fuel IH]; intros todo h Hs Hk; [by apply not_elem_of_nil|].
  destruct todo as [|j todo]; [by apply not_elem_of_nil|]. cbn [drop_pointers].
  case_bool_decide as Hj; [by apply IH|].
  destruct (members j h) as [ms|]; [|by apply IH].
  destruct (drop_pointers fuel kept (ms ++ todo) (remove j h)) as [gone h'] eqn:Hd.
  assert (¬ X j) as Hnj.
  { intros Hx. apply Hj. rewrite !elem_of_app, elem_of_references.
    destruct (Hs j Hx) as [?|(o & ms' & _ & ? & ?)]; [by left|right; right; eauto]. }
  simpl. apply not_elem_of_cons. split; [by intros ->|].
  replace gone with (drop_pointers fuel kept (ms ++ todo) (remove j h)).1 by by rewrite Hd.
  apply IH; [|done]. intros i Hi. destruct (Hs i Hi) as [?|(o & ms' & Ho & Hin & ?)]; [by left|].
  right. exists o, ms'. split_and!; [done| |done]. apply elem_of_remove. split; [|done].
  simpl. by intros ->.
Qed.

Lemma drop_pointers_gone fuel kept todo h k : k ∈ (drop_pointers fuel kept todo h).1 → k ∈ h.*1.
Proof.
  revert todo h. induction fuel as [|fuel IH]; intros todo h; [by intros ?%elem_of_nil|].
  destruct todo as [|j todo]; [by intros ?%elem_of_nil|]. cbn [drop_pointers].
  case_bool_decide; [apply IH|]. destruct (members j h) as [ms|] eqn:Hm; [|apply IH].
  destruct (drop_pointers fuel kept (ms ++ todo) (remove j h)) as [gone h'] eqn:Hd. simpl.
  intros [->|Hk]%elem_of_cons.
  - apply members_elem_of in Hm. apply list_elem_of_fmap. by exists (j, ms).
  - replace gone with (drop_pointers fuel kept (ms ++ todo) (remove j h)).1 in Hk by by rewrite Hd.
    apply IH in Hk. apply list_elem_of_fmap in Hk as (x & -> & Hx). apply elem_of_remove in Hx as [_ Hx].
    apply list_elem_of_fmap. by exists x.
Qed.

(** When every object is sustained, dropping pointers destroys nothing. *)
Lemma sustained_release kept todo h :
  sustained kept h (λ k, k ∈ h.*1) → (release kept todo h).1 = [].
Proof.
  intros Hs. destruct (release kept todo h).1 as [|k gone] eqn:Hr; [done|].
  assert (k ∈ (release kept todo h).1) as Hk by (rewrite Hr; by left).
  destruct (sustained_kept _ kept todo h _ k Hs (drop_pointers_gone _ _ _ _ _ Hk) Hk).
Qed.

(** ** What goes *)

(** Every object is held. *)
Definition held_by (kept todo : list K) (h : heap) : Prop :=
  ∀ k, k ∈ h.*1 → k ∈ kept ++ todo ++ references h.

Lemma drop_pointers_held fuel kept todo h :
  NoDup h.*1 → held_by kept todo h → length todo + length (references h) ≤ fuel →
  held_by kept [] (drop_pointers fuel kept todo h).2.
Proof.
  revert todo h. induction fuel as [|fuel IH]; intros todo h Hnd Hh Hlen.
  { destruct todo; [done|simpl in Hlen; lia]. }
  destruct todo as [|j todo]; [done|]. cbn [drop_pointers]. simpl in Hlen.
  case_bool_decide as Hj.
  { apply IH; [done| |lia]. intros k Hk. specialize (Hh k Hk).
    rewrite !elem_of_app, elem_of_cons in Hh. rewrite !elem_of_app in *.
    destruct Hh as [?|[[->|?]|?]]; auto. }
  destruct (members j h) as [ms|] eqn:Hm.
  - pose proof (references_remove j ms h Hnd Hm) as Hp.
    destruct (drop_pointers fuel kept (ms ++ todo) (remove j h)) as [gone h'] eqn:Hd. simpl.
    replace h' with (drop_pointers fuel kept (ms ++ todo) (remove j h)).2 by by rewrite Hd.
    apply IH.
    + unfold remove. clear -Hnd. induction h as [|x h IH]; [done|]. simpl in Hnd.
      apply NoDup_cons in Hnd as [Hx Hnd]. rewrite filter_cons. case_decide; [|by apply IH].
      simpl. apply NoDup_cons. split; [|by apply IH]. intros Hin. apply Hx.
      apply list_elem_of_fmap in Hin as (y & -> & Hy). apply list_elem_of_filter in Hy as [_ Hy].
      apply list_elem_of_fmap. by exists y.
    + intros k Hk. apply list_elem_of_fmap in Hk as (x & -> & Hx).
      apply elem_of_remove in Hx as [Hne Hx].
      assert (x.1 ∈ h.*1) as Hin by (apply list_elem_of_fmap; eauto).
      specialize (Hh _ Hin). rewrite Hp, !elem_of_app, elem_of_cons in Hh. rewrite !elem_of_app.
      tauto.
    + apply Permutation_length in Hp. rewrite length_app in *. lia.
  - apply IH; [done| |lia]. intros k Hk. specialize (Hh k Hk).
    rewrite !elem_of_app, elem_of_cons in Hh. rewrite !elem_of_app in *.
    destruct Hh as [?|[[->|?]|?]]; auto. exfalso.
    apply list_elem_of_fmap in Hk as ([? ms] & -> & Hin). unfold members in Hm. simpl in *.
    destruct (list_find (λ x, x.1 = k) h) as [[i x]|] eqn:Hf; [done|].
    apply list_find_None in Hf. rewrite Forall_forall in Hf. by apply (Hf _ Hin).
Qed.

(** An object that is left when nothing is kept is held by an object that is left: the
    rest of the heap is sustained by itself. *)
Lemma release_rest todo h :
  NoDup h.*1 → held_by [] todo h →
  sustained [] (release [] todo h).2 (λ k, k ∈ (release [] todo h).2.*1).
Proof.
  intros Hnd Hh k Hk. right.
  pose proof (drop_pointers_held _ [] todo h Hnd Hh (le_n _) k Hk) as Hin.
  apply elem_of_references in Hin as (o & ms & Hin & Hk').
  exists o, ms. split_and!; [|done|done]. apply list_elem_of_fmap. by exists (o, ms).
Qed.
End ownership.
