(* ===== verification/IoThreads.v ===== *)
(** * The threads and io_contexts of the examples

    How the main thread of an example, the [std::jthread] it may start and the coroutines
    it spawns share one [asio::io_context]: who runs the context, what keeps [run] from
    returning, and in which order the objects of a scope are destroyed.  A function of the
    source is the list of what it does to these objects, in the order of its statements; its
    other statements are [Body], which returns or throws.  A coroutine is known by whether
    it has ended (with everything it has spawned); how it ends is chosen by the steps.

    The context itself is code of asio: what [run] does is a class, with the behaviour asio
    documents as its laws. *)

From S2P Require Import Prelude.
From stdpp Require Import options.

(** ** The io_context *)

Inductive on_signal := SignalStop | SignalReset.
#[export] Instance on_signal_eq_dec : EqDecision on_signal.
Proof. solve_decision. Defined.

(** What [co_spawn (…, use_future)] returned. *)
Inductive fut := NoFuture | Pending | Ready (ok : bool).
#[export] Instance fut_eq_dec : EqDecision fut.
Proof. solve_decision. Defined.

(** What the program has made of a context: its work guard, its waiting signal set, the
    detached coroutines and the awaited one that have not ended, and whether it is stopped. *)
Record io_context := IoContext {
  work_guard : bool;
  waiting : option on_signal;
  detached : nat;
  awaited : fut;
  stopped : bool }.
#[export] Instance io_context_eq_dec : EqDecision io_context.
Proof. solve_decision. Defined.

Definition io_context_ctor : io_context := IoContext false None 0 NoFuture false.

Definition has_work (c : io_context) : bool :=
  work_guard c || bool_decide (is_Some (waiting c)) || bool_decide (detached c ≠ 0) ||
  bool_decide (awaited c = Pending).

(** [run] returns when the context is stopped or has run out of work, and only then; the
    handlers of a context that is not stopped are run. *)
Class Asio := {
  run_returns : io_context → bool;
  serves : io_context → bool;
  run_waits c : stopped c = false → has_work c = true → run_returns c = false;
  run_ends c : stopped c = true ∨ has_work c = false → run_returns c = true;
  serves_live c : stopped c = false → serves c = true;
  serves_stopped c : stopped c = true → serves c = false }.

#[refine] Instance reference_asio : Asio := {|
  run_returns c := stopped c || negb (has_work c);
  serves c := negb (stopped c) |}.
Proof.
  - by intros c -> ->.
  - intros c [->| ->]; [done|]. by destruct (stopped c).
  - by intros c ->.
  - by intros c ->.
Defined.

(** ** What a function does to them *)

Inductive act :=
  | Guard                       (* auto guard = asio::make_work_guard(io_ctx) *)
  | Signals (h : on_signal)     (* asio::signal_set signals; signals.async_wait(h) *)
  | Thread                      (* std::jthread w([&] { io_ctx.run(); }) *)
  | Spawn (use_future : bool)   (* asio::co_spawn(io_ctx, …, use_future or detached) *)
  | Get                         (* get() of that future *)
  | Reset                       (* guard.reset() *)
  | Run                         (* io_ctx.run(), or while (!io_ctx.stopped()) io_ctx.poll() *)
  | Body
  | Loop (body : list act).     (* while (true) *)

#[export] Instance act_eq_dec : EqDecision act.
Proof.
  refine (fix go a1 a2 :=
    let _ : EqDecision act := @go in
    match a1, a2 with
    | Guard, Guard | Thread, Thread | Get, Get | Reset, Reset | Run, Run | Body, Body => left _
    | Signals h1, Signals h2 => cast_if (decide (h1 = h2))
    | Spawn f1, Spawn f2 => cast_if (decide (f1 = f2))
    | Loop l1, Loop l2 => cast_if (decide (l1 = l2))
    | _, _ => right _
    end); abstract congruence.
Defined.

(** A variable whose destructor matters. *)
Inductive local := LGuard | LSignals | LThread.
#[export] Instance local_eq_dec : EqDecision local.
Proof. solve_decision. Defined.

Inductive thread_state := NotStarted | Running | Finished.
#[export] Instance thread_state_eq_dec : EqDecision thread_state.
Proof. solve_decision. Defined.

Record st := St {
  todo : list act;
  locals : list local;
  ctx : io_context;
  thread : thread_state;
  threw : bool }.

Definition start (l : list act) : st := St l [] io_context_ctor NotStarted false.
Definition ended (s : st) : Prop := todo s = [] ∧ locals s = [].
#[export] Instance ended_dec s : Decision (ended s).
Proof.
  unfold ended. destruct (todo s), (locals s);
    [by left|right..]; abstract by intros [? ?].
Defined.

(** *** The functions *)

(** async_rpc.cc; [n] is [kQP]. *)
Definition async_rpc_client (n : nat) : list act :=
  [Guard; Thread] ++ concat (replicate n [Spawn true; Get; Body]) ++ [Body].
Definition async_rpc_server : list act := [Guard; Thread; Loop [Spawn true; Get; Body]; Reset].

(** latency_raw.cc *)
Definition latency_raw_client : list act := [Guard; Thread; Spawn true; Get; Reset; Body].
Definition latency_raw_server : list act := [Guard; Thread; Loop [Spawn true; Get; Body]; Reset].

(** send_bw_raw.cc *)
Definition send_bw_raw_client : list act := [Thread; Spawn true; Run; Get; Body].
Definition send_bw_raw_server : list act := [Guard; Thread; Spawn true; Get; Reset; Body].

(** The two cases of [switch (argc)]: helloworld.cc, rpc.cc, latency.cc, cancellation.cc.
    [Body] is [std::stoi] and the acceptor's or connector's constructor. *)
Definition helloworld_server_case : list act :=
  [Signals SignalStop; Guard; Body; Spawn false; Run].
Definition helloworld_client_case : list act := [Body; Spawn true; Run; Get].
Definition rpc_server_case : list act := [Signals SignalStop; Guard; Body; Spawn false; Run].
Definition rpc_client_case : list act := [Body; Spawn false; Run].
Definition latency_server_case : list act := [Signals SignalStop; Guard; Body; Spawn false; Run].
Definition latency_client_case : list act := [Body; Spawn false; Run].
Definition cancellation_server_case : list act :=
  [Signals SignalReset; Guard; Body; Spawn false; Run].
Definition cancellation_client_case : list act := [Body; Spawn true; Run; Get].

(** The member functions of the Python binding's RDMAApp (pybind11/helloworld.cc); all calls
    on one object use one context. *)
Definition rdma_app_run_server : list act := [Guard; Body; Spawn false; Run].
Definition rdma_app_run_client : list act := [Body; Spawn true; Run; Get].

(** ** Running them *)

Definition set_guard (b : bool) (c : io_context) : io_context :=
  IoContext b (waiting c) (detached c) (awaited c) (stopped c).
Definition set_waiting (h : option on_signal) (c : io_context) : io_context :=
  IoContext (work_guard c) h (detached c) (awaited c) (stopped c).
Definition set_detached (n : nat) (c : io_context) : io_context :=
  IoContext (work_guard c) (waiting c) n (awaited c) (stopped c).
Definition set_awaited (f : fut) (c : io_context) : io_context :=
  IoContext (work_guard c) (waiting c) (detached c) f (stopped c).
Definition stop (c : io_context) : io_context :=
  IoContext (work_guard c) (waiting c) (detached c) (awaited c) true.

Definition co_spawn (use_future : bool) (c : io_context) : io_context :=
  if use_future then set_awaited Pending c else set_detached (S (detached c)) c.

(** The handler of the signal set. *)
Definition handle (h : on_signal) (c : io_context) : io_context :=
  match h with
  | SignalStop => stop (set_waiting None c)
  | SignalReset => set_guard false (set_waiting None c)
  end.

(** Some thread is in [run]. *)
Definition running (s : st) : bool :=
  bool_decide (thread s = Running) || match todo s with Run :: _ => true | _ => false end.

Definition with_ctx (f : io_context → io_context) (s : st) : st :=
  St (todo s) (locals s) (f (ctx s)) (thread s) (threw s).

(** The steps of the main thread, of the thread that runs the context, and of the coroutines;
    [sig]: whether the process is sent a signal. *)
Inductive step {A : Asio} (sig : bool) : st → st → Prop :=
| do_guard l ls c t x :
    step sig (St (Guard :: l) ls c t x) (St l (LGuard :: ls) (set_guard true c) t x)
| do_signals h l ls c t x :
    step sig (St (Signals h :: l) ls c t x)
      (St l (LSignals :: ls) (set_waiting (Some h) c) t x)
| do_thread l ls c x :
    step sig (St (Thread :: l) ls c NotStarted x) (St l (LThread :: ls) c Running x)
| do_spawn f l ls c t x :
    step sig (St (Spawn f :: l) ls c t x) (St l ls (co_spawn f c) t x)
| do_get l ls c t x :
    awaited c = Ready true → step sig (St (Get :: l) ls c t x) (St l ls c t x)
| do_rethrow l ls c t x :
    awaited c = Ready false → step sig (St (Get :: l) ls c t x) (St [] ls c t true)
| do_reset l ls c t x :
    step sig (St (Reset :: l) ls c t x) (St l ls (set_guard false c) t x)
| do_run l ls c t x :
    run_returns c = true → step sig (St (Run :: l) ls c t x) (St l ls (stop c) t x)
| do_body l ls c t x : step sig (St (Body :: l) ls c t x) (St l ls c t x)
| do_throw l ls c t x : step sig (St (Body :: l) ls c t x) (St [] ls c t true)
| do_loop b l ls c t x :
    step sig (St (Loop b :: l) ls c t x) (St (b ++ Loop b :: l) ls c t x)
| leave_guard ls c t x : step sig (St [] (LGuard :: ls) c t x) (St [] ls (set_guard false c) t x)
| leave_signals ls c t x :
    step sig (St [] (LSignals :: ls) c t x) (St [] ls (set_waiting None c) t x)
| leave_thread ls c x : step sig (St [] (LThread :: ls) c Finished x) (St [] ls c Finished x)
| thread_ends l ls c x :
    run_returns c = true → step sig (St l ls c Running x) (St l ls (stop c) Finished x)
| awaited_ends ok s :
    running s = true → serves (ctx s) = true → awaited (ctx s) = Pending →
    step sig s (with_ctx (set_awaited (Ready ok)) s)
| detached_ends n s :
    running s = true → serves (ctx s) = true → detached (ctx s) = S n →
    step sig s (with_ctx (set_detached n) s)
| signalled h s :
    sig = true → running s = true → serves (ctx s) = true → waiting (ctx s) = Some h →
    step sig s (with_ctx (handle h) s).

(** *** The same as a function: all the states a step can lead to *)

Definition returns (c : io_context) : bool := stopped c || negb (has_work c).

Definition main_next (s : st) : list st :=
  let c := ctx s in
  match todo s, locals s with
  | Guard :: l, ls => [St l (LGuard :: ls) (set_guard true c) (thread s) (threw s)]
  | Signals h :: l, ls => [St l (LSignals :: ls) (set_waiting (Some h) c) (thread s) (threw s)]
  | Thread :: l, ls =>
      if bool_decide (thread s = NotStarted) then [St l (LThread :: ls) c Running (threw s)] else []
  | Spawn f :: l, ls => [St l ls (co_spawn f c) (thread s) (threw s)]
  | Get :: l, ls =>
      match awaited c with
      | Ready true => [St l ls c (thread s) (threw s)]
      | Ready false => [St [] ls c (thread s) true]
      | _ => []
      end
  | Reset :: l, ls => [St l ls (set_guard false c) (thread s) (threw s)]
  | Run :: l, ls => if returns c then [St l ls (stop c) (thread s) (threw s)] else []
  | Body :: l, ls => [St l ls c (thread s) (threw s); St [] ls c (thread s) true]
  | Loop b :: l, ls => [St (b ++ Loop b :: l) ls c (thread s) (threw s)]
  | [], LGuard :: ls => [St [] ls (set_guard false c) (thread s) (threw s)]
  | [], LSignals :: ls => [St [] ls (set_waiting None c) (thread s) (threw s)]
  | [], LThread :: ls =>
      if bool_decide (thread s = Finished) then [St [] ls c (thread s) (threw s)] else []
  | [], [] => []
  end.

Definition thread_next (s : st) : list st :=
  if bool_decide (thread s = Running) && returns (ctx s)
  then [St (todo s) (locals s) (stop (ctx s)) Finished (threw s)] else [].

Definition coroutine_next (sig : bool) (s : st) : list st :=
  if running s && negb (stopped (ctx s)) then
    (if bool_decide (awaited (ctx s) = Pending)
     then [with_ctx (set_awaited (Ready true)) s; with_ctx (set_awaited (Ready false)) s] else []) ++
    match detached (ctx s) with S n => [with_ctx (set_detached n) s] | O => [] end ++
    match waiting (ctx s) with
    | Some h => if sig then [with_ctx (handle h) s] else []
    | None => []
    end
  else [].

Definition next (sig : bool) (s : st) : list st :=
  main_next s ++ thread_next s ++ coroutine_next sig s.

(** One way to run [s]: [path] says which of the possible steps is taken each time. *)
Fixpoint follow (sig : bool) (path : list nat) (s : st) : option st :=
  match path with
  | [] => Some s
  | i :: path => s ← next sig s !! i; follow sig path s
  end.

(** Every way to run [s] comes to an end within [fuel] steps, in a state where [P] holds. *)
Fixpoint all_runs (sig : bool) (P : st → bool) (fuel : nat) (s : st) : bool :=
  match fuel with
  | O => false
  | S fuel =>
      match next sig s with
      | [] => P s
      | l => forallb (all_runs sig P fuel) l
      end
  end.

(** [P] holds in every state that running [s] goes through, within [fuel] steps. *)
Fixpoint all_states (sig : bool) (P : st → bool) (fuel : nat) (s : st) : bool :=
  match fuel with
  | O => false
  | S fuel => P s && forallb (all_states sig P fuel) (next sig s)
  end.

(** ** Lemmas *)

Section lemmas.
Context {A : Asio}.

Lemma run_returns_eq c : run_returns c = returns c.
Proof.
  unfold returns. destruct (stopped c) eqn:Hs; simpl; [by apply run_ends; left|].
  destruct (has_work c) eqn:Hw; simpl; [by apply run_waits|by apply run_ends; right].
Qed.

Lemma serves_eq c : serves c = negb (stopped c).
Proof. destruct (stopped c) eqn:Hs; simpl; [by apply serves_stopped|by apply serves_live]. Qed.

Ltac next_cases :=
  repeat match goal with
  | H : _ ∈ [] |- _ => by apply elem_of_nil in H
  | H : _ ∈ _ :: _ |- _ => apply elem_of_cons in H as [->|H]
  | H : _ ∈ _ ++ _ |- _ => apply elem_of_app in H as [H|H]
  | H : _ ∈ match ?x with _ => _ end |- _ => destruct x eqn:?
  end.

Lemma main_next_step sig s s' : s' ∈ main_next s → step sig s s'.
Proof.
  destruct s as [l ls c t x]. unfold main_next. simpl. intros Hs. next_cases;
    repeat match goal with
    | H : bool_decide _ = true |- _ => apply bool_decide_eq_true in H as ->
    end; by constructor; rewrite ?run_returns_eq.
Qed.

Lemma next_step sig s s' : s' ∈ next sig s → step sig s s'.
Proof.
  unfold next. rewrite !elem_of_app. intros [H|[H|H]]; [by apply main_next_step| |].
  - unfold thread_next in H. next_cases. destruct s as [l ls c t x]; simpl in *.
    apply andb_true_iff in Heqb as [Ht%bool_decide_eq_true Hr]. subst t.
    constructor. by rewrite run_returns_eq.
  - unfold coroutine_next in H. next_cases;
      apply andb_true_iff in Heqb as [Hr Hs]; rewrite <- serves_eq in Hs;
      try apply bool_decide_eq_true in Heqb0; by constructor.
Qed.

Lemma step_next sig s s' : step sig s s' → s' ∈ next sig s.
Proof.
  unfold next. rewrite !elem_of_app. intros []; simpl;
    rewrite ?run_returns_eq, ?serves_eq in *.
  all: try (left; unfold main_next; simpl;
    repeat match goal with H : _ = _ |- _ => rewrite H end; set_solver).
  all: right; unfold thread_next, coroutine_next; simpl;
    repeat match goal with H : _ = _ |- _ => rewrite H end; simpl.
  - left. set_solver.
  - right. destruct ok; set_solver.
  - right. set_solver.
  - right. set_solver.
Qed.

Lemma follow_steps sig path s s' : follow sig path s = Some s' → rtc (step sig) s s'.
Proof.
  revert s. induction path as [|i path IH]; intros s; [by intros [= ->]|].
  cbn [follow]. intros (s1 & Hi & Hs)%bind_Some. eapply rtc_l; [|by apply IH].
  by eapply next_step, list_elem_of_lookup_2.
Qed.

Lemma next_nil sig s : next sig s = [] → ∀ s', ¬ step sig s s'.
Proof. intros Hn s' Hs%step_next. rewrite Hn in Hs. by apply elem_of_nil in Hs. Qed.

Lemma all_runs_sound sig P fuel s :
  all_runs sig P fuel s = true →
  Acc (flip (step sig)) s ∧
  ∀ s', rtc (step sig) s s' → (∀ s2, ¬ step sig s' s2) → P s' = true.
Proof.
  revert s. induction fuel as [|fuel IH]; intros s; [done|]. cbn [all_runs]. intros Hall.
  assert (∀ s', step sig s s' → all_runs sig P fuel s' = true) as Hnext.
  { intros s' Hs%step_next. destruct (next sig s) eqn:Hn; [by apply elem_of_nil in Hs|].
    rewrite forallb_forall in Hall. by apply Hall, list_elem_of_In. }
  split.
  - constructor. intros s' Hs. by apply IH, Hnext.
  - intros s' Hr Hstuck. destruct Hr as [s|s s1 s' Hs Hr].
    + destruct (next sig s) as [|s1 l] eqn:Hn; [done|].
      destruct (Hstuck s1). apply next_step. rewrite Hn. set_solver.
    + destruct (IH s1 (Hnext s1 Hs)) as [_ HP]. by apply HP.
Qed.

Lemma all_states_sound sig P fuel s s' :
  all_states sig P fuel s = true → rtc (step sig) s s' → P s' = true.
Proof.
  intros Hall Hr. revert fuel Hall. induction Hr as [s|s s1 s' Hs%step_next _ IH];
    intros [|fuel]; [done| |done|]; cbn [all_states]; intros [HP Hall]%andb_true_iff; [done|].
  apply (IH fuel). rewrite forallb_forall in Hall. by apply Hall, list_elem_of_In.
Qed.
End lemmas.

(** ** Properties *)

Section properties.
Context {A : Asio}.

(** Every way to run [l] is finite and ends in [P]. *)
Definition runs_to (sig : bool) (l : list act) (P : st → Prop) : Prop :=
  Acc (flip (step sig)) (start l) ∧
  ∀ s, rtc (step sig) (start l) s → (∀ s2, ¬ step sig s s2) → P s.

Lemma runs_to_by (fuel : nat) sig l (P : st → Prop) `{∀ s, Decision (P s)} :
  all_runs sig (λ s, bool_decide (P s)) fuel (start l) = true → runs_to sig l P.
Proof.
  intros [Hacc Hfin]%all_runs_sound. split; [done|]. intros s Hs Hstuck.
  exact (bool_decide_eq_true_1 _ (Hfin s Hs Hstuck)).
Qed.

Ltac runs := refine (runs_to_by 20 _ _ _ _); match goal with b : bool |- _ => destruct b; vm_compute; reflexivity end.

(** *** A work guard that outlives the thread *)

(** Statements that leave the guard and the thread alone. *)
Fixpoint plain (a : act) : bool :=
  match a with
  | Guard | Thread | Reset | Signals _ => false
  | Loop b => forallb plain b
  | _ => true
  end.

(** What follows an infinite loop does not matter. *)
Definition never_resets (l : list act) : Prop :=
  forallb plain l = true ∨
  ∃ l1 b l2, l = l1 ++ Loop b :: l2 ∧ forallb plain l1 = true ∧ forallb plain b = true.

Definition held (s : st) : Prop :=
  locals s = [LThread; LGuard] ∧ thread s = Running ∧ never_resets (todo s) ∧
  work_guard (ctx s) = true ∧ waiting (ctx s) = None ∧ stopped (ctx s) = false.

Lemma never_resets_cons a l :
  never_resets (a :: l) →
  plain a = true ∧ match a with Loop b => never_resets (b ++ a :: l) | _ => never_resets l end.
Proof.
  intros [Hl|(l1 & b & l2 & Hl & H1 & Hb)].
  - simpl in Hl. apply andb_true_iff in Hl as [Ha Hl]. split; [done|].
    destruct a; try by left. left. rewrite forallb_app. simpl in *. by rewrite Ha, Hl.
  - destruct l1 as [|a' l1]; simplify_eq/=.
    + split; [done|]. right. by exists b, b, l2.
    + apply andb_true_iff in H1 as [Ha H1]. split; [done|].
      destruct a'; try (right; by exists l1, b, l2).
      right. exists (body ++ Loop body :: l1), b, l2. rewrite forallb_app. simpl in *.
      rewrite Ha, H1. by rewrite <- app_assoc.
Qed.

Lemma held_blocks s : held s → run_returns (ctx s) = false.
Proof.
  intros (_ & _ & _ & Hg & _ & Hs). apply run_waits; [done|]. unfold has_work. by rewrite Hg.
Qed.

Lemma held_step sig s s' : held s → step sig s s' → held s'.
Proof.
  intros Hh Hs. pose proof (held_blocks s Hh) as Hblock.
  destruct Hh as (Hls & Ht & Hr & Hg & Hw & Hst).
  destruct Hs; simplify_eq/=; try (apply never_resets_cons in Hr as [? Hr]); try done.
  all: try by (unfold held; simpl; split_and!; try done; by left).
  all: try congruence. destruct f; by split_and!.
Qed.

(** Where a function that starts with the guard and the thread can be. *)
Definition guarded_run (l : list act) (s : st) : Prop :=
  s = start (Guard :: Thread :: l) ∨
  s = St (Thread :: l) [LGuard] (set_guard true io_context_ctor) NotStarted false ∨ held s.

Lemma guarded_run_step sig l s s' :
  never_resets l → guarded_run l s → step sig s s' → guarded_run l s'.
Proof.
  intros Hl [->|[->|Hh]] Hs.
  - right; left. by inversion Hs; simplify_eq/=.
  - right; right. by inversion Hs; simplify_eq/=.
  - right; right. by eapply held_step.
Qed.

Lemma guarded_never_ends sig l s :
  never_resets l → rtc (step sig) (start (Guard :: Thread :: l)) s → ¬ ended s.
Proof.
  intros Hl Hr. assert (guarded_run l s) as Hinv.
  { eapply rtc_invariant; [|exact Hr|by left]. intros s1 s2. by apply guarded_run_step. }
  intros [Hto Hlo]. destruct Hinv as [->|[->|(Hls & _)]]; [done..|]. by rewrite Hls in Hlo.
Qed.

(** C20: the servers of async_rpc.cc and latency_raw.cc never end, not even by an exception;
    neither does the client of async_rpc.cc, whatever number of queue pairs it connects: its
    scope destroys the thread, and waits for it, before the work guard the thread waits for,
    which nothing has reset. *)
Theorem guarded_functions_never_end (sig : bool) (n : nat) (s : st) :
  (∃ l, l ∈ [async_rpc_client n; async_rpc_server; latency_raw_server] ∧
     rtc (step sig) (start l) s) →
  ¬ ended s.
Proof.
  assert (forallb plain (concat (replicate n [Spawn true; Get; Body]) ++ [Body]) = true) as Hn.
  { rewrite forallb_app. induction n as [|n IH]; [done|]. simpl in *. exact IH. }
  intros (l & Hl & Hr). revert Hr.
  apply elem_of_cons in Hl as [->|Hl]; [apply guarded_never_ends; by left|].
  repeat (apply elem_of_cons in Hl as [->|Hl];
    [apply guarded_never_ends; right; by exists [], [Spawn true; Get; Body], [Reset]|]).
  by apply elem_of_nil in Hl.
Qed.

(** The client of latency_raw.cc and the server of send_bw_raw.cc, however their two
    threads and the handshake interleave, their other statements taken to return or throw:
    every run is finite; it ends with the function
    left if the handshake gave a queue pair, and otherwise blocked for good, in the
    destructor of the thread. *)
Theorem raw_functions_end (sig : bool) (l : list act) :
  l ∈ [latency_raw_client; send_bw_raw_server] →
  runs_to sig l (λ s,
    (ended s ↔ awaited (ctx s) = Ready true) ∧
    (¬ ended s → awaited (ctx s) = Ready false ∧ todo s = [] ∧ locals s = [LThread; LGuard])).
Proof.
  intros Hl. repeat (apply elem_of_cons in Hl as [->|Hl];
    [runs|]). by apply elem_of_nil in Hl.
Qed.

(** C21: the client of send_bw_raw.cc has a race: the thread it starts may run the context
    before anything is spawned on it; [run] then stops the context, the handshake is never
    run, and the main thread waits for its queue pair for ever.  Every run is finite, its
    other statements taken to return or throw; the function is left unless this has happened. *)
Theorem send_bw_raw_client_race (sig : bool) :
  runs_to sig send_bw_raw_client (λ s,
    ended s ∨ todo s = [Get; Body] ∧ awaited (ctx s) = Pending ∧ stopped (ctx s) = true) ∧
  (∃ s, rtc (step sig) (start send_bw_raw_client) s ∧ ended s ∧ threw s = false) ∧
  (∃ s, rtc (step sig) (start send_bw_raw_client) s ∧ ¬ ended s ∧ ∀ s', ¬ step sig s s').
Proof.
  split; [runs|]. split; eexists.
  - split; [apply (follow_steps sig (replicate 8 0)); by destruct sig|done].
  - split; [apply (follow_steps sig [0; 1; 0; 0]); by destruct sig|].
    split; [by intros []|apply next_nil]. by destruct sig.
Qed.

(** C19: the two cases of the [switch] of the asio examples: the client's ends with its
    coroutines, in an exception if its constructor threw, and in helloworld.cc and
    cancellation.cc also if its coroutine did; the server's ends after a signal, and
    without one keeps running its context, whatever becomes of its coroutines, unless its
    constructor threw. *)
Theorem switch_cases_end (sig : bool) (l : list act) :
  (l ∈ [helloworld_client_case; cancellation_client_case] →
   runs_to sig l (λ s, ended s ∧ (threw s = false ↔ awaited (ctx s) = Ready true))) ∧
  (l ∈ [rpc_client_case; latency_client_case] →
   runs_to sig l (λ s, ended s ∧ detached (ctx s) = 0 ∧ (threw s = false ↔ stopped (ctx s) = true))) ∧
  (l ∈ [helloworld_server_case; rpc_server_case; latency_server_case; cancellation_server_case] →
   runs_to sig l (λ s,
     (ended s → sig = true ∨ threw s = true) ∧
     (¬ ended s → sig = false ∧ todo s = [Run] ∧ work_guard (ctx s) = true))).
Proof.
  split_and!; intros Hl; repeat (apply elem_of_cons in Hl as [->|Hl];
    [runs|]); by apply elem_of_nil in Hl.
Qed.
(** The Python binding: one client ends with its coroutine, in an exception if its
    constructor or its coroutine threw, and one server runs its context for ever unless its
    constructor threw.  The context of an object is never restarted, so that after a client
    the object is spent: a second client is never served, but waits for its future for ever
    (or has thrown), and a server returns at once, its acceptor never having run. *)
Theorem rdma_app_once (sig : bool) :
  runs_to sig rdma_app_run_client (λ s,
    ended s ∧ (threw s = false ↔ awaited (ctx s) = Ready true)) ∧
  runs_to sig rdma_app_run_server (λ s,
    (ended s ↔ threw s = true) ∧ (¬ ended s → todo s = [Run] ∧ work_guard (ctx s) = true)) ∧
  runs_to sig (rdma_app_run_client ++ rdma_app_run_client) (λ s,
    ended s ∧ threw s = true ∨
    todo s = [Get] ∧ awaited (ctx s) = Pending ∧ stopped (ctx s) = true) ∧
  runs_to sig (rdma_app_run_client ++ rdma_app_run_server) (λ s,
    ended s ∧ (threw s = false → detached (ctx s) = 1 ∧ stopped (ctx s) = true)).
Proof. split_and!; runs. Qed.
End properties.

(** ** Witnesses *)

#[local] Existing Instance reference_asio.

Lemma guarded_functions_never_end_witness :
  ∃ s, rtc (step false) (start (async_rpc_client 1)) s ∧ todo s = [] ∧ ¬ ended s.
Proof.
  eexists (St _ _ _ _ _). split; [|split; [reflexivity|]].
  - apply (follow_steps false (replicate 7 0)). reflexivity.
  - apply (guarded_functions_never_end false 1). exists (async_rpc_client 1).
    split; [by constructor|]. apply (follow_steps false (replicate 7 0)). reflexivity.
Defined.

Lemma raw_functions_end_witness :
  Acc (flip (step true)) (start latency_raw_client).
Proof. apply (raw_functions_end true latency_raw_client). by constructor. Defined.

Lemma switch_cases_end_witness :
  ∃ s, rtc (step true) (start helloworld_server_case) s ∧ ended s ∧ (true = true ∨ threw s = true).
Proof.
  assert (rtc (step true) (start helloworld_server_case)
    (St [] [] (IoContext false None 1 NoFuture true) NotStarted false)) as Hr.
  { by apply (follow_steps true [0; 0; 0; 0; 1; 0; 0; 0]). }
  eexists. split; [exact Hr|]. split; [by split|].
  destruct (switch_cases_end true helloworld_server_case) as (_ & _ & Hserver).
  apply (proj2 (Hserver ltac:(by constructor)) _ Hr); [by apply next_nil|by split].
Defined.
