(* ===== verification/Mains.v ===== *)
(** * The main functions of the examples

    What they make of their arguments ([std::stoi], the conversion to a 16-bit port), the
    device and the protection domain they open first, the case of the [switch] that then runs
    (as IoThreads.v has it), and what is destroyed when [main] is left: the objects hold each
    other by shared pointers ([Ownership]), and an acceptor whose loop is still suspended in
    its [io_context] is never destroyed, nor is anything it holds.  An exception that leaves
    [main] calls [std::terminate]. *)

From S2P Require Import Prelude Verbs RefNic Errors Device Resources Qp Ownership IoThreads.
From stdpp Require Import options.
From Stdlib Require Strings.Ascii.
Import (notations) Stdlib.Strings.Ascii.

(** ** std::stoi *)

Definition digit_value (c : Ascii.ascii) : option Z := Z.of_nat <$> Ascii.is_nat c.

Fixpoint skip_spaces (s : string) : string :=
  match s with
  | String c s' => if Ascii.is_space c then skip_spaces s' else s
  | "" => ""
  end.

(** The digits at the front of [s], after those that gave [acc]. *)
Fixpoint digits (acc : Z) (s : string) : Z :=
  match s with
  | String c s => match digit_value c with Some d => digits (10 * acc + d) s | None => acc end
  | "" => acc
  end.

Definition starts_with_digit (s : string) : bool :=
  match s with String c _ => bool_decide (is_Some (digit_value c)) | "" => false end.

Definition unsigned_number (s : string) : option Z :=
  if starts_with_digit s then Some (digits 0 s) else None.

(** [strtol] with base 10; [None] when there is no number. *)
Definition strtol (s : string) : option Z :=
  match skip_spaces s with
  | String "-"%char s => Z.opp <$> unsigned_number s
  | String "+"%char s => unsigned_number s
  | s => unsigned_number s
  end.

Definition in_int (z : Z) : Prop := (- 2 ^ 31 ≤ z < 2 ^ 31)%Z.
#[export] Instance in_int_dec z : Decision (in_int z).
Proof. unfold in_int. apply _. Defined.

Definition stoi {S} (s : string) : M S Z :=
  match strtol s with
  | None => mthrow_exn (InvalidArgument "stoi")
  | Some z => if bool_decide (in_int z) then mret z else mthrow_exn (OutOfRange "stoi")
  end.

(** ** The arguments *)

(** What the arguments of an example ask for. *)
Inductive selection := Usage | Serve (port : Z) | Connect (host : string) (port : Z).

(** [switch (argc)] *)
Definition switch_argc {S} (argv : list string) : M S selection :=
  match argv with
  | [_; port] => port ← stoi port; mret (Serve (u16 port))
  | [_; host; port] => port ← stoi port; mret (Connect host (u16 port))
  | _ => mret Usage
  end.

(** write_bw.cc looks at the number of arguments before it opens anything, and ends silently
    for more than two. *)
Definition write_bw_argc {S} (argv : list string) : M S (option selection) :=
  if bool_decide (length argv < 2) then mret (Some Usage)
  else match argv with
  | [_; _] | [_; _; _] => sel ← switch_argc argv; mret (Some sel)
  | _ => mret None
  end.

(** async_rpc.cc takes the number of workers too. *)
Definition async_rpc_argc {S} (argv : list string) : M S (selection * option Z) :=
  match argv with
  | [_; port] => port ← stoi port; mret (Serve (u16 port), None)
  | [_; host; port; concurrency] =>
      concurrency ← stoi concurrency;
      port ← stoi port;
      mret (Connect host (u16 port), Some concurrency)
  | _ => mret (Usage, None)
  end.

(** ** The shared objects of a main function *)

(** The device, the protection domain, the [io_context], the coroutine spawned, the acceptor
    or connector, the completion queues of its pollers and the queue pairs in use. *)
Inductive object :=
  ODevice | OPd | OIoContext | OFrame | OEndpoint | OCq (i : nat) | OQp (i : nat).
#[export] Instance object_eq_dec : EqDecision object.
Proof. solve_decision. Defined.

(** The shared pointers of the members, in the order in which the destructor drops them:
    the reverse of their declaration, a list of pollers from its front. *)
Definition pd_members : list object := [ODevice].
Definition cq_members : list object := [ODevice].
(** [accept] made the queues of its [i]-th queue pair after those of the pairs before. *)
Definition qp_members (i : nat) : list object := [OCq (2 * i); OCq (2 * i + 1); OPd].
Definition acceptor_members (queues : nat) : list object :=
  [OIoContext] ++ (OCq <$> seq 0 queues) ++ [OPd].

(** A case of the [switch]: what it does to its threads and context; whether the context is
    main's own, whether the acceptor is moved into the coroutine, and whether the coroutine
    is a loop that nothing ends; the members of the acceptor or connector; and how many
    completion queues it makes, if that is bounded. *)
Record switch_case := Case {
  c_acts : list act;
  c_context : bool;
  c_moved : bool;
  c_forever : bool;
  c_members : nat → list object;
  c_queues : option nat }.

(** The objects when the case is left: a coroutine that has not ended is in the context, and
    holds the acceptor or connector it was given; [busy] are the queue pairs with a coroutine
    that waits for a completion, its frame owned by the callback whose address the work
    request carries. *)
Definition scope_heap (c : switch_case) (frame : bool) (queues : nat) (busy : list nat)
    : list (object * list object) :=
  [(ODevice, []); (OPd, pd_members)] ++
  (if c_context c then [(OIoContext, if frame then [OFrame] else [])] else []) ++
  (if frame then [(OFrame, [OEndpoint])] else []) ++
  (if c_moved c && negb frame then []
   else (OEndpoint, c_members c queues) :: ((λ i, (OCq i, cq_members)) <$> seq 0 queues)) ++
  ((λ i, (OQp i, qp_members i)) <$> busy).

(** The variables that go out of scope, in that order. *)
Definition scope_locals (c : switch_case) : list object :=
  (if c_moved c then [] else [OEndpoint]) ++ (if c_context c then [OIoContext] else []) ++
  [OPd; ODevice].

(** What leaving the scope destroys. *)
Definition leave_scope (c : switch_case) (frame : bool) (queues : nat) (busy : list nat)
    : list object :=
  (release (OQp <$> busy) (scope_locals c) (scope_heap c frame queues busy)).1.

(** The coroutine that was spawned has not ended. *)
Definition frame_left (s : st) : bool :=
  bool_decide (detached (ctx s) ≠ 0) || bool_decide (awaited (ctx s) = Pending).

(** ** The main functions *)

Record example := Example {
  ex_device : Z;
  ex_server : switch_case;
  ex_client : switch_case }.




Section mains.
Context {V : Verbs} {A : Asio}.

(** The two shared pointers at the top of [main]. *)
Definition opens (device_num : Z) : M world (device * pd) :=
  d ← device_ctor_num device_num 1;
  p ← try_catch (pd_ctor d) (λ e, device_dtor d ;; mthrow_exn e);
  mret (d, p).

(** The destructor of an object, where it is one of the library; the members follow in the
    order of [release].  The one of a connector or acceptor waits for its pollers
    ([PollerLife]). *)
Definition destroy_object (d : device) (p : pd) (queues : list cq) (o : object) : M world unit :=
  match o with
  | ODevice => device_dtor d
  | OPd => pd_dtor p
  | OCq i => match queues !! i with Some c => cq_dtor c | None => mret tt end
  | _ => mret tt
  end.
Fixpoint destroy_all (d : device) (p : pd) (queues : list cq) (l : list object) : M world unit :=
  match l with
  | [] => mret tt
  | o :: l => destroy_object d p queues o ;; destroy_all d p queues l
  end.

Definition case_of (x : example) (sel : selection) : option switch_case :=
  match sel with
  | Usage => None
  | Serve _ => Some (ex_server x)
  | Connect _ _ => Some (ex_client x)
  end.

(** No exception leaves [main]: it calls [std::terminate]. *)
Definition exit_with {R} (r : outcome R) (status : Z) : outcome Z :=
  match r with
  | Ret _ => Ret status
  | Throw _ | Terminate => Terminate
  | Abort => Abort
  | Undefined => Undefined
  end.

(** With no case taken. *)
Definition usage_gone (x : example) : list object :=
  let io := if c_context (ex_client x) then [OIoContext] else [] in
  (release [] (io ++ [OPd; ODevice]) (((λ o, (o, [])) <$> io) ++ [(ODevice, []); (OPd, pd_members)])).1.

(** The ways [main] can end, with the objects its end destroys: while it opens the device and
    the protection domain; at a number it cannot read; after the usage; by an exception out of
    a case; or when a case is left, after the coroutines and pollers have made calls of
    their own. *)
Inductive main_ends (x : example) (sig : bool) (argv : list string) (w : world)
    : outcome Z → list object → world → Prop :=
| opening_fails r w1 :
    opens (ex_device x) w = (r, w1) → (∀ v, r ≠ Ret v) →
    main_ends x sig argv w (exit_with r 0) [] w1
| number_fails d p w1 e :
    opens (ex_device x) w = (Ret (d, p), w1) → switch_argc argv w1 = (Throw e, w1) →
    main_ends x sig argv w Terminate [] w1
| usage_shown d p w1 r w2 :
    opens (ex_device x) w = (Ret (d, p), w1) → switch_argc argv w1 = (Ret Usage, w1) →
    destroy_all d p [] (usage_gone x) w1 = (r, w2) →
    main_ends x sig argv w (exit_with r (-1)) (usage_gone x) w2
| case_throws d p w1 sel c s tr w2 :
    opens (ex_device x) w = (Ret (d, p), w1) → switch_argc argv w1 = (Ret sel, w1) →
    case_of x sel = Some c → rtc (step sig) (start (c_acts c)) s → threw s = true →
    calls w1 tr w2 → main_ends x sig argv w Terminate [] w2
| case_left d p w1 sel c s queues busy tr w2 r w3 :
    opens (ex_device x) w = (Ret (d, p), w1) → switch_argc argv w1 = (Ret sel, w1) →
    case_of x sel = Some c → rtc (step sig) (start (c_acts c)) s → ended s → threw s = false →
    (c_forever c = true → detached (ctx s) ≠ 0) →
    match c_queues c with
    | Some n => length queues ≤ n ∧ busy = []
    | None => Forall (λ i, 2 * i + 1 < length queues) busy
    end →
    calls w1 tr w2 →
    destroy_all d p queues (leave_scope c (frame_left s) (length queues) busy) w2 = (r, w3) →
    main_ends x sig argv w (exit_with r 0) (leave_scope c (frame_left s) (length queues) busy) w3.
End mains.


(** The Python binding: the constructor of an RDMAApp opens the first device, its destructor
    drops its members; [frame]: a coroutine of [run_server] is left in its context. *)
Definition rdma_app {V : Verbs} : M world (device * pd) := opens 0.
Definition rdma_app_gone (frame : bool) (queues : nat) : list object :=
  (release [] [OIoContext; OPd; ODevice]
     (scope_heap (Case [] true true false acceptor_members None) frame queues [])).1.

(** ** Lemmas: reading numbers *)

Lemma digit_value_pretty x : (x < 10)%N → digit_value (pretty_N_char x) = Some (Z.of_N x).
Proof.
  intros Hx. assert (x = 0 ∨ x = 1 ∨ x = 2 ∨ x = 3 ∨ x = 4 ∨ x = 5 ∨ x = 6 ∨ x = 7 ∨ x = 8 ∨
    x = 9)%N as Hcases by lia.
  repeat destruct Hcases as [->|Hcases]; try done. by subst x.
Qed.

Lemma digits_pretty_go x s : digits 0 (pretty_N_go x s) = digits (Z.of_N x) s.
Proof.
  revert s. induction (N.lt_wf_0 x) as [x _ IH]; intros s.
  destruct (decide (x = 0%N)) as [->|Hx]; [done|].
  rewrite pretty_N_go_step by lia. rewrite IH by (apply N.div_lt; lia).
  cbn [digits]. rewrite digit_value_pretty by (by apply N.mod_lt).
  f_equal. rewrite N2Z.inj_div, N2Z.inj_mod. pose proof (Z.div_mod (Z.of_N x) 10). lia.
Qed.

Lemma pretty_go_digit x s : (0 < x)%N → starts_with_digit (pretty_N_go x s) = true.
Proof.
  revert s. induction (N.lt_wf_0 x) as [x _ IH]; intros s Hx.
  rewrite pretty_N_go_step by done. destruct (decide (x < 10)%N) as [Hlt|Hge].
  - rewrite N.div_small by done. rewrite pretty_N_go_0. simpl.
    rewrite N.mod_small by done. by rewrite digit_value_pretty.
  - apply IH; [apply N.div_lt; lia|]. apply N.div_str_pos. lia.
Qed.

(** What follows a number does not belong to it. *)
Lemma digits_stop s rest : starts_with_digit rest = false → digits 0 (s +:+ rest) = digits 0 s.
Proof.
  intros Hr. generalize 0%Z. induction s as [|c s IH]; intros acc.
  - rewrite string_app_nil_l. destruct rest as [|c rest]; [done|]. simpl in Hr |- *.
    destruct (digit_value c) eqn:Hc; [|done].
    apply bool_decide_eq_false in Hr. destruct Hr. by eexists.
  - rewrite string_app_cons. simpl. destruct (digit_value c); [apply IH|done].
Qed.

Lemma starts_app s rest : starts_with_digit s = true → starts_with_digit (s +:+ rest) = true.
Proof. by destruct s. Qed.

Lemma unsigned_pretty x rest :
  starts_with_digit rest = false → unsigned_number (pretty x +:+ rest) = Some (Z.of_N x).
Proof.
  intros Hr. assert (starts_with_digit (pretty x) = true ∧ digits 0 (pretty x) = Z.of_N x)
    as [Hs Hd].
  { unfold pretty, pretty_N. case_decide as Hx; [by subst|].
    rewrite digits_pretty_go. split; [|done]. apply pretty_go_digit. lia. }
  unfold unsigned_number. by rewrite starts_app, digits_stop, Hd.
Qed.

Definition all_spaces (s : string) : Prop := skip_spaces s = "".

Lemma skip_spaces_app sp s : all_spaces sp → skip_spaces (sp +:+ s) = skip_spaces s.
Proof.
  unfold all_spaces. induction sp as [|c sp IH]; [done|]. rewrite string_app_cons. simpl.
  destruct (Ascii.is_space c); [done|discriminate].
Qed.

(** A digit is not a space and not a sign. *)
Lemma strtol_digit sp s :
  all_spaces sp → starts_with_digit s = true → strtol (sp +:+ s) = unsigned_number s.
Proof.
  intros Hsp Hs. unfold strtol. rewrite skip_spaces_app by done.
  destruct s as [|c s]; [done|]. simpl in Hs. apply bool_decide_eq_true in Hs.
  assert (skip_spaces (String c s) = String c s) as ->.
  { simpl. destruct c as [[] [] [] [] [] [] [] []]; try done; by destruct Hs. }
  by destruct c as [[] [] [] [] [] [] [] []]; try done; destruct Hs.
Qed.

Lemma strtol_pretty sp z rest :
  all_spaces sp → starts_with_digit rest = false → strtol (sp +:+ pretty z +:+ rest) = Some z.
Proof.
  intros Hsp Hr. destruct z as [|p|p].
  - rewrite strtol_digit by done. exact (unsigned_pretty 0 rest Hr).
  - change (pretty (Z.pos p)) with (pretty (N.pos p)).
    rewrite strtol_digit; [exact (unsigned_pretty (N.pos p) rest Hr)|done|].
    apply starts_app. unfold pretty, pretty_N. case_decide; [done|]. by apply pretty_go_digit.
  - change (pretty (Z.neg p)) with ("-" +:+ pretty (N.pos p)).
    unfold strtol. rewrite skip_spaces_app by done.
    change (skip_spaces (("-" +:+ pretty (N.pos p)) +:+ rest))
      with (String "-"%char (pretty (N.pos p) +:+ rest)).
    cbv beta iota. by rewrite unsigned_pretty.
Qed.

(** ** Properties *)

(** [std::stoi] reads back every [int] that was written in decimal, whatever space comes
    before it and whatever that is not a digit comes after it; a number outside of [int] is an
    exception. *)
Theorem stoi_reads {S} (spaces rest : string) (z : Z) (s : S) :
  all_spaces spaces → starts_with_digit rest = false →
  stoi (spaces +:+ pretty z +:+ rest) s =
    (if decide (in_int z) then Ret z else Throw (OutOfRange "stoi"), s).
Proof.
  intros Hsp Hr. unfold stoi. rewrite strtol_pretty by done.
  case_bool_decide; by rewrite ?decide_True, ?decide_False by done.
Qed.

(** ** Lemmas: what the ends of the cases leave *)

Section endings.
Context {A : Asio}.

Definition left_well (c : switch_case) (sig : bool) (s : st) : Prop :=
  ended s → threw s = false →
  (Signals SignalStop ∈ c_acts c ∨ Signals SignalReset ∈ c_acts c → sig = true) ∧
  (c_forever c = false → frame_left s = false).
#[local] Instance left_well_dec c sig s : Decision (left_well c sig s).
Proof. unfold left_well. apply _. Defined.




(** The acceptor holds the context, which holds the loop, which holds the acceptor. *)
Lemma acceptor_sustained c queues busy :
  c_context c = true → c_members c = acceptor_members →
  sustained (OQp <$> busy) (scope_heap c true queues busy)
    (λ k, k ∈ (scope_heap c true queues busy).*1).
Proof.
  destruct c as [l ctx moved forever mem qs]. cbn [c_context c_members]. intros -> ->.
  unfold scope_heap. cbn [c_context c_members c_moved]. rewrite andb_false_r.
  match goal with |- sustained _ ?x _ => set (h := x) end. intros k Hk.
  assert (∀ o ms, (o, ms) ∈ h → k ∈ ms → ∃ o ms, o ∈ h.*1 ∧ (o, ms) ∈ h ∧ k ∈ ms) as Hown.
  { intros o ms Ho Hms. exists o, ms. split; [|done]. apply list_elem_of_fmap. by exists (o, ms). }
  assert ((OEndpoint, acceptor_members queues) ∈ h) as Hend by (do 4 right; left).
  apply list_elem_of_fmap in Hk as ([o ms] & -> & Ho). cbn [fst] in *.
  repeat (apply elem_of_cons in Ho as [[= -> ->]|Ho]).
  - right. apply (Hown OPd pd_members); [right; left|left].
  - right. apply (Hown _ _ Hend). unfold acceptor_members. set_solver.
  - right. apply (Hown _ _ Hend). left.
  - right. apply (Hown OIoContext [OFrame]); [do 2 right; left|left].
  - right. apply (Hown OFrame [OEndpoint]); [do 3 right; left|left].
  - apply elem_of_app in Ho as [(i & [= -> _] & Hi)%list_elem_of_fmap|
      (i & [= -> _] & Hi)%list_elem_of_fmap].
    + right. apply (Hown _ _ Hend). unfold acceptor_members.
      apply elem_of_app. right. apply elem_of_app. left. by apply list_elem_of_fmap_2.
    + left. by apply list_elem_of_fmap_2.
Qed.

End endings.

Section properties.
Context {V : Verbs} {A : Asio}.













(** async_rpc.cc asks for three arguments as a client: the two of its usage text give the
    usage. *)
Theorem async_rpc_usage {S} prog host port (s : S) :
  async_rpc_argc [prog; host; port] s = (Ret (Usage, None), s).
Proof. done. Qed.

(** Without a device not even the usage is shown. *)
Theorem mains_need_device x sig argv w r gone w' l n :
  ibv_get_device_list (w_nic w) = ((l, 0%Z), n) → main_ends x sig argv w r gone w' →
  r = Terminate ∧ gone = [].
Proof.
  intros Hl. assert (∃ e w1, opens (ex_device x) w = (Throw e, w1)) as (e & w1 & Ho).
  { unfold opens, device_ctor_num, device_list_ctor. unfold mbind, M_bind, vcall. rewrite Hl.
    simpl. by do 2 eexists. }
  intros [r0 w2 Ho' Hr|? ? ? ? Ho'|? ? ? ? ? Ho'|? ? ? ? ? ? ? ? Ho'|? ? ? ? ? ? ? ? ? ? ? ? Ho'];
    rewrite Ho in Ho'; [|done..]. by injection Ho' as <- _.
Qed.

(** An RDMAApp that has run clients only destroys all it has; one that has run a server
    holds, in its context, the coroutine that holds the context. *)
Theorem rdma_app_ends queues :
  rdma_app_gone false queues = [OIoContext; OPd; ODevice] ∧ rdma_app_gone true queues = [].
Proof.
  split; [reflexivity|]. apply sustained_release. by apply (acceptor_sustained _ queues []).
Qed.
End properties.

(** ** Witnesses *)

Lemma stoi_reads_witness :
  stoi (S:=unit) "  70000 " tt = (Ret 70000%Z, tt) ∧ stoi (S:=unit) "-3x" tt = (Ret (-3)%Z, tt).
Proof.
  split.
  - exact (stoi_reads "  " " " 70000 tt eq_refl eq_refl).
  - exact (stoi_reads "" "x" (-3) tt eq_refl eq_refl).
Defined.





