(* ===== verification/Guarded.v ===== *)
(** * Coroutines whose operations pass the library's asserts

    A coroutine of [Coro] is [guarded] on a queue pair when each operation it may come to
    await, whatever it was answered before, passes the asserts of the member functions of
    [Operations].  The lemmas follow the structure of the programs; [walk] applies them, and
    the hint base [guarded] has the operations the programs are made of. *)

From S2P Require Import Prelude Verbs RefNic Errors Serdes Device Resources Mr Qp Operations Coro.
From stdpp Require Import options.

(** What the asserts demand of one event. *)
Definition event_passes {B : Build} (t : basic_qp) (e : event) : Prop :=
  match e with AwaitSend op _ => op_passes t op | _ => True end.

(** The operations a coroutine awaits pass the library's asserts, whatever it is answered. *)
Fixpoint guarded {B : Build} {R} (t : basic_qp) (c : coro R) : Prop :=
  match c with
  | Await e k => event_passes t e ∧ ∀ a, guarded t (k a)
  | _ => True
  end.

(** ** Guarded coroutines *)

Section guarded.
Context {B : Build} (t : basic_qp).

Lemma guarded_bind {R S} (c : coro R) (f : R → coro S) :
  guarded t c → (∀ a, guarded t (f a)) → guarded t (c ≫= f).
Proof.
  intros Hc Hf. induction c as [a|o|e k IH]; [exact (Hf a)|done|].
  destruct Hc as [Hp Hk]. split; [done|]. intros a. by apply IH.
Qed.

Lemma guarded_raii {R} (c : coro R) (cleanup : coro unit) :
  guarded t c → guarded t cleanup → guarded t (coro_raii c cleanup).
Proof.
  intros Hc Hcl. induction c as [a|o|e k IH]; simpl.
  - by apply guarded_bind.
  - destruct o; try done. by apply guarded_bind.
  - destruct Hc as [Hp Hk]. split; [done|]. intros a. by apply IH.
Qed.

Lemma guarded_try {R} (c : coro R) (h : exn → coro R) :
  guarded t c → (∀ e, guarded t (h e)) → guarded t (coro_try c h).
Proof.
  intros Hc Hh. induction c as [a|o|e k IH]; simpl; [done| |].
  - by destruct o; try apply Hh.
  - destruct Hc as [Hp Hk]. split; [done|]. intros a. by apply IH.
Qed.

Lemma guarded_for n i body : (∀ i, guarded t (body i)) → guarded t (coro_for n i body).
Proof. intros Hb. revert i. induction n as [|n IH]; intros i; [done|]. by apply guarded_bind. Qed.

Lemma guarded_lift {S R} (m : M S R) s : guarded t (lift m s).
Proof. unfold lift. by destruct (m s) as [[] ?]. Qed.

Lemma guarded_unexpected {R} a : guarded t (unexpected (A:=R) a).
Proof. by destruct a. Qed.

Definition atomics_supported : Prop :=
  is_fetch_and_add_supported (pd_device_ (qpd_ t)) = true ∧
  is_compare_and_swap_supported (pd_device_ (qpd_ t)) = true.

(** The assert before an operation is what the library needs of it. *)
Lemma guarded_await_view op v : atomics_supported → guarded t (await_view op v).
Proof.
  intros [Hf Hc]. unfold await_view, coro_assert, ask_Z.
  destruct (op_remote_ok op) eqn:Hop.
  - split; [|intros a; destruct a; done]. right.
    destruct op; simpl in Hop |- *; try done; apply bool_decide_eq_true in Hop; auto.
  - destruct NDEBUG eqn:HN; [|done]. split; [by left|]. intros a; destruct a; done.
Qed.
End guarded.

(** Walks through the code of a coroutine, down to what [guarded] has lemmas for. *)
Create HintDb guarded.
#[export] Hint Constants Opaque : guarded.
Ltac walk :=
  repeat match goal with
  | |- guarded _ (_ ≫= _) => apply guarded_bind; [|intros ?]
  | |- guarded _ (coro_raii _ _) => apply guarded_raii
  | |- guarded _ (coro_try _ _) => apply guarded_try; [|intros ?]
  | |- guarded _ (coro_for _ _ _) => apply guarded_for; intros ?
  | |- guarded _ (match ?x with _ => _ end) => destruct x
  | |- guarded _ (await_view _ _) => by apply guarded_await_view
  | |- guarded _ _ => solve [auto 2 with guarded nocore]
  | |- guarded _ (lift _ _) => apply guarded_lift
  | |- guarded _ (coro_assert _) => unfold coro_assert
  | |- guarded _ (Done _) => exact I
  | |- guarded _ (Stop _) => exact I
  | |- guarded _ (mret _) => exact I
  | |- guarded _ (Await _ _) => split; [exact I|intros []; exact I]
  | |- guarded _ (perform _) => split; [exact I|intros []; exact I]
  | |- guarded _ (ask_bytes _) => split; [exact I|intros []; exact I]
  | |- guarded _ (value _) => unfold value
  | |- guarded _ (star _) => unfold star
  | |- guarded _ ?c => let c' := eval hnf in c in change c with c'
  end.

(** What the programs are made of. *)
Section operations.
Context {H : Host} {B : Build} (t : basic_qp).

Lemma guarded_await_op op m : atomics_supported t → guarded t (await_op op m).
Proof. intros Ht. unfold await_op, whole. walk. Qed.
Lemma guarded_await_recv m : guarded t (await_recv m).
Proof. unfold await_recv, whole. walk. Qed.
Lemma guarded_coro_reg_mr buffer : guarded t (coro_reg_mr buffer).
Proof. unfold coro_reg_mr. walk. Qed.
Lemma guarded_await_op_span op buffer : atomics_supported t → guarded t (await_op_span op buffer).
Proof.
  intros Ht. unfold await_op_span. apply guarded_bind; [apply guarded_coro_reg_mr|].
  intros m. apply guarded_raii; [by apply guarded_await_op|walk].
Qed.
Lemma guarded_await_recv_span buffer : guarded t (await_recv_span buffer).
Proof.
  unfold await_recv_span. apply guarded_bind; [apply guarded_coro_reg_mr|].
  intros m. apply guarded_raii; [apply guarded_await_recv|walk].
Qed.
Lemma guarded_await_recv_nothing : guarded t await_recv_nothing.
Proof. unfold await_recv_nothing. walk. Qed.
Lemma guarded_buffer_of bs : guarded t (buffer_of bs).
Proof. unfold buffer_of. apply guarded_bind; [split; [exact I|intros []; exact I]|intros ?; walk]. Qed.
Lemma guarded_zero_buffer n : guarded t (zero_buffer n).
Proof. unfold zero_buffer. apply guarded_bind; [split; [exact I|intros []; exact I]|intros ?; walk]. Qed.
Lemma guarded_print_buffer what before buffer : guarded t (print_buffer what before buffer).
Proof. unfold print_buffer. walk. Qed.
Lemma guarded_serialized_mr m : guarded t (serialized_mr m).
Proof. apply guarded_buffer_of. Qed.
Lemma guarded_deserialized_mr a : guarded t (deserialized_mr a).
Proof. unfold deserialized_mr, ask_bytes. apply guarded_bind; [|intros ?]; walk. Qed.
End operations.

#[export] Hint Resolve guarded_await_op guarded_await_recv guarded_coro_reg_mr
  guarded_await_op_span guarded_deserialized_mr guarded_await_recv_span
  guarded_await_recv_nothing guarded_buffer_of guarded_zero_buffer guarded_print_buffer
  guarded_serialized_mr : guarded.
