(* ===== verification/Flavour.v ===== *)
(** * The two flavours of awaitables, as the runtime sees them (qp.h, qp.cc, executor.cc)

    A coroutine awaits an operation either through the awaitable itself
    ([use_native_awaitable_t]) or through its conversion to [asio::awaitable]
    ([use_asio_awaitable_t]).  [Flavour] has the operations of both: the state of an executor
    with one coroutine, [co_await] up to its suspension, what the resumed coroutine does, and
    the completion token in between.  [FlavourSpec] states what the rest of the library's
    composition needs of them; NativeFlavour.v and AsioFlavour.v are the instances, and
    Runtime.v is proved against the interface. *)

From S2P Require Import Prelude Verbs RefNic Errors Serdes Device Resources Mr Qp Operations.
From S2P Require Import Executor AsioAwait Coro Awaitables Guarded.
From stdpp Require Import options.

(** What a coroutine has, however it awaits: the code it has still to run, the memory of its
    process and what it has printed. *)
Record task := Task {
  k_code : coro unit;
  k_node : node;
  k_out : list (string * list Z) }.

(** ** What is posted for an event, and what answers it *)

Definition awaits (e : event) : bool :=
  match e with AwaitSend _ _ | AwaitRecv _ => true | _ => false end.

Definition recv_answer {V : Verbs} (wc : ibv_wc) : answer :=
  match recv_outcome wc with
  | Ret (n, imm) => AnsRecv n imm
  | Throw e => AnsThrow e
  | _ => AnsUndefined
  end.
Definition event_answer {V : Verbs} (e : event) (wc : ibv_wc) : answer :=
  match e with
  | AwaitSend op v => send_answer op v wc
  | AwaitRecv _ => recv_answer wc
  | _ => AnsUndefined
  end.

Definition send_posted (e : event) (st : Z) : list ibv_send_wr :=
  match e with AwaitSend op v => [expected_wr op v st] | _ => [] end.
Definition recv_posted (e : event) (st : Z) : list ibv_recv_wr :=
  match e with AwaitRecv v => [expected_recv_wr v st] | _ => [] end.

(** The call that posts it, on a connected queue pair with its own receive queue. *)
Definition own_queues (t : basic_qp) : Prop :=
  ∃ q psn t0, t = created q psn t0 ∧ qsrq_ t0 = None.
Definition event_post {V : Verbs} (t : basic_qp) (e : event) (st : Z) (n : nic) : Z * nic :=
  match e with
  | AwaitSend op v => ibv_post_send (qp_ t) (expected_wr op v st) n
  | AwaitRecv v => ibv_post_recv (qp_ t) (expected_recv_wr v st) n
  | _ => (0%Z, n)
  end.

(** ** The interface *)

(** [begin_await qp st] is the [co_await] of the event in front of the code, up to its
    suspension, with a request identified by [st], an address that is free; [end_await] is
    the rest of it, once [answered] says what the resumed coroutine gets. *)
Class Flavour {V : Verbs} {B : Build} := {
  exec : Type;
  exec_token :: CompletionToken exec;
  exec_env : exec → op_env;
  exec_task : exec → task;
  exec_with : op_env → task → exec → exec;
  address_free : Z → exec → bool;
  begin_await : Z → Z → M exec unit;
  end_await : M exec unit;
  suspended : exec → bool;
  answered : exec → option answer }.

(** A coroutine is [idle] when it awaits nothing, [waiting e st] after it has posted [e]
    under [st], and [woken e a] when it has been resumed with the answer [a].  [accepts] are
    the completion statuses that leave the process running. *)
Class FlavourSpec {V : Verbs} {B : Build} (FL : Flavour) := {
  idle : exec → Prop;
  waiting : event → Z → exec → Prop;
  woken : event → answer → exec → Prop;
  accepts : ibv_wc_status → Prop;
  accepts_success : accepts IBV_WC_SUCCESS;

  exec_token_world s : token_world s = op_world (exec_env s);
  exec_set_world w s :
    set_token_world w s = exec_with (OpEnv (live_qps (exec_env s)) w) (exec_task s) s;
  exec_env_with v k s : exec_env (exec_with v k s) = v;
  exec_task_with v k s : exec_task (exec_with v k s) = k;
  idle_with v k s : idle s → idle (exec_with v k s);
  waiting_with v k e st s : waiting e st s → waiting e st (exec_with v k s);
  woken_with v k e a s : woken e a s → woken e a (exec_with v k s);

  idle_seen s : idle s → suspended s = false ∧ answered s = None ∧
    ∀ st, address_free st s = true;
  waiting_seen e st s : waiting e st s →
    awaits e = true ∧ suspended s = true ∧ answered s = None;
  woken_seen e a s : woken e a s →
    awaits e = true ∧ suspended s = true ∧ answered s = Some a;

  begin_run qp st t s e k n :
    idle s → own_queues t → live_qps (exec_env s) !! qp = Some t →
    k_code (exec_task s) = Await e k → awaits e = true → event_passes t e →
    event_post t e st (w_nic (op_world (exec_env s))) = (0%Z, n) →
    ∃ s' tr, begin_await qp st s = (Ret tt, s') ∧ waiting e st s' ∧
      exec_task s' = exec_task s ∧
      exec_env s' = OpEnv (live_qps (exec_env s))
        (World n tr (w_next_sq_psn (op_world (exec_env s))));
  execute_run wc e s :
    waiting e (wc_wr_id wc) s → accepts (wc_status wc) →
    ∃ s', execute_callback wc s = (Ret tt, s') ∧ woken e (event_answer e wc) s' ∧
      exec_task s' = exec_task s ∧ exec_env s' = exec_env s;
  end_run e a k s :
    woken e a s → k_code (exec_task s) = Await e k →
    ∃ s', end_await s = (Ret tt, s') ∧ idle s' ∧ exec_env s' = exec_env s ∧
      exec_task s' = Task (k a) (k_node (exec_task s)) (k_out (exec_task s)) }.

(** A connection whose completions leave the process running. *)
Class Accepted {V : Verbs} {B : Build} (FL : Flavour) {FS : FlavourSpec FL} (F : Fabric) := {
  fab_accepted wr r a b wc rcv na nb :
    fab_exec wr r a b = Some (wc, rcv, na, nb) → accepts (wc_status wc) }.

(** A reliable connection reports success. *)
#[export] Instance rc_accepted {V : Verbs} {B : Build} {H : Host} (FL : Flavour)
    {FS : FlavourSpec FL} : Accepted FL RcFabric.
Proof.
  split. intros wr r a b wc rcv na nb Hx. assert (wc_status wc = IBV_WC_SUCCESS) as ->;
    [|apply accepts_success].
  revert Hx. simpl. unfold rc_exec. destruct (swr_sg_list wr) as [|sge []]; try done.
  destruct (swr_opcode wr), (swr_wr wr), r; try done;
    repeat (match goal with
      | |- context [mbind (M:=option) ?f ?x] => destruct x; simpl
      | |- context [if ?x then _ else _] => destruct x; simpl
      end; try done); by intros [= <- <- <- <-].
Qed.

(** ** What both instances use: awaitables of events *)

Section awaitables.
Context {V : Verbs} {B : Build}.

(** The member function the event calls. *)
Definition make_awaitable (qp : Z) (e : event) : M op_env (send_awaitable + recv_awaitable) :=
  match e with
  | AwaitSend op v => a ← issue op qp (buf_view v); mret (inl a)
  | AwaitRecv v => a ← recv_mr qp v; mret (inr a)
  | _ => mundefined
  end.

Definition aw_state (a : send_awaitable + recv_awaitable) : operation_state :=
  match a with inl a => sa_state_ a | inr a => ra_state_ a end.
Definition set_aw_state (s : operation_state) (a : send_awaitable + recv_awaitable)
    : send_awaitable + recv_awaitable :=
  match a with inl a => inl (set_sa_state s a) | inr a => inr (set_ra_state s a) end.

(** An awaitable of [e] that was posted. *)
Definition aw_matches (a : send_awaitable + recv_awaitable) (e : event) : Prop :=
  match a, e with
  | inl a, AwaitSend op v => sa_exception_ a = None ∧
      ∀ wc, wc_status wc = IBV_WC_SUCCESS →
        os_byte_len (set_from_wc wc (sa_state_ a)) = expected_result op v wc
  | inr a, AwaitRecv _ => ra_exception_ a = None ∧ wr_opcode (ra_state_ a) = None
  | _, _ => False
  end.

Lemma aw_matches_awaits a e : aw_matches a e → awaits e = true.
Proof. by destruct a, e. Qed.

(** Awaiting an event on a live queue pair: its awaitable, and whatever handle is put into
    the state, [suspend] posts it. *)
Lemma await_posts qp st t e env n (h : option Operations.coro) :
  own_queues t → live_qps env !! qp = Some t → awaits e = true → event_passes t e →
  event_post t e st (w_nic (op_world env)) = (0%Z, n) →
  ∃ a, make_awaitable qp e env = (Ret a, env) ∧
    ∃ a' tr, awaitable_suspend
        match h with
        | Some h => set_aw_state (set_coro_handle h (aw_state a)) a
        | None => a
        end st env =
        (Ret (true, a'), OpEnv (live_qps env) (World n tr (w_next_sq_psn (op_world env)))) ∧
      aw_matches a' e ∧ (∀ h', h = Some h' → coro_handle (aw_state a') = Some h').
Proof.
  intros (q & psn & t0 & Ht & Hsrq) Hq He Hp Hpost.
  destruct e as [| | | | | |op v|v]; try done; cbn [event_passes event_post make_awaitable] in *.
  - rewrite (bind_ret _ _ _ _ _ (issue_make op qp (buf_view v) env t Hq Hp)).
    exists (inl (send_awaitable_view qp v (op_args op).1 (op_args op).2)). split; [done|].
    set (a := send_awaitable_view qp v (op_args op).1 (op_args op).2).
    set (a1 := match h with
      | Some h => set_sa_state (set_coro_handle h (sa_state_ a)) a | None => a end).
    assert (fresh_awaitable op qp v a1) as Hf
      by (destruct h; [apply fresh_coro|]; apply fresh_view).
    destruct (send_suspend_spec op qp v a1 st env t 0 n Hf Hq Hp Hpost)
      as (aw & Hrun & Hh & _ & Hcases & Hres).
    destruct Hcases as [(_ & Hex & _)|(? & _)]; [|done].
    exists (inl aw). eexists. split_and!; [|done|].
    + replace (match h with _ => _ end) with (inl (B:=recv_awaitable) a1) by (by destruct h).
      cbn [awaitable_suspend]. by rewrite (bind_ret _ _ _ _ _ Hrun).
    + intros h' ->. simpl. by rewrite Hh.
  - exists (inr (recv_awaitable_view qp v)). split; [done|].
    set (a := recv_awaitable_view qp v).
    set (a1 := match h with
      | Some h => set_ra_state (set_coro_handle h (ra_state_ a)) a | None => a end).
    assert (ra_local_mr_view_ a1 = v ∧ ra_qp_ a1 = qp ∧ ra_exception_ a1 = None ∧
      wr_opcode (ra_state_ a1) = None) as (Hv & Hqp & Hex & Hoc) by (by destruct h).
    rewrite Ht, <- Hqp in Hq.
    pose proof (recv_suspend_run v st a1 env q psn t0 Hv Hq) as Hs.
    unfold recv_target in Hs. rewrite Hsrq in Hs.
    rewrite Ht in Hpost. cbn [created qp_] in Hpost. rewrite Hpost in Hs.
    destruct Hs as (aw & Hrun & Hst & ->).
    exists (inr a1). eexists. split_and!; [|done|by intros h' ->].
    replace (match h with _ => _ end) with (inr (A:=send_awaitable) a1) by (by destruct h).
    cbn [awaitable_suspend]. by rewrite (bind_ret _ _ _ _ _ Hrun).
Qed.
End awaitables.
