(* ===== verification/NativeFlavour.v ===== *)
(** * Coroutines on the native awaitables (qp.cc, executor.cc)

    The instance of [Flavour] for [use_native_awaitable_t]: the awaitable and its state are in
    the frame of the coroutine, the address of the state identifies the request, and the
    executor resumes the handle that is in the state. *)

From S2P Require Import Prelude Verbs RefNic Errors Serdes Device Resources Mr Qp Operations.
From S2P Require Import Executor AsioAwait Coro Awaitables Guarded Flavour.
From stdpp Require Import options.

(** The awaitable in the frame of the suspended coroutine, the address of its state, and
    whether the handle has been resumed. *)
Record awaiting := Awaiting {
  aw_addr : Z;
  aw_it : send_awaitable + recv_awaitable;
  aw_resumed : bool }.

Record client := Client {
  c_task : task;
  c_await : option awaiting }.

Definition handle : Operations.coro := 1%Z.

Section native.
Context {V : Verbs} {B : Build}.

(** What [await_resume] gives, as the answer of the event. *)
Definition send_result (a : send_awaitable) : answer :=
  match (send_await_resume a tt).1 with
  | Ret z => AnsZ z
  | Throw e => AnsThrow e
  | _ => AnsUndefined
  end.
Definition recv_result (a : recv_awaitable) : answer :=
  match (recv_await_resume a tt).1 with
  | Ret (n, imm) => AnsRecv n imm
  | Throw e => AnsThrow e
  | _ => AnsUndefined
  end.
Definition aw_result (a : send_awaitable + recv_awaitable) : answer :=
  match a with inl a => send_result a | inr a => recv_result a end.

Definition await_suspend (a : send_awaitable + recv_awaitable) (st : Z) (h : Operations.coro)
    : M op_env (bool * (send_awaitable + recv_awaitable)) :=
  match a with
  | inl a => r ← send_await_suspend a st h; mret (r.1, inl r.2)
  | inr a => r ← recv_await_suspend a st h; mret (r.1, inr r.2)
  end.

Abbreviation native := (native_state (C:=client)).

Definition on_env {R} (m : M op_env R) : M native R :=
  zoom ns_env (λ e n, NativeState (ns_ops n) e (ns_client n) (ns_done n) (ns_resumed n)) m.
Definition on_client (f : client → client) : M native unit :=
  mmodify (λ n, NativeState (ns_ops n) (ns_env n) (f (ns_client n)) (ns_done n) (ns_resumed n)).
Definition on_ops (f : gmap Z operation_state → gmap Z operation_state) : M native unit :=
  mmodify (λ n, NativeState (f (ns_ops n)) (ns_env n) (ns_client n) (ns_done n) (ns_resumed n)).

(** [std::coroutine_handle<>::resume]: the coroutine goes on from its [co_await]. *)
Definition resume_task (h : Operations.coro) : M native unit :=
  on_client (λ c, Client (c_task c)
    ((λ w, Awaiting (aw_addr w) (aw_it w) true) <$> c_await c)).

Definition continue_with (c : coro unit) : M native unit :=
  on_client (λ x, Client (Task c (k_node (c_task x)) (k_out (c_task x))) None).
Definition suspend_in (st : Z) (a : send_awaitable + recv_awaitable) : M native unit :=
  on_ops (<[ st := aw_state a ]>) ;;
  on_client (λ c, Client (c_task c) (Some (Awaiting st a false))).

(** [co_await qp->op(...)] up to its suspension, with the state at address [st]; without
    one when [await_suspend] returns false. *)
Definition native_begin (qp st : Z) : M native unit :=
  n ← mget;
  match k_code (c_task (ns_client n)) with
  | Await e k =>
      '(ok, a) ← on_env (a ← make_awaitable qp e; await_suspend a st handle);
      if ok : bool then suspend_in st a else continue_with (k (aw_result a))
  | _ => mundefined
  end.

(** The rest of the [co_await] in the resumed coroutine; the awaitable is destroyed. *)
Definition native_end : M native unit :=
  n ← mget;
  match c_await (ns_client n), k_code (c_task (ns_client n)) with
  | Some w, Await _ k =>
      s ← deref (ns_ops n !! aw_addr w);
      on_ops (delete (aw_addr w)) ;;
      continue_with (k (aw_result (set_aw_state s (aw_it w))))
  | _, _ => mundefined
  end.

Definition native_answered (n : native) : option answer :=
  w ← c_await (ns_client n);
  s ← ns_ops n !! aw_addr w;
  if aw_resumed w then Some (aw_result (set_aw_state s (aw_it w))) else None.

#[export] Instance NativeFlavour : Flavour := {|
  exec := native;
  exec_token := NativeToken resume_task;
  exec_env := ns_env;
  exec_task n := c_task (ns_client n);
  exec_with v k n :=
    NativeState (ns_ops n) v (Client k (c_await (ns_client n))) (ns_done n) (ns_resumed n);
  address_free st n := bool_decide (ns_ops n !! st = None);
  begin_await := native_begin;
  end_await := native_end;
  suspended n := bool_decide (is_Some (c_await (ns_client n)));
  answered := native_answered |}.

(** The executor of a process that starts the coroutine [c]. *)
Definition native_start (c : coro unit) (v : op_env) : native :=
  NativeState ∅ v (Client (Task c node0 []) None) [] [].

(** ** It is what the runtime needs *)

Definition native_idle (n : native) : Prop := ns_ops n = ∅ ∧ c_await (ns_client n) = None.
Definition native_waiting (e : event) (st : Z) (n : native) : Prop :=
  ∃ a, c_await (ns_client n) = Some (Awaiting st a false) ∧
    ns_ops n = {[st := aw_state a]} ∧ coro_handle (aw_state a) = Some handle ∧ aw_matches a e.
Definition native_woken (e : event) (r : answer) (n : native) : Prop :=
  awaits e = true ∧ ∃ st a s, c_await (ns_client n) = Some (Awaiting st a true) ∧
    ns_ops n = {[st := s]} ∧ aw_result (set_aw_state s a) = r.

(** What the coroutine gets is what the event is answered. *)
Lemma aw_matches_result a e wc :
  aw_matches a e → aw_result (set_aw_state (set_from_wc wc (aw_state a)) a) = event_answer e wc.
Proof.
  destruct a as [a|a], e; try done; simpl; intros [Hex Hres].
  - unfold send_result. rewrite (send_resumed _ _ _ _ _ Hex Hres).
    unfold send_answer. by destruct (check_wc_status _ _ _) as [[] ?].
  - unfold recv_result, recv_answer. by rewrite (recv_resumed _ _ _ Hex Hres).
Qed.

Lemma set_from_wc_handle wc s : coro_handle (set_from_wc wc s) = coro_handle s.
Proof. unfold set_from_wc. by destruct s as [[[]|] ? ? ? ? ?]. Qed.

Lemma native_begin_run qp st t s e k n :
  native_idle s → own_queues t → live_qps (ns_env s) !! qp = Some t →
  k_code (c_task (ns_client s)) = Await e k → awaits e = true → event_passes t e →
  event_post t e st (w_nic (op_world (ns_env s))) = (0%Z, n) →
  ∃ s' tr, native_begin qp st s = (Ret tt, s') ∧ native_waiting e st s' ∧
    c_task (ns_client s') = c_task (ns_client s) ∧
    ns_env s' = OpEnv (live_qps (ns_env s)) (World n tr (w_next_sq_psn (op_world (ns_env s)))).
Proof.
  intros [Ho Ha] Ht Hq Hc He Hp Hpost.
  destruct (await_posts qp st t e (ns_env s) n (Some handle) Ht Hq He Hp Hpost)
    as (a & Hmake & a' & tr & Hsus & Hm & Hh).
  unfold native_begin. rewrite bind_mget, Hc.
  assert (on_env (a ← make_awaitable qp e; await_suspend a st handle) s =
    (Ret (true, a'), NativeState (ns_ops s)
       (OpEnv (live_qps (ns_env s)) (World n tr (w_next_sq_psn (op_world (ns_env s)))))
       (ns_client s) (ns_done s) (ns_resumed s))) as Hrun.
  { unfold on_env, zoom. rewrite (bind_ret _ _ _ _ _ Hmake).
    replace (await_suspend a st handle) with
      (awaitable_suspend (set_aw_state (set_coro_handle handle (aw_state a)) a) st)
      by (by destruct a).
    by rewrite Hsus. }
  rewrite (bind_ret _ _ _ _ _ Hrun).
  do 2 eexists. split; [reflexivity|]. split; [|done].
  exists a'. simpl. rewrite Ho. split_and!; try done. by apply Hh.
Qed.

Lemma native_execute_run wc e s :
  native_waiting e (wc_wr_id wc) s →
  ∃ s', execute_callback_native resume_task wc s = (Ret tt, s') ∧
    native_woken e (event_answer e wc) s' ∧
    c_task (ns_client s') = c_task (ns_client s) ∧ ns_env s' = ns_env s.
Proof.
  intros (a & Ha & Ho & Hh & Hm).
  unfold execute_callback_native, os_resume, resume_task, on_client. munfold. simpl.
  rewrite Ho, lookup_singleton_eq. simpl. rewrite set_from_wc_handle, Hh. simpl.
  eexists. split; [reflexivity|]. split; [|done]. split; [by eapply aw_matches_awaits|].
  exists (wc_wr_id wc), a, (set_from_wc wc (aw_state a)). simpl.
  rewrite Ha. split_and!; [done|by rewrite insert_singleton_eq|by apply aw_matches_result].
Qed.

Lemma native_end_run e a k s :
  native_woken e a s → k_code (c_task (ns_client s)) = Await e k →
  ∃ s', native_end s = (Ret tt, s') ∧ native_idle s' ∧ ns_env s' = ns_env s ∧
    c_task (ns_client s') =
      Task (k a) (k_node (c_task (ns_client s))) (k_out (c_task (ns_client s))).
Proof.
  intros (_ & st & aw & os & Ha & Ho & <-) Hc. unfold native_end.
  rewrite bind_mget, Ha, Hc, Ho. cbn [aw_addr]. rewrite lookup_singleton_eq. cbn [deref].
  rewrite bind_mret. unfold on_ops, continue_with, on_client. munfold. simpl.
  eexists. split; [reflexivity|]. split; [|done]. split; [|done]. simpl.
  by rewrite Ho, delete_singleton_eq.
Qed.

#[export] Instance NativeSpec : FlavourSpec NativeFlavour.
Proof.
  refine {|
    idle := native_idle : exec (Flavour:=NativeFlavour) → Prop;
    waiting := native_waiting : _ → _ → exec (Flavour:=NativeFlavour) → Prop;
    woken := native_woken : _ → _ → exec (Flavour:=NativeFlavour) → Prop;
    accepts _ := True;
    begin_run := native_begin_run;
    execute_run wc e s H _ := native_execute_run wc e s H;
    end_run := native_end_run |}; try done.
  - intros w s. by destruct (s : native) as [? ? [] ? ?].
  - intros s [Ho Ha]. simpl. unfold native_answered. rewrite Ha, Ho.
    split_and!; [done|done|]. intros st. by rewrite bool_decide_eq_true_2.
  - intros e st s (a & Ha & Ho & _ & Hm). simpl. unfold native_answered.
    rewrite Ha, Ho. cbn [mbind option_bind aw_addr]. rewrite lookup_singleton_eq.
    split_and!; [by eapply aw_matches_awaits|done|done].
  - intros e r s (He & st & a & os & Ha & Ho & Hr). simpl. unfold native_answered.
    rewrite Ha, Ho. cbn [mbind option_bind aw_addr]. rewrite lookup_singleton_eq.
    split_and!; [done|done|]. simpl. by rewrite Hr.
Defined.

(** Any connection: a failed completion is an exception in the coroutine. *)
#[export] Instance native_accepted (F : Fabric) : Accepted NativeFlavour F.
Proof. by split. Qed.
End native.
