(* ===== verification/AsioFlavour.v ===== *)
(** * Coroutines on asio::awaitable (qp.cc, executor.cc)

    The instance of [Flavour] for [use_asio_awaitable_t]: the awaitable is converted to an
    [asio::awaitable], whose initiation posts the request under the address of a callback;
    the executor runs and frees that callback, which completes the handler, and the
    coroutine goes on with what the handler was completed with.  No cancellation slot is
    connected here; AsioAwait.v has the interleaving with a cancellation. *)

From S2P Require Import Prelude Verbs RefNic Errors Serdes Device Resources Mr Qp Operations.
From S2P Require Import Executor AsioAwait Coro Awaitables Guarded Flavour.
From stdpp Require Import options.

(** What awaiting an [asio::awaitable] gives, for the arguments its handler was completed
    with: an exception is rethrown. *)
Definition completion_answer (c : completion) : answer :=
  match c with
  | (Some e, _) => AnsThrow e
  | (None, inl z) => AnsZ z
  | (None, inr (n, imm)) => AnsRecv n imm
  end.

Section asio.
Context {V : Verbs} {B : Build}.

(** An operation is known by the address of its callback; [ae_await] is the one the coroutine
    is suspended in. *)
Record asio_exec := AsioExec {
  ae_asio : asio_state;
  ae_task : task;
  ae_await : option Z }.

Definition on_asio {R} (m : M asio_state R) : M asio_exec R :=
  zoom ae_asio (λ a x, AsioExec a (ae_task x) (ae_await x)) m.

(** The executor's part is that of [AsioToken]. *)
#[export] Instance asio_exec_token : CompletionToken asio_exec := {
  token_world x := token_world (ae_asio x);
  set_token_world w x := AsioExec (set_token_world w (ae_asio x)) (ae_task x) (ae_await x);
  token_done x := token_done (ae_asio x);
  execute_callback wc := on_asio (execute_callback wc) }.

(** [co_await qp->op(...)] up to the coroutine's suspension: the awaitable, its conversion
    and the initiation, whose callback is allocated at [cb]. *)
Definition asio_begin (qp cb : Z) : M asio_exec unit :=
  x ← mget;
  match k_code (ae_task x) with
  | Await e _ =>
      on_asio (a ← in_env (make_awaitable qp e); initiate cb a (Some cb)) ;;
      mmodify (λ x, AsioExec (ae_asio x) (ae_task x) (Some cb))
  | _ => mundefined
  end.

(** The rest of the [co_await] after the handler has been completed; the operation has no
    owner any more. *)
Definition asio_end : M asio_exec unit :=
  x ← mget;
  match ae_await x, k_code (ae_task x) with
  | Some i, Await _ k =>
      o ← on_asio (get_op i);
      c ← deref (head (ao_completions o));
      on_asio (mmodify (λ s,
        AsioState (delete i (as_ops s)) (as_callbacks s) (as_env s) (as_done s))) ;;
      mmodify (λ x, AsioExec (ae_asio x)
        (Task (k (completion_answer c)) (k_node (ae_task x)) (k_out (ae_task x))) None)
  | _, _ => mundefined
  end.

(** The handler of the receive's cancellation slot, for a signal that is not [none]: the
    flag, the handler if it still exists, and its completion with an empty result. *)
Definition asio_cancel : M asio_exec unit :=
  x ← mget;
  i ← deref (ae_await x);
  o ← on_asio (get_op i);
  on_asio (update_op i set_called) ;;
  if ao_called o || bool_decide (ao_self_refs o = 0) then mret tt
  else on_asio (update_op i (add_completion
         (Some (SystemError operation_aborted), inr (0%Z, None)))).

Definition asio_answered (x : asio_exec) : option answer :=
  i ← ae_await x;
  o ← as_ops (ae_asio x) !! i;
  completion_answer <$> head (ao_completions o).

#[export] Instance AsioFlavour : Flavour := {|
  exec := asio_exec;
  exec_token := asio_exec_token;
  exec_env x := as_env (ae_asio x);
  exec_task := ae_task;
  exec_with v k x :=
    AsioExec (AsioState (as_ops (ae_asio x)) (as_callbacks (ae_asio x)) v (as_done (ae_asio x)))
      k (ae_await x);
  address_free cb x :=
    bool_decide (as_callbacks (ae_asio x) !! cb = None ∧ as_ops (ae_asio x) !! cb = None);
  begin_await := asio_begin;
  end_await := asio_end;
  suspended x := bool_decide (is_Some (ae_await x));
  answered := asio_answered |}.

(** The executor of a process that starts the coroutine [c]. *)
Definition asio_start (c : coro unit) (v : op_env) : asio_exec :=
  AsioExec (AsioState ∅ ∅ v []) (Task c node0 []) None.

(** ** It is what the runtime needs, of connections whose completions succeed *)

Definition asio_idle (x : asio_exec) : Prop :=
  ae_await x = None ∧ as_ops (ae_asio x) = ∅ ∧ as_callbacks (ae_asio x) = ∅.
(** One callback, which owns the handler. *)
Definition asio_waiting (e : event) (cb : Z) (x : asio_exec) : Prop :=
  ∃ a, ae_await x = Some cb ∧ as_ops (ae_asio x) = {[cb := AsioOp a false 1 []]} ∧
    as_callbacks (ae_asio x) = {[cb := cb]} ∧ aw_matches a e.
(** The callback is gone, and the handler with it, completed once. *)
Definition asio_woken (e : event) (r : answer) (x : asio_exec) : Prop :=
  awaits e = true ∧ ∃ cb o c, ae_await x = Some cb ∧ as_ops (ae_asio x) = {[cb := o]} ∧
    as_callbacks (ae_asio x) = ∅ ∧ ao_self_refs o = 0 ∧ ao_completions o = [c] ∧
    completion_answer c = r.

Lemma completed_answer a e wc :
  aw_matches a e → wc_status wc = IBV_WC_SUCCESS →
  completion_answer (awaitable_exception a, completed_value a wc) = event_answer e wc.
Proof.
  destruct a as [a|a], e; try done; simpl; intros [Hex Hres] Hst;
    unfold send_unhandled_exception, recv_unhandled_exception; rewrite Hex.
  - unfold send_answer. rewrite Hst, check_wc_status_ok. simpl. by rewrite Hres.
  - unfold recv_answer, recv_outcome. rewrite Hst, check_wc_status_ok. simpl.
    unfold set_from_wc. rewrite Hres. simpl. by case_bool_decide.
Qed.

Lemma asio_begin_run qp cb t x e k n :
  asio_idle x → own_queues t → live_qps (as_env (ae_asio x)) !! qp = Some t →
  k_code (ae_task x) = Await e k → awaits e = true → event_passes t e →
  event_post t e cb (w_nic (op_world (as_env (ae_asio x)))) = (0%Z, n) →
  ∃ x' tr, asio_begin qp cb x = (Ret tt, x') ∧ asio_waiting e cb x' ∧
    ae_task x' = ae_task x ∧
    as_env (ae_asio x') = OpEnv (live_qps (as_env (ae_asio x)))
      (World n tr (w_next_sq_psn (op_world (as_env (ae_asio x))))).
Proof.
  intros (Ha & Ho & Hcb) Ht Hq Hc He Hp Hpost.
  destruct (await_posts qp cb t e (as_env (ae_asio x)) n None Ht Hq He Hp Hpost)
    as (a & Hmake & a' & tr & Hsus & Hm & _).
  unfold asio_begin. rewrite bind_mget, Hc. set (s := ae_asio x) in *.
  assert (in_env (make_awaitable qp e) s = (Ret a, s)) as Hmake'.
  { unfold in_env, zoom. rewrite Hmake. by destruct s. }
  assert (on_asio (a ← in_env (make_awaitable qp e); initiate cb a (Some cb)) x =
    (Ret tt, AsioExec
      (AsioState {[cb := AsioOp a' false 1 []]} {[cb := cb]}
         (OpEnv (live_qps (as_env s)) (World n tr (w_next_sq_psn (op_world (as_env s)))))
         (as_done s)) (ae_task x) (ae_await x))) as Hrun.
  { unfold on_asio, zoom. fold s. rewrite (bind_ret _ _ _ _ _ Hmake').
    rewrite (initiate_run cb a cb true a' _ s Hsus). by rewrite Ho, Hcb. }
  rewrite (bind_ret _ _ _ _ _ Hrun). do 2 eexists. split; [reflexivity|].
  split; [by exists a'|done].
Qed.

Lemma asio_execute_run wc e x :
  asio_waiting e (wc_wr_id wc) x → wc_status wc = IBV_WC_SUCCESS →
  ∃ x', on_asio (execute_callback_asio wc) x = (Ret tt, x') ∧
    asio_woken e (event_answer e wc) x' ∧
    ae_task x' = ae_task x ∧ as_env (ae_asio x') = as_env (ae_asio x).
Proof.
  intros (a & Ha & Ho & Hcb & Hm) Hst.
  assert (as_callbacks (ae_asio x) !! wc_wr_id wc = Some (wc_wr_id wc)) as Hcb'
    by (by rewrite Hcb, lookup_singleton_eq).
  assert (as_ops (ae_asio x) !! wc_wr_id wc = Some (AsioOp a false 1 [])) as Ho'
    by (by rewrite Ho, lookup_singleton_eq).
  destruct (execute_asio_run wc _ _ (ae_asio x) Hcb' Ho') as (s' & Hrun & Henv & Hok).
  destruct Hok as (Hops & _ & Hcbs); [by right|].
  rewrite bool_decide_eq_true_2, orb_true_r in Hrun by done.
  eexists. split; [unfold on_asio, zoom; by rewrite Hrun|]. split; [|done].
  split; [by eapply aw_matches_awaits|].
  exists (wc_wr_id wc), (executed_op wc (AsioOp a false 1 [])),
    (awaitable_exception a, completed_value a wc). simpl.
  rewrite Hops, Hcbs, Ho, Hcb, insert_singleton_eq, delete_singleton_eq.
  split_and!; try done; [by destruct a..|]. by apply completed_answer.
Qed.

Lemma asio_end_run e a k x :
  asio_woken e a x → k_code (ae_task x) = Await e k →
  ∃ x', asio_end x = (Ret tt, x') ∧ asio_idle x' ∧
    as_env (ae_asio x') = as_env (ae_asio x) ∧
    ae_task x' = Task (k a) (k_node (ae_task x)) (k_out (ae_task x)).
Proof.
  intros (_ & cb & o & c & Ha & Ho & Hcb & _ & Hcs & <-) Hc.
  unfold asio_end. rewrite bind_mget, Ha, Hc.
  assert (on_asio (get_op cb) x = (Ret o, x)) as Hget.
  { unfold on_asio, zoom, get_op. rewrite bind_mget, Ho, lookup_singleton_eq. simpl.
    by destruct x. }
  rewrite (bind_ret _ _ _ _ _ Hget), Hcs. cbn [head deref]. rewrite bind_mret.
  unfold on_asio. munfold. eexists. split; [reflexivity|].
  split_and!; try done. split_and!; try done. simpl. by rewrite Ho, delete_singleton_eq.
Qed.

(** A waiting receive that is cancelled: its coroutine gets [operation_aborted]; the callback
    stays, owning the handler, until the receive completes. *)
Lemma asio_cancel_run v cb x :
  asio_waiting (AwaitRecv v) cb x →
  ∃ x', asio_cancel x = (Ret tt, x') ∧
    asio_answered x' = Some (AnsThrow (SystemError operation_aborted)) ∧
    ae_await x' = Some cb ∧ ae_task x' = ae_task x ∧
    as_env (ae_asio x') = as_env (ae_asio x) ∧ as_callbacks (ae_asio x') = {[cb := cb]}.
Proof.
  intros (a & Ha & Ho & Hcb & Hm). unfold asio_cancel. rewrite bind_mget, Ha. cbn [deref].
  rewrite bind_mret.
  assert (as_ops (ae_asio x) !! cb = Some (AsioOp a false 1 [])) as Hl
    by (by rewrite Ho, lookup_singleton_eq).
  assert (on_asio (get_op cb) x = (Ret (AsioOp a false 1 []), x)) as Hget.
  { unfold on_asio, zoom, get_op. rewrite bind_mget, Hl. simpl. by destruct x. }
  rewrite (bind_ret _ _ _ _ _ Hget).
  erewrite bind_ret.
  2:{ unfold on_asio, zoom. by rewrite (update_op_run _ _ _ _ Hl). }
  cbn [ao_called ao_self_refs orb]. rewrite bool_decide_eq_false_2 by done.
  unfold on_asio, zoom. cbn [ae_asio].
  erewrite update_op_run by apply lookup_insert_eq.
  eexists. split; [reflexivity|]. unfold asio_answered. simpl. rewrite Ha. simpl.
  rewrite insert_insert_eq, lookup_insert_eq. by split_and!.
Qed.

#[export] Instance AsioSpec : FlavourSpec AsioFlavour.
Proof.
  refine {|
    idle := asio_idle : exec (Flavour:=AsioFlavour) → Prop;
    waiting := asio_waiting : _ → _ → exec (Flavour:=AsioFlavour) → Prop;
    woken := asio_woken : _ → _ → exec (Flavour:=AsioFlavour) → Prop;
    accepts st := st = IBV_WC_SUCCESS;
    begin_run := asio_begin_run;
    execute_run := asio_execute_run;
    end_run := asio_end_run |}; try done.
  - intros x (Ha & Ho & Hcb). simpl. unfold asio_answered. rewrite Ha, Ho, Hcb.
    split_and!; [done|done|]. intros st. by rewrite bool_decide_eq_true_2.
  - intros e cb x (a & Ha & Ho & _ & Hm). simpl. unfold asio_answered. rewrite Ha, Ho.
    cbn [mbind option_bind]. rewrite lookup_singleton_eq.
    split_and!; [by eapply aw_matches_awaits|done|done].
  - intros e r x (He & cb & o & c & Ha & Ho & _ & _ & Hc & Hr). simpl. unfold asio_answered.
    rewrite Ha, Ho. cbn [mbind option_bind]. rewrite lookup_singleton_eq. simpl.
    rewrite Hc. split_and!; [done|done|]. simpl. by rewrite Hr.
Defined.
End asio.
