(* ===== verification/Runtime.v ===== *)
(** * Coroutines run by the library (qp.cc, executor.cc, cq_poller.cc together)

    [Coro] gives the events of coroutines a meaning of their own: the answer of an awaited
    operation comes when the connection has executed it.  Here the same coroutines are run
    by the library: [co_await] makes the awaitable and posts through it ([Operations]), the
    connection takes the request from the queue pair and puts the completions into the
    completion queues, the pollers of a queue pair execute what they poll ([Executor]), and
    the resumed coroutine takes its answer.  How it awaits is a [Flavour], of which the two
    processes may have different ones.  The theorem: what they do here refines
    what they do under the events' meaning.

    The adapter is the one of [Adapter]. *)

From S2P Require Import Prelude Verbs RefNic Errors Serdes Device Resources Mr Qp Operations.
From S2P Require Import Executor AsioAwait Coro Awaitables Adapter Guarded Flavour.
From S2P Require Import NativeFlavour AsioFlavour.
From stdpp Require Import options.

(** ** A process: one coroutine on one connected queue pair *)

Section process.
Context {V : Verbs} {B : Build} {A : Adapter V} {FL : Flavour}.

(** The queue pair is the object [pr_obj] of identity [pr_qp]; each of its completion
    queues has a poller, of which the vector is kept.  The acceptor makes two of them, the
    connector one for both directions, which then has one poller, the first. *)
Record proc := Proc {
  pr_qp : Z;
  pr_obj : basic_qp;
  pr_exec : exec;
  pr_recv_vec : list ibv_wc;
  pr_send_vec : list ibv_wc }.

Definition pr_task (x : proc) : task := exec_task (pr_exec x).
Definition pr_env (x : proc) : op_env := exec_env (pr_exec x).
Definition pr_nic (x : proc) : nic := w_nic (op_world (pr_env x)).
Definition recv_cq (x : proc) : option ibv_cq := cq_ (recv_cq_ (pr_obj x)).
Definition send_cq (x : proc) : option ibv_cq := cq_ (send_cq_ (pr_obj x)).

Definition with_exec (s : exec) (x : proc) : proc :=
  Proc (pr_qp x) (pr_obj x) s (pr_recv_vec x) (pr_send_vec x).
Definition ret_exec (r : outcome unit * exec) (x : proc) : option proc :=
  match r with (Ret _, s) => Some (with_exec s x) | _ => None end.

(** The adapter's doing: queues and memory change under the process. *)
Definition hw_step (f : nic → nic) (m : node) (x : proc) : proc :=
  let k := pr_task x in
  let w := op_world (pr_env x) in
  with_exec
    (exec_with (OpEnv (live_qps (pr_env x)) (World (f (w_nic w)) (w_trace w) (w_next_sq_psn w)))
       (Task (k_code k) m (k_out k)) (pr_exec x)) x.

(** *** Its steps *)

Definition proc_local (x : proc) : option proc :=
  let k := pr_task x in
  match suspended (pr_exec x), k_code k with
  | false, Await e c =>
      '(a, m, o) ← local_event e (k_node k);
      Some (with_exec (exec_with (pr_env x) (Task (c a) m (k_out k ++ o)) (pr_exec x)) x)
  | _, _ => None
  end.

Definition proc_begin (st : Z) (x : proc) : option proc :=
  match suspended (pr_exec x), k_code (pr_task x) with
  | false, Await e _ =>
      if awaits e && address_free st (pr_exec x)
      then ret_exec (begin_await (pr_qp x) st (pr_exec x)) x else None
  | _, _ => None
  end.

Definition proc_end (x : proc) : option proc :=
  match answered (pr_exec x) with
  | Some _ => ret_exec (end_await (pr_exec x)) x
  | None => None
  end.

(** One iteration of a poller's loop.  One that finds nothing changes nothing but the trace
    of calls and is not a step. *)
Definition poll_once (c : cq) (vec : list ibv_wc) (s : exec) : option (exec * list ibv_wc) :=
  match worker [false] (CqPoller vec c s) with
  | (Ret StillRunning, p) => Some (p_state p, wc_vec_ p)
  | _ => None
  end.

Definition proc_poll_recv (x : proc) : option proc :=
  if bool_decide (compq (recv_cq x) (pr_nic x) = []) then None else
  '(s, vec) ← poll_once (recv_cq_ (pr_obj x)) (pr_recv_vec x) (pr_exec x);
  Some (Proc (pr_qp x) (pr_obj x) s vec (pr_send_vec x)).
Definition proc_poll_send (x : proc) : option proc :=
  if bool_decide (recv_cq x = send_cq x ∨ compq (send_cq x) (pr_nic x) = []) then None else
  '(s, vec) ← poll_once (send_cq_ (pr_obj x)) (pr_send_vec x) (pr_exec x);
  Some (Proc (pr_qp x) (pr_obj x) s (pr_recv_vec x) vec).

Inductive proc_step (x x' : proc) : Prop :=
| step_local : proc_local x = Some x' → proc_step x x'
| step_begin st : proc_begin st x = Some x' → proc_step x x'
| step_end : proc_end x = Some x' → proc_step x x'
| step_poll_recv : proc_poll_recv x = Some x' → proc_step x x'
| step_poll_send : proc_poll_send x = Some x' → proc_step x x'.

(** *** What the events' meaning sees of it *)

(** The answer of the awaited event: what the resumed coroutine gets, or will get once the
    completion in the queue has been executed. *)
Definition pending (x : proc) : option answer :=
  if suspended (pr_exec x) then
    match answered (pr_exec x), compq (recv_cq x) (pr_nic x) ++ compq (send_cq x) (pr_nic x) with
    | Some a, _ => Some a
    | None, wc :: _ => answered (execute_callback wc (pr_exec x)).2
    | None, [] => None
    end
  else None.

Definition seen (x : proc) : side :=
  let k := pr_task x in Side (k_code k) (pending x) (k_node k) (k_out k).
End process.
Arguments proc {V B} FL.

(** ** Two processes *)

Section processes.
Context {V : Verbs} {B : Build} {A : Adapter V} {F : Fabric}.

Definition recv_wc (r : ibv_recv_wr) (nbytes : Z) (imm : option Z) : ibv_wc :=
  IbvWc (rwr_wr_id r) IBV_WC_SUCCESS nbytes (default 0%Z imm)
    (match imm with Some _ => IBV_WC_WITH_IMM | None => 0%Z end).

(** The connection executes the first request of [x]. *)
Definition proc_comm {FX FY : Flavour} (x : proc FX) (y : proc FY) : option (proc FX * proc FY) :=
  wr ← head (sendq (qp_ (pr_obj x)) (pr_nic x));
  let r := head (recvq (qp_ (pr_obj y)) (pr_nic y)) in
  '(wc, rcv, nx, ny) ← fab_exec wr r (k_node (pr_task x)) (k_node (pr_task y));
  let x' := hw_step (hw_sent (qp_ (pr_obj x)) (send_cq x) wc) nx x in
  match rcv, r with
  | None, _ => Some (x', hw_step id ny y)
  | Some (n, imm), Some r =>
      Some (x', hw_step (hw_received (qp_ (pr_obj y)) (recv_cq y) (recv_wc r n imm)) ny y)
  | Some _, None => None
  end.

Inductive rt_step {FX FY : Flavour} (p q : proc FX * proc FY) : Prop :=
| rt_left x' : proc_step p.1 x' → q = (x', p.2) → rt_step p q
| rt_right y' : proc_step p.2 y' → q = (p.1, y') → rt_step p q
| rt_comm : proc_comm p.1 p.2 = Some q → rt_step p q
| rt_comm_back r : proc_comm p.2 p.1 = Some r → q = swap r → rt_step p q.

Definition seen_pair {FX FY : Flavour} (p : proc FX * proc FY) : side * side :=
  (seen p.1, seen p.2).
End processes.

(** ** Well-formed processes *)

Section invariant.
Context {V : Verbs} {B : Build} {A : Adapter V} {FL : Flavour} {FS : FlavourSpec FL}.
Implicit Types x : proc FL.

Definition empty_queues x : Prop :=
  sendq (qp_ (pr_obj x)) (pr_nic x) = [] ∧ recvq (qp_ (pr_obj x)) (pr_nic x) = [].
(** Nothing has completed; one completion is in one of the completion queues, which may be
    the same. *)
Definition nothing_done x : Prop :=
  compq (recv_cq x) (pr_nic x) = [] ∧ compq (send_cq x) (pr_nic x) = [].
Definition one_done x (wc : ibv_wc) : Prop :=
  compq (recv_cq x) (pr_nic x) = [wc] ∧
    (recv_cq x ≠ send_cq x → compq (send_cq x) (pr_nic x) = []) ∨
  recv_cq x ≠ send_cq x ∧ compq (recv_cq x) (pr_nic x) = [] ∧
    compq (send_cq x) (pr_nic x) = [wc].

(** Where the coroutine is: running; waiting with its request posted; completed but not
    polled; resumed. *)
Inductive stage x : Prop :=
| in_code : idle (pr_exec x) → empty_queues x → nothing_done x → stage x
| posted e k st :
    k_code (pr_task x) = Await e k → waiting e st (pr_exec x) →
    sendq (qp_ (pr_obj x)) (pr_nic x) = send_posted e st →
    recvq (qp_ (pr_obj x)) (pr_nic x) = recv_posted e st →
    nothing_done x → stage x
| completed e k wc :
    k_code (pr_task x) = Await e k → waiting e (wc_wr_id wc) (pr_exec x) →
    accepts (wc_status wc) → empty_queues x → one_done x wc → stage x
| resumed e k a :
    k_code (pr_task x) = Await e k → woken e a (pr_exec x) →
    empty_queues x → nothing_done x → stage x.

(** What does not change: the queue pair is alive and connected with its own receive queue,
    the pollers of its completion queues have room. *)
Record fixed x : Prop := {
  fx_live : live_qps (pr_env x) !! pr_qp x = Some (pr_obj x);
  fx_created : own_queues (pr_obj x);
  fx_recv_vec : pr_recv_vec x ≠ [] ∧ (Z.of_nat (length (pr_recv_vec x)) < 2 ^ 31)%Z;
  fx_send_vec : pr_send_vec x ≠ [] ∧ (Z.of_nat (length (pr_send_vec x)) < 2 ^ 31)%Z }.

Record well_formed x : Prop := {
  wf_fixed : fixed x;
  wf_stage : stage x;
  wf_guarded : guarded (pr_obj x) (k_code (pr_task x)) }.

(** Steps the events' meaning does not see. *)
Definition to_go x : nat :=
  if suspended (pr_exec x) then
    match answered (pr_exec x) with
    | Some _ => 0
    | None => length (compq (recv_cq x) (pr_nic x) ++ compq (send_cq x) (pr_nic x))
    end
  else 1.
End invariant.

Section steps.
Context {V : Verbs} {B : Build} {A : Adapter V} {AL : AdapterLaws V}.
Context {FL : Flavour} {FS : FlavourSpec FL}.
Implicit Types x : proc FL.

(** *** Polling *)

Lemma process_one wc e (s : exec) :
  waiting e (wc_wr_id wc) s → accepts (wc_status wc) →
  ∃ s', process_wc [wc] s = (Ret tt, s') ∧ woken e (event_answer e wc) s' ∧
    exec_task s' = exec_task s ∧ exec_env s' = exec_env s.
Proof.
  intros Hw Hacc. destruct (execute_run wc e s Hw Hacc) as (s' & Hrun & Hrest).
  exists s'. split; [|done]. unfold process_wc, noexcept. cbn [process_wc_loop].
  by rewrite (bind_ret _ _ _ _ _ Hrun).
Qed.

(** [cq_->poll(wc_vec_)] on a queue that holds [wcs], fewer than the vector has room for. *)
Lemma poll_vec_run c w0 vec (s : exec) wcs :
  (Z.of_nat (length (w0 :: vec)) < 2 ^ 31)%Z → length wcs <= 1 →
  compq (cq_ c) (w_nic (op_world (exec_env s))) = wcs →
  ∃ w, poll_vec (CqPoller (w0 :: vec) c s) =
      (Ret (Z.of_nat (length wcs)), CqPoller (wcs ++ drop (length wcs) (w0 :: vec)) c
        (exec_with (OpEnv (live_qps (exec_env s)) w) (exec_task s) s)) ∧
    w_next_sq_psn w = w_next_sq_psn (op_world (exec_env s)) ∧
    compq (cq_ c) (w_nic w) = [] ∧
    (∀ q, sendq q (w_nic w) = sendq q (w_nic (op_world (exec_env s))) ∧
          recvq q (w_nic w) = recvq q (w_nic (op_world (exec_env s)))) ∧
    ∀ c', c' ≠ cq_ c → compq c' (w_nic w) = compq c' (w_nic (op_world (exec_env s))).
Proof using AL FS.
  intros Hlen H1 Hc. set (w := op_world (exec_env s)) in *.
  set (count := i32 (Z.of_nat (length (w0 :: vec)))).
  destruct (poll_cq_queues (cq_ c) count (w_nic w)) as (m & Hpoll & Hrest & Hq & Hcs).
  { unfold count. rewrite i32_small; lia. }
  assert (take (Z.to_nat count) wcs = wcs ∧ drop (Z.to_nat count) wcs = []) as [Ht Hd].
  { unfold count. rewrite i32_small, Nat2Z.id by lia. simpl.
    destruct wcs as [|? []]; simpl in *; [done| |lia]. by rewrite take_nil, drop_nil. }
  rewrite Hc, Ht in Hpoll. rewrite Hc, Hd in Hrest.
  exists (after w m (EvPollCq count (Z.of_nat (length wcs)) wcs)).
  split_and!; try done. unfold poll_vec, in_token. munfold.
  cbn [poller_cq_ wc_vec_ p_state]. rewrite exec_token_world.
  unfold cq_poll, cq_poll_n. munfold. unfold vcall. fold w count. rewrite Hpoll.
  rewrite bool_decide_eq_false_2 by lia. cbn. by rewrite exec_set_world.
Qed.

Lemma poll_once_run c vec (s : exec) wc e :
  vec ≠ [] → (Z.of_nat (length vec) < 2 ^ 31)%Z →
  compq (cq_ c) (w_nic (op_world (exec_env s))) = [wc] →
  waiting e (wc_wr_id wc) s → accepts (wc_status wc) →
  ∃ s' vec', poll_once c vec s = Some (s', vec') ∧
    length vec' = length vec ∧ woken e (event_answer e wc) s' ∧ exec_task s' = exec_task s ∧
    live_qps (exec_env s') = live_qps (exec_env s) ∧
    compq (cq_ c) (w_nic (op_world (exec_env s'))) = [] ∧
    (∀ q, sendq q (w_nic (op_world (exec_env s'))) = sendq q (w_nic (op_world (exec_env s))) ∧
          recvq q (w_nic (op_world (exec_env s'))) = recvq q (w_nic (op_world (exec_env s)))) ∧
    ∀ c', c' ≠ cq_ c → compq c' (w_nic (op_world (exec_env s'))) =
      compq c' (w_nic (op_world (exec_env s))).
Proof using AL FS.
  intros Hne Hlen Hc Hw Hacc. destruct vec as [|w0 vec]; [done|].
  destruct (poll_vec_run c w0 vec s [wc] Hlen (le_n 1) Hc)
    as (w & Hvec & _ & Hcq & Hqs & Hother).
  set (s1 := exec_with (OpEnv (live_qps (exec_env s)) w) (exec_task s) s) in *.
  destruct (process_one wc e s1 (waiting_with _ _ _ _ _ Hw) Hacc)
    as (s' & Hproc & Hwoken & Htask & Henv).
  exists s', (wc :: vec). rewrite Henv, Htask. unfold s1.
  rewrite exec_env_with, exec_task_with. split_and!; try done.
  assert (in_token (process_wc [wc]) (CqPoller (wc :: vec) c s1) =
    (Ret tt, CqPoller (wc :: vec) c s')) as Hproc'.
  { unfold in_token, zoom. cbn [p_state]. by rewrite Hproc. }
  unfold poll_once. cbn [worker]. erewrite bind_ret.
  2:{ unfold try_catch. rewrite (bind_ret _ _ _ _ _ Hvec), bool_decide_eq_false_2 by done.
      rewrite bind_mget. cbn [wc_vec_ length app drop Z.of_nat Z.to_nat take Pos.of_succ_nat
        Pos.to_nat Pos.iter_op]. by rewrite (bind_ret _ _ _ _ _ Hproc'). }
  done.
Qed.

(** An iteration that finds nothing: one more call in the trace, all queues as they were. *)
Lemma poll_once_idle c vec (s : exec) :
  vec ≠ [] → (Z.of_nat (length vec) < 2 ^ 31)%Z →
  compq (cq_ c) (w_nic (op_world (exec_env s))) = [] →
  ∃ w, poll_once c vec s =
      Some (exec_with (OpEnv (live_qps (exec_env s)) w) (exec_task s) s, vec) ∧
    (∀ q, sendq q (w_nic w) = sendq q (w_nic (op_world (exec_env s))) ∧
          recvq q (w_nic w) = recvq q (w_nic (op_world (exec_env s)))) ∧
    ∀ c', compq c' (w_nic w) = compq c' (w_nic (op_world (exec_env s))).
Proof using AL FS.
  intros Hne Hlen Hc. destruct vec as [|w0 vec]; [done|].
  destruct (poll_vec_run c w0 vec s [] Hlen ltac:(simpl; lia) Hc)
    as (w & Hvec & _ & Hcq & Hqs & Hother).
  exists w. split; [|split; [done|]].
  - unfold poll_once. cbn [worker]. erewrite bind_ret.
    2:{ unfold try_catch. rewrite (bind_ret _ _ _ _ _ Hvec). reflexivity. }
    done.
  - intros c'. destruct (decide (c' = cq_ c)) as [->|Hc']; [by rewrite Hcq|by apply Hother].
Qed.

(** *** What is seen at each stage *)

Lemma pending_in_code x : idle (pr_exec x) → pending x = None.
Proof. intros (Hs & _)%idle_seen. unfold pending. by rewrite Hs. Qed.

Lemma pending_posted x e st :
  waiting e st (pr_exec x) → nothing_done x → pending x = None.
Proof.
  intros (_ & Hs & Ha)%waiting_seen [H1 H2]. unfold pending. by rewrite Hs, Ha, H1, H2.
Qed.

Lemma pending_completed x e wc :
  waiting e (wc_wr_id wc) (pr_exec x) → accepts (wc_status wc) → one_done x wc →
  pending x = Some (event_answer e wc).
Proof.
  intros Hw Hacc Hc. destruct (execute_run wc e _ Hw Hacc) as (s' & Hrun & Hwoken & _).
  apply woken_seen in Hwoken as (_ & _ & Ha'). apply waiting_seen in Hw as (_ & Hs & Ha).
  unfold pending. rewrite Hs, Ha. destruct Hc as [[-> _]|(_ & -> & ->)]; simpl; by rewrite Hrun.
Qed.

Lemma pending_resumed x e a : woken e a (pr_exec x) → pending x = Some a.
Proof. intros (_ & Hs & Ha)%woken_seen. unfold pending. by rewrite Hs, Ha. Qed.

Lemma to_go_idle x : idle (pr_exec x) → to_go x = 1.
Proof. intros (Hs & _)%idle_seen. unfold to_go. by rewrite Hs. Qed.
Lemma to_go_waiting x e st : waiting e st (pr_exec x) →
  to_go x = length (compq (recv_cq x) (pr_nic x) ++ compq (send_cq x) (pr_nic x)).
Proof. intros (_ & Hs & Ha)%waiting_seen. unfold to_go. by rewrite Hs, Ha. Qed.
Lemma to_go_woken x e a : woken e a (pr_exec x) → to_go x = 0.
Proof. intros (_ & Hs & Ha)%woken_seen. unfold to_go. by rewrite Hs, Ha. Qed.

(** A coroutine that is not suspended is in its code. *)
Lemma stage_running x :
  stage x → suspended (pr_exec x) = false →
  idle (pr_exec x) ∧ empty_queues x ∧ nothing_done x.
Proof.
  intros [Hi Hq Hcs|e k st _ (_ & Hs' & _)%waiting_seen _ _ _
    |e k wc _ (_ & Hs' & _)%waiting_seen _ _ _|e k a _ (_ & Hs' & _)%woken_seen _ _] Hs;
    [done|congruence..].
Qed.

(** *** The steps of a process, seen *)

Definition quiet x x' : Prop := seen x' = seen x ∧ to_go x' < to_go x.

Lemma local_seen x x' :
  well_formed x → proc_local x = Some x' →
  well_formed x' ∧ local_step (seen x) = Some (seen x').
Proof.
  intros [Hf Hst Hg] Hs. unfold proc_local in Hs.
  destruct (suspended (pr_exec x)) eqn:Ha; [done|].
  destruct (k_code (pr_task x)) as [|o|e c] eqn:Hc; try done.
  destruct (local_event e (k_node (pr_task x))) as [[[a m] o]|] eqn:He; [|done].
  injection Hs as <-. destruct (stage_running x Hst Ha) as (Hi & [Hq1 Hq2] & [Hc1 Hc2]).
  set (x' := with_exec _ x).
  assert (idle (pr_exec x')) as Hi' by (by apply idle_with).
  assert (pr_env x' = pr_env x) as Henv by apply exec_env_with.
  assert (pr_task x' = Task (c a) m (k_out (pr_task x) ++ o)) as Ht by apply exec_task_with.
  split.
  - split.
    + destruct Hf as [Hl Hcr Hr Hse]. split; [by rewrite Henv|done..].
    + apply in_code; [done| |]; unfold empty_queues, nothing_done, pr_nic; by rewrite Henv.
    + rewrite Ht. apply Hg.
  - unfold local_step, seen. rewrite (pending_in_code x Hi), (pending_in_code x' Hi'), Ht, Hc.
    cbn [s_pending s_code s_node s_out]. by rewrite He.
Qed.

(** Posting, when the queues are empty. *)
Lemma event_posts t e st n :
  awaits e = true → sendq (qp_ t) n = [] → recvq (qp_ t) n = [] →
  ∃ n', event_post t e st n = (0%Z, n') ∧
    sendq (qp_ t) n' = send_posted e st ∧ recvq (qp_ t) n' = recv_posted e st ∧
    ∀ c, compq c n' = compq c n.
Proof using AL.
  intros He Hsq Hrq. destruct e as [| | | | | |op v|v]; try done; simpl.
  - destruct (post_send_queues (qp_ t) (expected_wr op v st) n Hsq) as (n' & Hp & H1 & H2 & H3).
    exists n'. by rewrite H2.
  - destruct (post_recv_queues (qp_ t) (expected_recv_wr v st) n Hrq) as (n' & Hp & H1 & H2 & H3).
    exists n'. by rewrite H2.
Qed.

Lemma begin_posts st x e k :
  fixed x → empty_queues x → idle (pr_exec x) → k_code (pr_task x) = Await e k →
  awaits e = true → event_passes (pr_obj x) e →
  ∃ s', begin_await (pr_qp x) st (pr_exec x) = (Ret tt, s') ∧ waiting e st s' ∧
    exec_task s' = pr_task x ∧ live_qps (exec_env s') = live_qps (pr_env x) ∧
    sendq (qp_ (pr_obj x)) (w_nic (op_world (exec_env s'))) = send_posted e st ∧
    recvq (qp_ (pr_obj x)) (w_nic (op_world (exec_env s'))) = recv_posted e st ∧
    ∀ c, compq c (w_nic (op_world (exec_env s'))) = compq c (pr_nic x).
Proof using AL.
  intros [Hl Hcr _ _] [Hsq Hrq] Hi Hc He Hp.
  destruct (event_posts (pr_obj x) e st (pr_nic x) He Hsq Hrq) as (n & Hpost & H1 & H2 & H3).
  destruct (begin_run (pr_qp x) st _ (pr_exec x) e k n Hi Hcr Hl Hc He Hp Hpost)
    as (s' & tr & Hrun & Hw & Ht & Henv).
  exists s'. rewrite Henv. by split_and!.
Qed.

Lemma begin_seen st x x' :
  well_formed x → proc_begin st x = Some x' → well_formed x' ∧ quiet x x'.
Proof using AL.
  intros [Hf Hst Hg] Hs. unfold proc_begin in Hs.
  destruct (suspended (pr_exec x)) eqn:Ha; [done|].
  destruct (k_code (pr_task x)) as [|o|e c] eqn:Hc; try done.
  destruct (awaits e) eqn:He; [|done]. destruct (address_free st _); [|done]. simpl in Hs.
  destruct (stage_running x Hst Ha) as (Hi & Hq & Hcs).
  destruct (begin_posts st x e c Hf Hq Hi Hc He (proj1 Hg))
    as (s' & Hrun & Hw & Ht & Hlive & Hsq & Hrq & Hcq).
  rewrite Hrun in Hs. injection Hs as <-. set (x' := with_exec s' x).
  assert (nothing_done x') as Hcs' by (split; (etrans; [apply Hcq|]); apply Hcs).
  assert (pr_task x' = pr_task x) as Ht' by exact Ht.
  split; [split|split].
  - destruct Hf as [Hl Hcr Hr Hse]. split; [|done..]. unfold pr_env. simpl. by rewrite Hlive.
  - apply (posted x' e c st); try done. by rewrite Ht'.
  - by rewrite Ht', Hc.
  - unfold seen. by rewrite (pending_in_code x Hi), (pending_posted x' e st Hw Hcs'), Ht'.
  - rewrite (to_go_idle x Hi), (to_go_waiting x' e st Hw). destruct Hcs' as [-> ->]. simpl. lia.
Qed.

Lemma end_seen x x' :
  well_formed x → proc_end x = Some x' →
  well_formed x' ∧ wake_step (seen x) = Some (seen x').
Proof.
  intros [Hf Hst Hg] Hs. unfold proc_end in Hs.
  destruct (answered (pr_exec x)) eqn:Hr; [|done].
  destruct Hst as [(_ & Hn & _)%idle_seen _ _|e k st _ (_ & _ & Hn)%waiting_seen _ _ _
    |e k wc _ (_ & _ & Hn)%waiting_seen _ _ _|e k r Hc Hw Hq Hcs]; try congruence.
  destruct (end_run e r k _ Hw Hc) as (s' & Hrun & Hi & Henv & Ht).
  rewrite Hrun in Hs. injection Hs as <-. set (x' := with_exec s' x).
  assert (pr_task x' = Task (k r) (k_node (pr_task x)) (k_out (pr_task x))) as Ht' by exact Ht.
  assert (pr_env x' = pr_env x) as Henv' by exact Henv.
  split; [split|].
  - destruct Hf as [Hl Hcr Hrv Hse]. split; [by rewrite Henv'|done..].
  - apply in_code; [done| |]; unfold empty_queues, nothing_done, pr_nic in *; by rewrite Henv'.
  - rewrite Ht'. rewrite Hc in Hg. apply Hg.
  - unfold wake_step, seen. rewrite (pending_resumed x e r Hw), (pending_in_code x' Hi), Ht', Hc.
    done.
Qed.

Lemma fixed_poll x s rv sv :
  fixed x → live_qps (exec_env s) = live_qps (pr_env x) →
  length rv = length (pr_recv_vec x) → length sv = length (pr_send_vec x) →
  fixed (Proc (pr_qp x) (pr_obj x) s rv sv).
Proof.
  intros [Hl Hcr [Hr1 Hr2] [Hs1 Hs2]] Hlive Hrv Hsv.
  split; [unfold pr_env; simpl; by rewrite Hlive|done| |]; simpl; rewrite ?Hrv, ?Hsv;
    (split; [|done]); intros ->; [by destruct (pr_recv_vec x)|by destruct (pr_send_vec x)].
Qed.

(** A poll moves a completed operation on to its resumption. *)
Lemma poll_quiet x x' e k wc :
  well_formed x → k_code (pr_task x) = Await e k → waiting e (wc_wr_id wc) (pr_exec x) →
  accepts (wc_status wc) → one_done x wc →
  fixed x' → pr_obj x' = pr_obj x → pr_task x' = pr_task x →
  woken e (event_answer e wc) (pr_exec x') →
  empty_queues x' → nothing_done x' → well_formed x' ∧ quiet x x'.
Proof.
  intros [Hf _ Hg] Hc Hw Hacc Hcs Hf' Hobj Ht Hw' Hq Hcs'.
  split; [split; [done| |]|split].
  - eapply (resumed x' e k); [by rewrite Ht|done..].
  - by rewrite Hobj, Ht.
  - unfold seen. by rewrite (pending_completed x e wc Hw Hacc Hcs), (pending_resumed x' _ _ Hw'), Ht.
  - rewrite (to_go_waiting x e _ Hw), (to_go_woken x' _ _ Hw').
    destruct Hcs as [[-> _]|(_ & -> & ->)]; simpl; lia.
Qed.

Lemma poll_recv_seen x x' :
  well_formed x → proc_poll_recv x = Some x' → well_formed x' ∧ quiet x x'.
Proof using AL.
  intros Hwf Hs. pose proof Hwf as [Hf Hst Hg]. unfold proc_poll_recv in Hs.
  case_bool_decide as Hne; [done|].
  destruct (poll_once _ _ _) as [[s vec]|] eqn:Hp; [|done]. injection Hs as <-.
  destruct Hst as [_ _ [Hcr _]|e k st _ _ _ _ [Hcr _]
    |e k wc Hc Hw Hacc Hq [[Hcr Hcs]|(_ & Hcr & _)]|e k a _ _ _ [Hcr _]]; try congruence.
  destruct (fx_recv_vec x Hf) as [Hv1 Hv2].
  destruct (poll_once_run (recv_cq_ (pr_obj x)) _ (pr_exec x) wc e Hv1 Hv2 Hcr Hw Hacc)
    as (s' & vec' & Hrun & Hlen & Hw' & Ht & Hlive & Hcq' & Hqs & Hother).
  rewrite Hrun in Hp. injection Hp as -> ->.
  eapply (poll_quiet x _ e k wc); try done.
  - left. by split.
  - by apply fixed_poll.
  - split; (etrans; [apply Hqs|]); apply Hq.
  - split; [exact Hcq'|]. destruct (decide (send_cq x = recv_cq x)) as [He|He].
    + etrans; [|exact Hcq']. unfold send_cq, recv_cq in *. cbn [pr_obj]. by rewrite He.
    + etrans; [exact (Hother (send_cq x) He)|]. by apply Hcs.
Qed.

Lemma poll_send_seen x x' :
  well_formed x → proc_poll_send x = Some x' → well_formed x' ∧ quiet x x'.
Proof using AL.
  intros Hwf Hs. pose proof Hwf as [Hf Hst Hg]. unfold proc_poll_send in Hs.
  case_bool_decide as Hne; [done|].
  destruct (poll_once _ _ _) as [[s vec]|] eqn:Hp; [|done]. injection Hs as <-.
  assert (recv_cq x ≠ send_cq x ∧ compq (send_cq x) (pr_nic x) ≠ []) as [Hdiff Hne'] by tauto.
  destruct Hst as [_ _ [_ Hcs]|e k st _ _ _ _ [_ Hcs]
    |e k wc Hc Hw Hacc Hq [[Hcr Hcs]|(_ & Hcr & Hcs)]|e k a _ _ _ [_ Hcs]];
    try congruence; [by rewrite Hcs in Hne'|].
  destruct (fx_send_vec x Hf) as [Hv1 Hv2].
  destruct (poll_once_run (send_cq_ (pr_obj x)) _ (pr_exec x) wc e Hv1 Hv2 Hcs Hw Hacc)
    as (s' & vec' & Hrun & Hlen & Hw' & Ht & Hlive & Hcq' & Hqs & Hother).
  rewrite Hrun in Hp. injection Hp as -> ->.
  eapply (poll_quiet x _ e k wc); try done.
  - by right.
  - by apply fixed_poll.
  - split; (etrans; [apply Hqs|]); apply Hq.
  - split; [|exact Hcq']. by etrans; [exact (Hother (recv_cq x) Hdiff)|].
Qed.

Lemma proc_simulated x x' :
  well_formed x → proc_step x x' →
  well_formed x' ∧ (local_step (seen x) = Some (seen x') ∨ wake_step (seen x) = Some (seen x') ∨
    quiet x x').
Proof using AL.
  intros Hx [Hs|st Hs|Hs|Hs|Hs].
  - destruct (local_seen x x' Hx Hs); auto.
  - destruct (begin_seen st x x' Hx Hs); auto.
  - destruct (end_seen x x' Hx Hs); auto.
  - destruct (poll_recv_seen x x' Hx Hs); auto.
  - destruct (poll_send_seen x x' Hx Hs); auto.
Qed.

(** *** Not stuck before what is seen is *)

Lemma begin_goes_on x e k :
  well_formed x → k_code (pr_task x) = Await e k → awaits e = true → pending x = None →
  (∃ x', proc_step x x') ∨
  ∃ st, waiting e st (pr_exec x) ∧ sendq (qp_ (pr_obj x)) (pr_nic x) = send_posted e st ∧
    recvq (qp_ (pr_obj x)) (pr_nic x) = recv_posted e st.
Proof using AL.
  intros [Hf Hst Hg] Hc He Hp.
  destruct Hst as [Hi Hq Hcs|e' k' st Hc' Hw Hsq Hrq Hcs|e' k' wc Hc' Hw Hacc Hq Hcs
    |e' k' a Hc' Hw Hq Hcs].
  - left. pose proof Hg as Hg'. rewrite Hc in Hg'.
    destruct (begin_posts 0 x e k Hf Hq Hi Hc He (proj1 Hg')) as (s' & Hrun & _).
    destruct (idle_seen _ Hi) as (Hs & _ & Hfree).
    exists (with_exec s' x). apply (step_begin x _ 0). unfold proc_begin.
    by rewrite Hs, Hc, He, Hfree, Hrun.
  - right. exists st. rewrite Hc in Hc'. by injection Hc' as <- _.
  - by rewrite (pending_completed x e' wc Hw Hacc Hcs) in Hp.
  - by rewrite (pending_resumed x e' a Hw) in Hp.
Qed.

Lemma local_goes_on x s :
  well_formed x → local_step (seen x) = Some s → ∃ x', proc_step x x'.
Proof.
  intros [Hf Hst Hg] Hs. unfold local_step in Hs.
  change (s_pending (seen x)) with (pending x) in Hs.
  change (s_code (seen x)) with (k_code (pr_task x)) in Hs.
  destruct (pending x) eqn:Hp; [done|].
  destruct (k_code (pr_task x)) as [|o|e k] eqn:Hc; try done.
  change (s_node (seen x)) with (k_node (pr_task x)) in Hs.
  destruct (local_event e (k_node (pr_task x))) as [[[a m] o]|] eqn:He; [|done].
  destruct Hst as [Hi Hq Hcs|e' k' st Hc' Hw Hsq Hrq Hcs|e' k' wc Hc' Hw Hacc Hq Hcs
    |e' k' r Hc' Hw Hq Hcs].
  - eexists. apply step_local. unfold proc_local.
    by rewrite (proj1 (idle_seen _ Hi)), Hc, He.
  - assert (e' = e) as -> by congruence. apply waiting_seen in Hw as [Hw _]. by destruct e.
  - by rewrite (pending_completed x e' wc Hw Hacc Hcs) in Hp.
  - by rewrite (pending_resumed x e' r Hw) in Hp.
Qed.

Lemma wake_goes_on x a :
  well_formed x → pending x = Some a → ∃ x', proc_step x x'.
Proof using AL.
  intros [Hf Hst Hg] Hp.
  destruct Hst as [Hi _ _|e k st _ Hw _ _ Hcs|e k wc Hc Hw Hacc Hq Hcs|e k r Hc Hw Hq Hcs].
  - by rewrite (pending_in_code x Hi) in Hp.
  - by rewrite (pending_posted x e st Hw Hcs) in Hp.
  - destruct Hcs as [[Hcr _]|(Hdiff & _ & Hcs)].
    + destruct (fx_recv_vec x Hf) as [Hv1 Hv2].
      destruct (poll_once_run (recv_cq_ (pr_obj x)) _ (pr_exec x) wc e Hv1 Hv2 Hcr Hw Hacc)
        as (s' & vec & Hrun & _).
      eexists. apply step_poll_recv. unfold proc_poll_recv.
      rewrite bool_decide_eq_false_2 by (by rewrite Hcr). by rewrite Hrun.
    + destruct (fx_send_vec x Hf) as [Hv1 Hv2].
      destruct (poll_once_run (send_cq_ (pr_obj x)) _ (pr_exec x) wc e Hv1 Hv2 Hcs Hw Hacc)
        as (s' & vec & Hrun & _).
      eexists. apply step_poll_send. unfold proc_poll_send.
      rewrite bool_decide_eq_false_2 by (rewrite Hcs; naive_solver). by rewrite Hrun.
  - destruct (end_run e r k _ Hw Hc) as (s' & Hrun & _).
    apply woken_seen in Hw as (_ & _ & Ha).
    exists (with_exec s' x). apply step_end. unfold proc_end. by rewrite Ha, Hrun.
Qed.

(** *** The adapter changes a process *)

Lemma hw_step_env f m x :
  pr_env (hw_step f m x) = OpEnv (live_qps (pr_env x))
    (World (f (pr_nic x)) (w_trace (op_world (pr_env x))) (w_next_sq_psn (op_world (pr_env x)))).
Proof using FS. apply exec_env_with. Qed.
Lemma hw_step_task f m x :
  pr_task (hw_step f m x) = Task (k_code (pr_task x)) m (k_out (pr_task x)).
Proof using FS. apply exec_task_with. Qed.
Lemma hw_step_nic f m x : pr_nic (hw_step f m x) = f (pr_nic x).
Proof using FS. unfold pr_nic at 1. by rewrite hw_step_env. Qed.
Lemma hw_step_fixed f m x : fixed x → fixed (hw_step f m x).
Proof using FS. intros [Hl Hcr Hr Hs]. split; [by rewrite hw_step_env|done..]. Qed.
Lemma hw_step_guarded f m x :
  guarded (pr_obj x) (k_code (pr_task x)) →
  guarded (pr_obj (hw_step f m x)) (k_code (pr_task (hw_step f m x))).
Proof using FS. by rewrite hw_step_task. Qed.

(** The memory of a process changes under it. *)
Lemma hw_memory m x :
  well_formed x →
  well_formed (hw_step id m x) ∧
  seen (hw_step id m x) = Side (s_code (seen x)) (s_pending (seen x)) m (s_out (seen x)).
Proof.
  intros [Hf Hst Hg]. set (x' := hw_step id m x).
  assert (k_code (pr_task x') = k_code (pr_task x)) as Hc' by (unfold x'; by rewrite hw_step_task).
  assert (pr_nic x' = pr_nic x) as Hn by apply hw_step_nic.
  assert (stage x' ∧ pending x' = pending x) as [Hst' Hp].
  { destruct Hst as [Hi Hq Hcs|e k st Hc Hw Hsq Hrq Hcs|e k wc Hc Hw Hacc Hq Hcs|e k a Hc Hw Hq Hcs].
    - assert (idle (pr_exec x')) as Hi' by (by apply idle_with).
      split; [apply in_code; unfold empty_queues, nothing_done; by rewrite ?Hn|].
      by rewrite !pending_in_code.
    - assert (waiting e st (pr_exec x')) as Hw' by (by apply waiting_with).
      assert (nothing_done x') as Hcs' by (unfold nothing_done; by rewrite Hn).
      split; [apply (posted x' e k st); by rewrite ?Hc', ?Hn|].
      by rewrite !(pending_posted _ e st).
    - assert (waiting e (wc_wr_id wc) (pr_exec x')) as Hw' by (by apply waiting_with).
      assert (one_done x' wc) as Hcs' by (unfold one_done; by rewrite Hn).
      split; [apply (completed x' e k wc); unfold empty_queues; by rewrite ?Hc', ?Hn|].
      by rewrite !(pending_completed _ e wc).
    - assert (woken e a (pr_exec x')) as Hw' by (by apply woken_with).
      split; [apply (resumed x' e k a); unfold empty_queues, nothing_done; by rewrite ?Hc', ?Hn|].
      by rewrite !(pending_resumed _ e a). }
  split; [split; [by apply hw_step_fixed|done|by apply hw_step_guarded]|].
  unfold seen at 1. rewrite Hp. unfold x'. by rewrite hw_step_task.
Qed.

(** A process with a request on its queue waits for it. *)
Lemma request_posted x wr :
  well_formed x → head (sendq (qp_ (pr_obj x)) (pr_nic x)) = Some wr →
  ∃ st op v k, k_code (pr_task x) = Await (AwaitSend op v) k ∧
    waiting (AwaitSend op v) st (pr_exec x) ∧
    wr = expected_wr op v st ∧ pending x = None ∧
    tail (sendq (qp_ (pr_obj x)) (pr_nic x)) = [] ∧ recvq (qp_ (pr_obj x)) (pr_nic x) = [] ∧
    nothing_done x.
Proof.
  intros [_ Hst _] Hh. destruct Hst as [_ [Hq _] _|e k st Hc Hw Hsq Hrq Hcs
    |? ? ? _ _ _ [Hq _] _|? ? ? _ _ [Hq _] _]; rewrite ?Hq in Hh; try done.
  rewrite Hsq in Hh. destruct e as [| | | | | |op v|v]; try done. simpl in Hh, Hrq.
  injection Hh as <-. exists st, op, v, k.
  split_and!; try done; [by eapply pending_posted|by rewrite Hsq].
Qed.

(** The sender's side of what the connection does... *)
Lemma sender_seen x st op v k wc m :
  well_formed x → k_code (pr_task x) = Await (AwaitSend op v) k →
  waiting (AwaitSend op v) st (pr_exec x) → accepts (wc_status wc) →
  tail (sendq (qp_ (pr_obj x)) (pr_nic x)) = [] → recvq (qp_ (pr_obj x)) (pr_nic x) = [] →
  nothing_done x →
  let x' := hw_step (hw_sent (qp_ (pr_obj x)) (send_cq x) (wc_with_id st wc)) m x in
  well_formed x' ∧
  seen x' = Side (k_code (pr_task x)) (Some (send_answer op v wc)) m (k_out (pr_task x)).
Proof using AL.
  intros [Hf Hst Hg] Hc Hw Hacc Hsq Hrq [Hc1 Hc2] x'.
  destruct (hw_sent_queues (qp_ (pr_obj x)) (send_cq x) (wc_with_id st wc) (pr_nic x))
    as (Hsq' & Hrq' & Hcq' & Hother).
  pose proof (hw_step_nic (hw_sent (qp_ (pr_obj x)) (send_cq x) (wc_with_id st wc)) m x) as Hn.
  fold x' in Hn. rewrite Hc2 in Hcq'. rewrite <- Hn in *.
  assert (one_done x' (wc_with_id st wc)) as Hcs.
  { destruct (decide (recv_cq x = send_cq x)) as [He|He].
    - left. split; [|done]. change (recv_cq x') with (recv_cq x). by rewrite He.
    - right. split_and!; [done| |exact Hcq']. by etrans; [exact (Hother (recv_cq x) He)|]. }
  assert (waiting (AwaitSend op v) (wc_wr_id (wc_with_id st wc)) (pr_exec x')) as Hw'
    by (by apply waiting_with).
  split; [split; [by apply hw_step_fixed| |by apply hw_step_guarded]|].
  - apply (completed x' (AwaitSend op v) k (wc_with_id st wc)); try done.
    + unfold x'. by rewrite hw_step_task.
    + split; [by etrans; [exact Hsq'|]|by etrans; [exact Hrq'|]].
  - unfold seen. rewrite (pending_completed x' _ _ Hw' Hacc Hcs). unfold x'.
    rewrite hw_step_task. cbn [event_answer k_code k_node k_out]. by destruct op.
Qed.

(** ... the receive on the queue of a process, if any, which is the one seen ... *)
Lemma receive_posted x :
  well_formed x →
  head (recvq (qp_ (pr_obj x)) (pr_nic x)) = None ∨
  ∃ st v k, k_code (pr_task x) = Await (AwaitRecv v) k ∧
    waiting (AwaitRecv v) st (pr_exec x) ∧
    recvq (qp_ (pr_obj x)) (pr_nic x) = [expected_recv_wr v st] ∧
    sendq (qp_ (pr_obj x)) (pr_nic x) = [] ∧ nothing_done x ∧
    posted_recv (seen x) = Some (expected_recv_wr v 0).
Proof.
  intros [_ Hst _]. destruct Hst as [_ [_ Hq] _|e k st Hc Hw Hsq Hrq Hcs
    |? ? ? _ _ _ [_ Hq] _|? ? ? _ _ [_ Hq] _]; rewrite ?Hq; try by left.
  rewrite Hrq, Hsq. destruct e as [| | | | | |op v|v]; try by left.
  right. exists st, v, k. split_and!; try done.
  unfold posted_recv, seen. simpl. by rewrite (pending_posted x _ st Hw Hcs), Hc.
Qed.

Lemma recv_answer_made r n imm : recv_answer (recv_wc r n imm) = AnsRecv n imm.
Proof using AL.
  unfold recv_answer, recv_outcome, recv_wc. cbn [wc_status wc_byte_len wc_flags wc_imm_data].
  rewrite check_wc_status_ok. simpl. destruct imm as [imm|]; simpl.
  - rewrite Z.land_diag, bool_decide_eq_true_2; [done|apply with_imm_flag].
  - done.
Qed.

Lemma expected_recv_wr_id v st : expected_recv_wr v st = recv_with_id st (expected_recv_wr v 0).
Proof. unfold expected_recv_wr. by case_decide. Qed.

(** ... and the receiver's side. *)
Lemma receiver_seen x st v k n imm m :
  well_formed x → k_code (pr_task x) = Await (AwaitRecv v) k →
  waiting (AwaitRecv v) st (pr_exec x) →
  recvq (qp_ (pr_obj x)) (pr_nic x) = [expected_recv_wr v st] →
  sendq (qp_ (pr_obj x)) (pr_nic x) = [] → nothing_done x →
  let wc := recv_wc (expected_recv_wr v st) n imm in
  let x' := hw_step (hw_received (qp_ (pr_obj x)) (recv_cq x) wc) m x in
  well_formed x' ∧
  seen x' = Side (k_code (pr_task x)) (Some (AnsRecv n imm)) m (k_out (pr_task x)).
Proof using AL.
  intros [Hf Hst Hg] Hc Hw Hrq Hsq [Hc1 Hc2] wc x'.
  destruct (hw_received_queues (qp_ (pr_obj x)) (recv_cq x) wc (pr_nic x))
    as (Hrq' & Hsq' & Hcq' & Hother).
  pose proof (hw_step_nic (hw_received (qp_ (pr_obj x)) (recv_cq x) wc) m x) as Hn.
  fold x' in Hn. rewrite Hc1 in Hcq'. rewrite Hrq in Hrq'. rewrite <- Hn in *.
  assert (one_done x' wc) as Hcs.
  { left. split; [exact Hcq'|]. intros He.
    by etrans; [exact (Hother (send_cq x) (not_eq_sym He))|]. }
  assert (wc_wr_id wc = st) as Hid by (unfold wc; by rewrite expected_recv_wr_id).
  assert (waiting (AwaitRecv v) (wc_wr_id wc) (pr_exec x')) as Hw'
    by (rewrite Hid; by apply waiting_with).
  assert (accepts (wc_status wc)) as Hacc by apply accepts_success.
  split; [split; [by apply hw_step_fixed| |by apply hw_step_guarded]|].
  - apply (completed x' (AwaitRecv v) k wc); try done.
    + unfold x'. by rewrite hw_step_task.
    + split; [by etrans; [exact Hsq'|]|exact Hrq'].
  - unfold seen. rewrite (pending_completed x' _ _ Hw' Hacc Hcs). unfold x'.
    rewrite hw_step_task. cbn [event_answer k_code k_node k_out]. unfold wc.
    by rewrite recv_answer_made.
Qed.
End steps.

(** ** Two processes and the connection, simulated *)

Section pairs.
Context {V : Verbs} {B : Build} {A : Adapter V} {AL : AdapterLaws V} {F : Fabric} {FO : Orderly F}.

Lemma expected_wr_id op v st : expected_wr op v st = with_id st (expected_wr op v 0).
Proof. by destruct op. Qed.

Section comm.
Context {FX : Flavour} {FSX : FlavourSpec FX} {AX : Accepted FX F}.
Context {FY : Flavour} {FSY : FlavourSpec FY}.
Implicit Types (x : proc FX) (y : proc FY).

(** What the connection does with what is posted is what it does with what is seen. *)
Lemma exec_seen y wr st a b r :
  well_formed y →
  fab_exec (with_id st wr) (head (recvq (qp_ (pr_obj y)) (pr_nic y))) a b = Some r →
  ∃ r0, fab_exec wr (posted_recv (seen y)) a b = Some r0 ∧
    r = (wc_with_id st r0.1.1.1, r0.1.1.2, r0.1.2, r0.2) ∧
    (head (recvq (qp_ (pr_obj y)) (pr_nic y)) = None → r0.1.1.2 = None).
Proof using FO.
  intros Hy Hx. destruct (receive_posted y Hy)
    as [Hnone|(sty & v & k & _ & _ & Hrq & _ & _ & Hpr)].
  - rewrite Hnone in Hx |- *.
    change None with (recv_with_id 0 <$> @None ibv_recv_wr) in Hx. rewrite fab_exec_ids in Hx.
    apply fmap_Some in Hx as (x0 & Hx & ->).
    destruct (needs_recv (swr_opcode wr)) eqn:Hn; [by rewrite fab_exec_needs_recv in Hx|].
    destruct (fab_exec_one_sided wr (posted_recv (seen y)) a b Hn) as [Heq Hnr].
    exists x0. rewrite Heq. split_and!; [done|done|]. intros _. by apply Hnr.
  - rewrite Hrq in Hx |- *. simpl in Hx. rewrite expected_recv_wr_id in Hx.
    change (Some (recv_with_id sty (expected_recv_wr v 0)))
      with (recv_with_id sty <$> Some (expected_recv_wr v 0)) in Hx.
    rewrite fab_exec_ids in Hx. apply fmap_Some in Hx as (x0 & Hx & ->).
    exists x0. by rewrite Hpr.
Qed.

Lemma comm_seen x y p :
  well_formed x → well_formed y → proc_comm x y = Some p →
  well_formed p.1 ∧ well_formed p.2 ∧ comm_step (seen x) (seen y) = Some (seen_pair p).
Proof using AL FO AX.
  intros Hx Hy Hs. unfold proc_comm in Hs.
  destruct (head (sendq _ _)) as [wr|] eqn:Hh; [|done]. simpl in Hs.
  destruct (request_posted x wr Hx Hh)
    as (st & op & v & k & Hc & Hw & -> & Hpend & Hsq & Hrq & Hcs).
  rewrite expected_wr_id in Hs.
  destruct (fab_exec _ _ _ _) as [[[[wc rcv] nx] ny]|] eqn:He; [|done]. simpl in Hs.
  apply (exec_seen y) in He as ([[[wc0 rcv0] nx0] ny0] & He & Heq & Hrcv); [|done].
  simpl in Heq, Hrcv. simplify_eq.
  pose proof (fab_accepted _ _ _ _ _ _ _ _ He) as Hacc.
  destruct (sender_seen x st op v k wc0 nx0 Hx Hc Hw Hacc Hsq Hrq Hcs) as [Hwx Hsx].
  assert (comm_step (seen x) (seen y) = Some
    (Side (k_code (pr_task x)) (Some (send_answer op v wc0)) nx0 (k_out (pr_task x)),
     Side (s_code (seen y)) (match rcv0 with Some (n, imm) => Some (AnsRecv n imm)
       | None => s_pending (seen y) end) ny0 (s_out (seen y)))) as Hcomm.
  { unfold comm_step. change (s_pending (seen x)) with (pending x).
    change (s_code (seen x)) with (k_code (pr_task x)). rewrite Hpend, Hc.
    change (s_node (seen x)) with (k_node (pr_task x)).
    change (s_node (seen y)) with (k_node (pr_task y)). by rewrite He. }
  rewrite Hcomm. destruct rcv0 as [[n imm]|].
  - destruct (receive_posted y Hy) as [Hnone|Hposted]; [by specialize (Hrcv Hnone)|].
    destruct Hposted as (sty & vy & ky & Hcy & Hwy & Hrqy & Hsqy & Hcsy & _).
    rewrite Hrqy in Hs. simpl in Hs. injection Hs as <-.
    destruct (receiver_seen y sty vy ky n imm ny0 Hy Hcy Hwy Hrqy Hsqy Hcsy) as [Hwy' Hsy].
    split_and!; [done|done|]. unfold seen_pair. cbn [fst snd]. by rewrite Hsx, Hsy.
  - injection Hs as <-. destruct (hw_memory ny0 y Hy) as [Hwy Hsy].
    split_and!; [done|done|]. unfold seen_pair. cbn [fst snd]. by rewrite Hsx, Hsy.
Qed.

Lemma comm_goes_on x y r :
  well_formed x → well_formed y → comm_step (seen x) (seen y) = Some r →
  (∃ x', proc_step x x') ∨ (∃ y', proc_step y y') ∨ ∃ p, proc_comm x y = Some p.
Proof using AL FO.
  intros Hx Hy Hs. unfold comm_step in Hs.
  change (s_pending (seen x)) with (pending x) in Hs.
  change (s_code (seen x)) with (k_code (pr_task x)) in Hs.
  destruct (pending x) eqn:Hp; [done|].
  destruct (k_code (pr_task x)) as [|o|[| | | | | |op v|] k] eqn:Hc; try done.
  change (s_node (seen x)) with (k_node (pr_task x)) in Hs.
  change (s_node (seen y)) with (k_node (pr_task y)) in Hs.
  destruct (fab_exec _ _ _ _) as [[[[wc rcv] nx] ny]|] eqn:He; [|done]. clear Hs.
  destruct (begin_goes_on x _ k Hx Hc eq_refl Hp) as [?|(st & _ & Hsq & _)]; [by left|right].
  simpl in Hsq. unfold proc_comm. rewrite Hsq. cbn [head]. rewrite expected_wr_id.
  unfold mbind, option_bind. cbv beta iota zeta.
  destruct (receive_posted y Hy) as [Hnone|(sty & w & k' & _ & _ & Hrq & _ & _ & Hpr)].
  - destruct (needs_recv (swr_opcode (expected_wr op v 0))) eqn:Hn.
    + destruct (posted_recv (seen y)) as [rw|] eqn:Hpr; [|by rewrite fab_exec_needs_recv in He].
      unfold posted_recv in Hpr. change (s_pending (seen y)) with (pending y) in Hpr.
      change (s_code (seen y)) with (k_code (pr_task y)) in Hpr.
      destruct (pending y) eqn:Hpy; [done|].
      destruct (k_code (pr_task y)) as [|o|[| | | | | | |w] k'] eqn:Hcy; try done.
      destruct (begin_goes_on y _ k' Hy Hcy eq_refl Hpy) as [?|(sty & _ & _ & Hrq)]; [by left|].
      simpl in Hrq. by rewrite Hrq in Hnone.
    + right. destruct (fab_exec_one_sided _ (posted_recv (seen y)) (k_node (pr_task x))
        (k_node (pr_task y)) Hn) as [Heq Hnr]. rewrite Heq in He. specialize (Hnr _ He).
      simpl in Hnr. subst rcv. rewrite Hnone.
      change (@None ibv_recv_wr) with (recv_with_id 0 <$> @None ibv_recv_wr).
      rewrite fab_exec_ids, He. by eexists.
  - right. rewrite Hpr in He. rewrite Hrq, expected_recv_wr_id. cbn [head].
    change (Some (recv_with_id sty (expected_recv_wr w 0)))
      with (recv_with_id sty <$> Some (expected_recv_wr w 0)).
    rewrite fab_exec_ids, He. simpl. destruct rcv as [[]|]; by eexists.
Qed.
End comm.

(** *** The simulation *)

Context {FX : Flavour} {FSX : FlavourSpec FX} {AX : Accepted FX F}.
Context {FY : Flavour} {FSY : FlavourSpec FY} {AY : Accepted FY F}.

Definition both_well_formed (p : proc FX * proc FY) : Prop :=
  well_formed p.1 ∧ well_formed p.2.
Definition pair_to_go (p : proc FX * proc FY) : nat := to_go p.1 + to_go p.2.

Lemma pair_simulated (p q : proc FX * proc FY) :
  both_well_formed p → rt_step p q →
  both_well_formed q ∧
  (pair_step (seen_pair p) (seen_pair q) ∨ seen_pair q = seen_pair p ∧ pair_to_go q < pair_to_go p).
Proof using AL FO AX AY.
  destruct p as [x y]. intros [Hx Hy] [x' Hs ->|y' Hs ->|Hs|r Hs ->]; cbn [fst snd] in *.
  - destruct (proc_simulated x x' Hx Hs) as [Hx' Hcase]. split; [done|].
    unfold seen_pair, pair_to_go. cbn [fst snd]. rewrite pair_step_iff.
    destruct Hcase as [H|[H|[-> H]]]; [left; eauto|left; eauto 6|right; split; [done|lia]].
  - destruct (proc_simulated y y' Hy Hs) as [Hy' Hcase]. split; [done|].
    unfold seen_pair, pair_to_go. cbn [fst snd]. rewrite pair_step_iff.
    destruct Hcase as [H|[H|[-> H]]]; [left; eauto|left; eauto 8|right; split; [done|lia]].
  - destruct (comm_seen x y q Hx Hy Hs) as (H1 & H2 & Hc). split; [done|]. left.
    unfold seen_pair at 1. rewrite pair_step_iff. cbn [fst snd]. eauto 8.
  - destruct (comm_seen y x r Hy Hx Hs) as (H1 & H2 & Hc). split; [done|]. left.
    unfold seen_pair at 1. rewrite pair_step_iff. cbn [fst snd]. do 5 right. by eexists.
Qed.

Lemma pair_invariant (p q : proc FX * proc FY) :
  both_well_formed p → rtc rt_step p q → both_well_formed q.
Proof using AL FO AX AY.
  intros Hp Hr. induction Hr as [|p1 p2 q Hs Hr IH]; [done|].
  by apply IH, (pair_simulated p1 p2 Hp Hs).
Qed.

Lemma pair_goes_on (p : proc FX * proc FY) :
  both_well_formed p → (∃ q, pair_step (seen_pair p) q) → ∃ q, rt_step p q.
Proof using AL FO AX AY.
  destruct p as [x y]. intros [Hx Hy] [q Hs]. cbn [fst snd] in *.
  assert ((∃ x', proc_step x x') → ∃ q, rt_step (x, y) q) as HL.
  { intros [x' Hs']. eexists. by eapply rt_left. }
  assert ((∃ y', proc_step y y') → ∃ q, rt_step (x, y) q) as HR.
  { intros [y' Hs']. eexists. by eapply rt_right. }
  assert (∀ z s, wake_step z = Some s → ∃ a, s_pending z = Some a) as Hwake.
  { intros z s. unfold wake_step. destruct (s_pending z); [eauto|done]. }
  unfold seen_pair in Hs. rewrite pair_step_iff in Hs. cbn [fst snd] in Hs.
  destruct Hs as [(s & Hs & _)|[(s & Hs & _)|[(s & Hs & _)|[(s & Hs & _)|[Hs|(s & Hs & _)]]]]].
  - by eapply HL, local_goes_on.
  - by eapply HR, local_goes_on.
  - destruct (Hwake _ _ Hs). by eapply HL, wake_goes_on.
  - destruct (Hwake _ _ Hs). by eapply HR, wake_goes_on.
  - destruct (comm_goes_on x y q Hx Hy Hs) as [?|[?|[p Hp]]]; [auto..|].
    eexists. by apply rt_comm.
  - destruct (comm_goes_on y x s Hy Hx Hs) as [?|[?|[p Hp]]]; [auto..|].
    eexists. by eapply rt_comm_back.
Qed.
End pairs.

(** ** The theorem *)

(** The process that starts a coroutine on a connected queue pair, with the pollers its
    completion queues were given, before anything was posted. *)
Record starts {V : Verbs} {B : Build} {A : Adapter V} {FL : Flavour} {FS : FlavourSpec FL}
    (c : coro unit) (x : proc FL) : Prop := {
  st_task : pr_task x = Task c node0 [];
  st_idle : idle (pr_exec x);
  st_empty : empty_queues x;
  st_completions : nothing_done x;
  st_fixed : fixed x }.

(** No execution goes on for ever, and where one stops, [Q] holds of what is seen. *)
Definition library_terminates_in {V : Verbs} {B : Build} {A : Adapter V} {F : Fabric}
    {FX FY : Flavour} (Q : side * side → Prop) (p : proc FX * proc FY) : Prop :=
  Acc (flip rt_step) p ∧ ∀ q, rtc rt_step p q → (∀ r, ¬ rt_step q r) → Q (seen_pair q).

Lemma starts_well_formed {V : Verbs} {B : Build} {A : Adapter V} {FL : Flavour}
    {FS : FlavourSpec FL} c (x : proc FL) :
  starts c x → guarded (pr_obj x) c → well_formed x ∧ seen x = side_init c.
Proof.
  intros [Ht Hi Hq Hcs Hf] Hg. split.
  - split; [done| |by rewrite Ht]. by apply in_code.
  - unfold seen. by rewrite (pending_in_code x Hi), Ht.
Qed.

(** Two started processes are seen as the pair of their coroutines. *)
Lemma started_pair {V : Verbs} {B : Build} {A : Adapter V}
    {FX : Flavour} {FSX : FlavourSpec FX} {FY : Flavour} {FSY : FlavourSpec FY}
    c d (x : proc FX) (y : proc FY) :
  starts c x → starts d y → guarded (pr_obj x) c → guarded (pr_obj y) d →
  both_well_formed (x, y) ∧ seen_pair (x, y) = (side_init c, side_init d).
Proof.
  intros Hx Hy Hgx Hgy.
  destruct (starts_well_formed c x Hx Hgx) as [Hwx Hsx].
  destruct (starts_well_formed d y Hy Hgy) as [Hwy Hsy].
  split; [done|]. unfold seen_pair. cbn [fst snd]. by rewrite Hsx, Hsy.
Qed.

Lemma pair_terminates {V : Verbs} {B : Build} {A : Adapter V} {AL : AdapterLaws V} {F : Fabric}
    {FO : Orderly F} {FX : Flavour} {FSX : FlavourSpec FX} {AX : Accepted FX F}
    {FY : Flavour} {FSY : FlavourSpec FY} {AY : Accepted FY F} Q (p : proc FX * proc FY) :
  both_well_formed p → terminates_in Q (seen_pair p) → library_terminates_in Q p.
Proof.
  intros Hp [Hacc HQ]. split.
  - by apply (simulation_acc rt_step pair_step both_well_formed seen_pair pair_to_go
      pair_simulated).
  - intros q Hr Hstuck.
    by apply (simulation_final rt_step pair_step both_well_formed seen_pair pair_to_go
      pair_simulated pair_goes_on Q p).
Qed.

(** C5: the library refines the meaning of the events.  Let two coroutines, whose operations
    pass the library's asserts, be started on the two ends of a connection, each queue pair
    with its two completion queues and their pollers, each process on either flavour of
    awaitables (with asio on a connection whose completions succeed).  Then every execution
    of the library, under every schedule of the coroutines, the pollers, the adapters and the
    connection, is seen in the code, memory and output of both as an execution in which the
    connection answers the events itself; it stops only where that one stops, so that a
    coroutine the library leaves suspended is one the connection has no answer for; and from
    any state it goes on for ever only if that one can. *)
Theorem library_runs (V : Verbs) (B : Build) (A : Adapter V) (AL : AdapterLaws V) (F : Fabric)
    (FO : Orderly F) (FX FY : Flavour) (FSX : FlavourSpec FX) (FSY : FlavourSpec FY)
    (AX : Accepted FX F) (AY : Accepted FY F)
    (c d : coro unit) (x : proc FX) (y : proc FY) (q : proc FX * proc FY) :
  starts c x → starts d y → guarded (pr_obj x) c → guarded (pr_obj y) d →
  rtc rt_step (x, y) q →
  rtc pair_step (side_init c, side_init d) (seen_pair q) ∧
  ((∀ r, ¬ rt_step q r) → ∀ p, ¬ pair_step (seen_pair q) p) ∧
  (Acc (flip pair_step) (seen_pair q) → Acc (flip rt_step) q).
Proof.
  intros Hx Hy Hgx Hgy Hr. destruct (started_pair c d x y Hx Hy Hgx Hgy) as [Hwf Hseen].
  destruct (simulation_rtc rt_step pair_step both_well_formed seen_pair pair_to_go
    pair_simulated _ _ Hwf Hr) as [Hq Hrun].
  split; [by rewrite <- Hseen|]. split.
  - intros Hstuck p Hp. destruct (pair_goes_on q Hq (ex_intro _ p Hp)) as [r Hs].
    by apply (Hstuck r).
  - by apply (simulation_acc rt_step pair_step both_well_formed seen_pair pair_to_go
      pair_simulated).
Qed.

(** ** Witness

    One message, from the reference adapter's queue pair to another: the sender awaits
    natively, the receiver through asio. *)

Definition wit_recv_cq : cq := Cq wit_device (Some (IbvCq 3)).
Definition wit_send_cq : cq := Cq wit_device (Some (IbvCq 4)).
Definition wit_conn (recv : cq) : basic_qp :=
  created (IbvQp 1 101) 1 (new_qp wit_qpd recv wit_send_cq None default_qp_config).

Definition wit_op_env (recv : cq) : op_env (V:=queue_verbs) :=
  OpEnv (V:=queue_verbs) {[7%Z := wit_conn recv]}
    (World (V:=queue_verbs) (QueueNic rnic0 [] [] ∅) [] 1).

Section witnesses.
Context {B : Build}.

Definition wit_native (recv : cq) (c : coro unit) : proc (NativeFlavour (V:=queue_verbs)) :=
  Proc (FL:=NativeFlavour (V:=queue_verbs)) 7 (wit_conn recv)
    (native_start (V:=queue_verbs) c (wit_op_env recv))
    (replicate 16 zero_wc) (replicate 16 zero_wc).
Definition wit_asio (recv : cq) (c : coro unit) : proc (AsioFlavour (V:=queue_verbs)) :=
  Proc (FL:=AsioFlavour (V:=queue_verbs)) 7 (wit_conn recv)
    (asio_start (V:=queue_verbs) c (wit_op_env recv))
    (replicate 16 zero_wc) (replicate 16 zero_wc).

Lemma wit_fixed {FL : Flavour (V:=queue_verbs)} recv s :
  exec_env s = wit_op_env recv →
  fixed (Proc (FL:=FL) 7 (wit_conn recv) s (replicate 16 zero_wc) (replicate 16 zero_wc)).
Proof.
  intros He. split; try done; [unfold pr_env; simpl; by rewrite He|].
  by exists (IbvQp 1 101), 1%Z, (new_qp wit_qpd recv wit_send_cq None default_qp_config).
Qed.

Lemma wit_native_starts recv c : starts (V:=queue_verbs) c (wit_native recv c).
Proof. split; try done. by apply wit_fixed. Qed.
Lemma wit_asio_starts recv c : starts (V:=queue_verbs) c (wit_asio recv c).
Proof. split; try done. by apply wit_fixed. Qed.
End witnesses.

Definition wit_sender : coro unit :=
  buffer ← buffer_of (text_bytes "hello"); await_op_span (B:=wit_debug) OpSend buffer ;; mret tt.
Definition wit_receiver : coro unit :=
  buffer ← buffer_of (replicate 5 Byte.x00);
  '(n, _) ← await_recv_span buffer; print_buffer "received" [n] buffer.

Lemma wit_atomics recv : atomics_supported (wit_conn recv).
Proof. split; reflexivity. Qed.
Lemma wit_sender_guarded recv : guarded (B:=wit_debug) (wit_conn recv) wit_sender.
Proof. pose proof (wit_atomics recv). unfold wit_sender, buffer_of, ask_Z. walk. Qed.
Lemma wit_receiver_guarded recv : guarded (B:=wit_debug) (wit_conn recv) wit_receiver.
Proof.
  pose proof (wit_atomics recv).
  unfold wit_receiver, buffer_of, ask_Z, await_recv_span, print_buffer, perform. walk.
Qed.

Definition wit_received (p : side * side) : Prop :=
  finished p.1 ∧ finished p.2 ∧ s_out p.2 = [("received", 5%Z :: data_of (text_bytes "hello"))].

Definition wit_end (x y : side) : bool :=
  side_done x && side_done y &&
  bool_decide (s_out y = [("received", 5%Z :: data_of (text_bytes "hello"))]).

Lemma wit_explored :
  explore (H:=wit_host) 50
    (λ p, let x := at_place p.1 in let y := at_place p.2 in
          side_idle x && side_idle y && wit_end x y) wit_sender wit_receiver = true.
Proof. vm_compute. reflexivity. Qed.

Lemma wit_message : terminates_in (V:=queue_verbs) (F:=wit_fabric) wit_received
  (side_init wit_sender, side_init wit_receiver).
Proof.
  apply (terminates_impl (V:=queue_verbs) _ _ _
    (explore_terminates (V:=queue_verbs) (F:=wit_fabric) (L:=rc_fabric_laws (H:=wit_host))
       _ _ _ _ wit_explored)).
  intros q (_ & _ & [[Hx Hy]%andb_true_iff Hc%bool_decide_eq_true]%andb_true_iff).
  by repeat split; try apply Hc; apply side_done_finished.
Qed.

(** The connector has one completion queue, the acceptor two.  No execution of the two is
    infinite, and where one stops the message has been received. *)
Lemma library_runs_witness :
  library_terminates_in (V:=queue_verbs) (B:=wit_debug) (F:=wit_fabric) wit_received
    (wit_native wit_send_cq wit_sender, wit_asio wit_recv_cq wit_receiver).
Proof.
  pose proof (library_runs queue_verbs wit_debug queue_adapter queue_adapter_laws wit_fabric
    (rc_orderly (H:=wit_host)) _ _ _ _ _ (rc_accepted (H:=wit_host) _)
    wit_sender wit_receiver (wit_native wit_send_cq wit_sender)
    (wit_asio wit_recv_cq wit_receiver)) as Hruns.
  pose proof (λ q, Hruns q (wit_native_starts _ wit_sender) (wit_asio_starts _ wit_receiver)
    (wit_sender_guarded _) (wit_receiver_guarded _)) as Hlib.
  destruct wit_message as [Hacc Hend]. split.
  - destruct (Hlib _ (rtc_refl _ _)) as (_ & _ & Hfin). by apply Hfin.
  - intros q Hr Hstuck. destruct (Hlib q Hr) as (Hrun & Hstop & _). apply Hend; [done|].
    by apply Hstop.
Defined.
