(* ===== verification/OnLibrary.v ===== *)
(** * The examples on the library (examples/*.cc over qp.cc, executor.cc, cq_poller.cc)

    The coroutines of the examples pass the library's asserts, so that the simulation of
    [Runtime] applies to them: what they do when events are answered by the connection, they
    do when the library runs them.  latency_raw.cc and send_bw_raw.cc use the native
    awaitables, the other examples the conversions to asio. *)

From S2P Require Import Prelude Verbs RefNic Errors Serdes Device Resources Mr Qp Operations.
From S2P Require Import Executor Coro Lockstep Awaitables Adapter Guarded Flavour NativeFlavour.
From S2P Require Import AsioFlavour Runtime Latency LatencyRaw.
From S2P Require SendBw SendWorker HelloWorld RpcExample WriteBw Cancellation.
From stdpp Require Import options.

Section examples.
Context {H : Host} {B : Build} (t : basic_qp) (n : nat).

Lemma client_worker_guarded : atomics_supported t → guarded t (LatencyRaw.client_worker n).
Proof. intros Ht. unfold LatencyRaw.client_worker, await_recv_view, slice. walk. Qed.

Lemma qp_handler_guarded : atomics_supported t → guarded t (qp_handler n).
Proof. intros Ht. unfold qp_handler, report, report_batch. walk. Qed.

Lemma show_guarded ls : guarded t (SendWorker.show ls).
Proof. induction ls as [|l ls IH]; [exact I|]. apply guarded_bind; [walk|intros ?; exact IH]. Qed.
#[local] Hint Resolve show_guarded : guarded.

Lemma send_worker_guarded kBatchSize idx :
  atomics_supported t → guarded t (SendWorker.send_worker n kBatchSize idx).
Proof. intros Ht. unfold SendWorker.send_worker, ask_Z. walk. Qed.

Lemma send_server_guarded idx : guarded t (SendWorker.server n idx).
Proof.
  unfold SendWorker.server, SendWorker.server_ctor, zero_buffer, SendWorker.worker_round, slice, ask_Z.
  walk.
Qed.

(** The asio examples. *)
Lemma hello_server_guarded : atomics_supported t → guarded t HelloWorld.handle_qp.
Proof.
  intros Ht. unfold HelloWorld.handle_qp, HelloWorld.print_mr. walk.
Qed.
Lemma hello_client_guarded : atomics_supported t → guarded t HelloWorld.client.
Proof.
  intros Ht. unfold HelloWorld.client, HelloWorld.print_remote. walk.
Qed.
Lemma rpc_server_guarded {Q} (qp : option Q) :
  atomics_supported t → guarded t (RpcExample.handle_qp qp).
Proof. intros Ht. unfold RpcExample.handle_qp, RpcExample.call_registered. walk. Qed.
Lemma rpc_client_guarded : atomics_supported t → guarded t RpcExample.client.
Proof. intros Ht. unfold RpcExample.client. walk. Qed.
Lemma latency_client_guarded : atomics_supported t → guarded t (Latency.client_worker n).
Proof. intros Ht. unfold Latency.client_worker, await_recv_view, slice. walk. Qed.
Lemma latency_server_guarded : atomics_supported t → guarded t (Latency.handler n).
Proof. intros Ht. unfold Latency.handler, Latency.report. walk. Qed.
Lemma write_client_guarded id : atomics_supported t → guarded t (WriteBw.client_worker n id).
Proof. intros Ht. unfold WriteBw.client_worker. walk. Qed.
Lemma write_server_guarded : atomics_supported t → guarded t WriteBw.handler.
Proof. intros Ht. unfold WriteBw.handler. walk. Qed.
Lemma cancel_client_guarded : atomics_supported t → guarded t Cancellation.client.
Proof. intros Ht. unfold Cancellation.client. walk. Qed.
Lemma cancel_server_guarded : guarded t Cancellation.server.
Proof. unfold Cancellation.server, Cancellation.serve, Cancellation.handle_qp. walk. Qed.
End examples.

(** Where the benchmarks end: both coroutines finished, nothing registered, the bytes sent in
    the server's memory, and these outputs of the client and of the server. *)
Definition latency_raw_done (kSendCount : nat) (q : side * side) : Prop :=
  finished q.1 ∧ finished q.2 ∧
  n_regions (s_node q.1) = ∅ ∧ n_regions (s_node q.2) = ∅ ∧
  (0 < kSendCount → heap_read block 4096 (s_node q.2) = Some filled) ∧
  s_out q.1 = [("client: remote buffer recv, size={}", [4096%Z])] ∧
  s_out q.2 = ("server: local buffer sent", []) ::
    outs kSendCount 0 (batch_lines "[write_with_imm/recv]") ++
    report_lines kSendCount "[write_with_imm/recv]" ++
    outs kSendCount 0 (batch_lines "[send/recv]") ++
    report_lines kSendCount "[send/recv]".

Definition send_bw_done (kSendCount : nat) (kBatchSize idx i : Z) (q : side * side) : Prop :=
  finished q.1 ∧ finished q.2 ∧
  n_regions (s_node q.1) = ∅ ∧ n_regions (s_node q.2) = ∅ ∧
  (0 < kSendCount →
   heap_read (block + idx * SendBw.kMsgSize) SendBw.kMsgSize (s_node q.2) =
     Some SendWorker.message) ∧
  s_out q.1 = ("send_worker {} spawn", [i]) ::
    outs kSendCount 0 (SendWorker.batch_lines kBatchSize i) ++
    SendWorker.total_lines kSendCount i ∧
  s_out q.2 = ("server: initialized with {} concurrent workers", [32%Z]) ::
    ("server_worker {} spawn", [idx]) :: replicate kSendCount SendWorker.counted_line.

(** Where the asio examples end ([HelloWorld.hello_done] for that one). *)
Definition rpc_done (q : side * side) : Prop :=
  finished q.1 ∧ finished q.2 ∧ tail (s_out q.1) = RpcExample.server_talk ∧
  n_regions (s_node q.1) = ∅ ∧ n_regions (s_node q.2) = ∅.
Definition latency_done (kSendCount : nat) (q : side * side) : Prop :=
  finished q.1 ∧ finished q.2 ∧
  n_regions (s_node q.1) = ∅ ∧ n_regions (s_node q.2) = ∅ ∧
  (0 < kSendCount → heap_read block 4096 (s_node q.2) = Some filled) ∧
  s_out q.1 = [("client: remote buffer recv", [])] ∧
  s_out q.2 = ("server: local buffer sent", []) ::
    Latency.report_lines kSendCount "[write_with_imm/recv]" ++
    Latency.report_lines kSendCount "[send/recv]".
Definition write_bw_done (kSendCount : nat) (id : Z) (q : side * side) : Prop :=
  finished q.1 ∧ finished q.2 ∧
  n_regions (s_node q.1) = ∅ ∧ n_regions (s_node q.2) = ∅ ∧
  s_out q.1 = WriteBw.remote_line :: replicate kSendCount (WriteBw.counted id).

(** What started processes do under the events' meaning, they do on the library. *)
Ltac run_on_library Hx Hy Hgx Hgy :=
  let Hwf := fresh in let Hseen := fresh in
  destruct (started_pair _ _ _ _ Hx Hy Hgx Hgy) as [Hwf Hseen];
  apply pair_terminates; [exact Hwf|]; rewrite Hseen.

Section on_library.
Context (H : Host) (B : Build) (V : Verbs) (A : Adapter V) (AL : AdapterLaws V) (F : Fabric)
  (L : FabricLaws F) (FO : Orderly F).

(** ** On the native awaitables *)

(** C8: the latency benchmark on native awaitables, run by the library: on any adapter and
    connection that do what is documented, for any number of messages, every execution of
    the two coroutines with their pollers terminates, with both finished, both regions
    deregistered, the server's buffer holding the client's bytes, and this output. *)
Theorem latency_raw_on_library (kSendCount : nat) (x y : proc NativeFlavour) :
  starts (LatencyRaw.client_worker kSendCount) x → starts (qp_handler kSendCount) y →
  atomics_supported (pr_obj x) → atomics_supported (pr_obj y) →
  library_terminates_in (latency_raw_done kSendCount) (x, y).
Proof using AL L FO.
  intros Hx Hy Hax Hay.
  run_on_library Hx Hy (client_worker_guarded _ kSendCount Hax) (qp_handler_guarded _ kSendCount Hay).
  by apply latency_raw_runs.
Qed.

(** The same of the send benchmark, for one sender and one worker of the server: whatever
    the schedule, all messages arrive in the worker's slice of the pool. *)
Theorem send_bw_on_library (kSendCount : nat) (kBatchSize idx i : Z) (x y : proc NativeFlavour) :
  (0 ≤ idx < Z.of_nat SendBw.kRecvDepth)%Z →
  starts (SendWorker.send_worker kSendCount kBatchSize i) x →
  starts (SendWorker.server kSendCount idx) y → atomics_supported (pr_obj x) →
  library_terminates_in (send_bw_done kSendCount kBatchSize idx i) (x, y).
Proof using AL L FO.
  intros Hidx Hx Hy Hax.
  run_on_library Hx Hy (send_worker_guarded _ kSendCount kBatchSize i Hax)
    (send_server_guarded (pr_obj y) kSendCount idx).
  by apply (SendWorker.send_worker_runs H).
Qed.

(** ** Through asio, on a connection whose completions succeed *)

Context (AX : Accepted AsioFlavour F).

(** The hello-world example through asio: on any adapter and reliable connection, on hosts of
    either byte order and in either build, every execution of the two coroutines with their
    callbacks and pollers terminates as it does under the events' meaning
    ([HelloWorld.helloworld_runs]). *)
Theorem helloworld_on_library (x y : proc AsioFlavour) :
  starts HelloWorld.handle_qp x → starts HelloWorld.client y →
  atomics_supported (pr_obj x) → atomics_supported (pr_obj y) →
  library_terminates_in HelloWorld.hello_done (x, y).
Proof using AL L FO AX.
  intros Hx Hy Hax Hay.
  run_on_library Hx Hy (hello_server_guarded _ Hax) (hello_client_guarded _ Hay).
  by apply HelloWorld.helloworld_runs.
Qed.

(** C7: the RPC example through asio: on any adapter and reliable connection every execution of
    the two coroutines terminates, with both finished, the server having called each of the
    20 registered functions once, in the order of their numbers, and every region
    deregistered. *)
Theorem rpc_on_library {Q} (qp : Q) (x y : proc AsioFlavour) :
  starts (RpcExample.handle_qp (Some qp)) x → starts RpcExample.client y →
  atomics_supported (pr_obj x) → atomics_supported (pr_obj y) →
  library_terminates_in rpc_done (x, y).
Proof using AL L FO AX.
  intros Hx Hy Hax Hay.
  run_on_library Hx Hy (rpc_server_guarded _ (Some qp) Hax) (rpc_client_guarded _ Hay).
  by apply RpcExample.rpc_example_runs.
Qed.

(** C16: the latency benchmark through asio: for any number of messages every execution
    terminates with both coroutines finished, every region deregistered, the bytes of the
    client in the server's buffer, and this output. *)
Theorem latency_on_library (kSendCount : nat) (x y : proc AsioFlavour) :
  starts (Latency.client_worker kSendCount) x → starts (Latency.handler kSendCount) y →
  atomics_supported (pr_obj x) → atomics_supported (pr_obj y) →
  library_terminates_in (latency_done kSendCount) (x, y).
Proof using AL L FO AX.
  intros Hx Hy Hax Hay.
  run_on_library Hx Hy (latency_client_guarded _ kSendCount Hax)
    (latency_server_guarded _ kSendCount Hay).
  by apply latency_runs.
Qed.

(** C17: the write benchmark through asio: for any number of writes every execution terminates
    with both coroutines finished, without an exception, every region deregistered, and one
    count for each write. *)
Theorem write_bw_on_library (kSendCount : nat) (id : Z) (x y : proc AsioFlavour) :
  starts (WriteBw.client_worker kSendCount id) x → starts WriteBw.handler y →
  atomics_supported (pr_obj x) → atomics_supported (pr_obj y) →
  library_terminates_in (write_bw_done kSendCount id) (x, y).
Proof using AL L FO AX.
  intros Hx Hy Hax Hay.
  run_on_library Hx Hy (write_client_guarded _ kSendCount id Hax) (write_server_guarded _ Hay).
  by apply WriteBw.write_bw_runs.
Qed.

(** *** The cancellation example *)

(** The signal reaches the server while its coroutine is suspended. *)
Definition cancelled (x : proc AsioFlavour) : proc AsioFlavour :=
  with_exec (asio_cancel (pr_exec x)).2 x.

(** A process that waits in a receive is answered as [Cancellation.cancel] says. *)
Lemma cancelled_seen (x : proc AsioFlavour) v k st :
  k_code (pr_task x) = Await (AwaitRecv v) k → pending x = None →
  waiting (AwaitRecv v) st (pr_exec x) → seen (cancelled x) = Cancellation.cancel (seen x).
Proof using Type.
  intros Hc Hp Hw. destruct (asio_cancel_run v st _ Hw) as (s' & Hrun & Ha & Haw & Ht & _).
  unfold cancelled. rewrite Hrun. cbn [snd].
  unfold Cancellation.cancel, side_receiving, seen. cbn [s_code s_pending s_node s_out].
  rewrite Hp, Hc. change (pr_task (with_exec (FL:=AsioFlavour) s' x)) with (ae_task s'). rewrite Ht.
  change (ae_task (pr_exec x)) with (pr_task x). rewrite Hc. f_equal.
  unfold pending. cbn [pr_exec with_exec suspended answered AsioFlavour].
  by rewrite Haw, Ha.
Qed.

(** The client has been heard, and the server waits in the receive nothing completes; once
    the signal has ended that receive, the rest of its coroutine runs to the end. *)
Definition cancellation_done (q : proc AsioFlavour * proc AsioFlavour) : Prop :=
  finished (seen q.2) ∧ side_receiving (seen q.1) = true ∧
  s_out (seen q.1) = Cancellation.server_talk ∧
  finished (solo 100 (seen (cancelled q.1))) ∧
  s_out (solo 100 (seen (cancelled q.1))) =
    Cancellation.server_talk ++ [("handle_qp: error: msg={}", [])].

(** C34: the cancellation example through asio: every execution comes to the state in which the
    client is done and the server waits in its second receive, which nothing completes; the
    signal, emitted through the cancellation slot, ends that receive with
    [operation_aborted], and the server's [catch] ends it without the line that should not
    be reached. *)
Theorem cancellation_on_library (x y : proc AsioFlavour) :
  starts Cancellation.server x → starts Cancellation.client y →
  atomics_supported (pr_obj y) →
  Acc (flip rt_step) (x, y) ∧
  ∀ q, rtc rt_step (x, y) q → (∀ r, ¬ rt_step q r) → cancellation_done q.
Proof using AL L FO AX.
  intros Hx Hy Hay.
  destruct (started_pair _ _ _ _ Hx Hy (cancel_server_guarded _) (cancel_client_guarded _ Hay))
    as [Hwf Hseen].
  pose proof (Cancellation.cancellation_runs H B V F L) as Hruns. rewrite <- Hseen in Hruns.
  destruct (pair_terminates _ _ Hwf Hruns) as [Hacc HQ]. split; [done|].
  intros q Hr Hstuck. destruct (HQ q Hr Hstuck) as (Hrecv & Hfin & Hout & Hcf & Hco).
  cbn [seen_pair fst snd] in *.
  assert (seen (cancelled q.1) = Cancellation.cancel (seen q.1)) as Hcancel.
  { pose proof Hrecv as Hrecv'. unfold side_receiving in Hrecv'.
    change (s_pending (seen q.1)) with (pending q.1) in Hrecv'.
    change (s_code (seen q.1)) with (k_code (pr_task q.1)) in Hrecv'.
    destruct (k_code (pr_task q.1)) as [|o|[| | | | | | |v] k] eqn:Hc; try done.
    destruct (pending q.1) eqn:Hp; [done|].
    destruct (begin_goes_on q.1 _ k (proj1 (pair_invariant _ _ Hwf Hr)) Hc eq_refl Hp)
      as [(x' & Hs)|(st & Hw & _)]; [|by eapply cancelled_seen].
    destruct (Hstuck (x', q.2)). by eapply rt_left. }
  unfold cancellation_done. by rewrite Hcancel.
Qed.
End on_library.

(** ** Witnesses *)

Lemma latency_raw_on_library_witness :
  ∃ x y : proc (V:=queue_verbs) (B:=wit_debug) NativeFlavour,
    library_terminates_in (V:=queue_verbs) (B:=wit_debug) (F:=wit_fabric)
      (latency_raw_done 1000) (x, y).
Proof.
  do 2 eexists.
  exact (latency_raw_on_library wit_host wit_debug queue_verbs queue_adapter queue_adapter_laws
    wit_fabric (rc_fabric_laws (H:=wit_host)) (rc_orderly (H:=wit_host)) 1000 _ _
    (wit_native_starts wit_send_cq _) (wit_native_starts wit_recv_cq _)
    (wit_atomics _) (wit_atomics _)).
Defined.

Lemma send_bw_on_library_witness :
  ∃ x y : proc (V:=queue_verbs) (B:=wit_debug) NativeFlavour,
    library_terminates_in (V:=queue_verbs) (B:=wit_debug) (F:=wit_fabric)
      (send_bw_done 10000 500 31 2) (x, y).
Proof.
  do 2 eexists.
  exact (send_bw_on_library wit_host wit_debug queue_verbs queue_adapter queue_adapter_laws
    wit_fabric (rc_fabric_laws (H:=wit_host)) (rc_orderly (H:=wit_host)) 10000 500 31 2 _ _
    ltac:(split; [done|reflexivity]) (wit_native_starts wit_send_cq _)
    (wit_native_starts wit_recv_cq _) (wit_atomics _)).
Defined.

(** The acceptor's queue pair has two completion queues, the connector's one. *)
Lemma helloworld_on_library_witness :
  library_terminates_in (V:=queue_verbs) (B:=wit_debug) (F:=wit_fabric) (HelloWorld.hello_done (H:=wit_host))
    (wit_asio (B:=wit_debug) wit_recv_cq (HelloWorld.handle_qp (H:=wit_host) (B:=wit_debug)),
     wit_asio (B:=wit_debug) wit_send_cq (HelloWorld.client (H:=wit_host) (B:=wit_debug))).
Proof.
  exact (helloworld_on_library wit_host wit_debug queue_verbs queue_adapter queue_adapter_laws
    wit_fabric (rc_fabric_laws (H:=wit_host)) (rc_orderly (H:=wit_host))
    (rc_accepted (H:=wit_host) _) _ _ (wit_asio_starts _ _) (wit_asio_starts _ _)
    (wit_atomics _) (wit_atomics _)).
Defined.

Lemma rpc_on_library_witness :
  library_terminates_in (V:=queue_verbs) (B:=wit_debug) (F:=wit_fabric) rpc_done
    (wit_asio (B:=wit_debug) wit_recv_cq (RpcExample.handle_qp (H:=wit_host) (B:=wit_debug) (Some tt)),
     wit_asio (B:=wit_debug) wit_send_cq (RpcExample.client (H:=wit_host) (B:=wit_debug))).
Proof.
  exact (rpc_on_library wit_host wit_debug queue_verbs queue_adapter queue_adapter_laws
    wit_fabric (rc_fabric_laws (H:=wit_host)) (rc_orderly (H:=wit_host))
    (rc_accepted (H:=wit_host) _) tt _ _ (wit_asio_starts _ _) (wit_asio_starts _ _)
    (wit_atomics _) (wit_atomics _)).
Defined.

Lemma latency_on_library_witness :
  library_terminates_in (V:=queue_verbs) (B:=wit_debug) (F:=wit_fabric) (latency_done 1000)
    (wit_asio (B:=wit_debug) wit_send_cq (Latency.client_worker (H:=wit_host) (B:=wit_debug) 1000),
     wit_asio (B:=wit_debug) wit_recv_cq (Latency.handler (H:=wit_host) (B:=wit_debug) 1000)).
Proof.
  exact (latency_on_library wit_host wit_debug queue_verbs queue_adapter queue_adapter_laws
    wit_fabric (rc_fabric_laws (H:=wit_host)) (rc_orderly (H:=wit_host))
    (rc_accepted (H:=wit_host) _) 1000 _ _ (wit_asio_starts _ _) (wit_asio_starts _ _)
    (wit_atomics _) (wit_atomics _)).
Defined.

Lemma write_bw_on_library_witness :
  library_terminates_in (V:=queue_verbs) (B:=wit_debug) (F:=wit_fabric) (write_bw_done 1000 3)
    (wit_asio (B:=wit_debug) wit_send_cq (WriteBw.client_worker (H:=wit_host) (B:=wit_debug) 1000 3),
     wit_asio (B:=wit_debug) wit_recv_cq (WriteBw.handler (H:=wit_host) (B:=wit_debug))).
Proof.
  exact (write_bw_on_library wit_host wit_debug queue_verbs queue_adapter queue_adapter_laws
    wit_fabric (rc_fabric_laws (H:=wit_host)) (rc_orderly (H:=wit_host))
    (rc_accepted (H:=wit_host) _) 1000 3 _ _ (wit_asio_starts _ _) (wit_asio_starts _ _)
    (wit_atomics _) (wit_atomics _)).
Defined.

Lemma cancellation_on_library_witness :
  let p := (wit_asio (B:=wit_debug) wit_recv_cq (Cancellation.server),
            wit_asio (B:=wit_debug) wit_send_cq (Cancellation.client (B:=wit_debug))) in
  Acc (flip (rt_step (V:=queue_verbs) (B:=wit_debug) (F:=wit_fabric))) p ∧
  ∀ q, rtc (rt_step (V:=queue_verbs) (B:=wit_debug) (F:=wit_fabric)) p q →
    (∀ r, ¬ rt_step (V:=queue_verbs) (B:=wit_debug) (F:=wit_fabric) q r) →
    cancellation_done wit_debug queue_verbs queue_adapter q.
Proof.
  exact (cancellation_on_library wit_host wit_debug queue_verbs queue_adapter queue_adapter_laws
    wit_fabric (rc_fabric_laws (H:=wit_host)) (rc_orderly (H:=wit_host))
    (rc_accepted (H:=wit_host) _) _ _ (wit_asio_starts _ _) (wit_asio_starts _ _)
    (wit_atomics _)).
Defined.
