(* ===== verification/Connected.v ===== *)
(** * From the sockets to the coroutines (qp_connector.cc, qp_acceptor.cc over the library)

    The queue pairs that [Handshake] makes are the ones [Runtime] starts coroutines on: each
    has its own receive queue and completion queues that [alloc_cq] gave a poller.  A program
    from its first byte on the socket is then the handshake followed by the coroutines. *)

From S2P Require Import Prelude Verbs RefNic Errors Serdes Device Resources Mr Qp Operations.
From S2P Require Import Executor AsioAwait Handshake Coro Awaitables Adapter Guarded Flavour.
From S2P Require Import NativeFlavour AsioFlavour Runtime OnLibrary.
From S2P Require HelloWorld.
From stdpp Require Import options.

Section connected.
Context {V : Verbs} {H : Host} {B : Build}.

(** ** What the two ends give *)

(** A queue pair of [p], with the completion queues [rcq] and [scq]. *)
Definition made_with (p : pd) (rcq scq : cq) (t : basic_qp) : Prop :=
  own_queues t ∧ qpd_ t = p ∧ recv_cq_ t = rcq ∧ send_cq_ t = scq.

Lemma made_user_data p rcq scq d t :
  made_with p rcq scq t → made_with p rcq scq (set_user_data_ d t).
Proof.
  intros ((q & psn & t0 & -> & Hs) & Hrest). split; [|done].
  exists q, psn, (set_user_data_ d t0). unfold set_user_data_, created. simpl. by rewrite Hs.
Qed.

(** The acceptor's has two completion queues, each with a poller. *)
Lemma accept_made p bs c t c1 :
  accept p None (inr bs) c = (Ret (Some t), c1) →
  ∃ rcq scq, made_with p rcq scq t ∧ pollers_ c1 = pollers_ c ++ [scq; rcq].
Proof.
  unfold accept. intros [Hrun|(e & p1 & _ & Hh)]%try_catch_ret_inv; [|done].
  apply bind_ret_inv in Hrun as (u & p1 & Hmod & Hrun). injection Hmod as _ <-.
  apply bind_ret_inv in Hrun as (rq & p2 & Hrecv & Hrun).
  apply bind_ret_inv in Hrun as (scq & p3 & (_ & _ & _ & Hp3)%alloc_cq_ret & Hrun).
  apply bind_ret_inv in Hrun as (rcq & p4 & (_ & _ & _ & Hp4)%alloc_cq_ret & Hrun).
  apply bind_ret_inv in Hrun as (t0 & p5 & (w & Hctor & ->)%zoom_ret_inv & Hrun).
  apply bind_ret_inv in Hrun as (u2 & p6 & Hsend%owning_ret & Hrun). injection Hrun as <- <-.
  pose proof (qp_ctor_connected_attempt (hdr_lid (header rq)) (hdr_qp_num (header rq))
    (hdr_sq_psn (header rq)) (hdr_gid (header rq)) p rcq scq None (QpConfig 2048 2048)
    (peer_world p4)) as Hat.
  rewrite Hctor in Hat. destruct Hat as (q & -> & _).
  exists rcq, scq. split.
  - apply made_user_data. split; [by do 3 eexists|done].
  - apply send_qp_keeps in Hsend. cbn [pollers_] in Hsend.
    apply recv_qp_keeps in Hrecv. cbn [pollers_] in Hrecv.
    by rewrite Hsend, Hp4, Hp3, Hrecv, <- app_assoc.
Qed.

(** The connector's has one, for both directions. *)
Lemma connect_made p c t c1 p2 tc c2 :
  from_socket_open p None c = (Ret t, c1) → from_socket_finish t p2 = (Ret tc, c2) →
  ∃ cq, made_with p cq cq tc ∧ pollers_ c1 = pollers_ c ++ [cq] ∧ pollers_ c2 = pollers_ p2.
Proof.
  intros Hopen Hfin. unfold from_socket_open in Hopen.
  apply bind_ret_inv in Hopen as (cq & p3 & (_ & _ & _ & Hp3)%alloc_cq_ret & Hopen).
  apply bind_ret_inv in Hopen as (t0 & p4 & (w & Hctor & ->)%zoom_ret_inv & Hopen).
  apply bind_ret_inv in Hopen as (u & p5 & Hsend%owning_ret%send_qp_keeps & Hopen).
  injection Hopen as -> ->.
  pose proof (qp_ctor_attempt p cq cq None (QpConfig 512 512) (peer_world p3)) as Hat.
  rewrite Hctor in Hat. destruct Hat as (q & -> & _).
  unfold from_socket_finish in Hfin.
  apply bind_ret_inv in Hfin as (rq & p6 & Hrecv%owning_ret%recv_qp_keeps & Hfin).
  pose proof Hfin as Hpoll. apply zoom_ret_inv in Hpoll as (w2 & _ & ->).
  apply (finish_calls _ q) in Hfin as [-> _]; [|done].
  exists cq. split_and!.
  - apply made_user_data. split; [by do 3 eexists|done].
  - by rewrite Hsend, <- Hp3.
  - exact Hrecv.
Qed.

(** ** The process on such a queue pair *)

Context {A : Adapter V}.

(** [t] is the object of identity [id], in the world [w]; its pollers have the default batch
    size. *)
Definition connected_env (id : Z) (t : basic_qp) (w : world) : op_env := OpEnv {[id := t]} w.
Definition connected_proc {FL : Flavour} (id : Z) (t : basic_qp) (s : exec) : proc FL :=
  Proc id t s (wc_vec_ (cq_poller_ctor (recv_cq_ t) 16 s))
    (wc_vec_ (cq_poller_ctor (send_cq_ t) 16 s)).

(** Nothing has been posted or completed on a new queue pair. *)
Definition at_rest (t : basic_qp) (w : world) : Prop :=
  sendq (qp_ t) (w_nic w) = [] ∧ recvq (qp_ t) (w_nic w) = [] ∧
  compq (cq_ (recv_cq_ t)) (w_nic w) = [] ∧ compq (cq_ (send_cq_ t)) (w_nic w) = [].

Lemma connected_starts {FL : Flavour} {FS : FlavourSpec FL} (id : Z) (t : basic_qp) (w : world)
    (c : coro unit) (s : exec) :
  own_queues t → at_rest t w → idle s → exec_env s = connected_env id t w →
  exec_task s = Task c node0 [] → starts c (connected_proc id t s).
Proof.
  intros Hown (Hs & Hr & Hcr & Hcs) Hi He Ht.
  split; [done|done| | |].
  - by split; unfold pr_nic, pr_env; simpl; rewrite He.
  - by split; unfold recv_cq, send_cq, pr_nic, pr_env; simpl; rewrite He.
  - split; try done. unfold pr_env. simpl. rewrite He. simpl. by rewrite lookup_singleton_eq.
Qed.

Lemma asio_connected_starts id t w c :
  own_queues t → at_rest t w →
  starts c (connected_proc (FL:=AsioFlavour) id t (asio_start c (connected_env id t w))).
Proof. intros Hown Hrest. by apply (connected_starts id t w). Qed.

(** The devices of the protection domain support the atomic operations. *)
Definition pd_atomics (p : pd) : Prop :=
  is_fetch_and_add_supported (pd_device_ p) = true ∧
  is_compare_and_swap_supported (pd_device_ p) = true.
End connected.

(** C6: the hello-world example from its handshake on.  A connector and an acceptor that have
    gone through the exchange, their queue pairs new, start the coroutines of the example on
    what they got, each with the pollers [alloc_cq] made.  On any adapter and reliable
    connection between the two, every execution of coroutines, callbacks, pollers and
    connection terminates, both coroutines finished, every region deregistered, with exactly
    the outputs [server_out] and [client_out]: the client is shown the address, length and key
    of the regions the server has registered, the text of 5 bytes, the counter and the large
    buffer; at these addresses the server's memory ends with the client's text, the counter
    at 42 and the client's zeros.  (The counter is 42 because the client's [write_with_imm]
    between the two atomic operations puts back the value it fetched before adding 1; and the
    server shows the text's region where it has sent the large one.)  That the exchange
    connects the two to each other is [Handshake.handshake_agreement]. *)
Theorem helloworld_connected (H : Host) (B : Build) (V : Verbs) (A : Adapter V)
    (AL : AdapterLaws V) (F : Fabric) (L : FabricLaws F) (FO : Orderly F)
    (AX : Accepted AsioFlavour F) (pc ps : pd) (c0 c1 c2 s0 s1 : peer) (t tc ts : basic_qp)
    (idc ids : Z) :
  from_socket_open pc None c0 = (Ret t, c1) →
  accept ps None (inr (sock_out c1)) s0 = (Ret (Some ts), s1) →
  from_socket_finish t (with_in (sock_out s1) c1) = (Ret tc, c2) →
  at_rest tc (peer_world c2) → at_rest ts (peer_world s1) → pd_atomics pc → pd_atomics ps →
  pollers_ s1 = pollers_ s0 ++ [send_cq_ ts; recv_cq_ ts] ∧
  (recv_cq_ tc = send_cq_ tc ∧ pollers_ c2 = pollers_ c0 ++ [send_cq_ tc]) ∧
  library_terminates_in (FX:=AsioFlavour) (FY:=AsioFlavour) HelloWorld.hello_done
    (connected_proc ids ts
       (asio_start HelloWorld.handle_qp (connected_env ids ts (peer_world s1))),
     connected_proc idc tc
       (asio_start HelloWorld.client (connected_env idc tc (peer_world c2)))).
Proof.
  intros Hopen Hacc Hfin Hrc Hrs Hac Has.
  destruct (accept_made _ _ _ _ _ Hacc) as (rcq & scq & (Hown & Hpd & Hr & Hs) & Hpoll).
  destruct (connect_made _ _ _ _ _ _ _ Hopen Hfin)
    as (cq & (Hownc & Hpdc & Hrc' & Hsc') & Hpollc & Hpollc2).
  split; [by rewrite Hs, Hr|]. split; [by rewrite Hrc', Hsc', Hpollc2|].
  pose proof (asio_connected_starts ids ts _ HelloWorld.handle_qp Hown Hrs) as Hx.
  pose proof (asio_connected_starts idc tc _ HelloWorld.client Hownc Hrc) as Hy.
  assert (atomics_supported ts) as Hats by (unfold atomics_supported; by rewrite Hpd).
  assert (atomics_supported tc) as Hatc by (unfold atomics_supported; by rewrite Hpdc).
  run_on_library Hx Hy (hello_server_guarded _ Hats) (hello_client_guarded _ Hatc).
  by apply HelloWorld.helloworld_runs.
Qed.

(** ** Witness *)

Definition wit_net : peer (V:=queue_verbs) :=
  Peer (V:=queue_verbs) (World (V:=queue_verbs) (QueueNic rnic0 [] [] ∅) [] 1) [] [] false [].
Definition wit_client : outcome basic_qp * peer (V:=queue_verbs) :=
  from_socket_open (V:=queue_verbs) (H:=wit_host) (H0:=wit_debug) wit_qpd None wit_net.
Definition wit_server : outcome (option basic_qp) * peer (V:=queue_verbs) :=
  accept (V:=queue_verbs) (H:=wit_host) (H0:=wit_debug) wit_qpd None
    (inr (sock_out wit_client.2)) wit_net.
Definition wit_connected (x : outcome basic_qp) : outcome basic_qp * peer (V:=queue_verbs) :=
  from_socket_finish (V:=queue_verbs) (H:=wit_host) (wit_made x)
    (with_in (V:=queue_verbs) (sock_out wit_server.2) wit_client.2).

Definition wit_some (x : outcome (option basic_qp)) : basic_qp :=
  match x with Ret (Some t) => t | _ => wit_qp end.

#[local] Strategy -1000 [wit_client wit_server wit_connected].

Lemma helloworld_connected_witness :
  ∃ ts tc, wit_server.1 = Ret (Some ts) ∧ (wit_connected wit_client.1).1 = Ret tc ∧
    library_terminates_in (V:=queue_verbs) (B:=wit_debug) (F:=wit_fabric) (HelloWorld.hello_done (H:=wit_host))
      (connected_proc (V:=queue_verbs) (B:=wit_debug) 1 ts (asio_start (V:=queue_verbs)
         (HelloWorld.handle_qp (H:=wit_host) (B:=wit_debug))
         (connected_env (V:=queue_verbs) 1 ts (peer_world wit_server.2))),
       connected_proc (V:=queue_verbs) (B:=wit_debug) 2 tc (asio_start (V:=queue_verbs)
         (HelloWorld.client (H:=wit_host) (B:=wit_debug))
         (connected_env (V:=queue_verbs) 2 tc (peer_world (wit_connected wit_client.1).2)))).
Proof.
  exists (wit_some wit_server.1), (wit_made (wit_connected wit_client.1).1).
  split; [vm_compute; reflexivity|]. split; [vm_compute; reflexivity|].
  apply (helloworld_connected wit_host wit_debug queue_verbs queue_adapter queue_adapter_laws
    wit_fabric (rc_fabric_laws (H:=wit_host)) (rc_orderly (H:=wit_host))
    (rc_accepted (H:=wit_host) _) wit_qpd wit_qpd wit_net wit_client.2
    (wit_connected wit_client.1).2 wit_net wit_server.2 (wit_made wit_client.1)).
  - exact (run_pair wit_client _ ltac:(vm_compute; reflexivity)).
  - exact (run_pair wit_server _ ltac:(vm_compute; reflexivity)).
  - exact (run_pair (wit_connected wit_client.1) _ ltac:(vm_compute; reflexivity)).
  - vm_compute. by repeat split.
  - vm_compute. by repeat split.
  - by split.
  - by split.
Defined.
