(* ===== verification/Servers.v ===== *)
(** * The acceptor loops of the examples, over the handshake

    What the servers of the examples make of the connections that arrive.  A coroutine that
    is spawned on the context of the loop runs up to its first suspension before that context
    comes to the next connection. *)

From S2P Require Import Prelude Verbs RefNic Errors Serdes Device Resources Mr Qp Operations.
From S2P Require Import Handshake Coro HelloWorld RpcExample Latency WriteBw.
From stdpp Require Import options.

Section servers.
Context {V : Verbs} {H : Host} {B : Build} (p : pd) (s : option srq).

Fixpoint accept_each (arrivals : list (exn + bytes)) : M peer (list (option basic_qp)) :=
  match arrivals with
  | [] => mret []
  | incoming :: arrivals =>
      qp ← accept p s incoming; l ← accept_each arrivals; mret (qp :: l)
  end.

(** *** helloworld_handler.cc, rpc.cc, latency.cc *)

(** A coroutine at its first suspension. *)
Definition started (h : coro unit) : coro unit := s_code (solo 20 (side_init h)).

(** [co_spawn] on the executor of the loop, whose thread then starts the coroutine; [detached]
    drops its exceptions. *)
Definition co_spawn {S} (h : coro unit) : M S (coro unit) :=
  match started h with
  | Stop Terminate => mterminate
  | Stop Abort => λ s, (Abort, s)
  | Stop Undefined => mundefined
  | _ => mret h
  end.

(** The loop, with what its body spawns for the queue pair it was given, if anything; the
    result is the coroutines spawned. *)
Fixpoint accept_loop (spawns : option basic_qp → option (coro unit)) (arrivals : list (exn + bytes))
    : M peer (list (coro unit)) :=
  match arrivals with
  | [] => mret []
  | incoming :: arrivals =>
      qp ← accept p s incoming;
      spawned ← match spawns qp with Some h => h ← co_spawn h; mret [h] | None => mret [] end;
      rest ← accept_loop spawns arrivals;
      mret (spawned ++ rest)
  end.

(** [if (!qp) continue]. *)
Definition helloworld_server : list (exn + bytes) → M peer (list (coro unit)) :=
  accept_loop (λ qp, match qp with Some _ => Some HelloWorld.handle_qp | None => None end).

Definition rpc_server : list (exn + bytes) → M peer (list (coro unit)) :=
  accept_loop (λ qp, Some (RpcExample.handle_qp qp)).

(** A coroutine that dereferences the queue pair it is given. *)
Definition with_qp (handler : coro unit) (qp : option basic_qp) : coro unit :=
  match qp with Some _ => handler | None => Stop Undefined end.

Definition latency_server (kSendCount : nat) : list (exn + bytes) → M peer (list (coro unit)) :=
  accept_loop (λ qp, Some (with_qp (Latency.handler kSendCount) qp)).

(** *** cancellation.cc

    The loop serves a queue pair itself; [goes_on qp]: serving it did not end in an
    exception.  The result is what it has served, and whether it still accepts. *)
Fixpoint cancellation_server (goes_on : basic_qp → bool) (arrivals : list (exn + bytes))
    : M peer (list basic_qp * bool) :=
  match arrivals with
  | [] => mret ([], true)
  | incoming :: arrivals =>
      qp ← accept p s incoming;
      match qp with
      | None => cancellation_server goes_on arrivals
      | Some qp =>
          if goes_on qp then
            '(served, accepting) ← cancellation_server goes_on arrivals;
            mret (qp :: served, accepting)
          else mret ([qp], false)
      end
  end.

(** *** write_bw.cc

    [n] more connections are accepted; a handler is spawned on the context the pool gives,
    which another thread runs: when it starts, and dereferences what [accept] gave, is not
    determined by this loop. *)
Definition on_acceptor {R} : M peer R → M (peer * io_ctx_pool) R := zoom fst (λ c x, (c, x.2)).
Definition on_pool {R} : M io_ctx_pool R → M (peer * io_ctx_pool) R := zoom snd (λ c x, (x.1, c)).

Fixpoint write_bw_server (n : nat) (arrivals : list (exn + bytes))
    : M (peer * io_ctx_pool) (list (nat * coro unit)) :=
  match n, arrivals with
  | S n, incoming :: arrivals =>
      qp ← on_acceptor (accept p s incoming);
      context ← on_pool get_shared;
      spawned ← write_bw_server n arrivals;
      mret ((context, with_qp WriteBw.handler qp) :: spawned)
  | _, _ => mret []
  end.

(** *** The client's loop: a connection is its endpoints, whether one of them was reached, and
    what then arrives on the socket; [id] is that of the next worker. *)
Definition connection : Type := list string * option exn * bytes.

Definition connect_over (x : connection) : M peer basic_qp :=
  mmodify (λ c, Peer (peer_world c) x.2 [] (sock_broken c) (pollers_ c)) ;;
  connect p s x.1.1 x.1.2.

Fixpoint connect_each (connections : list connection) : M peer (list basic_qp) :=
  match connections with
  | [] => mret []
  | x :: connections =>
      qp ← connect_over x; l ← connect_each connections; mret (qp :: l)
  end.

Definition on_connector {R} : M peer R → M (peer * io_ctx_pool) R := on_acceptor.

Fixpoint write_bw_client (kSendCount n : nat) (id : Z) (connections : list connection)
    : M (peer * io_ctx_pool) (list (nat * coro unit)) :=
  match n, connections with
  | S n, x :: connections =>
      qp ← on_connector (connect_over x);
      context ← on_pool get_shared;
      spawned ← write_bw_client kSendCount n (id + 1) connections;
      mret ((context, WriteBw.client_worker kSendCount id) :: spawned)
  | _, _ => mret []
  end.

(** ** Lemmas *)

Lemma accept_each_total arrivals c :
  ∃ l c', accept_each arrivals c = (Ret l, c') ∧ length l = length arrivals.
Proof.
  revert c. induction arrivals as [|a arrivals IH]; intros c; [by exists [], c|].
  destruct (accept_total H p s a c) as (r & c1 & Ha & _). destruct (IH c1) as (l & c' & Hl & Hlen).
  exists (r :: l), c'. simpl. rewrite (bind_ret _ _ _ _ _ Ha), (bind_ret _ _ _ _ _ Hl).
  split; [done|]. by f_equal.
Qed.

(** A coroutine that can be started. *)
Definition startable (h : coro unit) : Prop := ∀ S (s0 : S), co_spawn h s0 = (Ret h, s0).

(** It awaits an operation of the library. *)
Definition suspends (h : coro unit) : bool :=
  match started h with
  | Await (AwaitSend _ _) _ | Await (AwaitRecv _) _ => true
  | _ => false
  end.

Lemma startable_by h : suspends h = true → startable h.
Proof.
  unfold suspends, startable, co_spawn. intros Hh S s0.
  by destruct (started h) as [|[]|].
Qed.

Lemma starts_hello : startable HelloWorld.handle_qp.
Proof. apply startable_by. destruct H as [[]]; vm_compute; reflexivity. Qed.
Lemma starts_rpc (qp : basic_qp) : startable (RpcExample.handle_qp (Some qp)).
Proof. apply startable_by. destruct H as [[]]; vm_compute; reflexivity. Qed.
Lemma starts_latency n : startable (Latency.handler n).
Proof. apply startable_by. destruct H as [[]]; vm_compute; reflexivity. Qed.

Definition spawns_well (spawns : option basic_qp → option (coro unit)) (qp : option basic_qp) : Prop :=
  ∀ h, spawns qp = Some h → startable h.

Lemma accept_loop_turn spawns a arrivals c r c1 :
  accept p s a c = (Ret r, c1) → spawns_well spawns r →
  accept_loop spawns (a :: arrivals) c =
    (rest ← accept_loop spawns arrivals; mret (option_list (spawns r) ++ rest)) c1.
Proof.
  intros Ha Hr. cbn [accept_loop]. rewrite (bind_ret _ _ _ _ _ Ha).
  destruct (spawns r) as [h|] eqn:Hs; [|done].
  erewrite bind_ret; [reflexivity|]. by rewrite (bind_ret _ _ _ _ _ (Hr h Hs peer c1)).
Qed.

Lemma accept_each_cons a arrivals c l c' :
  accept_each (a :: arrivals) c = (Ret l, c') →
  ∃ r l' c1, l = r :: l' ∧ accept p s a c = (Ret r, c1) ∧ accept_each arrivals c1 = (Ret l', c').
Proof.
  intros Hl. cbn [accept_each] in Hl. apply bind_ret_inv in Hl as (r & c1 & Ha & Hl).
  apply bind_ret_inv in Hl as (l' & c2 & Hl & [= <- <-]). eauto 6.
Qed.

Lemma accept_each_take arrivals l c c' i :
  accept_each arrivals c = (Ret l, c') → i < length l →
  ∃ c1, accept_each (take (S i) arrivals) c = (Ret (take (S i) l), c1).
Proof.
  revert l c i. induction arrivals as [|a arrivals IH]; intros l c i Hl Hi.
  { injection Hl as <- <-. simpl in Hi. lia. }
  apply accept_each_cons in Hl as (r & l' & c1 & -> & Ha & Hl). cbn [take accept_each].
  rewrite (bind_ret _ _ _ _ _ Ha). destruct i as [|i].
  - by exists c1.
  - destruct (IH l' c1 i Hl ltac:(simpl in Hi; lia)) as (c2 & Ht). exists c2.
    by rewrite (bind_ret _ _ _ _ _ Ht).
Qed.

(** The loop when nothing it spawns ends the process. *)
Lemma accept_loop_runs spawns arrivals l c c' :
  accept_each arrivals c = (Ret l, c') → Forall (spawns_well spawns) l →
  accept_loop spawns arrivals c = (Ret (omap spawns l), c').
Proof.
  revert l c. induction arrivals as [|a arrivals IH]; intros l c Hl Hall.
  { by injection Hl as <- <-. }
  apply accept_each_cons in Hl as (r & l' & c1 & -> & Ha & Hl). apply Forall_cons in Hall as [Hr Hall].
  rewrite (accept_loop_turn _ _ _ _ _ _ Ha Hr), (bind_ret _ _ _ _ _ (IH _ _ Hl Hall)). simpl.
  by destruct (spawns r).
Qed.

(** The loop when the [i]-th coroutine is undefined from the start. *)
Lemma accept_loop_stops spawns arrivals l c c' c1 i qp h :
  accept_each arrivals c = (Ret l, c') →
  accept_each (take (S i) arrivals) c = (Ret (take (S i) l), c1) →
  l !! i = Some qp → spawns qp = Some h → started h = Stop Undefined →
  Forall (spawns_well spawns) (take i l) →
  accept_loop spawns arrivals c = (Undefined, c1).
Proof.
  revert l c i. induction arrivals as [|a arrivals IH]; intros l c i Hl H1 Hi Hs Hu Hall.
  { by injection Hl as <- <-. }
  apply accept_each_cons in Hl as (r & l' & c2 & -> & Ha & Hl).
  apply accept_each_cons in H1 as (r' & l1 & c3 & Heq & Ha' & H1).
  rewrite Ha in Ha'. injection Ha' as <- <-. injection Heq as <-.
  destruct i as [|i].
  - injection Hi as ->. injection H1 as <-. cbn [accept_loop]. rewrite (bind_ret _ _ _ _ _ Ha).
    unfold mbind, M_bind, co_spawn. by rewrite Hs, Hu.
  - apply Forall_cons in Hall as [Hr Hall]. rewrite (accept_loop_turn _ _ _ _ _ _ Ha Hr).
    unfold mbind, M_bind. by rewrite (IH l' c2 i Hl H1 Hi Hs Hu Hall).
Qed.

Lemma on_acceptor_run {R} (m : M peer R) c q r c' :
  m c = (r, c') → on_acceptor m (c, q) = (r, (c', q)).
Proof. intros Hm. unfold on_acceptor, zoom. simpl. by rewrite Hm. Qed.

Lemma on_pool_run {R} (m : M io_ctx_pool R) c q r q' :
  m q = (r, q') → on_pool m (c, q) = (r, (c, q')).
Proof. intros Hm. unfold on_pool, zoom. simpl. by rewrite Hm. Qed.

(** write_bw.cc's loop is the acceptor's and the pool's side by side. *)
Lemma write_bw_server_run n arrivals c q :
  n ≤ length arrivals →
  ∀ places q', get_many n q = (Ret places, q') →
  ∃ l c', accept_each (take n arrivals) c = (Ret l, c') ∧
    write_bw_server n arrivals (c, q) =
      (Ret (zip places (with_qp WriteBw.handler <$> l)), (c', q')).
Proof.
  revert arrivals c q. induction n as [|n IH]; intros arrivals c q Hlen places q' Hq.
  { injection Hq as <- <-. by exists [], c. }
  destruct arrivals as [|a arrivals]; [simpl in Hlen; lia|].
  cbn [get_many] in Hq. apply bind_ret_inv in Hq as (i & q1 & Hi & Hq).
  apply bind_ret_inv in Hq as (places' & q2 & Hq & [= <- <-]).
  destruct (accept_total H p s a c) as (r & c1 & Ha & _).
  destruct (IH arrivals c1 q1 ltac:(simpl in Hlen; lia) places' q2 Hq) as (l & c' & Hl & Hw).
  exists (r :: l), c'. simpl. rewrite (bind_ret _ _ _ _ _ Ha), (bind_ret _ _ _ _ _ Hl).
  split; [done|]. rewrite (bind_ret _ _ _ _ _ (on_acceptor_run _ _ _ _ _ Ha)).
  rewrite (bind_ret _ _ _ _ _ (on_pool_run _ _ _ _ _ Hi)). by rewrite (bind_ret _ _ _ _ _ Hw).
Qed.

(** write_bw.cc's client: if a connection fails the loop fails with it. *)
Lemma write_bw_client_run kSendCount n id connections c q :
  n ≤ length connections →
  ∀ places q', get_many n q = (Ret places, q') →
  ∀ r c', connect_each (take n connections) c = (r, c') →
  ∃ q'', write_bw_client kSendCount n id connections (c, q) =
    (match r with
     | Ret _ => Ret (zip places (WriteBw.client_worker kSendCount <$> seqZ id (Z.of_nat n)))
     | Throw e => Throw e
     | Terminate => Terminate
     | Abort => Abort
     | Undefined => Undefined
     end, (c', q'')).
Proof.
  revert connections id c q. induction n as [|n IH]; intros l id c q Hlen places q' Hq r c' Hc.
  { injection Hq as <- <-. injection Hc as <- <-. by exists q. }
  destruct l as [|x l]; [simpl in Hlen; lia|].
  cbn [get_many] in Hq. apply bind_ret_inv in Hq as (i & q1 & Hi & Hq).
  apply bind_ret_inv in Hq as (places' & q2 & Hq & [= <- <-]).
  cbn [take connect_each] in Hc. cbn [write_bw_client].
  destruct (connect_over x c) as [rx c1] eqn:Hx.
  unfold mbind, M_bind in Hc |- *. rewrite Hx in Hc. unfold on_connector.
  rewrite (on_acceptor_run _ _ _ _ _ Hx).
  destruct rx as [qp|e| | |]; try (injection Hc as <- <-; by exists q).
  rewrite (on_pool_run _ _ _ _ _ Hi).
  destruct (connect_each (take n l) c1) as [r2 c2] eqn:Hl.
  destruct (IH l (id + 1)%Z c1 q1 ltac:(simpl in Hlen; lia) places' q2 Hq _ _ Hl) as (q3 & Hw).
  exists q3. rewrite Hw. destruct r2; injection Hc as <- <-; try done.
  rewrite (seqZ_cons id) by lia.
  by replace (Z.pred (Z.of_nat (S n))) with (Z.of_nat n) by lia.
Qed.

(** ** Properties *)

(** C35: the acceptor loops of the examples.  Whatever arrives, the hello-world server
    accepts every connection, skips the handshakes that failed, and spawns a handler for each
    queue pair it got.  The servers of rpc.cc and latency.cc do the same as long as every
    handshake succeeds; the first that fails is the last they accept: the handler they spawn
    for it dereferences a null pointer, which is undefined behaviour, before anything else is
    accepted. *)
Theorem servers_serve kSendCount arrivals c :
  ∃ l c', accept_each arrivals c = (Ret l, c') ∧ length l = length arrivals ∧
    helloworld_server arrivals c =
      (Ret (replicate (length (omap id l)) HelloWorld.handle_qp), c') ∧
    (Forall is_Some l →
     rpc_server arrivals c = (Ret (RpcExample.handle_qp <$> l), c') ∧
     latency_server kSendCount arrivals c =
       (Ret (replicate (length l) (Latency.handler kSendCount)), c')) ∧
    ∀ i, l !! i = Some None → Forall is_Some (take i l) →
      ∃ c1, accept_each (take (S i) arrivals) c = (Ret (take (S i) l), c1) ∧
        rpc_server arrivals c = (Undefined, c1) ∧
        latency_server kSendCount arrivals c = (Undefined, c1).
Proof.
  destruct (accept_each_total arrivals c) as (l & c' & Hl & Hlen). exists l, c'.
  split; [done|]. split; [done|]. split_and!.
  - unfold helloworld_server. rewrite (accept_loop_runs _ _ _ _ _ Hl).
    + f_equal. f_equal. clear Hl Hlen. induction l as [|[] l IH]; [done|..|done].
      simpl. by f_equal.
    + apply Forall_forall. intros [] _ ? [= <-]. apply starts_hello.
  - intros Hall. split.
    + unfold rpc_server. rewrite (accept_loop_runs _ _ _ _ _ Hl).
      * by f_equal.
      * eapply Forall_impl; [exact Hall|]. intros ? [qp ->] ? [= <-]. apply starts_rpc.
    + unfold latency_server. rewrite (accept_loop_runs _ _ _ _ _ Hl).
      * f_equal. f_equal. clear Hl Hlen. induction Hall as [|x l [qp ->] Hl IH]; [done|].
        simpl. by f_equal.
      * eapply Forall_impl; [exact Hall|]. intros ? [qp ->] ? [= <-]. apply starts_latency.
  - intros i Hi Hbefore. destruct (accept_each_take arrivals l c c' i Hl) as (c1 & H1);
      [by eapply lookup_lt_Some|].
    exists c1. split; [done|]. split.
    + eapply (accept_loop_stops _ _ _ _ _ _ _ _ _ Hl H1 Hi); [reflexivity|vm_compute; reflexivity|].
      eapply Forall_impl; [exact Hbefore|]. intros ? [qp ->] ? [= <-]. apply starts_rpc.
    + eapply (accept_loop_stops _ _ _ _ _ _ _ _ _ Hl H1 Hi); [reflexivity|reflexivity|].
      eapply Forall_impl; [exact Hbefore|]. intros ? [qp ->] ? [= <-]. apply starts_latency.
Qed.

(** The cancellation server skips the handshakes that failed and serves the queue pairs
    in the order of their arrival, until serving one ends in an exception: that one is the
    last it serves, and what arrives after it is not accepted. *)
Theorem cancellation_serves goes_on arrivals c :
  ∃ n l c' served accepting, n ≤ length arrivals ∧
    accept_each (take n arrivals) c = (Ret l, c') ∧
    cancellation_server goes_on arrivals c = (Ret (served, accepting), c') ∧
    served = omap id l ∧
    if (accepting : bool) then n = length arrivals ∧ Forall goes_on served
    else ∃ before qp, served = before ++ [qp] ∧ Forall goes_on before ∧ goes_on qp = false.
Proof.
  revert c. induction arrivals as [|a arrivals IH]; intros c.
  { exists 0, [], c, [], true. by split_and!. }
  destruct (accept_total H p s a c) as (r & c1 & Ha & _). cbn [cancellation_server].
  rewrite (bind_ret _ _ _ _ _ Ha).
  destruct (IH c1) as (n & l & c' & served & accepting & Hn & Hl & Hs & Heq & Hacc).
  destruct r as [qp|]; [destruct (goes_on qp) eqn:Hqp|].
  - exists (S n), (Some qp :: l), c', (qp :: served), accepting. cbn [take accept_each].
    rewrite (bind_ret _ _ _ _ _ Ha), (bind_ret _ _ _ _ _ Hl), (bind_ret _ _ _ _ _ Hs).
    split_and!; [simpl; lia|done|done|simpl; by f_equal|]. destruct accepting.
    + destruct Hacc as [-> Hf]. split; [done|]. constructor; [by rewrite Hqp|done].
    + destruct Hacc as (before & qp' & -> & Hf & Hq). exists (qp :: before), qp'.
      split_and!; [done| |done]. constructor; [by rewrite Hqp|done].
  - exists 1, [Some qp], c1, [qp], false. cbn [take accept_each].
    rewrite (bind_ret _ _ _ _ _ Ha). split_and!; [simpl; lia|done..|]. by exists [], qp.
  - exists (S n), (None :: l), c', served, accepting. cbn [take accept_each].
    rewrite (bind_ret _ _ _ _ _ Ha), (bind_ret _ _ _ _ _ Hl).
    split_and!; [simpl; lia|done..|]. destruct accepting; [|done].
    destruct Hacc as [-> Hf]. by split.
Qed.

(** C36: write_bw.cc's server accepts as many connections as there are contexts, whatever
    the handshakes give, and spawns each handler on a context of its own: whatever the
    counter of the pool has come to, a wrap of its 32 bits included, the contexts it takes
    are those of the pool in some order.  (A handler starts on the thread of its context, and
    one that was given the null pointer of a failed handshake is then undefined.) *)
Theorem write_bw_serves arrivals c z w :
  kQP ≤ length arrivals →
  ∃ l spawned c' q', accept_each (take kQP arrivals) c = (Ret l, c') ∧
    write_bw_server kQP arrivals (c, IoCtxPool (i32 z) (replicate kQP false) w) =
      (Ret spawned, (c', q')) ∧
    spawned.*1 ≡ₚ seq 0 kQP ∧ spawned.*2 = with_qp WriteBw.handler <$> l.
Proof.
  intros Hlen. destruct (get_many_turn (replicate kQP false) ltac:(done) ltac:(by exists (2 ^ 30)%Z)
    z w) as (places & q' & Hq & Hperm).
  destruct (write_bw_server_run kQP arrivals c _ Hlen places q' Hq) as (l & c' & Hl & Hw).
  exists l. eexists _, c', q'. split; [done|]. split; [exact Hw|].
  assert (length l = kQP) as Hl4.
  { destruct (accept_each_total (take kQP arrivals) c) as (l2 & c2 & Hl2 & Hlen2).
    rewrite Hl in Hl2. injection Hl2 as -> _. rewrite Hlen2, length_take. lia. }
  apply Permutation_length in Hperm as Hp4. rewrite length_seq, length_replicate in Hp4.
  rewrite fst_zip, snd_zip by (rewrite length_fmap; lia). by rewrite Hperm, length_replicate.
Qed.

(** write_bw.cc's client: when all its connections are made, worker [i] runs on the [i]-th,
    and no two on the same context; when one fails, the loop ends in that exception, or in
    what else ended the connection. *)
Theorem write_bw_connects kSendCount connections c z w :
  kQP ≤ length connections →
  ∃ r c' x, connect_each (take kQP connections) c = (r, c') ∧
    write_bw_client kSendCount kQP 0 connections (c, IoCtxPool (i32 z) (replicate kQP false) w) = x ∧
    match r with
    | Ret _ => ∃ spawned, x.1 = Ret spawned ∧ spawned.*1 ≡ₚ seq 0 kQP ∧
        spawned.*2 = WriteBw.client_worker kSendCount <$> [0; 1; 2; 3]%Z
    | Throw e => x.1 = Throw e
    | Terminate => x.1 = Terminate
    | Abort => x.1 = Abort
    | Undefined => x.1 = Undefined
    end.
Proof.
  intros Hlen. destruct (get_many_turn (replicate kQP false) ltac:(done) ltac:(by exists (2 ^ 30)%Z)
    z w) as (places & q' & Hq & Hperm).
  destruct (connect_each (take kQP connections) c) as [r c'] eqn:Hc.
  destruct (write_bw_client_run kSendCount kQP 0 connections c _ Hlen places q' Hq _ _ Hc)
    as (q2 & Hw).
  exists r, c'. eexists. split; [done|]. split; [exact Hw|]. destruct r; try done.
  eexists. split; [done|].
  apply Permutation_length in Hperm as Hp4. rewrite length_seq, length_replicate in Hp4.
  rewrite fst_zip, snd_zip by (rewrite length_fmap, length_seqZ; lia).
  split; [by rewrite Hperm, length_replicate|done].
Qed.
End servers.

(** ** Witness *)

Lemma write_bw_serves_witness :
  ∃ spawned x, write_bw_server (V:=good) (H:=wit_little) (B:=wit_build) wit_qpd None kQP
      (replicate 5 (inl (RuntimeError "reset")))
      (wit_peer, IoCtxPool (i32 (2 ^ 31 - 2)) (replicate kQP false) []) = (Ret spawned, x) ∧
    spawned.*1 ≡ₚ seq 0 kQP.
Proof.
  destruct (write_bw_serves (V:=good) (H:=wit_little) (B:=wit_build) wit_qpd None
    (replicate 5 (inl (RuntimeError "reset"))) wit_peer (2 ^ 31 - 2) [] ltac:(unfold kQP; simpl; lia))
    as (l & spawned & c' & q' & _ & Hw & Hp & _).
  exists spawned, (c', q'). split; [exact Hw|exact Hp].
Defined.
